(* ===== verification/_CoqProject ===== *)
-Q . S2P
Prelude.v
Keyed.v
Text.v
BTree.v
NativePath.v
PlatformPath.v
IpAddr.v
IpText.v
Access.v
Selector.v
PathPattern.v
FsPolicy.v
Domain.v
LocalIpc.v
NetPolicy.v
Policy.v
Environment.v
Command.v
Compose.v
Effective.v
Requirements.v
EffectiveEnv.v
Backend.v
GrantId.v
Permissions.v
HostFs.v
GrantStore.v
GrantListing.v
StoreRefinement.v
GatewayConfig.v
GatewayError.v
Authority.v
Ingress.v
Connect.v
Relay.v
Socks.v
HttpProxy.v
Gateway.v
ConfigError.v
ConfigModel.v
ConfigGraph.v
Indexed.v
ConfigMerge.v
ConfigLayers.v
ConfigBuild.v
ConfigSource.v
ConfigResolve.v
ConfigSafety.v
Preflight.v
PreflightSafety.v
LinuxHost.v
LinuxGlob.v
LinuxMounts.v
LinuxDescriptors.v
LinuxTable.v
LinuxBwrap.v
LinuxGoverned.v
LinuxEnforce.v
LinuxExamples.v
LinuxChannel.v
LinuxFrames.v
LinuxIpc.v
MacosFilesystem.v
MacosSeatbelt.v
MacosProfile.v
MacosNetwork.v
MacosBackend.v
MacosExamples.v
