(* ===== verification/Prelude.v ===== *)
(** * Cageforge: a verification of the sandbox core and of its lowerings

    Cageforge runs untrusted commands inside a native sandbox.  Its portable
    core decides what a command may do: hosts write policies, compose a
    requested policy with a ceiling, ask for permission, and hand the
    composition to a native backend that must enforce it.  This library models
    that core from [src/crates], and the parts of the Linux and macOS backends
    that turn a policy into the arguments, frames and profiles of a launch, and
    proves the properties a host relies on.

    ** The program and its models

    - [cageforge-path] (lexical path primitives): [NativePath] has [std::path]
      on Unix and [paths_equal], [is_within], [normalize_lexical_path],
      [resolve_lexical_path]; [PlatformPath] has the portable path keys of both
      dialects.  [Text] holds the byte-string, UTF-8 and Unicode operations of
      the standard library that the sources call; [BTree] its ordered maps.
    - [cageforge-policy]: [Access] (modes, errors, the globset interface),
      [Selector] (path selectors and [PathResolutionContext]), [PathPattern]
      (validated globs and their matcher), [FsPolicy] over [Keyed] (rules,
      decisions, normalization), [IpAddr], [Domain], [LocalIpc] and [NetPolicy]
      (addresses, host patterns, sockets and pipes, network decisions), and
      [Policy] ([SandboxPolicy] and its presets).
    - [cageforge-command]: [Environment] (specifications, overrides, filtering)
      and [Command] (command, stdio, timeout and request builders).
    - [cageforge-policy-compose]: [Compose] ([compose], ownership, workspace
      roots, [path_context]), [Effective] (decisions of a composed sandbox),
      [Requirements] (aggregate requirements and lowering layers) and
      [EffectiveEnv] (the composed environment).
    - [cageforge-backend-api]: [Backend] (capabilities, [required_capabilities],
      [validate], the accessors of a prepared request, [launch]).
    - [cageforge-permissions]: [GrantId] (identities and cursors),
      [Permissions] (capability sets, requests, escalations, grants, the
      authority), [HostFs] (the calls of [std::fs] the store makes), [GrantStore]
      (the persistent store), [GrantListing] (paged listings) and
      [StoreRefinement] (what the store promises).
    - [cageforge-network-proxy]: [GatewayConfig] and [GatewayError] (limits and
      errors), [Authority] (authorities), [Ingress] (the authentication frame),
      [Connect] (resolution, authorization, dialling), [Relay] (the byte relay,
      guarded bodies and the transfer budget), [Socks], [HttpProxy] and
      [Gateway] (the two protocols and the service of one connection).
    - [cageforge-config]: [ConfigError] and [ConfigModel] (errors and the
      decoded document), [ConfigGraph] (the inheritance walk of [resolve_raw]),
      [ConfigMerge] over [Indexed] ([ProfileMerger] with its hash indexes),
      [ConfigLayers] (what merging means), [ConfigBuild] (builders of policies,
      commands and gateway settings), [ConfigSource] (positions in the source
      text), [ConfigResolve] (validation and resolution) and [ConfigSafety]
      (what a resolved profile promises).
    - [cageforge] (the facade): [Preflight] ([preflight.rs]: from a policy to a
      permission request, the narrowing of a policy to a grant, authorization,
      escalation) and [PreflightSafety] (what an authorized launch may do).
    - [cageforge-linux], filesystem: [LinuxHost] (the calls to the host),
      [LinuxGlob] ([filesystem/glob.rs]), [LinuxMounts] and [LinuxDescriptors]
      ([filesystem/mod.rs]: the mount table, its masks, the Bubblewrap arguments
      and descriptors), [LinuxTable], [LinuxGoverned] and [LinuxEnforce] (what
      the table and the arguments mean), [LinuxBwrap] (Bubblewrap as the
      lowering relies on it) and [LinuxExamples] (concrete launches).
    - [cageforge-linux], helper: [LinuxChannel] (byte streams of [std::io]),
      [LinuxFrames] (the environment, setup and status frames) and [LinuxIpc]
      ([local_ipc.rs] and the decision of [hardening.rs] on a traced call).
    - [cageforge-macos]: [MacosFilesystem] ([filesystem.rs]), [MacosSeatbelt]
      (the glob translator of [seatbelt.rs]), [MacosProfile] (its
      [ProfileBuilder], with Seatbelt as the profile relies on it),
      [MacosNetwork] (the lowering of [network.rs] and the network rules),
      [MacosBackend] ([backend.rs]: capabilities, preparation, environment) and
      [MacosExamples] (concrete launches).

    Rust structs are records, enums are inductive types with the constructors
    of the source, fallible functions return [result], loops are folds or
    structural recursion, and methods that take [self] by value or by mutable
    reference return the new value.  Strings are byte strings; integers are
    [N] or [Z] with the wrap-around written out where the source has one
    (addresses, hexadecimal digits, the counter of temporary files, file
    modes).  The store runs in a state-and-error monad over a host tree, and
    each system call may fail; the proxy runs over scripts of what its peers
    do, with explicit time; concurrent counters take turns under a schedule.
    The Linux lowering runs in the same monad over an abstract host; the macOS
    lowering asks a host that does not change meanwhile.  A Seatbelt profile is
    kept as its expressions and definitions, not as text.

    ** Parameters

    Code outside the repository is a parameter with named laws: [Globset]
    (globset), [WildMatch] (wildmatch), [Unicode] (case mapping tables beyond
    ASCII), [SandboxBackend] and [Sandbox] (a native backend), [Sha256],
    [Serialize] and [Json] (sha2 and serde_json), the authority grammar of the
    http crate, the resolver and the network of the proxy, [TomlParser] (toml
    and serde), [ReadFiles] ([std::fs::read_to_string]), [DebugText] (the
    [Debug] form of strings in messages), [LinuxHost] with [LinuxHostLaws] and
    [DescriptorLaws] (the host file system, the calls into the registry of
    synthetic targets included, and its descriptors), [MacHost], [Bubblewrap] with [BubblewrapLaws] (what
    its manual documents of the options used), [Seatbelt] with [SeatbeltLaws]
    and [SeatbeltNetwork] (default deny, the last applicable rule decides,
    filters compare components), and [Tracee] (the registers and memory of a
    traced process).  Each has an executable instance, used by the witnesses.

    ** What is proved

    - Paths and patterns: the component matcher decides the inductive meaning
      of globs ([glob_components_match_spec]), and a glob's literal prefix
      covers its matches ([literal_prefix_covers]).
    - Policies: decisions are characterised by the rules ([access_for_path_spec],
      [decision_for_domain_spec], [resolved_ips_decision]), and normalization
      preserves them ([normalized_preserves], [net_normalized_preserves]).
    - Composition: it accepts exactly valid, agreeing inputs
      ([compose_accepts_iff]); a composed sandbox grants only what both sides
      grant ([effective_access_meet], [effective_network_meet],
      [effective_connection_safe], [effective_environment_safe]); contexts are
      confined to the allowed roots and to their composition
      ([path_context_confined], [context_isolation]).
    - Backends: preflight is sound and its errors are justified
      ([preflight_sound], [preflight_errors]), capabilities cover the features
      used ([prepared_capabilities_cover]), nothing is spawned without
      preparation ([launch_prepares_first]), and lowering layers conjoin to the
      effective decision ([lowering_conjunction]).
    - Permissions: grants stay within their requests ([grants_within_request],
      [escalation_approval]); capability sets are canonical
      ([permission_set_canonical]); identities and cursors round-trip; the store
      refines an abstract document store ([store_refines]), is atomic under
      failing calls ([store_operations_atomic]: only a failing [stat] makes a
      store look empty), returns only grants of the
      request ([store_get_sound]), and listings are complete and end
      ([listing_complete]).
    - Network proxy: whatever a client writes, only safe addresses of permitted
      and authenticated connections are dialled ([serve_connection_safe],
      [ingress_authentication_exact]); a reachable address is reached
      ([connect_reaches]); the relay delivers unchanged prefixes within its
      limit ([relay_faithful]); SOCKS requests are read as they were written
      ([socks_request_roundtrip]) and the shared budget is exact and lock free
      ([transfer_budget_exact], [transfer_budget_terminates]); requests are
      forwarded sanitized ([http_forward_sanitized]).
    - Configuration: the inheritance walk is the recursive post-order of an
      acyclic graph and always returns ([inheritance_order_exact],
      [inheritance_accepts_iff], [resolution_total]); merging is the last
      declaration of every identity ([profile_merge_spec]); a resolved profile
      is valid for the other crates ([resolved_profile_valid]), and its
      environment, rules, network and roots are what the layers say
      ([resolved_environment], [resolved_filesystem],
      [resolved_network_closed], [resolved_roots_valid]).
    - Authorization: a launch reads, writes and connects only where its grant
      approved it ([authorized_access_approved], [authorized_hosts_approved];
      a full approval is one of the paths of the plan's context), and an escalation asks for the running plan and the additional
      capabilities ([escalated_plan_bounded]).
    - Linux: glob expansion returns and is exact ([glob_expand_exact]); every
      bind of a plan is at an authorized path and shows what that path names on
      the host ([lowered_binds_authorized]); what Bubblewrap
      shows writable the effective policy decides writable
      ([lowered_mounts_enforce]).  The helper gets the environment that was sent
      and the host the report that was made ([environment_frame_exact],
      [helper_reports_roundtrip]); a supervised socket call continues exactly
      when the effective policy allows it ([supervised_sockets_exact]).
    - macOS: the profile of a plan means the plan ([seatbelt_profile_exact]) and
      confines a process to its policy ([seatbelt_confines], the metadata of the
      ancestors of roots apart); connections go where the network policy allows
      ([macos_network_confined], the system log's socket apart), and after the
      preflight the network lowering cannot fail ([macos_network_total]).
    - Deviations found while modelling: [composition_can_widen],
      [literal_deny_is_textual], [revoke_misses_on_stat_error],
      [connect_timeout_can_panic], [ipv6_host_unbracketed],
      [local_ipc_opens_network], [duplicate_endpoint_accepted],
      [overlay_environment_unchecked], [partial_grant_widens],
      [lowered_exposures_beyond_policy], [socket_rules_are_textual] and
      [macos_profile_deviations].

    ** Bounds and fuel

    Loops over data are structural recursion.  The other loops have fuel or an
    iteration count, shown to be enough.  The inheritance walk
    [resolve_order] has one iteration per profile and inheritance edge
    ([inheritance_order_exact]); the client loop [all_pages] finishes with one
    more request than there are grants ([listing_complete]); the directory walk
    of a glob has [scan_fuel], two more than the entries it may visit
    ([glob_expand_exact]); the glob translator has [translation_fuel], one more
    than twice the characters ([translation_total]); the ancestors of a pattern
    have its length ([text_ancestors_enough]); the reader of a status frame
    retries once for each interruption its channel has left
    ([helper_reports_roundtrip]); digits of addresses and ports are printed with
    the width of their type.  Theorems hold for all inputs of
    the model types; where a machine bound matters it is part of the statement.

    ** Not modelled

    [cageforge-windows] (AppContainer, access-control lists, filtering platform)
    is system calls and platform tables.  Of [cageforge-linux] the processes,
    seccomp filters, namespaces, the wait loop of the tracer, the bridge to the
    gateway and the registry of synthetic mount targets are left out; of
    [cageforge-macos] launchd jobs and process groups, the gateway thread, and
    the fixed policy texts, which stand for the rules before those of a plan,
    their network rule apart.
    The bundled bubblewrap, the language bindings (foreign-function glue), the
    command line (argument parsing and terminal output) and the platform
    selection of [native.rs] are left out.  Of the backend interface, child
    streams and diagnostic metadata are left out; of the grant store, the
    access-control calls of Windows; of the proxy, the wake-ups of asynchronous
    polling and the semaphore that counts connections; of the configuration compiler, the rendering of diagnostics and the
    JSON schema. *)

From stdpp Require Import base list gmap strings option sorting.
From Stdlib Require Import Lia.

(** * The [Result] type of the sources *)

(** Rust's [Result<A, E>], with the error first so that [result E] is a monad. *)
Inductive result (E A : Type) : Type :=
  | Ok (a : A)
  | Err (e : E).
Arguments Ok {E A} a.
Arguments Err {E A} e.

#[global] Instance result_ret {E} : MRet (result E) := fun _ a => Ok a.
#[global] Instance result_bind {E} : MBind (result E) :=
  fun A B f m => match m with Ok a => f a | Err e => Err e end.
#[global] Instance result_fmap {E} : FMap (result E) :=
  fun A B f m => match m with Ok a => Ok (f a) | Err e => Err e end.
#[global] Instance result_eq_dec {E A} `{EqDecision E, EqDecision A} :
  EqDecision (result E A).
Proof. solve_decision. Defined.

Declare Scope cage_scope.
Delimit Scope cage_scope with cage.
Open Scope cage_scope.

(** [if cond { return Err(e) }; k] *)
Notation "'reject' c 'with' e ;; k" := (if c then Err e else k)
  (at level 100, c at next level, e at next level, k at level 200, right associativity) : cage_scope.

(** [Result::map_err] *)
Definition map_err {E F A} (f : E -> F) (r : result E A) : result F A :=
  match r with Ok a => Ok a | Err e => Err (f e) end.

(** [Option::ok_or] *)
Definition ok_or {E A} (e : E) (o : option A) : result E A :=
  match o with Some a => Ok a | None => Err e end.

(** [Result::unwrap_or] *)
Definition unwrap_or {E A} (d : A) (r : result E A) : A :=
  match r with Ok a => a | Err _ => d end.

Definition is_ok {E A} (r : result E A) : bool :=
  match r with Ok _ => true | Err _ => false end.

(** [for x in l { acc = f(acc, x)?; }] *)
Fixpoint foldM {E A B} (f : A -> B -> result E A) (acc : A) (l : list B) : result E A :=
  match l with
  | [] => Ok acc
  | x :: l' => acc' ← f acc x; foldM f acc' l'
  end.

(** * Lemmas on results *)

Section results.
Context {E A B : Type}.
Implicit Types (m : result E A) (f : A -> result E B).

Lemma bind_Ok m f b : (x ← m; f x) = Ok b <-> exists a, m = Ok a /\ f a = Ok b.
Proof. destruct m; simpl; split; naive_solver. Qed.

Lemma bind_Err m f e :
  (x ← m; f x) = Err e <-> m = Err e \/ exists a, m = Ok a /\ f a = Err e.
Proof. destruct m; simpl; split; naive_solver. Qed.

Lemma fmap_Ok (g : A -> B) m b : g <$> m = Ok b <-> exists a, m = Ok a /\ b = g a.
Proof. destruct m; simpl; split; naive_solver. Qed.

Lemma ok_or_Ok (e : E) (o : option A) a : ok_or e o = Ok a <-> o = Some a.
Proof. destruct o; simpl; split; congruence. Qed.

Lemma is_ok_true m : is_ok m = true <-> exists a, m = Ok a.
Proof. destruct m; simpl; split; naive_solver. Qed.

Lemma map_err_Ok {F} (g : E -> F) m a : map_err g m = Ok a <-> m = Ok a.
Proof. destruct m; simpl; split; congruence. Qed.

End results.

Section foldM.
Context {E A B : Type} (f : A -> B -> result E A).

Lemma foldM_app acc l1 l2 : foldM f acc (l1 ++ l2) = acc' ← foldM f acc l1; foldM f acc' l2.
Proof. revert acc; induction l1 as [|x l1 IH]; intros acc; simpl; [done|]. destruct (f acc x); simpl; [apply IH|done]. Qed.

(** A step invariant holds of the final accumulator. *)
Lemma foldM_invariant (P : A -> Prop) acc l acc' :
  P acc -> (forall a x a', x ∈ l -> P a -> f a x = Ok a' -> P a') ->
  foldM f acc l = Ok acc' -> P acc'.
Proof.
  revert acc; induction l as [|x l IH]; intros acc Hacc Hstep; simpl.
  - by intros [= <-].
  - intros (a & Ha & Hl)%bind_Ok. apply (IH a); [|set_solver|done].
    apply (Hstep acc x); [set_solver|done|done].
Qed.

(** When every step succeeds with a pure function, the loop is a [foldl]. *)
Lemma foldM_pure (g : A -> B -> A) acc l :
  (forall a x, x ∈ l -> f a x = Ok (g a x)) -> foldM f acc l = Ok (foldl g acc l).
Proof.
  revert acc; induction l as [|x l IH]; intros acc H; simpl; [done|].
  rewrite H by set_solver. simpl. apply IH. set_solver.
Qed.

(** A failing loop fails at some element. *)
Lemma foldM_Err acc l e :
  foldM f acc l = Err e -> exists x, x ∈ l /\ exists a, f a x = Err e.
Proof.
  revert acc; induction l as [|x l IH]; intros acc; simpl; [done|].
  intros [H|(a & _ & H)]%bind_Err; [set_solver|].
  apply IH in H as (y & ? & ?). set_solver.
Qed.

End foldM.

(** A validation loop succeeds when every check does. *)
Lemma foldM_unit {E B} (f : unit -> B -> result E unit) l :
  (forall x, x ∈ l -> f () x = Ok ()) -> foldM f () l = Ok ().
Proof.
  intros H. rewrite (foldM_pure f (fun _ _ => ())); [by destruct (foldl _ _ _)|].
  intros [] x Hx. by apply H.
Qed.

(** ... and only then. *)
Lemma foldM_unit_inv {E B} (f : unit -> B -> result E unit) l :
  foldM f () l = Ok () -> forall x, x ∈ l -> f () x = Ok ().
Proof.
  induction l as [|y l IH]; simpl; [set_solver|].
  intros ([] & Hy & Hl)%bind_Ok x [->|Hx]%elem_of_cons; auto.
Qed.

(** What one iteration of a loop establishes and the others keep *)
Lemma foldM_establish {E A B} (P : A -> Prop) (f : A -> B -> result E A) x l acc acc' :
  x ∈ l -> (forall a a', f a x = Ok a' -> P a') -> (forall a y a', P a -> f a y = Ok a' -> P a') ->
  foldM f acc l = Ok acc' -> P acc'.
Proof.
  intros Hin Hx Hkeep. revert acc. induction l as [|y l IH]; intros acc; [set_solver|]. simpl.
  intros (a & Ha & Hl)%bind_Ok. apply elem_of_cons in Hin as [<-|Hin]; [|by eapply IH].
  eapply (foldM_invariant f P); [by eapply Hx| |exact Hl]. intros; by eapply Hkeep.
Qed.

(** * Tactics *)

(** Inverts every hypothesis that says a computation of the result monad
    succeeded: binds, guards and error mappings. *)
Ltac res_inv :=
  repeat match goal with
  | H : Ok _ = Ok _ |- _ => injection H as H; try subst
  | H : Err _ = Err _ |- _ => injection H as H; try subst
  | H : Ok _ = Err _ |- _ => discriminate H
  | H : Err _ = Ok _ |- _ => discriminate H
  | H : mret _ = _ |- _ => unfold mret, result_ret in H
  | H : (_ ≫= _) = Ok _ |- _ =>
      let a := fresh "a" in let H1 := fresh H in
      apply bind_Ok in H; destruct H as (a & H1 & H)
  | H : _ <$> _ = Ok _ |- _ =>
      let a := fresh "a" in let H1 := fresh H in
      apply fmap_Ok in H; destruct H as (a & H1 & H)
  | H : map_err _ _ = Ok _ |- _ => apply map_err_Ok in H
  | H : ok_or _ _ = Ok _ |- _ => apply ok_or_Ok in H
  | H : (if ?b then Err _ else _) = Ok _ |- _ =>
      let E := fresh "G" in destruct b eqn:E; [discriminate H|]
  | H : (if ?b then _ else Err _) = Ok _ |- _ =>
      let E := fresh "G" in destruct b eqn:E; [|discriminate H]
  end.

(** Turns boolean connectives and [bool_decide] in the context into propositions. *)
Ltac bool_inv :=
  repeat match goal with
  | H : _ && _ = true |- _ => apply andb_true_iff in H; destruct H
  | H : _ || _ = false |- _ => apply orb_false_iff in H; destruct H
  | H : negb _ = true |- _ => apply negb_true_iff in H
  | H : negb _ = false |- _ => apply negb_false_iff in H
  | H : bool_decide _ = true |- _ => apply bool_decide_eq_true in H
  | H : bool_decide _ = false |- _ => apply bool_decide_eq_false in H
  end.

Create HintDb cage.
#[export] Hint Resolve list_elem_of_here : cage.

(** * Lists *)

Section lists.
Context {A : Type}.
Implicit Types (l : list A) (p : A -> bool).

Lemma existsb_elem p l : existsb p l = true <-> exists x, x ∈ l /\ p x = true.
Proof. rewrite existsb_exists. by setoid_rewrite list_elem_of_In. Qed.

Lemma existsb_elem_false p l : existsb p l = false <-> forall x, x ∈ l -> p x = false.
Proof.
  split.
  - intros H x Hx. destruct (p x) eqn:Hp; [|done].
    assert (existsb p l = true) by (apply existsb_elem; eauto). congruence.
  - intros H. destruct (existsb p l) eqn:He; [|done].
    apply existsb_elem in He as (x & Hx & Hp). rewrite H in Hp by done. done.
Qed.

Lemma forallb_elem p l : forallb p l = true <-> forall x, x ∈ l -> p x = true.
Proof. rewrite forallb_forall. by setoid_rewrite list_elem_of_In. Qed.

Lemma existsb_perm p l1 l2 : l1 ≡ₚ l2 -> existsb p l1 = existsb p l2.
Proof.
  intros HP. apply eq_true_iff_eq. rewrite !existsb_elem.
  by setoid_rewrite HP.
Qed.

End lists.

Lemma foldl_ext_elem {A B} (f g : A -> B -> A) (l : list B) a :
  (forall a x, x ∈ l -> f a x = g a x) -> foldl f a l = foldl g a l.
Proof.
  revert a. induction l as [|x l IH]; intros a H; simpl; [done|].
  rewrite H by apply list_elem_of_here. apply IH. intros. apply H. by apply list_elem_of_further.
Qed.
