(* ===== verification/Keyed.v ===== *)
(** Collapsing a list of rules by key: the loop the policies use to normalize
    duplicate rules, with a hash map from keys to positions of an output vector
    ([FilesystemPolicy::normalized], [NetworkPolicy::normalized]).  The lemmas
    relate any commutative summary of the output to that of the input. *)

From Stdlib Require Import Lia.
From stdpp Require Import base list option sets.
From S2P Require Import Prelude.

Section keyed.
Context {R K : Type} (key : R -> K) (keqb : K -> K -> bool) (merge : R -> R -> R).

(** [HashMap::get]: at most one stored key equals [k]. *)
Fixpoint positions_get (k : K) (positions : list (K * nat)) : option nat :=
  match positions with
  | [] => None
  | (l, index) :: rest => if keqb k l then Some index else positions_get k rest
  end.

(** One iteration: merge into the entry that holds the key, or append. *)
Definition keyed_step (st : list R * list (K * nat)) (r : R) : list R * list (K * nat) :=
  let '(es, positions) := st in
  match positions_get (key r) positions with
  | Some index => (alter (fun existing => merge existing r) index es, positions)
  | None => (es ++ [r], positions ++ [(key r, length es)])
  end.

Definition keyed_collapse (rs : list R) : list R := (foldl keyed_step ([], []) rs).1.

(** The positions the loop keeps for its entries. *)
Fixpoint positions_of (n : nat) (es : list R) : list (K * nat) :=
  match es with
  | [] => []
  | e :: es' => (key e, n) :: positions_of (S n) es'
  end.

Lemma positions_of_snoc n es r : positions_of n (es ++ [r]) = positions_of n es ++ [(key r, n + length es)].
Proof.
  revert n; induction es as [|e es IH]; intros n; simpl; [by rewrite Nat.add_0_r|].
  by rewrite IH, Nat.add_succ_r.
Qed.

Lemma positions_of_keys n es es' : key <$> es = key <$> es' -> positions_of n es = positions_of n es'.
Proof.
  revert n es'; induction es as [|e es IH]; intros n [|e' es'] H; try done.
  injection H as He Hes. simpl. by rewrite He, (IH (S n) es').
Qed.

Lemma positions_get_spec n es r :
  match positions_get (key r) (positions_of n es) with
  | Some i => exists l1 e l2, es = l1 ++ e :: l2 /\ i = n + length l1 /\ keqb (key r) (key e) = true
  | None => Forall (fun e => keqb (key r) (key e) = false) es
  end.
Proof.
  revert n; induction es as [|e es IH]; intros n; simpl; [constructor|].
  destruct (keqb _ _) eqn:E.
  - exists [], e, es. split_and!; [done|simpl; lia|done].
  - specialize (IH (S n)). destruct (positions_get _ _) as [i|].
    + destruct IH as (l1 & e' & l2 & -> & -> & ?). exists (e :: l1), e', l2. simpl. auto with lia.
    + by constructor.
Qed.

Lemma alter_middle (f : R -> R) l1 e l2 :
  alter f (length l1) (l1 ++ e :: l2) = l1 ++ f e :: l2.
Proof. rewrite <- (Nat.add_0_r (length l1)). by rewrite alter_app_r. Qed.

Context (key_merge : forall e r, key (merge e r) = key e).

(** Every entry satisfies what the rules satisfy and merging keeps, and a
    commutative summary is respected when merging respects it. *)
Section summary.
Context {V : Type} (val : R -> V) (comb : V -> V -> V) (unit : V) (rel : V -> V -> Prop).
Context `{!Equivalence rel, !Proper (rel ==> rel ==> rel) comb}.
Context (comb_comm : forall x y, comb x y = comb y x).
Context (comb_assoc : forall x y z, comb x (comb y z) = comb (comb x y) z).
Context (comb_unit : forall x, comb unit x = x).
Context (all : list R) (inv : R -> Prop).
Context (inv_all : forall r, r ∈ all -> inv r).
Context (inv_merge : forall e r, inv e -> r ∈ all -> keqb (key r) (key e) = true -> inv (merge e r)).
Context (val_merge : forall e r, inv e -> r ∈ all -> keqb (key r) (key e) = true ->
  rel (val (merge e r)) (comb (val e) (val r))).

Definition summary (rs : list R) : V := foldr (fun r acc => comb (val r) acc) unit rs.

Lemma summary_app l1 l2 : summary (l1 ++ l2) = comb (summary l1) (summary l2).
Proof. induction l1 as [|r l1 IH]; simpl; [by rewrite comb_unit|]. by rewrite IH, comb_assoc. Qed.

Lemma keyed_loop_related rs :
  (forall r, r ∈ rs -> r ∈ all) ->
  let '(es, positions) := foldl keyed_step ([], []) rs in
  positions = positions_of 0 es /\ Forall inv es /\ rel (summary es) (summary rs).
Proof.
  induction rs as [|r rs IH] using rev_ind; intros Hsub; [by split_and!; [..|reflexivity]|].
  rewrite foldl_app. destruct (foldl _ _ rs) as [es positions].
  destruct IH as (-> & Ho & HR); [set_solver|]. simpl.
  assert (r ∈ all) as Hr by set_solver.
  pose proof (positions_get_spec 0 es r) as Hpos.
  destruct (positions_get _ _) as [i|].
  - destruct Hpos as (l1 & e & l2 & -> & -> & Hk). simpl. rewrite alter_middle.
    apply Forall_app in Ho as [Ho1 Ho2]. inversion Ho2; subst. split_and!.
    + apply positions_of_keys. by rewrite !fmap_app, !fmap_cons, key_merge.
    + apply Forall_app. auto.
    + rewrite !summary_app in *. simpl in *. rewrite <- HR, val_merge by done.
      rewrite (comb_comm (val r) unit), comb_unit, <- !comb_assoc, (comb_comm (val r)). reflexivity.
  - split_and!.
    + by rewrite positions_of_snoc.
    + apply Forall_app. auto.
    + by rewrite !summary_app, HR.
Qed.

Lemma keyed_collapse_related :
  Forall inv (keyed_collapse all) /\ rel (summary (keyed_collapse all)) (summary all).
Proof.
  unfold keyed_collapse. pose proof (keyed_loop_related all (fun _ H => H)) as H.
  destruct (foldl _ _ _) as [es positions]. by destruct H as (_ & ? & ?).
Qed.

End summary.

(** The entries have different keys. *)
Lemma keyed_collapse_keys rs :
  (forall k l, keqb k l = true <-> k = l) -> NoDup (key <$> keyed_collapse rs).
Proof.
  intros Heq. unfold keyed_collapse.
  enough (let '(es, positions) := foldl keyed_step ([], []) rs in positions = positions_of 0 es /\ NoDup (key <$> es))
    as H by (destruct (foldl _ _ _); apply H).
  induction rs as [|r rs IH] using rev_ind; [by repeat constructor|].
  rewrite foldl_app. destruct (foldl _ _ rs) as [es positions]. destruct IH as [-> IH]. simpl.
  pose proof (positions_get_spec 0 es r) as Hpos. destruct (positions_get _ _) as [i|].
  - destruct Hpos as (l1 & e & l2 & -> & -> & _). simpl. rewrite alter_middle. split.
    + apply positions_of_keys. by rewrite !fmap_app, !fmap_cons, key_merge.
    + rewrite !fmap_app, !fmap_cons, key_merge in *. done.
  - split; [by rewrite positions_of_snoc|]. rewrite fmap_app. apply NoDup_app. split_and!; [done| |by repeat constructor; set_solver].
    intros k (e & -> & He)%list_elem_of_fmap Hk. rewrite Forall_forall in Hpos. specialize (Hpos e He).
    apply list_elem_of_singleton in Hk. assert (keqb (key r) (key e) = true) by by apply Heq. congruence.
Qed.

End keyed.
