(* ===== verification/Text.v ===== *)
(** Rust text: [str] and [OsStr] values as byte strings, with the functions of
    the standard library the sources call on them.

    A [string] is a sequence of bytes.  An [OsStr] of a POSIX host is any such
    sequence; a [str] is one that decodes as UTF-8.  Functions on [char]s
    (trimming, white space, control characters) work on the decoded code
    points.  What depends on the tables of the Unicode character database
    (letters, lower case) is a parameter, the class [Unicode]. *)

From Stdlib Require Import NArith Ascii String Lia Wf_nat.
From stdpp Require Import base list strings option.
From S2P Require Import Prelude.

Open Scope string_scope.
Open Scope list_scope.

(** A Unicode scalar value. *)
Abbreviation char := N (only parsing).

(** * Bytes *)

Definition byte_val (a : ascii) : N := N_of_ascii a.

Definition in_range (lo hi n : N) : bool := ((lo <=? n) && (n <=? hi))%N.

Definition is_ascii_upper (a : ascii) : bool := in_range 65 90 (byte_val a).
Definition is_ascii_lower (a : ascii) : bool := in_range 97 122 (byte_val a).
Definition is_ascii_alphabetic (a : ascii) : bool := is_ascii_upper a || is_ascii_lower a.
Definition is_ascii_digit (a : ascii) : bool := in_range 48 57 (byte_val a).
Definition is_ascii_hexdigit (a : ascii) : bool :=
  is_ascii_digit a || in_range 65 70 (byte_val a) || in_range 97 102 (byte_val a).
Definition ascii_lower (a : ascii) : ascii :=
  if is_ascii_upper a then ascii_of_N (byte_val a + 32)%N else a.
(** A UTF-8 continuation byte. *)
Definition is_cont (a : ascii) : bool := in_range 128 191 (byte_val a).

Definition NUL : ascii := ascii_of_N 0.

(** * Byte-wise string functions *)

Fixpoint str_any (f : ascii -> bool) (s : string) : bool :=
  match s with
  | EmptyString => false
  | String a s' => f a || str_any f s'
  end.

Definition str_all (f : ascii -> bool) (s : string) : bool := negb (str_any (fun a => negb (f a)) s).

(** [s.contains(c)] for an ASCII character [c] *)
Definition contains_char (c : ascii) (s : string) : bool := str_any (Ascii.eqb c) s.

Fixpoint str_map (f : ascii -> ascii) (s : string) : string :=
  match s with
  | EmptyString => EmptyString
  | String a s' => String (f a) (str_map f s')
  end.

Definition to_ascii_lowercase : string -> string := str_map ascii_lower.
Definition eq_ignore_ascii_case (s t : string) : bool :=
  bool_decide (to_ascii_lowercase s = to_ascii_lowercase t).
Definition is_ascii (s : string) : bool := str_all (fun a => (byte_val a <? 128)%N) s.

(** [str::replace] of one ASCII character by another *)
Definition replace_char (c d : ascii) : string -> string :=
  str_map (fun a => if Ascii.eqb a c then d else a).

Definition starts_with_char (c : ascii) (s : string) : bool :=
  match s with String a _ => Ascii.eqb a c | EmptyString => false end.

Fixpoint last_char (s : string) : option ascii :=
  match s with
  | EmptyString => None
  | String a EmptyString => Some a
  | String _ s' => last_char s'
  end.

Definition ends_with_char (c : ascii) (s : string) : bool :=
  match last_char s with Some a => Ascii.eqb a c | None => false end.

(** [str::strip_prefix] with a string pattern *)
Fixpoint strip_prefix (p s : string) : option string :=
  match p, s with
  | EmptyString, _ => Some s
  | String a p', String b s' => if Ascii.eqb a b then strip_prefix p' s' else None
  | String _ _, EmptyString => None
  end.

Definition starts_with (p s : string) : bool := bool_decide (is_Some (strip_prefix p s)).

(** [str::split_once] with a string pattern: the first occurrence *)
Fixpoint split_once (p s : string) : option (string * string) :=
  match strip_prefix p s with
  | Some rest => Some ("", rest)
  | None =>
      match s with
      | EmptyString => None
      | String a s' =>
          match split_once p s' with
          | Some (l, r) => Some (String a l, r)
          | None => None
          end
      end
  end.

(** [str::contains] with a string pattern *)
Definition contains_str (p s : string) : bool := bool_decide (is_Some (split_once p s)).

(** [str::split] on the bytes that satisfy [f]: always at least one piece *)
Fixpoint str_split_by (f : ascii -> bool) (s : string) : list string :=
  match s with
  | EmptyString => [""]
  | String a s' =>
      if f a then "" :: str_split_by f s'
      else match str_split_by f s' with
           | p :: ps => String a p :: ps
           | [] => [String a ""]
           end
  end.

Definition str_split (c : ascii) : string -> list string := str_split_by (Ascii.eqb c).

Definition str_join (c : ascii) : list string -> string := String.concat (String c "").

(** [str::trim_end_matches] with an ASCII character *)
Fixpoint trim_end_matches (c : ascii) (s : string) : string :=
  match s with
  | EmptyString => EmptyString
  | String a s' =>
      match trim_end_matches c s' with
      | EmptyString => if Ascii.eqb a c then EmptyString else String a EmptyString
      | r => String a r
      end
  end.

Fixpoint str_take (n : nat) (s : string) : string :=
  match n, s with
  | S n', String a s' => String a (str_take n' s')
  | _, _ => EmptyString
  end.

Fixpoint str_drop (n : nat) (s : string) : string :=
  match n, s with
  | S n', String _ s' => str_drop n' s'
  | O, _ => s
  | _, EmptyString => EmptyString
  end.

(** [s.get(..n)]: [None] past the end or inside a character *)
Definition get_prefix (n : nat) (s : string) : option string :=
  if (String.length s <? n)%nat then None
  else match str_drop n s with
       | String a _ => if is_cont a then None else Some (str_take n s)
       | EmptyString => Some (str_take n s)
       end.

(** * Code points *)

(** The characters of a byte string with the bytes that encode each of them;
    [None] when the bytes are not UTF-8 (overlong forms, surrogates and values
    above U+10FFFF included). *)
Fixpoint utf8_chunks (s : string) : option (list (char * string)) :=
  match s with
  | EmptyString => Some []
  | String b0 s1 =>
      let v0 := byte_val b0 in
      if (v0 <? 128)%N then (fun l => (v0, String b0 "") :: l) <$> utf8_chunks s1
      else if in_range 0xC2 0xDF v0 then
        match s1 with
        | String b1 s2 =>
            if is_cont b1
            then (fun l => (((v0 - 0xC0) * 64 + (byte_val b1 - 0x80))%N,
                            String b0 (String b1 "")) :: l) <$> utf8_chunks s2
            else None
        | _ => None
        end
      else if in_range 0xE0 0xEF v0 then
        match s1 with
        | String b1 (String b2 s3) =>
            let lo := if (v0 =? 0xE0)%N then 0xA0%N else 0x80%N in
            let hi := if (v0 =? 0xED)%N then 0x9F%N else 0xBF%N in
            if in_range lo hi (byte_val b1) && is_cont b2
            then (fun l => (((v0 - 0xE0) * 4096 + (byte_val b1 - 0x80) * 64
                             + (byte_val b2 - 0x80))%N,
                            String b0 (String b1 (String b2 ""))) :: l) <$> utf8_chunks s3
            else None
        | _ => None
        end
      else if in_range 0xF0 0xF4 v0 then
        match s1 with
        | String b1 (String b2 (String b3 s4)) =>
            let lo := if (v0 =? 0xF0)%N then 0x90%N else 0x80%N in
            let hi := if (v0 =? 0xF4)%N then 0x8F%N else 0xBF%N in
            if in_range lo hi (byte_val b1) && is_cont b2 && is_cont b3
            then (fun l => (((v0 - 0xF0) * 262144 + (byte_val b1 - 0x80) * 4096
                             + (byte_val b2 - 0x80) * 64 + (byte_val b3 - 0x80))%N,
                            String b0 (String b1 (String b2 (String b3 "")))) :: l)
                 <$> utf8_chunks s4
            else None
        | _ => None
        end
      else None
  end.

(** [OsStr::to_str] *)
Definition to_str (s : string) : option string :=
  match utf8_chunks s with Some _ => Some s | None => None end.

(** U+FFFD REPLACEMENT CHARACTER in UTF-8 *)
Definition REPLACEMENT : string :=
  String (ascii_of_N 0xEF) (String (ascii_of_N 0xBF) (String (ascii_of_N 0xBD) "")).

(** [OsStr::to_string_lossy]: every maximal invalid piece of a sequence becomes
    one replacement character. *)
Fixpoint to_string_lossy (s : string) : string :=
  match s with
  | EmptyString => EmptyString
  | String b0 s1 =>
      let v0 := byte_val b0 in
      if (v0 <? 128)%N then String b0 (to_string_lossy s1)
      else if in_range 0xC2 0xDF v0 then
        match s1 with
        | String b1 s2 =>
            if is_cont b1 then String b0 (String b1 (to_string_lossy s2))
            else REPLACEMENT +:+ to_string_lossy s1
        | EmptyString => REPLACEMENT
        end
      else if in_range 0xE0 0xEF v0 then
        let lo := if (v0 =? 0xE0)%N then 0xA0%N else 0x80%N in
        let hi := if (v0 =? 0xED)%N then 0x9F%N else 0xBF%N in
        match s1 with
        | String b1 s2 =>
            if in_range lo hi (byte_val b1) then
              match s2 with
              | String b2 s3 =>
                  if is_cont b2 then String b0 (String b1 (String b2 (to_string_lossy s3)))
                  else REPLACEMENT +:+ to_string_lossy s2
              | EmptyString => REPLACEMENT
              end
            else REPLACEMENT +:+ to_string_lossy s1
        | EmptyString => REPLACEMENT
        end
      else if in_range 0xF0 0xF4 v0 then
        let lo := if (v0 =? 0xF0)%N then 0x90%N else 0x80%N in
        let hi := if (v0 =? 0xF4)%N then 0x8F%N else 0xBF%N in
        match s1 with
        | String b1 s2 =>
            if in_range lo hi (byte_val b1) then
              match s2 with
              | String b2 s3 =>
                  if is_cont b2 then
                    match s3 with
                    | String b3 s4 =>
                        if is_cont b3
                        then String b0 (String b1 (String b2 (String b3 (to_string_lossy s4))))
                        else REPLACEMENT +:+ to_string_lossy s3
                    | EmptyString => REPLACEMENT
                    end
                  else REPLACEMENT +:+ to_string_lossy s2
              | EmptyString => REPLACEMENT
              end
            else REPLACEMENT +:+ to_string_lossy s1
        | EmptyString => REPLACEMENT
        end
      else REPLACEMENT +:+ to_string_lossy s1
  end.

(** [str::chars] *)
Definition chars (s : string) : list char :=
  match utf8_chunks s with Some l => l.*1 | None => [] end.

(** [char::is_whitespace]: the White_Space property *)
Definition is_whitespace (c : char) : bool :=
  in_range 9 13 c || (c =? 32)%N || (c =? 0x85)%N || (c =? 0xA0)%N || (c =? 0x1680)%N
  || in_range 0x2000 0x200A c || (c =? 0x2028)%N || (c =? 0x2029)%N || (c =? 0x202F)%N
  || (c =? 0x205F)%N || (c =? 0x3000)%N.

(** [char::is_control]: general category Cc *)
Definition is_control (c : char) : bool := in_range 0 31 c || in_range 127 159 c.

Fixpoint drop_while {A} (f : A -> bool) (l : list A) : list A :=
  match l with
  | x :: l' => if f x then drop_while f l' else l
  | [] => []
  end.

(** [str::trim] *)
Definition trim (s : string) : string :=
  match utf8_chunks s with
  | Some cs =>
      let white (c : char * string) := is_whitespace c.1 in
      String.concat "" (reverse (drop_while white (reverse (drop_while white cs)))).*2
  | None => s
  end.

(** One digit of [{:x}], for [n] below 16 *)
Definition hex_digit (n : N) : ascii := ascii_of_N (if (n <? 10)%N then n + 48 else n + 87)%N.

(** * The Unicode character database *)

(** The part of Rust's Unicode tables the sources use: [char::to_lowercase],
    [char::is_alphanumeric] and [str::to_lowercase]. *)
Class Unicode := {
  char_to_lowercase : char -> list char;
  char_is_alphanumeric : char -> bool;
  str_to_lowercase : string -> string
}.

(** Their documented behaviour on ASCII. *)
Class UnicodeLaws (U : Unicode) : Prop := {
  char_to_lowercase_ascii c :
    (c < 128)%N -> char_to_lowercase c = [if in_range 65 90 c then (c + 32)%N else c];
  char_is_alphanumeric_ascii c :
    (c < 128)%N ->
    char_is_alphanumeric c = in_range 48 57 c || in_range 65 90 c || in_range 97 122 c;
  str_to_lowercase_ascii s : is_ascii s = true -> str_to_lowercase s = to_ascii_lowercase s
}.

(** Tables that know the ASCII characters only. *)
Definition ascii_unicode : Unicode := {|
  char_to_lowercase c := [if in_range 65 90 c then (c + 32)%N else c];
  char_is_alphanumeric c := in_range 48 57 c || in_range 65 90 c || in_range 97 122 c;
  str_to_lowercase := to_ascii_lowercase
|}.

#[global] Instance ascii_unicode_laws : UnicodeLaws ascii_unicode.
Proof. by split. Qed.

(** * Lemmas *)

Lemma contains_char_cons c a s :
  contains_char c (String a s) = Ascii.eqb c a || contains_char c s.
Proof. done. Qed.

Lemma str_any_app f s t : str_any f (s +:+ t) = str_any f s || str_any f t.
Proof. induction s as [|a s IH]; simpl; [done|]. by rewrite IH, orb_assoc. Qed.

Lemma contains_char_app c s t : contains_char c (s +:+ t) = contains_char c s || contains_char c t.
Proof. apply str_any_app. Qed.

Lemma str_all_cons f a s : str_all f (String a s) = f a && str_all f s.
Proof. unfold str_all. simpl. by destruct (f a). Qed.

Lemma str_all_app f s t : str_all f (s +:+ t) = str_all f s && str_all f t.
Proof. unfold str_all. by rewrite str_any_app, negb_orb. Qed.

Lemma str_all_impl (f g : ascii -> bool) s :
  (forall a, f a = true -> g a = true) -> str_all f s = true -> str_all g s = true.
Proof.
  intros H. induction s as [|a s IH]; [done|]. rewrite !str_all_cons, !andb_true_iff. naive_solver.
Qed.

Lemma str_all_contains f c s : str_all f s = true -> f c = false -> contains_char c s = false.
Proof.
  intros H Hc. induction s as [|a s IH]; [done|]. rewrite str_all_cons, andb_true_iff in H.
  rewrite contains_char_cons. destruct H as [Ha Hs]. rewrite (IH Hs), orb_false_r.
  destruct (Ascii.eqb_spec c a); [congruence|done].
Qed.

(** Splitting at the first of a character that does not occur before it. *)
Lemma split_once_char c s t :
  contains_char c s = false -> split_once (String c "") (s +:+ String c t) = Some (s, t).
Proof.
  induction s as [|a s IH]; intros H.
  - change ("" +:+ String c t) with (String c t). simpl. by rewrite Ascii.eqb_refl.
  - rewrite contains_char_cons in H. apply orb_false_iff in H as [Ha Hs].
    change (String a s +:+ String c t) with (String a (s +:+ String c t)). simpl.
    rewrite Ha, IH by done. done.
Qed.

Lemma split_once_none c s : contains_char c s = false -> split_once (String c "") s = None.
Proof.
  induction s as [|a s IH]; intros H; [done|]. rewrite contains_char_cons in H.
  apply orb_false_iff in H as [Ha Hs]. simpl. by rewrite Ha, IH.
Qed.

Lemma string_app_length (s t : string) : String.length (s +:+ t) = String.length s + String.length t.
Proof.
  induction s as [|a s IH]; [done|].
  change (S (String.length (s +:+ t)) = S (String.length s + String.length t)). by rewrite IH.
Qed.

Lemma string_app_empty_r (s : string) : s +:+ "" = s.
Proof. induction s as [|a s IH]; [done|]. exact (f_equal (String a) IH). Qed.

Lemma string_app_assoc (s t u : string) : s +:+ (t +:+ u) = (s +:+ t) +:+ u.
Proof. induction s as [|a s IH]; [done|]. exact (f_equal (String a) IH). Qed.

Lemma str_split_by_cons f s : exists p ps, str_split_by f s = p :: ps.
Proof.
  induction s as [|a s IH]; simpl; [eauto|].
  destruct (f a); [eauto|]. destruct IH as (p & ps & ->). eauto.
Qed.

(** No piece of a split holds a separator. *)
Lemma str_split_by_pieces f s : Forall (fun p => str_any f p = false) (str_split_by f s).
Proof.
  induction s as [|a s IH]; simpl; [by repeat constructor|].
  destruct (f a) eqn:Ha; [by constructor|].
  destruct (str_split_by f s) as [|p ps]; inversion IH; subst; repeat constructor; simpl;
    rewrite ?Ha; done.
Qed.

Lemma str_split_pieces c s : Forall (fun p => contains_char c p = false) (str_split c s).
Proof. apply str_split_by_pieces. Qed.

Lemma str_split_no_sep f s : str_any f s = false -> str_split_by f s = [s].
Proof.
  induction s as [|a s IH]; simpl; [done|].
  intros [-> Hs]%orb_false_iff. by rewrite IH.
Qed.

Lemma str_split_by_app f s a t :
  str_any f s = false -> f a = true ->
  str_split_by f (s +:+ String a t) = s :: str_split_by f t.
Proof.
  intros Hs Ha. induction s as [|b s IH]; simpl in *; [by rewrite Ha|].
  apply orb_false_iff in Hs as [-> Hs]. by rewrite IH.
Qed.

Lemma str_join_cons2 c p q l : str_join c (p :: q :: l) = p +:+ String c (str_join c (q :: l)).
Proof. done. Qed.

(** Splitting undoes joining. *)
Lemma str_split_join c l :
  l <> [] -> Forall (fun p => contains_char c p = false) l -> str_split c (str_join c l) = l.
Proof.
  intros Hne Hl. induction Hl as [|p l Hp Hl IH]; [done|].
  destruct l as [|q l].
  - by apply str_split_no_sep.
  - rewrite str_join_cons2. unfold str_split.
    rewrite str_split_by_app; [|done|apply Ascii.eqb_refl].
    f_equal. by apply IH.
Qed.

(** Joining undoes splitting. *)
Lemma str_join_split c s : str_join c (str_split c s) = s.
Proof.
  induction s as [|a s IH]; [done|]. unfold str_split in *; simpl.
  destruct (Ascii.eqb_spec c a) as [->|Hne].
  - destruct (str_split_by_cons (Ascii.eqb a) s) as (p & ps & Heq).
    rewrite Heq in *. rewrite str_join_cons2, IH. done.
  - destruct (str_split_by_cons (Ascii.eqb c) s) as (p & ps & Heq).
    rewrite Heq in *. destruct ps as [|q ps].
    + change (p = s) in IH. by subst.
    + rewrite str_join_cons2 in *. by rewrite <- IH.
Qed.

Lemma str_split_contains c d s :
  contains_char c s = false -> Forall (fun p => contains_char c p = false) (str_split d s).
Proof.
  intros H. rewrite <- (str_join_split d s) in H.
  induction (str_split d s) as [|p [|q l] IH]; [constructor|by repeat constructor|].
  rewrite str_join_cons2, contains_char_app, contains_char_cons in H. bool_inv. auto.
Qed.

Lemma strip_prefix_Some p s r : strip_prefix p s = Some r <-> s = p +:+ r.
Proof.
  revert s; induction p as [|a p IH]; intros s.
  { simpl. split; [by intros [= ->]|by intros ->]. }
  destruct s as [|b s]; [done|]. simpl.
  destruct (Ascii.eqb_spec a b) as [->|Hne].
  - rewrite IH. split; [by intros ->|by intros [= ->]].
  - split; [done|]. by intros [= ].
Qed.

Lemma starts_with_char_app c s t :
  s <> "" -> starts_with_char c (s +:+ t) = starts_with_char c s.
Proof. by destruct s. Qed.

Lemma last_char_app s a t : last_char (s +:+ String a t) = last_char (String a t).
Proof.
  induction s as [|b s IH]; [done|].
  change (last_char (String b (s +:+ String a t)) = last_char (String a t)).
  rewrite <- IH. destruct s; done.
Qed.

Lemma ascii_lower_idemp a : ascii_lower (ascii_lower a) = ascii_lower a.
Proof. by destruct a as [[] [] [] [] [] [] [] []]; vm_compute. Qed.

Lemma str_map_map f g s : str_map f (str_map g s) = str_map (fun a => f (g a)) s.
Proof. induction s as [|a s IH]; simpl; [done|]. by rewrite IH. Qed.

Lemma to_ascii_lowercase_idemp s :
  to_ascii_lowercase (to_ascii_lowercase s) = to_ascii_lowercase s.
Proof.
  induction s as [|a s IH]; [done|]. cbn. by rewrite ascii_lower_idemp, IH.
Qed.

Lemma str_take_app s t : str_take (String.length s) (s +:+ t) = s.
Proof. induction s as [|a s IH]; [by destruct t|]. cbn. f_equal. exact IH. Qed.

Lemma str_drop_app s t : str_drop (String.length s) (s +:+ t) = t.
Proof. induction s as [|a s IH]; [by destruct t|]. exact IH. Qed.

Lemma str_take_all s : str_take (String.length s) s = s.
Proof. induction s as [|a s IH]; [done|]. cbn. f_equal. exact IH. Qed.

Lemma str_take_length n s : (n <= String.length s)%nat -> String.length (str_take n s) = n.
Proof. revert s. induction n as [|n IH]; intros [|a s]; simpl; try lia. intros. rewrite IH; lia. Qed.

Lemma str_take_drop n s : str_take n s +:+ str_drop n s = s.
Proof.
  revert s; induction n as [|n IH]; intros [|a s]; try done.
  change (String a (str_take n s +:+ str_drop n s) = String a s). by rewrite IH.
Qed.

#[export] Hint Rewrite contains_char_app contains_char_cons : cage.

(** * Lossy decoding *)

(** A [str]: the byte string is UTF-8. *)
Definition utf8 (s : string) : Prop := to_str s = Some s.

(** Lossy decoding does not change text. *)
Lemma to_string_lossy_chunks : forall s cs, utf8_chunks s = Some cs -> to_string_lossy s = s.
Proof.
  fix IH 1. intros [|b0 s1] cs H; [done|]. cbn -[in_range is_cont N.ltb N.eqb] in H |- *.
  repeat case_match; simplify_eq; bool_inv; simplify_eq;
    try (apply fmap_Some in H as (? & ? & _); repeat f_equal; eauto).
Qed.

Lemma to_string_lossy_utf8 s : utf8 s -> to_string_lossy s = s.
Proof.
  unfold utf8, to_str. destruct (utf8_chunks s) eqn:E; [|done].
  intros _. by eapply to_string_lossy_chunks.
Qed.

Lemma utf8_chunks_utf8 s : is_Some (utf8_chunks s) <-> utf8 s.
Proof. unfold utf8, to_str. destruct (utf8_chunks s); split; try done; by intros []. Qed.

Lemma ascii_not_lead (c : ascii) lo hi : (byte_val c < 128)%N -> (128 <= lo)%N -> in_range lo hi (byte_val c) = false.
Proof. unfold in_range. intros. apply andb_false_iff. left. apply N.leb_gt. lia. Qed.

(** An ASCII byte ends every sequence before it. *)
Lemma utf8_chunks_app_ascii c t : (byte_val c < 128)%N ->
  forall s, is_Some (utf8_chunks (s +:+ String c t)) ->
  is_Some (utf8_chunks s) /\ is_Some (utf8_chunks t).
Proof.
  intros Hc. pose proof (ascii_not_lead c 0x80 0xBF Hc) as Hcont.
  assert (is_cont c = false) as Hc1 by (apply Hcont; lia).
  intros s. induction s as [s IH] using (well_founded_induction (Wf_nat.well_founded_ltof _ String.length)).
  destruct s as [|b0 s1]; intros H; [split; [eauto|]|].
  - change (is_Some (utf8_chunks (String c t))) in H. cbn -[in_range is_cont N.ltb N.eqb] in H.
    rewrite (proj2 (N.ltb_lt _ _) Hc) in H. by apply fmap_is_Some in H.
  - change (String b0 s1 +:+ String c t) with (String b0 (s1 +:+ String c t)) in H.
    cbn -[in_range is_cont N.ltb N.eqb String.append] in H |- *.
    clear Hcont. repeat match type of H with
    | is_Some None => by destruct H
    | context ["" +:+ ?u] => change ("" +:+ u) with u in H
    | context [String ?b ?s +:+ ?u] => change (String b s +:+ u) with (String b (s +:+ u)) in H
    | context [is_cont c] => rewrite ?Hc1, ?andb_false_r in H
    | context [in_range ?lo ?hi (byte_val c)] =>
        rewrite (ascii_not_lead c lo hi) in H by (done || by repeat case_match; lia)
    | is_Some (_ <$> utf8_chunks _) =>
        apply fmap_is_Some in H; rewrite ?fmap_is_Some; apply IH; [unfold Wf_nat.ltof; simpl; lia|done]
    | is_Some (match ?s +:+ _ with _ => _ end) => is_var s; destruct s
    | is_Some (match String _ _ with _ => _ end) =>
        cbn -[in_range is_cont N.ltb N.eqb String.append] in H |- *
    | is_Some (match ?b with _ => _ end) => destruct b eqn:?; try discriminate
    end.
Qed.

Lemma utf8_split c s : (byte_val c < 128)%N -> utf8 s -> Forall utf8 (str_split c s).
Proof.
  intros Hc. rewrite <- (str_join_split c s) at 1.
  induction (str_split c s) as [|p [|q l] IH]; [constructor|by constructor|].
  rewrite str_join_cons2. intros [Hp Hl]%utf8_chunks_utf8%utf8_chunks_app_ascii; [|done].
  constructor; [by apply utf8_chunks_utf8|]. by apply IH, utf8_chunks_utf8.
Qed.

(** Lossy decoding keeps the ASCII characters of a sequence. *)
Lemma lossy_contains_ascii c : (byte_val c < 128)%N ->
  forall s, contains_char c (to_string_lossy s) = contains_char c s.
Proof.
  intros Hc. assert (forall b, (128 <= byte_val b)%N -> Ascii.eqb c b = false) as Hne.
  { intros b Hb. apply Ascii.eqb_neq. intros ->. lia. }
  assert (forall lo hi b, (128 <= lo)%N -> in_range lo hi (byte_val b) = true -> Ascii.eqb c b = false) as Hr.
  { intros lo hi b Hlo Hb. apply Hne. unfold in_range in Hb. bool_inv.
    match goal with H : (lo <=? _)%N = true |- _ => apply N.leb_le in H end. lia. }
  assert (forall t, contains_char c (REPLACEMENT +:+ t) = contains_char c t) as Hrep.
  { intros t. rewrite contains_char_app. unfold REPLACEMENT. rewrite !contains_char_cons, !Hne; [done|..]; by vm_compute. }
  intros s. induction s as [s IH] using (well_founded_induction (Wf_nat.well_founded_ltof _ String.length)).
  unfold Wf_nat.ltof in IH. destruct s as [|b0 s1]; [done|]. cbn -[contains_char in_range is_cont N.ltb N.eqb REPLACEMENT String.append].
  destruct (byte_val b0 <? 128)%N eqn:Hb0.
  { rewrite !contains_char_cons. f_equal. apply IH. simpl. lia. }
  assert (Ascii.eqb c b0 = false) as E0 by (apply Hne; by apply N.ltb_ge).
  repeat match goal with
  | |- context [match ?b with _ => _ end] => destruct b eqn:?
  end; subst; rewrite ?Hrep, ?contains_char_cons, ?E0, ?IH, ?contains_char_cons by (simpl; lia);
  repeat match goal with
  | H : is_cont ?b = true |- _ => rewrite (Hr 0x80%N 0xBF%N b) by done; clear H
  | H : in_range ?lo ?hi (byte_val ?b) = true |- context [Ascii.eqb c ?b] =>
      rewrite (Hr lo hi b) by (done || by repeat case_match; lia); clear H
  end; try solve [done | exact (Hrep EmptyString)].
Qed.
