(* ===== verification/BTree.v ===== *)
(** [std::collections::BTreeMap]: ordered maps as association lists sorted by
    an [Ord] instance, with the operations the sources call.  Iteration visits
    the entries in ascending key order. *)

From Stdlib Require Import Ascii String NArith Lia.
From stdpp Require Import base list strings option sets sorting.
From S2P Require Import Prelude Text.

(** * [Ord] *)

Class Ord (K : Type) := cmp : K -> K -> comparison.

Class OrdLaws (K : Type) {O : Ord K} : Prop := {
  cmp_refl (x : K) : cmp x x = Eq;
  cmp_antisym (x y : K) : cmp y x = CompOpp (cmp x y);
  cmp_trans (x y z : K) : cmp x y = Lt -> cmp y z = Lt -> cmp x z = Lt;
  cmp_eq_l (x y z : K) : cmp x y = Eq -> cmp x z = cmp y z
}.

(** Keys the order tells apart are different values. *)
Class OrdLeibniz (K : Type) {O : Ord K} : Prop := cmp_eq (x y : K) : cmp x y = Eq -> x = y.

(** The derived order of vectors: lexicographic. *)
Fixpoint list_cmp {A} (c : A -> A -> comparison) (l k : list A) : comparison :=
  match l, k with
  | [], [] => Eq
  | [], _ => Lt
  | _, [] => Gt
  | x :: l', y :: k' => match c x y with Eq => list_cmp c l' k' | r => r end
  end.

#[global] Instance ord_N : Ord N := N.compare.
#[global] Instance ord_list `{Ord A} : Ord (list A) := list_cmp cmp.

(** [str] and [OsStr] compare their bytes. *)
#[global] Instance ord_string : Ord string :=
  fun s t => cmp (N_of_ascii <$> list_ascii_of_string s) (N_of_ascii <$> list_ascii_of_string t).

#[global] Instance ord_N_laws : OrdLaws N.
Proof.
  split; unfold cmp, ord_N.
  - apply N.compare_refl.
  - intros x y. apply N.compare_antisym.
  - intros x y z. rewrite !N.compare_lt_iff. lia.
  - intros x y z ->%N.compare_eq. done.
Qed.
#[global] Instance ord_N_leibniz : OrdLeibniz N.
Proof. intros x y. apply N.compare_eq. Qed.

Section lists.
Context `{O : Ord A, !OrdLaws A}.

Lemma list_cmp_refl (l : list A) : list_cmp cmp l l = Eq.
Proof. induction l as [|x l IH]; simpl; [done|]. by rewrite cmp_refl. Qed.

Lemma list_cmp_antisym (l k : list A) : list_cmp cmp k l = CompOpp (list_cmp cmp l k).
Proof.
  revert k; induction l as [|x l IH]; intros [|y k]; simpl; try done.
  rewrite (cmp_antisym x y). destruct (cmp x y); simpl; auto.
Qed.

Lemma cmp_eq_sym (x y : A) : cmp x y = Eq -> cmp y x = Eq.
Proof. intros H. by rewrite cmp_antisym, H. Qed.

Lemma cmp_eq_r (x y z : A) : cmp y z = Eq -> cmp x y = cmp x z.
Proof. intros H. rewrite (cmp_antisym y x), (cmp_antisym z x). f_equal. by apply cmp_eq_l. Qed.

Lemma list_cmp_trans (l k m : list A) :
  list_cmp cmp l k = Lt -> list_cmp cmp k m = Lt -> list_cmp cmp l m = Lt.
Proof.
  revert k m; induction l as [|x l IH]; intros [|y k] [|z m]; simpl; try done.
  destruct (cmp x y) eqn:E1; try done.
  - rewrite (cmp_eq_l x y z E1). destruct (cmp y z); try done. apply IH.
  - intros _. destruct (cmp y z) eqn:E2; try done.
    + by rewrite <- (cmp_eq_r x y z E2), E1.
    + by rewrite (cmp_trans x y z).
Qed.

Lemma list_cmp_eq_l (l k m : list A) : list_cmp cmp l k = Eq -> list_cmp cmp l m = list_cmp cmp k m.
Proof.
  revert k m; induction l as [|x l IH]; intros [|y k] [|z m]; simpl; try done.
  destruct (cmp x y) eqn:E; try done. intros H. rewrite (cmp_eq_l x y z E).
  destruct (cmp y z); auto.
Qed.

#[global] Instance ord_list_laws : OrdLaws (list A).
Proof.
  split; [exact list_cmp_refl|exact list_cmp_antisym|exact list_cmp_trans|exact list_cmp_eq_l].
Qed.

#[global] Instance ord_list_leibniz `{!OrdLeibniz A} : OrdLeibniz (list A).
Proof.
  intros l k H. change (list_cmp cmp l k = Eq) in H. revert k H.
  induction l as [|x l IH]; intros [|y k]; simpl; try done.
  destruct (cmp x y) eqn:E; try done. intros H. f_equal; [by apply cmp_eq|by apply IH].
Qed.

End lists.

(** An order pulled back along a function. *)
Section pullback.
Context `{O : Ord A, !OrdLaws A} {B : Type} (f : B -> A).

Lemma pullback_laws : @OrdLaws B (fun x y => cmp (f x) (f y)).
Proof.
  split; intros.
  - apply (cmp_refl (f x)).
  - apply (cmp_antisym (f x) (f y)).
  - by apply (cmp_trans (f x) (f y) (f z)).
  - by apply (cmp_eq_l (f x) (f y) (f z)).
Qed.

End pullback.

#[global] Instance ord_string_laws : OrdLaws string.
Proof. exact (pullback_laws (fun s => N_of_ascii <$> list_ascii_of_string s)). Qed.

#[global] Instance ord_string_leibniz : OrdLeibniz string.
Proof.
  intros s t H. apply (cmp_eq (N_of_ascii <$> list_ascii_of_string s)) in H.
  rewrite <- (string_of_list_ascii_of_string s), <- (string_of_list_ascii_of_string t). f_equal.
  assert (Inj (=) (=) N_of_ascii) as Hinj.
  { intros a b Hab. by rewrite <- (ascii_N_embedding a), <- (ascii_N_embedding b), Hab. }
  by apply (inj (fmap N_of_ascii)) in H.
Qed.

(** * Maps *)

Section maps.
Context `{O : Ord K, !OrdLaws K} {V : Type}.

Definition BTreeMap : Type := list (K * V).

Implicit Types (m : list (K * V)) (k j : K) (v w : V).

Fixpoint bt_get k m : option V :=
  match m with
  | [] => None
  | (j, v) :: m' => match cmp k j with Eq => Some v | _ => bt_get k m' end
  end.

(** [BTreeMap::insert]: an equal key is kept and its value replaced. *)
Fixpoint bt_insert k v m : list (K * V) :=
  match m with
  | [] => [(k, v)]
  | (j, w) :: m' =>
      match cmp k j with
      | Lt => (k, v) :: m
      | Eq => (j, v) :: m'
      | Gt => (j, w) :: bt_insert k v m'
      end
  end.

Definition key_is k (e : K * V) : bool := match cmp k e.1 with Eq => true | _ => false end.

Definition bt_remove k m : list (K * V) := filter (fun e => key_is k e = false) m.

(** [BTreeMap::retain] *)
Definition bt_retain (f : K -> V -> bool) m : list (K * V) := filter (fun e => f e.1 e.2 = true) m.

(** The representation invariant: keys strictly ascend. *)
Definition bt_wf m : Prop := StronglySorted (fun e f => cmp e.1 f.1 = Lt) m.

Lemma bt_get_insert k v m : bt_get k (bt_insert k v m) = Some v.
Proof.
  induction m as [|[j w] m IH]; simpl; [by rewrite cmp_refl|].
  destruct (cmp k j) eqn:E; simpl; rewrite ?cmp_refl, ?E; done.
Qed.

Lemma bt_get_insert_ne k j v m : cmp j k <> Eq -> bt_get j (bt_insert k v m) = bt_get j m.
Proof.
  intros Hjk. induction m as [|[i w] m IH]; simpl; [by destruct (cmp j k)|].
  destruct (cmp k i) eqn:E; simpl.
  - rewrite <- (cmp_eq_r j k i E). by destruct (cmp j k).
  - by destruct (cmp j k).
  - by destruct (cmp j i).
Qed.

Lemma bt_get_eq k j m : cmp k j = Eq -> bt_get k m = bt_get j m.
Proof.
  intros H. induction m as [|[i w] m IH]; simpl; [done|]. by rewrite (cmp_eq_l k j i H), IH.
Qed.

Lemma bt_get_remove k m : bt_get k (bt_remove k m) = None.
Proof.
  unfold bt_remove. induction m as [|[j w] m IH]; [done|].
  destruct (cmp k j) eqn:E;
    [rewrite filter_cons_False by (unfold key_is; simpl; by rewrite E); done
    |rewrite filter_cons_True by (unfold key_is; simpl; by rewrite E); simpl; by rewrite E..].
Qed.

Lemma bt_get_remove_ne k j m : cmp j k <> Eq -> bt_get j (bt_remove k m) = bt_get j m.
Proof.
  intros Hjk. unfold bt_remove. induction m as [|[i w] m IH]; [done|].
  destruct (cmp k i) eqn:E;
    [rewrite filter_cons_False by (unfold key_is; simpl; by rewrite E)
    |rewrite filter_cons_True by (unfold key_is; simpl; by rewrite E); simpl; by rewrite IH..].
  simpl. rewrite <- (cmp_eq_r j k i E), IH. by destruct (cmp j k).
Qed.

Lemma bt_get_elem k m v : bt_get k m = Some v -> exists j, cmp k j = Eq /\ (j, v) ∈ m.
Proof.
  induction m as [|[j w] m IH]; simpl; [done|]. destruct (cmp k j) eqn:E.
  - intros [= ->]. exists j. split; [done|apply list_elem_of_here].
  - intros (i & ? & ?)%IH. exists i. set_solver.
  - intros (i & ? & ?)%IH. exists i. set_solver.
Qed.

Lemma bt_elem_get k m v : bt_wf m -> (k, v) ∈ m -> bt_get k m = Some v.
Proof.
  induction 1 as [|[j w] m Hm IH Hj]; [set_solver|]. simpl.
  intros [[= -> ->]|Hin]%elem_of_cons; [by rewrite cmp_refl|].
  rewrite Forall_forall in Hj. apply Hj in Hin as Hlt. simpl in Hlt.
  rewrite cmp_antisym, Hlt. simpl. auto.
Qed.

Lemma bt_insert_elem e k v m : e ∈ bt_insert k v m -> e.2 = v /\ cmp k e.1 = Eq \/ e ∈ m.
Proof.
  induction m as [|[j w] m IH]; simpl.
  - intros ->%list_elem_of_singleton. left. by rewrite cmp_refl.
  - destruct (cmp k j) eqn:E; rewrite elem_of_cons.
    + intros [->|?]; [left; done|right; set_solver].
    + intros [->|?]; [left; by rewrite cmp_refl|by right].
    + intros [->|[?|?]%IH]; [right; set_solver|by left|right; set_solver].
Qed.

Lemma bt_wf_insert k v m : bt_wf m -> bt_wf (bt_insert k v m).
Proof.
  induction 1 as [|[j w] m Hm IH Hj]; simpl; [repeat constructor|].
  destruct (cmp k j) eqn:E.
  - constructor; [done|]. exact Hj.
  - constructor; [by constructor|]. constructor; [done|]. simpl.
    eapply Forall_impl; [exact Hj|]. intros e He. simpl in *. by eapply cmp_trans.
  - constructor; [done|]. apply Forall_forall. intros e He.
    apply bt_insert_elem in He as [[_ Hk]|He].
    + simpl. rewrite <- (cmp_eq_r j k e.1 Hk). by rewrite cmp_antisym, E.
    + rewrite Forall_forall in Hj. by apply Hj.
Qed.

Lemma bt_wf_filter (P : K * V -> Prop) `{forall e, Decision (P e)} m : bt_wf m -> bt_wf (filter P m).
Proof.
  induction 1 as [|e m Hm IH He]; [constructor|]. rewrite filter_cons. case_decide; [|done].
  constructor; [done|]. apply Forall_forall. intros f [_ Hf]%list_elem_of_filter.
  rewrite Forall_forall in He. auto.
Qed.

Lemma bt_wf_remove k m : bt_wf m -> bt_wf (bt_remove k m).
Proof. apply bt_wf_filter. Qed.

Lemma bt_wf_retain f m : bt_wf m -> bt_wf (bt_retain f m).
Proof. apply bt_wf_filter. Qed.

End maps.
Arguments BTreeMap : clear implicits.

Section leibniz.
Context `{O : Ord K, !OrdLaws K, !OrdLeibniz K} {V : Type}.
Implicit Types (m : list (K * V)).

Lemma cmp_Eq_iff (x y : K) : cmp x y = Eq <-> x = y.
Proof. split; [apply cmp_eq|intros ->; apply cmp_refl]. Qed.

Lemma bt_get_Some k v m : bt_wf m -> bt_get k m = Some v <-> (k, v) ∈ m.
Proof.
  intros Hm. split; [|by apply bt_elem_get].
  intros (j & ->%cmp_eq & ?)%bt_get_elem. done.
Qed.

Lemma bt_get_retain f k m :
  bt_wf m ->
  bt_get k (bt_retain f m) = match bt_get k m with Some v => if f k v then Some v else None | None => None end.
Proof.
  intros Hm. apply option_eq. intros v. rewrite bt_get_Some by by apply bt_wf_retain.
  unfold bt_retain. rewrite list_elem_of_filter, <- (bt_get_Some k v m) by done. simpl.
  destruct (bt_get k m) as [w|]; [|by split; [intros []|]].
  split.
  - intros [Hf Hw]. injection Hw as ->. by rewrite Hf.
  - destruct (f k w) eqn:E; [|done]. intros Hw. by injection Hw as <-.
Qed.

End leibniz.
