(* ===== verification/NativePath.v ===== *)
(** The crate [cageforge-path] as a POSIX host builds it, over the part of
    [std::path] it uses: paths as byte strings, their components, joining and
    collecting, and the lexical comparison primitives every other crate relies
    on ([paths_equal], [is_within], [contains_component_path],
    [normalize_lexical_path], [resolve_lexical_path], [NativePathKey]). *)

From Stdlib Require Import Ascii String Lia.
From stdpp Require Import base list strings option.
From S2P Require Import Prelude Text.

(** * [std::path] on POSIX *)

(** A [Path] or [PathBuf]: its bytes. *)
Abbreviation path := string.

(** [std::path::Component].  A POSIX path never has a [Prefix]. *)
Inductive Component :=
  | Prefix (value : string)
  | RootDir
  | CurDir
  | ParentDir
  | Normal (value : string).

#[global] Instance Component_eq_dec : EqDecision Component.
Proof. solve_decision. Defined.

Definition SEP : ascii := "/".

(** [Path::is_absolute] *)
Definition is_absolute (p : path) : bool := starts_with_char SEP p.

(** The component one piece between separators stands for, past the first
    piece of a relative path. *)
Definition piece_component (piece : string) : list Component :=
  if bool_decide (piece = "" \/ piece = ".") then []
  else if bool_decide (piece = "..") then [ParentDir]
  else [Normal piece].

(** [Path::components]: repeated separators and [.] are dropped, except a
    leading [.] of a relative path. *)
Definition components (p : path) : list Component :=
  let pieces := str_split SEP p in
  if is_absolute p then RootDir :: mjoin (piece_component <$> pieces)
  else match pieces with
       | first :: rest =>
           if bool_decide (first = ".") then CurDir :: mjoin (piece_component <$> rest)
           else mjoin (piece_component <$> pieces)
       | [] => []
       end.

(** [PathBuf::push] and [Path::join] *)
Definition path_join (base p : path) : path :=
  if is_absolute p then p
  else if bool_decide (base = "") || ends_with_char SEP base then base +:+ p
  else base +:+ String SEP p.

(** [Component::as_os_str] *)
Definition component_str (c : Component) : string :=
  match c with
  | Prefix s => s
  | RootDir => "/"
  | CurDir => "."
  | ParentDir => ".."
  | Normal s => s
  end.

(** [Iterator::collect::<PathBuf>] *)
Definition collect_path (cs : list Component) : path :=
  foldl path_join "" (component_str <$> cs).

(** [<Path as PartialEq>::eq]: by components *)
Definition path_eqb (p q : path) : bool := bool_decide (components p = components q).

(** * [cageforge-path] *)

(** [native::NativeComponentKey], with [NativeOsKey = OsString] on POSIX. *)
Inductive NativeComponentKey :=
  | KPrefix (value : string)
  | KRootDir
  | KCurDir
  | KParentDir
  | KNormal (value : string).

#[global] Instance NativeComponentKey_eq_dec : EqDecision NativeComponentKey.
Proof. solve_decision. Defined.

(** [native::native_os_key] off Windows *)
Definition native_os_key (value : string) : string := value.

Definition component_key (c : Component) : NativeComponentKey :=
  match c with
  | Prefix value => KPrefix (native_os_key value)
  | RootDir => KRootDir
  | CurDir => KCurDir
  | ParentDir => KParentDir
  | Normal value => KNormal (native_os_key value)
  end.

Definition components_equal (left right : Component) : bool :=
  bool_decide (component_key left = component_key right).

Definition not_cur_dir (c : Component) : bool := bool_decide (c <> CurDir).

(** [path.components().filter(|c| *c != Component::CurDir)] *)
Definition lexical_components (p : path) : list Component :=
  filter (fun c => not_cur_dir c = true) (components p).

Definition normalize_lexical_path (p : path) : path :=
  let normalized := collect_path (lexical_components p) in
  if bool_decide (normalized = p) then p else normalized.

Definition NativePathKey : Type := list NativeComponentKey.

Definition NativePathKey_new (p : path) : NativePathKey :=
  component_key <$> lexical_components (normalize_lexical_path p).

Definition contains_parent_traversal (p : path) : bool :=
  existsb (fun c => bool_decide (c = ParentDir)) (components p).

Inductive PathResolutionError := Empty | ContainsNul | ParentTraversal.

#[global] Instance PathResolutionError_eq_dec : EqDecision PathResolutionError.
Proof. solve_decision. Defined.

Definition resolve_lexical_path (base declaration : path) : result PathResolutionError path :=
  reject bool_decide (declaration = "") with Empty ;;
  reject contains_char NUL declaration with ContainsNul ;;
  reject contains_parent_traversal declaration with ParentTraversal ;;
  let resolved := if is_absolute declaration then declaration else path_join base declaration in
  Ok (normalize_lexical_path resolved).

(** The comparison loop of [paths_equal] *)
Fixpoint paths_equal_loop (left right : list Component) : bool :=
  match left, right with
  | [], [] => true
  | l :: left', r :: right' => if components_equal l r then paths_equal_loop left' right' else false
  | _, _ => false
  end.

Definition paths_equal (left right : path) : bool :=
  paths_equal_loop (lexical_components left) (lexical_components right).

(** The comparison loop of [is_within] *)
Fixpoint is_within_loop (root p : list Component) : bool :=
  match root, p with
  | [], _ => true
  | r :: root', c :: p' => if components_equal c r then is_within_loop root' p' else false
  | _ :: _, [] => false
  end.

Definition is_within (p root : path) : bool :=
  if contains_parent_traversal p || contains_parent_traversal root then false
  else
    let pc := lexical_components p in
    let rc := lexical_components root in
    match rc with
    | [] => bool_decide (head pc <> Some RootDir)
    | _ => is_within_loop rc pc
    end.

(** [slice::windows(n)] for [n >= 1] *)
Fixpoint windows {A} (n : nat) (l : list A) : list (list A) :=
  match l with
  | [] => []
  | _ :: l' => if (length l <? n)%nat then [] else take n l :: windows n l'
  end.

(** [window.iter().zip(needle).all(..)] *)
Fixpoint zip_all_equal (left right : list Component) : bool :=
  match left, right with
  | l :: left', r :: right' => components_equal l r && zip_all_equal left' right'
  | _, _ => true
  end.

Definition contains_component_path (p needle : path) : bool :=
  let path_components := lexical_components p in
  let needle_components := lexical_components needle in
  if bool_decide (needle_components = [])
     || (length path_components <? length needle_components)%nat
  then false
  else existsb (fun window => zip_all_equal window needle_components)
         (windows (length needle_components) path_components).

Definition strings_equal (left right : string) : bool := bool_decide (left = right).

Definition case_fold (value : string) : string := value.

(** * The shape of component lists *)

(** What a path can print: [Normal] names are non-empty, hold no separator and
    are neither [.] nor [..]. *)
Definition normal_name (s : string) : Prop :=
  s <> "" /\ s <> "." /\ s <> ".." /\ contains_char SEP s = false.

Definition tail_component (c : Component) : Prop :=
  match c with ParentDir => True | Normal s => normal_name s | _ => False end.

(** A root, if any, comes first and once. *)
Definition lexical_shape (cs : list Component) : Prop :=
  exists cs', (cs = RootDir :: cs' \/ cs = cs') /\ Forall tail_component cs'.

Lemma piece_component_shape piece :
  contains_char SEP piece = false -> Forall tail_component (piece_component piece).
Proof.
  intros H. unfold piece_component.
  repeat case_bool_decide; repeat constructor; simpl; naive_solver.
Qed.

Lemma pieces_shape pieces :
  Forall (fun p => contains_char SEP p = false) pieces ->
  Forall tail_component (mjoin (piece_component <$> pieces)).
Proof.
  induction 1; simpl; [constructor|]. apply Forall_app; auto using piece_component_shape.
Qed.

Lemma tail_not_cur_dir cs :
  Forall tail_component cs -> filter (fun c => not_cur_dir c = true) cs = cs.
Proof.
  induction 1 as [|c cs Hc _ IH]; [done|].
  rewrite filter_cons_True; [by rewrite IH|]. by destruct c.
Qed.

(** The three forms a component list can take. *)
Lemma components_cases p :
  exists cs, Forall tail_component cs /\
    (components p = RootDir :: cs /\ is_absolute p = true \/
     components p = CurDir :: cs /\ is_absolute p = false \/
     components p = cs /\ is_absolute p = false).
Proof.
  unfold components. pose proof (str_split_pieces SEP p) as Hp.
  destruct (is_absolute p).
  { eauto 6 using pieces_shape. }
  destruct (str_split SEP p) as [|q pieces] eqn:E; [exists []; simpl; eauto|].
  case_bool_decide as Hq.
  - exists (mjoin (piece_component <$> pieces)). inversion Hp; subst. eauto 6 using pieces_shape.
  - exists (mjoin (piece_component <$> q :: pieces)). eauto 6 using pieces_shape.
Qed.

Lemma lexical_components_cases p :
  exists cs, Forall tail_component cs /\
    (lexical_components p = RootDir :: cs /\ is_absolute p = true \/
     lexical_components p = cs /\ is_absolute p = false).
Proof.
  destruct (components_cases p) as (cs & Hcs & H). exists cs; split; [done|].
  unfold lexical_components.
  destruct H as [[-> ->]|[[-> ->]|[-> ->]]].
  - left; split; [|done]. rewrite filter_cons_True by done. by rewrite tail_not_cur_dir.
  - right; split; [|done]. rewrite filter_cons_False by done. by rewrite tail_not_cur_dir.
  - right; split; [|done]. by rewrite tail_not_cur_dir.
Qed.

Lemma is_absolute_lexical p : is_absolute p = true <-> head (lexical_components p) = Some RootDir.
Proof.
  destruct (lexical_components_cases p) as (cs & Hcs & [[-> ->]|[-> ->]]); [done|].
  split; [done|]. destruct Hcs as [|c cs Hc _]; [done|]. by intros [= ->].
Qed.

Lemma lexical_components_shape p : lexical_shape (lexical_components p).
Proof.
  destruct (lexical_components_cases p) as (cs & Hcs & [[-> _]|[-> _]]); exists cs; eauto.
Qed.

(** * Collecting components prints a path that parses back *)

Section collect.
Implicit Types (s : string) (cs : list Component).

Lemma last_char_no_sep s : contains_char SEP s = false -> ends_with_char SEP s = false.
Proof.
  unfold ends_with_char. induction s as [|a [|b s] IH]; [done| |]; intros H;
    rewrite contains_char_cons in H; apply orb_false_iff in H as [Ha Hs].
  - simpl. by rewrite Ascii.eqb_sym.
  - by apply IH.
Qed.

Lemma is_absolute_no_sep s : contains_char SEP s = false -> is_absolute s = false.
Proof.
  destruct s as [|a s]; [done|]. rewrite contains_char_cons. intros [Ha _]%orb_false_iff.
  unfold is_absolute; simpl. by rewrite Ascii.eqb_sym.
Qed.

Lemma ends_with_char_app c s t : t <> "" -> ends_with_char c (s +:+ t) = ends_with_char c t.
Proof. destruct t as [|a t]; [done|]. intros _. unfold ends_with_char. by rewrite last_char_app. Qed.

Lemma str_join_merge b n l :
  str_join SEP ((b +:+ String SEP n) :: l) = b +:+ String SEP (str_join SEP (n :: l)).
Proof.
  destruct l as [|m l]; [done|]. rewrite !str_join_cons2.
  change (String SEP (n +:+ ?x)) with (String SEP n +:+ x).
  by rewrite string_app_assoc.
Qed.

Lemma foldl_path_join b l :
  b <> "" -> ends_with_char SEP b = false ->
  Forall (fun n => n <> "" /\ contains_char SEP n = false) l ->
  foldl path_join b l = str_join SEP (b :: l).
Proof.
  intros Hb He Hl. revert b Hb He.
  induction Hl as [|n l [Hn Hs] Hl IH]; intros b Hb He; [done|]. simpl foldl.
  unfold path_join at 2. rewrite is_absolute_no_sep, bool_decide_eq_false_2, He by done. simpl orb.
  rewrite IH.
  - apply str_join_merge.
  - by destruct b.
  - change (String SEP n) with ("/" +:+ n).
    rewrite !ends_with_char_app by done. by apply last_char_no_sep.
Qed.

Lemma tail_component_str cs :
  Forall tail_component cs ->
  Forall (fun n => n <> "" /\ contains_char SEP n = false) (component_str <$> cs).
Proof.
  induction 1 as [|c cs Hc _ IH]; [constructor|]. constructor; [|done].
  destruct c; try done. destruct Hc as (?&?&?&?). done.
Qed.

Lemma str_split_tail c cs :
  Forall tail_component (c :: cs) ->
  str_split SEP (str_join SEP (component_str <$> c :: cs)) = component_str <$> c :: cs.
Proof.
  intros Hcs. apply str_split_join; [done|].
  eapply Forall_impl; [|exact (tail_component_str _ Hcs)]. by intros x [_ ?].
Qed.

Lemma tail_component_pieces cs :
  Forall tail_component cs -> mjoin (piece_component <$> (component_str <$> cs)) = cs.
Proof.
  induction 1 as [|c cs Hc _ IH]; [done|].
  change (piece_component (component_str c) ++ mjoin (piece_component <$> (component_str <$> cs))
          = c :: cs).
  rewrite IH. destruct c as [| | | |s]; try done. destruct Hc as (H1&H2&H3&_).
  unfold piece_component. simpl.
  rewrite !bool_decide_eq_false_2; [done|done|naive_solver].
Qed.

Lemma str_split_root s : str_split SEP (String SEP s) = "" :: str_split SEP s.
Proof. done. Qed.

Lemma collect_root cs :
  Forall tail_component cs ->
  collect_path (RootDir :: cs) = String SEP (str_join SEP (component_str <$> cs)).
Proof.
  intros Hcs.
  change (collect_path (RootDir :: cs)) with (foldl path_join "/" (component_str <$> cs)).
  pose proof (tail_component_str _ Hcs) as Hl.
  destruct (component_str <$> cs) as [|n l]; [reflexivity|]. simpl foldl.
  inversion Hl as [|?? [Hn Hs] Hl']; subst.
  assert (path_join "/" n = String SEP n) as ->.
  { unfold path_join. rewrite is_absolute_no_sep by done. reflexivity. }
  rewrite foldl_path_join; [by destruct l|done| |done].
  change (String SEP n) with ("/" +:+ n). rewrite ends_with_char_app by done.
  by apply last_char_no_sep.
Qed.

Lemma collect_relative cs :
  Forall tail_component cs -> collect_path cs = str_join SEP (component_str <$> cs).
Proof.
  intros Hcs. unfold collect_path.
  pose proof (tail_component_str _ Hcs) as Hl.
  destruct (component_str <$> cs) as [|n l]; [reflexivity|]. simpl foldl.
  inversion Hl as [|?? [Hn Hs] Hl']; subst.
  assert (path_join "" n = n) as ->.
  { unfold path_join. rewrite is_absolute_no_sep by done. reflexivity. }
  rewrite foldl_path_join; auto using last_char_no_sep.
Qed.

Lemma is_absolute_join l :
  Forall (fun n => n <> "" /\ contains_char SEP n = false) l -> is_absolute (str_join SEP l) = false.
Proof.
  destruct 1 as [|n [|m l] [Hn Hs] _]; [done|by apply is_absolute_no_sep|].
  rewrite str_join_cons2. unfold is_absolute. rewrite starts_with_char_app by done.
  by apply is_absolute_no_sep.
Qed.

(** Printing a well-formed component list and reading it back is the identity. *)
Lemma components_collect cs : lexical_shape cs -> components (collect_path cs) = cs.
Proof.
  intros (cs' & [-> | ->] & Hcs).
  - rewrite collect_root by done. unfold components. simpl is_absolute.
    f_equal. rewrite str_split_root. change (is_absolute (String SEP ?x)) with true. cbv iota.
    destruct cs' as [|c cs']; [done|].
    rewrite str_split_tail by done.
    change (mjoin (piece_component <$> ("" :: ?l))) with (mjoin (piece_component <$> l)).
    by rewrite tail_component_pieces.
  - rewrite collect_relative by done.
    pose proof (tail_component_str _ Hcs) as Hl. pose proof (tail_component_pieces _ Hcs) as Hp.
    destruct cs' as [|c cs']; [done|]. unfold components.
    rewrite str_split_tail by done.
    assert (is_absolute (str_join SEP (component_str <$> c :: cs')) = false) as ->.
    { by apply is_absolute_join. }
    change (component_str <$> c :: cs') with (component_str c :: (component_str <$> cs')) in *.
    cbv iota beta. rewrite bool_decide_eq_false_2; [exact Hp|].
    inversion Hcs as [|?? Hc]; subst. destruct c; try done. by destruct Hc as (_&?&_).
Qed.

Lemma normalize_lexical_path_eq p :
  normalize_lexical_path p = collect_path (lexical_components p).
Proof. unfold normalize_lexical_path. by case_bool_decide. Qed.

Lemma lexical_shape_no_cur_dir cs :
  lexical_shape cs -> filter (fun c => not_cur_dir c = true) cs = cs.
Proof.
  intros (cs' & [-> | ->] & Hcs); [|by apply tail_not_cur_dir].
  rewrite filter_cons_True by done. by rewrite tail_not_cur_dir.
Qed.

Lemma components_normalize p : components (normalize_lexical_path p) = lexical_components p.
Proof.
  rewrite normalize_lexical_path_eq. apply components_collect, lexical_components_shape.
Qed.

Lemma lexical_components_normalize p :
  lexical_components (normalize_lexical_path p) = lexical_components p.
Proof.
  unfold lexical_components at 1. rewrite components_normalize.
  apply lexical_shape_no_cur_dir, lexical_components_shape.
Qed.

Lemma NativePathKey_new_eq p : NativePathKey_new p = component_key <$> lexical_components p.
Proof. unfold NativePathKey_new. by rewrite lexical_components_normalize. Qed.

End collect.

(** * Joining *)

Section join.

Lemma str_split_app_sep c s t :
  str_split c (s +:+ String c t) = str_split c s ++ str_split c t.
Proof.
  induction s as [|a s IH].
  { unfold str_split. simpl. by rewrite Ascii.eqb_refl. }
  unfold str_split in *.
  change (str_split_by (Ascii.eqb c) (String a (s +:+ String c t))
          = str_split_by (Ascii.eqb c) (String a s) ++ str_split_by (Ascii.eqb c) t).
  simpl. rewrite IH. destruct (Ascii.eqb c a); [done|].
  destruct (str_split_by_cons (Ascii.eqb c) s) as (p & ps & ->). done.
Qed.

Definition root_part (p : path) : list Component := if is_absolute p then [RootDir] else [].

Definition body_part (p : path) : list Component := mjoin (piece_component <$> str_split SEP p).

Lemma body_part_tail p : Forall tail_component (body_part p).
Proof. apply pieces_shape, str_split_pieces. Qed.

Lemma lexical_components_parts p : lexical_components p = root_part p ++ body_part p.
Proof.
  pose proof (body_part_tail p) as Ht.
  unfold lexical_components, components, root_part, body_part in *.
  destruct (is_absolute p).
  - rewrite filter_cons_True by done. by rewrite tail_not_cur_dir.
  - destruct (str_split SEP p) as [|q l]; [done|]. case_bool_decide as Hq; [|by apply tail_not_cur_dir].
    subst. rewrite filter_cons_False by done. by apply tail_not_cur_dir.
Qed.

Lemma body_part_app_sep s t : body_part (s +:+ String SEP t) = body_part s ++ body_part t.
Proof. unfold body_part. by rewrite str_split_app_sep, fmap_app, join_app. Qed.

Lemma ends_with_char_inv c s : ends_with_char c s = true -> exists s', s = s' +:+ String c "".
Proof.
  unfold ends_with_char. induction s as [|a s IH]; [done|].
  destruct s as [|b s]; simpl in *.
  - intros ->%Ascii.eqb_eq. by exists "".
  - intros (s' & Hs')%IH. rewrite Hs'. by exists (String a s').
Qed.

Lemma is_absolute_app s t : is_absolute s = true \/ s <> "" -> is_absolute (s +:+ t) = is_absolute s.
Proof. destruct s; [naive_solver|done]. Qed.

(** A relative path is appended component by component. *)
Lemma lexical_components_join base p :
  is_absolute p = false ->
  lexical_components (path_join base p) = lexical_components base ++ lexical_components p.
Proof.
  intros Hp. unfold path_join. rewrite Hp, !lexical_components_parts.
  unfold root_part at 3. rewrite Hp. simpl (_ ++ body_part p).
  case_bool_decide as Hb; simpl orb.
  { subst. change ("" +:+ p) with p. unfold root_part. rewrite Hp. reflexivity. }
  assert (forall t, root_part (base +:+ t) = root_part base) as Hr.
  { intros t. unfold root_part. by rewrite is_absolute_app by auto. }
  destruct (ends_with_char SEP base) eqn:He.
  - rewrite Hr. apply ends_with_char_inv in He as (b & ->).
    rewrite <- string_app_assoc. change (String SEP "" +:+ p) with (String SEP p).
    rewrite !body_part_app_sep. change (body_part "") with (@nil Component).
    by rewrite app_nil_r, app_assoc.
  - by rewrite Hr, body_part_app_sep, app_assoc.
Qed.

Lemma lexical_components_join_absolute base p :
  is_absolute p = true -> lexical_components (path_join base p) = lexical_components p.
Proof. intros Hp. unfold path_join. by rewrite Hp. Qed.

Lemma contains_parent_traversal_lexical p :
  contains_parent_traversal p = existsb (fun c => bool_decide (c = ParentDir)) (lexical_components p).
Proof.
  unfold contains_parent_traversal, lexical_components.
  induction (components p) as [|c cs IH]; [done|].
  destruct (decide (c = CurDir)) as [->|Hc].
  - rewrite filter_cons_False by done. exact IH.
  - rewrite filter_cons_True by (by apply bool_decide_eq_true). simpl existsb. by rewrite IH.
Qed.

Lemma lexical_components_name s :
  normal_name s -> is_absolute s = false /\ lexical_components s = [Normal s].
Proof.
  intros (H1 & H2 & H3 & H4). split; [by apply is_absolute_no_sep|].
  rewrite lexical_components_parts. unfold root_part, body_part.
  rewrite is_absolute_no_sep by done. unfold str_split. rewrite str_split_no_sep by done.
  simpl. unfold piece_component. rewrite !bool_decide_eq_false_2; naive_solver.
Qed.

(** The names of a component list. *)
Definition names (cs : list Component) : list string :=
  omap (fun c => match c with Normal s => Some s | _ => None end) cs.

Lemma names_app cs ds : names (cs ++ ds) = names cs ++ names ds.
Proof. apply omap_app. Qed.

Lemma names_Normal l : names (Normal <$> l) = l.
Proof. induction l as [|x l IH]; simpl; [done|]. f_equal. apply IH. Qed.

Lemma tail_names cs :
  Forall tail_component cs -> existsb (fun c => bool_decide (c = ParentDir)) cs = false ->
  cs = Normal <$> names cs /\ Forall normal_name (names cs).
Proof.
  induction 1 as [|c cs Hc _ IH]; simpl; [auto|]. intros [? [-> ?]%IH]%orb_false_iff.
  destruct c; try done. bool_inv. split; [|by constructor]. simpl. f_equal.
  by rewrite names_Normal.
Qed.

(** A path without parent traversal is its root and its names. *)
Lemma lexical_components_names p :
  contains_parent_traversal p = false ->
  lexical_components p = root_part p ++ (Normal <$> names (lexical_components p)) /\
  Forall normal_name (names (lexical_components p)).
Proof.
  rewrite contains_parent_traversal_lexical, lexical_components_parts, names_app.
  rewrite existsb_app. intros [_ [Hb Hn]%tail_names]%orb_false_iff; [|apply body_part_tail].
  assert (names (root_part p) = []) as -> by (unfold root_part; by destruct (is_absolute p)).
  split; [by rewrite Hb at 1|done].
Qed.

(** What holds of the pieces between separators holds of the names. *)
Lemma names_pieces (P : string -> Prop) p :
  Forall P (str_split SEP p) -> Forall P (names (lexical_components p)).
Proof.
  intros Hp. rewrite lexical_components_parts, names_app.
  assert (names (root_part p) = []) as -> by (unfold root_part; by destruct (is_absolute p)).
  unfold body_part. simpl.
  induction Hp as [|x l Hx _ IH]; [constructor|]. simpl. rewrite names_app.
  apply Forall_app. split; [|exact IH]. unfold piece_component.
  repeat case_bool_decide; repeat constructor; done.
Qed.

Lemma utf8_names p : utf8 p -> Forall utf8 (names (lexical_components p)).
Proof. intros Hp. by apply names_pieces, utf8_split. Qed.

Lemma path_join_contains c base p :
  c <> SEP -> contains_char c base = false -> contains_char c p = false ->
  contains_char c (path_join base p) = false.
Proof.
  intros Hc Hb Hp. unfold path_join. destruct (is_absolute p); [done|].
  destruct (_ || _); rewrite contains_char_app, ?contains_char_cons, Hb, Hp; [done|].
  rewrite orb_false_r. by apply Ascii.eqb_neq.
Qed.

(** Normalization introduces no character but separators and dots. *)
Lemma normalize_contains c p :
  c <> SEP -> c <> "."%char -> contains_char c p = false ->
  contains_char c (normalize_lexical_path p) = false.
Proof.
  intros Hs Hd Hp. rewrite normalize_lexical_path_eq. unfold collect_path.
  assert (Forall (fun s => contains_char c s = false) (component_str <$> lexical_components p)) as Hall.
  { assert (contains_char c "/" = false) as Hsep by (rewrite contains_char_cons; apply orb_false_iff; split; [by apply Ascii.eqb_neq|done]).
    assert (contains_char c "." = false) as Hdot by (rewrite contains_char_cons; apply orb_false_iff; split; [by apply Ascii.eqb_neq|done]).
    rewrite lexical_components_parts, fmap_app. apply Forall_app. split.
    - unfold root_part. destruct (is_absolute p); repeat constructor; done.
    - unfold body_part. pose proof (str_split_contains c SEP p Hp) as Hpieces.
      induction Hpieces as [|x l Hx _ IH]; [constructor|]. simpl. rewrite fmap_app. apply Forall_app. split; [|exact IH].
      unfold piece_component. repeat case_bool_decide; repeat constructor; simpl; try done.
      rewrite contains_char_cons. apply orb_false_iff. split; [by apply Ascii.eqb_neq|done]. }
  assert (contains_char c "" = false) as Hacc by done. revert Hacc. generalize "".
  induction Hall as [|x l Hx _ IH]; intros acc Hacc; simpl; [done|]. apply IH. by apply path_join_contains.
Qed.

End join.

(** * What the comparison primitives decide *)

Section comparison.

#[global] Instance component_key_inj : Inj (=) (=) component_key.
Proof. intros [] []; simpl; unfold native_os_key; congruence. Qed.

Lemma components_equal_true c d : components_equal c d = true <-> c = d.
Proof.
  unfold components_equal. rewrite bool_decide_eq_true. split; [apply (inj component_key)|congruence].
Qed.

Lemma paths_equal_loop_true l r : paths_equal_loop l r = true <-> l = r.
Proof.
  revert r; induction l as [|c l IH]; intros [|d r]; simpl; try done.
  destruct (components_equal c d) eqn:E.
  - apply components_equal_true in E as ->. rewrite IH. naive_solver.
  - split; [done|]. intros [= -> ->].
    by rewrite (proj2 (components_equal_true d d)) in E.
Qed.

Lemma paths_equal_true p q : paths_equal p q = true <-> lexical_components p = lexical_components q.
Proof. apply paths_equal_loop_true. Qed.

Lemma is_within_loop_true r p : is_within_loop r p = true <-> exists rest, p = r ++ rest.
Proof.
  revert p; induction r as [|c r IH]; intros p; simpl; [naive_solver|].
  destruct p as [|d p]; [naive_solver|].
  destruct (components_equal d c) eqn:E.
  - apply components_equal_true in E as ->. rewrite IH. naive_solver.
  - split; [done|]. intros (rest & [= -> ->]).
    by rewrite (proj2 (components_equal_true c c)) in E.
Qed.

(** [is_within] is the component-prefix order on traversal-free paths; an empty
    root holds the relative paths. *)
Lemma is_within_true p r :
  is_within p r = true <->
  contains_parent_traversal p = false /\ contains_parent_traversal r = false /\
  (exists rest, lexical_components p = lexical_components r ++ rest) /\
  (lexical_components r = [] -> is_absolute p = false).
Proof.
  unfold is_within.
  destruct (contains_parent_traversal p), (contains_parent_traversal r); simpl;
    try (split; [discriminate|intros (? & ? & _); discriminate]).
  destruct (lexical_components_cases p) as (cs & Hcs & Hp).
  destruct (lexical_components r) as [|c rc] eqn:Hr.
  - rewrite bool_decide_eq_true. destruct Hp as [[-> ->]|[-> ->]]; [naive_solver|].
    destruct Hcs as [|[] ?]; naive_solver.
  - rewrite is_within_loop_true. naive_solver.
Qed.

Lemma windows_length {A} n (l w : list A) : w ∈ windows n l -> length w = n.
Proof.
  induction l as [|x l IH]; [by intros ?%not_elem_of_nil|]. cbn [windows].
  case_match eqn:E; [by intros ?%not_elem_of_nil|].
  intros [->|Hw]%elem_of_cons; [|by apply IH].
  apply Nat.ltb_ge in E. rewrite length_take. lia.
Qed.

Lemma windows_elem {A} n (l w : list A) :
  n <> 0 -> w ∈ windows n l <-> length w = n /\ exists l1 l2, l = l1 ++ w ++ l2.
Proof.
  intros Hn. induction l as [|x l IH].
  - split; [by intros ?%not_elem_of_nil|].
    intros (Hl & l1 & l2 & Heq). destruct l1, w; simpl in *; try done; lia.
  - cbn [windows]. case_match eqn:E.
    + apply Nat.ltb_lt in E. split; [by intros ?%not_elem_of_nil|].
      intros (Hl & l1 & l2 & Heq). apply (f_equal length) in Heq. rewrite !length_app in Heq. lia.
    + apply Nat.ltb_ge in E. rewrite elem_of_cons, IH. split.
      * intros [->|(Hl & l1 & l2 & ->)]; split; try done.
        -- rewrite length_take. lia.
        -- exists [], (drop n (x :: l)). by rewrite app_nil_l, take_drop.
        -- by exists (x :: l1), l2.
      * intros (Hl & [|y l1] & l2 & Heq).
        -- left. rewrite app_nil_l in Heq. rewrite Heq, <- Hl. by rewrite take_app_length.
        -- injection Heq as -> ->. eauto.
Qed.

Lemma zip_all_equal_true l r : length l = length r -> zip_all_equal l r = true <-> l = r.
Proof.
  revert r; induction l as [|c l IH]; intros [|d r] Hl; simpl in *; try done.
  rewrite andb_true_iff, components_equal_true, IH by lia. naive_solver.
Qed.

Lemma contains_component_path_true p n :
  contains_component_path p n = true <->
  lexical_components n <> [] /\
  exists l1 l2, lexical_components p = l1 ++ lexical_components n ++ l2.
Proof.
  unfold contains_component_path.
  case_bool_decide as Hn; simpl; [naive_solver|].
  assert (length (lexical_components n) <> 0) as Hz by by destruct (lexical_components n).
  case_match eqn:E.
  - apply Nat.ltb_lt in E. split; [done|]. intros (_ & l1 & l2 & Heq).
    apply (f_equal length) in Heq. rewrite !length_app in Heq. lia.
  - rewrite existsb_elem. split.
    + intros (w & Hw & Hz'). pose proof (windows_length _ _ _ Hw) as Hl.
      apply windows_elem in Hw as (_ & l1 & l2 & Heq); [|done].
      apply zip_all_equal_true in Hz' as ->; eauto.
    + intros (_ & l1 & l2 & Heq). exists (lexical_components n). split.
      * apply windows_elem; eauto.
      * by apply zip_all_equal_true.
Qed.

End comparison.

#[export] Hint Rewrite lexical_components_normalize : cage.

(** * Properties *)

(** [normalize_lexical_path] drops exactly the current-directory components:
    the printed result parses back to the other components in order, so it is
    idempotent, keeps absoluteness, and names the same path. *)
Theorem normalize_lexical_path_spec (p : path) :
  components (normalize_lexical_path p) = lexical_components p /\
  normalize_lexical_path (normalize_lexical_path p) = normalize_lexical_path p /\
  is_absolute (normalize_lexical_path p) = is_absolute p /\
  paths_equal (normalize_lexical_path p) p = true.
Proof.
  split_and!.
  - apply components_normalize.
  - rewrite !normalize_lexical_path_eq. f_equal.
    rewrite <- normalize_lexical_path_eq. apply lexical_components_normalize.
  - apply eq_true_iff_eq. by rewrite !is_absolute_lexical, lexical_components_normalize.
  - apply paths_equal_true, lexical_components_normalize.
Qed.

(** The allocation-free comparison loop of [paths_equal] decides equality of
    [NativePathKey]s, the identity used for maps and sets. *)
Theorem paths_equal_native_key (p q : path) :
  paths_equal p q = bool_decide (NativePathKey_new p = NativePathKey_new q).
Proof.
  apply eq_true_iff_eq. rewrite paths_equal_true, bool_decide_eq_true, !NativePathKey_new_eq.
  split; [by intros ->|]. apply (inj (fmap component_key)).
Qed.

(** On paths without parent traversal [is_within] is a partial order up to
    [paths_equal]: reflexive, transitive and antisymmetric; a path with a parent
    component is within nothing and holds nothing. *)
Theorem is_within_partial_order (p q r : path) :
  is_within p p = negb (contains_parent_traversal p) /\
  (is_within p q = true /\ is_within q r = true -> is_within p r = true) /\
  (is_within p q = true /\ is_within q p = true -> paths_equal p q = true) /\
  (contains_parent_traversal p = true \/ contains_parent_traversal q = true ->
   is_within p q = false).
Proof.
  split_and!.
  - apply eq_true_iff_eq. rewrite is_within_true, negb_true_iff. split; [naive_solver|].
    intros H. split_and!; [done|done|exists []; by rewrite app_nil_r|].
    intros Hp. destruct (lexical_components_cases p) as (cs & _ & [[Hc _]|[_ ?]]); [|done]. congruence.
  - rewrite !is_within_true. intros [(Hp & Hq & (u & Hu) & He) (_ & Hr & (v & Hv) & Hf)].
    split_and!; [done..| |].
    + exists (v ++ u). by rewrite Hu, Hv, app_assoc.
    + intros Hn. rewrite Hn in Hv. specialize (Hf Hn).
      destruct (lexical_components_cases q) as (cs & Hcs & [[_ ?]|[Hc _]]); [congruence|].
      destruct cs as [|c cs]; [by apply He|].
      destruct (lexical_components_cases p) as (cs' & _ & [[Hc' _]|[_ ?]]); [|done].
      rewrite Hc', Hc in Hu. injection Hu as <- ->. inversion Hcs; subst. done.
  - rewrite !is_within_true, paths_equal_true. intros [(_ & _ & (u & Hu) & _) (_ & _ & (v & Hv) & _)].
    rewrite Hu in Hv. rewrite <- app_assoc in Hv.
    apply (f_equal length) in Hv as Hl. rewrite !length_app in Hl.
    destruct u; [by rewrite app_nil_r in Hu|simpl in Hl; lia].
  - unfold is_within. intros [-> | ->]; [done|]. by rewrite orb_true_r.
Qed.

(** A relative path that does not climb, joined below a root that does not
    climb either, stays within the root. *)
Theorem join_is_within (root rel : path) :
  is_absolute rel = false ->
  contains_parent_traversal root = false ->
  contains_parent_traversal rel = false ->
  lexical_components root <> [] ->
  is_within (path_join root rel) root = true.
Proof.
  intros Ha Hr Hl Hne. apply is_within_true.
  rewrite !contains_parent_traversal_lexical in *. rewrite lexical_components_join by done.
  split_and!; [|done|eauto|done].
  by rewrite existsb_app, Hr, Hl.
Qed.

Lemma join_is_within_witness :
  is_within (path_join "/work/project/" "src/./main.rs") "/work/project/" = true.
Proof. apply (join_is_within "/work/project/" "src/./main.rs"); vm_compute; congruence. Defined.

(** [contains_component_path] holds exactly when the needle is non-empty and
    its components occur contiguously in the path. *)
Theorem contains_component_path_spec (p needle : path) :
  contains_component_path p needle = true <->
  lexical_components needle <> [] /\
  exists l1 l2, lexical_components p = l1 ++ lexical_components needle ++ l2.
Proof. apply contains_component_path_true. Qed.

(** [resolve_lexical_path] rejects an empty, NUL-carrying or climbing
    declaration and otherwise returns a path without current-directory
    components whose components are the declaration's, below the base when the
    declaration is relative. *)
Theorem resolve_lexical_path_spec (base declaration : path) :
  match resolve_lexical_path base declaration with
  | Ok r =>
      declaration <> "" /\ contains_char NUL declaration = false /\
      contains_parent_traversal declaration = false /\
      components r = if is_absolute declaration then lexical_components declaration
                     else lexical_components base ++ lexical_components declaration
  | Err Empty => declaration = ""
  | Err ContainsNul => declaration <> "" /\ contains_char NUL declaration = true
  | Err ParentTraversal =>
      contains_char NUL declaration = false /\ ParentDir ∈ components declaration
  end.
Proof.
  unfold resolve_lexical_path. case_bool_decide as He; [done|].
  destruct (contains_char NUL declaration); [done|].
  destruct (contains_parent_traversal declaration) eqn:Hp.
  - split; [done|]. apply existsb_elem in Hp as (c & Hc & ->%bool_decide_eq_true). done.
  - split_and!; [done..|]. rewrite components_normalize.
    destruct (is_absolute declaration) eqn:Ha; [done|]. by apply lexical_components_join.
Qed.
