(* ===== verification/PlatformPath.v ===== *)
(** The dialect-explicit part of [cageforge-path]: lexical path keys that do not
    depend on the host, used by portable configuration. *)

From Stdlib Require Import Ascii String Lia.
From stdpp Require Import base list strings option sets.
From S2P Require Import Prelude Text NativePath.

Section platform_path.
Context {U : Unicode}.

Inductive PathDialect := Posix | Windows.

#[global] Instance PathDialect_eq_dec : EqDecision PathDialect.
Proof. solve_decision. Defined.

Inductive PlatformComponentKey :=
  | PPrefix (value : string)
  | PRoot
  | PParent
  | PNormal (value : string).

#[global] Instance PlatformComponentKey_eq_dec : EqDecision PlatformComponentKey.
Proof. solve_decision. Defined.

Record PlatformPathKey := {
  ppk_dialect : PathDialect;
  ppk_components : list PlatformComponentKey
}.

#[global] Instance PlatformPathKey_eq_dec : EqDecision PlatformPathKey.
Proof. solve_decision. Defined.

Definition BACKSLASH : ascii := "\".

Definition is_separator (dialect : PathDialect) (character : ascii) : bool :=
  match dialect with
  | Posix => Ascii.eqb "/" character
  | Windows => Ascii.eqb "/" character || Ascii.eqb BACKSLASH character
  end.

(** [[a, ':', ..]] with an ASCII letter [a] *)
Definition has_drive (value : string) : bool :=
  match value with
  | String a (String b _) => is_ascii_alphabetic a && Ascii.eqb b ":"
  | _ => false
  end.

Definition is_absolute_text (value : string) (dialect : PathDialect) : bool :=
  match dialect with
  | Posix => starts_with_char "/" value
  | Windows =>
      starts_with "\\" value || starts_with "//" value
      || ((3 <=? String.length value)%nat && has_drive value
          && match String.get 2 value with
             | Some c => Ascii.eqb c "/" || Ascii.eqb c BACKSLASH
             | None => false
             end)
  end.

(** The scan of [contains_parent_traversal_text]; the end of the text stands for
    the separator the source chains after the last character. *)
Fixpoint traversal_scan (sep : ascii -> bool) (component value : string) : bool :=
  match value with
  | EmptyString => bool_decide (component = "..")
  | String character rest =>
      if sep character then
        if bool_decide (component = "..") then true else traversal_scan sep "" rest
      else traversal_scan sep (component +:+ String character "") rest
  end.

Definition contains_parent_traversal_text (value : string) (dialect : PathDialect) : bool :=
  traversal_scan (is_separator dialect) "" value.

Definition lexical_posix_components (value : string) : list PlatformComponentKey :=
  let root := if starts_with_char "/" value then [PRoot] else [] in
  foldl (fun components component =>
           if bool_decide (component = "" \/ component = ".") then components
           else if bool_decide (component = "..") then components ++ [PParent]
           else components ++ [PNormal component])
        root (str_split "/" value).

(** [value.get(..n).is_some_and(|prefix| prefix.eq_ignore_ascii_case(p))] *)
Definition prefix_is (value : string) (n : nat) (p : string) : bool :=
  match get_prefix n value with
  | Some prefix => eq_ignore_ascii_case prefix p
  | None => false
  end.

(** The verbatim and device prefixes of [lexical_windows_components] *)
Definition strip_device_prefix (value : string) : string :=
  if prefix_is value 8 "//?/unc/" || prefix_is value 8 "//./unc/" then "//" +:+ str_drop 8 value
  else if prefix_is value 4 "//?/" || prefix_is value 4 "//./" then str_drop 4 value
  else value.

Definition is_drive (piece : string) : bool := (String.length piece =? 2)%nat && has_drive piece.

Definition is_prefix_key (c : PlatformComponentKey) : bool :=
  match c with PPrefix _ => true | _ => false end.

(** One turn of the last loop of [lexical_windows_components] *)
Definition windows_push (components : list PlatformComponentKey) (component : string) :
  list PlatformComponentKey :=
  if bool_decide (component = "" \/ component = ".") then components
  else if is_drive component && existsb is_prefix_key components then components
  else if bool_decide (component = "..") then components ++ [PParent]
  else components ++ [PNormal (str_to_lowercase component)].

Definition lexical_windows_components (value : string) : list PlatformComponentKey :=
  let value := strip_device_prefix (replace_char BACKSLASH "/" value) in
  match str_split "/" value with
  | first :: parts =>
      if is_drive first then
        foldl windows_push
          (PPrefix (to_ascii_lowercase first)
           :: (if bool_decide (String.get 2 value = Some SEP) then [PRoot] else [])) parts
      else
        foldl windows_push
          (if starts_with "//" value then [PRoot; PPrefix "unc"] else []) (first :: parts)
  | [] => []
  end.

Definition lexical_text_components (value : string) (dialect : PathDialect) :
  list PlatformComponentKey :=
  match dialect with
  | Posix => lexical_posix_components value
  | Windows => lexical_windows_components value
  end.

Definition PlatformPathKey_new (value : string) (dialect : PathDialect) : PlatformPathKey :=
  {| ppk_dialect := dialect; ppk_components := lexical_text_components value dialect |}.

(** * The traversal scan finds the [..] pieces *)

Lemma traversal_scan_split sep component value :
  str_any sep component = false ->
  traversal_scan sep component value
  = existsb (fun p => bool_decide (p = "..")) (str_split_by sep (component +:+ value)).
Proof.
  revert component. induction value as [|a value IH]; intros component Hc; cbn [traversal_scan].
  - rewrite string_app_empty_r, str_split_no_sep by done. simpl. by rewrite orb_false_r.
  - destruct (sep a) eqn:Ha.
    + rewrite str_split_by_app by done. cbn [existsb].
      rewrite IH by done. by destruct (bool_decide (component = "..")).
    + rewrite IH.
      * by rewrite <- string_app_assoc.
      * by rewrite str_any_app, Hc; simpl; rewrite Ha.
Qed.

Lemma contains_parent_traversal_text_split value dialect :
  contains_parent_traversal_text value dialect = true <->
  ".." ∈ str_split_by (is_separator dialect) value.
Proof.
  unfold contains_parent_traversal_text. rewrite traversal_scan_split by done.
  change ("" +:+ value) with value. rewrite existsb_elem. split.
  - by intros (p & Hp & ->%bool_decide_eq_true).
  - intros H. exists "..". by rewrite bool_decide_eq_true.
Qed.

(** * POSIX keys *)

Definition posix_key (c : Component) : list PlatformComponentKey :=
  match c with
  | RootDir => [PRoot]
  | ParentDir => [PParent]
  | Normal s => [PNormal s]
  | _ => []
  end.

Lemma lexical_posix_components_eq value :
  lexical_posix_components value = mjoin (posix_key <$> lexical_components value).
Proof.
  rewrite lexical_components_parts. unfold lexical_posix_components, root_part, body_part, is_absolute.
  change (str_split SEP value) with (str_split "/" value).
  rewrite fmap_app, join_app.
  assert (mjoin (posix_key <$> (if starts_with_char SEP value then [RootDir] else []))
          = if starts_with_char "/" value then [PRoot] else []) as ->.
  { change SEP with "/"%char. by destruct (starts_with_char "/" value). }
  generalize (if starts_with_char "/" value then [PRoot] else []) as acc.
  induction (str_split "/" value) as [|p pieces IH]; intros acc; [by rewrite app_nil_r|].
  simpl foldl. rewrite IH.
  change (piece_component <$> p :: pieces) with (piece_component p :: (piece_component <$> pieces)).
  change (mjoin (piece_component p :: ?l)) with (piece_component p ++ mjoin l).
  rewrite fmap_app, join_app. unfold piece_component at 2.
  repeat case_bool_decide; simpl; by rewrite <- ?app_assoc.
Qed.

(** * Windows keys *)

Lemma ascii_lower_slash a : Ascii.eqb "/" (ascii_lower a) = Ascii.eqb "/" a.
Proof. by destruct a as [[] [] [] [] [] [] [] []]; vm_compute. Qed.

Lemma str_split_lowercase s :
  str_split "/" (to_ascii_lowercase s) = to_ascii_lowercase <$> str_split "/" s.
Proof.
  unfold str_split. induction s as [|a s IH]; [done|]. cbn [str_split_by to_ascii_lowercase str_map].
  rewrite ascii_lower_slash. fold (to_ascii_lowercase s). rewrite IH.
  destruct (Ascii.eqb "/" a); [done|].
  by destruct (str_split_by_cons (Ascii.eqb "/") s) as (p & ps & ->).
Qed.

Lemma str_split_replace value :
  str_split "/" (replace_char BACKSLASH "/" value) = str_split_by (is_separator Windows) value.
Proof.
  unfold str_split. induction value as [|a value IH]; [done|].
  unfold replace_char in *. cbn [str_map str_split_by]. rewrite IH. unfold is_separator.
  rewrite (Ascii.eqb_sym a).
  destruct (Ascii.eqb BACKSLASH a); [by rewrite orb_true_r|]. by rewrite orb_false_r.
Qed.

Lemma get_prefix_Some n s p : get_prefix n s = Some p -> s = p +:+ str_drop n s.
Proof.
  unfold get_prefix. repeat case_match; intros; simplify_eq; simpl;
    by rewrite <- (str_take_drop n s) at 1; f_equal.
Qed.

Lemma str_map_app_inv f s t1 t2 :
  str_map f s = t1 +:+ t2 -> exists s1 s2, s = s1 +:+ s2 /\ str_map f s1 = t1 /\ str_map f s2 = t2.
Proof.
  revert s; induction t1 as [|a t1 IH]; intros s H; [by exists "", s|].
  destruct s as [|b s]; [done|]. injection H as Ha H.
  apply IH in H as (s1 & s2 & -> & H1 & H2). exists (String b s1), s2. cbn. by rewrite Ha, H1.
Qed.

(** A prefix that spells [t] and a separator, whatever its case, contributes
    the pieces of [t] and nothing else. *)
Lemma parent_after_prefix n value t :
  prefix_is value n (t +:+ "/") = true -> to_ascii_lowercase t = t ->
  existsb (String.eqb "..") (str_split "/" t) = false ->
  ".." ∈ str_split "/" value <-> ".." ∈ str_split "/" (str_drop n value).
Proof.
  unfold prefix_is. destruct (get_prefix n value) as [p|] eqn:Hp; [|done]. intros He Ht Hn.
  apply get_prefix_Some in Hp. rewrite Hp at 1. clear Hp.
  generalize (str_drop n value) as rest. intros rest.
  apply bool_decide_eq_true in He. unfold to_ascii_lowercase in He, Ht.
  assert (str_map ascii_lower (t +:+ "/") = t +:+ "/") as Ht'.
  { rewrite <- Ht at 2. clear. induction t as [|a t IH]; [done|]. exact (f_equal (String _) IH). }
  rewrite Ht' in He. apply str_map_app_inv in He as (p1 & p2 & -> & H1 & H2).
  assert (p2 = "/") as ->.
  { destruct p2 as [|a [|? ?]]; simplify_eq/=. f_equal.
    assert (Ascii.eqb "/" a = true) as He by by rewrite <- ascii_lower_slash, H2.
    by apply Ascii.eqb_eq in He. }
  rewrite <- string_app_assoc. change ("/" +:+ rest) with (String "/" rest).
  rewrite str_split_app_sep, elem_of_app. split; [|by right]. intros [H|H]; [exfalso|done].
  assert (existsb (String.eqb "..") (str_split "/" t) = true); [|congruence].
  apply existsb_elem. exists "..". split; [|done].
  rewrite <- H1. fold to_ascii_lowercase. rewrite str_split_lowercase.
  apply list_elem_of_fmap. by exists "..".
Qed.

Lemma strip_device_prefix_parent value :
  ".." ∈ str_split "/" (strip_device_prefix value) <-> ".." ∈ str_split "/" value.
Proof.
  unfold strip_device_prefix.
  assert (forall rest, ".." ∈ str_split "/" ("//" +:+ rest) <-> ".." ∈ str_split "/" rest) as Hss.
  { intros rest. change (str_split "/" ("//" +:+ rest)) with ("" :: "" :: str_split "/" rest).
    rewrite !elem_of_cons. naive_solver. }
  destruct (prefix_is value 8 "//?/unc/") eqn:E1; [|
    destruct (prefix_is value 8 "//./unc/") eqn:E2; [|
      destruct (prefix_is value 4 "//?/") eqn:E3; [|
        destruct (prefix_is value 4 "//./") eqn:E4; [|done]]]]; simpl orb; cbv iota;
    rewrite ?Hss; symmetry.
  - by apply (parent_after_prefix 8 value "//?/unc").
  - by apply (parent_after_prefix 8 value "//./unc").
  - by apply (parent_after_prefix 4 value "//?").
  - by apply (parent_after_prefix 4 value "//.").
Qed.

Lemma windows_push_parent acc pieces :
  PParent ∈ foldl windows_push acc pieces <-> PParent ∈ acc \/ ".." ∈ pieces.
Proof.
  revert acc; induction pieces as [|p pieces IH]; intros acc; simpl foldl.
  { rewrite elem_of_nil. naive_solver. }
  rewrite IH, elem_of_cons. unfold windows_push.
  case_bool_decide as H1; [naive_solver|].
  destruct (is_drive p) eqn:Hd; simpl.
  - assert (".." <> p) by by intros <-.
    destruct (existsb is_prefix_key acc); [naive_solver|].
    rewrite bool_decide_eq_false_2 by done. set_solver.
  - case_bool_decide as H2; set_solver.
Qed.

Lemma lexical_windows_components_parent value :
  PParent ∈ lexical_windows_components value <-> ".." ∈ str_split_by (is_separator Windows) value.
Proof.
  rewrite <- str_split_replace, <- strip_device_prefix_parent.
  unfold lexical_windows_components.
  generalize (strip_device_prefix (replace_char BACKSLASH "/" value)) as v. intros v.
  destruct (str_split "/" v) as [|first parts]; [by rewrite !elem_of_nil|].
  destruct (is_drive first) eqn:Hd; rewrite windows_push_parent.
  - assert (".." <> first) by by intros <-.
    rewrite !elem_of_cons. case_bool_decide; set_solver.
  - destruct (starts_with "//" v); set_solver.
Qed.

Lemma replace_char_back value :
  replace_char BACKSLASH "/" (replace_char "/" BACKSLASH value) = replace_char BACKSLASH "/" value.
Proof.
  unfold replace_char. rewrite str_map_map. induction value as [|a value IH]; [done|].
  cbn [str_map]. rewrite IH. f_equal. by destruct a as [[] [] [] [] [] [] [] []].
Qed.

Lemma prefix_is_take value n p :
  prefix_is value n p = true -> to_ascii_lowercase (str_take n value) = to_ascii_lowercase p.
Proof.
  unfold prefix_is, get_prefix. repeat case_match; intros Hp; simplify_eq;
    by apply bool_decide_eq_true in Hp.
Qed.

Lemma alphabetic_lower a :
  is_ascii_alphabetic a = true ->
  ascii_lower a <> "/"%char /\ is_cont a = false /\ Ascii.eqb a BACKSLASH = false.
Proof. by destruct a as [[] [] [] [] [] [] [] []]; vm_compute. Qed.

(** A drive path has no device prefix, and one put before it is stripped. *)
Lemma strip_device_prefix_drive a rest :
  is_ascii_alphabetic a = true ->
  let v := String a (String ":" rest) in
  strip_device_prefix v = v /\ strip_device_prefix ("//?/" +:+ v) = v /\
  strip_device_prefix ("//./" +:+ v) = v.
Proof.
  intros Ha v. pose proof (alphabetic_lower a Ha) as (Hl & Hc & _).
  assert (forall n p, prefix_is v (S n) (String "/" p) = false) as Hv.
  { intros n p. apply not_true_iff_false. intros H%prefix_is_take. by injection H. }
  assert (forall w p, String.length w = 4 -> prefix_is (w +:+ v) 8 (p +:+ "unc/") = true ->
    String.length p = 4 -> False) as Hu.
  { intros w p Hw H%prefix_is_take Hp.
    destruct w as [|? [|? [|? [|? []]]]]; try done.
    destruct p as [|? [|? [|? [|? []]]]]; done. }
  assert (forall w, String.length w = 4 -> prefix_is (w +:+ v) 4 w = true) as H4.
  { intros w Hw. destruct w as [|? [|? [|? [|? []]]]]; try done.
    unfold prefix_is, get_prefix. simpl. rewrite Hc. by apply bool_decide_eq_true. }
  unfold strip_device_prefix. rewrite !Hv. split; [done|].
  split.
  - destruct (_ || _) eqn:E at 1; [|by rewrite (H4 "//?/")].
    exfalso. apply orb_true_iff in E as [E|E];
      [by apply (Hu "//?/" "//?/")|by apply (Hu "//?/" "//./")].
  - destruct (_ || _) eqn:E at 1; [|by rewrite (H4 "//./"), orb_true_r].
    exfalso. apply orb_true_iff in E as [E|E];
      [by apply (Hu "//./" "//?/")|by apply (Hu "//./" "//./")].
Qed.

(** * Properties *)

(** The streaming scan of [contains_parent_traversal_text] answers yes exactly
    when the path key of the same text and dialect has a parent component,
    whatever verbatim, device or drive prefix the text has. *)
Theorem parent_traversal_text_key (value : string) (dialect : PathDialect) :
  contains_parent_traversal_text value dialect = true <->
  PParent ∈ ppk_components (PlatformPathKey_new value dialect).
Proof.
  rewrite contains_parent_traversal_text_split. destruct dialect; simpl.
  - rewrite lexical_posix_components_eq, lexical_components_parts, fmap_app, join_app, elem_of_app.
    change (str_split_by (is_separator Posix) value) with (str_split SEP value).
    unfold body_part. split.
    + intros H. right. apply list_elem_of_join. exists [PParent]. split; [set_solver|].
      apply list_elem_of_fmap. exists ParentDir. split; [done|].
      apply list_elem_of_join. exists [ParentDir]. split; [set_solver|].
      apply list_elem_of_fmap. by exists "..".
    + intros [H|H]; [unfold root_part in H; destruct (is_absolute value); set_solver|].
      apply list_elem_of_join in H as (? & Hk & (c & -> & H)%list_elem_of_fmap).
      apply list_elem_of_join in H as (? & Hc & (p & -> & H)%list_elem_of_fmap).
      unfold piece_component in Hc.
      case_bool_decide; [by apply not_elem_of_nil in Hc|]. case_bool_decide; [by subst|].
      apply list_elem_of_singleton in Hc as ->. by apply list_elem_of_singleton in Hk.
  - by rewrite lexical_windows_components_parent.
Qed.

(** On a POSIX host the portable key of the POSIX dialect and the native
    comparison agree on which spellings name one path. *)
Theorem posix_key_native (p q : path) :
  PlatformPathKey_new p Posix = PlatformPathKey_new q Posix <-> paths_equal p q = true.
Proof.
  rewrite paths_equal_true. unfold PlatformPathKey_new. simpl.
  rewrite !lexical_posix_components_eq. split; [|by intros ->].
  intros [= H]. revert H.
  destruct (lexical_components_shape p) as (cp & Hp & Hcp).
  destruct (lexical_components_shape q) as (cq & Hq & Hcq).
  assert (forall l m, Forall tail_component l -> Forall tail_component m ->
    mjoin (posix_key <$> l) = mjoin (posix_key <$> m) -> l = m) as Hinj.
  { clear. induction l as [|c l IH]; intros m Hl Hm Heq.
    - inversion Hm as [|d ? Hd]; subst; [done|]. by destruct d.
    - inversion Hl as [|?? Hc]; subst. inversion Hm as [|d m' Hd Hm']; subst; [by destruct c|].
      destruct c, d; try done; simpl in Heq; simplify_eq; f_equal; by apply IH. }
  destruct Hp as [-> | ->], Hq as [-> | ->]; intros H.
  - f_equal. apply Hinj; [done..|]. by injection H.
  - exfalso. destruct Hcq as [|[] ? Hc _]; simpl in *; try done.
  - exfalso. destruct Hcp as [|[] ? Hc _]; simpl in *; try done.
  - by apply Hinj.
Qed.

(** Windows keys identify the two separators, and a verbatim or device
    spelling of a drive path with the drive path itself. *)
Theorem windows_key_aliases (value rest : string) (a : ascii) :
  is_ascii_alphabetic a = true ->
  let drive_path := String a (String ":" rest) in
  PlatformPathKey_new (replace_char "/" BACKSLASH value) Windows = PlatformPathKey_new value Windows /\
  PlatformPathKey_new ("\\?\" +:+ drive_path) Windows = PlatformPathKey_new drive_path Windows /\
  PlatformPathKey_new ("//./" +:+ drive_path) Windows = PlatformPathKey_new drive_path Windows.
Proof.
  intros Ha drive_path. unfold PlatformPathKey_new. simpl lexical_text_components.
  unfold lexical_windows_components.
  pose proof (alphabetic_lower a Ha) as (_ & _ & Hb).
  pose proof (strip_device_prefix_drive a (replace_char BACKSLASH "/" rest) Ha) as (H0 & H1 & H2).
  assert (replace_char BACKSLASH "/" drive_path
          = String a (String ":" (replace_char BACKSLASH "/" rest))) as Hd.
  { unfold replace_char, drive_path. cbn [str_map]. by rewrite Hb. }
  split_and!; do 2 f_equal.
  - by rewrite replace_char_back.
  - change (replace_char BACKSLASH "/" ("\\?\" +:+ drive_path))
      with ("//?/" +:+ replace_char BACKSLASH "/" drive_path).
    by rewrite Hd, H0, H1.
  - change (replace_char BACKSLASH "/" ("//./" +:+ drive_path))
      with ("//./" +:+ replace_char BACKSLASH "/" drive_path).
    by rewrite Hd, H0, H2.
Qed.

End platform_path.

Lemma windows_key_aliases_witness :
  @PlatformPathKey_new ascii_unicode "\\?\C:\Users" Windows
  = @PlatformPathKey_new ascii_unicode "C:/Users" Windows /\
  ppk_components (@PlatformPathKey_new ascii_unicode "C:\Users" Windows)
  = [PPrefix "c:"; PRoot; PNormal "users"].
Proof.
  split; [|vm_compute; reflexivity].
  destruct (@windows_key_aliases ascii_unicode "C:/Users" "/Users" "C" eq_refl) as (_ & H & _).
  exact H.
Defined.
