(* ===== verification/IpAddr.v ===== *)
(** IP addresses: the types, parser and classification predicates of [std::net]
    the network policy uses, and the policy's own table of addresses that are
    not public ([is_non_public_ip] in [cageforge-policy/src/network.rs]). *)

From Stdlib Require Import Ascii String NArith Lia.
From stdpp Require Import base list strings option numbers.
From S2P Require Import Prelude Text.

#[local] Open Scope N_scope.

(** * [std::net] *)

(** Four octets *)
Inductive Ipv4Addr := ipv4 (a b c d : N).

(** Eight 16-bit segments *)
Inductive Ipv6Addr := ipv6 (s0 s1 s2 s3 s4 s5 s6 s7 : N).

Inductive IpAddr := V4 (address : Ipv4Addr) | V6 (address : Ipv6Addr).

#[global] Instance Ipv4Addr_eq_dec : EqDecision Ipv4Addr.
Proof. solve_decision. Defined.
#[global] Instance Ipv6Addr_eq_dec : EqDecision Ipv6Addr.
Proof. solve_decision. Defined.
#[global] Instance IpAddr_eq_dec : EqDecision IpAddr.
Proof. solve_decision. Defined.

(** [SocketAddr]; flow and scope are those of [SocketAddrV6]. *)
Inductive SocketAddr :=
  | SocketV4 (ip : Ipv4Addr) (port : N)
  | SocketV6 (ip : Ipv6Addr) (port flowinfo scope_id : N).

#[global] Instance SocketAddr_eq_dec : EqDecision SocketAddr.
Proof. solve_decision. Defined.

Definition socket_ip (s : SocketAddr) : IpAddr :=
  match s with
  | SocketV4 ip _ => V4 ip
  | SocketV6 ip _ _ _ => V6 ip
  end.

(** ** Parsing *)

(** A parser reads a value off the front of the text or fails without moving. *)
Definition parser (A : Type) : Type := string -> option (A * string).

Definition to_digit (radix : N) (a : ascii) : option N :=
  let v := byte_val a in
  let d := if in_range 48 57 v then Some (v - 48)
           else if in_range 97 122 v then Some (v - 87)
           else if in_range 65 90 v then Some (v - 55)
           else None in
  match d with
  | Some n => if n <? radix then Some n else None
  | None => None
  end.

(** The digit loop of [Parser::read_number]: at most [max] digits. *)
Fixpoint read_digits (radix : N) (max count : nat) (acc : N) (s : string) :
  option (N * nat * string) :=
  match s with
  | EmptyString => Some (acc, count, s)
  | String a s' =>
      match to_digit radix a with
      | Some d =>
          if (max <? S count)%nat then None
          else read_digits radix max (S count) (acc * radix + d) s'
      | None => Some (acc, count, s)
      end
  end.

Definition read_number (radix : N) (max : nat) (allow_zero_prefix : bool) (limit : N) : parser N :=
  fun s =>
    match read_digits radix max 0 0 s with
    | Some (n, count, rest) =>
        if (count =? 0)%nat then None
        else if negb allow_zero_prefix && starts_with_char "0" s && (1 <? count)%nat then None
        else if n <? limit then Some (n, rest) else None
    | None => None
    end.

Definition read_given_char (c : ascii) : parser unit :=
  fun s => match s with
           | String a s' => if Ascii.eqb a c then Some (tt, s') else None
           | EmptyString => None
           end.

(** [Parser::read_separator]: the separator comes before every item but the first. *)
Definition read_separator {A} (sep : ascii) (first : bool) (inner : parser A) : parser A :=
  fun s => if first then inner s
           else match read_given_char sep s with
                | Some (_, s') => inner s'
                | None => None
                end.

Definition read_octet : parser N := read_number 10 3 false 256.

Definition read_ipv4_addr : parser Ipv4Addr :=
  fun s =>
    '(a, s) ← read_separator "." true read_octet s;
    '(b, s) ← read_separator "." false read_octet s;
    '(c, s) ← read_separator "." false read_octet s;
    '(d, s) ← read_separator "." false read_octet s;
    Some (ipv4 a b c d, s).

(** The helper [read_groups]: up to [left] groups, the last two of which may be
    written as an IPv4 address; returns whether they were. *)
Fixpoint read_groups (left : nat) (first : bool) (s : string) : list N * bool * string :=
  match left with
  | O => ([], false, s)
  | S left' =>
      match (if (2 <=? left)%nat then read_separator ":" first read_ipv4_addr s else None) with
      | Some (ipv4 a b c d, rest) => ([a * 256 + b; c * 256 + d], true, rest)
      | None =>
          match read_separator ":" first (read_number 16 4 true 65536) s with
          | Some (g, rest) =>
              let '(gs, v4, rest') := read_groups left' false rest in (g :: gs, v4, rest')
          | None => ([], false, s)
          end
      end
  end.

Definition segments_of (l : list N) : option Ipv6Addr :=
  match l with
  | [s0; s1; s2; s3; s4; s5; s6; s7] => Some (ipv6 s0 s1 s2 s3 s4 s5 s6 s7)
  | _ => None
  end.

Definition read_ipv6_addr : parser Ipv6Addr :=
  fun s =>
    let '(head, head_ipv4, s1) := read_groups 8 true s in
    if (length head =? 8)%nat then (fun a => (a, s1)) <$> segments_of head
    else if head_ipv4 then None
    else
      '(_, s2) ← read_given_char ":" s1;
      '(_, s3) ← read_given_char ":" s2;
      let '(tail, _, s4) := read_groups (8 - (length head + 1)) true s3 in
      (fun a => (a, s4))
        <$> segments_of (head ++ replicate (8 - length head - length tail)%nat 0 ++ tail).

Definition read_ip_addr : parser IpAddr :=
  fun s => match read_ipv4_addr s with
           | Some (a, rest) => Some (V4 a, rest)
           | None => (fun '(a, rest) => (V6 a, rest)) <$> read_ipv6_addr s
           end.

(** [s.parse::<IpAddr>().ok()] *)
Definition parse_ip (s : string) : option IpAddr :=
  match read_ip_addr s with
  | Some (a, EmptyString) => Some a
  | _ => None
  end.

(** ** Predicates *)

(** [u32::from(Ipv4Addr)] *)
Definition ipv4_bits (x : Ipv4Addr) : N :=
  let 'ipv4 a b c d := x in a * 2^24 + b * 2^16 + c * 2^8 + d.

Definition ipv4_is_loopback (x : Ipv4Addr) : bool := let 'ipv4 a _ _ _ := x in a =? 127.
Definition ipv4_is_private (x : Ipv4Addr) : bool :=
  let 'ipv4 a b _ _ := x in
  (a =? 10) || ((a =? 172) && in_range 16 31 b) || ((a =? 192) && (b =? 168)).
Definition ipv4_is_link_local (x : Ipv4Addr) : bool :=
  let 'ipv4 a b _ _ := x in (a =? 169) && (b =? 254).
Definition ipv4_is_unspecified (x : Ipv4Addr) : bool := ipv4_bits x =? 0.
Definition ipv4_is_multicast (x : Ipv4Addr) : bool := let 'ipv4 a _ _ _ := x in in_range 224 239 a.
Definition ipv4_is_broadcast (x : Ipv4Addr) : bool := ipv4_bits x =? 0xffffffff.

Definition ipv6_is_loopback (x : Ipv6Addr) : bool := bool_decide (x = ipv6 0 0 0 0 0 0 0 1).
Definition ipv6_is_unspecified (x : Ipv6Addr) : bool := bool_decide (x = ipv6 0 0 0 0 0 0 0 0).
Definition ipv6_is_multicast (x : Ipv6Addr) : bool :=
  let 'ipv6 s0 _ _ _ _ _ _ _ := x in N.land s0 0xff00 =? 0xff00.
Definition ipv6_is_unique_local (x : Ipv6Addr) : bool :=
  let 'ipv6 s0 _ _ _ _ _ _ _ := x in N.land s0 0xfe00 =? 0xfc00.
Definition ipv6_is_unicast_link_local (x : Ipv6Addr) : bool :=
  let 'ipv6 s0 _ _ _ _ _ _ _ := x in N.land s0 0xffc0 =? 0xfe80.

(** Two segments read as an IPv4 address *)
Definition ipv4_of_segments (high low : N) : Ipv4Addr :=
  ipv4 (high / 256) (high mod 256) (low / 256) (low mod 256).

(** [Ipv6Addr::to_ipv4]: IPv4-compatible and IPv4-mapped addresses *)
Definition to_ipv4 (x : Ipv6Addr) : option Ipv4Addr :=
  let 'ipv6 s0 s1 s2 s3 s4 s5 s6 s7 := x in
  if (s0 =? 0) && (s1 =? 0) && (s2 =? 0) && (s3 =? 0) && (s4 =? 0)
     && ((s5 =? 0) || (s5 =? 0xffff))
  then Some (ipv4_of_segments s6 s7) else None.

(** [IpAddr::is_loopback] *)
Definition ip_is_loopback (x : IpAddr) : bool :=
  match x with V4 a => ipv4_is_loopback a | V6 a => ipv6_is_loopback a end.

(** * [cageforge-policy]: addresses that are not public *)

Definition is_non_public_ipv4 (address : Ipv4Addr) : bool :=
  let value := ipv4_bits address in
  ipv4_is_loopback address
  || ipv4_is_private address
  || ipv4_is_link_local address
  || ipv4_is_unspecified address
  || ipv4_is_multicast address
  || ipv4_is_broadcast address
  || (N.land value 0xff000000 =? 0)
  || (N.land value 0xffc00000 =? 0x64400000)
  || ((N.land value 0xffffff00 =? 0xc0000000)
      && negb ((value =? 0xc0000009) || (value =? 0xc000000a)))
  || (N.land value 0xffffff00 =? 0xc0000200)
  || (N.land value 0xffffff00 =? 0xc0586300)
  || (N.land value 0xfffe0000 =? 0xc6120000)
  || (N.land value 0xffffff00 =? 0xc6336400)
  || (N.land value 0xffffff00 =? 0xcb007100)
  || (N.land value 0xf0000000 =? 0xf0000000).

Definition well_known_nat64_ipv4 (segments : Ipv6Addr) : option Ipv4Addr :=
  let 'ipv6 s0 s1 s2 s3 s4 s5 high low := segments in
  if (s0 =? 0x64) && (s1 =? 0xff9b) && (s2 =? 0) && (s3 =? 0) && (s4 =? 0) && (s5 =? 0)
  then Some (ipv4_of_segments high low) else None.

Definition is_non_public_ietf_protocol_assignment (segments : Ipv6Addr) : bool :=
  let 'ipv6 s0 s1 s2 s3 s4 s5 s6 s7 := segments in
  if negb (s0 =? 0x2001) || (0x0200 <=? s1) then false
  else
    negb (((s1 =? 0x0001) && (s2 =? 0) && (s3 =? 0) && (s4 =? 0) && (s5 =? 0) && (s6 =? 0)
           && in_range 1 3 s7)
          || (s1 =? 0x0003)
          || ((s1 =? 0x0004) && (s2 =? 0x0112))
          || in_range 0x0020 0x003f s1).

Definition is_non_public_ipv6 (address : Ipv6Addr) : bool :=
  let 'ipv6 s0 s1 s2 s3 s4 s5 s6 s7 := address in
  ipv6_is_loopback address
  || ipv6_is_unspecified address
  || ipv6_is_multicast address
  || ipv6_is_unique_local address
  || ipv6_is_unicast_link_local address
  || match to_ipv4 address with Some a => is_non_public_ipv4 a | None => false end
  || match well_known_nat64_ipv4 address with Some a => is_non_public_ipv4 a | None => false end
  || ((s0 =? 0x64) && (s1 =? 0xff9b) && (s2 =? 1))
  || ((s0 =? 0x100) && (s1 =? 0) && (s2 =? 0) && (s3 =? 0))
  || ((s0 =? 0x100) && (s1 =? 0) && (s2 =? 0) && (s3 =? 1))
  || is_non_public_ietf_protocol_assignment address
  || (s0 =? 0x2002)
  || ((s0 =? 0x2001) && (s1 =? 0x0db8))
  || ((s0 =? 0x3fff) && in_range 0 0x0fff s1)
  || (s0 =? 0x5f00)
  || (N.land s0 0xffc0 =? 0xfec0).

Definition is_non_public_ip (ip : IpAddr) : bool :=
  match ip with
  | V4 address => is_non_public_ipv4 address
  | V6 address => is_non_public_ipv6 address
  end.

(** Well-formed addresses: octets and segments at their width. *)
Definition ipv4_wf (x : Ipv4Addr) : Prop :=
  let 'ipv4 a b c d := x in a < 256 /\ b < 256 /\ c < 256 /\ d < 256.

(** * Examples *)

Example parse_ip_examples :
  parse_ip "127.0.0.1" = Some (V4 (ipv4 127 0 0 1)) /\
  parse_ip "::1" = Some (V6 (ipv6 0 0 0 0 0 0 0 1)) /\
  parse_ip "::ffff:10.0.0.1" = Some (V6 (ipv6 0 0 0 0 0 0xffff 0x0a00 1)) /\
  parse_ip "2001:db8::8:800:200c:417a" = Some (V6 (ipv6 0x2001 0xdb8 0 0 8 0x800 0x200c 0x417a)) /\
  parse_ip "01.2.3.4" = None /\ parse_ip "1.2.3.256" = None /\ parse_ip "1:2:3" = None /\
  parse_ip "1.2.3.4::" = None /\ parse_ip "" = None.
Proof. vm_compute. tauto. Qed.

(** * Masks are ranges *)

Lemma land_mask v k w :
  v < 2 ^ w -> k <= w -> N.land v (2 ^ w - 2 ^ k) = v / 2 ^ k * 2 ^ k.
Proof.
  intros Hv Hk.
  assert (2 ^ w - 2 ^ k = N.shiftl (N.ones (w - k)) k) as ->.
  { rewrite N.shiftl_mul_pow2, N.ones_equiv, <- N.sub_1_r, N.mul_sub_distr_r, <- N.pow_add_r.
    replace (w - k + k) with w by lia. lia. }
  rewrite <- N.shiftr_div_pow2, <- N.shiftl_mul_pow2.
  apply N.bits_inj. intros n. rewrite N.land_spec.
  destruct (N.lt_ge_cases n k) as [Hn|Hn].
  - rewrite !N.shiftl_spec_low by done. apply andb_false_r.
  - rewrite !N.shiftl_spec_high' by done. rewrite N.shiftr_spec', N.sub_add by done.
    destruct (N.lt_ge_cases n w) as [Hw|Hw].
    + rewrite N.ones_spec_low by lia. apply andb_true_r.
    + rewrite N.ones_spec_high by lia. rewrite andb_false_r. symmetry.
      destruct (N.eq_dec v 0) as [->|Hz]; [apply N.bits_0|].
      apply N.bits_above_log2. apply N.log2_lt_pow2; [lia|].
      eapply N.lt_le_trans; [exact Hv|]. by apply N.pow_le_mono_r.
Qed.

(** A masked comparison is a range test. *)
Lemma mask_range v k base :
  v < 2 ^ 32 -> k <= 32 -> base mod 2 ^ k = 0 ->
  (N.land v (2 ^ 32 - 2 ^ k) =? base) = in_range base (base + 2 ^ k - 1) v.
Proof.
  intros Hv Hk Hb. rewrite land_mask by done.
  assert (2 ^ k <> 0) as Hz by (by apply N.pow_nonzero).
  apply eq_true_iff_eq. unfold in_range. rewrite andb_true_iff, N.eqb_eq, !N.leb_le.
  pose proof (N.div_mod v (2 ^ k) Hz). pose proof (N.mod_lt v (2 ^ k) Hz).
  pose proof (N.div_mod base (2 ^ k) Hz).
  generalize dependent (2 ^ k). intros K ? ? ? ? ?.
  generalize dependent (v / K). generalize dependent (v mod K). generalize dependent (base / K).
  intros q Hq r Hr p Hp. rewrite Hb in Hq. split; intros.
  - nia.
  - assert (p = q) by nia. nia.
Qed.

(** * Properties *)

(** The special-purpose IPv4 blocks, as base address and prefix length. *)
Definition non_public_blocks : list (Ipv4Addr * N) :=
  [(ipv4 0 0 0 0, 8); (ipv4 10 0 0 0, 8); (ipv4 100 64 0 0, 10); (ipv4 127 0 0 0, 8);
   (ipv4 169 254 0 0, 16); (ipv4 172 16 0 0, 12); (ipv4 192 0 0 0, 24); (ipv4 192 0 2 0, 24);
   (ipv4 192 88 99 0, 24); (ipv4 192 168 0 0, 16); (ipv4 198 18 0 0, 15);
   (ipv4 198 51 100 0, 24); (ipv4 203 0 113 0, 24); (ipv4 224 0 0 0, 4); (ipv4 240 0 0 0, 4)].

(** The two anycast services inside 192.0.0.0/24 that are globally reachable. *)
Definition public_exceptions : list Ipv4Addr := [ipv4 192 0 0 9; ipv4 192 0 0 10].

Definition in_block (address : Ipv4Addr) (block : Ipv4Addr * N) : bool :=
  let size := 2 ^ (32 - block.2) in ipv4_bits address / size =? ipv4_bits block.1 / size.

(** Boolean equations between range tests *)
Ltac range_lia :=
  unfold in_range; apply eq_true_iff_eq;
  repeat (rewrite andb_true_iff || rewrite orb_true_iff || rewrite negb_true_iff
          || rewrite orb_false_iff || rewrite N.eqb_eq || rewrite N.eqb_neq || rewrite N.leb_le);
  lia.

(** Evaluates the constant bounds of every range test of [v] *)
Ltac eval_ranges v :=
  repeat match goal with
  | |- context [in_range ?lo ?hi v] =>
      let lo' := eval vm_compute in lo in
      let hi' := eval vm_compute in hi in
      progress change (in_range lo hi v) with (in_range lo' hi' v)
  end.

Lemma block_range x base len :
  ipv4_bits x < 2 ^ 32 -> len <= 32 -> ipv4_bits base mod 2 ^ (32 - len) = 0 ->
  in_block x (base, len)
  = in_range (ipv4_bits base) (ipv4_bits base + 2 ^ (32 - len) - 1) (ipv4_bits x).
Proof.
  intros Hx Hl Hb. rewrite <- mask_range by lia || done. unfold in_block. cbn [fst snd].
  rewrite land_mask by lia.
  assert (2 ^ (32 - len) <> 0) as Hz by (by apply N.pow_nonzero).
  pose proof (N.div_mod (ipv4_bits base) _ Hz) as Hd. rewrite Hb in Hd.
  apply eq_true_iff_eq. rewrite !N.eqb_eq. nia.
Qed.

(** The standard library's octet tests as ranges of the 32-bit value. *)
Lemma octet_ranges a b c d :
  a < 256 -> b < 256 -> c < 256 -> d < 256 ->
  let x := ipv4 a b c d in
  ipv4_is_loopback x || ipv4_is_private x || ipv4_is_link_local x || ipv4_is_unspecified x
  || ipv4_is_multicast x || ipv4_is_broadcast x
  = in_range 0x7f000000 0x7fffffff (ipv4_bits x) || in_range 0x0a000000 0x0affffff (ipv4_bits x)
    || in_range 0xac100000 0xac1fffff (ipv4_bits x)
    || in_range 0xc0a80000 0xc0a8ffff (ipv4_bits x)
    || in_range 0xa9fe0000 0xa9feffff (ipv4_bits x) || (ipv4_bits x =? 0)
    || in_range 0xe0000000 0xefffffff (ipv4_bits x) || (ipv4_bits x =? 0xffffffff).
Proof.
  intros Ha Hb Hc Hd x.
  assert (ipv4_bits x = a * 16777216 + b * 65536 + c * 256 + d) as Hx by done.
  unfold ipv4_is_unspecified, ipv4_is_broadcast, x, ipv4_is_loopback, ipv4_is_private,
    ipv4_is_link_local, ipv4_is_multicast. fold x.
  generalize dependent (ipv4_bits x). intros v Hv.
  assert ((a =? 127) = in_range 0x7f000000 0x7fffffff v) as -> by range_lia.
  assert ((a =? 10) = in_range 0x0a000000 0x0affffff v) as -> by range_lia.
  assert ((a =? 172) && in_range 16 31 b = in_range 0xac100000 0xac1fffff v) as ->
    by range_lia.
  assert ((a =? 192) && (b =? 168) = in_range 0xc0a80000 0xc0a8ffff v) as ->
    by range_lia.
  assert ((a =? 169) && (b =? 254) = in_range 0xa9fe0000 0xa9feffff v) as ->
    by range_lia.
  assert (in_range 224 239 a = in_range 0xe0000000 0xefffffff v) as -> by range_lia.
  by rewrite !orb_assoc.
Qed.

(** The chain of standard-library predicates and bit masks in
    [is_non_public_ip] is exactly membership in the table of special-purpose IPv4
    blocks, less the two globally reachable anycast addresses. *)
Theorem non_public_ipv4_table (a b c d : N) :
  a < 256 -> b < 256 -> c < 256 -> d < 256 ->
  is_non_public_ip (V4 (ipv4 a b c d)) =
  existsb (in_block (ipv4 a b c d)) non_public_blocks
  && negb (bool_decide (ipv4 a b c d ∈ public_exceptions)).
Proof.
  intros Ha Hb Hc Hd.
  assert (bool_decide (ipv4 a b c d ∈ public_exceptions)
          = (ipv4_bits (ipv4 a b c d) =? 0xc0000009) || (ipv4_bits (ipv4 a b c d) =? 0xc000000a)) as ->.
  { apply eq_true_iff_eq. rewrite bool_decide_eq_true. unfold public_exceptions.
    rewrite orb_true_iff, !N.eqb_eq, !elem_of_cons, elem_of_nil. simpl. split.
    - intros [[= -> -> -> ->]|[[= -> -> -> ->]|[]]]; [by left|by right].
    - intros [H|H]; [left|right; left]; f_equal; lia. }
  assert (ipv4_bits (ipv4 a b c d) < 2 ^ 32) as Hv by (simpl; lia).
  unfold is_non_public_ip, is_non_public_ipv4. rewrite octet_ranges by done.
  unfold non_public_blocks. cbn [existsb]. rewrite !block_range by done.
  change 0xff000000 with (2 ^ 32 - 2 ^ 24). change 0xffc00000 with (2 ^ 32 - 2 ^ 22).
  change 0xffffff00 with (2 ^ 32 - 2 ^ 8). change 0xfffe0000 with (2 ^ 32 - 2 ^ 17).
  change 0xf0000000 with (2 ^ 32 - 2 ^ 28) at 1.
  rewrite !mask_range by done.
  generalize dependent (ipv4_bits (ipv4 a b c d)). clear. intros v Hv.
  eval_ranges v. range_lia.
Qed.

Lemma non_public_ipv4_table_witness :
  is_non_public_ip (V4 (ipv4 192 0 0 8)) = true /\ is_non_public_ip (V4 (ipv4 192 0 0 9)) = false.
Proof.
  split.
  - rewrite (non_public_ipv4_table 192 0 0 8) by reflexivity. vm_compute. reflexivity.
  - rewrite (non_public_ipv4_table 192 0 0 9) by reflexivity. vm_compute. reflexivity.
Defined.

Lemma segment_high a b : b < 256 -> (a * 256 + b) / 256 = a.
Proof. intros H. by rewrite N.div_add_l, (N.div_small b), N.add_0_r. Qed.

Lemma segment_low a b : b < 256 -> (a * 256 + b) mod 256 = b.
Proof. intros H. by rewrite N.add_comm, N.Div0.mod_add, N.mod_small. Qed.

(** An IPv4 destination cannot be disguised: embedded as an IPv4-mapped
    address or behind the well-known NAT64 prefix it is classified exactly as the
    IPv4 address itself. *)
Theorem embedded_ipv4_classification (a b c d : N) :
  a < 256 -> b < 256 -> c < 256 -> d < 256 ->
  let high := a * 256 + b in
  let low := c * 256 + d in
  is_non_public_ip (V6 (ipv6 0 0 0 0 0 0xffff high low)) = is_non_public_ip (V4 (ipv4 a b c d)) /\
  is_non_public_ip (V6 (ipv6 0x64 0xff9b 0 0 0 0 high low)) = is_non_public_ip (V4 (ipv4 a b c d)).
Proof.
  intros Ha Hb Hc Hd high low.
  assert (ipv4_of_segments high low = ipv4 a b c d) as Hs.
  { unfold ipv4_of_segments, high, low.
    by rewrite !segment_high, !segment_low. }
  unfold is_non_public_ip, is_non_public_ipv6, to_ipv4, well_known_nat64_ipv4.
  rewrite Hs. clearbody high low.
  split; lazy -[is_non_public_ipv4]; by destruct (is_non_public_ipv4 _).
Qed.

Lemma embedded_ipv4_classification_witness :
  is_non_public_ip (V6 (ipv6 0 0 0 0 0 0xffff (169 * 256 + 254) (169 * 256 + 254))) = true.
Proof.
  destruct (embedded_ipv4_classification 169 254 169 254) as [H _]; [reflexivity..|].
  exact H.
Defined.
