(* ===== verification/IpText.v ===== *)
(** The text of addresses in [std::net]: [Display] of [Ipv4Addr] and
    [Ipv6Addr], and that parsing reads back what it prints. *)

From Stdlib Require Import Ascii String NArith Lia.
From stdpp Require Import base list strings option numbers.
From S2P Require Import Prelude Text IpAddr.

#[local] Open Scope N_scope.

(** * Printing *)

(** [{}] and [{:x}] of a number below [radix ^ (fuel + 1)], in front of [acc];
    three extra digits are enough for an octet in decimal and for a segment in
    hexadecimal. *)
Fixpoint print_digits (fuel : nat) (radix n : N) (acc : string) : string :=
  match fuel with
  | O => String (hex_digit n) acc
  | S fuel' =>
      if n <? radix then String (hex_digit n) acc
      else print_digits fuel' radix (n / radix) (String (hex_digit (n mod radix)) acc)
  end.

Definition print_number (radix n : N) : string := print_digits 3 radix n "".

Definition ipv4_to_string (x : Ipv4Addr) : string :=
  let 'ipv4 a b c d := x in
  str_join "." [print_number 10 a; print_number 10 b; print_number 10 c; print_number 10 d].

Definition segments (x : Ipv6Addr) : list N :=
  let 'ipv6 s0 s1 s2 s3 s4 s5 s6 s7 := x in [s0; s1; s2; s3; s4; s5; s6; s7].

(** The loop that looks for the longest run of zero segments, the first of
    equals: start and length of the run found and of the current one. *)
Fixpoint zero_span (i : nat) (longest current : nat * nat) (segs : list N) : nat * nat :=
  match segs with
  | [] => longest
  | s :: segs' =>
      if s =? 0 then
        let start := if (current.2 =? 0)%nat then i else current.1 in
        let current := (start, S current.2) in
        zero_span (S i) (if (longest.2 <? current.2)%nat then current else longest) current segs'
      else zero_span (S i) longest (0%nat, 0%nat) segs'
  end.

(** [fmt_subslice] *)
Definition print_segments (segs : list N) : string := str_join ":" (print_number 16 <$> segs).

Definition to_ipv4_mapped (x : Ipv6Addr) : option Ipv4Addr :=
  let 'ipv6 s0 s1 s2 s3 s4 s5 s6 s7 := x in
  if (s0 =? 0) && (s1 =? 0) && (s2 =? 0) && (s3 =? 0) && (s4 =? 0) && (s5 =? 0xffff)
  then Some (ipv4_of_segments s6 s7) else None.

Definition ipv6_to_string (x : Ipv6Addr) : string :=
  match to_ipv4_mapped x with
  | Some v4 => "::ffff:" +:+ ipv4_to_string v4
  | None =>
      let '(start, len) := zero_span 0 (0%nat, 0%nat) (0%nat, 0%nat) (segments x) in
      if (1 <? len)%nat
      then print_segments (take start (segments x)) +:+ "::" +:+ print_segments (drop (start + len) (segments x))
      else print_segments (segments x)
  end.

Definition ip_to_string (x : IpAddr) : string :=
  match x with V4 a => ipv4_to_string a | V6 a => ipv6_to_string a end.

(** [s.parse::<Ipv6Addr>().ok()] *)
Definition parse_ipv6 (s : string) : option Ipv6Addr :=
  match read_ipv6_addr s with Some (a, EmptyString) => Some a | _ => None end.

(** * Numbers *)

Section numbers.
Context (radix : N) (Hradix : 2 <= radix <= 16).

Lemma to_digit_hex n : n < radix -> to_digit radix (hex_digit n) = Some n.
Proof.
  intros Hn. assert (to_digit 16 (hex_digit n) = Some n) as H.
  { destruct n as [|n]; [done|]. do 4 try (destruct n as [n|n|]; try lia; try reflexivity). }
  unfold to_digit in *. destruct (if in_range 48 57 _ then _ else _) as [m|]; [|done].
  destruct (m <? 16); [|done]. injection H as ->. by rewrite (proj2 (N.ltb_lt n radix)).
Qed.

Fixpoint digit_count (fuel : nat) (n : N) : nat :=
  match fuel with
  | O => 1
  | S fuel' => if n <? radix then 1 else S (digit_count fuel' (n / radix))
  end.

(** Reading printed digits continues behind them. *)
Lemma read_digits_print fuel n max count acc tail :
  n < radix ^ N.of_nat (S fuel) -> (count + digit_count fuel n <= max)%nat ->
  read_digits radix max count acc (print_digits fuel radix n tail) =
  read_digits radix max (count + digit_count fuel n) (acc * radix ^ N.of_nat (digit_count fuel n) + n) tail.
Proof.
  revert n tail. induction fuel as [|fuel IH]; intros n tail Hn Hmax; cbn [print_digits digit_count] in *.
  - change (N.of_nat 1) with 1 in *. rewrite N.pow_1_r in *. simpl read_digits at 1.
    rewrite to_digit_hex by done. rewrite (proj2 (Nat.ltb_ge max (S count))) by lia.
    by rewrite Nat.add_1_r.
  - destruct (N.ltb_spec n radix) as [Hlt|Hge].
    + change (N.of_nat 1) with 1. rewrite N.pow_1_r. simpl read_digits at 1.
      rewrite to_digit_hex by done. rewrite (proj2 (Nat.ltb_ge max (S count))) by lia.
      by rewrite Nat.add_1_r.
    + rewrite IH.
      2: { apply N.Div0.div_lt_upper_bound. rewrite Nat2N.inj_succ, N.pow_succ_r' in Hn. done. }
      2: lia.
      simpl read_digits at 1. rewrite to_digit_hex by (apply N.mod_lt; lia).
      rewrite (proj2 (Nat.ltb_ge max _)) by lia. rewrite Nat.add_succ_r. f_equal.
      rewrite Nat2N.inj_succ, N.pow_succ_r'. pose proof (N.Div0.div_mod n radix) as Hd.
      generalize dependent (digit_count fuel (n / radix)). intros k _.
      rewrite Hd at 3. ring.
Qed.

Lemma print_digits_head fuel n tail :
  0 < n -> n < radix ^ N.of_nat (S fuel) -> starts_with_char "0" (print_digits fuel radix n tail) = false.
Proof.
  assert (forall m t, 0 < m < 16 -> starts_with_char "0" (String (hex_digit m) t) = false) as H1.
  { intros m t Hm. destruct m as [|m]; [lia|]. do 4 try (destruct m as [m|m|]; try lia; try reflexivity). }
  revert n tail. induction fuel as [|fuel IH]; intros n tail Hn Hlt; cbn [print_digits].
  - apply H1. change (N.of_nat 1) with 1 in *. rewrite N.pow_1_r in *. lia.
  - destruct (N.ltb_spec n radix); [apply H1; lia|]. apply IH; [apply N.div_str_pos; lia|].
    apply N.Div0.div_lt_upper_bound. by rewrite Nat2N.inj_succ, N.pow_succ_r' in Hlt.
Qed.

Lemma print_digits_app fuel n tail : print_digits fuel radix n tail = print_digits fuel radix n "" +:+ tail.
Proof.
  revert n tail. induction fuel as [|fuel IH]; intros n tail; simpl; [done|].
  destruct (n <? radix); [done|]. rewrite IH, (IH _ (String _ "")), <- string_app_assoc. done.
Qed.

End numbers.

(** What cannot continue a number. *)
Definition ends_number (radix : N) (tail : string) : Prop :=
  match tail with EmptyString => True | String a _ => to_digit radix a = None end.

Lemma read_digits_end radix max count acc tail :
  ends_number radix tail -> read_digits radix max count acc tail = Some (acc, count, tail).
Proof. destruct tail as [|a tail]; simpl; [done|]. by intros ->. Qed.

Lemma digit_count_bounds radix fuel n : (1 <= digit_count radix fuel n <= S fuel)%nat.
Proof.
  revert n. induction fuel as [|fuel IH]; intros n; simpl; [lia|]. destruct (n <? radix); [lia|].
  specialize (IH (n / radix)). lia.
Qed.

Lemma read_number_print radix max zeros limit n tail :
  2 <= radix <= 16 -> n < radix ^ 4 -> (digit_count radix 3 n <= max)%nat -> n < limit ->
  ends_number radix tail ->
  read_number radix max zeros limit (print_number radix n +:+ tail) = Some (n, tail).
Proof.
  intros Hr Hn Hmax Hlim Hend. unfold read_number, print_number. rewrite <- print_digits_app.
  rewrite (read_digits_print radix Hr) by (done || lia). rewrite read_digits_end by done.
  pose proof (digit_count_bounds radix 3 n) as Hb. rewrite Nat.add_0_l.
  rewrite N.mul_0_l, N.add_0_l.
  destruct (digit_count radix 3 n) as [|k] eqn:Hk; [lia|]. simpl Nat.eqb.
  rewrite (proj2 (N.ltb_lt n limit)) by done.
  assert (starts_with_char "0" (print_digits 3 radix n tail) && (1 <? S k)%nat = false) as Hz.
  { destruct (N.eq_dec n 0) as [->|Hne].
    - simpl in Hk. rewrite (proj2 (N.ltb_lt 0 radix)) in Hk by lia. injection Hk as <-.
      apply andb_false_r.
    - rewrite (print_digits_head radix Hr) by (done || lia). done. }
  rewrite <- andb_assoc, Hz, andb_false_r. done.
Qed.

Lemma read_octet_print n tail : n < 256 -> ends_number 10 tail ->
  read_octet (print_number 10 n +:+ tail) = Some (n, tail).
Proof.
  intros Hn Hend. apply read_number_print; [lia|simpl; lia| |done|done].
  simpl. destruct (N.ltb_spec n 10); [lia|]. destruct (N.ltb_spec (n / 10) 10); [lia|].
  destruct (N.ltb_spec (n / 10 / 10) 10) as [|Hge]; [lia|].
  pose proof (N.Div0.div_lt_upper_bound n 10 26 ltac:(lia)).
  pose proof (N.Div0.div_lt_upper_bound (n / 10) 10 3 ltac:(lia)). lia.
Qed.

Lemma read_group_print n tail : n < 65536 -> ends_number 16 tail ->
  read_number 16 4 true 65536 (print_number 16 n +:+ tail) = Some (n, tail).
Proof.
  intros Hn Hend. apply read_number_print; [lia|simpl; lia| |done|done].
  apply digit_count_bounds.
Qed.

(** * IPv4 *)

Lemma ipv4_roundtrip x tail : ipv4_wf x -> ends_number 10 tail ->
  read_ipv4_addr (ipv4_to_string x +:+ tail) = Some (x, tail).
Proof.
  destruct x as [a b c d]. unfold ipv4_wf. intros (Ha & Hb & Hc & Hd) Hend.
  unfold ipv4_to_string, str_join. cbn [String.concat].
  assert (forall s, "." +:+ s = String "." s) as Hdot by done.
  change (String "." "") with ".". rewrite <- !string_app_assoc, !Hdot.
  unfold read_ipv4_addr, read_separator. cbn [read_given_char].
  rewrite read_octet_print by done. simpl. rewrite read_octet_print by done. simpl.
  rewrite read_octet_print by done. simpl. by rewrite read_octet_print.
Qed.

(** * IPv6 *)

Definition ipv6_wf (x : Ipv6Addr) : Prop := Forall (fun s => s < 65536) (segments x).
Definition ip_wf (x : IpAddr) : Prop := match x with V4 a => ipv4_wf a | V6 a => ipv6_wf a end.

(** Without a dot there is no IPv4 address. *)
Lemma read_digits_rest radix max c s : forall count acc n k rest,
  contains_char c s = false -> read_digits radix max count acc s = Some (n, k, rest) ->
  contains_char c rest = false.
Proof.
  induction s as [|a s IH]; intros count acc n k rest Hc; cbn [read_digits]; [by intros [= _ _ <-]|].
  rewrite contains_char_cons in Hc. apply orb_false_iff in Hc as [Ha Hs].
  destruct (to_digit radix a).
  - destruct (max <? S count)%nat; [done|]. by apply IH.
  - intros [= _ _ <-]. rewrite contains_char_cons. by rewrite Ha, Hs.
Qed.

Lemma read_octet_rest c s n rest :
  contains_char c s = false -> read_octet s = Some (n, rest) -> contains_char c rest = false.
Proof.
  intros Hs. unfold read_octet, read_number.
  destruct (read_digits 10 3 0 0 s) as [[[m k] rest']|] eqn:E; [|done].
  apply read_digits_rest with (c := c) in E; [|done]. destruct (k =? 0)%nat; [done|].
  destruct (negb false && _ && _); [done|]. destruct (m <? 256); [|done]. by intros [= _ <-].
Qed.

Lemma read_ipv4_no_dot s : contains_char "." s = false -> read_ipv4_addr s = None.
Proof.
  intros Hs. unfold read_ipv4_addr. change (read_separator "." true read_octet s) with (read_octet s).
  destruct (read_octet s) as [[n rest]|] eqn:E; [|done].
  apply (read_octet_rest "."%char) in E; [|done].
  assert (read_separator "." false read_octet rest = None) as Hsep.
  { unfold read_separator, read_given_char. destruct rest as [|a rest]; [done|].
    rewrite contains_char_cons in E. apply orb_false_iff in E as [Ha _].
    rewrite Ascii.eqb_sym in Ha. by rewrite Ha. }
  unfold mbind, option_bind. by rewrite Hsep.
Qed.

(** Where a list of groups may stop. *)
Inductive stops : string -> Prop :=
  | stops_end : stops ""
  | stops_gap rest : stops (String ":" (String ":" rest)).

(** The groups behind the first, each with its colon. *)
Definition more_groups (segs : list N) (tail : string) : string :=
  foldr (fun s acc => String ":" (print_number 16 s +:+ acc)) tail segs.

Lemma more_groups_cons s segs tail :
  more_groups (s :: segs) tail = String ":" (print_number 16 s +:+ more_groups segs tail).
Proof. done. Qed.

Lemma hex_digit_not_dot m : m < 16 -> Ascii.eqb "." (hex_digit m) = false.
Proof.
  intros Hm. destruct m as [|m]; [done|]. do 4 try (destruct m as [m|m|]; try lia; try reflexivity).
Qed.

Lemma print_digits_dot radix fuel n tail :
  2 <= radix <= 16 -> n < radix ^ N.of_nat (S fuel) ->
  contains_char "." (print_digits fuel radix n tail) = contains_char "." tail.
Proof.
  intros Hr. revert n tail. induction fuel as [|fuel IH]; intros n tail Hn; cbn [print_digits].
  - change (N.of_nat 1) with 1 in Hn. rewrite N.pow_1_r in Hn.
    by rewrite contains_char_cons, hex_digit_not_dot by lia.
  - destruct (N.ltb_spec n radix); [by rewrite contains_char_cons, hex_digit_not_dot by lia|].
    rewrite IH; [by rewrite contains_char_cons, hex_digit_not_dot
                   by (pose proof (N.mod_lt n radix ltac:(lia)); lia)|].
    apply N.Div0.div_lt_upper_bound. by rewrite Nat2N.inj_succ, N.pow_succ_r' in Hn.
Qed.

Lemma print_group_dot s tail : s < 65536 ->
  contains_char "." (print_number 16 s +:+ tail) = contains_char "." tail.
Proof. intros Hs. unfold print_number. rewrite <- print_digits_app. by apply print_digits_dot. Qed.

Lemma more_groups_dot segs tail : Forall (fun s => s < 65536) segs ->
  contains_char "." (more_groups segs tail) = contains_char "." tail.
Proof.
  induction 1 as [|s segs Hs Hsegs IH]; [done|].
  by rewrite more_groups_cons, contains_char_cons, print_group_dot, IH.
Qed.

Lemma more_groups_ends segs tail : stops tail -> ends_number 16 (more_groups segs tail).
Proof. by destruct segs, 1. Qed.

(** Groups behind the first are read up to the place where they stop. *)
Lemma read_groups_more left segs tail :
  Forall (fun s => s < 65536) segs -> (length segs <= left)%nat -> stops tail ->
  contains_char "." tail = false ->
  read_groups left false (more_groups segs tail) = (segs, false, tail).
Proof.
  intros Hsegs. revert left. induction Hsegs as [|s segs Hs Hsegs IH]; intros left Hleft Hstop Hdot.
  - destruct left as [|left]; [done|]. cbn [read_groups more_groups foldr].
    assert (read_separator ":" false read_ipv4_addr tail = None) as ->
      by (destruct Hstop as [|rest]; [done|]; unfold read_separator; simpl;
          apply read_ipv4_no_dot; exact Hdot).
    assert (read_separator ":" false (read_number 16 4 true 65536) tail = None) as ->
      by (by destruct Hstop). by destruct (2 <=? S left)%nat.
  - destruct left as [|left]; [simpl in Hleft; lia|]. cbn [read_groups].
    assert (contains_char "." (more_groups (s :: segs) tail) = false) as Hd
      by (rewrite more_groups_dot; [done|by constructor]).
    rewrite more_groups_cons in *. rewrite contains_char_cons in Hd. apply orb_false_iff in Hd as [_ Hd].
    unfold read_separator at 1 2. simpl read_given_char. cbv iota.
    rewrite (read_ipv4_no_dot _ Hd), read_group_print; [|done|by apply more_groups_ends].
    rewrite IH by (done || simpl in Hleft; lia).
    by destruct (2 <=? S left)%nat.
Qed.

(** A first group and those behind it. *)
Definition groups (segs : list N) (tail : string) : string :=
  match segs with [] => tail | s :: segs' => print_number 16 s +:+ more_groups segs' tail end.

Lemma read_groups_print left segs tail :
  Forall (fun s => s < 65536) segs -> (length segs <= left)%nat -> stops tail ->
  contains_char "." tail = false ->
  read_groups left true (groups segs tail) = (segs, false, tail).
Proof.
  intros Hsegs Hleft Hstop Hdot. destruct Hsegs as [|s segs Hs Hsegs].
  - destruct left as [|left]; [done|]. cbn [read_groups groups]. unfold read_separator.
    rewrite (read_ipv4_no_dot _ Hdot).
    assert (read_number 16 4 true 65536 tail = None) as -> by (by destruct Hstop).
    by destruct (2 <=? S left)%nat.
  - destruct left as [|left]; [simpl in Hleft; lia|]. cbn [read_groups groups].
    assert (contains_char "." (print_number 16 s +:+ more_groups segs tail) = false) as Hd
      by (by rewrite print_group_dot, more_groups_dot).
    unfold read_separator at 1 2.
    rewrite (read_ipv4_no_dot _ Hd), read_group_print; [|done|by apply more_groups_ends].
    rewrite read_groups_more by (done || simpl in Hleft; lia). by destruct (2 <=? S left)%nat.
Qed.

Lemma groups_dot segs tail : Forall (fun s => s < 65536) segs ->
  contains_char "." (groups segs tail) = contains_char "." tail.
Proof. destruct 1; [done|]. simpl groups. by rewrite print_group_dot, more_groups_dot. Qed.

Lemma print_segments_groups segs tail : print_segments segs +:+ tail = groups segs tail.
Proof.
  destruct segs as [|s segs]; [done|]. unfold print_segments. simpl groups. revert s.
  induction segs as [|t segs IH]; intros s; [done|].
  change (print_number 16 <$> s :: t :: segs) with (print_number 16 s :: print_number 16 t :: (print_number 16 <$> segs)).
  rewrite str_join_cons2, <- string_app_assoc. f_equal. rewrite more_groups_cons.
  change (String ":" (str_join ":" (print_number 16 <$> t :: segs) +:+ tail)
          = String ":" (print_number 16 t +:+ more_groups segs tail)). by rewrite IH.
Qed.

(** The run that is left out consists of zeros. *)
Lemma zero_span_zeros segs : forall i longest current all,
  drop i all = segs -> (i <= length all)%nat ->
  (longest.1 + longest.2 <= i)%nat ->
  take longest.2 (drop longest.1 all) = replicate longest.2 0 ->
  ((0 < current.2)%nat -> (current.1 + current.2 = i)%nat) ->
  take current.2 (drop current.1 all) = replicate current.2 0 ->
  let '(start, len) := zero_span i longest current segs in
  (start + len <= length all)%nat /\ take len (drop start all) = replicate len 0.
Proof.
  induction segs as [|s segs IH]; intros i longest current all Hdrop Hi Hl1 Hl2 Hc1 Hc2; simpl.
  { destruct longest. simpl in *. split; [lia|done]. }
  assert (all !! i = Some s) as Hs by (rewrite <- (Nat.add_0_r i), <- lookup_drop, Hdrop; done).
  assert (drop (S i) all = segs) as Hdrop' by (rewrite <- Nat.add_1_r, <- drop_drop, Hdrop; done).
  assert (S i <= length all)%nat as Hi' by (apply lookup_lt_Some in Hs; lia).
  destruct (N.eqb_spec s 0) as [->|Hne].
  2: { apply (IH _ _ _ all); simpl; try done; lia. }
  set (start := if (current.2 =? 0)%nat then i else current.1).
  assert (start + current.2 = i)%nat as Hstart
    by (unfold start; destruct (Nat.eqb_spec current.2 0); [lia|apply Hc1; lia]).
  assert (take (S current.2) (drop start all) = replicate (S current.2) 0) as Hrun.
  { rewrite (take_S_r _ _ 0) by (by rewrite lookup_drop, Hstart).
    rewrite replicate_S_end. f_equal. unfold start. destruct (Nat.eqb_spec current.2 0) as [H0|]; [|done].
    by rewrite H0. }
  apply (IH _ _ _ all); simpl; try done; try lia;
    destruct (Nat.ltb_spec longest.2 (S current.2)); simpl; try done; lia.
Qed.

Lemma ipv6_split x start len :
  zero_span 0 (0%nat, 0%nat) (0%nat, 0%nat) (segments x) = (start, len) ->
  (start + len <= 8)%nat /\
  segments x = take start (segments x) ++ replicate len 0 ++ drop (start + len) (segments x).
Proof.
  intros H. pose proof (zero_span_zeros (segments x) 0 (0%nat, 0%nat) (0%nat, 0%nat) (segments x)) as Hz.
  rewrite H in Hz. destruct Hz as [Hle Hrun]; try done; [simpl; lia|].
  assert (length (segments x) = 8%nat) as Hlen by (by destruct x). rewrite Hlen in Hle. split; [done|].
  rewrite <- Hrun, <- drop_drop, take_drop. by rewrite take_drop.
Qed.

Lemma segments_of_segments x : segments_of (segments x) = Some x.
Proof. by destruct x. Qed.

Lemma read_ipv6_gap x start len :
  ipv6_wf x -> zero_span 0 (0%nat, 0%nat) (0%nat, 0%nat) (segments x) = (start, len) -> (1 < len)%nat ->
  read_ipv6_addr (print_segments (take start (segments x)) +:+ "::"
                  +:+ print_segments (drop (start + len) (segments x))) = Some (x, "").
Proof.
  intros Hwf Hspan Hlen. destruct (ipv6_split _ _ _ Hspan) as [Hle Hsplit].
  assert (length (segments x) = 8%nat) as H8 by (by destruct x).
  rewrite print_segments_groups, <- (string_app_empty_r (print_segments (drop _ _))), print_segments_groups.
  set (post := drop (start + len) (segments x)). set (pre := take start (segments x)).
  assert (length pre = start) as Hpre by (apply length_take_le; lia).
  assert (length post = 8 - (start + len))%nat as Hpost by (unfold post; rewrite length_drop; lia).
  assert (Forall (fun s => s < 65536) pre) as Hpre' by (by apply Forall_take).
  assert (Forall (fun s => s < 65536) post) as Hpost' by (by apply Forall_drop).
  assert (contains_char "." (groups post "") = false) as Hdot by (by rewrite groups_dot).
  unfold read_ipv6_addr. change ("::" +:+ groups post "") with (String ":" (String ":" (groups post ""))).
  rewrite read_groups_print; [|done|lia|constructor|by rewrite !contains_char_cons].
  rewrite (proj2 (Nat.eqb_neq (length pre) 8)) by lia. simpl.
  rewrite read_groups_print; [|done|lia|constructor|done].
  rewrite Hpre. replace (8 - start - length post)%nat with len by lia.
  fold pre post in Hsplit. by rewrite <- Hsplit, segments_of_segments.
Qed.

Lemma mapped_segments x v4 : ipv6_wf x -> to_ipv4_mapped x = Some v4 ->
  ipv4_wf v4 /\ let 'ipv4 a b c d := v4 in x = ipv6 0 0 0 0 0 0xffff (a * 256 + b) (c * 256 + d).
Proof.
  destruct x as [s0 s1 s2 s3 s4 s5 s6 s7]. unfold ipv6_wf. cbn [segments to_ipv4_mapped]. intros Hwf.
  assert (s6 < 65536) as H6 by (by apply (Forall_lookup_1 _ _ 6 s6 Hwf)).
  assert (s7 < 65536) as H7 by (by apply (Forall_lookup_1 _ _ 7 s7 Hwf)).
  destruct (_ && _ && _ && _ && _ && _) eqn:E; [|done]. intros [= <-].
  repeat (apply andb_true_iff in E as [E ?]); rewrite ?N.eqb_eq in *; subst.
  split.
  - unfold ipv4_of_segments, ipv4_wf.
    split_and!; try (apply N.mod_lt; lia); apply N.Div0.div_lt_upper_bound; lia.
  - cbn [ipv4_of_segments].
    pose proof (N.Div0.div_mod s6 256). pose proof (N.Div0.div_mod s7 256). f_equal; lia.
Qed.

(** The tail of a mapped address: one group and an IPv4 address. *)
Lemma read_groups_mapped v4 : ipv4_wf v4 ->
  read_groups 7 true ("ffff:" +:+ ipv4_to_string v4)
  = let 'ipv4 a b c d := v4 in ([0xffff; a * 256 + b; c * 256 + d], true, "").
Proof.
  intros Hwf. pose proof (ipv4_roundtrip v4 "" Hwf I) as Hr. rewrite string_app_empty_r in Hr.
  change ("ffff:" +:+ ipv4_to_string v4)
    with (String "f" (String "f" (String "f" (String "f" (String ":" (ipv4_to_string v4)))))).
  generalize dependent (ipv4_to_string v4). intros t Hr. destruct v4 as [a b c d].
  cbn [read_groups Nat.leb]. unfold read_separator. cbn [read_given_char].
  assert (read_ipv4_addr (String "f" (String "f" (String "f" (String "f" (String ":" t))))) = None) as -> by done.
  assert (read_number 16 4 true 65536 (String "f" (String "f" (String "f" (String "f" (String ":" t)))))
          = Some (0xffff, String ":" t)) as -> by reflexivity.
  simpl. by rewrite Hr.
Qed.

Lemma ipv6_roundtrip x : ipv6_wf x -> read_ipv6_addr (ipv6_to_string x) = Some (x, "").
Proof.
  intros Hwf. unfold ipv6_to_string. destruct (to_ipv4_mapped x) as [v4|] eqn:Hm.
  - destruct (mapped_segments _ _ Hwf Hm) as [Hv4 Hx]. pose proof (read_groups_mapped v4 Hv4) as Hg.
    change ("::ffff:" +:+ ipv4_to_string v4)
      with (String ":" (String ":" ("ffff:" +:+ ipv4_to_string v4))).
    generalize dependent ("ffff:" +:+ ipv4_to_string v4). intros t Hg.
    unfold read_ipv6_addr.
    assert (read_groups 8 true (String ":" (String ":" t)) = ([], false, String ":" (String ":" t))) as -> by done.
    change (8 - (length (@nil N) + 1))%nat with 7%nat. cbn [length Nat.eqb read_given_char Ascii.eqb Bool.eqb mbind option_bind].
    destruct v4 as [a b c d]. by rewrite Hg, Hx.
  - destruct (zero_span _ _ _ _) as [start len] eqn:Hspan. destruct (Nat.ltb_spec 1 len).
    + by apply read_ipv6_gap.
    + rewrite <- (string_app_empty_r (print_segments _)), print_segments_groups.
      assert (length (segments x) = 8%nat) as H8 by (by destruct x).
      unfold read_ipv6_addr. rewrite read_groups_print; [|done|lia|constructor|done].
      by rewrite H8, segments_of_segments.
Qed.

(** An IPv6 address is never taken for an IPv4 one. *)
Lemma read_ipv4_of_ipv6 x : ipv6_wf x -> read_ipv4_addr (ipv6_to_string x) = None.
Proof.
  intros Hwf. unfold ipv6_to_string. destruct (to_ipv4_mapped x) as [v4|] eqn:Hm; [done|].
  apply read_ipv4_no_dot. destruct (zero_span _ _ _ _) as [start len]. destruct (1 <? len)%nat.
  - rewrite print_segments_groups, <- (string_app_empty_r (print_segments (drop _ _))), print_segments_groups.
    rewrite groups_dot by (by apply Forall_take).
    change ("::" +:+ groups ?p ?t) with (String ":" (String ":" (groups p t))).
    rewrite !contains_char_cons, groups_dot by (by apply Forall_drop). done.
  - rewrite <- (string_app_empty_r (print_segments _)), print_segments_groups. by rewrite groups_dot.
Qed.

(** Printing an address and parsing the text gives the address back. *)
Lemma ip_text_roundtrip x : ip_wf x -> parse_ip (ip_to_string x) = Some x.
Proof.
  unfold parse_ip, read_ip_addr. destruct x as [v4|v6]; simpl; intros Hwf.
  - rewrite <- (string_app_empty_r (ipv4_to_string v4)). by rewrite ipv4_roundtrip.
  - by rewrite read_ipv4_of_ipv6, ipv6_roundtrip.
Qed.

Lemma ip_to_string_inj x y : ip_wf x -> ip_wf y -> ip_to_string x = ip_to_string y -> x = y.
Proof.
  intros Hx Hy H. apply (f_equal parse_ip) in H. rewrite !ip_text_roundtrip in H by done. by injection H.
Qed.

(** What the parser accepts is an address. *)
Lemma read_number_bound radix max zeros limit s n rest :
  read_number radix max zeros limit s = Some (n, rest) -> n < limit.
Proof.
  unfold read_number. destruct (read_digits radix max 0 0 s) as [[[m k] rest']|]; [|done].
  destruct (k =? 0)%nat; [done|]. destruct (negb zeros && _ && _); [done|].
  destruct (N.ltb_spec m limit); [|done]. by intros [= <- _].
Qed.

Lemma read_separator_Some {A} sep first (p : parser A) s x :
  read_separator sep first p s = Some x -> exists s', p s' = Some x.
Proof.
  unfold read_separator. destruct first; [eauto|]. destruct (read_given_char sep s) as [[[] rest]|]; [eauto|done].
Qed.

Lemma read_ipv4_wf s x rest : read_ipv4_addr s = Some (x, rest) -> ipv4_wf x.
Proof.
  unfold read_ipv4_addr. intros E.
  repeat match goal with
  | E : (_ ≫= _) = Some _ |- _ =>
      apply bind_Some in E; let H := fresh "H" in destruct E as ([? ?] & H & E);
      apply read_separator_Some in H as [? H%read_number_bound]
  end. injection E as <- _. by split_and!.
Qed.

Lemma read_groups_wf left : forall first s,
  let '(gs, _, _) := read_groups left first s in Forall (fun g => g < 65536) gs.
Proof.
  induction left as [|left IH]; intros first s; cbn [read_groups]; [constructor|].
  assert (forall o, o = None \/ (exists x, o = Some x /\ ipv4_wf x.1) ->
    let '(gs, _, _) := match o with
      | Some (ipv4 a b c d, rest) => ([a * 256 + b; c * 256 + d], true, rest)
      | None => match read_separator ":" first (read_number 16 4 true 65536) s with
                | Some (g, rest) => let '(gs, v4, rest') := read_groups left false rest in (g :: gs, v4, rest')
                | None => ([], false, s)
                end
      end in Forall (fun g => g < 65536) gs) as Hcase.
  { intros o [->|([[a b c d] rest] & -> & Ha & Hb & Hc & Hd)].
    - destruct (read_separator _ _ _ s) as [[g rest]|] eqn:E; [|constructor].
      apply read_separator_Some in E as [? E%read_number_bound]. specialize (IH false rest).
      destruct (read_groups left false rest) as [[gs v4] rest']. by constructor.
    - repeat constructor; lia. }
  apply Hcase. destruct (2 <=? S left)%nat; [|by left].
  destruct (read_separator ":" first read_ipv4_addr s) as [[x rest]|] eqn:E; [right|by left].
  apply read_separator_Some in E as [? E%read_ipv4_wf]. eauto.
Qed.

Lemma segments_of_wf l x : Forall (fun g => g < 65536) l -> segments_of l = Some x -> ipv6_wf x.
Proof. intros Hl Hs. unfold ipv6_wf. by do 9 (destruct l as [|? l]; try done); injection Hs as <-. Qed.

Lemma parse_ip_wf s x : parse_ip s = Some x -> ip_wf x.
Proof.
  unfold parse_ip, read_ip_addr. destruct (read_ipv4_addr s) as [[y rest]|] eqn:E.
  - apply read_ipv4_wf in E. destruct rest; [|done]. by intros [= <-].
  - clear E. unfold read_ipv6_addr. pose proof (read_groups_wf 8 true s) as H8.
    destruct (read_groups 8 true s) as [[head v4] s1]. intros Hp.
    match type of Hp with context [fmap _ ?m] => destruct m as [[y rest]|] eqn:E end; [|done].
    assert (ipv6_wf y) as Hy; [|destruct rest; [|done]; by injection Hp as <-]. clear Hp.
    destruct (length head =? 8)%nat.
    + apply fmap_Some in E as (z & Hz & [= -> _]). by eapply segments_of_wf.
    + destruct v4; [done|]. apply bind_Some in E as ([[] s2] & _ & E).
      apply bind_Some in E as ([[] s3] & _ & E).
      pose proof (read_groups_wf (8 - (length head + 1)) true s3) as Ht.
      destruct (read_groups _ true s3) as [[tail v4'] s4]. apply fmap_Some in E as (z & Hz & [= -> _]).
      eapply segments_of_wf; [|done]. apply Forall_app; split; [done|]. apply Forall_app; split; [|done].
      by apply Forall_replicate.
Qed.
