(* ===== verification/Access.v ===== *)
(** [cageforge-policy]: access modes and decisions ([access.rs]), the error type
    ([error.rs]), and the interface to the [globset] crate. *)

From Stdlib Require Import Ascii String NArith.
From stdpp Require Import base list strings option.
From S2P Require Import Prelude Text NativePath IpAddr.

(** * Access modes *)

Inductive AccessMode := Read | Write | Deny.

Inductive FilesystemDecision := FRead | FWrite | FDeny | FExternallyEnforced.

#[global] Instance AccessMode_eq_dec : EqDecision AccessMode.
Proof. solve_decision. Defined.
#[global] Instance FilesystemDecision_eq_dec : EqDecision FilesystemDecision.
Proof. solve_decision. Defined.

Definition can_read (m : AccessMode) : bool :=
  match m with Read | Write => true | Deny => false end.

Definition can_write (m : AccessMode) : bool :=
  match m with Write => true | _ => false end.

Definition most_restrictive (left right : AccessMode) : AccessMode :=
  match left, right with
  | Deny, _ | _, Deny => Deny
  | Read, _ | _, Read => Read
  | Write, Write => Write
  end.

Definition permits (grant requested : AccessMode) : bool :=
  match grant, requested with
  | Write, Read | Write, Write | Read, Read | Deny, Deny => true
  | _, _ => false
  end.

Definition as_access_mode (d : FilesystemDecision) : option AccessMode :=
  match d with
  | FRead => Some Read
  | FWrite => Some Write
  | FDeny => Some Deny
  | FExternallyEnforced => None
  end.

Definition is_externally_enforced (d : FilesystemDecision) : bool :=
  match d with FExternallyEnforced => true | _ => false end.

(** [impl From<AccessMode> for FilesystemDecision] *)
Definition decision_of_access (m : AccessMode) : FilesystemDecision :=
  match m with Read => FRead | Write => FWrite | Deny => FDeny end.

(** * Errors *)

Inductive PolicyError :=
  | EmptyPath
  | ExpectedAbsolute (p : path)
  | ExpectedRelative (p : path)
  | PathContainsNul (p : path)
  | PParentTraversal (p : path)
  | InvalidDomainPattern (pattern : string)
  | ResolvedAddressMismatch (literal : string) (address : SocketAddr)
  | InvalidGlobPattern (pattern reason : string)
  | UnsupportedGlobAccess (access : AccessMode)
  | InvalidProtectedPath (p : path) (reason : string)
  | InvalidContext (message : string)
  | InvalidRule (message : string)
  | InvalidLocalIpcEndpoint (endpoint reason : string).

#[global] Instance PolicyError_eq_dec : EqDecision PolicyError.
Proof. solve_decision. Defined.

(** * The [globset] crate *)

(** The settings of [GlobBuilder] the sources choose. *)
Record GlobOptions := {
  go_case_insensitive : bool;
  go_literal_separator : bool;
  go_backslash_escape : bool
}.

(** [GlobBuilder::build], with the displayed error, and [GlobMatcher::is_match]. *)
Class Globset := {
  GlobMatcher : Type;
  glob_build : GlobOptions -> string -> result string GlobMatcher;
  is_match : GlobMatcher -> string -> bool
}.

(** The characters globset gives a meaning; a backslash is literal when escapes
    are off. *)
Definition glob_special (o : GlobOptions) (a : ascii) : bool :=
  bool_decide (a ∈ ["*"; "?"; "["; "]"; "{"; "}"]%char)
  || go_backslash_escape o && bool_decide (a = "\"%char).

(** Documented behaviour: a pattern without special characters builds, and its
    matcher accepts that text only, up to case when the option is set. *)
Class GlobsetLaws (G : Globset) : Prop := {
  glob_literal options pattern :
    str_any (glob_special options) pattern = false ->
    exists m, glob_build options pattern = Ok m /\
      forall text, is_match m text =
        if go_case_insensitive options then eq_ignore_ascii_case text pattern
        else bool_decide (text = pattern)
}.

(** A matcher for witnesses: [*] alone matches everything, other patterns
    match literally. *)
Definition literal_globset : Globset := {|
  GlobMatcher := GlobOptions * string;
  glob_build o p := Ok (o, p);
  is_match m text :=
    if String.eqb m.2 "*" then true
    else if go_case_insensitive m.1 then eq_ignore_ascii_case text m.2
    else bool_decide (text = m.2)
|}.

#[global] Instance literal_globset_laws : GlobsetLaws literal_globset.
Proof.
  split. intros o p Hp. exists (o, p). split; [done|]. intros text. simpl.
  destruct (String.eqb_spec p "*") as [->|]; [discriminate Hp|done].
Qed.

(** * Lemmas *)

#[global] Instance most_restrictive_comm : Comm (=) most_restrictive.
Proof. by intros [] []. Qed.
#[global] Instance most_restrictive_assoc : Assoc (=) most_restrictive.
Proof. by intros [] [] []. Qed.

Lemma most_restrictive_idemp m : most_restrictive m m = m.
Proof. by destruct m. Qed.

Lemma most_restrictive_Deny l r : most_restrictive l r = Deny <-> l = Deny \/ r = Deny.
Proof. destruct l, r; naive_solver. Qed.

(** The order of capabilities: [a] allows no more than [b]. *)
Definition access_le (a b : AccessMode) : bool :=
  match a, b with
  | Deny, _ | Read, Read | Read, Write | Write, Write => true
  | _, _ => false
  end.

#[global] Instance access_le_trans : Transitive (fun a b => access_le a b = true).
Proof. by intros [] [] []. Qed.

(** [most_restrictive] is the meet of the capability order: it allows exactly
    what both modes allow, and nothing more permissive is below both. *)
Theorem most_restrictive_meet (a b c : AccessMode) :
  can_read (most_restrictive a b) = can_read a && can_read b /\
  can_write (most_restrictive a b) = can_write a && can_write b /\
  access_le c (most_restrictive a b) = access_le c a && access_le c b /\
  (forall requested, requested <> Deny ->
     permits (most_restrictive a b) requested = permits a requested && permits b requested).
Proof. by destruct a, b, c; split_and!; try done; intros []. Qed.
