(* ===== verification/Selector.v ===== *)
(** [cageforge-policy]: filesystem selectors and globs ([path.rs]) and the
    runtime context that resolves them ([context.rs]). *)

From Stdlib Require Import Ascii String NArith Lia.
From stdpp Require Import base list strings option gmap sets.
From S2P Require Import Prelude Text NativePath Access.

(** * Selectors *)

Inductive PathSelectorKind :=
  | Absolute (p : path)
  | WorkspaceRoot (p : path)
  | Root
  | Minimal
  | Tmpdir
  | SlashTmp.

Record PathSelector := { ps_kind : PathSelectorKind }.

Definition contains_nul (p : path) : bool := contains_char NUL p.

Definition selector_absolute (p : path) : result PolicyError PathSelector :=
  reject bool_decide (p = "") with EmptyPath ;;
  reject contains_nul p with PathContainsNul p ;;
  reject negb (is_absolute p) with ExpectedAbsolute p ;;
  reject contains_parent_traversal p with PParentTraversal p ;;
  Ok {| ps_kind := Absolute p |}.

Definition selector_workspace_root : PathSelector := {| ps_kind := WorkspaceRoot "." |}.
Definition selector_root : PathSelector := {| ps_kind := Root |}.
Definition selector_minimal : PathSelector := {| ps_kind := Minimal |}.
Definition selector_tmpdir : PathSelector := {| ps_kind := Tmpdir |}.
Definition selector_slash_tmp : PathSelector := {| ps_kind := SlashTmp |}.

(** The component loop of [normalize_relative_path] *)
Fixpoint normalize_relative_loop (relative normalized : path) (cs : list Component) :
  result PolicyError path :=
  match cs with
  | [] => Ok normalized
  | CurDir :: cs' => normalize_relative_loop relative normalized cs'
  | Normal part :: cs' => normalize_relative_loop relative (path_join normalized part) cs'
  | ParentDir :: _ => Err (PParentTraversal relative)
  | RootDir :: _ | Prefix _ :: _ => Err (ExpectedRelative relative)
  end.

Definition normalize_relative_path (relative : path) : result PolicyError path :=
  reject bool_decide (relative = "") with EmptyPath ;;
  reject contains_nul relative with PathContainsNul relative ;;
  reject is_absolute relative with ExpectedRelative relative ;;
  normalized ← normalize_relative_loop relative "" (components relative);
  Ok (if bool_decide (normalized = "") then path_join normalized "." else normalized).

Definition selector_workspace (relative : path) : result PolicyError PathSelector :=
  normalized ← normalize_relative_path relative;
  Ok {| ps_kind := WorkspaceRoot normalized |}.

Definition selector_path (s : PathSelector) : option path :=
  match ps_kind s with
  | Absolute p | WorkspaceRoot p => Some p
  | Root | Minimal | Tmpdir | SlashTmp => None
  end.

Definition is_special (s : PathSelector) : bool :=
  match ps_kind s with Root | Minimal | Tmpdir | SlashTmp => true | _ => false end.
Definition is_workspace_scope (s : PathSelector) : bool :=
  match ps_kind s with WorkspaceRoot _ => true | _ => false end.
Definition is_root_scope (s : PathSelector) : bool :=
  match ps_kind s with Root => true | _ => false end.
Definition is_minimal_scope (s : PathSelector) : bool :=
  match ps_kind s with Minimal => true | _ => false end.
Definition is_tmpdir_scope (s : PathSelector) : bool :=
  match ps_kind s with Tmpdir => true | _ => false end.
Definition is_slash_tmp_scope (s : PathSelector) : bool :=
  match ps_kind s with SlashTmp => true | _ => false end.
Definition is_absolute_scope (s : PathSelector) : bool :=
  match ps_kind s with Absolute _ => true | _ => false end.

Definition is_definitely_outside (child parent : PathSelector) : bool :=
  match ps_kind child, ps_kind parent with
  | Absolute c, Absolute p | WorkspaceRoot c, WorkspaceRoot p => negb (is_within c p)
  | _, _ => false
  end.

Definition selectors_equal (left right : PathSelector) : bool :=
  match ps_kind left, ps_kind right with
  | Absolute l, Absolute r | WorkspaceRoot l, WorkspaceRoot r => paths_equal l r
  | Root, Root | Minimal, Minimal | Tmpdir, Tmpdir | SlashTmp, SlashTmp => true
  | _, _ => false
  end.

(** * The runtime context *)

#[global] Instance NativeComponentKey_countable : Countable NativeComponentKey.
Proof.
  refine (inj_countable'
    (fun k => match k with
              | KPrefix s => (0, s) | KRootDir => (1, "") | KCurDir => (2, "")
              | KParentDir => (3, "") | KNormal s => (4, s) end)
    (fun '(n, s) => match n with
                    | 0 => KPrefix s | 1 => KRootDir | 2 => KCurDir | 3 => KParentDir
                    | _ => KNormal s end) _).
  by intros [].
Defined.

Record PathResolutionContext := {
  root_paths : list path;
  root_keys : gset (list NativeComponentKey);
  workspace_roots : list path;
  workspace_root_keys : gset (list NativeComponentKey);
  minimal_paths : list path;
  minimal_path_keys : gset (list NativeComponentKey);
  executable_roots : list path;
  executable_root_keys : gset (list NativeComponentKey);
  tmpdir : option path;
  slash_tmp : option path;
  current_directory : option path
}.

Definition context_new : PathResolutionContext := {|
  root_paths := []; root_keys := ∅;
  workspace_roots := []; workspace_root_keys := ∅;
  minimal_paths := []; minimal_path_keys := ∅;
  executable_roots := []; executable_root_keys := ∅;
  tmpdir := None; slash_tmp := None; current_directory := None
|}.

Definition validated_absolute (p : path) : result PolicyError path :=
  selector ← selector_absolute p;
  ok_or (InvalidContext "absolute path validation returned a non-absolute selector")
    (selector_path selector).

(** [if keys.insert(key(path)) { paths.push(path) }] *)
Definition insert_keyed (p : path) (paths : list path) (keys : gset (list NativeComponentKey)) :
  list path * gset (list NativeComponentKey) :=
  let key := NativePathKey_new p in
  if bool_decide (key ∈ keys) then (paths, keys) else (paths ++ [p], {[key]} ∪ keys).

Definition with_root (c : PathResolutionContext) (p : path) :
  result PolicyError PathResolutionContext :=
  p ← validated_absolute p;
  let '(paths, keys) := insert_keyed p (root_paths c) (root_keys c) in
  Ok {| root_paths := paths; root_keys := keys;
        workspace_roots := workspace_roots c; workspace_root_keys := workspace_root_keys c;
        minimal_paths := minimal_paths c; minimal_path_keys := minimal_path_keys c;
        executable_roots := executable_roots c; executable_root_keys := executable_root_keys c;
        tmpdir := tmpdir c; slash_tmp := slash_tmp c; current_directory := current_directory c |}.

Definition with_workspace_root (c : PathResolutionContext) (p : path) :
  result PolicyError PathResolutionContext :=
  p ← validated_absolute p;
  let '(paths, keys) := insert_keyed p (workspace_roots c) (workspace_root_keys c) in
  Ok {| root_paths := root_paths c; root_keys := root_keys c;
        workspace_roots := paths; workspace_root_keys := keys;
        minimal_paths := minimal_paths c; minimal_path_keys := minimal_path_keys c;
        executable_roots := executable_roots c; executable_root_keys := executable_root_keys c;
        tmpdir := tmpdir c; slash_tmp := slash_tmp c; current_directory := current_directory c |}.

Definition with_minimal_path (c : PathResolutionContext) (p : path) :
  result PolicyError PathResolutionContext :=
  p ← validated_absolute p;
  let '(paths, keys) := insert_keyed p (minimal_paths c) (minimal_path_keys c) in
  Ok {| root_paths := root_paths c; root_keys := root_keys c;
        workspace_roots := workspace_roots c; workspace_root_keys := workspace_root_keys c;
        minimal_paths := paths; minimal_path_keys := keys;
        executable_roots := executable_roots c; executable_root_keys := executable_root_keys c;
        tmpdir := tmpdir c; slash_tmp := slash_tmp c; current_directory := current_directory c |}.

Definition with_executable_root (c : PathResolutionContext) (p : path) :
  result PolicyError PathResolutionContext :=
  p ← validated_absolute p;
  let '(paths, keys) := insert_keyed p (executable_roots c) (executable_root_keys c) in
  Ok {| root_paths := root_paths c; root_keys := root_keys c;
        workspace_roots := workspace_roots c; workspace_root_keys := workspace_root_keys c;
        minimal_paths := minimal_paths c; minimal_path_keys := minimal_path_keys c;
        executable_roots := paths; executable_root_keys := keys;
        tmpdir := tmpdir c; slash_tmp := slash_tmp c; current_directory := current_directory c |}.

Definition with_tmpdir (c : PathResolutionContext) (p : path) :
  result PolicyError PathResolutionContext :=
  p ← validated_absolute p;
  Ok {| root_paths := root_paths c; root_keys := root_keys c;
        workspace_roots := workspace_roots c; workspace_root_keys := workspace_root_keys c;
        minimal_paths := minimal_paths c; minimal_path_keys := minimal_path_keys c;
        executable_roots := executable_roots c; executable_root_keys := executable_root_keys c;
        tmpdir := Some p; slash_tmp := slash_tmp c; current_directory := current_directory c |}.

Definition with_slash_tmp (c : PathResolutionContext) (p : path) :
  result PolicyError PathResolutionContext :=
  p ← validated_absolute p;
  Ok {| root_paths := root_paths c; root_keys := root_keys c;
        workspace_roots := workspace_roots c; workspace_root_keys := workspace_root_keys c;
        minimal_paths := minimal_paths c; minimal_path_keys := minimal_path_keys c;
        executable_roots := executable_roots c; executable_root_keys := executable_root_keys c;
        tmpdir := tmpdir c; slash_tmp := Some p; current_directory := current_directory c |}.

Definition with_current_directory (c : PathResolutionContext) (p : path) :
  result PolicyError PathResolutionContext :=
  p ← validated_absolute p;
  Ok {| root_paths := root_paths c; root_keys := root_keys c;
        workspace_roots := workspace_roots c; workspace_root_keys := workspace_root_keys c;
        minimal_paths := minimal_paths c; minimal_path_keys := minimal_path_keys c;
        executable_roots := executable_roots c; executable_root_keys := executable_root_keys c;
        tmpdir := tmpdir c; slash_tmp := slash_tmp c; current_directory := Some p |}.

(** [PathSelector::resolve] *)
Definition resolve (s : PathSelector) (c : PathResolutionContext) : list path :=
  match ps_kind s with
  | Absolute p => [p]
  | WorkspaceRoot relative => (fun root => path_join root relative) <$> workspace_roots c
  | Root => root_paths c
  | Minimal => minimal_paths c
  | Tmpdir => option_list (tmpdir c)
  | SlashTmp => option_list (slash_tmp c)
  end.

Definition normal_component_count (p : path) : nat :=
  length (filter (fun c => match c with Normal _ => true | _ => false end = true) (components p)).

(** * Invariants of validated paths and contexts *)

(** What [PathSelector::absolute] accepts. *)
Definition valid_absolute (p : path) : Prop :=
  is_absolute p = true /\ contains_nul p = false /\ contains_parent_traversal p = false.

Lemma selector_absolute_Ok p s :
  selector_absolute p = Ok s <-> valid_absolute p /\ s = {| ps_kind := Absolute p |}.
Proof.
  unfold selector_absolute, valid_absolute. split.
  - intros H. res_inv. bool_inv. done.
  - intros [(Ha & Hn & Ht) ->]. rewrite bool_decide_eq_false_2 by by intros ->.
    by rewrite Hn, Ha, Ht.
Qed.

Lemma validated_absolute_Ok p q : validated_absolute p = Ok q <-> valid_absolute p /\ q = p.
Proof.
  unfold validated_absolute. split.
  - intros H. res_inv. apply selector_absolute_Ok in H0 as [Hv ->].
    cbn in H. injection H as <-. done.
  - intros [Hv ->]. by rewrite (proj2 (selector_absolute_Ok p _) (conj Hv eq_refl)).
Qed.

(** A deduplicated list of validated paths with its key set. *)
Definition keyed_paths (paths : list path) (keys : gset (list NativeComponentKey)) : Prop :=
  Forall valid_absolute paths /\ NoDup (NativePathKey_new <$> paths) /\
  forall k, k ∈ keys <-> k ∈ NativePathKey_new <$> paths.

Definition option_valid (o : option path) : Prop :=
  match o with Some p => valid_absolute p | None => True end.

Lemma option_valid_Forall o : option_valid o -> Forall valid_absolute (option_list o).
Proof. destruct o; simpl; auto. Qed.

Definition context_wf (c : PathResolutionContext) : Prop :=
  keyed_paths (root_paths c) (root_keys c) /\
  keyed_paths (workspace_roots c) (workspace_root_keys c) /\
  keyed_paths (minimal_paths c) (minimal_path_keys c) /\
  keyed_paths (executable_roots c) (executable_root_keys c) /\
  option_valid (tmpdir c) /\ option_valid (slash_tmp c) /\ option_valid (current_directory c).

Lemma keyed_paths_nil : keyed_paths [] ∅.
Proof. split_and!; [constructor|constructor|]. intros k. set_solver. Qed.

Lemma insert_keyed_wf p paths keys paths' keys' :
  valid_absolute p -> keyed_paths paths keys ->
  insert_keyed p paths keys = (paths', keys') -> keyed_paths paths' keys'.
Proof.
  unfold insert_keyed. intros Hp (Hf & Hn & Hk). case_bool_decide as Hin; intros [= <- <-]; [done|].
  rewrite Hk in Hin. split_and!.
  - apply Forall_app; auto.
  - rewrite fmap_app. apply NoDup_app. split_and!; [done| |apply NoDup_singleton].
    intros x Hx Hx'. apply list_elem_of_singleton in Hx' as ->. done.
  - intros k. rewrite fmap_app, elem_of_union, elem_of_app, elem_of_singleton, Hk.
    simpl. rewrite list_elem_of_singleton. tauto.
Qed.

(** The contexts a harness can build. *)
Inductive context_built : PathResolutionContext -> Prop :=
  | built_new : context_built context_new
  | built_root c p c' : context_built c -> with_root c p = Ok c' -> context_built c'
  | built_workspace c p c' : context_built c -> with_workspace_root c p = Ok c' -> context_built c'
  | built_minimal c p c' : context_built c -> with_minimal_path c p = Ok c' -> context_built c'
  | built_executable c p c' : context_built c -> with_executable_root c p = Ok c' -> context_built c'
  | built_tmpdir c p c' : context_built c -> with_tmpdir c p = Ok c' -> context_built c'
  | built_slash_tmp c p c' : context_built c -> with_slash_tmp c p = Ok c' -> context_built c'
  | built_current c p c' : context_built c -> with_current_directory c p = Ok c' -> context_built c'.

(** One builder step on a validated path. *)
Ltac context_step :=
  match goal with
  | H : _ = Ok ?c |- context_wf ?c =>
      let Hv := fresh "Hv" in let q := fresh "q" in
      unfold with_root, with_workspace_root, with_minimal_path, with_executable_root,
        with_tmpdir, with_slash_tmp, with_current_directory in H;
      apply bind_Ok in H as (q & Hv & H); apply validated_absolute_Ok in Hv as [Hv ->];
      repeat match type of H with
             | context [insert_keyed ?p ?l ?k] =>
                 let E := fresh "E" in destruct (insert_keyed p l k) eqn:E
             end;
      injection H as <-; unfold context_wf in *; simpl; destruct_and!; split_and!;
      eauto using insert_keyed_wf
  end.

Lemma context_built_wf c : context_built c -> context_wf c.
Proof.
  induction 1; [|context_step..].
  unfold context_wf. simpl. split_and!; auto using keyed_paths_nil.
Qed.

(** Every context a harness can build holds only absolute, NUL-free,
    traversal-free paths, keeps each of its four path lists free of lexical
    duplicates, and keeps each key set equal to the keys of its list. *)
Theorem context_builders_invariant (c : PathResolutionContext) :
  context_built c ->
  Forall valid_absolute
    (root_paths c ++ workspace_roots c ++ minimal_paths c ++ executable_roots c
     ++ option_list (tmpdir c) ++ option_list (slash_tmp c) ++ option_list (current_directory c)) /\
  NoDup (NativePathKey_new <$> workspace_roots c) /\
  NoDup (NativePathKey_new <$> root_paths c) /\
  (forall p c', with_workspace_root c p = Ok c' ->
     workspace_roots c' = workspace_roots c
       /\ existsb (paths_equal p) (workspace_roots c) = true \/
     workspace_roots c' = workspace_roots c ++ [p]
       /\ existsb (paths_equal p) (workspace_roots c) = false).
Proof.
  intros (Hr & Hw & Hm & He & Ht & Hs & Hc)%context_built_wf.
  destruct Hr as (? & ? & _), Hw as (? & ? & Hk), Hm as (? & _), He as (? & _). split_and!.
  - rewrite !Forall_app. auto 10 using option_valid_Forall.
  - done.
  - done.
  - intros p c' H'. unfold with_workspace_root in H'. res_inv.
    apply validated_absolute_Ok in H'0 as [_ ->]. unfold insert_keyed in H'.
    assert (NativePathKey_new p ∈ workspace_root_keys c <->
            existsb (paths_equal p) (workspace_roots c) = true) as Heq.
    { rewrite Hk, existsb_elem, list_elem_of_fmap.
      setoid_rewrite paths_equal_true. setoid_rewrite NativePathKey_new_eq.
      split; intros (x & Hx & Hx'); exists x; split; try done; [|by rewrite Hx'].
      by apply (inj (fmap component_key)) in Hx. }
    case_bool_decide as Hin; res_inv; simpl.
    + left. split; [done|]. by apply Heq.
    + right. split; [done|]. by rewrite <- not_true_iff_false, <- Heq.
Qed.

Lemma context_builders_invariant_witness :
  exists c, context_built c /\ workspace_roots c = ["/work"; "/tmp/b"] /\
            NoDup (NativePathKey_new <$> workspace_roots c).
Proof.
  eassert (context_built _) as Hb.
  { eapply built_workspace with (p := "/work/./");
      [eapply built_workspace with (p := "/tmp/b");
         [apply (built_workspace context_new "/work"); [constructor|]|]|]; reflexivity. }
  eexists. split; [exact Hb|]. split; [reflexivity|].
  exact (proj1 (proj2 (context_builders_invariant _ Hb))).
Defined.

(** * Selectors resolve to validated paths *)

Lemma normalize_relative_loop_Ok relative normalized cs r :
  Forall (fun c => c = CurDir \/ tail_component c) cs ->
  is_absolute normalized = false ->
  normalize_relative_loop relative normalized cs = Ok r ->
  is_absolute r = false /\
  lexical_components r = lexical_components normalized ++ filter (fun c => not_cur_dir c = true) cs /\
  ParentDir ∉ cs.
Proof.
  intros Hcs. revert normalized. induction Hcs as [|c cs Hc _ IH]; intros n Hn H; simpl in H.
  { res_inv. split_and!; [done|by rewrite app_nil_r|set_solver]. }
  destruct c as [s| | | |s]; try done.
  - rewrite filter_cons_False by done. apply IH in H as (? & ? & ?); [|done]. set_solver.
  - destruct Hc as [|(Hs1 & Hs2 & Hs3 & Hs4)]; [done|].
    rewrite filter_cons_True by done.
    destruct (lexical_components_name s) as [Hs Hl]; [done|].
    apply IH in H as (Hr & -> & Hp).
    + split_and!; [done| |set_solver]. rewrite lexical_components_join by done.
      rewrite <- app_assoc. f_equal. by rewrite Hl.
    + unfold path_join. rewrite Hs. case_bool_decide; simpl; [by subst|].
      destruct (ends_with_char SEP n); rewrite is_absolute_app; auto.
Qed.

(** The names pushed hold no NUL, so the result holds none. *)
Lemma normalize_relative_loop_nul relative normalized cs r :
  contains_nul normalized = false -> Forall (fun s => contains_nul s = false) (names cs) ->
  normalize_relative_loop relative normalized cs = Ok r -> contains_nul r = false.
Proof.
  revert normalized. induction cs as [|[s| | | |s] cs IH]; intros n Hn Hs H; simpl in *; res_inv; eauto.
  inversion Hs; subst. eapply IH; [|done|exact H]. by apply path_join_contains.
Qed.

Lemma normalize_relative_loop_total relative normalized cs :
  Forall (fun c => c = CurDir \/ tail_component c) cs -> ParentDir ∉ cs ->
  exists r, normalize_relative_loop relative normalized cs = Ok r.
Proof.
  intros Hcs. revert normalized. induction Hcs as [|c cs Hc _ IH]; intros n Hp; [by eexists|].
  destruct c as [s| | | |s]; simpl; try (by destruct Hc); try (apply IH; set_solver). set_solver.
Qed.

(** The components of a relative path. *)
Lemma components_relative p :
  is_absolute p = false -> Forall (fun c => c = CurDir \/ tail_component c) (components p).
Proof.
  intros Hp. destruct (components_cases p) as (cs & Hcs & [[_ ?]|[[-> _]|[-> _]]]); [congruence| |].
  - constructor; [by left|]. eapply Forall_impl; [exact Hcs|auto].
  - eapply Forall_impl; [exact Hcs|auto].
Qed.

Lemma names_components p : names (components p) = names (lexical_components p).
Proof.
  unfold lexical_components. induction (components p) as [|[] cs IH]; [done|..].
  all: first [rewrite filter_cons_True by done|rewrite filter_cons_False by done].
  all: first [exact IH|cbn; f_equal; exact IH].
Qed.

Lemma normalize_relative_path_Ok p r :
  normalize_relative_path p = Ok r ->
  is_absolute r = false /\ lexical_components r = lexical_components p /\
  contains_parent_traversal r = false /\ contains_nul r = false.
Proof.
  unfold normalize_relative_path. intros H. res_inv. clear G.
  pose proof (components_relative p G1) as Hcs.
  assert (contains_nul a = false) as Hnul.
  { eapply normalize_relative_loop_nul; [| |exact H0]; [done|]. rewrite names_components.
    by apply names_pieces, str_split_contains. }
  apply normalize_relative_loop_Ok in H0 as (Ha & Hl & Hp); [|done..].
  change (lexical_components "") with (@nil Component) in Hl.
  change (lexical_components a = lexical_components p) in Hl.
  rewrite contains_parent_traversal_lexical.
  assert (lexical_components (if bool_decide (a = "") then path_join a "." else a)
          = lexical_components p) as ->.
  { case_bool_decide; [subst a; rewrite <- Hl; reflexivity|exact Hl]. }
  split_and!; [by case_bool_decide; subst|done| |by case_bool_decide; subst].
  apply existsb_elem_false. intros c Hc. apply bool_decide_eq_false. intros ->.
  apply Hp. unfold lexical_components in Hc. by apply list_elem_of_filter in Hc as [_ ?].
Qed.

(** The selectors the constructors produce. *)
Definition selector_wf (s : PathSelector) : Prop :=
  match ps_kind s with
  | Absolute p => valid_absolute p
  | WorkspaceRoot r =>
      is_absolute r = false /\ contains_parent_traversal r = false /\ contains_nul r = false
  | _ => True
  end.

Lemma selector_workspace_wf p s : selector_workspace p = Ok s -> selector_wf s.
Proof.
  unfold selector_workspace. intros H. res_inv.
  apply normalize_relative_path_Ok in H0 as (? & _ & ? & ?). done.
Qed.

(** Spellings of one selector resolve to spellings of the same paths. *)
Lemma selectors_equal_resolve l r c :
  selector_wf l -> selector_wf r -> selectors_equal l r = true ->
  lexical_components <$> resolve l c = lexical_components <$> resolve r c.
Proof.
  destruct l as [[]], r as [[]]; simpl; try done; unfold selectors_equal, resolve, selector_wf; simpl.
  - intros _ _ ->%paths_equal_true. done.
  - intros [Hl _] [Hr _] Heq%paths_equal_true. rewrite <- !list_fmap_compose.
    apply list_fmap_ext. intros _ x _. simpl. by rewrite !lexical_components_join, Heq.
Qed.

Lemma valid_absolute_join root r :
  valid_absolute root -> is_absolute r = false -> contains_parent_traversal r = false ->
  contains_nul r = false -> valid_absolute (path_join root r).
Proof.
  intros (Ha & Hn & Ht) Hra Hrt Hrn. split_and!.
  - rewrite is_absolute_lexical in *. rewrite lexical_components_join by done.
    by destruct (lexical_components root).
  - by apply path_join_contains.
  - rewrite contains_parent_traversal_lexical in *. rewrite lexical_components_join by done.
    by rewrite existsb_app, Ht, Hrt.
Qed.

(** A selector resolves to validated paths only. *)
Lemma resolve_valid s c : context_wf c -> selector_wf s -> Forall valid_absolute (resolve s c).
Proof.
  intros ((Hr & _) & (Hw & _) & (Hm & _) & _ & Ht & Hs & _) Hwf.
  destruct s as [[]]; unfold resolve, selector_wf in *; simpl in *;
    auto using option_valid_Forall.
  destruct Hwf as (? & ? & ?). apply Forall_fmap. eapply Forall_impl; [exact Hw|].
  intros x Hx. by apply valid_absolute_join.
Qed.

Lemma normal_component_count_names p :
  normal_component_count p = length (names (lexical_components p)).
Proof.
  rewrite <- names_components. unfold normal_component_count.
  induction (components p) as [|[] cs IH]; [done|..];
    first [rewrite filter_cons_True by done|rewrite filter_cons_False by done];
    first [exact IH|cbn; f_equal; exact IH].
Qed.

#[global] Instance selectors_equal_equiv : Equivalence (fun s t => selectors_equal s t = true).
Proof.
  split.
  - intros [[]]; unfold selectors_equal; simpl; try done; by apply paths_equal_true.
  - intros [[]] [[]]; unfold selectors_equal; simpl; try done; rewrite !paths_equal_true; done.
  - intros [[]] [[]] [[]]; unfold selectors_equal; simpl; try done;
      rewrite !paths_equal_true; congruence.
Qed.
