(* ===== verification/PathPattern.v ===== *)
(** [cageforge-policy]: validated path globs, [PathPattern] of [path.rs].  The
    component matcher of the code, a row-by-row dynamic program, is proved
    equivalent to the declarative meaning of a component glob. *)

From Stdlib Require Import Ascii String NArith Lia.
From stdpp Require Import base list strings option gmap sets.
From S2P Require Import Prelude Text NativePath Access Selector.

Section pattern.
Context {G : Globset}.

Record PathPattern := {
  raw : string;
  pp_absolute : bool;
  pp_prefix : option string;
  pp_components : list string;
  matchers : list GlobMatcher
}.

Definition component_options : GlobOptions := {|
  go_case_insensitive := false;
  go_literal_separator := true;
  go_backslash_escape := false
|}.

Definition compile_glob_component (component pattern : string) : result PolicyError GlobMatcher :=
  map_err (fun error => InvalidGlobPattern pattern ("invalid glob syntax: " +:+ error))
    (glob_build component_options (case_fold component)).

(** The component loop of [PathPattern::new] *)
Fixpoint pattern_loop (raw : string) (prefix : option string) (comps : list string)
    (ms : list GlobMatcher) (cs : list Component) :
  result PolicyError (option string * list string * list GlobMatcher) :=
  match cs with
  | [] => Ok (prefix, comps, ms)
  | Prefix value :: cs' => pattern_loop raw (Some (to_string_lossy value)) comps ms cs'
  | RootDir :: cs' | CurDir :: cs' => pattern_loop raw prefix comps ms cs'
  | ParentDir :: _ => Err (InvalidGlobPattern raw "parent traversal is not allowed")
  | Normal value :: cs' =>
      let component := to_string_lossy value in
      matcher ← compile_glob_component component raw;
      pattern_loop raw prefix (comps ++ [component]) (ms ++ [matcher]) cs'
  end.

Definition pattern_new (raw : string) (absolute : bool) : result PolicyError PathPattern :=
  reject bool_decide (trim raw = "") with InvalidGlobPattern raw "pattern cannot be empty" ;;
  reject contains_char NUL raw
    with InvalidGlobPattern raw "pattern cannot contain a NUL character" ;;
  let path := normalize_lexical_path raw in
  reject absolute && negb (is_absolute path)
    with InvalidGlobPattern raw "absolute glob must use a native absolute path" ;;
  reject negb absolute && is_absolute path
    with InvalidGlobPattern raw "workspace glob must be relative" ;;
  parts ← pattern_loop raw None [] [] (components path);
  let '(prefix, comps, ms) := parts in
  reject bool_decide (comps = [])
    with InvalidGlobPattern raw "pattern must contain at least one component" ;;
  Ok {| raw := raw; pp_absolute := absolute; pp_prefix := prefix;
        pp_components := comps; matchers := ms |}.

Definition pattern_absolute (pattern : string) : result PolicyError PathPattern :=
  pattern_new pattern true.
Definition pattern_workspace (pattern : string) : result PolicyError PathPattern :=
  pattern_new pattern false.

Definition glob_meta (a : ascii) : bool :=
  bool_decide (a ∈ ["*"; "?"; "["; "]"; "{"; "}"]%char).

Definition contains_glob_meta (component : string) : bool := str_any glob_meta component.

(** The component loop of [PathPattern::literal_prefix]; [break] ends it. *)
Fixpoint literal_prefix_loop (prefix : path) (cs : list Component) : path :=
  match cs with
  | [] => prefix
  | Prefix value :: cs' => literal_prefix_loop (path_join prefix value) cs'
  | RootDir :: cs' => literal_prefix_loop (path_join prefix "/") cs'
  | CurDir :: cs' => literal_prefix_loop prefix cs'
  | ParentDir :: _ => prefix
  | Normal value :: cs' =>
      let value := to_string_lossy value in
      if contains_glob_meta value then prefix
      else literal_prefix_loop (path_join prefix value) cs'
  end.

Definition literal_prefix (p : PathPattern) : path :=
  literal_prefix_loop "" (components (normalize_lexical_path (raw p))).

Definition prefixes_equal (left right : option string) : bool :=
  match left, right with
  | Some l, Some r => strings_equal l r
  | None, None => true
  | _, _ => false
  end.

Fixpoint path_components_loop (prefix : option string) (comps : list string)
    (cs : list Component) : option string * list string :=
  match cs with
  | [] => (prefix, comps)
  | Prefix value :: cs' => path_components_loop (Some (to_string_lossy value)) comps cs'
  | RootDir :: cs' | CurDir :: cs' | ParentDir :: cs' => path_components_loop prefix comps cs'
  | Normal value :: cs' => path_components_loop prefix (comps ++ [to_string_lossy value]) cs'
  end.

Definition path_components (p : path) : option string * list string :=
  path_components_loop None [] (components (normalize_lexical_path p)).

Definition relative_path_components (p root : path) : option (list string) :=
  let '(path_prefix, path_parts) := path_components p in
  let '(root_prefix, root_components) := path_components root in
  if negb (prefixes_equal path_prefix root_prefix)
     || (length path_parts <? length root_components)%nat
     || negb (forallb (fun '(r, q) => strings_equal q r) (zip root_components path_parts))
  then None
  else Some (drop (length root_components) path_parts).

Definition glob_component_matches (m : GlobMatcher) (component : string) : bool :=
  is_match m component.

(** [next[0] = current[0]; next[i] = current[i] || next[i - 1]] *)
Fixpoint row_star (before : bool) (current : list bool) : list bool :=
  match current with
  | [] => []
  | c :: rest => (c || before) :: row_star (c || before) rest
  end.

(** [next[0] = false; next[i] = current[i - 1] && matches(path[i - 1])] *)
Definition row_one (m : GlobMatcher) (path : list string) (current : list bool) : list bool :=
  false :: zip_with (fun c component => c && glob_component_matches m component) current path.

(** The loop over the pattern.  The matchers are consumed with the components
    they were compiled from; [PathPattern] keeps the two lists aligned. *)
Fixpoint glob_rows (pattern : list string) (ms : list GlobMatcher) (path : list string)
    (current : list bool) : list bool :=
  match pattern, ms with
  | component :: pattern', m :: ms' =>
      glob_rows pattern' ms' path
        (if bool_decide (component = "**") then row_star false current
         else row_one m path current)
  | _, _ => current
  end.

Definition glob_components_match (pattern : list string) (ms : list GlobMatcher)
    (path : list string) : bool :=
  default false
    (glob_rows pattern ms path (true :: replicate (length path) false) !! length path).

(** [PathPattern::matches] *)
Definition pattern_matches (pat : PathPattern) (p : path) (c : PathResolutionContext) : bool :=
  if pp_absolute pat then
    let '(prefix, comps) := path_components p in
    is_absolute p && prefixes_equal prefix (pp_prefix pat)
    && glob_components_match (pp_components pat) (matchers pat) comps
  else
    existsb (fun root =>
      match relative_path_components p root with
      | Some comps => glob_components_match (pp_components pat) (matchers pat) comps
      | None => false
      end) (workspace_roots c).

Definition pattern_specificity (pat : PathPattern) : nat :=
  length (filter (fun component => contains_glob_meta component = false) (pp_components pat)).

Definition semantic_key (pat : PathPattern) : bool * option string * list string :=
  (pp_absolute pat, case_fold <$> pp_prefix pat, case_fold <$> pp_components pat).

(** [impl PartialEq for PathPattern] *)
Definition pattern_eqb (p q : PathPattern) : bool :=
  bool_decide (semantic_key p = semantic_key q).

End pattern.

(** * The meaning of a component glob *)

Section glob_meaning.
Context {G : Globset}.
Implicit Types (ps : list (string * GlobMatcher)) (path : list string).

(** [**] stands for any number of components, every other component for one. *)
Inductive glob_match : list (string * GlobMatcher) -> list string -> Prop :=
  | match_nil : glob_match [] []
  | match_star_end m ps path : glob_match ps path -> glob_match (("**", m) :: ps) path
  | match_star_more m ps c path :
      glob_match (("**", m) :: ps) path -> glob_match (("**", m) :: ps) (c :: path)
  | match_one p m ps c path :
      p <> "**" -> is_match m c = true -> glob_match ps path ->
      glob_match ((p, m) :: ps) (c :: path).

Lemma glob_match_nil_inv path : glob_match [] path -> path = [].
Proof. by inversion 1. Qed.

Lemma glob_match_star m ps path :
  glob_match (("**", m) :: ps) path <-> exists k, k <= length path /\ glob_match ps (drop k path).
Proof.
  split.
  - remember (("**", m) :: ps) as ps0 eqn:E. induction 1; simplify_eq.
    + exists 0. rewrite drop_0. auto with lia.
    + destruct IHglob_match as (k & ? & ?); [done|]. exists (S k). simpl. auto with lia.
  - intros (k & Hk & H). revert path Hk H. induction k as [|k IH]; intros path Hk H.
    + rewrite drop_0 in H. by constructor.
    + destruct path as [|c path]; simpl in *; [lia|]. apply match_star_more, IH; [lia|done].
Qed.

Lemma glob_match_one p m ps path :
  p <> "**" ->
  glob_match ((p, m) :: ps) path <->
  exists c path', path = c :: path' /\ is_match m c = true /\ glob_match ps path'.
Proof.
  intros Hp. split; [inversion 1; simplify_eq; eauto|].
  intros (c & path' & -> & ? & ?). by constructor.
Qed.

(** Position [i] of a row says that the pattern read so far matches the first
    [i] components. *)
Definition row_accepts ps path (row : list bool) : Prop :=
  exists i, i <= length path /\ row !! i = Some true /\ glob_match ps (drop i path).

Lemma row_star_lookup before row j :
  j < length row ->
  row_star before row !! j = Some true <->
  before = true \/ exists i, i <= j /\ row !! i = Some true.
Proof.
  revert before j; induction row as [|c row IH]; intros before j Hj; simpl in *; [lia|].
  destruct j as [|j]; simpl.
  - split.
    + intros [= [->| ->]%orb_true_iff]; [right; by exists 0|by left].
    + intros [->|(i & Hi & Hc)]; [by rewrite orb_true_r|].
      assert (i = 0) as -> by lia. simpl in Hc. by simplify_eq.
  - rewrite IH by lia. split.
    + intros [[->| ->]%orb_true_iff|(i & Hi & Hc)];
        [right; exists 0; auto with lia|by left|right; exists (S i); auto with lia].
    + intros [->|([|i] & Hi & Hc)]; simpl in *; simplify_eq; auto using orb_true_r.
      right. exists i. auto with lia.
Qed.

Lemma row_star_length before row : length (row_star before row) = length row.
Proof. revert before; induction row as [|c row IH]; intros b; simpl; [done|by rewrite IH]. Qed.

Lemma row_one_length m path row :
  length row = S (length path) -> length (row_one m path row) = S (length path).
Proof. intros H. unfold row_one. simpl. rewrite length_zip_with. lia. Qed.

Lemma row_star_accepts m ps path row :
  length row = S (length path) ->
  row_accepts (("**", m) :: ps) path row <-> row_accepts ps path (row_star false row).
Proof.
  intros Hlen. unfold row_accepts. split.
  - intros (i & Hi & Hr & (k & Hk & Hm)%glob_match_star). rewrite length_drop in Hk.
    exists (i + k). rewrite drop_drop in Hm. split_and!; [lia| |by rewrite Nat.add_comm in *].
    apply row_star_lookup; [lia|]. right. exists i. auto with lia.
  - intros (j & Hj & [?|(i & Hi & Hr)]%row_star_lookup & Hm); [done| |lia].
    exists i. split_and!; [lia|done|]. apply glob_match_star. exists (j - i).
    rewrite length_drop, drop_drop. split; [lia|]. by replace (i + (j - i)) with j by lia.
Qed.

Lemma row_one_accepts p m ps path row :
  p <> "**" -> length row = S (length path) ->
  row_accepts ((p, m) :: ps) path row <-> row_accepts ps path (row_one m path row).
Proof.
  intros Hp Hlen. unfold row_accepts. setoid_rewrite (glob_match_one p m ps); [|done]. split.
  - intros (i & Hi & Hr & c & path' & Hd & Hc & Hm). exists (S i).
    assert (path !! i = Some c) as Hpi by by rewrite <- (Nat.add_0_r i), <- lookup_drop, Hd.
    split_and!.
    + apply lookup_lt_Some in Hpi. lia.
    + unfold row_one. simpl. rewrite lookup_zip_with, Hr. simpl. rewrite Hpi. simpl.
      unfold glob_component_matches. by rewrite Hc.
    + replace (S i) with (i + 1) by lia. by rewrite <- drop_drop, Hd.
  - intros (j & Hj & Hr & Hm). unfold row_one in Hr. destruct j as [|j]; simpl in Hr; [done|].
    rewrite lookup_zip_with in Hr. destruct (row !! j) as [b|] eqn:Hb; simpl in Hr; [|done].
    destruct (path !! j) as [c|] eqn:Hc; simpl in Hr; [|done].
    injection Hr as [-> Hcm]%andb_true_iff. exists j. split_and!; [lia|done|].
    exists c, (drop (S j) path). split_and!; [by apply drop_S|done|done].
Qed.

Lemma glob_rows_accepts pattern ms path row :
  length pattern = length ms -> length row = S (length path) ->
  default false (glob_rows pattern ms path row !! length path) = true <->
  row_accepts (zip pattern ms) path row.
Proof.
  revert ms row; induction pattern as [|p pattern IH]; intros [|m ms] row Hlen Hrow; try done.
  - simpl. unfold row_accepts. split.
    + destruct (row !! length path) as [[]|] eqn:E; try done. intros _.
      exists (length path). rewrite drop_all. eauto using match_nil.
    + intros (i & Hi & Hr & Hm). apply glob_match_nil_inv in Hm as Hd.
      assert (i = length path) as ->; [|by rewrite Hr].
      apply (f_equal length) in Hd. rewrite length_drop in Hd. simpl in Hd. lia.
  - simpl in Hlen |- *. case_bool_decide as Hp.
    + subst p. rewrite IH, <- row_star_accepts; rewrite ?row_star_length; auto with lia.
    + rewrite IH, <- row_one_accepts; auto using row_one_length with lia.
Qed.

(** C21. The dynamic program of [glob_components_match] decides the declarative
    meaning of a component glob: [**] spans any number of path components and
    every other component is matched against exactly one. *)
Theorem glob_components_match_spec (pattern : list string) (ms : list GlobMatcher)
    (path : list string) :
  length pattern = length ms ->
  glob_components_match pattern ms path = true <-> glob_match (zip pattern ms) path.
Proof.
  intros Hlen. unfold glob_components_match. rewrite glob_rows_accepts;
    [|done|by simpl; rewrite length_replicate]. unfold row_accepts. split.
  - intros ([|i] & Hi & Hr & Hm); [by rewrite drop_0 in Hm|]. simpl in Hr.
    apply lookup_replicate in Hr as [? _]. done.
  - intros Hm. exists 0. rewrite drop_0. auto with lia.
Qed.

End glob_meaning.

Lemma glob_components_match_spec_witness :
  let ms := [(component_options, "a"); (component_options, "**"); (component_options, "b")] in
  glob_match (G := literal_globset) (zip ["a"; "**"; "b"] ms) ["a"; "x"; "y"; "b"] /\
  glob_components_match (G := literal_globset) ["a"; "**"; "b"] ms ["a"; "x"; "y"; "c"] = false.
Proof.
  split; [|reflexivity].
  apply (glob_components_match_spec (G := literal_globset)); reflexivity.
Defined.

(** * Validated patterns *)

Section validated.
Context {G : Globset}.

(** What [PathPattern::new] establishes: the components are the names of the
    pattern text, and each matcher was compiled from its component. *)
Definition pattern_wf (pat : PathPattern) : Prop :=
  is_absolute (raw pat) = pp_absolute pat /\ contains_parent_traversal (raw pat) = false /\
  pp_prefix pat = None /\
  pp_components pat = to_string_lossy <$> names (lexical_components (raw pat)) /\
  pp_components pat <> [] /\
  Forall2 (fun c m => glob_build component_options c = Ok m) (pp_components pat) (matchers pat).

Lemma pattern_loop_Ok raw cs comps ms prefix comps' ms' :
  Forall tail_component cs ->
  pattern_loop raw None comps ms cs = Ok (prefix, comps', ms') ->
  prefix = None /\ existsb (fun c => bool_decide (c = ParentDir)) cs = false /\
  exists new, comps' = comps ++ (to_string_lossy <$> names cs) /\ ms' = ms ++ new /\
    Forall2 (fun c m => glob_build component_options c = Ok m) (to_string_lossy <$> names cs) new.
Proof.
  intros Hcs. revert comps ms. induction Hcs as [|c cs Hc _ IH]; intros comps ms H; simpl in H.
  { injection H as <- <- <-. split_and!; [done..|]. exists []. by rewrite !app_nil_r. }
  destruct c; try done. res_inv.
  apply IH in H as (-> & Hp & new & -> & -> & Hf). split_and!; [done|simpl; done|].
  exists (a :: new). simpl. rewrite <- !app_assoc. split_and!; [done..|].
  unfold compile_glob_component in H0. res_inv. by constructor.
Qed.

(** The components of a normalized path, root and tail. *)
Lemma components_normalize_parts p :
  components (normalize_lexical_path p) = root_part p ++ body_part p.
Proof. rewrite components_normalize. apply lexical_components_parts. Qed.

Lemma is_absolute_normalize p : is_absolute (normalize_lexical_path p) = is_absolute p.
Proof.
  apply eq_true_iff_eq. rewrite !is_absolute_lexical. by rewrite lexical_components_normalize.
Qed.

Lemma names_lexical p : names (lexical_components p) = names (body_part p).
Proof.
  rewrite lexical_components_parts, names_app. unfold root_part. by destruct (is_absolute p).
Qed.

Lemma pattern_new_wf text absolute pat :
  pattern_new text absolute = Ok pat ->
  pattern_wf pat /\ raw pat = text /\ pp_absolute pat = absolute.
Proof.
  unfold pattern_new. intros H. res_inv. destruct a as [[prefix comps] ms].
  res_inv. split; [|done]. unfold pattern_wf. simpl.
  rewrite is_absolute_normalize in *. rewrite components_normalize_parts in H0.
  assert (pattern_loop text None [] [] (body_part text) = Ok (prefix, comps, ms)) as Hl.
  { unfold root_part in H0. by destruct (is_absolute text). }
  apply pattern_loop_Ok in Hl as (-> & Hp & new & -> & -> & Hf); [|apply body_part_tail].
  rewrite names_lexical. bool_inv. split_and!; try done.
  - by destruct absolute, (is_absolute text).
  - rewrite contains_parent_traversal_lexical, lexical_components_parts, existsb_app, Hp.
    unfold root_part. by destruct (is_absolute text).
Qed.

Lemma path_components_loop_tail comps cs :
  Forall tail_component cs ->
  path_components_loop None comps cs = (None, comps ++ (to_string_lossy <$> names cs)).
Proof.
  intros Hcs. revert comps. induction Hcs as [|c cs Hc _ IH]; intros comps; simpl.
  { by rewrite app_nil_r. }
  destruct c; try done. rewrite IH. simpl. by rewrite <- app_assoc.
Qed.

Lemma path_components_eq p :
  path_components p = (None, to_string_lossy <$> names (lexical_components p)).
Proof.
  unfold path_components. rewrite components_normalize_parts, names_lexical.
  unfold root_part. destruct (is_absolute p); simpl; apply path_components_loop_tail, body_part_tail.
Qed.

Lemma forallb_strings_equal (r q : list string) :
  length r <= length q ->
  forallb (fun '(x, y) => strings_equal y x) (zip r q) = true <-> r = take (length r) q.
Proof.
  revert q; induction r as [|x r IH]; intros [|y q] Hl; simpl in *; try done; try lia.
  unfold strings_equal at 1. rewrite andb_true_iff, bool_decide_eq_true, IH by lia.
  split; [by intros [-> <-]|by intros [= -> <-]].
Qed.

(** The part of a path below a workspace root, by names. *)
Lemma relative_path_components_Some p root rest :
  relative_path_components p root = Some rest <->
  to_string_lossy <$> names (lexical_components p) =
    (to_string_lossy <$> names (lexical_components root)) ++ rest.
Proof.
  unfold relative_path_components. rewrite !path_components_eq. simpl.
  set (q := to_string_lossy <$> names (lexical_components p)).
  set (r := to_string_lossy <$> names (lexical_components root)).
  destruct (Nat.ltb_spec (length q) (length r)); simpl.
  { split; [done|]. intros Hq. apply (f_equal length) in Hq. rewrite length_app in Hq. lia. }
  destruct (forallb _ _) eqn:Hf; simpl.
  - apply forallb_strings_equal in Hf; [|lia]. split.
    + intros [= <-]. rewrite Hf at 1. by rewrite take_drop.
    + intros ->. by rewrite drop_app_length.
  - split; [done|]. intros Hq. apply not_true_iff_false in Hf. destruct Hf.
    apply forallb_strings_equal; [lia|]. rewrite Hq. by rewrite take_app_length.
Qed.

End validated.

(** * What a pattern matches *)

Section meaning.
Context {G : Globset}.

(** The names of a path as the matcher sees them. *)
Definition text_names (p : path) : list string :=
  to_string_lossy <$> names (lexical_components p).

Lemma pattern_matches_spec pat p c :
  pattern_wf pat ->
  pattern_matches pat p c = true <->
  if pp_absolute pat
  then is_absolute p = true /\ glob_match (zip (pp_components pat) (matchers pat)) (text_names p)
  else exists root rest, root ∈ workspace_roots c /\ text_names p = text_names root ++ rest /\
         glob_match (zip (pp_components pat) (matchers pat)) rest.
Proof.
  intros (_ & _ & Hpre & _ & _ & Hms). apply Forall2_length in Hms as Hlen.
  unfold pattern_matches. destruct (pp_absolute pat).
  - rewrite path_components_eq, Hpre. simpl.
    rewrite !andb_true_iff, glob_components_match_spec by done. tauto.
  - rewrite existsb_elem. split.
    + intros (root & Hroot & Hm). destruct (relative_path_components p root) as [rest|] eqn:E; [|done].
      exists root, rest. rewrite <- glob_components_match_spec by done.
      by apply relative_path_components_Some in E.
    + intros (root & rest & Hroot & E & Hm). exists root. split; [done|].
      apply relative_path_components_Some in E. rewrite E. by apply glob_components_match_spec.
Qed.

Fixpoint literal_components (l : list string) : list string :=
  match l with
  | c :: l' => if contains_glob_meta c then [] else c :: literal_components l'
  | [] => []
  end.

Lemma literal_match (L : GlobsetLaws G) comps ms path :
  Forall2 (fun c m => glob_build component_options c = Ok m) comps ms ->
  glob_match (zip comps ms) path -> exists rest, path = literal_components comps ++ rest.
Proof.
  intros Hms. revert path. induction Hms as [|c m comps ms Hm _ IH]; intros path H; [by eexists|].
  simpl in *. destruct (contains_glob_meta c) eqn:Hc; [by eexists|].
  assert (c <> "**") as Hstar by by intros ->.
  apply glob_match_one in H as (d & path' & -> & Hd & Hp); [|done].
  apply IH in Hp as (rest & ->). exists rest. simpl. f_equal.
  destruct (glob_literal component_options c) as (m' & Hm' & Hmatch).
  - unfold contains_glob_meta in Hc. erewrite <- Hc. clear.
    induction c as [|a c IH]; simpl; [done|]. rewrite IH. f_equal.
    unfold glob_special. by rewrite orb_false_r.
  - rewrite Hm in Hm'. injection Hm' as <-. rewrite Hmatch in Hd. simpl in Hd.
    by apply bool_decide_eq_true in Hd.
Qed.

Lemma literal_prefix_loop_components prefix l :
  Forall normal_name l -> Forall utf8 l ->
  lexical_components (literal_prefix_loop prefix (Normal <$> l)) =
    lexical_components prefix ++ (Normal <$> literal_components l).
Proof.
  intros Hn. revert prefix. induction Hn as [|s l Hs _ IH]; intros prefix Hu; simpl.
  { by rewrite app_nil_r. }
  inversion Hu; subst. rewrite to_string_lossy_utf8 by done.
  destruct (contains_glob_meta s); simpl; [by rewrite app_nil_r|].
  rewrite IH by done. destruct (lexical_components_name s Hs) as [Ha Hl].
  rewrite lexical_components_join, Hl by done. by rewrite <- app_assoc.
Qed.

Lemma fmap_lossy_utf8 l : Forall utf8 l -> to_string_lossy <$> l = l.
Proof. induction 1; [done|]. by rewrite fmap_cons, to_string_lossy_utf8, IHForall. Qed.

Lemma literal_prefix_components pat :
  pattern_wf pat -> utf8 (raw pat) ->
  lexical_components (literal_prefix pat) =
    root_part (raw pat) ++ (Normal <$> literal_components (pp_components pat)).
Proof.
  intros (_ & Ht & _ & -> & _) Hu. apply lexical_components_names in Ht as [Heq Hn].
  pose proof (utf8_names _ Hu) as Hun. rewrite fmap_lossy_utf8 by done.
  unfold literal_prefix. rewrite components_normalize, Heq at 1.
  unfold root_part. destruct (is_absolute (raw pat)); simpl;
    by rewrite literal_prefix_loop_components.
Qed.

(** Without parent traversal, [is_within] is the prefix order on components. *)
Lemma is_within_prefix p r rest :
  contains_parent_traversal p = false -> lexical_components r <> [] ->
  lexical_components p = lexical_components r ++ rest -> is_within p r = true.
Proof.
  intros Hp Hr Heq. apply is_within_true. split_and!; [done| |by eexists|done].
  rewrite contains_parent_traversal_lexical in *. rewrite Heq, existsb_app in Hp.
  by apply orb_false_iff in Hp as [? _].
Qed.

(** The literal prefix a backend scans from covers the pattern: every UTF-8
    path that an absolute pattern matches is below the prefix, and every path
    that a workspace pattern matches is below the prefix joined to some
    workspace root. *)
Theorem literal_prefix_covers (L : GlobsetLaws G) (text : string) (absolute : bool)
    (pat : PathPattern) (p : path) (c : PathResolutionContext) :
  utf8 text -> pattern_new text absolute = Ok pat ->
  utf8 p -> is_absolute p = true -> contains_parent_traversal p = false ->
  Forall (fun root => valid_absolute root /\ utf8 root) (workspace_roots c) ->
  pattern_matches pat p c = true ->
  if absolute then is_within p (literal_prefix pat) = true
  else exists root, root ∈ workspace_roots c /\
         is_within p (path_join root (literal_prefix pat)) = true.
Proof.
  intros Hu Hnew Hup Hap Htp Hroots Hm. apply pattern_new_wf in Hnew as (Hwf & <- & <-).
  pose proof (literal_prefix_components _ Hwf Hu) as Hlit.
  apply pattern_matches_spec in Hm; [|done]. pose proof Hwf as (Habs & _ & _ & _ & _ & Hms).
  pose proof (lexical_components_names p Htp) as [Hp _].
  unfold text_names in Hm. rewrite fmap_lossy_utf8 in Hm by by apply utf8_names.
  unfold root_part in Hlit, Hp. rewrite Habs in Hlit. rewrite Hap in Hp.
  destruct (pp_absolute pat).
  - destruct Hm as [_ Hm]. apply (literal_match L) in Hm as (rest & Hrest); [|done].
    apply is_within_prefix with (Normal <$> rest); [done|by rewrite Hlit|].
    by rewrite Hp, Hrest, Hlit, fmap_app.
  - destruct Hm as (root & rest0 & Hroot & Hn & Hm).
    apply (literal_match L) in Hm as (rest & ->); [|done]. exists root. split; [done|].
    rewrite Forall_forall in Hroots. destruct (Hroots _ Hroot) as [(Hra & _ & Hrt) Hru].
    pose proof (lexical_components_names root Hrt) as [Hr _]. unfold root_part in Hr. rewrite Hra in Hr.
    rewrite fmap_lossy_utf8 in Hn by by apply utf8_names.
    assert (lexical_components (path_join root (literal_prefix pat)) =
            lexical_components root ++ lexical_components (literal_prefix pat)) as Hj.
    { apply lexical_components_join. apply not_true_iff_false. rewrite is_absolute_lexical, Hlit.
      by destruct (literal_components _). }
    apply is_within_prefix with (Normal <$> rest); [done|by rewrite Hj, Hr|].
    by rewrite Hp, Hj, Hlit, Hr, Hn, !fmap_app, <- !app_assoc.
Qed.

End meaning.

Lemma literal_prefix_covers_witness :
  exists pat : PathPattern (G := literal_globset),
    pattern_new "/srv/./data/*/key" true = Ok pat /\
    pattern_matches pat "/srv/data/x/key" context_new = true /\
    literal_prefix pat = "/srv/data" /\
    is_within "/srv/data/x/key" (literal_prefix pat) = true.
Proof.
  eexists. split; [reflexivity|]. split; [reflexivity|]. split; [reflexivity|].
  eapply (literal_prefix_covers (G := literal_globset) literal_globset_laws
            "/srv/./data/*/key" true _ "/srv/data/x/key" context_new);
    solve [reflexivity|constructor].
Defined.

(** * Equal keys mean equal behaviour *)

Section keys.
Context {G : Globset}.

Lemma matchers_unique comps ms ms' :
  Forall2 (fun c m => glob_build component_options c = Ok m) comps ms ->
  Forall2 (fun c m => glob_build component_options c = Ok m) comps ms' -> ms = ms'.
Proof.
  intros H. revert ms'. induction H as [|c m comps ms Hm _ IH]; intros ms' H'; inversion H'; subst; [done|].
  f_equal; [congruence|auto].
Qed.

Lemma semantic_key_matches p q x c :
  pattern_wf p -> pattern_wf q -> semantic_key p = semantic_key q ->
  pattern_matches p x c = pattern_matches q x c /\ pattern_specificity p = pattern_specificity q.
Proof.
  intros (_ & _ & Hp & _ & _ & Hpm) (_ & _ & Hq & _ & _ & Hqm) [= Ha _ Hc].
  unfold case_fold in Hc. rewrite !list_fmap_id in Hc.
  unfold pattern_matches, pattern_specificity. rewrite Ha, Hp, Hq, Hc in *.
  by rewrite (matchers_unique _ _ _ Hpm Hqm).
Qed.

End keys.
