(* ===== verification/FsPolicy.v ===== *)
(** [cageforge-policy]: filesystem rules and policies ([filesystem.rs]): how one
    rule matches a path, how matching rules combine into a decision, and how
    duplicate targets are normalized. *)

From Stdlib Require Import Ascii String NArith Lia.
From stdpp Require Import base list strings option gmap sets.
From S2P Require Import Prelude Keyed Text NativePath Access Selector PathPattern.

(** [Iterator::max] *)
Definition iter_max (l : list nat) : option nat :=
  foldl (fun acc x => Some (match acc with Some a => Nat.max a x | None => x end)) None l.

Inductive FilesystemMode := Restricted | Unrestricted | External.
Inductive MissingPathBehavior := MError | MSkip.

#[global] Instance FilesystemMode_eq_dec : EqDecision FilesystemMode.
Proof. solve_decision. Defined.
#[global] Instance MissingPathBehavior_eq_dec : EqDecision MissingPathBehavior.
Proof. solve_decision. Defined.

Definition most_conservative (left right : MissingPathBehavior) : MissingPathBehavior :=
  match left, right with
  | MError, _ | _, MError => MError
  | MSkip, MSkip => MSkip
  end.

Record RuleMatch := { specificity : nat; rm_access : AccessMode }.

Section policy.
Context {G : Globset}.

Inductive FilesystemTarget :=
  | Scope (s : PathSelector)
  | Glob (p : PathPattern).

Inductive FilesystemTargetKey :=
  | KeyScope (s : PathSelector)
  | KeyGlob (absolute : bool) (prefix : option string) (comps : list string).

Record FilesystemRule := {
  target : FilesystemTarget;
  access : AccessMode;
  missing_path_behavior : MissingPathBehavior;
  read_only_subpaths : list PathSelector
}.

Record FilesystemPolicy := {
  mode : FilesystemMode;
  entries : list FilesystemRule;
  glob_scan_max_depth : option N;
  protected_relative_paths : list path
}.

(** * Rules *)

Definition is_glob (t : FilesystemTarget) : bool :=
  match t with Glob _ => true | Scope _ => false end.

Definition rule_new (selector : PathSelector) (a : AccessMode) : FilesystemRule :=
  {| target := Scope selector; access := a; missing_path_behavior := MError;
     read_only_subpaths := [] |}.

Definition from_target (t : FilesystemTarget) (a : AccessMode) : result PolicyError FilesystemRule :=
  reject is_glob t && bool_decide (a <> Deny) with UnsupportedGlobAccess a ;;
  Ok {| target := t; access := a; missing_path_behavior := MError; read_only_subpaths := [] |}.

Definition absolute_glob (pattern : string) (a : AccessMode) : result PolicyError FilesystemRule :=
  p ← pattern_absolute pattern; from_target (Glob p) a.

Definition workspace_glob (pattern : string) (a : AccessMode) : result PolicyError FilesystemRule :=
  p ← pattern_workspace pattern; from_target (Glob p) a.

Definition with_missing_path_behavior (r : FilesystemRule) (b : MissingPathBehavior) :
  FilesystemRule :=
  {| target := target r; access := access r; missing_path_behavior := b;
     read_only_subpaths := read_only_subpaths r |}.

Definition with_read_only_subpath (r : FilesystemRule) (selector : PathSelector) :
  result PolicyError FilesystemRule :=
  reject bool_decide (access r <> Write)
    with InvalidRule "read-only subpaths require a writable parent rule" ;;
  reject match target r with
         | Scope parent => is_definitely_outside selector parent
         | Glob _ => false
         end
    with InvalidRule "read-only subpath must be below the writable parent rule" ;;
  Ok {| target := target r; access := access r;
        missing_path_behavior := missing_path_behavior r;
        read_only_subpaths := read_only_subpaths r ++ [selector] |}.

(** The specificities of the resolved paths of a selector that contain a path. *)
Definition covering (s : PathSelector) (p : path) (c : PathResolutionContext) : list nat :=
  normal_component_count <$> filter (fun root => is_within p root = true) (resolve s c).

(** One iteration over [read_only_subpaths] in [FilesystemRule::matches_path] *)
Definition read_only_step (p : path) (c : PathResolutionContext) (m : RuleMatch)
    (subpath : PathSelector) : RuleMatch :=
  match iter_max (covering subpath p c) with
  | Some s => {| specificity := Nat.max (specificity m) s; rm_access := Read |}
  | None => m
  end.

(** [FilesystemRule::matches_path] *)
Definition matches_path (r : FilesystemRule) (p : path) (c : PathResolutionContext) :
  option RuleMatch :=
  let '(s, target_matches) :=
    match target r with
    | Scope selector =>
        match iter_max (covering selector p c) with
        | Some s => (s, true)
        | None => (0, false)
        end
    | Glob pattern => (pattern_specificity pattern, pattern_matches pattern p c)
    end in
  if negb target_matches then None
  else
    let m := {| specificity := s; rm_access := access r |} in
    Some (if bool_decide (access r = Write)
          then foldl (read_only_step p c) m (read_only_subpaths r)
          else m).

(** [FilesystemRule::validate] *)
Definition rule_validate (r : FilesystemRule) : result PolicyError unit :=
  reject is_glob (target r) && bool_decide (access r <> Deny)
    with UnsupportedGlobAccess (access r) ;;
  Ok ().

(** * Policies *)

Definition restricted (rules : list FilesystemRule) : FilesystemPolicy :=
  {| mode := Restricted; entries := rules; glob_scan_max_depth := None;
     protected_relative_paths := [".git"] |}.

Definition unrestricted : FilesystemPolicy :=
  {| mode := Unrestricted; entries := []; glob_scan_max_depth := None;
     protected_relative_paths := [] |}.

Definition external : FilesystemPolicy :=
  {| mode := External; entries := []; glob_scan_max_depth := None;
     protected_relative_paths := [] |}.

(** The depth is a [NonZeroUsize]. *)
Definition with_glob_scan_max_depth (f : FilesystemPolicy) (depth : N) :
  result PolicyError FilesystemPolicy :=
  reject bool_decide (mode f <> Restricted)
    with InvalidRule "glob scan depth requires a restricted filesystem policy" ;;
  Ok {| mode := mode f; entries := entries f; glob_scan_max_depth := Some depth;
        protected_relative_paths := protected_relative_paths f |}.

(** The component loop of [validate_protected_relative_path] *)
Fixpoint protected_loop (p normalized : path) (cs : list Component) : result PolicyError path :=
  match cs with
  | [] => Ok normalized
  | CurDir :: cs' => protected_loop p normalized cs'
  | Normal value :: cs' => protected_loop p (path_join normalized value) cs'
  | ParentDir :: _ | RootDir :: _ | Prefix _ :: _ =>
      Err (InvalidProtectedPath p "path must not contain parent traversal or a root")
  end.

Definition validate_protected_relative_path (p : path) : result PolicyError path :=
  reject bool_decide (p = "") with InvalidProtectedPath p "path must not be empty" ;;
  reject contains_nul p with InvalidProtectedPath p "path must not contain a NUL character" ;;
  reject is_absolute p with InvalidProtectedPath p "path must be relative" ;;
  normalized ← protected_loop p "" (components p);
  reject bool_decide (normalized = "")
    with InvalidProtectedPath p "path must name a descendant" ;;
  Ok normalized.

Definition with_additional_protected_relative_path (f : FilesystemPolicy) (p : path) :
  result PolicyError FilesystemPolicy :=
  reject bool_decide (mode f <> Restricted)
    with InvalidRule "protected paths require a restricted filesystem policy" ;;
  p ← validate_protected_relative_path p;
  Ok {| mode := mode f; entries := entries f; glob_scan_max_depth := glob_scan_max_depth f;
        protected_relative_paths :=
          if existsb (fun existing => paths_equal existing p) (protected_relative_paths f)
          then protected_relative_paths f
          else protected_relative_paths f ++ [p] |}.

Definition dangerously_allow_git_write (f : FilesystemPolicy) : FilesystemPolicy :=
  {| mode := mode f; entries := entries f; glob_scan_max_depth := glob_scan_max_depth f;
     protected_relative_paths :=
       filter (fun p => paths_equal p ".git" = false) (protected_relative_paths f) |}.

Definition with_rule (f : FilesystemPolicy) (r : FilesystemRule) :
  result PolicyError FilesystemPolicy :=
  reject bool_decide (mode f <> Restricted)
    with InvalidRule "filesystem rules require a restricted filesystem policy" ;;
  _ ← rule_validate r;
  Ok {| mode := mode f; entries := entries f ++ [r]; glob_scan_max_depth := glob_scan_max_depth f;
        protected_relative_paths := protected_relative_paths f |}.

(** [FilesystemPolicy::validate] *)
Definition policy_validate (f : FilesystemPolicy) : result PolicyError unit :=
  reject bool_decide (mode f <> Restricted)
         && (bool_decide (entries f <> []) || bool_decide (is_Some (glob_scan_max_depth f))
             || bool_decide (protected_relative_paths f <> []))
    with InvalidRule
      "unrestricted and external filesystem policies cannot contain local settings" ;;
  _ ← foldM (fun _ r =>
        _ ← rule_validate r;
        reject bool_decide (access r <> Write) && bool_decide (read_only_subpaths r <> [])
          with InvalidRule "read-only subpaths require a writable parent rule" ;;
        Ok ()) () (entries f);
  foldM (fun _ p => _ ← validate_protected_relative_path p; Ok ()) () (protected_relative_paths f).

Definition target_key (t : FilesystemTarget) : FilesystemTargetKey :=
  match t with
  | Scope selector => KeyScope selector
  | Glob pattern =>
      let '(absolute, prefix, comps) := semantic_key pattern in KeyGlob absolute prefix comps
  end.

(** The derived equality of keys, over [impl PartialEq for PathSelector] *)
Definition key_eqb (k l : FilesystemTargetKey) : bool :=
  match k, l with
  | KeyScope s, KeyScope t => selectors_equal s t
  | KeyGlob a p cs, KeyGlob b q ds => bool_decide ((a, p, cs) = (b, q, ds))
  | _, _ => false
  end.

(** What a rule does to the entry that already holds its target. *)
Definition merge_rule (existing r : FilesystemRule) : FilesystemRule :=
  let a := most_restrictive (access existing) (access r) in
  let subpaths :=
    foldl (fun acc selector =>
             if existsb (fun e => selectors_equal e selector) acc then acc else acc ++ [selector])
      (read_only_subpaths existing) (read_only_subpaths r) in
  {| target := target existing; access := a;
     missing_path_behavior :=
       most_conservative (missing_path_behavior existing) (missing_path_behavior r);
     read_only_subpaths := if bool_decide (a <> Write) then [] else subpaths |}.

Definition rule_key (r : FilesystemRule) : FilesystemTargetKey := target_key (target r).

(** The loop of [FilesystemPolicy::normalized] *)
Definition normalize_rules (rules : list FilesystemRule) : list FilesystemRule :=
  keyed_collapse rule_key key_eqb merge_rule rules.

Definition normalized (f : FilesystemPolicy) : result PolicyError FilesystemPolicy :=
  _ ← policy_validate f;
  if bool_decide (mode f <> Restricted) then Ok f
  else Ok {| mode := mode f; entries := normalize_rules (entries f);
             glob_scan_max_depth := glob_scan_max_depth f;
             protected_relative_paths := protected_relative_paths f |}.

(** * Decisions *)

Definition is_protected_path (f : FilesystemPolicy) (p : path) : bool :=
  existsb (fun protected => contains_component_path p protected) (protected_relative_paths f).

(** How [access_for_path] updates [best] with a candidate. *)
Definition better_match (best : option RuleMatch) (candidate : RuleMatch) : RuleMatch :=
  match best with
  | Some current =>
      if (specificity candidate <? specificity current)%nat then current
      else if (specificity current =? specificity candidate)%nat
      then {| specificity := specificity current;
              rm_access := most_restrictive (rm_access current) (rm_access candidate) |}
      else candidate
  | None => candidate
  end.

(** The loop over the rules; [None] is the early return of [Deny]. *)
Fixpoint match_rules (rules : list FilesystemRule) (p : path) (c : PathResolutionContext)
    (best : option RuleMatch) (writable_match : bool) : option (option RuleMatch * bool) :=
  match rules with
  | [] => Some (best, writable_match)
  | r :: rules' =>
      match matches_path r p c with
      | None => match_rules rules' p c best writable_match
      | Some candidate =>
          if bool_decide (rm_access candidate = Deny) then None
          else match_rules rules' p c (Some (better_match best candidate))
                 (writable_match || bool_decide (rm_access candidate = Write))
      end
  end.

Definition access_for_path (f : FilesystemPolicy) (p : path) (c : PathResolutionContext) :
  result PolicyError FilesystemDecision :=
  reject contains_nul p with PathContainsNul p ;;
  reject negb (is_absolute p) with ExpectedAbsolute p ;;
  reject contains_parent_traversal p with PParentTraversal p ;;
  match mode f with
  | Unrestricted => Ok FWrite
  | External => Ok FExternallyEnforced
  | Restricted =>
      match match_rules (entries f) p c None false with
      | None => Ok FDeny
      | Some (best, writable_match) =>
          let a := match best with Some m => rm_access m | None => Deny end in
          if writable_match && bool_decide (a = Write) && is_protected_path f p
          then Ok FRead
          else Ok (decision_of_access a)
      end
  end.

(** How [access_for] combines the decisions of the resolved paths. *)
Definition combine_decision (acc : option FilesystemDecision) (d : FilesystemDecision) :
  FilesystemDecision :=
  match acc, d with
  | Some FDeny, _ | _, FDeny => FDeny
  | Some FRead, _ | _, FRead => FRead
  | Some FWrite, FWrite => FWrite
  | None, d => d
  | Some FExternallyEnforced, d => d
  | Some d', FExternallyEnforced => d'
  end.

Definition access_for (f : FilesystemPolicy) (s : PathSelector) (c : PathResolutionContext) :
  result PolicyError FilesystemDecision :=
  if bool_decide (mode f = External) then Ok FExternallyEnforced
  else
    decision ← foldM (fun acc p =>
                 d ← access_for_path f p c; Ok (Some (combine_decision acc d)))
               None (resolve s c);
    Ok (default FDeny decision).

End policy.

(** * Outcomes: what a set of rules says about a path *)

(** A path is denied by some rule, or governed by the best match so far. *)
Inductive outcome := Denied | Matched (best : option RuleMatch).

Definition match_join (a b : RuleMatch) : RuleMatch := better_match (Some a) b.

Definition combine (o1 o2 : outcome) : outcome :=
  match o1, o2 with
  | Denied, _ | _, Denied => Denied
  | Matched None, o | o, Matched None => o
  | Matched (Some a), Matched (Some b) => Matched (Some (match_join a b))
  end.

Ltac match_cases :=
  repeat match goal with
  | |- context [(?a <? ?b)%nat] => is_var a; is_var b; destruct (Nat.ltb_spec a b); simpl
  | |- context [(?a =? ?b)%nat] => is_var a; is_var b; destruct (Nat.eqb_spec a b); simpl
  end; try lia.

#[global] Instance match_join_comm : Comm (=) match_join.
Proof.
  intros [s a] [t b]. unfold match_join, better_match. simpl.
  match_cases; subst; try done; by rewrite (comm most_restrictive).
Qed.

#[global] Instance match_join_assoc : Assoc (=) match_join.
Proof.
  intros [s a] [t b] [u d]. unfold match_join, better_match. simpl.
  match_cases; subst; try done; by rewrite (assoc most_restrictive).
Qed.

#[global] Instance combine_comm : Comm (=) combine.
Proof. intros [|[]] [|[]]; simpl; try done. by rewrite (comm match_join). Qed.

#[global] Instance combine_assoc : Assoc (=) combine.
Proof. intros [|[]] [|[]] [|[]]; simpl; try done. by rewrite (assoc match_join). Qed.

Lemma combine_none_l o : combine (Matched None) o = o.
Proof. by destruct o as [|[]]. Qed.

Lemma combine_none_r o : combine o (Matched None) = o.
Proof. by destruct o as [|[]]. Qed.

Lemma combine_swap x y z : combine x (combine y z) = combine y (combine x z).
Proof. rewrite !(assoc combine). by rewrite (comm combine x y). Qed.

Definition match_outcome (m : option RuleMatch) : outcome :=
  match m with
  | None => Matched None
  | Some c => if bool_decide (rm_access c = Deny) then Denied else Matched (Some c)
  end.

Definition outcome_sum : list outcome -> outcome := foldr combine (Matched None).

Lemma outcome_sum_app l1 l2 : outcome_sum (l1 ++ l2) = combine (outcome_sum l1) (outcome_sum l2).
Proof.
  induction l1 as [|o l1 IH]; [symmetry; apply combine_none_l|].
  simpl. by rewrite IH, (assoc combine).
Qed.

#[global] Instance outcome_sum_perm : Proper ((≡ₚ) ==> (=)) outcome_sum.
Proof.
  apply foldr_permutation_proper; try apply _. apply combine_swap.
Qed.

(** [b] summarizes the matches: it has their greatest specificity, and is
    writable when every match of that specificity is. *)
Definition summarizes (b : RuleMatch) (ms : list RuleMatch) : Prop :=
  Forall (fun m => rm_access m <> Deny) ms /\
  Forall (fun m => specificity m <= specificity b) ms /\
  Exists (fun m => specificity m = specificity b) ms /\
  (rm_access b = Write <->
   Forall (fun m => specificity m = specificity b -> rm_access m = Write) ms) /\
  rm_access b <> Deny.

Lemma summarizes_one m : rm_access m <> Deny -> summarizes m [m].
Proof. intros Hm. unfold summarizes. rewrite !Forall_singleton, Exists_cons. naive_solver. Qed.

Lemma summarizes_cons m b ms :
  rm_access m <> Deny -> summarizes b ms -> summarizes (match_join m b) (m :: ms).
Proof.
  intros Hm (Hnd & Hle & Hex & Hw & Hb). unfold summarizes, match_join, better_match.
  destruct b as [t d], m as [s a]. simpl in *.
  destruct (Nat.ltb_spec t s); [|destruct (Nat.eqb_spec s t)]; simpl;
    rewrite !Forall_cons, Exists_cons; simpl.
  - split_and!; try naive_solver.
    + eapply Forall_impl; [exact Hle|]. simpl. lia.
    + split; [|naive_solver]. intros Ha. split; [done|].
      eapply Forall_impl; [exact Hle|]. simpl. lia.
  - subst. split_and!; try naive_solver.
    + rewrite <- Hw. destruct a, d; naive_solver.
    + destruct a, d; naive_solver.
  - split_and!; try lia; naive_solver.
Qed.

(** A sum of matches, seen from its matches. *)
Lemma outcome_sum_spec ms :
  match outcome_sum (match_outcome <$> (Some <$> ms)) with
  | Denied => exists m, m ∈ ms /\ rm_access m = Deny
  | Matched None => ms = []
  | Matched (Some b) => summarizes b ms
  end.
Proof.
  induction ms as [|m ms IH]; [done|]. rewrite !fmap_cons. cbn [outcome_sum foldr].
  fold outcome_sum. unfold match_outcome at 1. case_bool_decide as Hd.
  { simpl. eauto with cage. }
  destruct (outcome_sum _) as [|[b|]]; simpl.
  - destruct IH as (x & ? & ?). exists x. set_solver.
  - by apply summarizes_cons.
  - subst. by apply summarizes_one.
Qed.

(** * Decisions from outcomes *)

Section decisions.
Context {G : Globset}.

Definition rule_outcome (p : path) (c : PathResolutionContext) (r : FilesystemRule) : outcome :=
  match_outcome (matches_path r p c).

Definition rules_outcome (p : path) (c : PathResolutionContext) (rs : list FilesystemRule) : outcome :=
  outcome_sum (rule_outcome p c <$> rs).

Definition outcome_decision (protected : bool) (o : outcome) : FilesystemDecision :=
  match o with
  | Denied | Matched None => FDeny
  | Matched (Some m) =>
      if bool_decide (rm_access m = Write) && protected then FRead
      else decision_of_access (rm_access m)
  end.

(** The loop of [access_for_path] computes the outcome, and remembers that a
    writable match was seen whenever the outcome is writable. *)
Lemma match_rules_outcome rules p c best w :
  match best with Some m => rm_access m <> Deny /\ (rm_access m = Write -> w = true) | None => True end ->
  match match_rules rules p c best w with
  | None => combine (Matched best) (rules_outcome p c rules) = Denied
  | Some (b, w') =>
      combine (Matched best) (rules_outcome p c rules) = Matched b /\
      match b with Some m => rm_access m = Write -> w' = true | None => True end
  end.
Proof.
  unfold rules_outcome. revert best w. induction rules as [|r rules IH]; intros best w Hb.
  { destruct best; simpl; naive_solver. }
  rewrite fmap_cons. cbn [outcome_sum foldr match_rules]. fold outcome_sum.
  pose proof (combine_assoc (Matched best) (rule_outcome p c r)
                (outcome_sum (rule_outcome p c <$> rules)) : _ = _) as ->.
  change (rule_outcome p c r) with (match_outcome (matches_path r p c)).
  destruct (matches_path r p c) as [m|]; cbn [match_outcome].
  - case_bool_decide as Hd; [by destruct best|].
    assert (combine (Matched best) (Matched (Some m)) = Matched (Some (better_match best m))) as ->.
    { by destruct best. }
    apply IH. destruct best as [[t d]|]; unfold better_match; simpl.
    + destruct m as [s a]. simpl in *. destruct Hb as [Hb Hw].
      repeat case_match; simpl; destruct a, d; simpl in *; try done;
        (split; [done|]); intros; auto using orb_true_r; by rewrite Hw.
    + split; [done|]. intros ->. by rewrite orb_true_r.
  - rewrite combine_none_r. by apply IH.
Qed.

Lemma access_for_path_outcome f p c :
  mode f = Restricted -> valid_absolute p ->
  access_for_path f p c =
    Ok (outcome_decision (is_protected_path f p) (rules_outcome p c (entries f))).
Proof.
  intros Hm (Ha & Hn & Ht). unfold access_for_path. rewrite Hn, Ha, Ht, Hm. simpl.
  pose proof (match_rules_outcome (entries f) p c None false I) as H.
  rewrite combine_none_l in H.
  destruct (match_rules _ _ _ _ _) as [[[b|] w]|].
  - destruct H as [-> Hw]. simpl. case_bool_decide as Hb.
    + rewrite Hw by done. simpl. rewrite Hb. by destruct (is_protected_path f p).
    + by rewrite andb_false_r.
  - destruct H as [-> _]. simpl. by rewrite andb_false_r.
  - by rewrite H.
Qed.

(** The path is checked before the policy. *)
Lemma access_for_path_invalid f g p c :
  mode f = mode g -> ~ valid_absolute p -> access_for_path f p c = access_for_path g p c.
Proof.
  unfold valid_absolute, access_for_path. intros _ Hv.
  destruct (contains_nul p), (is_absolute p), (contains_parent_traversal p); try done. naive_solver.
Qed.

Lemma rules_outcome_matches p c rs :
  rules_outcome p c rs =
    outcome_sum (match_outcome <$> (Some <$> omap (fun r => matches_path r p c) rs)).
Proof.
  unfold rules_outcome. induction rs as [|r rs IH]; [done|].
  rewrite fmap_cons. cbn [outcome_sum foldr omap list_omap]. fold outcome_sum. rewrite IH.
  unfold rule_outcome at 1. destruct (matches_path r p c) as [m|]; [done|].
  apply combine_none_l.
Qed.

Lemma rules_outcome_not_deny p c rs m :
  rules_outcome p c rs = Matched (Some m) -> rm_access m <> Deny.
Proof.
  rewrite rules_outcome_matches. intros H. pose proof (outcome_sum_spec
    (omap (fun r => matches_path r p c) rs)) as Hs. rewrite H in Hs. apply Hs.
Qed.

(** C10. The decision of a restricted policy on an absolute, NUL-free and
    traversal-free path, declaratively: it is denied exactly when no rule
    matches or a matching rule denies; it is writable exactly when some rule
    matches, none denies, every match of the greatest specificity is writable
    and the path is not protected; it is readable otherwise. *)
Theorem access_for_path_spec (f : FilesystemPolicy) (p : path) (c : PathResolutionContext) :
  mode f = Restricted -> valid_absolute p ->
  let ms := omap (fun r => matches_path r p c) (entries f) in
  exists d, access_for_path f p c = Ok d /\
    (d = FDeny <-> ms = [] \/ exists m, m ∈ ms /\ rm_access m = Deny) /\
    (d = FWrite <->
       ms <> [] /\ (forall m, m ∈ ms -> rm_access m <> Deny) /\
       (forall m, m ∈ ms -> (forall m', m' ∈ ms -> specificity m' <= specificity m) ->
          rm_access m = Write) /\
       is_protected_path f p = false) /\
    d <> FExternallyEnforced.
Proof.
  intros Hm Hp ms. eexists. split; [by apply access_for_path_outcome|].
  rewrite rules_outcome_matches. fold ms. pose proof (outcome_sum_spec ms) as H.
  destruct (outcome_sum _) as [|[b|]]; simpl.
  - split_and!; [split; eauto|split; [done|]|done]. destruct H as (m & Hin & Hd).
    intros (_ & Hnd & _). by destruct (Hnd m Hin).
  - unfold summarizes in H. rewrite !Forall_forall, Exists_exists in H.
    destruct H as (Hnd & Hle & (x & Hx & Hxs) & Hw & Hb).
    assert (ms <> []) as Hne by by intros ->; set_solver.
    assert (rm_access b = Write <-> forall m, m ∈ ms ->
      (forall m', m' ∈ ms -> specificity m' <= specificity m) -> rm_access m = Write) as Hw'.
    { rewrite Hw. split; intros H m Hin; [intros Hmax; apply H; [done|]|intros Heq; apply H; [done|]].
      - pose proof (Hle m Hin). pose proof (Hmax x Hx). lia.
      - intros m' Hm'. rewrite Heq. by apply Hle. }
    split_and!.
    + split; [|naive_solver]. intros Hd. exfalso. destruct (rm_access b), (is_protected_path f p); naive_solver.
    + rewrite <- Hw'. destruct (rm_access b), (is_protected_path f p); naive_solver.
    + by destruct (rm_access b), (is_protected_path f p).
  - split_and!; [split; auto|split; [done|]|done]. by intros [? _].
Qed.

(** A writable path is written through some rule, and is not protected. *)
Lemma access_write_inv f p c :
  mode f = Restricted -> access_for_path f p c = Ok FWrite ->
  is_protected_path f p = false /\
  exists r m, r ∈ entries f /\ matches_path r p c = Some m /\ rm_access m = Write.
Proof.
  intros Hm H. assert (valid_absolute p) as Hp.
  { unfold access_for_path in H. res_inv. bool_inv. done. }
  rewrite access_for_path_outcome in H by done. injection H as H.
  rewrite rules_outcome_matches in H.
  set (ms := omap (fun r => matches_path r p c) (entries f)) in H.
  pose proof (outcome_sum_spec ms) as Hs. destruct (outcome_sum _) as [|[b|]]; simpl in H; try done.
  destruct Hs as (_ & _ & (x & Hx & Hxs)%Exists_exists & Hw & _). rewrite Forall_forall in Hw.
  case_bool_decide as Hb; [|by destruct (rm_access b)].
  split; [by destruct (is_protected_path f p)|].
  apply list_elem_of_omap in Hx as (r & Hr & Hmatch). exists r, x. split_and!; [done|done|].
  apply Hw; [done| |done]. apply list_elem_of_omap. eauto.
Qed.

(** The order of the rules does not matter: any permutation of the entries
    of a restricted policy gives every path the same decision. *)
Theorem access_for_path_order (f g : FilesystemPolicy) (p : path) (c : PathResolutionContext) :
  mode f = Restricted -> mode g = Restricted -> entries f ≡ₚ entries g ->
  protected_relative_paths f ≡ₚ protected_relative_paths g ->
  access_for_path f p c = access_for_path g p c.
Proof.
  intros Hf Hg He Hp.
  destruct (decide (valid_absolute p)) as [Hv|Hv].
  - rewrite !access_for_path_outcome by done. unfold is_protected_path.
    rewrite (existsb_perm _ _ _ Hp). unfold rules_outcome. by rewrite He.
  - apply access_for_path_invalid; [congruence|done].
Qed.

End decisions.

(** * Validated rules and policies *)

Section validation.
Context {G : Globset}.

Definition target_wf (t : FilesystemTarget) : Prop :=
  match t with Scope s => selector_wf s | Glob p => pattern_wf p end.

(** What the constructors of a rule establish. *)
Definition rule_wf (r : FilesystemRule) : Prop :=
  target_wf (target r) /\ Forall selector_wf (read_only_subpaths r) /\
  (access r <> Write -> read_only_subpaths r = []) /\
  (is_glob (target r) = true -> access r = Deny).

(** The rules a caller can build from validated selectors. *)
Inductive rule_built : FilesystemRule -> Prop :=
  | built_new s a : selector_wf s -> rule_built (rule_new s a)
  | built_target s a r : selector_wf s -> from_target (Scope s) a = Ok r -> rule_built r
  | built_absolute_glob text a r : absolute_glob text a = Ok r -> rule_built r
  | built_workspace_glob text a r : workspace_glob text a = Ok r -> rule_built r
  | built_missing r b : rule_built r -> rule_built (with_missing_path_behavior r b)
  | built_read_only r s r' :
      rule_built r -> selector_wf s -> with_read_only_subpath r s = Ok r' -> rule_built r'.

(** The policies a caller can build from such rules. *)
Inductive policy_built : FilesystemPolicy -> Prop :=
  | built_restricted rs : Forall rule_built rs -> policy_built (restricted rs)
  | built_unrestricted : policy_built unrestricted
  | built_external : policy_built external
  | built_depth f d f' : policy_built f -> with_glob_scan_max_depth f d = Ok f' -> policy_built f'
  | built_protected f p f' :
      policy_built f -> with_additional_protected_relative_path f p = Ok f' -> policy_built f'
  | built_git f : policy_built f -> policy_built (dangerously_allow_git_write f)
  | built_rule f r f' : policy_built f -> rule_built r -> with_rule f r = Ok f' -> policy_built f'.

Lemma glob_rule_wf text absolute a r :
  (p ← pattern_new text absolute; from_target (Glob p) a) = Ok r -> rule_wf r.
Proof.
  intros H. res_inv. unfold from_target in H. simpl in H. case_bool_decide; res_inv.
  unfold rule_wf. simpl. apply pattern_new_wf in H0 as [? _]. auto.
Qed.

Lemma rule_built_wf r : rule_built r -> rule_wf r.
Proof.
  induction 1.
  - unfold rule_wf. simpl. split_and!; auto; done.
  - unfold from_target in *. res_inv. unfold rule_wf. simpl. split_and!; auto; done.
  - by eapply glob_rule_wf.
  - by eapply glob_rule_wf.
  - exact IHrule_built.
  - unfold with_read_only_subpath in *. res_inv. bool_inv. apply dec_stable in G0.
    destruct IHrule_built as (Ht & Hf & Hw & Hg). unfold rule_wf. simpl.
    split_and!; [done|apply Forall_app; auto|congruence|done].
Qed.

Lemma rule_wf_validate r : rule_wf r -> rule_validate r = Ok ().
Proof.
  intros (_ & _ & _ & Hg). unfold rule_validate.
  destruct (is_glob (target r)); [|done]. by rewrite Hg.
Qed.

Definition policy_wf (f : FilesystemPolicy) : Prop :=
  Forall rule_wf (entries f) /\
  Forall (fun p => is_ok (validate_protected_relative_path p) = true) (protected_relative_paths f) /\
  (mode f <> Restricted ->
   entries f = [] /\ glob_scan_max_depth f = None /\ protected_relative_paths f = []).

Lemma protected_loop_Ok p n cs r :
  protected_loop p n cs = Ok r <-> normalize_relative_loop p n cs = Ok r.
Proof. revert n; induction cs as [|[] cs IH]; intros n; simpl; naive_solver. Qed.

Lemma parent_traversal_elem p : contains_parent_traversal p = false <-> ParentDir ∉ components p.
Proof.
  unfold contains_parent_traversal. rewrite existsb_elem_false.
  setoid_rewrite bool_decide_eq_false. naive_solver.
Qed.

Lemma normalize_relative_loop_empty p n cs r :
  normalize_relative_loop p n cs = Ok r -> names cs = [] -> r = n.
Proof.
  induction cs as [|[] cs IH]; simpl; intros H Hn; res_inv; auto; done.
Qed.

(** A protected path is accepted exactly when it names a descendant lexically,
    and is stored under an equal spelling. *)
Lemma validate_protected_Ok p q :
  validate_protected_relative_path p = Ok q ->
  is_absolute q = false /\ contains_nul q = false /\ contains_parent_traversal q = false /\
  lexical_components q = lexical_components p /\ lexical_components q <> [].
Proof.
  unfold validate_protected_relative_path. intros H. res_inv. clear G0. bool_inv.
  apply protected_loop_Ok in H0 as Hloop. apply protected_loop_Ok in H0.
  pose proof (components_relative p G2) as Hcs.
  assert (contains_nul q = false) as Hnul.
  { eapply normalize_relative_loop_nul; [| |exact H0]; [done|]. rewrite names_components.
    by apply names_pieces, str_split_contains. }
  apply normalize_relative_loop_Ok in H0 as (Ha & Hl & Hp); [|done..].
  change (lexical_components q = lexical_components p) in Hl. apply parent_traversal_elem in Hp.
  split_and!; try done.
  - by rewrite contains_parent_traversal_lexical, Hl, <- contains_parent_traversal_lexical.
  - rewrite Hl. intros Hnil. apply G3. eapply normalize_relative_loop_empty; [exact Hloop|].
    by rewrite names_components, Hnil.
Qed.

Lemma validate_protected_total p :
  is_absolute p = false -> contains_nul p = false -> contains_parent_traversal p = false ->
  lexical_components p <> [] -> is_ok (validate_protected_relative_path p) = true.
Proof.
  intros Ha Hn Ht Hl. unfold validate_protected_relative_path.
  rewrite bool_decide_eq_false_2 by by intros ->. rewrite Hn, Ha.
  apply parent_traversal_elem in Ht. pose proof (components_relative p Ha) as Hcs.
  destruct (normalize_relative_loop_total p "" (components p)) as [r Hr]; [done..|].
  rewrite (proj2 (protected_loop_Ok _ _ _ _) Hr). cbn.
  apply normalize_relative_loop_Ok in Hr as (_ & Hr & _); [|done..].
  rewrite bool_decide_eq_false_2; [done|]. intros ->. by destruct Hl.
Qed.

Lemma validate_protected_idemp p q :
  validate_protected_relative_path p = Ok q ->
  is_ok (validate_protected_relative_path q) = true.
Proof. intros (? & ? & ? & _ & ?)%validate_protected_Ok. by apply validate_protected_total. Qed.

Lemma policy_built_wf f : policy_built f -> policy_wf f.
Proof.
  induction 1 as [rs Hrs| | |f d f' _ (He & Hp & Hm) H|f p f' _ (He & Hp & Hm) H
                 |f _ (He & Hp & Hm)|f r f' _ (He & Hp & Hm) Hr H].
  - split_and!; [|repeat constructor|done]. eapply Forall_impl; [exact Hrs|apply rule_built_wf].
  - repeat constructor.
  - repeat constructor.
  - unfold with_glob_scan_max_depth in H. res_inv. bool_inv. by split_and!.
  - unfold with_additional_protected_relative_path in H. res_inv. bool_inv.
    split_and!; simpl; [done| |done].
    destruct (existsb _ _); [done|]. apply Forall_app.
    split; [done|]. constructor; [|done]. by eapply validate_protected_idemp.
  - split_and!; simpl; [done| |].
    { rewrite Forall_forall in *. intros x [_ Hx]%list_elem_of_filter. auto. }
    intros (? & ? & ->)%Hm. done.
  - unfold with_rule in H. res_inv. bool_inv. split_and!; simpl; [|done..].
    apply Forall_app. split; [done|]. constructor; [by apply rule_built_wf|done].
Qed.

Lemma policy_wf_validate f : policy_wf f -> policy_validate f = Ok ().
Proof.
  intros (He & Hp & Hm). unfold policy_validate. destruct (decide (mode f = Restricted)) as [Hr|Hr].
  - rewrite (bool_decide_eq_false_2 (mode f <> Restricted)) by tauto. simpl.
    rewrite (foldM_unit _ (entries f)); cbn.
    + apply foldM_unit. rewrite Forall_forall in Hp. intros q Hq. apply Hp in Hq.
      by destruct (validate_protected_relative_path q).
    + rewrite Forall_forall in He. intros r Hr'. apply He in Hr' as Hwf.
      rewrite rule_wf_validate by done. destruct Hwf as (_ & _ & Hw & _). cbn.
      destruct (decide (access r = Write)) as [->|Hne]; [done|]. rewrite Hw by done.
      by rewrite andb_false_r.
  - destruct (Hm Hr) as (-> & -> & ->). simpl. by rewrite andb_false_r.
Qed.

(** What validation leaves of a policy *)
Lemma policy_validate_facts f :
  policy_validate f = Ok () ->
  (forall rule pattern, rule ∈ entries f -> target rule = Glob pattern -> access rule = Deny) /\
  (forall q, q ∈ protected_relative_paths f -> is_absolute q = false /\ lexical_components q <> []) /\
  (mode f <> Restricted -> protected_relative_paths f = []).
Proof.
  unfold policy_validate. intros Hv. destruct (_ && _) eqn:Hmode in Hv; [done|]. apply bind_Ok in Hv as ([] & Hrules & Hprot).
  split_and!.
  - intros rule pattern Hin Ht. apply (foldM_unit_inv _ _ Hrules) in Hin as ([] & Hr & _)%bind_Ok.
    unfold rule_validate in Hr. rewrite Ht in Hr. simpl in Hr. by destruct (access rule).
  - intros q Hin. apply (foldM_unit_inv _ _ Hprot) in Hin as (q' & Hq & _)%bind_Ok.
    pose proof (validate_protected_Ok _ _ Hq) as (_ & _ & _ & Hl & Hne). rewrite Hl in Hne. split; [|done].
    unfold validate_protected_relative_path in Hq. by destruct (bool_decide (q = "")), (contains_nul q), (is_absolute q).
  - intros Hr. rewrite bool_decide_eq_true_2 in Hmode by done. simpl in Hmode.
    apply orb_false_iff in Hmode as [_ Hmode%bool_decide_eq_false]. by apply dec_stable.
Qed.

(** Every filesystem policy that can be built through the API validates: the
    builders reject what [FilesystemPolicy::validate] would reject.  Its globs
    are deny-only, read-only carve-outs occur below writable rules only, its
    protected paths name lexical descendants, and a policy without local
    enforcement carries no local settings. *)
Theorem policy_builders_validate (f : FilesystemPolicy) :
  policy_built f ->
  policy_validate f = Ok () /\
  Forall (fun r => (is_glob (target r) = true -> access r = Deny) /\
                   (access r <> Write -> read_only_subpaths r = [])) (entries f) /\
  Forall (fun p => is_absolute p = false /\ contains_parent_traversal p = false /\
                   lexical_components p <> []) (protected_relative_paths f) /\
  (mode f <> Restricted -> entries f = [] /\ protected_relative_paths f = []).
Proof.
  intros Hwf%policy_built_wf. pose proof Hwf as (He & Hp & Hm).
  split_and!; [by apply policy_wf_validate|..].
  - eapply Forall_impl; [exact He|]. intros r (_ & _ & ? & ?). auto.
  - eapply Forall_impl; [exact Hp|].
    intros p (q & (Ha & _ & Ht & Hl & Hne)%validate_protected_Ok)%is_ok_true.
    rewrite contains_parent_traversal_lexical in *. rewrite Hl in *. split_and!; try done.
    apply not_true_iff_false. apply not_true_iff_false in Ha.
    by rewrite is_absolute_lexical in *; rewrite <- Hl.
  - naive_solver.
Qed.

End validation.

(** * Normalization *)

(** The greatest of the present values. *)
Definition opt_max (a b : option nat) : option nat :=
  match a, b with
  | Some x, Some y => Some (Nat.max x y)
  | None, o | o, None => o
  end.

Lemma iter_max_app l1 l2 : iter_max (l1 ++ l2) = opt_max (iter_max l1) (iter_max l2).
Proof.
  assert (forall l acc, foldl (fun acc x => Some (match acc with Some a => Nat.max a x | None => x end)) acc l
          = opt_max acc (iter_max l)) as H.
  { intros l. induction l as [|x l IH]; intros acc; [by destruct acc|]. unfold iter_max. simpl.
    rewrite !IH. destruct acc, (iter_max l); simpl; f_equal; lia. }
  unfold iter_max at 1. rewrite foldl_app. apply H.
Qed.

Lemma opt_max_idemp a : opt_max a a = a.
Proof. destruct a; simpl; [f_equal; lia|done]. Qed.

Lemma opt_max_assoc a b c : opt_max a (opt_max b c) = opt_max (opt_max a b) c.
Proof. destruct a, b, c; simpl; f_equal; lia. Qed.

Lemma opt_max_comm a b : opt_max a b = opt_max b a.
Proof. destruct a, b; simpl; f_equal; lia. Qed.

Section normalization.
Context {G : Globset} (p : path) (c : PathResolutionContext).

(** Equal spellings cover a path with the same specificities. *)
Lemma covering_lexical (l r : list path) :
  lexical_components <$> l = lexical_components <$> r ->
  normal_component_count <$> filter (fun root => is_within p root = true) l =
  normal_component_count <$> filter (fun root => is_within p root = true) r.
Proof.
  revert r; induction l as [|x l IH]; intros [|y r] H; try done. injection H as Hxy Hlr.
  assert (is_within p x = is_within p y) as Hw.
  { apply eq_true_iff_eq. rewrite !is_within_true, !contains_parent_traversal_lexical. by rewrite Hxy. }
  destruct (is_within p y) eqn:E.
  - rewrite !filter_cons_True, !fmap_cons by done.
    by rewrite !normal_component_count_names, Hxy, (IH r).
  - rewrite !filter_cons_False by congruence. auto.
Qed.

Lemma covering_selectors_equal s t :
  selector_wf s -> selector_wf t -> selectors_equal s t = true -> covering s p c = covering t p c.
Proof. intros Hs Ht He. apply covering_lexical. by apply selectors_equal_resolve. Qed.

(** The specificity with which a target matches. *)
Definition target_base (t : FilesystemTarget) : option nat :=
  match t with
  | Scope s => iter_max (covering s p c)
  | Glob g => if pattern_matches g p c then Some (pattern_specificity g) else None
  end.

Lemma target_base_key t u :
  target_wf t -> target_wf u -> key_eqb (target_key t) (target_key u) = true ->
  target_base t = target_base u.
Proof.
  destruct t as [s|g], u as [t|h]; simpl; try done; unfold key_eqb.
  - intros Hs Ht He. by rewrite (covering_selectors_equal s t).
  - intros Hg Hh Hk. case_bool_decide as Heq; [|done].
    by destruct (semantic_key_matches g h p c) as [-> ->].
Qed.

(** The specificity of the carve-outs that contain the path. *)
Definition carve_out (subpaths : list PathSelector) : option nat :=
  iter_max (omap (fun s => iter_max (covering s p c)) subpaths).

Lemma carve_out_snoc (l : list PathSelector) s : carve_out (l ++ [s]) = opt_max (carve_out l) (iter_max (covering s p c)).
Proof.
  unfold carve_out. rewrite omap_app, iter_max_app. simpl.
  by destruct (iter_max (covering s p c)).
Qed.

Lemma carve_out_absorb l s :
  s ∈ l -> opt_max (carve_out l) (iter_max (covering s p c)) = carve_out l.
Proof.
  induction l as [|t l IH] using rev_ind; [set_solver|]. rewrite carve_out_snoc.
  intros [Hs| ->%list_elem_of_singleton]%elem_of_app.
  - rewrite <- opt_max_assoc, (opt_max_comm (iter_max _)), opt_max_assoc. by rewrite IH.
  - by rewrite <- opt_max_assoc, opt_max_idemp.
Qed.

Lemma read_only_fold m subpaths :
  foldl (read_only_step p c) m subpaths =
    match carve_out subpaths with
    | Some s => {| specificity := Nat.max (specificity m) s; rm_access := Read |}
    | None => m
    end.
Proof.
  induction subpaths as [|s l IH] using rev_ind; [done|].
  rewrite foldl_app, IH, carve_out_snoc. simpl. unfold read_only_step.
  destruct (iter_max _), (carve_out l); simpl; try done; f_equal; lia.
Qed.

Definition rule_outcome_of (base : option nat) (a : AccessMode) (subpaths : list PathSelector) : outcome :=
  match base with
  | None => Matched None
  | Some s =>
      match a with
      | Deny => Denied
      | Read => Matched (Some {| specificity := s; rm_access := Read |})
      | Write =>
          Matched (Some match carve_out subpaths with
                        | Some t => {| specificity := Nat.max s t; rm_access := Read |}
                        | None => {| specificity := s; rm_access := Write |}
                        end)
      end
  end.

Lemma rule_outcome_eq r :
  rule_outcome p c r = rule_outcome_of (target_base (target r)) (access r) (read_only_subpaths r).
Proof.
  unfold rule_outcome, matches_path, target_base.
  destruct (target r) as [s|g];
    [destruct (iter_max (covering s p c))|destruct (pattern_matches g p c)]; simpl; try done;
    destruct (access r); simpl; try done; rewrite read_only_fold; by destruct (carve_out _).
Qed.

(** The union of carve-outs that [merge_rule] builds. *)
Lemma carve_out_union (l r : list PathSelector) :
  Forall selector_wf l -> Forall selector_wf r ->
  let u := foldl (fun acc s => if existsb (fun e => selectors_equal e s) acc then acc else acc ++ [s]) l r in
  Forall selector_wf u /\ carve_out u = opt_max (carve_out l) (carve_out r) /\
  (u = [] -> l = [] /\ r = []).
Proof.
  intros Hl Hr. induction r as [|s r IH] using rev_ind; simpl.
  { split_and!; [done| |by intros ->]. by destruct (carve_out l). }
  apply Forall_app in Hr as [Hr Hs]. rewrite Forall_singleton in Hs.
  destruct (IH Hr) as (Hu & Hc & Hn). rewrite foldl_app, carve_out_snoc. simpl.
  destruct (existsb _ _) eqn:He.
  - apply existsb_elem in He as (e & Hin & He). split_and!; [done| |].
    + rewrite Forall_forall in Hu. rewrite opt_max_assoc, <- Hc.
      rewrite <- (covering_selectors_equal e s) by auto. by rewrite carve_out_absorb.
    + intros Hnil. rewrite Hnil in Hin. set_solver.
  - split_and!; [apply Forall_app; auto|by rewrite carve_out_snoc, Hc, opt_max_assoc|].
    by destruct (foldl _ _ _).
Qed.

Definition same_target (e r : FilesystemRule) : Prop :=
  key_eqb (target_key (target e)) (target_key (target r)) = true.

(** Two rules on one target lose nothing when merged: a carve-out does not meet
    a rule that is read-only already. *)
Definition mergeable (e r : FilesystemRule) : Prop :=
  (access e = Read -> read_only_subpaths r = []) /\
  (access r = Read -> read_only_subpaths e = []).

Lemma merge_rule_outcome e r :
  rule_wf e -> rule_wf r -> same_target e r -> mergeable e r ->
  rule_outcome p c (merge_rule e r) = combine (rule_outcome p c e) (rule_outcome p c r).
Proof.
  intros (Hte & Hse & Hwe & _) (Htr & Hsr & Hwr & _) Hk [Her Hre].
  rewrite !rule_outcome_eq, (target_base_key _ _ Hte Htr Hk). simpl.
  rewrite (target_base_key _ _ Hte Htr Hk).
  destruct (target_base (target r)) as [s|]; [|done]. simpl.
  destruct (access e), (access r); simpl; try done.
  - unfold match_join, better_match. simpl. by rewrite Nat.ltb_irrefl, Nat.eqb_refl.
  - rewrite Her by done. unfold match_join, better_match. simpl.
    by rewrite Nat.ltb_irrefl, Nat.eqb_refl.
  - rewrite Hre by done. unfold match_join, better_match. simpl.
    by rewrite Nat.ltb_irrefl, Nat.eqb_refl.
  - destruct (carve_out_union _ _ Hse Hsr) as (_ & -> & _).
    destruct (carve_out (read_only_subpaths e)), (carve_out (read_only_subpaths r));
      unfold match_join, better_match; simpl; match_cases; repeat case_match; simpl;
      rewrite ?Nat.ltb_lt, ?Nat.ltb_ge, ?Nat.eqb_eq, ?Nat.eqb_neq in *; do 3 f_equal; lia.
Qed.

(** Outcomes that agree on whether the path is denied and whether it is matched. *)
Definition same_denial (o o' : outcome) : Prop :=
  (o = Denied <-> o' = Denied) /\ (o = Matched None <-> o' = Matched None).

Lemma merge_rule_denial e r :
  rule_wf e -> rule_wf r -> same_target e r ->
  same_denial (rule_outcome p c (merge_rule e r)) (combine (rule_outcome p c e) (rule_outcome p c r)).
Proof.
  intros (Hte & _) (Htr & _) Hk.
  rewrite !rule_outcome_eq. simpl. rewrite (target_base_key _ _ Hte Htr Hk).
  unfold same_denial. destruct (target_base (target r)); [|done]. by destruct (access e), (access r).
Qed.

End normalization.

#[global] Instance same_denial_equiv : Equivalence same_denial.
Proof. split; unfold same_denial; repeat intro; naive_solver. Qed.

#[global] Instance combine_denial : Proper (same_denial ==> same_denial ==> same_denial) combine.
Proof.
  intros o o' [H1 H2] u u' [H3 H4]. unfold same_denial.
  destruct o as [|[]], o' as [|[]], u as [|[]], u' as [|[]]; simpl; try done; naive_solver.
Qed.

Section normalize_loop.
Context {G : Globset}.

#[global] Instance same_target_equiv : Equivalence same_target.
Proof.
  unfold same_target, key_eqb. split.
  - intros r. destruct (target r); simpl; [by apply selectors_equal_equiv|].
    by apply bool_decide_eq_true.
  - intros e r. destruct (target e), (target r); simpl; try done.
    + intros H. by apply selectors_equal_equiv.
    + rewrite !bool_decide_eq_true. congruence.
  - intros e r q. destruct (target e), (target r), (target q); simpl; try done.
    + apply selectors_equal_equiv.
    + rewrite !bool_decide_eq_true. congruence.
Qed.

(** The merged carve-outs are validated selectors. *)
Lemma union_wf (l r : list PathSelector) :
  Forall selector_wf l -> Forall selector_wf r ->
  Forall selector_wf
    (foldl (fun acc s => if existsb (fun e => selectors_equal e s) acc then acc else acc ++ [s]) l r).
Proof.
  intros Hl Hr. revert l Hl. induction Hr; intros; simpl; [done|].
  apply IHHr. case_match; [done|]. apply Forall_app; auto.
Qed.

Lemma merge_rule_wf e r : rule_wf e -> rule_wf r -> same_target e r -> rule_wf (merge_rule e r).
Proof.
  intros (Hte & Hse & Hwe & Hge) (Htr & Hsr & Hwr & Hgr) Hk. unfold rule_wf. simpl. split_and!.
  - done.
  - case_bool_decide; [constructor|]. by apply union_wf.
  - intros Hw. by rewrite bool_decide_eq_true_2.
  - intros Hg. by rewrite Hge.
Qed.

(** Where an entry of the loop comes from. *)
Definition origin (all : list FilesystemRule) (e : FilesystemRule) : Prop :=
  rule_wf e /\
  (access e = Read -> exists r, r ∈ all /\ same_target r e /\ access r = Read) /\
  (read_only_subpaths e <> [] -> exists r, r ∈ all /\ same_target r e /\ read_only_subpaths r <> []).

Lemma origin_self all r : rule_wf r -> r ∈ all -> origin all r.
Proof. intros Hwf Hr. split_and!; [done|..]; intros; exists r; split_and!; done || reflexivity. Qed.

Lemma origin_merge all e r :
  origin all e -> rule_wf r -> r ∈ all -> same_target e r -> origin all (merge_rule e r).
Proof.
  intros (Hwf & Ha & Hs) Hr Hin Hk. split_and!; [by apply merge_rule_wf| |].
  - simpl. intros Hm. change (same_target ?q (merge_rule e r)) with (same_target q e).
    destruct (access e) eqn:Ee, (access r) eqn:Er; try done; try (by apply Ha).
    exists r. split_and!; [done|by symmetry|done].
  - simpl. case_bool_decide as Hw; [done|]. intros Hne.
    change (same_target ?q (merge_rule e r)) with (same_target q e).
    destruct (decide (read_only_subpaths e = [])) as [He|He]; [|by apply Hs].
    exists r. split_and!; [done|by symmetry|]. intros Hnil. rewrite He, Hnil in Hne. done.
Qed.

Lemma rules_outcome_summary p c rs :
  rules_outcome p c rs = summary (rule_outcome p c) combine (Matched None) rs.
Proof. unfold rules_outcome. induction rs as [|r rs IH]; [done|]. simpl. by rewrite <- IH. Qed.

End normalize_loop.

Section normalized.
Context {G : Globset}.

(** The entries of a normalized policy, related to the original ones. *)
Lemma normalized_related f f' p c (R : outcome -> outcome -> Prop)
    `{!Equivalence R, !Proper (R ==> R ==> R) combine} :
  policy_wf f -> normalized f = Ok f' ->
  (forall e r, origin (entries f) e -> r ∈ entries f -> same_target e r ->
     R (rule_outcome p c (merge_rule e r)) (combine (rule_outcome p c e) (rule_outcome p c r))) ->
  mode f' = mode f /\ protected_relative_paths f' = protected_relative_paths f /\
  R (rules_outcome p c (entries f')) (rules_outcome p c (entries f)).
Proof.
  intros (He & _) H HR. unfold normalized in H. res_inv. case_bool_decide; res_inv.
  { done. }
  split_and!; [done..|]. simpl.
  rewrite !rules_outcome_summary. unfold normalize_rules.
  rewrite Forall_forall in He.
  eapply (fun H1 H2 H3 H4 H5 H6 H7 => proj2 (keyed_collapse_related rule_key key_eqb merge_rule H1
            (rule_outcome p c) combine (Matched None) R H2 H3 H4 (entries f) (origin (entries f)) H5 H6 H7)).
  - done.
  - intros x y. apply combine_comm.
  - intros x y z. apply combine_assoc.
  - apply combine_none_l.
  - intros r Hr. apply origin_self; auto.
  - intros e r Ho Hr Hk. apply origin_merge; auto. by symmetry.
  - intros e r Ho Hr Hk. apply HR; auto. by symmetry.
Qed.

Lemma origin_mergeable all e r :
  (forall e r, e ∈ all -> r ∈ all -> same_target e r -> mergeable e r) ->
  origin all e -> r ∈ all -> same_target e r -> mergeable e r.
Proof.
  intros Hall (_ & Ha & Hs) Hr Hk. split.
  - intros (q & Hq & Hqe & Hqa)%Ha.
    assert (same_target q r) as Hqr by by etrans. by apply (Hall q r).
  - intros Her. destruct (decide (read_only_subpaths e = [])) as [|(q & Hq & Hqe & Hqs)%Hs]; [done|].
    assert (same_target q r) as Hqr by by etrans. destruct (Hall q r) as [_ Hm]; auto. by destruct Hqs; auto.
Qed.

(** Normalization succeeds on every policy that can be built. *)
Lemma normalized_ok f : policy_wf f -> exists f', normalized f = Ok f' /\ mode f' = mode f.
Proof.
  intros Hf. unfold normalized. rewrite policy_wf_validate by done. cbn. case_bool_decide; eauto.
Qed.

(** No target carries both a read-only rule and a writable rule with carve-outs. *)
Definition all_mergeable (rules : list FilesystemRule) : Prop :=
  forall e r, e ∈ rules -> r ∈ rules -> same_target e r -> mergeable e r.

Lemma normalized_access f f' p c :
  policy_wf f -> all_mergeable (entries f) -> normalized f = Ok f' ->
  access_for_path f' p c = access_for_path f p c.
Proof.
  intros Hf Hm Hf'.
  destruct (normalized_related f f' p c (=)) as (Hmode & Hprot & Hout); [done..| |].
  { intros e r He Hr Hk. destruct Hf as [Hf _]. rewrite Forall_forall in Hf.
    apply merge_rule_outcome; [apply He|by apply Hf|done|by eapply origin_mergeable]. }
  destruct (decide (mode f = Restricted)) as [Hr|Hr].
  - destruct (decide (valid_absolute p)) as [Hv|Hv].
    + rewrite !access_for_path_outcome by congruence || done. unfold is_protected_path.
      by rewrite Hprot, Hout.
    + by rewrite (access_for_path_invalid f' f).
  - unfold access_for_path. rewrite Hmode. by destruct (mode f).
Qed.

Lemma normalized_denial f f' p c :
  policy_wf f -> normalized f = Ok f' ->
  access_for_path f' p c = Ok FDeny <-> access_for_path f p c = Ok FDeny.
Proof.
  intros Hf Hf'.
  destruct (normalized_related f f' p c same_denial) as (Hmode & Hprot & Hd & Hn); [done..| |].
  { intros e r He Hr Hk. apply merge_rule_denial; [apply He| |done].
    destruct Hf as [Hf _]. rewrite Forall_forall in Hf. by apply Hf. }
  destruct (decide (mode f = Restricted)) as [Hr|Hr].
  - destruct (decide (valid_absolute p)) as [Hv|Hv].
    + rewrite !access_for_path_outcome by congruence || done. unfold is_protected_path.
      rewrite Hprot. set (b := existsb _ _).
      pose proof (rules_outcome_not_deny p c (entries f')) as H1.
      pose proof (rules_outcome_not_deny p c (entries f)) as H2.
      destruct (rules_outcome p c (entries f')) as [|[[? []]|]],
        (rules_outcome p c (entries f)) as [|[[? []]|]]; simpl in *;
        destruct b; naive_solver.
    + by rewrite (access_for_path_invalid f' f).
  - unfold access_for_path. rewrite Hmode. by destruct (mode f).
Qed.

(** C34. Normalization succeeds on every policy that can be built, keeps its mode,
    never lifts a denial and never adds one; and it preserves every decision,
    provided no target carries both a read-only rule and a writable rule with
    read-only carve-outs. *)
Theorem normalized_preserves (f : FilesystemPolicy) :
  policy_built f ->
  exists f', normalized f = Ok f' /\ mode f' = mode f /\
    (forall p c, access_for_path f' p c = Ok FDeny <-> access_for_path f p c = Ok FDeny) /\
    ((forall e r, e ∈ entries f -> r ∈ entries f -> same_target e r -> mergeable e r) ->
     forall p c, access_for_path f' p c = access_for_path f p c).
Proof.
  intros Hf%policy_built_wf. destruct (normalized_ok f Hf) as (f' & Hf' & Hmode).
  exists f'. split_and!; [done|done| |].
  - intros p c. by apply normalized_denial.
  - intros Hm p c. by apply normalized_access.
Qed.

End normalized.

(** * Selectors and spellings *)

Section selectors.
Context {G : Globset}.

Lemma access_for_path_total f p c :
  valid_absolute p -> exists d, access_for_path f p c = Ok d.
Proof.
  intros Hp. destruct (mode f) eqn:Hm.
  - rewrite access_for_path_outcome by done. by eexists.
  - destruct Hp as (Ha & Hn & Ht). unfold access_for_path. rewrite Hn, Ha, Ht, Hm. by eexists.
  - destruct Hp as (Ha & Hn & Ht). unfold access_for_path. rewrite Hn, Ha, Ht, Hm. by eexists.
Qed.

Lemma access_for_path_local f p c d :
  mode f <> External -> access_for_path f p c = Ok d -> d <> FExternallyEnforced.
Proof.
  intros Hm H. assert (valid_absolute p) as Hp.
  { unfold access_for_path in H. res_inv. bool_inv. done. }
  destruct (mode f) eqn:E; [| |done].
  - rewrite access_for_path_outcome in H by done. res_inv.
    destruct (rules_outcome p c (entries f)) as [|[[? []]|]]; simpl; try done.
    by destruct (is_protected_path f p).
  - unfold access_for_path in H. rewrite E in H. by res_inv.
Qed.

Definition combine_all (ds : list FilesystemDecision) : option FilesystemDecision :=
  foldl (fun acc d => Some (combine_decision acc d)) None ds.

Lemma combine_all_spec ds :
  Forall (fun d => d <> FExternallyEnforced) ds ->
  match combine_all ds with
  | None => ds = []
  | Some d => ds <> [] /\ (d = FDeny <-> FDeny ∈ ds) /\
      (d = FWrite <-> Forall (fun d => d = FWrite) ds) /\ d <> FExternallyEnforced
  end.
Proof.
  induction ds as [|d ds IH] using rev_ind; [done|]. intros [Hds Hd]%Forall_app.
  rewrite Forall_singleton in Hd. unfold combine_all. rewrite foldl_app. simpl.
  fold (combine_all ds). specialize (IH Hds). rewrite elem_of_app, list_elem_of_singleton, Forall_app, Forall_singleton.
  destruct (combine_all ds) as [d'|].
  - destruct IH as (? & IH1 & IH2 & IH3). destruct d', d; simpl; split_and!; try done;
      try (by destruct ds); naive_solver.
  - subst. destruct d; simpl; split_and!; try done; set_solver.
Qed.

Lemma foldM_access_for f c l acc ds :
  Forall2 (fun p d => access_for_path f p c = Ok d) l ds ->
  foldM (fun acc p => d ← access_for_path f p c; Ok (Some (combine_decision acc d))) acc l =
    Ok (foldl (fun acc d => Some (combine_decision acc d)) acc ds).
Proof.
  intros H. revert acc. induction H as [|p d l ds Hp _ IH]; intros acc; simpl; [done|].
  rewrite Hp. apply IH.
Qed.

(** A validated selector always gets a decision in a context built by the
    harness: it is denied when it resolves to nothing or one of its paths is
    denied, and writable exactly when it resolves to something and every
    resolved path is writable. *)
Theorem access_for_spec (f : FilesystemPolicy) (s : PathSelector) (c : PathResolutionContext) :
  context_built c -> selector_wf s -> mode f <> External ->
  exists d, access_for f s c = Ok d /\
    (d = FDeny <-> resolve s c = [] \/ exists p, p ∈ resolve s c /\ access_for_path f p c = Ok FDeny) /\
    (d = FWrite <-> resolve s c <> [] /\ forall p, p ∈ resolve s c -> access_for_path f p c = Ok FWrite) /\
    d <> FExternallyEnforced.
Proof.
  intros Hc%context_built_wf Hs Hm. pose proof (resolve_valid s c Hc Hs) as Hv.
  assert (exists ds, Forall2 (fun p d => access_for_path f p c = Ok d) (resolve s c) ds) as [ds Hds].
  { induction Hv as [|p l Hp _ [ds IH]]; [by exists []|].
    destruct (access_for_path_total f p c Hp) as [d Hd]. exists (d :: ds). by constructor. }
  unfold access_for. rewrite bool_decide_eq_false_2 by done. rewrite (foldM_access_for f c _ None ds) by done.
  eexists. split; [reflexivity|]. fold (combine_all ds).
  assert (Forall (fun d => d <> FExternallyEnforced) ds) as Hloc.
  { eapply Forall2_Forall_r; [exact Hds|]. apply Forall_forall. intros p _ d. by apply access_for_path_local. }
  pose proof (combine_all_spec ds Hloc) as Hspec. clear Hloc.
  assert (forall d, d ∈ ds <-> exists p, p ∈ resolve s c /\ access_for_path f p c = Ok d) as Helem.
  { intros d. clear Hspec Hv. induction Hds as [|p d' l ds Hp _ IH]; [set_solver|].
    rewrite elem_of_cons, IH. setoid_rewrite elem_of_cons. split.
    - intros [->|(q & ? & ?)]; eauto.
    - intros (q & [->|?] & Hq); [left; congruence|eauto]. }
  assert (resolve s c = [] <-> ds = []) as Hnil by (inversion Hds; naive_solver).
  destruct (combine_all ds) as [d|]; cbn.
  - destruct Hspec as (Hne & Hd & Hw & Hx). rewrite Hd, Helem. split_and!; [naive_solver| |done].
    rewrite Hw, Forall_forall. split.
    + intros Hall. split; [naive_solver|]. intros p Hp.
      rewrite Forall_forall in Hv. destruct (access_for_path_total f p c) as [d' Hd']; [auto|].
      rewrite Hd'. f_equal. apply Hall, Helem. eauto.
    + intros [_ Hall] d' (p & Hp & Hpd)%Helem. rewrite Hall in Hpd by done. congruence.
  - subst. split_and!; [naive_solver|naive_solver|done].
Qed.

(** A decision depends on the lexical path only: two validated spellings of
    one path get the same decision under every policy. *)
Theorem access_for_path_lexical (f : FilesystemPolicy) (p q : path) (c : PathResolutionContext) :
  valid_absolute p -> valid_absolute q -> paths_equal p q = true ->
  access_for_path f p c = access_for_path f q c.
Proof.
  intros Hp Hq Heq%paths_equal_true.
  destruct (decide (mode f = Restricted)) as [Hm|Hm].
  - rewrite !access_for_path_outcome by done.
    assert (forall root, is_within p root = is_within q root) as Hw.
    { intros root. apply eq_true_iff_eq. rewrite !is_within_true, !contains_parent_traversal_lexical, Heq.
      destruct Hp as [-> _], Hq as [-> _]. done. }
    assert (forall s, covering s p c = covering s q c) as Hcov.
    { intros s. unfold covering. f_equal. apply list_filter_iff. intros root. by rewrite Hw. }
    assert (path_components p = path_components q) as Hpc by by rewrite !path_components_eq, Heq.
    f_equal. f_equal.
    + unfold is_protected_path. apply eq_true_iff_eq. rewrite !existsb_elem.
      setoid_rewrite contains_component_path_true. by rewrite Heq.
    + unfold rules_outcome. f_equal. apply list_fmap_ext. intros _ r _. rewrite !rule_outcome_eq.
      assert (target_base p c (target r) = target_base q c (target r)) as ->.
      { unfold target_base. destruct (target r) as [s|g]; [by rewrite Hcov|].
        unfold pattern_matches, relative_path_components. rewrite Hpc.
        destruct Hp as [-> _], Hq as [-> _]. done. }
      unfold rule_outcome_of, carve_out.
      assert (omap (fun s => iter_max (covering s p c)) (read_only_subpaths r) =
              omap (fun s => iter_max (covering s q c)) (read_only_subpaths r)) as ->; [|done].
      apply list_omap_ext. apply Forall2_same_length_lookup. split; [done|].
      intros i x y Hx Hy. simplify_eq. by rewrite Hcov.
  - unfold access_for_path. destruct Hp as (-> & -> & ->), Hq as (-> & -> & ->). by destruct (mode f).
Qed.

End selectors.

(** * Examples *)

Section examples.
#[local] Existing Instance literal_globset.

Definition at_path (p : path) : PathSelector := {| ps_kind := Absolute p |}.

Definition carved_rule : FilesystemRule :=
  {| target := Scope (at_path "/a"); access := Write; missing_path_behavior := MError;
     read_only_subpaths := [at_path "/a/b/c"] |}.

Lemma at_path_wf p :
  is_absolute p && negb (contains_nul p) && negb (contains_parent_traversal p) = true ->
  selector_wf (at_path p).
Proof. intros H. bool_inv. done. Qed.

Lemma carved_rule_built : rule_built carved_rule.
Proof.
  apply (built_read_only (rule_new (at_path "/a") Write) (at_path "/a/b/c"));
    [apply built_new|..]; [by apply at_path_wf..|reflexivity].
Qed.

Definition mixed_policy : FilesystemPolicy :=
  restricted [carved_rule; rule_new (at_path "/a") Read; rule_new (at_path "/a/b") Write].

Lemma mixed_policy_built : policy_built mixed_policy.
Proof.
  apply built_restricted. repeat constructor; [apply carved_rule_built|..]; by apply at_path_wf.
Qed.

(** What normalization makes of it: the first two rules merge into a read-only
    one and the carve-out is gone. *)
Definition mixed_policy_normalized : FilesystemPolicy :=
  restricted [rule_new (at_path "/a") Read; rule_new (at_path "/a/b") Write].

Lemma mixed_policy_normalizes : normalized mixed_policy = Ok mixed_policy_normalized.
Proof. reflexivity. Qed.

Definition doubled_policy : FilesystemPolicy :=
  restricted [rule_new (at_path "/a") Read; rule_new (at_path "/a/.") Write].

(** Without that proviso normalization can widen access: a read-only rule on the target of a carved-out writable rule
    drops the carve-out, and a writable rule of intermediate specificity then
    governs the path, which was readable and becomes writable. *)
Lemma normalized_can_widen :
  exists f f' : FilesystemPolicy,
    policy_built f /\ normalized f = Ok f' /\
    access_for_path f "/a/b/c/file" context_new = Ok FRead /\
    access_for_path f' "/a/b/c/file" context_new = Ok FWrite.
Proof.
  exists mixed_policy, mixed_policy_normalized. split; [apply mixed_policy_built|].
  split; [apply mixed_policy_normalizes|]. split; reflexivity.
Qed.

Lemma access_for_path_spec_witness :
  exists d, access_for_path mixed_policy "/a/b/c/file" context_new = Ok d /\ d <> FExternallyEnforced.
Proof.
  destruct (access_for_path_spec mixed_policy "/a/b/c/file" context_new) as (d & Hd & _ & _ & Hx);
    [reflexivity|by vm_compute|].
  exists d. split; [exact Hd|exact Hx].
Defined.

Lemma access_for_path_order_witness :
  access_for_path (restricted [carved_rule; rule_new (at_path "/a/b") Write]) "/a/b/c" context_new =
  access_for_path (restricted [rule_new (at_path "/a/b") Write; carved_rule]) "/a/b/c" context_new.
Proof.
  apply access_for_path_order; [reflexivity|reflexivity| |reflexivity]. apply Permutation_swap.
Defined.

Lemma policy_builders_validate_witness : policy_validate mixed_policy = Ok ().
Proof. exact (proj1 (policy_builders_validate mixed_policy mixed_policy_built)). Defined.

Lemma normalized_preserves_witness :
  exists f', normalized doubled_policy = Ok f' /\
    forall p c, access_for_path f' p c = access_for_path doubled_policy p c.
Proof.
  destruct (normalized_preserves doubled_policy) as (f' & Hf' & _ & _ & Hall).
  - apply built_restricted. repeat constructor; by apply at_path_wf.
  - exists f'. split; [exact Hf'|]. apply Hall.
    intros e r He Hr _. repeat (apply elem_of_cons in He as [->|He]); try (by apply elem_of_nil in He);
      repeat (apply elem_of_cons in Hr as [->|Hr]); try (by apply elem_of_nil in Hr); done.
Defined.

Lemma access_for_spec_witness :
  exists d, access_for mixed_policy selector_workspace_root context_new = Ok d /\ d <> FExternallyEnforced.
Proof.
  destruct (access_for_spec mixed_policy selector_workspace_root context_new)
    as (d & Hd & _ & _ & Hx); [constructor|by vm_compute|done|].
  exists d. split; [exact Hd|exact Hx].
Defined.

Lemma access_for_path_lexical_witness :
  access_for_path mixed_policy "/a//b/./c" context_new = access_for_path mixed_policy "/a/b/c" context_new.
Proof. apply access_for_path_lexical; [by vm_compute..|reflexivity]. Defined.

End examples.
