(* ===== verification/Domain.v ===== *)
(** [cageforge-policy]: host names and domain rules of [network.rs]: the
    normalization of hosts and patterns, their validation, and the matchers
    compiled from a pattern. *)

From Stdlib Require Import Ascii String NArith Lia.
From stdpp Require Import base list strings option.
From S2P Require Import Prelude Text NativePath IpAddr Access.

Inductive DomainAccess := DAllow | DDeny.

#[global] Instance DomainAccess_eq_dec : EqDecision DomainAccess.
Proof. solve_decision. Defined.

(** * Literals and hosts *)

(** [port.parse::<u16>()] on a string of digits *)
Definition parse_u16 (s : string) : option N :=
  let value := foldl (fun acc a => acc * 10 + (byte_val a - 48))%N 0%N (list_ascii_of_string s) in
  if (value <? 65536)%N then Some value else None.

Definition valid_port (port : string) : bool :=
  negb (bool_decide (port = "")) && str_all is_ascii_digit port && bool_decide (is_Some (parse_u16 port)).

Definition valid_port_suffix (suffix : string) : bool :=
  match strip_prefix ":" suffix with
  | Some port => valid_port port
  | None => false
  end.

(** The loop over the delimiters of [normalize_ip_literal] *)
Fixpoint scoped_literal (delimiters : list string) (host : string) : option string :=
  match delimiters with
  | [] => None
  | delimiter :: rest =>
      match split_once delimiter host with
      | Some (ip, scope) =>
          if bool_decide (is_Some (parse_ip ip)) then Some (ip +:+ "%" +:+ scope)
          else scoped_literal rest host
      | None => scoped_literal rest host
      end
  end.

Definition normalize_ip_literal (host : string) : option string :=
  if bool_decide (is_Some (parse_ip host)) then Some host
  else scoped_literal ["%25"; "%"] host.

Definition parse_ip_literal (host : string) : option IpAddr :=
  match split_once "%" host with
  | None => parse_ip host
  | Some (address, _) => parse_ip address
  end.

Definition normalize_dns_host_or_ip_literal (host : string) : string :=
  let host := trim_end_matches "." (to_ascii_lowercase host) in
  match normalize_ip_literal host with Some ip => ip | None => host end.

Fixpoint count_char (c : ascii) (s : string) : nat :=
  match s with
  | EmptyString => 0
  | String a s' => (if Ascii.eqb c a then 1 else 0) + count_char c s'
  end.

(** [normalize_host] without a usable bracketed literal *)
Definition normalize_plain_host (host : string) : option string :=
  match count_char ":" host with
  | 0 => Some (normalize_dns_host_or_ip_literal host)
  | 1 =>
      match split_once ":" host with
      | Some (host, port) =>
          if negb (valid_port port) then None else Some (normalize_dns_host_or_ip_literal host)
      | None => None
      end
  | _ => normalize_dns_host_or_ip_literal <$> normalize_ip_literal host
  end.

Definition normalize_host (host : string) : option string :=
  let host := trim host in
  match strip_prefix "[" host with
  | Some bracketed =>
      match split_once "]" bracketed with
      | None => None
      | Some (inner, suffix) =>
          match normalize_ip_literal inner with
          | Some ip =>
              if negb (bool_decide (suffix = "")) && negb (valid_port_suffix suffix) then None
              else Some (normalize_dns_host_or_ip_literal ip)
          | None => normalize_plain_host host
          end
      end
  | None => normalize_plain_host host
  end.

(** * Patterns *)

Definition valid_domain_literal (pattern : string) : bool :=
  negb (bool_decide (pattern = "")) && negb (contains_char "*" pattern)
  && negb (contains_char "?" pattern)
  && (negb (contains_char ":" pattern) || bool_decide (is_Some (normalize_ip_literal pattern))).

Definition pattern_label_char (c : char) : bool :=
  negb (is_whitespace c) && negb (is_control c)
  && negb ((c =? 58)%N || (c =? 37)%N || (c =? 64)%N).

Definition valid_domain_pattern (pattern : string) : bool :=
  if bool_decide (pattern = "*") then true
  else if contains_char ":" pattern || contains_char "%" pattern then valid_domain_literal pattern
  else
    let suffix := match strip_prefix "**." pattern with
                  | Some suffix => suffix
                  | None => default pattern (strip_prefix "*." pattern)
                  end in
    negb (bool_decide (suffix = ""))
    && forallb (fun label => negb (bool_decide (label = ""))
                             && forallb pattern_label_char (chars label))
         (str_split "." suffix).

Definition normalize_domain_pattern (raw : string) : result PolicyError string :=
  let raw := trim raw in
  let invalid_syntax :=
    bool_decide (raw = "") || contains_str "://" raw || contains_char "/" raw
    || contains_char "#" raw || existsb is_whitespace (chars raw) || existsb is_control (chars raw) in
  reject invalid_syntax with InvalidDomainPattern raw ;;
  let '(prefix, remainder) :=
    match strip_prefix "**." raw with
    | Some remainder => ("**.", remainder)
    | None =>
        match strip_prefix "*." raw with
        | Some remainder => ("*.", remainder)
        | None => ("", raw)
        end
    end in
  remainder ← ok_or (InvalidDomainPattern raw) (normalize_host remainder);
  let pattern := if bool_decide (prefix = "") then remainder else prefix +:+ remainder in
  if valid_domain_pattern pattern then Ok pattern else Err (InvalidDomainPattern raw).

Section unicode.
Context {U : Unicode}.

Definition host_label_char (c : char) : bool :=
  char_is_alphanumeric c || (c =? 45)%N || (c =? 95)%N.

Definition valid_concrete_host (host : string) : bool :=
  if bool_decide (is_Some (parse_ip_literal host)) then true
  else
    (String.length host <=? 253)%nat
    && forallb (fun label =>
         negb (bool_decide (label = "")) && (String.length label <=? 63)%nat
         && negb (starts_with_char "-" label) && negb (ends_with_char "-" label)
         && forallb host_label_char (chars label))
       (str_split "." host).

Definition normalize_domain (raw : string) : result PolicyError string :=
  normalized ← normalize_domain_pattern raw;
  reject negb (valid_concrete_host normalized) with InvalidDomainPattern raw ;;
  Ok normalized.

End unicode.

(** * Matchers and rules *)

Section rules.
Context {G : Globset}.

(** [GlobBuilder::new(..).case_insensitive(true)], the other options at their
    POSIX defaults *)
Definition domain_options : GlobOptions := {|
  go_case_insensitive := true;
  go_literal_separator := false;
  go_backslash_escape := true
|}.

Inductive DomainMatcher :=
  | Any
  | Full (matcher : GlobMatcher)
  | Suffix (labels : list GlobMatcher) (include_apex : bool).

Record DomainRule := {
  dr_pattern : string;
  dr_access : DomainAccess;
  dr_matcher : DomainMatcher
}.

(** [Iterator::collect] into a [Result] *)
Fixpoint compile_labels (labels : list string) (pattern : string) :
  result PolicyError (list GlobMatcher) :=
  match labels with
  | [] => Ok []
  | label :: rest =>
      m ← map_err (fun _ => InvalidDomainPattern pattern) (glob_build domain_options label);
      ms ← compile_labels rest pattern;
      Ok (m :: ms)
  end.

Definition compile_domain_labels (suffix pattern : string) : result PolicyError (list GlobMatcher) :=
  compile_labels (str_split "." suffix) pattern.

Definition compile_domain_matcher (pattern : string) : result PolicyError DomainMatcher :=
  if bool_decide (pattern = "*") then Ok Any
  else
    match strip_prefix "**." pattern with
    | Some suffix =>
        labels ← compile_domain_labels suffix pattern; Ok (Suffix labels true)
    | None =>
        match strip_prefix "*." pattern with
        | Some suffix =>
            labels ← compile_domain_labels suffix pattern; Ok (Suffix labels false)
        | None =>
            m ← map_err (fun _ => InvalidDomainPattern pattern) (glob_build domain_options pattern);
            Ok (Full m)
        end
    end.

Definition DomainRule_new (pattern : string) (a : DomainAccess) : result PolicyError DomainRule :=
  pattern ← normalize_domain_pattern pattern;
  matcher ← compile_domain_matcher pattern;
  Ok {| dr_pattern := pattern; dr_access := a; dr_matcher := matcher |}.

(** [DomainRule::matches] *)
Definition domain_matches (m : DomainMatcher) (domain : string) : bool :=
  match m with
  | Any => true
  | Full matcher => is_match matcher domain
  | Suffix labels include_apex =>
      let parts := str_split "." domain in
      if (length parts <? length labels)%nat
         || negb include_apex && (length parts =? length labels)%nat
      then false
      else forallb (fun '(part, matcher) => is_match matcher part)
             (zip (reverse parts) (reverse labels))
  end.

(** [impl PartialEq for DomainRule] *)
Definition domain_rule_eqb (r s : DomainRule) : bool :=
  bool_decide (dr_pattern r = dr_pattern s) && bool_decide (dr_access r = dr_access s).

End rules.

(** * What a rule matches *)

Section meaning.
Context {G : Globset}.

Definition label_matches (part : string) (m : GlobMatcher) : Prop := is_match m part = true.

Lemma forallb_zip_Forall2 (parts : list string) (ms : list GlobMatcher) :
  length ms <= length parts ->
  forallb (fun '(part, m) => is_match m part) (zip parts ms) = true <->
  exists front back, parts = front ++ back /\ Forall2 label_matches front ms.
Proof.
  revert parts; induction ms as [|m ms IH]; intros parts Hl.
  - split; [|by destruct parts]. intros _. exists [], parts. auto.
  - destruct parts as [|part parts]; simpl in *; [lia|].
    rewrite andb_true_iff, IH by lia. split.
    + intros (Hm & front & back & -> & Hf). exists (part :: front), back. auto.
    + intros (front & back & Heq & Hf). inversion Hf; subst. simplify_list_eq. eauto 6.
Qed.

(** A suffix matcher accepts a domain exactly when the domain's last labels
    match the pattern's labels one by one, and, unless the apex is included,
    at least one more label precedes them. *)
Theorem suffix_matches_spec (labels : list GlobMatcher) (include_apex : bool) (domain : string) :
  domain_matches (Suffix labels include_apex) domain = true <->
  exists front back, str_split "." domain = front ++ back /\
    Forall2 (fun part m => is_match m part = true) back labels /\
    (include_apex = true \/ front <> []).
Proof.
  simpl. set (parts := str_split "." domain). split.
  - destruct (Nat.ltb_spec (length parts) (length labels)); simpl; [done|].
    destruct (negb include_apex && _) eqn:Ha; [done|].
    rewrite forallb_zip_Forall2 by (rewrite !length_reverse; lia).
    intros (r1 & r2 & Hrev & Hf). exists (reverse r2), (reverse r1).
    assert (parts = reverse r2 ++ reverse r1) as Hparts.
    { by rewrite <- reverse_app, <- Hrev, reverse_involutive. }
    split_and!; [done| |].
    + apply Forall2_reverse in Hf. by rewrite reverse_involutive in Hf.
    + destruct include_apex; [by left|right]. intros Hnil. simpl in Ha.
      apply Nat.eqb_neq in Ha. apply Ha. rewrite Hparts, Hnil. simpl.
      apply Forall2_length in Hf. rewrite length_reverse in Hf. by rewrite length_reverse.
  - intros (front & back & Hparts & Hf & Ha). rewrite Hparts.
    apply Forall2_length in Hf as Hlen. rewrite length_app, Hlen.
    destruct (Nat.ltb_spec (length front + length labels) (length labels)); simpl; [lia|].
    assert (negb include_apex && (length front + length labels =? length labels)%nat = false) as ->.
    { destruct Ha as [->|Ha]; [done|]. apply andb_false_iff. right. apply Nat.eqb_neq.
      destruct front; simpl; [done|lia]. }
    apply forallb_zip_Forall2.
    + rewrite !length_reverse, length_app. lia.
    + exists (reverse back), (reverse front). rewrite reverse_app. split; [done|].
      by apply Forall2_reverse.
Qed.

(** Labels without special characters match themselves only, up to case. *)
Lemma compile_labels_literal (L : GlobsetLaws G) labels pattern ms parts :
  Forall (fun l => str_any (glob_special domain_options) l = false) labels ->
  compile_labels labels pattern = Ok ms ->
  Forall2 (fun part m => is_match m part = true) parts ms <->
  Forall2 (fun part l => eq_ignore_ascii_case part l = true) parts labels.
Proof.
  intros Hl. revert ms parts. induction Hl as [|l labels Hl _ IH]; intros ms parts H; simpl in H.
  { res_inv. split; inversion 1; constructor. }
  res_inv. destruct (glob_literal domain_options l Hl) as (m & Hm & Hmatch).
  rewrite H0 in Hm. injection Hm as ->.
  split; intros Hf; inversion Hf as [|x ? xs ? Hx Hxs]; subst; constructor;
    try (by apply (IH a0)); [by rewrite Hmatch in Hx|by rewrite Hmatch].
Qed.

(** A pattern without special characters matches itself only, up to case. *)
Lemma literal_pattern_matches (L : GlobsetLaws G) pattern m domain :
  str_any (glob_special domain_options) pattern = false ->
  compile_domain_matcher pattern = Ok m ->
  domain_matches m domain = eq_ignore_ascii_case domain pattern.
Proof.
  intros Hlit Hm. assert (forall w base, pattern <> String "*" w +:+ base) as Hns.
  { intros w base ->. by simpl in Hlit. }
  unfold compile_domain_matcher in Hm.
  rewrite bool_decide_eq_false_2 in Hm by exact (Hns "" "").
  destruct (strip_prefix "**." pattern) eqn:E1; [by apply strip_prefix_Some, Hns in E1|].
  destruct (strip_prefix "*." pattern) eqn:E2; [by apply strip_prefix_Some, Hns in E2|].
  apply bind_Ok in Hm as (g & Hg & Hm). injection Hm as <-. apply map_err_Ok in Hg.
  destruct (glob_literal domain_options pattern Hlit) as (m & Hm & Hmatch).
  rewrite Hg in Hm. injection Hm as ->. simpl. by rewrite Hmatch.
Qed.

(** What a domain rule means, for a pattern whose labels are literal: [*]
    matches every domain; [**.x] matches [x] and every name below it; [*.x]
    matches the names below [x] but not [x]; any other pattern matches itself
    only.  Comparison ignores ASCII case. *)
Theorem domain_rule_meaning (L : GlobsetLaws G) (text : string) (a : DomainAccess) (r : DomainRule)
    (domain : string) :
  DomainRule_new text a = Ok r -> dr_pattern r <> "*" ->
  let below base := exists front back, str_split "." domain = front ++ back /\
    Forall2 (fun part l => eq_ignore_ascii_case part l = true) back (str_split "." base) /\
    front <> [] in
  let equal base := Forall2 (fun part l => eq_ignore_ascii_case part l = true)
                      (str_split "." domain) (str_split "." base) in
  let literal base := Forall (fun l => str_any (glob_special domain_options) l = false)
                        (str_split "." base) in
  (forall base, dr_pattern r = "**." +:+ base -> literal base ->
     domain_matches (dr_matcher r) domain = true <-> below base \/ equal base) /\
  (forall base, dr_pattern r = "*." +:+ base -> literal base ->
     domain_matches (dr_matcher r) domain = true <-> below base) /\
  (str_any (glob_special domain_options) (dr_pattern r) = false ->
     domain_matches (dr_matcher r) domain = eq_ignore_ascii_case domain (dr_pattern r)).
Proof.
  intros Hnew Hstar below equal literal. unfold DomainRule_new in Hnew. res_inv.
  rename a0 into pattern, a1 into matcher. simpl in *.
  split_and!; [..|intros Hlit; by apply (literal_pattern_matches L)];
    unfold compile_domain_matcher in Hnew1; rewrite bool_decide_eq_false_2 in Hnew1 by done.
  - intros base -> Hlit. rewrite (proj2 (strip_prefix_Some "**." ("**." +:+ base) base) eq_refl) in Hnew1.
    apply bind_Ok in Hnew1 as (ms & Hms & Hnew1). injection Hnew1 as <-.
    rewrite suffix_matches_spec.
    setoid_rewrite (fun parts => compile_labels_literal L _ _ _ parts Hlit Hms). split.
    + intros (front & back & Hd & Hf & _). destruct front as [|x front]; [right|left].
      * unfold equal. by rewrite Hd.
      * by exists (x :: front), back.
    + intros [(front & back & ? & ? & _)|He]; [exists front, back; auto|].
      exists [], (str_split "." domain). auto.
  - intros base -> Hlit.
    assert (strip_prefix "**." ("*." +:+ base) = None) as Hn.
    { reflexivity. }
    rewrite Hn in Hnew1. rewrite (proj2 (strip_prefix_Some "*." ("*." +:+ base) base) eq_refl) in Hnew1.
    apply bind_Ok in Hnew1 as (ms & Hms & Hnew1). injection Hnew1 as <-.
    rewrite suffix_matches_spec.
    setoid_rewrite (fun parts => compile_labels_literal L _ _ _ parts Hlit Hms).
    unfold below. split; intros (front & back & ? & ? & ?); exists front, back; naive_solver.
Qed.

End meaning.

Definition wildcard_example : DomainRule (G := literal_globset) :=
  {| dr_pattern := "*.example.com"; dr_access := DAllow;
     dr_matcher := Suffix (G := literal_globset)
                     [(domain_options, "example"); (domain_options, "com")] false |}.

Lemma domain_rule_meaning_witness :
  DomainRule_new (G := literal_globset) "*.Example.com:443" DAllow = Ok wildcard_example /\
  domain_matches (dr_matcher wildcard_example) "api.EXAMPLE.com" = true.
Proof.
  assert (DomainRule_new (G := literal_globset) "*.Example.com:443" DAllow = Ok wildcard_example) as H
    by reflexivity.
  split; [exact H|].
  apply (proj1 (proj2 (domain_rule_meaning (G := literal_globset) literal_globset_laws _ _ _
                  "api.EXAMPLE.com" H ltac:(discriminate))) "example.com");
    [reflexivity|by repeat constructor|].
  exists ["api"], ["EXAMPLE"; "com"]. split; [reflexivity|]. split; [by repeat constructor|done].
Defined.
