(* ===== verification/LocalIpc.v ===== *)
(** [cageforge-policy]: typed local-IPC endpoints ([local_ipc.rs]), Unix-socket
    paths and Windows named pipes. *)

From Stdlib Require Import Ascii String NArith Lia.
From stdpp Require Import base list strings option.
From S2P Require Import Prelude Text NativePath Access.

Record AbsolutePath := { ap_path : path }.
Record NamedPipeName := { np_name : string }.

Inductive LocalIpcEndpoint :=
  | UnixSocket (p : AbsolutePath)
  | WindowsNamedPipe (name : NamedPipeName).

Definition AbsolutePath_new (p : path) : result PolicyError AbsolutePath :=
  let value := to_string_lossy p in
  reject bool_decide (value = "") with EmptyPath ;;
  reject contains_char NUL value with PathContainsNul p ;;
  reject negb (starts_with_char "/" value) with ExpectedAbsolute p ;;
  reject contains_parent_traversal value with PParentTraversal p ;;
  Ok {| ap_path := p |}.

Definition PREFIX : string := "\\.\pipe\".

(** [str::encode_utf16().count()] *)
Definition utf16_length (s : string) : nat :=
  foldr (fun c n => (if (c <? 0x10000)%N then 1 else 2) + n) 0 (chars s).

Definition NamedPipeName_new (value : string) : result PolicyError NamedPipeName :=
  reject negb match get_prefix (String.length PREFIX) value with
              | Some prefix => eq_ignore_ascii_case prefix PREFIX
              | None => false
              end
    with InvalidLocalIpcEndpoint value "named pipe must use the local \\.\pipe\ namespace" ;;
  let name := str_drop (String.length PREFIX) value in
  reject bool_decide (name = "") || contains_char NUL name || contains_char "/" name
         || contains_char "\" name || bool_decide (name = ".") || bool_decide (name = "..")
         || contains_char ":" name || negb (is_ascii name)
    with InvalidLocalIpcEndpoint value "named pipe name is empty or contains an unsafe component" ;;
  reject (256 <? utf16_length value)%nat
    with InvalidLocalIpcEndpoint value "named pipe name exceeds the supported length" ;;
  Ok {| np_name := PREFIX +:+ to_ascii_lowercase name |}.

Definition endpoint_unix_socket (p : path) : result PolicyError LocalIpcEndpoint :=
  a ← AbsolutePath_new p; Ok (UnixSocket a).

Definition endpoint_windows_named_pipe (name : string) : result PolicyError LocalIpcEndpoint :=
  n ← NamedPipeName_new name; Ok (WindowsNamedPipe n).

Definition unix_path (e : LocalIpcEndpoint) : option path :=
  match e with UnixSocket p => Some (ap_path p) | WindowsNamedPipe _ => None end.

Definition named_pipe (e : LocalIpcEndpoint) : option string :=
  match e with UnixSocket _ => None | WindowsNamedPipe n => Some (np_name n) end.

(** [LocalIpcEndpoint::validate] *)
Definition endpoint_validate (e : LocalIpcEndpoint) : result PolicyError unit :=
  match e with
  | UnixSocket p =>
      reject contains_parent_traversal (ap_path p)
        with InvalidLocalIpcEndpoint (to_string_lossy (ap_path p)) "parent traversal is not allowed" ;;
      Ok ()
  | WindowsNamedPipe n => (fun _ => ()) <$> NamedPipeName_new (np_name n)
  end.

(** The derived equality, over [Path]'s comparison by components *)
Definition endpoint_eqb (e f : LocalIpcEndpoint) : bool :=
  match e, f with
  | UnixSocket p, UnixSocket q => path_eqb (ap_path p) (ap_path q)
  | WindowsNamedPipe n, WindowsNamedPipe m => bool_decide (np_name n = np_name m)
  | _, _ => false
  end.

(** * Named pipes have one canonical name *)

Lemma str_any_map f g s : str_any f (str_map g s) = str_any (fun a => f (g a)) s.
Proof. induction s as [|a s IH]; simpl; [done|by rewrite IH]. Qed.

Lemma str_any_ext f g s : (forall a, f a = g a) -> str_any f s = str_any g s.
Proof. intros H. induction s as [|a s IH]; simpl; [done|by rewrite H, IH]. Qed.

(** Lower case keeps a byte that is not a letter, and makes none. *)
Lemma ascii_lower_other c a :
  is_ascii_lower c = false -> is_ascii_upper c = false -> Ascii.eqb c (ascii_lower a) = Ascii.eqb c a.
Proof.
  intros Hl Hu. unfold ascii_lower. destruct (is_ascii_upper a) eqn:Ha; [|done].
  destruct (Ascii.eqb_spec c a); [congruence|].
  apply Ascii.eqb_neq. intros ->. destruct a as [[] [] [] [] [] [] [] []]; vm_compute in *; done.
Qed.

Lemma contains_char_lower c s :
  is_ascii_lower c = false -> is_ascii_upper c = false ->
  contains_char c (to_ascii_lowercase s) = contains_char c s.
Proof.
  intros Hl Hu. unfold contains_char, to_ascii_lowercase. rewrite str_any_map.
  apply str_any_ext. intros a. by apply ascii_lower_other.
Qed.

Lemma is_ascii_to_lower s : is_ascii (to_ascii_lowercase s) = is_ascii s.
Proof.
  unfold is_ascii, str_all, to_ascii_lowercase. rewrite str_any_map. f_equal.
  apply str_any_ext. intros a. destruct a as [[] [] [] [] [] [] [] []]; reflexivity.
Qed.

Lemma str_length_map f s : String.length (str_map f s) = String.length s.
Proof. induction s as [|a s IH]; simpl; [done|by rewrite IH]. Qed.

Lemma is_ascii_cons a s : is_ascii (String a s) = (byte_val a <? 128)%N && is_ascii s.
Proof. unfold is_ascii, str_all. simpl. by rewrite negb_orb, negb_involutive. Qed.

Lemma is_ascii_app s t : is_ascii (s +:+ t) = is_ascii s && is_ascii t.
Proof. unfold is_ascii, str_all. by rewrite str_any_app, negb_orb. Qed.

(** An ASCII string has one UTF-16 unit per byte. *)
Lemma utf8_chunks_ascii s :
  is_ascii s = true -> exists l, utf8_chunks s = Some l /\ length l = String.length s /\
    Forall (fun c => (c.1 < 128)%N) l.
Proof.
  induction s as [|a s IH]; [by exists []|]. rewrite is_ascii_cons.
  intros [Ha (l & Hl & Hlen & Hf)%IH]%andb_true_iff. simpl. rewrite Ha, Hl. simpl.
  eexists. split; [reflexivity|]. simpl. split; [by rewrite Hlen|].
  constructor; [by apply N.ltb_lt|done].
Qed.

Lemma utf16_length_ascii s : is_ascii s = true -> utf16_length s = String.length s.
Proof.
  intros (l & Hl & <- & Hf)%utf8_chunks_ascii. unfold utf16_length, chars. rewrite Hl. clear Hl.
  induction Hf as [|[c b] l Hc _ IH]; [done|]. rewrite fmap_cons. simpl in Hc. cbn [foldr fst length].
  rewrite IH. assert ((c <? 0x10000)%N = true) as -> by (apply N.ltb_lt; lia). done.
Qed.

Lemma str_map_char f s c :
  str_map f s = String c "" -> exists a, s = String a "" /\ f a = c.
Proof. destruct s as [|a [|b s]]; simpl; try done. intros [= <-]. eauto. Qed.

Lemma lower_dots name :
  (to_ascii_lowercase name = "." -> name = ".") /\ (to_ascii_lowercase name = ".." -> name = "..").
Proof.
  assert (forall a, ascii_lower a = "."%char -> a = "."%char) as Hdot.
  { intros a Ha. pose proof (ascii_lower_other "." a eq_refl eq_refl) as H. rewrite Ha in H.
    by apply Ascii.eqb_eq. }
  unfold to_ascii_lowercase. split.
  - intros (a & -> & ->%Hdot)%str_map_char. done.
  - destruct name as [|a [|b [|d name]]]; simpl; try done. intros [= ->%Hdot ->%Hdot]. done.
Qed.

(** The facts a valid name establishes. *)
Definition pipe_name_ok (name : string) : Prop :=
  name <> "" /\ contains_char NUL name = false /\ contains_char "/" name = false /\
  contains_char "\" name = false /\ name <> "." /\ name <> ".." /\
  contains_char ":" name = false /\ is_ascii name = true.

Lemma pipe_prefix_Some n s p :
  get_prefix n s = Some p -> p = str_take n s /\ n <= String.length s.
Proof.
  unfold get_prefix. destruct (Nat.ltb_spec (String.length s) n); [done|].
  destruct (str_drop n s); [by intros [= <-]|]. destruct (is_cont a); [done|]. by intros [= <-].
Qed.

Lemma get_prefix_app p t : is_ascii t = true -> get_prefix (String.length p) (p +:+ t) = Some p.
Proof.
  intros Ht. unfold get_prefix. rewrite str_drop_app, str_take_app.
  destruct (Nat.ltb_spec (String.length (p +:+ t)) (String.length p)) as [H|].
  { exfalso. clear Ht. induction p as [|a p IH]; [simpl in H; lia|].
    change (String.length (String a p +:+ t)) with (S (String.length (p +:+ t))) in H. simpl in H. lia. }
  destruct t as [|a t]; [done|]. rewrite is_ascii_cons in Ht. bool_inv.
  unfold is_cont. rewrite ascii_not_lead; [done| |lia]. by apply N.ltb_lt.
Qed.

Lemma NamedPipeName_new_Ok value n :
  NamedPipeName_new value = Ok n <->
  exists p name, value = p +:+ name /\ eq_ignore_ascii_case p PREFIX = true /\ pipe_name_ok name /\
    String.length value <= 256 /\ n = {| np_name := PREFIX +:+ to_ascii_lowercase name |}.
Proof.
  unfold NamedPipeName_new. split.
  - intros H. destruct (get_prefix _ _) as [p|] eqn:Hp; [|done]. res_inv.
    apply pipe_prefix_Some in Hp as [-> Hlen].
    exists (str_take (String.length PREFIX) value), (str_drop (String.length PREFIX) value).
    rewrite str_take_drop. bool_inv.
    assert (is_ascii (str_take (String.length PREFIX) value) = true) as Hap.
    { rewrite <- is_ascii_to_lower. match goal with H : eq_ignore_ascii_case _ _ = true |- _ =>
        unfold eq_ignore_ascii_case in H; apply bool_decide_eq_true in H; rewrite H end. done. }
    split_and!; try done.
    match goal with H : (256 <? _)%nat = false |- _ => rewrite utf16_length_ascii in H end.
    + by apply Nat.ltb_ge.
    + rewrite <- (str_take_drop (String.length PREFIX) value), is_ascii_app. by rewrite Hap.
  - intros (p & name & -> & Hp & (H1 & H2 & H3 & H4 & H5 & H6 & H7 & H8) & Hlen & ->).
    assert (String.length PREFIX = String.length p) as ->.
    { unfold eq_ignore_ascii_case in Hp. apply bool_decide_eq_true in Hp.
      apply (f_equal String.length) in Hp. unfold to_ascii_lowercase in Hp.
      by rewrite !str_length_map in Hp. }
    rewrite get_prefix_app, str_drop_app, Hp, H2, H3, H4, H7, H8 by done. simpl.
    rewrite !bool_decide_eq_false_2 by done. simpl.
    assert (is_ascii (p +:+ name) = true) as Hascii.
    { rewrite is_ascii_app, H8, andb_true_r. rewrite <- is_ascii_to_lower.
      unfold eq_ignore_ascii_case in Hp. apply bool_decide_eq_true in Hp. by rewrite Hp. }
    rewrite utf16_length_ascii by done.
    destruct (Nat.ltb_spec 256 (String.length (p +:+ name))); [lia|done].
Qed.

Lemma pipe_name_ok_lower name : pipe_name_ok name -> pipe_name_ok (to_ascii_lowercase name).
Proof.
  intros (H1 & H2 & H3 & H4 & H5 & H6 & H7 & H8). destruct (lower_dots name) as [Hd1 Hd2].
  unfold pipe_name_ok. rewrite !contains_char_lower, is_ascii_to_lower by done.
  split_and!; auto. by destruct name.
Qed.

Lemma to_ascii_lowercase_app s t :
  to_ascii_lowercase (s +:+ t) = to_ascii_lowercase s +:+ to_ascii_lowercase t.
Proof.
  induction s as [|a s IH]; [done|]. unfold to_ascii_lowercase in *.
  change (String a s +:+ t) with (String a (s +:+ t)). cbn [str_map]. by rewrite IH.
Qed.

Lemma string_app_inv_head (p s t : string) : p +:+ s = p +:+ t -> s = t.
Proof. induction p as [|a p IH]; [done|]. by intros [= H%IH]. Qed.

(** A named pipe has one canonical name: an accepted name is canonicalized
    to a name that is accepted unchanged and differs in ASCII case only, and two
    accepted spellings denote the same endpoint exactly when they are equal up
    to ASCII case. *)
Theorem named_pipe_canonical (value : string) (n : NamedPipeName) :
  NamedPipeName_new value = Ok n ->
  NamedPipeName_new (np_name n) = Ok n /\
  eq_ignore_ascii_case value (np_name n) = true /\
  (forall value' n', NamedPipeName_new value' = Ok n' ->
     endpoint_eqb (WindowsNamedPipe n) (WindowsNamedPipe n') = eq_ignore_ascii_case value value').
Proof.
  intros (p & name & -> & Hp & Hok & Hlen & ->)%NamedPipeName_new_Ok. cbn [np_name].
  unfold eq_ignore_ascii_case in Hp. apply bool_decide_eq_true in Hp.
  assert (String.length p = String.length PREFIX) as Hpl.
  { apply (f_equal String.length) in Hp. unfold to_ascii_lowercase in Hp. by rewrite !str_length_map in Hp. }
  split_and!.
  - apply NamedPipeName_new_Ok. exists PREFIX, (to_ascii_lowercase name).
    rewrite to_ascii_lowercase_idemp. split_and!; [done|done|by apply pipe_name_ok_lower| |done].
    rewrite string_app_length in *. unfold to_ascii_lowercase. rewrite str_length_map. lia.
  - unfold eq_ignore_ascii_case. apply bool_decide_eq_true.
    by rewrite !to_ascii_lowercase_app, to_ascii_lowercase_idemp, Hp.
  - intros value' n' (p' & name' & -> & Hp' & _ & _ & ->)%NamedPipeName_new_Ok. simpl.
    unfold eq_ignore_ascii_case in *. apply bool_decide_eq_true in Hp'.
    rewrite !to_ascii_lowercase_app, Hp, Hp'. apply bool_decide_ext. split.
    + by intros ->%string_app_inv_head.
    + by intros ->%string_app_inv_head.
Qed.

Lemma named_pipe_canonical_witness :
  NamedPipeName_new "\\.\PIPE\Agent" = Ok {| np_name := "\\.\pipe\agent" |} /\
  NamedPipeName_new "\\.\pipe\agent" = Ok {| np_name := "\\.\pipe\agent" |}.
Proof.
  assert (NamedPipeName_new "\\.\PIPE\Agent" = Ok {| np_name := "\\.\pipe\agent" |}) as H
    by (vm_compute; reflexivity).
  split; [exact H|]. exact (proj1 (named_pipe_canonical _ _ H)).
Defined.
