(* ===== verification/NetPolicy.v ===== *)
(** [cageforge-policy]: the network policy of [network.rs] and
    [network/model.rs]: domain, resolved-address and Unix-socket decisions, the
    authorization of one connection, and normalization. *)

From Stdlib Require Import Ascii String NArith Lia.
From stdpp Require Import base list strings option sets.
From S2P Require Import Prelude Keyed Text NativePath IpAddr Access Selector Domain LocalIpc.

Inductive NetworkMode := NetDisabled | NetEnabled | NetExternal.
Inductive DomainMode := DomDisabled | DomEnabled | DomRestricted.
Inductive UnixSocketMode := UnixDisabled | UnixEnabled | UnixRestricted.
Inductive LocalNetworkAccess := LocalDeny | LocalAllow.
Inductive NetworkDecision := NetAllow | NetDeny | NetExternallyEnforced.

#[global] Instance NetworkMode_eq_dec : EqDecision NetworkMode.
Proof. solve_decision. Defined.
#[global] Instance DomainMode_eq_dec : EqDecision DomainMode.
Proof. solve_decision. Defined.
#[global] Instance UnixSocketMode_eq_dec : EqDecision UnixSocketMode.
Proof. solve_decision. Defined.
#[global] Instance LocalNetworkAccess_eq_dec : EqDecision LocalNetworkAccess.
Proof. solve_decision. Defined.
#[global] Instance NetworkDecision_eq_dec : EqDecision NetworkDecision.
Proof. solve_decision. Defined.

Record UnixSocketRule := { us_path : path; us_access : DomainAccess }.
Record LocalIpcRule := { li_endpoint : LocalIpcEndpoint; li_access : DomainAccess }.

Record ResolvedNetworkTarget := { rt_domain : string; rt_addresses : list SocketAddr }.

Inductive ConnectionAuthorization :=
  | Allowed (address : SocketAddr)
  | CDenied
  | CExternallyEnforced.

Definition is_allowed (d : NetworkDecision) : bool :=
  match d with NetAllow => true | _ => false end.

Definition UnixSocketRule_new (p : path) (a : DomainAccess) : result PolicyError UnixSocketRule :=
  _ ← selector_absolute p;
  Ok {| us_path := p; us_access := a |}.

Definition LocalIpcRule_new (e : LocalIpcEndpoint) (a : DomainAccess) : result PolicyError LocalIpcRule :=
  _ ← endpoint_validate e;
  Ok {| li_endpoint := e; li_access := a |}.

(** [impl PartialEq for UnixSocketRule] *)
Definition unix_rule_eqb (r s : UnixSocketRule) : bool :=
  bool_decide (NativePathKey_new (us_path r) = NativePathKey_new (us_path s))
  && bool_decide (us_access r = us_access s).

(** [result = Some(match (result, access) { deny precedence })] for the rules
    that match *)
Definition fold_access {R} (matches : R -> bool) (acc_of : R -> DomainAccess) (rules : list R) :
  option DomainAccess :=
  foldl (fun found r =>
           if matches r
           then Some (match found, acc_of r with
                      | Some DDeny, _ | _, DDeny => DDeny
                      | _, _ => DAllow
                      end)
           else found) None rules.

Section policy.
Context {U : Unicode} {G : Globset}.

Record NetworkPolicy := {
  net_mode : NetworkMode;
  domain_mode : DomainMode;
  unix_socket_mode : UnixSocketMode;
  local_network_access : LocalNetworkAccess;
  domains : list DomainRule;
  unix_sockets : list UnixSocketRule;
  local_ipc : list LocalIpcRule
}.

(** [ResolvedNetworkTarget::new] *)
Definition ResolvedNetworkTarget_new (domain : string) (addresses : list SocketAddr) :
  result PolicyError ResolvedNetworkTarget :=
  domain ← normalize_domain domain;
  let literal := parse_ip_literal domain in
  unique ← foldM (fun unique address =>
             reject match literal with
                    | Some ip => negb (bool_decide (ip = socket_ip address))
                    | None => false
                    end
               with ResolvedAddressMismatch domain address ;;
             Ok (if bool_decide (address ∈ unique) then unique else unique ++ [address]))
           [] addresses;
  Ok {| rt_domain := domain; rt_addresses := unique |}.

Definition contains_address (t : ResolvedNetworkTarget) (address : SocketAddr) : bool :=
  bool_decide (address ∈ rt_addresses t).

(** * Constructors and builders *)

Definition net_preset (m : NetworkMode) (d : DomainMode) (u : UnixSocketMode) (l : LocalNetworkAccess) :
  NetworkPolicy :=
  {| net_mode := m; domain_mode := d; unix_socket_mode := u; local_network_access := l;
     domains := []; unix_sockets := []; local_ipc := [] |}.

Definition net_disabled : NetworkPolicy := net_preset NetDisabled DomDisabled UnixDisabled LocalDeny.
Definition net_enabled : NetworkPolicy := net_preset NetEnabled DomEnabled UnixDisabled LocalDeny.
Definition net_unrestricted : NetworkPolicy := net_preset NetEnabled DomEnabled UnixEnabled LocalAllow.
Definition net_external : NetworkPolicy := net_preset NetExternal DomDisabled UnixDisabled LocalDeny.

Definition with_domain_mode (n : NetworkPolicy) (m : DomainMode) : NetworkPolicy :=
  {| net_mode := net_mode n; domain_mode := m; unix_socket_mode := unix_socket_mode n;
     local_network_access := local_network_access n; domains := domains n;
     unix_sockets := unix_sockets n; local_ipc := local_ipc n |}.

Definition with_unix_socket_mode (n : NetworkPolicy) (m : UnixSocketMode) : NetworkPolicy :=
  {| net_mode := net_mode n; domain_mode := domain_mode n; unix_socket_mode := m;
     local_network_access := local_network_access n; domains := domains n;
     unix_sockets := unix_sockets n; local_ipc := local_ipc n |}.

Definition with_local_network_access (n : NetworkPolicy) (a : LocalNetworkAccess) : NetworkPolicy :=
  {| net_mode := net_mode n; domain_mode := domain_mode n; unix_socket_mode := unix_socket_mode n;
     local_network_access := a; domains := domains n;
     unix_sockets := unix_sockets n; local_ipc := local_ipc n |}.

Definition with_domain (n : NetworkPolicy) (pattern : string) (a : DomainAccess) :
  result PolicyError NetworkPolicy :=
  reject bool_decide (net_mode n = NetExternal)
    with InvalidRule "network rules cannot be added to an external policy" ;;
  rule ← DomainRule_new pattern a;
  Ok {| net_mode := net_mode n; domain_mode := domain_mode n; unix_socket_mode := unix_socket_mode n;
        local_network_access := local_network_access n; domains := domains n ++ [rule];
        unix_sockets := unix_sockets n; local_ipc := local_ipc n |}.

Definition with_unix_socket (n : NetworkPolicy) (p : path) (a : DomainAccess) :
  result PolicyError NetworkPolicy :=
  reject bool_decide (net_mode n = NetExternal)
    with InvalidRule "network rules cannot be added to an external policy" ;;
  rule ← UnixSocketRule_new p a;
  Ok {| net_mode := net_mode n; domain_mode := domain_mode n; unix_socket_mode := unix_socket_mode n;
        local_network_access := local_network_access n; domains := domains n;
        unix_sockets := unix_sockets n ++ [rule]; local_ipc := local_ipc n |}.

(** The value a duplicate endpoint is reported with. *)
Definition endpoint_value (e : LocalIpcEndpoint) : string :=
  match unix_path e with
  | Some p => "unix:" +:+ to_string_lossy p
  | None => match named_pipe e with Some name => "pipe:" +:+ name | None => "local-ipc" end
  end.

Definition with_local_ipc (n : NetworkPolicy) (e : LocalIpcEndpoint) (a : DomainAccess) :
  result PolicyError NetworkPolicy :=
  reject bool_decide (net_mode n = NetExternal)
    with InvalidRule "local-IPC rules cannot be added to an external policy" ;;
  reject existsb (fun rule => endpoint_eqb (li_endpoint rule) e) (local_ipc n)
    with InvalidLocalIpcEndpoint (endpoint_value e) "duplicate local-IPC endpoint" ;;
  rule ← LocalIpcRule_new e a;
  Ok match unix_path e with
     | Some p =>
         {| net_mode := if bool_decide (net_mode n = NetDisabled) then NetEnabled else net_mode n;
            domain_mode := domain_mode n;
            unix_socket_mode := if bool_decide (unix_socket_mode n = UnixDisabled) then UnixRestricted
                                else unix_socket_mode n;
            local_network_access := local_network_access n; domains := domains n;
            unix_sockets := unix_sockets n ++ [{| us_path := p; us_access := a |}];
            local_ipc := local_ipc n ++ [rule] |}
     | None =>
         {| net_mode := net_mode n; domain_mode := domain_mode n;
            unix_socket_mode := unix_socket_mode n;
            local_network_access := local_network_access n; domains := domains n;
            unix_sockets := unix_sockets n; local_ipc := local_ipc n ++ [rule] |}
     end.

(** [NetworkPolicy::validate] *)
Definition net_validate (n : NetworkPolicy) : result PolicyError unit :=
  reject bool_decide (net_mode n = NetExternal)
         && (bool_decide (domain_mode n <> DomDisabled) || bool_decide (unix_socket_mode n <> UnixDisabled)
             || bool_decide (local_network_access n <> LocalDeny) || bool_decide (domains n <> [])
             || bool_decide (unix_sockets n <> []) || bool_decide (local_ipc n <> []))
    with InvalidRule "external network policies cannot contain local settings" ;;
  Ok ().

Definition merge_domain (existing r : DomainRule) : DomainRule :=
  if bool_decide (dr_access r = DDeny)
  then {| dr_pattern := dr_pattern existing; dr_access := DDeny; dr_matcher := dr_matcher existing |}
  else existing.

Definition merge_unix (existing r : UnixSocketRule) : UnixSocketRule :=
  if bool_decide (us_access r = DDeny)
  then {| us_path := us_path existing; us_access := DDeny |} else existing.

Definition merge_local_ipc (existing r : LocalIpcRule) : LocalIpcRule :=
  if bool_decide (li_access r = DDeny)
  then {| li_endpoint := li_endpoint existing; li_access := DDeny |} else existing.

(** [NetworkPolicy::normalized] *)
Definition net_normalized (n : NetworkPolicy) : result PolicyError NetworkPolicy :=
  _ ← net_validate n;
  Ok {| net_mode := net_mode n; domain_mode := domain_mode n;
        unix_socket_mode := unix_socket_mode n; local_network_access := local_network_access n;
        domains := keyed_collapse dr_pattern String.eqb merge_domain (domains n);
        unix_sockets := keyed_collapse (fun r => NativePathKey_new (us_path r))
                          (fun k l => bool_decide (k = l)) merge_unix (unix_sockets n);
        local_ipc := keyed_collapse li_endpoint endpoint_eqb merge_local_ipc (local_ipc n) |}.

(** * Decisions *)

Definition access_for_normalized_domain (n : NetworkPolicy) (domain : string) : option DomainAccess :=
  fold_access (fun r => domain_matches (dr_matcher r) domain) dr_access (domains n).

Definition has_exact_allow (n : NetworkPolicy) (domain : string) : bool :=
  existsb (fun r => bool_decide (dr_access r = DAllow) && negb (contains_char "*" (dr_pattern r))
                    && negb (contains_char "?" (dr_pattern r)) && bool_decide (dr_pattern r = domain))
    (domains n).

Definition decision_for_domain (n : NetworkPolicy) (domain : string) :
  result PolicyError NetworkDecision :=
  domain ← normalize_domain domain;
  match net_mode n with
  | NetDisabled => Ok NetDeny
  | NetExternal => Ok NetExternallyEnforced
  | NetEnabled =>
      match domain_mode n with
      | DomDisabled => Ok NetDeny
      | DomEnabled =>
          Ok (if bool_decide (access_for_normalized_domain n domain = Some DDeny) then NetDeny else NetAllow)
      | DomRestricted =>
          Ok (if bool_decide (access_for_normalized_domain n domain = Some DAllow) then NetAllow else NetDeny)
      end
  end.

(** The address checks of [decision_for_domain_with_resolved_ips], for a host
    the domain rules allow *)
Definition address_decision (n : NetworkPolicy) (domain : string) (resolved_ips : list IpAddr) :
  NetworkDecision :=
  match parse_ip_literal domain with
  | Some literal =>
      if existsb (fun ip => negb (bool_decide (ip = literal))) resolved_ips then NetDeny
      else if has_exact_allow n domain || bool_decide (local_network_access n = LocalAllow)
              || negb (is_non_public_ip literal)
      then NetAllow else NetDeny
  | None =>
      let explicit_localhost_allow := bool_decide (domain = "localhost") && has_exact_allow n domain in
      if bool_decide (domain = "localhost") && bool_decide (local_network_access n = LocalDeny)
         && negb explicit_localhost_allow then NetDeny
      else if bool_decide (resolved_ips = []) then NetDeny
      else if bool_decide (local_network_access n = LocalDeny)
              && existsb (fun ip => is_non_public_ip ip
                                    && negb (explicit_localhost_allow && ip_is_loopback ip)) resolved_ips
      then NetDeny
      else NetAllow
  end.

Definition decision_for_domain_with_resolved_ips (n : NetworkPolicy) (domain : string)
    (resolved_ips : list IpAddr) : result PolicyError NetworkDecision :=
  normalized_domain ← normalize_domain domain;
  decision ← decision_for_domain n normalized_domain;
  if negb (is_allowed decision) then Ok decision
  else Ok (address_decision n normalized_domain resolved_ips).

Definition decision_for_resolved_target (n : NetworkPolicy) (t : ResolvedNetworkTarget) :
  result PolicyError NetworkDecision :=
  decision_for_domain_with_resolved_ips n (rt_domain t) (socket_ip <$> rt_addresses t).

Definition decision_for_connected_address (n : NetworkPolicy) (t : ResolvedNetworkTarget)
    (connected : SocketAddr) : result PolicyError NetworkDecision :=
  decision ← decision_for_resolved_target n t;
  if negb (is_allowed decision) then Ok decision
  else Ok (if contains_address t connected then NetAllow else NetDeny).

Definition authorize_connection (n : NetworkPolicy) (t : ResolvedNetworkTarget)
    (connected : SocketAddr) : result PolicyError ConnectionAuthorization :=
  decision ← decision_for_connected_address n t connected;
  Ok match decision with
     | NetAllow => Allowed connected
     | NetDeny => CDenied
     | NetExternallyEnforced => CExternallyEnforced
     end.

Definition decision_for_unix_socket (n : NetworkPolicy) (p : path) :
  result PolicyError NetworkDecision :=
  _ ← selector_absolute p;
  if bool_decide (net_mode n = NetExternal) then Ok NetExternallyEnforced
  else if bool_decide (net_mode n = NetDisabled) || bool_decide (unix_socket_mode n = UnixDisabled)
  then Ok NetDeny
  else
    let found := fold_access (fun r => paths_equal p (us_path r)) us_access (unix_sockets n) in
    Ok match unix_socket_mode n with
       | UnixDisabled => NetDeny
       | UnixEnabled => if bool_decide (found = Some DDeny) then NetDeny else NetAllow
       | UnixRestricted => if bool_decide (found = Some DAllow) then NetAllow else NetDeny
       end.

End policy.

(** * Deny precedence *)

Section fold_access.
Context {R : Type} (matches : R -> bool) (acc_of : R -> DomainAccess).

Definition access_join (x y : option DomainAccess) : option DomainAccess :=
  match x, y with
  | Some DDeny, _ | _, Some DDeny => Some DDeny
  | Some DAllow, _ | _, Some DAllow => Some DAllow
  | None, None => None
  end.

Definition rule_value (r : R) : option DomainAccess := if matches r then Some (acc_of r) else None.

Lemma access_join_comm x y : access_join x y = access_join y x.
Proof. by destruct x as [[]|], y as [[]|]. Qed.
Lemma access_join_assoc x y z : access_join x (access_join y z) = access_join (access_join x y) z.
Proof. by destruct x as [[]|], y as [[]|], z as [[]|]. Qed.
Lemma access_join_unit x : access_join None x = x.
Proof. by destruct x as [[]|]. Qed.

(** The loop computes the join of the matching rules. *)
Lemma fold_access_summary rules :
  fold_access matches acc_of rules = summary rule_value access_join None rules.
Proof.
  assert (forall acc, foldl (fun found r =>
           if matches r
           then Some (match found, acc_of r with Some DDeny, _ | _, DDeny => DDeny | _, _ => DAllow end)
           else found) acc rules = access_join acc (summary rule_value access_join None rules)) as H.
  { induction rules as [|r rules IH]; intros acc; simpl; [by destruct acc as [[]|]|].
    rewrite IH, access_join_assoc. f_equal. unfold rule_value.
    destruct (matches r), (acc_of r), acc as [[]|]; done. }
  unfold fold_access. rewrite H. apply access_join_unit.
Qed.

Lemma fold_access_deny rules :
  fold_access matches acc_of rules = Some DDeny <->
  exists r, r ∈ rules /\ matches r = true /\ acc_of r = DDeny.
Proof.
  rewrite fold_access_summary. induction rules as [|r rules IH]; simpl; [split; [done|set_solver]|].
  assert (forall x y, access_join x y = Some DDeny <-> x = Some DDeny \/ y = Some DDeny) as Hj
    by (intros [[]|] [[]|]; simpl; naive_solver).
  rewrite Hj, IH. setoid_rewrite elem_of_cons. unfold rule_value. split.
  - intros [Hr|(q & ? & ? & ?)]; [|by exists q; auto].
    exists r. destruct (matches r); [injection Hr|]; auto; done.
  - intros (q & [->|Hq] & Hm & Ha); [left; by rewrite Hm, Ha|right; eauto].
Qed.

Lemma fold_access_none rules :
  fold_access matches acc_of rules = None <-> forall r, r ∈ rules -> matches r = false.
Proof.
  rewrite fold_access_summary. induction rules as [|r rules IH]; simpl; [split; [set_solver|done]|].
  assert (forall x y, access_join x y = None <-> x = None /\ y = None) as Hj
    by (intros [[]|] [[]|]; simpl; naive_solver).
  rewrite Hj, IH. setoid_rewrite elem_of_cons. unfold rule_value.
  split.
  - intros [Hr Hall] q [->|Hq]; [by destruct (matches r)|auto].
  - intros Hall. split; [by rewrite Hall by auto|auto].
Qed.

Lemma fold_access_allow rules :
  fold_access matches acc_of rules = Some DAllow <->
  (exists r, r ∈ rules /\ matches r = true) /\
  forall r, r ∈ rules -> matches r = true -> acc_of r = DAllow.
Proof.
  pose proof (fold_access_deny rules) as Hd. pose proof (fold_access_none rules) as Hn.
  destruct (fold_access matches acc_of rules) as [[]|]; split; try done.
  - intros _. split.
    + destruct (existsb matches rules) eqn:E; [by apply existsb_elem in E|].
      rewrite existsb_elem_false in E. by apply Hn in E.
    + intros r Hr Hm. destruct (acc_of r) eqn:Ha; [done|].
      assert (Some DAllow = Some DDeny) by (apply Hd; eauto). done.
  - intros [_ Hall]. destruct (proj1 Hd eq_refl) as (r & Hr & Hm & Ha).
    rewrite Hall in Ha by done. done.
  - intros [(r & Hr & Hm) _]. rewrite (proj1 Hn eq_refl) in Hm by done. done.
Qed.

End fold_access.

(** * Domain and connection decisions *)

Section decisions.
Context {U : Unicode} {G : Globset}.
Implicit Types (n : NetworkPolicy) (h : string).

Definition rule_hits (h : string) (r : DomainRule) : Prop := domain_matches (dr_matcher r) h = true.

(** A host is allowed exactly when networking is enabled and its rules allow
    it: under an open default no matching rule denies it, under a restricted
    default some rule matches it and every matching rule allows it.  Deny wins
    whatever the order of the rules, and external ownership is reported as
    such. *)
Theorem decision_for_domain_spec (n : NetworkPolicy) (domain h : string) :
  normalize_domain domain = Ok h ->
  (decision_for_domain n domain = Ok NetAllow <->
     net_mode n = NetEnabled /\
     (domain_mode n = DomEnabled /\
        (forall r, r ∈ domains n -> rule_hits h r -> dr_access r = DAllow) \/
      domain_mode n = DomRestricted /\
        (exists r, r ∈ domains n /\ rule_hits h r) /\
        (forall r, r ∈ domains n -> rule_hits h r -> dr_access r = DAllow))) /\
  (decision_for_domain n domain = Ok NetExternallyEnforced <-> net_mode n = NetExternal) /\
  is_ok (decision_for_domain n domain) = true.
Proof.
  intros Hh. unfold decision_for_domain. rewrite Hh. cbn.
  pose proof (fold_access_deny (fun r => domain_matches (dr_matcher r) h) dr_access (domains n)) as Hd.
  pose proof (fold_access_allow (fun r => domain_matches (dr_matcher r) h) dr_access (domains n)) as Ha.
  unfold access_for_normalized_domain, rule_hits.
  destruct (net_mode n); [by split_and!; split; naive_solver| |by split_and!; split; naive_solver].
  destruct (domain_mode n); [by split_and!; split; naive_solver|..].
  - case_bool_decide as H; (split_and!; [|by split|done]); (split; [|intros [_ [[_ Hall]|[? _]]]]); try done.
    + rewrite Hd in H. destruct H as (r & Hr & Hm & Hx). rewrite Hall in Hx by done. done.
    + intros _. split; [done|]. left. split; [done|]. intros r Hr Hm.
      destruct (dr_access r) eqn:E; [done|]. destruct H. apply Hd. eauto.
  - case_bool_decide as H; (split_and!; [|by split|done]); (split; [|intros [_ [[? _]|[_ Hall]]]]); try done.
    + intros _. split; [done|]. right. split; [done|]. by apply Ha.
    + destruct H. by apply Ha.
Qed.

(** What the address checks admit. *)
Definition address_ok (n : NetworkPolicy) (h : string) (ips : list IpAddr) : Prop :=
  match parse_ip_literal h with
  | Some literal =>
      (forall ip, ip ∈ ips -> ip = literal) /\
      (has_exact_allow n h = true \/ local_network_access n = LocalAllow \/
       is_non_public_ip literal = false)
  | None =>
      ips <> [] /\
      (local_network_access n = LocalAllow \/
       (h = "localhost" -> has_exact_allow n h = true) /\
       forall ip, ip ∈ ips -> is_non_public_ip ip = false \/
         h = "localhost" /\ has_exact_allow n h = true /\ ip_is_loopback ip = true)
  end.

Lemma address_decision_spec n h ips :
  address_decision n h ips = NetAllow <-> address_ok n h ips.
Proof.
  unfold address_decision, address_ok. destruct (parse_ip_literal h) as [literal|].
  - destruct (existsb _ ips) eqn:E.
    + split; [done|]. intros [Hall _]. apply existsb_elem in E as (ip & Hip & Hne).
      bool_inv. by destruct Hne; auto.
    + rewrite existsb_elem_false in E.
      assert (forall ip, ip ∈ ips -> ip = literal) as Hall.
      { intros ip Hip. apply E in Hip. by bool_inv. }
      destruct (has_exact_allow n h), (is_non_public_ip literal); simpl;
        try case_bool_decide; naive_solver.
  - destruct (local_network_access n); simpl.
    2: { rewrite (andb_false_r (bool_decide (h = "localhost"))). simpl. case_bool_decide; naive_solver. }
    rewrite !andb_true_r.
    destruct (decide (h = "localhost")) as [Hh|Hh];
      [rewrite !(bool_decide_eq_true_2 (h = "localhost")) by done
      |rewrite !(bool_decide_eq_false_2 (h = "localhost")) by done]; simpl.
    + destruct (has_exact_allow n h) eqn:He; simpl; [|naive_solver].
      case_bool_decide as Hn; [naive_solver|]. destruct (existsb _ ips) eqn:E.
      * split; [done|]. apply existsb_elem in E as (ip & Hip & Hb). bool_inv.
        intros [_ [?|[_ Hall]]]; [done|]. destruct (Hall ip Hip); naive_solver congruence.
      * split; [|done]. intros _. split; [done|]. right. split; [done|]. intros ip Hip.
        rewrite existsb_elem_false in E. apply E in Hip.
        destruct (is_non_public_ip ip), (ip_is_loopback ip); naive_solver.
    + case_bool_decide as Hn; [naive_solver|]. destruct (existsb _ ips) eqn:E.
      * split; [done|]. apply existsb_elem in E as (ip & Hip & Hb). bool_inv.
        intros [_ [?|[_ Hall]]]; [done|]. destruct (Hall ip Hip); naive_solver congruence.
      * split; [|done]. intros _. split; [done|]. right. split; [done|]. intros ip Hip. left.
        rewrite existsb_elem_false in E. apply E in Hip.
        by destruct (is_non_public_ip ip).
Qed.

Lemma resolved_ips_allow n domain ips :
  decision_for_domain_with_resolved_ips n domain ips = Ok NetAllow <->
  exists h, normalize_domain domain = Ok h /\ decision_for_domain n h = Ok NetAllow /\
    address_ok n h ips.
Proof.
  unfold decision_for_domain_with_resolved_ips. split.
  - intros H. apply bind_Ok in H as (h & Hh & H). apply bind_Ok in H as (d & Hd & H).
    destruct d; simpl in H; try done. injection H as H. apply address_decision_spec in H. eauto.
  - intros (h & -> & Hd & Ha). cbn. rewrite Hd. cbn. f_equal. by apply address_decision_spec.
Qed.

(** A resolved host is allowed exactly when its domain rules allow it and its
    addresses pass: an address literal must be the only address and be public,
    exactly allowed or locally permitted; a host name needs at least one
    address, and, unless local access is permitted, every address must be
    public, except loopback addresses of an exactly allowed [localhost]. *)
Theorem resolved_ips_decision (n : NetworkPolicy) (domain : string) (ips : list IpAddr) :
  decision_for_domain_with_resolved_ips n domain ips = Ok NetAllow <->
  exists h, normalize_domain domain = Ok h /\ decision_for_domain n h = Ok NetAllow /\
    match parse_ip_literal h with
    | Some literal =>
        (forall ip, ip ∈ ips -> ip = literal) /\
        (has_exact_allow n h = true \/ local_network_access n = LocalAllow \/
         is_non_public_ip literal = false)
    | None =>
        ips <> [] /\
        (local_network_access n = LocalAllow \/
         (h = "localhost" -> has_exact_allow n h = true) /\
         forall ip, ip ∈ ips -> is_non_public_ip ip = false \/
           h = "localhost" /\ has_exact_allow n h = true /\ ip_is_loopback ip = true)
    end.
Proof. apply resolved_ips_allow. Qed.

(** An address a policy may let a process reach under a host name: the address
    of a literal host is that literal, and unless local access is permitted it is
    public or covered by an exact allow (the literal itself, or a loopback
    address of [localhost]). *)
Definition address_safe (n : NetworkPolicy) (h : string) (ip : IpAddr) : Prop :=
  (forall literal, parse_ip_literal h = Some literal -> ip = literal) /\
  (local_network_access n = LocalDeny ->
   is_non_public_ip ip = false \/
   has_exact_allow n h = true /\
     (parse_ip_literal h = Some ip \/ h = "localhost" /\ ip_is_loopback ip = true)).

Lemma address_ok_safe n h ips ip : address_ok n h ips -> ip ∈ ips -> address_safe n h ip.
Proof.
  unfold address_ok, address_safe. intros Hok Hip. destruct (parse_ip_literal h) as [literal|].
  - destruct Hok as [Hall Hok]. rewrite (Hall _ Hip). split; [by intros ? [= <-]|].
    intros Hl. destruct Hok as [He|[?|?]]; [right; auto|congruence|by left].
  - split; [done|]. destruct Hok as [_ [?|[_ Hok]]]; [congruence|]. intros _.
    destruct (Hok _ Hip) as [?|(? & ? & ?)]; auto.
Qed.

Lemma decision_allow_mode n h : decision_for_domain n h = Ok NetAllow -> net_mode n = NetEnabled.
Proof. unfold decision_for_domain. intros H. res_inv. by destruct (net_mode n). Qed.

Lemma authorize_connection_allowed n t connected address :
  authorize_connection n t connected = Ok (Allowed address) ->
  address = connected /\ connected ∈ rt_addresses t /\ net_mode n = NetEnabled /\
  exists h, normalize_domain (rt_domain t) = Ok h /\ decision_for_domain n h = Ok NetAllow /\
    address_safe n h (socket_ip connected).
Proof.
  unfold authorize_connection, decision_for_connected_address, decision_for_resolved_target.
  intros H. apply bind_Ok in H as (d & Hd & H). apply bind_Ok in Hd as (d0 & Hd0 & Hd).
  destruct d0; simpl in Hd; try (injection Hd as <-; simpl in H; discriminate H).
  unfold contains_address in Hd. case_bool_decide as Hin; injection Hd as <-; simpl in H; [|discriminate H].
  injection H as <-. apply resolved_ips_allow in Hd0 as (h & Hh & Hdom & Hok).
  split_and!; [done|done|by eapply decision_allow_mode|]. exists h. split_and!; [done|done|].
  eapply address_ok_safe; [exact Hok|]. by apply list_elem_of_fmap_2.
Qed.

(** An authorized connection is safe: the authorized address is the one
    asked for, it belongs to the resolution snapshot, the policy enforces
    networking locally and allows the host, and unless local access is permitted
    the address is public or covered by an exact allow (the literal itself, or a
    loopback address of [localhost]). *)
Theorem authorize_connection_safe (n : NetworkPolicy) (t : ResolvedNetworkTarget)
    (connected address : SocketAddr) :
  authorize_connection n t connected = Ok (Allowed address) ->
  address = connected /\ connected ∈ rt_addresses t /\ net_mode n = NetEnabled /\
  exists h, normalize_domain (rt_domain t) = Ok h /\ decision_for_domain n h = Ok NetAllow /\
    (forall literal, parse_ip_literal h = Some literal -> socket_ip connected = literal) /\
    (local_network_access n = LocalDeny ->
     is_non_public_ip (socket_ip connected) = false \/
     has_exact_allow n h = true /\
       (parse_ip_literal h = Some (socket_ip connected) \/
        h = "localhost" /\ ip_is_loopback (socket_ip connected) = true)).
Proof. apply authorize_connection_allowed. Qed.

Lemma resolved_target_new (domain : string) (addresses : list SocketAddr)
    (t : ResolvedNetworkTarget) :
  ResolvedNetworkTarget_new domain addresses = Ok t ->
  normalize_domain domain = Ok (rt_domain t) /\ NoDup (rt_addresses t) /\
  (forall a, a ∈ rt_addresses t <-> a ∈ addresses) /\
  (forall literal a, parse_ip_literal (rt_domain t) = Some literal -> a ∈ addresses ->
     socket_ip a = literal).
Proof.
  unfold ResolvedNetworkTarget_new. intros H. apply bind_Ok in H as (h & Hh & H).
  apply bind_Ok in H as (unique & Hu & H). injection H as <-. simpl. split; [done|].
  revert unique Hu. induction addresses as [|a addresses IH] using rev_ind; intros unique Hu.
  { injection Hu as <-. split_and!; [constructor|done|set_solver]. }
  rewrite foldM_app in Hu. apply bind_Ok in Hu as (u & Hu & Hstep).
  destruct (IH u Hu) as (Hnd & Helem & Hlit). simpl in Hstep.
  apply bind_Ok in Hstep as (u' & Hstep & Hu'). injection Hu' as <-. res_inv.
  split_and!.
  - case_bool_decide as Hin; [done|]. apply NoDup_app. split_and!; [done| |apply NoDup_singleton].
    intros x Hx ->%list_elem_of_singleton. done.
  - intros x. rewrite elem_of_app, list_elem_of_singleton. case_bool_decide as Hin.
    + rewrite Helem in *. naive_solver.
    + by rewrite elem_of_app, list_elem_of_singleton, Helem.
  - intros literal x Hl [Hx| ->%list_elem_of_singleton]%elem_of_app; [eauto|].
    match goal with H : match parse_ip_literal h with _ => _ end = false |- _ => rewrite Hl in H end.
    bool_inv. done.
Qed.

(** A resolved target keeps exactly the addresses it was given, once each,
    under the normalized host, and a target named by an address literal holds
    that address only. *)
Theorem resolved_target_new_spec (domain : string) (addresses : list SocketAddr)
    (t : ResolvedNetworkTarget) :
  ResolvedNetworkTarget_new domain addresses = Ok t ->
  normalize_domain domain = Ok (rt_domain t) /\ NoDup (rt_addresses t) /\
  (forall a, a ∈ rt_addresses t <-> a ∈ addresses) /\
  (forall literal a, parse_ip_literal (rt_domain t) = Some literal -> a ∈ addresses ->
     socket_ip a = literal).
Proof. apply resolved_target_new. Qed.

End decisions.

(** * Normalization keeps decisions *)

Section normalized.
Context {U : Unicode} {G : Globset}.
Implicit Types (n : NetworkPolicy).

(** Collapsing rules by key under deny precedence does not change the access a
    key-determined match gets. *)
Lemma collapse_access {R K} (key : R -> K) (keqb : K -> K -> bool) (merge : R -> R -> R)
    (matches : R -> bool) (acc_of : R -> DomainAccess) (inv : R -> Prop) (rules : list R) :
  (forall e r, key (merge e r) = key e) ->
  (forall e r, matches (merge e r) = matches e) ->
  (forall e r, acc_of (merge e r) = if decide (acc_of r = DDeny) then DDeny else acc_of e) ->
  (forall r, r ∈ rules -> inv r) -> (forall e r, inv e -> inv (merge e r)) ->
  (forall e r, inv e -> inv r -> keqb (key r) (key e) = true -> matches r = matches e) ->
  Forall inv (keyed_collapse key keqb merge rules) /\
  fold_access matches acc_of (keyed_collapse key keqb merge rules) = fold_access matches acc_of rules.
Proof.
  intros Hkey Hmatch Hacc Hinv Hmerge Hkeq. rewrite !fold_access_summary.
  apply (keyed_collapse_related key keqb merge Hkey (rule_value matches acc_of) access_join None (=));
    auto using access_join_comm, access_join_assoc, access_join_unit.
  intros e r He Hr Hk. unfold rule_value. rewrite Hmatch, Hacc, (Hkeq e r) by auto.
  destruct (matches e), (acc_of e), (acc_of r); done.
Qed.

(** What [DomainRule::new] establishes: the matcher is compiled from the pattern. *)
Definition domain_rule_wf (r : DomainRule) : Prop := compile_domain_matcher (dr_pattern r) = Ok (dr_matcher r).

Inductive net_built : NetworkPolicy -> Prop :=
  | nb_disabled : net_built net_disabled
  | nb_enabled : net_built net_enabled
  | nb_unrestricted : net_built net_unrestricted
  | nb_external : net_built net_external
  | nb_domain_mode n m : net_built n -> net_built (with_domain_mode n m)
  | nb_unix_mode n m : net_built n -> net_built (with_unix_socket_mode n m)
  | nb_local n a : net_built n -> net_built (with_local_network_access n a)
  | nb_domain n p a n' : net_built n -> with_domain n p a = Ok n' -> net_built n'
  | nb_unix n p a n' : net_built n -> with_unix_socket n p a = Ok n' -> net_built n'
  | nb_ipc n e a n' : net_built n -> with_local_ipc n e a = Ok n' -> net_built n'.

Lemma net_built_wf n : net_built n -> Forall domain_rule_wf (domains n).
Proof.
  induction 1 as [| | | |n m _ IH|n m _ IH|n a _ IH|n p a n' _ IH H|n p a n' _ IH H|n e a n' _ IH H];
    try constructor; try exact IH.
  - unfold with_domain in H. res_inv. apply Forall_app. split; [done|]. constructor; [|constructor].
    match goal with H : DomainRule_new _ _ = Ok _ |- _ => unfold DomainRule_new in H; res_inv end. done.
  - unfold with_unix_socket in H. by res_inv.
  - unfold with_local_ipc in H. res_inv. by destruct (unix_path e).
Qed.

Lemma collapse_domains (matches : DomainRule -> bool) (rules : list DomainRule) :
  (forall r s, domain_rule_wf r -> domain_rule_wf s -> dr_pattern r = dr_pattern s -> matches r = matches s) ->
  (forall r a, matches {| dr_pattern := dr_pattern r; dr_access := a; dr_matcher := dr_matcher r |} = matches r) ->
  Forall domain_rule_wf rules ->
  fold_access matches dr_access (keyed_collapse dr_pattern String.eqb merge_domain rules) =
    fold_access matches dr_access rules.
Proof.
  intros Hpat Haccess Hwf. rewrite Forall_forall in Hwf.
  apply (collapse_access dr_pattern String.eqb merge_domain matches dr_access domain_rule_wf); auto.
  - intros e r. unfold merge_domain. by case_bool_decide.
  - intros e r. unfold merge_domain. by case_bool_decide.
  - intros e r. unfold merge_domain. case_bool_decide; by case_decide.
  - intros e r He. unfold merge_domain. by case_bool_decide.
  - intros e r He Hr Hk%String.eqb_eq. by apply Hpat.
Qed.

Lemma collapse_domain_matches rules h :
  Forall domain_rule_wf rules ->
  fold_access (fun r => domain_matches (dr_matcher r) h) dr_access
    (keyed_collapse dr_pattern String.eqb merge_domain rules) =
  fold_access (fun r => domain_matches (dr_matcher r) h) dr_access rules.
Proof.
  apply collapse_domains; [|done]. unfold domain_rule_wf. intros r s Hr Hs Heq.
  rewrite Heq, Hs in Hr. by injection Hr as ->.
Qed.

Lemma net_normalized_domain n n' domain :
  net_built n -> net_normalized n = Ok n' ->
  decision_for_domain n' domain = decision_for_domain n domain.
Proof.
  intros Hn%net_built_wf H. unfold net_normalized in H. res_inv.
  unfold decision_for_domain, access_for_normalized_domain. simpl.
  destruct (normalize_domain domain) as [h|]; cbn; [|done].
  by rewrite collapse_domain_matches.
Qed.

Lemma net_normalized_unix n n' p :
  net_normalized n = Ok n' -> decision_for_unix_socket n' p = decision_for_unix_socket n p.
Proof.
  intros H. unfold net_normalized in H. res_inv. unfold decision_for_unix_socket. simpl.
  destruct (selector_absolute p); cbn; [|done].
  assert (forall r s : UnixSocketRule, NativePathKey_new (us_path r) = NativePathKey_new (us_path s) ->
            paths_equal p (us_path r) = paths_equal p (us_path s)) as Hkey.
  { intros r s. rewrite !NativePathKey_new_eq. intros Hk%(inj (fmap component_key)).
    apply eq_true_iff_eq. by rewrite !paths_equal_true, Hk. }
  assert (fold_access (fun r => paths_equal p (us_path r)) us_access
            (keyed_collapse (fun r => NativePathKey_new (us_path r)) (fun k l => bool_decide (k = l))
               merge_unix (unix_sockets n)) =
          fold_access (fun r => paths_equal p (us_path r)) us_access (unix_sockets n)) as ->; [|done].
  apply (collapse_access (fun r => NativePathKey_new (us_path r)) (fun k l => bool_decide (k = l))
           merge_unix (fun r => paths_equal p (us_path r)) us_access (fun _ => True)); auto.
  - intros e r. unfold merge_unix. by case_bool_decide.
  - intros e r. unfold merge_unix. by case_bool_decide.
  - intros e r. unfold merge_unix. case_bool_decide; by case_decide.
  - intros e r _ _ Hk. bool_inv. auto.
Qed.

Lemma has_exact_allow_fold n h :
  fold_access (fun r => bool_decide (dr_pattern r = h)) dr_access (domains n) <> Some DDeny ->
  has_exact_allow n h =
    negb (contains_char "*" h) && negb (contains_char "?" h) &&
    bool_decide (fold_access (fun r => bool_decide (dr_pattern r = h)) dr_access (domains n) = Some DAllow).
Proof.
  intros Hnd. apply eq_true_iff_eq. unfold has_exact_allow.
  rewrite existsb_elem, !andb_true_iff, bool_decide_eq_true, fold_access_allow. split.
  - intros (r & Hr & Hb). bool_inv. subst. split_and!; try by apply negb_true_iff.
    + exists r. by rewrite bool_decide_eq_true.
    + intros s Hs Heq. destruct (dr_access s) eqn:E; [done|]. destruct Hnd. apply fold_access_deny. eauto.
  - intros [[? ?] [(r & Hr & Heq) Hall]]. exists r. split; [done|].
    rewrite Hall by done. bool_inv. subst. repeat (apply andb_true_iff; split); try done;
      by apply negb_true_iff || by apply bool_decide_eq_true.
Qed.

Lemma net_normalized_exact (L : GlobsetLaws G) n n' h :
  net_built n -> net_normalized n = Ok n' -> normalize_domain h = Ok h ->
  str_any (glob_special domain_options) h = false ->
  decision_for_domain n h = Ok NetAllow -> has_exact_allow n' h = has_exact_allow n h.
Proof.
  intros Hn%net_built_wf H Hh Hlit Hd. unfold net_normalized in H. res_inv.
  assert (fold_access (fun r => bool_decide (dr_pattern r = h)) dr_access (domains n) <> Some DDeny) as Hnd.
  { rewrite fold_access_deny. intros (r & Hr & Heq & Ha). bool_inv. subst h.
    assert (access_for_normalized_domain n (dr_pattern r) = Some DDeny) as Hacc.
    { apply fold_access_deny. exists r. rewrite Forall_forall in Hn. split_and!; [done| |done].
      rewrite (literal_pattern_matches L (dr_pattern r)) by (try done; by apply Hn).
      unfold eq_ignore_ascii_case. by apply bool_decide_eq_true. }
    unfold decision_for_domain in Hd. rewrite Hh in Hd. cbn in Hd. rewrite Hacc in Hd.
    by destruct (net_mode n), (domain_mode n). }
  rewrite !has_exact_allow_fold; simpl; rewrite ?collapse_domains; try done.
  all: intros r s _ _ Heq; by rewrite Heq.
Qed.

(** An exact allow of a normalized policy is one of the original. *)
Lemma normalized_exact_allow n n' h :
  net_normalized n = Ok n' -> has_exact_allow n' h = true -> has_exact_allow n h = true.
Proof.
  intros H. unfold net_normalized in H. res_inv. unfold has_exact_allow. simpl.
  rewrite !existsb_elem. intros (r & Hr & Hb).
  set (inv := fun r => dr_access r = DAllow ->
         exists q, q ∈ domains n /\ dr_pattern q = dr_pattern r /\ dr_access q = DAllow).
  assert (Forall inv (keyed_collapse dr_pattern String.eqb merge_domain (domains n))) as Hinv.
  { clear r Hr Hb. apply (keyed_collapse_related dr_pattern String.eqb merge_domain) with
      (val := fun _ : DomainRule => ()) (comb := fun _ _ => ()) (unit := ()) (rel := eq);
      try done; try apply _; try by intros [].
    - intros e q. unfold merge_domain. by case_bool_decide.
    - intros q Hq Ha. eauto.
    - intros e q He Hq _. unfold merge_domain. by case_bool_decide. }
  rewrite Forall_forall in Hinv. bool_inv.
  destruct (Hinv r Hr) as (q & Hq & Hpat & Ha); [done|]. exists q. split; [done|].
  rewrite Hpat, Ha. repeat (apply andb_true_iff; split); try done;
    by apply negb_true_iff || by apply bool_decide_eq_true.
Qed.

Lemma net_normalized_resolved (L : GlobsetLaws G) n n' domain h ips :
  net_built n -> net_normalized n = Ok n' -> normalize_domain domain = Ok h -> normalize_domain h = Ok h ->
  str_any (glob_special domain_options) h = false ->
  decision_for_domain_with_resolved_ips n' domain ips = decision_for_domain_with_resolved_ips n domain ips.
Proof.
  intros Hn H Hd Hh Hlit. unfold decision_for_domain_with_resolved_ips. rewrite Hd. cbn.
  rewrite (net_normalized_domain n n') by done.
  destruct (decision_for_domain n h) as [[]|] eqn:E; cbn; try done.
  unfold address_decision. rewrite (net_normalized_exact L n n') by done.
  assert (local_network_access n' = local_network_access n) as -> by (unfold net_normalized in H; by res_inv).
  done.
Qed.

(** Normalizing a network policy preserves its decisions: every host and
    every Unix-socket path is decided as before, and so is every resolved host
    whose canonical spelling has no glob metacharacter. *)
Theorem net_normalized_preserves (L : GlobsetLaws G) (n n' : NetworkPolicy) :
  net_built n -> net_normalized n = Ok n' ->
  (forall domain, decision_for_domain n' domain = decision_for_domain n domain) /\
  (forall p, decision_for_unix_socket n' p = decision_for_unix_socket n p) /\
  (forall domain h ips, normalize_domain domain = Ok h -> normalize_domain h = Ok h ->
     str_any (glob_special domain_options) h = false ->
     decision_for_domain_with_resolved_ips n' domain ips =
       decision_for_domain_with_resolved_ips n domain ips).
Proof.
  intros Hn H. split_and!.
  - intros domain. by apply net_normalized_domain.
  - intros p. by apply net_normalized_unix.
  - intros domain h ips Hd Hh Hlit. by apply (net_normalized_resolved L n n' domain h).
Qed.

(** A Unix-socket rule grants exactly one lexical path: an absolute socket
    path is allowed exactly when the policy enforces sockets locally and, under
    an open default, no rule on that path denies it, or, under a restricted
    default, some rule names it and every such rule allows it. *)
Theorem unix_socket_decision (n : NetworkPolicy) (p : path) :
  valid_absolute p ->
  decision_for_unix_socket n p = Ok NetAllow <->
  net_mode n = NetEnabled /\
  let on r := NativePathKey_new p = NativePathKey_new (us_path r) in
  (unix_socket_mode n = UnixEnabled \/
   unix_socket_mode n = UnixRestricted /\ exists r, r ∈ unix_sockets n /\ on r) /\
  (forall r, r ∈ unix_sockets n -> on r -> us_access r = DAllow).
Proof.
  intros Hp. unfold decision_for_unix_socket.
  rewrite (proj2 (selector_absolute_Ok p _) (conj Hp eq_refl)). cbn.
  assert (forall r, NativePathKey_new p = NativePathKey_new (us_path r) <->
                    paths_equal p (us_path r) = true) as Hon.
  { intros r. rewrite paths_equal_true, !NativePathKey_new_eq. split; [|congruence].
    apply (inj (fmap component_key)). }
  setoid_rewrite Hon. clear Hon.
  pose proof (fold_access_deny (fun r => paths_equal p (us_path r)) us_access (unix_sockets n)) as Hd.
  pose proof (fold_access_allow (fun r => paths_equal p (us_path r)) us_access (unix_sockets n)) as Ha.
  destruct (net_mode n); simpl; [naive_solver| |naive_solver].
  destruct (unix_socket_mode n); simpl; [naive_solver|..]; case_bool_decide as H.
  - split; [done|]. intros (_ & _ & Hall). apply Hd in H as (r & Hr & Hm & Hx).
    rewrite Hall in Hx by done. done.
  - split; [|done]. intros _. split_and!; [done|by left|]. intros r Hr Hm.
    destruct (us_access r) eqn:E; [done|]. destruct H. apply Hd. eauto.
  - split; [|done]. intros _. apply Ha in H as [? ?]. auto.
  - split; [done|]. intros (_ & [?|[_ Hex]] & Hall); [done|]. destruct H. by apply Ha.
Qed.

End normalized.

(** * Local IPC *)

Section local_ipc.
Context {U : Unicode} {G : Globset}.

(** Declaring a local-IPC endpoint opens that endpoint only: a named pipe
    changes no host and no socket decision; a Unix socket changes no host
    decision as long as a disabled network has its domain default disabled, and,
    where sockets were already enforced, no decision on any other path; the
    socket itself becomes allowed when no rule on its path denies it. *)
Theorem with_local_ipc_scope (n n' : NetworkPolicy) (e : LocalIpcEndpoint) (a : DomainAccess) :
  with_local_ipc n e a = Ok n' ->
  existsb (fun r => endpoint_eqb (li_endpoint r) e) (local_ipc n) = false /\
  ((net_mode n = NetDisabled -> domain_mode n = DomDisabled) ->
     forall domain, decision_for_domain n' domain = decision_for_domain n domain) /\
  match unix_path e with
  | None => forall q, decision_for_unix_socket n' q = decision_for_unix_socket n q
  | Some p =>
      (net_mode n = NetEnabled -> unix_socket_mode n <> UnixDisabled ->
         forall q, paths_equal q p = false ->
         decision_for_unix_socket n' q = decision_for_unix_socket n q) /\
      (a = DAllow -> valid_absolute p ->
         (forall r, r ∈ unix_sockets n -> paths_equal p (us_path r) = true -> us_access r = DAllow) ->
         decision_for_unix_socket n' p = Ok NetAllow)
  end.
Proof.
  unfold with_local_ipc. intros H. res_inv. split; [done|]. bool_inv.
  destruct (unix_path e) as [p|]; simpl.
  - split_and!.
    + intros Hdis domain. unfold decision_for_domain, access_for_normalized_domain. simpl.
      destruct (normalize_domain domain); cbn; [|done].
      destruct (net_mode n); simpl; [by rewrite Hdis|done|done].
    + intros Hm Hu q Hq. unfold decision_for_unix_socket. simpl. rewrite Hm.
      rewrite (bool_decide_eq_false_2 (unix_socket_mode n = UnixDisabled)) by done. simpl.
      destruct (selector_absolute q); cbn; [|done]. rewrite !bool_decide_eq_false_2 by done.
      unfold fold_access. rewrite foldl_app. simpl. by rewrite Hq.
    + intros -> Hp Hall. unfold decision_for_unix_socket. simpl.
      rewrite (proj2 (selector_absolute_Ok p _) (conj Hp eq_refl)). cbn.
      assert (fold_access (fun r => paths_equal p (us_path r)) us_access
                (unix_sockets n ++ [{| us_path := p; us_access := DAllow |}]) = Some DAllow) as ->.
      { apply fold_access_allow. assert (paths_equal p p = true) as Hpp by by apply paths_equal_true.
        split.
        - eexists. split; [apply elem_of_app; right; apply list_elem_of_here|done].
        - intros r [Hr| ->%list_elem_of_singleton]%elem_of_app Hm; [by apply Hall|done]. }
      destruct (net_mode n); simpl; try done; by destruct (unix_socket_mode n).
  - split; [|done]. intros _ domain. done.
Qed.

Definition denied_literal : string := "2606:4700:4700::1111".
Definition other_spelling : string := "2606:4700:4700:0::1111".

(** Address literals are compared as text: a rule that denies an IPv6 address
    by name does not deny another spelling of the same address, which an open
    policy then allows. *)
Theorem literal_deny_is_textual (L : GlobsetLaws G) :
  exists (n : NetworkPolicy) (ip : IpAddr),
    with_domain net_enabled denied_literal DDeny = Ok n /\
    parse_ip denied_literal = Some ip /\ parse_ip other_spelling = Some ip /\
    decision_for_domain_with_resolved_ips n denied_literal [ip] = Ok NetDeny /\
    decision_for_domain_with_resolved_ips n other_spelling [ip] = Ok NetAllow.
Proof.
  assert (str_any (glob_special domain_options) denied_literal = false) as Hlit
    by reflexivity.
  destruct (glob_literal domain_options denied_literal Hlit) as (m & Hm & Hmatch).
  assert (normalize_domain_pattern denied_literal = Ok denied_literal) as Hp by reflexivity.
  assert (compile_domain_matcher denied_literal = Ok (Full m)) as Hc.
  { unfold compile_domain_matcher. rewrite bool_decide_eq_false_2 by done.
    change (strip_prefix "**." denied_literal) with (@None string).
    change (strip_prefix "*." denied_literal) with (@None string). by rewrite Hm. }
  assert (normalize_domain denied_literal = Ok denied_literal) as Hn1.
  { unfold normalize_domain. rewrite Hp. cbn. unfold valid_concrete_host.
    by rewrite bool_decide_eq_true_2 by (vm_compute; eauto). }
  assert (normalize_domain other_spelling = Ok other_spelling) as Hn2.
  { unfold normalize_domain. assert (normalize_domain_pattern other_spelling = Ok other_spelling) as ->
      by reflexivity. cbn. unfold valid_concrete_host.
    by rewrite bool_decide_eq_true_2 by (vm_compute; eauto). }
  eexists _, _. split.
  { unfold with_domain, DomainRule_new. rewrite Hp. cbn. rewrite Hc. reflexivity. }
  split; [reflexivity|]. split; [reflexivity|].
  unfold decision_for_domain_with_resolved_ips, decision_for_domain, access_for_normalized_domain,
    fold_access. rewrite !Hn1, !Hn2. cbn -[denied_literal other_spelling]. rewrite Hn1, Hn2.
  cbn -[denied_literal other_spelling]. rewrite !Hmatch.
  split; reflexivity.
Qed.

End local_ipc.

(** * Examples *)

Section examples.
#[local] Existing Instance literal_globset.
#[local] Existing Instance ascii_unicode.

Definition example_rule : DomainRule :=
  {| dr_pattern := "example.com"; dr_access := DAllow; dr_matcher := Full (G := literal_globset) (domain_options, "example.com") |}.

Definition example_policy : NetworkPolicy :=
  {| net_mode := NetEnabled; domain_mode := DomRestricted; unix_socket_mode := UnixRestricted;
     local_network_access := LocalDeny; domains := [example_rule];
     unix_sockets := [{| us_path := "/run/a.sock"; us_access := DAllow |}]; local_ipc := [] |}.

Definition example_address : SocketAddr := SocketV4 (ipv4 93 184 216 34) 443.

Definition example_target : ResolvedNetworkTarget :=
  {| rt_domain := "example.com"; rt_addresses := [example_address] |}.

Lemma example_policy_built : net_built example_policy.
Proof.
  apply (nb_unix (with_unix_socket_mode
    {| net_mode := NetEnabled; domain_mode := DomRestricted; unix_socket_mode := UnixDisabled;
       local_network_access := LocalDeny; domains := [example_rule]; unix_sockets := []; local_ipc := [] |}
    UnixRestricted) "/run/a.sock" DAllow); [|reflexivity].
  apply nb_unix_mode. apply (nb_domain (with_domain_mode net_enabled DomRestricted) "EXAMPLE.com." DAllow);
    [apply nb_domain_mode, nb_enabled|reflexivity].
Qed.

Lemma decision_for_domain_spec_witness : decision_for_domain example_policy "Example.COM" = Ok NetAllow.
Proof.
  apply (decision_for_domain_spec example_policy "Example.COM" "example.com"); [reflexivity|].
  split; [reflexivity|]. right. split; [reflexivity|]. split.
  - exists example_rule. split; [apply list_elem_of_here|reflexivity].
  - intros r Hr _. apply list_elem_of_singleton in Hr as ->. reflexivity.
Defined.

Lemma authorize_connection_safe_witness :
  authorize_connection example_policy example_target example_address = Ok (Allowed example_address) /\
  example_address ∈ rt_addresses example_target.
Proof.
  assert (authorize_connection example_policy example_target example_address = Ok (Allowed example_address)) as H
    by reflexivity.
  split; [exact H|]. exact (proj1 (proj2 (authorize_connection_safe _ _ _ _ H))).
Defined.

Lemma resolved_target_new_spec_witness :
  ResolvedNetworkTarget_new "Example.com" [example_address; example_address] = Ok example_target /\
  NoDup (rt_addresses example_target).
Proof.
  assert (ResolvedNetworkTarget_new "Example.com" [example_address; example_address] = Ok example_target) as H
    by reflexivity.
  split; [exact H|]. exact (proj1 (proj2 (resolved_target_new_spec _ _ _ H))).
Defined.

Lemma net_normalized_preserves_witness :
  net_normalized example_policy = Ok example_policy /\
  (forall p, decision_for_unix_socket example_policy p = decision_for_unix_socket example_policy p).
Proof.
  assert (net_normalized example_policy = Ok example_policy) as H by reflexivity.
  split; [exact H|].
  exact (proj1 (proj2 (net_normalized_preserves literal_globset_laws _ _ example_policy_built H))).
Defined.

Lemma unix_socket_decision_witness : decision_for_unix_socket example_policy "/run/./a.sock" = Ok NetAllow.
Proof.
  apply (unix_socket_decision example_policy "/run/./a.sock"); [by vm_compute|].
  split; [reflexivity|]. split.
  - right. split; [reflexivity|]. eexists. split; [apply list_elem_of_here|reflexivity].
  - intros r Hr _. apply list_elem_of_singleton in Hr as ->. reflexivity.
Defined.

Lemma with_local_ipc_scope_witness :
  exists n', with_local_ipc net_disabled (UnixSocket {| ap_path := "/run/agent" |}) DAllow = Ok n' /\
    decision_for_unix_socket n' "/run/agent" = Ok NetAllow /\
    forall domain, decision_for_domain n' domain = decision_for_domain net_disabled domain.
Proof.
  eexists. split; [reflexivity|].
  pose proof (with_local_ipc_scope net_disabled _ (UnixSocket {| ap_path := "/run/agent" |}) DAllow eq_refl)
    as (_ & Hd & _ & Hu).
  split; [|by apply Hd]. apply Hu; [reflexivity|by vm_compute|]. intros r Hr. by apply elem_of_nil in Hr.
Defined.

Lemma literal_deny_is_textual_witness :
  exists n, with_domain net_enabled denied_literal DDeny = Ok n /\
    exists ip, decision_for_domain_with_resolved_ips n other_spelling [ip] = Ok NetAllow.
Proof.
  destruct (literal_deny_is_textual literal_globset_laws) as (n & ip & Hn & _ & _ & _ & H).
  exists n. split; [exact Hn|]. exists ip. exact H.
Defined.

End examples.
