(* ===== verification/Policy.v ===== *)
(** [cageforge-policy]: the complete sandbox policy and its presets
    ([policy.rs]). *)

From Stdlib Require Import Ascii String NArith Lia.
From stdpp Require Import base list strings option gmap sets.
From S2P Require Import Prelude Text NativePath IpAddr Access Selector PathPattern FsPolicy Domain NetPolicy.

Section policy.
Context {U : Unicode} {G : Globset}.

Record SandboxPolicy := { filesystem : FilesystemPolicy; network : NetworkPolicy }.

Definition sandbox_read_only : SandboxPolicy := {|
  filesystem := restricted [
    rule_new selector_root Read; rule_new selector_minimal Read;
    rule_new selector_workspace_root Read; rule_new selector_tmpdir Read;
    rule_new selector_slash_tmp Read];
  network := net_disabled
|}.

Definition sandbox_workspace : SandboxPolicy := {|
  filesystem := restricted [
    rule_new selector_root Read; rule_new selector_minimal Read;
    rule_new selector_workspace_root Write; rule_new selector_tmpdir Write;
    rule_new selector_slash_tmp Write];
  network := net_disabled
|}.

Definition sandbox_full_access : SandboxPolicy := {|
  filesystem := unrestricted; network := net_unrestricted
|}.

(** [SandboxPolicy::validate] *)
Definition sandbox_validate (s : SandboxPolicy) : result PolicyError unit :=
  _ ← policy_validate (filesystem s);
  _ ← net_validate (network s);
  Ok ().

(** [SandboxPolicy::normalized] *)
Definition sandbox_normalized (s : SandboxPolicy) : result PolicyError SandboxPolicy :=
  f ← normalized (filesystem s);
  n ← net_normalized (network s);
  Ok {| filesystem := f; network := n |}.

(** The rule of a scope matches a path below one of its resolved paths only. *)
Lemma scope_rule_match s a p c m :
  matches_path (rule_new s a) p c = Some m ->
  rm_access m = a /\ exists root, root ∈ resolve s c /\ is_within p root = true.
Proof.
  unfold matches_path. simpl.
  destruct (iter_max (covering s p c)) as [k|] eqn:E; simpl; [|done]. intros [= <-].
  split; [by case_bool_decide|]. unfold covering in E.
  destruct (filter (fun root => is_within p root = true) (resolve s c)) as [|root l] eqn:F; [done|].
  assert (root ∈ filter (fun root => is_within p root = true) (resolve s c)) as Hroot
    by (rewrite F; apply list_elem_of_here).
  apply list_elem_of_filter in Hroot as [? ?]. eauto.
Qed.

Definition deny_all_hosts (n : NetworkPolicy) : Prop :=
  forall domain d, decision_for_domain n domain = Ok d -> d = NetDeny.

(** The read-only preset never lets anything be written and reaches no host;
    the workspace preset lets a path be written only below a workspace root, the
    temporary directory or [/tmp], never through a [.git] component, and reaches
    no host either.  Both validate. *)
Theorem presets_confine (p : path) (c : PathResolutionContext) :
  access_for_path (filesystem sandbox_read_only) p c <> Ok FWrite /\
  (access_for_path (filesystem sandbox_workspace) p c = Ok FWrite ->
     contains_component_path p ".git" = false /\
     exists root, is_within p root = true /\
       root ∈ ((fun r => path_join r ".") <$> workspace_roots c)
              ++ option_list (tmpdir c) ++ option_list (slash_tmp c)) /\
  deny_all_hosts (network sandbox_read_only) /\ deny_all_hosts (network sandbox_workspace) /\
  sandbox_validate sandbox_read_only = Ok () /\ sandbox_validate sandbox_workspace = Ok ().
Proof.
  assert (forall n, n = net_disabled -> deny_all_hosts n) as Hdeny.
  { intros n -> domain d Hd. unfold decision_for_domain in Hd. apply bind_Ok in Hd as (h & _ & Hd).
    by injection Hd as <-. }
  split_and!; try (by apply Hdeny); try reflexivity.
  - intros (_ & r & m & Hr & Hm & Hw)%access_write_inv; [|done]. simpl in Hr.
    repeat (apply elem_of_cons in Hr as [->|Hr]; [by apply scope_rule_match in Hm as [Ha _]; rewrite Hw in Ha|]).
    by apply elem_of_nil in Hr.
  - intros (Hp & r & m & Hr & Hm & Hw)%access_write_inv; [|done]. split.
    { unfold is_protected_path in Hp. simpl in Hp. by apply orb_false_iff in Hp as [? _]. }
    simpl in Hr.
    repeat (apply elem_of_cons in Hr as [->|Hr];
      [apply scope_rule_match in Hm as [Ha (root & Hroot & Hin)]; rewrite Hw in Ha; try discriminate Ha;
       exists root; (split; [exact Hin|]); unfold resolve in Hroot; simpl in Hroot; set_solver|]).
    by apply elem_of_nil in Hr.
Qed.

End policy.
