(* ===== verification/Environment.v ===== *)
(** [cageforge-command]: environment construction ([environment.rs],
    [environment/model.rs]) and the error type of the crate ([error.rs]).

    Variable names are one case-insensitive name space: the code keeps every
    map of variables beside an index from the identity of a name to the spelling
    in the map. *)

From Stdlib Require Import Ascii String NArith Lia.
From stdpp Require Import base list strings option gmap sets.
From S2P Require Import Prelude Text BTree NativePath.

Inductive EnvironmentBase := BaseAll | BaseCore | BaseNone.
Inductive EnvironmentOverride := Set_ (value : string) | Remove.
Inductive EnvironmentFilterAction := Include | Exclude.

#[global] Instance EnvironmentBase_eq_dec : EqDecision EnvironmentBase.
Proof. solve_decision. Defined.
#[global] Instance EnvironmentOverride_eq_dec : EqDecision EnvironmentOverride.
Proof. solve_decision. Defined.
#[global] Instance EnvironmentFilterAction_eq_dec : EqDecision EnvironmentFilterAction.
Proof. solve_decision. Defined.

Inductive CommandError :=
  | EmptyProgram
  | ProgramContainsNul
  | ArgumentContainsNul
  | EmptyWorkingDirectory
  | WorkingDirectoryContainsNul
  | WorkingDirectoryParentTraversal (p : path)
  | EmptyEnvironmentName
  | EnvironmentNameContainsEquals
  | EnvironmentNameContainsNul
  | EnvironmentValueContainsNul
  | EmptyEnvironmentPattern
  | EnvironmentPatternContainsNul
  | EnvironmentPatternContainsEquals
  | EnvironmentBaseTooPermissive (required supplied : EnvironmentBase).

(** [CaseFoldedText]: the lower-case expansion of each character. *)
Abbreviation CaseFoldedText := (list (list char)) (only parsing).

(** [EnvironmentNameKey] over [EnvironmentNameIdentity] on Unix *)
Inductive EnvironmentNameKey :=
  | Folded (text : list (list N))
  | NativeBytes (bytes : string).

#[global] Instance EnvironmentNameKey_eq_dec : EqDecision EnvironmentNameKey.
Proof. solve_decision. Defined.
#[global] Instance EnvironmentNameKey_countable : Countable EnvironmentNameKey.
Proof.
  refine (inj_countable'
    (fun k => match k with Folded t => inl t | NativeBytes b => inr b end)
    (fun s => match s with inl t => Folded t | inr b => NativeBytes b end) _).
  by intros [].
Defined.

(** The [wildmatch] crate: a compiled case-insensitive pattern. *)
Class WildMatch := {
  WildMatcher : Type;
  wild_new_case_insensitive : string -> WildMatcher;
  wild_matches : WildMatcher -> string -> bool
}.

(** The [contains_nul] of [command.rs] on Unix *)
Definition os_contains_nul (value : string) : bool := contains_char NUL value.

Section environment.
Context {U : Unicode} {W : WildMatch}.

Definition case_folded_text (value : string) : list (list N) := char_to_lowercase <$> chars value.

(** [EnvironmentNameKey::new], by [environment_name_identity] *)
Definition name_key (name : string) : EnvironmentNameKey :=
  match to_str name with
  | Some name => Folded (case_folded_text name)
  | None => NativeBytes name
  end.

Record EnvironmentPattern := {
  original : string;
  canonical : list (list N);
  ep_matcher : WildMatcher
}.

(** [impl Ord for EnvironmentPattern] *)
#[global] Instance ord_pattern : Ord EnvironmentPattern :=
  fun p q => cmp (canonical p) (canonical q).
#[global] Instance ord_pattern_laws : OrdLaws EnvironmentPattern.
Proof. exact (pullback_laws canonical). Qed.

Definition EnvironmentPattern_new (pattern : string) : result CommandError EnvironmentPattern :=
  reject bool_decide (pattern = "") with EmptyEnvironmentPattern ;;
  reject os_contains_nul pattern with EnvironmentPatternContainsNul ;;
  reject contains_char "=" pattern with EnvironmentPatternContainsEquals ;;
  Ok {| original := pattern; canonical := case_folded_text pattern;
        ep_matcher := wild_new_case_insensitive pattern |}.

Definition env_pattern_matches (p : EnvironmentPattern) (name : string) : bool :=
  wild_matches (ep_matcher p) name.

Record EnvironmentSpec := {
  spec_base : EnvironmentBase;
  overrides : BTreeMap string EnvironmentOverride;
  override_names : gmap EnvironmentNameKey string;
  filters : BTreeMap EnvironmentPattern EnvironmentFilterAction
}.

Record EnvironmentInput := { input_base : EnvironmentBase; variables : BTreeMap string string }.

(** * Maps of variables with their name index *)

Definition remove_environment_name {V} (values : BTreeMap string V)
    (names : gmap EnvironmentNameKey string) (name : string) :
  BTreeMap string V * gmap EnvironmentNameKey string :=
  match names !! name_key name with
  | Some existing => (bt_remove existing values, delete (name_key name) names)
  | None => (values, names)
  end.

(** The sequence [remove_environment_name; names.insert; values.insert] *)
Definition replace_environment_name {V} (values : BTreeMap string V)
    (names : gmap EnvironmentNameKey string) (name : string) (value : V) :
  BTreeMap string V * gmap EnvironmentNameKey string :=
  let '(values, names) := remove_environment_name values names name in
  (bt_insert name value values, <[name_key name := name]> names).

Definition validate_name (name : string) : result CommandError unit :=
  reject bool_decide (name = "") with EmptyEnvironmentName ;;
  reject os_contains_nul name with EnvironmentNameContainsNul ;;
  reject contains_char "=" (to_string_lossy name) with EnvironmentNameContainsEquals ;;
  Ok ().

Definition collect_environment (vars : list (string * string)) :
  result CommandError (BTreeMap string string) :=
  collected ← foldM (fun (st : BTreeMap string string * gmap EnvironmentNameKey string) '(name, value) =>
      _ ← validate_name name;
      reject os_contains_nul value with EnvironmentValueContainsNul ;;
      Ok (replace_environment_name st.1 st.2 name value))
    ([], ∅) vars;
  Ok collected.1.

Definition input_all (vars : list (string * string)) : result CommandError EnvironmentInput :=
  vars ← collect_environment vars; Ok {| input_base := BaseAll; variables := vars |}.

(** [EnvironmentInput::core] of [CoreEnvironment::from_selected] *)
Definition input_core (vars : list (string * string)) : result CommandError EnvironmentInput :=
  vars ← collect_environment vars; Ok {| input_base := BaseCore; variables := vars |}.

Definition input_empty : EnvironmentInput := {| input_base := BaseNone; variables := [] |}.

(** * Specifications *)

Definition spec_of_base (b : EnvironmentBase) : EnvironmentSpec :=
  {| spec_base := b; overrides := []; override_names := ∅; filters := [] |}.

Definition inherit_all : EnvironmentSpec := spec_of_base BaseAll.
Definition env_empty : EnvironmentSpec := spec_of_base BaseNone.
Definition inherit_core : EnvironmentSpec := spec_of_base BaseCore.

(** [impl Default for EnvironmentSpec] *)
Definition env_default : EnvironmentSpec := inherit_core.

Definition override_for (s : EnvironmentSpec) (name : string) : option EnvironmentOverride :=
  match override_names s !! name_key name with
  | Some name => bt_get name (overrides s)
  | None => None
  end.

(** The loop of [filter_action_for] *)
Fixpoint filter_action_loop (fs : list (EnvironmentPattern * EnvironmentFilterAction)) (name : string)
    (include_matches : bool) : option EnvironmentFilterAction :=
  match fs with
  | [] => if include_matches then Some Include else None
  | (pattern, action) :: fs' =>
      if env_pattern_matches pattern name then
        match action with
        | Include => filter_action_loop fs' name true
        | Exclude => Some Exclude
        end
      else filter_action_loop fs' name include_matches
  end.

Definition filter_action_for (s : EnvironmentSpec) (name : string) : option EnvironmentFilterAction :=
  filter_action_loop (filters s) name false.

Definition base_is_at_most (supplied required : EnvironmentBase) : bool :=
  match required with
  | BaseNone => bool_decide (supplied = BaseNone)
  | BaseCore => bool_decide (supplied <> BaseAll)
  | BaseAll => true
  end.

(** Some filter with the given action matches the name, which must be Unicode. *)
Definition some_filter (s : EnvironmentSpec) (a : EnvironmentFilterAction) (name : string) : bool :=
  existsb (fun '(pattern, action) => bool_decide (action = a) && env_pattern_matches pattern name) (filters s).

Definition has_include_filter (s : EnvironmentSpec) : bool :=
  existsb (fun '(_, action) => bool_decide (action = Include)) (filters s).

(** The first [retain] *)
Definition keep_inherited (s : EnvironmentSpec) (name : string) : bool :=
  bool_decide (filters s = []) ||
  match to_str name with Some name => negb (some_filter s Exclude name) | None => false end.

(** The last [retain] *)
Definition keep_final (s : EnvironmentSpec) (name : string) : bool :=
  if has_include_filter s
  then match to_str name with Some name => some_filter s Include name | None => false end
  else if bool_decide (filters s <> []) then bool_decide (is_Some (to_str name))
  else true.

(** One override *)
Definition apply_override (st : BTreeMap string string * gmap EnvironmentNameKey string)
    (o : string * EnvironmentOverride) : BTreeMap string string * gmap EnvironmentNameKey string :=
  match o.2 with
  | Set_ value => replace_environment_name st.1 st.2 o.1 value
  | Remove => remove_environment_name st.1 st.2 o.1
  end.

Definition apply_to (s : EnvironmentSpec) (input : EnvironmentInput) : result CommandError EnvironmentInput :=
  reject negb (base_is_at_most (input_base input) (spec_base s))
    with EnvironmentBaseTooPermissive (spec_base s) (input_base input) ;;
  let '(environment, environment_names) :=
    foldl (fun st '(name, value) => replace_environment_name st.1 st.2 name value) ([], ∅) (variables input) in
  let environment := bt_retain (fun name _ => keep_inherited s name) environment in
  let '(environment, _) := foldl apply_override (environment, environment_names) (overrides s) in
  let environment := bt_retain (fun name _ => keep_final s name) environment in
  Ok {| input_base := input_base input; variables := environment |}.

Definition with_override (s : EnvironmentSpec) (name : string) (o : EnvironmentOverride) : EnvironmentSpec :=
  let '(values, names) := replace_environment_name (overrides s) (override_names s) name o in
  {| spec_base := spec_base s; overrides := values; override_names := names; filters := filters s |}.

Definition with_var (s : EnvironmentSpec) (name value : string) : result CommandError EnvironmentSpec :=
  _ ← validate_name name;
  reject os_contains_nul value with EnvironmentValueContainsNul ;;
  Ok (with_override s name (Set_ value)).

Definition without_var (s : EnvironmentSpec) (name : string) : result CommandError EnvironmentSpec :=
  _ ← validate_name name;
  Ok (with_override s name Remove).

Definition with_filter (s : EnvironmentSpec) (pattern : string) (action : EnvironmentFilterAction) :
  result CommandError EnvironmentSpec :=
  p ← EnvironmentPattern_new pattern;
  Ok {| spec_base := spec_base s; overrides := overrides s; override_names := override_names s;
        filters := bt_insert p action (bt_remove p (filters s)) |}.

(** [impl PartialEq for EnvironmentSpec] *)
Definition env_spec_eqb (s t : EnvironmentSpec) : bool :=
  bool_decide (spec_base s = spec_base t)
  && bool_decide (((fun e => (canonical e.1, e.2)) <$> filters s) = ((fun e => (canonical e.1, e.2)) <$> filters t))
  && bool_decide (size (override_names s) = size (override_names t))
  && forallb (fun '(key, name) =>
       match override_names t !! key with
       | Some other_name => bool_decide (bt_get name (overrides s) = bt_get other_name (overrides t))
       | None => false
       end) (map_to_list (override_names s)).

End environment.

(** * The name index *)

Section index.
Context {U : Unicode} {W : WildMatch} {V : Type}.
Implicit Types (values : BTreeMap string V) (names : gmap EnvironmentNameKey string).

(** The index names the spelling of every variable of the map. *)
Definition index_ok values names : Prop :=
  bt_wf values /\ (forall k n, names !! k = Some n -> name_key n = k) /\
  (forall n v, bt_get n values = Some v -> names !! name_key n = Some n).

Lemma cmp_string_ne (n m : string) : n <> m -> cmp n m <> Eq.
Proof. intros Hne H. by apply Hne, cmp_eq. Qed.

Lemma remove_name_spec values names name :
  index_ok values names ->
  let '(values', names') := remove_environment_name values names name in
  index_ok values' names' /\ names' !! name_key name = None /\
  forall n, bt_get n values' = if decide (name_key n = name_key name) then None else bt_get n values.
Proof.
  intros (Hwf & Hk & Hv). unfold remove_environment_name.
  destruct (names !! name_key name) as [existing|] eqn:E.
  - assert (forall n, bt_get n (bt_remove existing values) =
                      if decide (name_key n = name_key name) then None else bt_get n values) as Hget.
    { intros n. destruct (decide (n = existing)) as [->|Hne].
      - rewrite bt_get_remove. rewrite (Hk _ _ E). by case_decide.
      - rewrite bt_get_remove_ne by by apply cmp_string_ne. case_decide as Hn; [|done].
        destruct (bt_get n values) eqn:Hg; [|done]. apply Hv in Hg. congruence. }
    split; [split_and!; [by apply bt_wf_remove|..]|split; [by apply lookup_delete_eq|exact Hget]].
    + intros k n [_ Hkn]%lookup_delete_Some. auto.
    + intros n v Hn. rewrite Hget in Hn. case_decide; [done|].
      rewrite lookup_delete_ne by done. eauto.
  - split; [done|]. split; [done|]. intros n. case_decide as Hn; [|done].
    destruct (bt_get n values) eqn:Hg; [|done]. apply Hv in Hg. congruence.
Qed.

Lemma replace_name_spec values names name value :
  index_ok values names ->
  let '(values', names') := replace_environment_name values names name value in
  index_ok values' names' /\ names' !! name_key name = Some name /\
  forall n, bt_get n values' =
    if decide (name_key n = name_key name) then (if decide (n = name) then Some value else None)
    else bt_get n values.
Proof.
  intros Hok. unfold replace_environment_name.
  pose proof (remove_name_spec values names name Hok) as H.
  destruct (remove_environment_name values names name) as [values' names'].
  destruct H as ((Hwf & Hk & Hv) & Hn & Hget).
  assert (forall n, bt_get n (bt_insert name value values') =
    if decide (name_key n = name_key name) then (if decide (n = name) then Some value else None)
    else bt_get n values) as Hget'.
  { intros n. destruct (decide (n = name)) as [->|Hne].
    - rewrite bt_get_insert. by case_decide.
    - rewrite bt_get_insert_ne by by apply cmp_string_ne. apply Hget. }
  split; [split_and!; [by apply bt_wf_insert|..]|split; [by apply lookup_insert_eq|exact Hget']].
  - intros k n [[<- <-]|[_ ?]]%lookup_insert_Some; auto.
  - intros n v Hnv. rewrite Hget' in Hnv. case_decide as Hkey.
    + case_decide; [|done]. subst. apply lookup_insert_eq.
    + rewrite lookup_insert_ne by done. apply (Hv n v). rewrite Hget. by case_decide.
Qed.

Lemma index_ok_empty : index_ok [] ∅.
Proof. split_and!; [constructor|done|done]. Qed.

Lemma index_ok_retain f values names : index_ok values names -> index_ok (bt_retain f values) names.
Proof.
  intros (Hwf & Hk & Hv). split_and!; [by apply bt_wf_retain|done|].
  intros n v Hn. rewrite bt_get_retain in Hn by done.
  destruct (bt_get n values) as [w|] eqn:E; [|done]. eauto.
Qed.

(** A map of variables: sorted, one spelling per name. *)
Definition vars_wf values : Prop :=
  bt_wf values /\
  forall n m v w, bt_get n values = Some v -> bt_get m values = Some w -> name_key n = name_key m -> n = m.

Lemma index_ok_vars values names : index_ok values names -> vars_wf values.
Proof.
  intros (Hwf & Hk & Hv). split; [done|]. intros n m v w Hn%Hv Hm%Hv Heq. rewrite Heq in Hn. congruence.
Qed.

(** The last entry that bears a name. *)
Definition key_last {A} (l : list (string * A)) (k : EnvironmentNameKey) : option (string * A) :=
  foldl (fun acc e => if decide (name_key e.1 = k) then Some e else acc) None l.

Lemma key_last_snoc {A} (l : list (string * A)) e k :
  key_last (l ++ [e]) k = if decide (name_key e.1 = k) then Some e else key_last l k.
Proof. unfold key_last. by rewrite foldl_app. Qed.

Lemma key_last_spec {A} (l : list (string * A)) k :
  match key_last l k with
  | Some e => e ∈ l /\ name_key e.1 = k
  | None => forall e, e ∈ l -> name_key e.1 <> k
  end.
Proof.
  induction l as [|e l IH] using rev_ind; [set_solver|]. rewrite key_last_snoc.
  case_decide as Hk; [set_solver|]. destruct (key_last l k) as [f|]; [set_solver|].
  intros f [Hf| ->%list_elem_of_singleton]%elem_of_app; auto.
Qed.

(** Inserting a sequence of variables: the last spelling of each name wins. *)
Lemma replace_fold_spec (l : list (string * V)) :
  let '(values, names) :=
    foldl (fun st '(name, value) => replace_environment_name st.1 st.2 name value) ([], ∅) l in
  index_ok values names /\
  forall n, bt_get n values =
    match key_last l (name_key n) with
    | Some (m, v) => if decide (n = m) then Some v else None
    | None => None
    end.
Proof.
  induction l as [|[name value] l IH] using rev_ind; [split; [apply index_ok_empty|done]|].
  rewrite foldl_app. destruct (foldl _ _ l) as [values names]. destruct IH as [Hok Hget]. simpl.
  pose proof (replace_name_spec values names name value Hok) as H.
  destruct (replace_environment_name values names name value) as [values' names'].
  destruct H as (Hok' & _ & Hget'). split; [done|]. intros n. rewrite Hget', key_last_snoc. simpl.
  destruct (decide (name_key n = name_key name)), (decide (name_key name = name_key n)); try congruence.
  apply Hget.
Qed.

(** The entries of a map, read by name. *)
Lemma key_last_get (l : list (string * V)) n :
  vars_wf l ->
  match key_last l (name_key n) with Some (m, v) => if decide (n = m) then Some v else None | None => None end
  = bt_get n l.
Proof.
  intros [Hwf Hdist]. pose proof (key_last_spec l (name_key n)) as H.
  destruct (key_last l (name_key n)) as [[m v]|].
  - destruct H as [Hin Hk]. apply (bt_get_Some m v l Hwf) in Hin. simpl in Hk.
    case_decide as Hn; [by subst|]. destruct (bt_get n l) as [w|] eqn:E; [|done].
    destruct Hn. by eapply Hdist.
  - destruct (bt_get n l) as [w|] eqn:E; [|done]. apply bt_get_Some in E; [|done].
    by destruct (H (n, w) E).
Qed.

End index.

(** * What a specification produces *)

Section apply.
Context {U : Unicode} {W : WildMatch}.
Implicit Types (s : EnvironmentSpec).

Lemma collect_environment_loop l st st' :
  foldM (fun (st : BTreeMap string string * gmap EnvironmentNameKey string) '(name, value) =>
      _ ← validate_name name;
      reject os_contains_nul value with EnvironmentValueContainsNul ;;
      Ok (replace_environment_name st.1 st.2 name value)) st l = Ok st' ->
  st' = foldl (fun st '(name, value) => replace_environment_name st.1 st.2 name value) st l /\
  Forall (fun '(name, value) => validate_name name = Ok () /\ os_contains_nul value = false) l.
Proof.
  revert st. induction l as [|[name value] l IH]; intros st H; simpl in H.
  { injection H as <-. auto. }
  apply bind_Ok in H as (st1 & H1 & H). apply bind_Ok in H1 as ([] & Hv & H1). res_inv.
  apply IH in H as [-> Hf]. auto.
Qed.

(** The last spelling and value of each name of a sequence. *)
Definition last_spelling (l : list (string * string)) (n : string) : option string :=
  match key_last l (name_key n) with
  | Some (m, v) => if decide (n = m) then Some v else None
  | None => None
  end.

(** Collecting a process environment keeps one variable per name, names
    being compared without case: the last spelling and value of each name win,
    every kept name and value is valid, and no other variable appears. *)
Theorem collect_environment_spec (l : list (string * string)) (vars : BTreeMap string string) :
  collect_environment l = Ok vars ->
  vars_wf vars /\ (forall n, bt_get n vars = last_spelling l n) /\
  (forall n v, bt_get n vars = Some v ->
     (n, v) ∈ l /\ validate_name n = Ok () /\ os_contains_nul v = false).
Proof.
  unfold collect_environment. intros H. apply bind_Ok in H as ([values names] & H & Hv).
  injection Hv as <-. apply collect_environment_loop in H as [Heq Hf]. simpl.
  pose proof (replace_fold_spec l) as Hs. rewrite <- Heq in Hs. destruct Hs as [Hok Hget].
  split_and!; [by eapply index_ok_vars|done|].
  intros n v Hn. rewrite Hget in Hn. pose proof (key_last_spec l (name_key n)) as Hlast.
  destruct (key_last l (name_key n)) as [[m w]|]; [|done]. case_decide; [|done]. simplify_eq.
  destruct Hlast as [Hin _]. rewrite Forall_forall in Hf. by apply Hf in Hin as Hin'.
Qed.

(** The overrides a specification holds: sorted and indexed. *)
Definition spec_wf s : Prop := index_ok (overrides s) (override_names s) /\ bt_wf (filters s).

Lemma apply_overrides_spec os values names :
  index_ok values names ->
  let '(values', names') := foldl apply_override (values, names) os in
  index_ok values' names' /\
  forall n, bt_get n values' =
    match key_last os (name_key n) with
    | Some (m, Set_ v) => if decide (n = m) then Some v else None
    | Some (_, Remove) => None
    | None => bt_get n values
    end.
Proof.
  intros Hok. induction os as [|[name o] os IH] using rev_ind; [done|].
  rewrite foldl_app. destruct (foldl _ _ os) as [values1 names1]. destruct IH as [Hok1 Hget]. simpl.
  unfold apply_override. simpl. destruct o as [value|].
  - pose proof (replace_name_spec values1 names1 name value Hok1) as H.
    destruct (replace_environment_name _ _ _ _) as [values2 names2]. destruct H as (Hok2 & _ & Hget2).
    split; [done|]. intros n. rewrite Hget2, key_last_snoc. simpl.
    destruct (decide (name_key n = name_key name)), (decide (name_key name = name_key n)); try congruence.
    apply Hget.
  - pose proof (remove_name_spec values1 names1 name Hok1) as H.
    destruct (remove_environment_name _ _ _) as [values2 names2]. destruct H as (Hok2 & _ & Hget2).
    split; [done|]. intros n. rewrite Hget2, key_last_snoc. simpl.
    destruct (decide (name_key n = name_key name)), (decide (name_key name = name_key n)); try congruence.
    apply Hget.
Qed.

(** What the three stages leave of a name: overrides decide the names they
    mention, other variables are inherited unless excluded, and the include
    allowlist is applied last. *)
Definition stages (s : EnvironmentSpec) (inherited : BTreeMap string string) (n : string) : option string :=
  if keep_final s n then
    match key_last (overrides s) (name_key n) with
    | Some (m, Set_ v) => if decide (n = m) then Some v else None
    | Some (_, Remove) => None
    | None => if keep_inherited s n then bt_get n inherited else None
    end
  else None.

Lemma apply_to_stages s input :
  vars_wf (variables input) -> base_is_at_most (input_base input) (spec_base s) = true ->
  exists out, apply_to s input = Ok out /\ input_base out = input_base input /\
    vars_wf (variables out) /\ forall n, bt_get n (variables out) = stages s (variables input) n.
Proof.
  intros Hwf Hbase. unfold apply_to. rewrite Hbase. simpl.
  pose proof (replace_fold_spec (variables input)) as H0.
  destruct (foldl _ _ (variables input)) as [values0 names0]. destruct H0 as [Hok0 Hget0].
  apply (index_ok_retain (fun name _ => keep_inherited s name)) in Hok0 as Hok1.
  pose proof (apply_overrides_spec (overrides s) _ _ Hok1) as H2.
  destruct (foldl apply_override _ _) as [values2 names2]. destruct H2 as [Hok2 Hget2].
  eexists. split; [reflexivity|]. split; [done|]. simpl.
  apply (index_ok_retain (fun name _ => keep_final s name)) in Hok2 as Hok3.
  split; [by eapply index_ok_vars|]. intros n.
  rewrite bt_get_retain by apply Hok2. rewrite Hget2. unfold stages.
  assert (bt_get n (bt_retain (fun name _ => keep_inherited s name) values0) =
          if keep_inherited s n then bt_get n (variables input) else None) as ->.
  { rewrite bt_get_retain by apply Hok0. rewrite Hget0, key_last_get by done.
    by destruct (bt_get n (variables input)), (keep_inherited s n). }
  destruct (keep_final s n); [|by repeat case_match].
  by repeat case_match.
Qed.

(** The index finds the override of a name. *)
Lemma override_for_spec s n :
  spec_wf s -> override_for s n = snd <$> key_last (overrides s) (name_key n).
Proof.
  intros [(Hwf & Hk & Hv) _]. unfold override_for. pose proof (key_last_spec (overrides s) (name_key n)) as H.
  destruct (key_last (overrides s) (name_key n)) as [[m o]|].
  - destruct H as [Hin Hm]. apply (bt_get_Some m o _ Hwf) in Hin. apply Hv in Hin as Hname.
    simpl in Hm. rewrite Hm in Hname. by rewrite Hname.
  - destruct (override_names s !! name_key n) as [m|] eqn:E; [|done]. cbn.
    destruct (bt_get m (overrides s)) as [o|] eqn:Hg; [|done]. exfalso.
    apply (bt_get_Some m o _ Hwf) in Hg. apply (H _ Hg). simpl. by apply Hk.
Qed.

(** Applying an environment specification: a broader base is rejected;
    otherwise the result has the supplied base, one spelling per name, and each
    name's value is decided in the order exclude, set or remove, include. *)
Theorem apply_to_spec (s : EnvironmentSpec) (input : EnvironmentInput) :
  vars_wf (variables input) ->
  (base_is_at_most (input_base input) (spec_base s) = false ->
     apply_to s input = Err (EnvironmentBaseTooPermissive (spec_base s) (input_base input))) /\
  (base_is_at_most (input_base input) (spec_base s) = true ->
     exists out, apply_to s input = Ok out /\ input_base out = input_base input /\
       vars_wf (variables out) /\
       forall n, bt_get n (variables out) =
         if keep_final s n then
           match key_last (overrides s) (name_key n) with
           | Some (m, Set_ v) => if decide (n = m) then Some v else None
           | Some (_, Remove) => None
           | None => if keep_inherited s n then bt_get n (variables input) else None
           end
         else None).
Proof.
  intros Hwf. split.
  - intros H. unfold apply_to. by rewrite H.
  - by apply apply_to_stages.
Qed.

(** The environment a command gets never grows beyond what was asked for:
    each variable is inherited with its value or set by an override of that
    name; a removed name is absent; an excluded name appears only when an
    override sets it; and when an include filter exists every name matches one. *)
Lemma apply_to_safe (s : EnvironmentSpec) (input out : EnvironmentInput) :
  spec_wf s -> vars_wf (variables input) -> apply_to s input = Ok out ->
  forall n v, bt_get n (variables out) = Some v ->
    (override_for s n = Some (Set_ v) \/
     override_for s n = None /\ bt_get n (variables input) = Some v /\
       (filters s <> [] -> some_filter s Exclude n = false)) /\
    (has_include_filter s = true -> some_filter s Include n = true) /\
    (filters s <> [] -> utf8 n).
Proof.
  intros Hs Hwf Hout n v Hn.
  assert (base_is_at_most (input_base input) (spec_base s) = true) as Hbase.
  { unfold apply_to in Hout. res_inv. by bool_inv. }
  destruct (apply_to_stages s input Hwf Hbase) as (out' & Hout' & _ & _ & Hget).
  assert (out' = out) as -> by congruence. rewrite Hget in Hn. unfold stages in Hn.
  destruct (keep_final s n) eqn:Hf; [|done]. rewrite (override_for_spec s n Hs).
  unfold keep_final in Hf. split_and!.
  - destruct (key_last (overrides s) (name_key n)) as [[m [w|]]|]; cbn; [|done|].
    + case_decide; [|done]. left. congruence.
    + right. split; [done|]. unfold keep_inherited in Hn.
      destruct (bool_decide (filters s = [])) eqn:Hfs; simpl in Hn.
      * bool_inv. split; [done|]. intros Hne. by destruct Hne.
      * unfold to_str in Hn. destruct (utf8_chunks n); [|done].
        destruct (some_filter s Exclude n); simpl in Hn; [done|]. auto.
  - intros Hi. rewrite Hi in Hf. unfold to_str in Hf. by destruct (utf8_chunks n).
  - intros Hne. unfold utf8, to_str in *. rewrite (bool_decide_eq_true_2 (filters s <> [])) in Hf by done.
    destruct (utf8_chunks n); [done|]. by destruct (has_include_filter s).
Qed.

Lemma with_override_wf s name o : spec_wf s -> spec_wf (with_override s name o) /\
  forall n, override_for (with_override s name o) n =
    if decide (name_key n = name_key name) then Some o else override_for s n.
Proof.
  intros [Hok Hf]. assert (spec_wf s) as Hs by done. unfold with_override.
  pose proof (replace_name_spec (overrides s) (override_names s) name o Hok) as H.
  destruct (replace_environment_name _ _ _ _) as [values names] eqn:E. destruct H as (Hok' & Hn & Hget).
  split; [done|]. intros n. unfold override_for. simpl. case_decide as Hk.
  - rewrite Hk, Hn, Hget. rewrite !decide_True by done. done.
  - assert (names !! name_key n = override_names s !! name_key n) as ->.
    { unfold replace_environment_name, remove_environment_name in E.
      destruct (override_names s !! name_key name); simplify_eq;
        by rewrite lookup_insert_ne, ?lookup_delete_ne. }
    destruct (override_names s !! name_key n) as [m|] eqn:Hm; [|done]. rewrite Hget.
    destruct Hok as (_ & Hkey & _). rewrite (Hkey _ _ Hm). by rewrite decide_False.
Qed.

(** The specifications a caller can build. *)
Inductive spec_built : EnvironmentSpec -> Prop :=
  | sb_base b : spec_built (spec_of_base b)
  | sb_var s n v s' : spec_built s -> with_var s n v = Ok s' -> spec_built s'
  | sb_without s n s' : spec_built s -> without_var s n = Ok s' -> spec_built s'
  | sb_filter s p a s' : spec_built s -> with_filter s p a = Ok s' -> spec_built s'.

Lemma spec_built_wf s : spec_built s -> spec_wf s.
Proof.
  induction 1 as [b|s n v s' _ IH H|s n s' _ IH H|s p a s' _ IH H].
  - split; [apply index_ok_empty|constructor].
  - unfold with_var in H. res_inv. by apply with_override_wf.
  - unfold without_var in H. res_inv. by apply with_override_wf.
  - unfold with_filter in H. res_inv. destruct IH as [? ?]. split; [done|].
    simpl. by apply bt_wf_insert, bt_wf_remove.
Qed.

(** Overrides are one case-insensitive name space: setting or removing a
    variable decides every case variant of its name, replaces an earlier
    override of a variant and leaves the other names alone; and a filter
    replaces the earlier filter of the same canonical pattern. *)
Theorem override_builders_spec (s : EnvironmentSpec) (name value : string) :
  spec_built s ->
  (forall s', with_var s name value = Ok s' -> forall n,
     override_for s' n = if decide (name_key n = name_key name) then Some (Set_ value) else override_for s n) /\
  (forall s', without_var s name = Ok s' -> forall n,
     override_for s' n = if decide (name_key n = name_key name) then Some Remove else override_for s n) /\
  (forall s' a q, with_filter s name a = Ok s' ->
     bt_get q (filters s') =
       if decide (canonical q = case_folded_text name) then Some a else bt_get q (filters s)).
Proof.
  intros Hs%spec_built_wf. split_and!.
  - intros s' H. unfold with_var in H. res_inv. by apply with_override_wf.
  - intros s' H. unfold without_var in H. res_inv. by apply with_override_wf.
  - intros s' a q H. unfold with_filter in H. res_inv. simpl.
    match goal with H : EnvironmentPattern_new _ = Ok _ |- _ => unfold EnvironmentPattern_new in H; res_inv end.
    set (p := {| original := name; canonical := _; ep_matcher := _ |}).
    assert (cmp q p = Eq <-> canonical q = case_folded_text name) as Heq by apply (cmp_Eq_iff (canonical q) (case_folded_text name)).
    destruct (decide (canonical q = case_folded_text name)) as [Hq|Hq].
    + rewrite <- (bt_get_insert p a (bt_remove p (filters s))). apply bt_get_eq. by apply Heq.
    + assert (cmp q p <> Eq) as Hne by by rewrite Heq.
      by rewrite bt_get_insert_ne, bt_get_remove_ne.
Qed.

End apply.

(** * Examples *)

(** A matcher for the examples: [*] matches everything, other patterns match
    their own text up to ASCII case. *)
Definition literal_wildmatch : WildMatch := {|
  WildMatcher := string;
  wild_new_case_insensitive p := p;
  wild_matches p name := String.eqb p "*" || eq_ignore_ascii_case p name
|}.

Section examples.
#[local] Existing Instance ascii_unicode.
#[local] Existing Instance literal_wildmatch.

Definition example_vars : list (string * string) := [("PATH", "/bin"); ("Path", "/usr/bin"); ("TOKEN", "x")].

Lemma collect_environment_spec_witness :
  collect_environment example_vars = Ok [("Path", "/usr/bin"); ("TOKEN", "x")] /\
  bt_get "PATH" [("Path", "/usr/bin"); ("TOKEN", "x")] = last_spelling example_vars "PATH".
Proof.
  assert (collect_environment example_vars = Ok [("Path", "/usr/bin"); ("TOKEN", "x")]) as H
    by reflexivity.
  split; [exact H|]. exact (proj1 (proj2 (collect_environment_spec _ _ H)) "PATH").
Defined.

Definition example_input : EnvironmentInput :=
  {| input_base := BaseAll; variables := [("Path", "/usr/bin"); ("TOKEN", "x")] |}.

Lemma vars_wf_check (values : BTreeMap string string) names :
  foldl (fun st '(name, value) => replace_environment_name st.1 st.2 name value) ([], ∅) values = (values, names) ->
  vars_wf values.
Proof.
  intros H. pose proof (replace_fold_spec values) as Hs. rewrite H in Hs.
  destruct Hs as [Hok _]. by eapply index_ok_vars.
Qed.

Lemma example_input_wf : vars_wf (variables example_input).
Proof. eapply vars_wf_check. reflexivity. Qed.

Lemma apply_to_spec_witness :
  apply_to env_empty example_input = Err (EnvironmentBaseTooPermissive BaseNone BaseAll).
Proof. apply (proj1 (apply_to_spec env_empty example_input example_input_wf)). reflexivity. Defined.

Definition example_pattern : EnvironmentPattern :=
  {| original := "token"; canonical := case_folded_text "token"; ep_matcher := "token" |}.

Definition example_spec : EnvironmentSpec :=
  {| spec_base := BaseAll; overrides := []; override_names := ∅; filters := [(example_pattern, Exclude)] |}.

Lemma example_spec_built : spec_built example_spec.
Proof. apply (sb_filter inherit_all "token" Exclude); [apply sb_base|reflexivity]. Qed.

Lemma override_builders_spec_witness :
  exists s', with_var example_spec "Token" "y" = Ok s' /\ override_for s' "TOKEN" = Some (Set_ "y").
Proof.
  destruct (with_var example_spec "Token" "y") as [s'|] eqn:E; [|discriminate E]. exists s'. split; [reflexivity|].
  rewrite (proj1 (override_builders_spec example_spec "Token" "y" example_spec_built) s' E "TOKEN").
  reflexivity.
Defined.

End examples.
