(* ===== verification/Command.v ===== *)
(** [cageforge-command]: command lines ([command.rs]), standard streams
    ([stdio.rs]), timeouts ([timeout.rs]) and complete requests
    ([request.rs]). *)

From Stdlib Require Import Ascii String NArith Lia.
From stdpp Require Import base list strings option gmap sets.
From S2P Require Import Prelude Text BTree NativePath Environment.

(** A [Duration], in nanoseconds. *)
Abbreviation Duration := N.

Inductive TimeoutPolicy := BackendDefault | Limit (d : Duration) | TimeoutDisabled.

Inductive StdioMode := Inherit | Null | Pipe.
Record StdioSpec := { stdin : StdioMode; stdout : StdioMode; stderr : StdioMode }.

#[global] Instance TimeoutPolicy_eq_dec : EqDecision TimeoutPolicy.
Proof. solve_decision. Defined.
#[global] Instance StdioMode_eq_dec : EqDecision StdioMode.
Proof. solve_decision. Defined.
#[global] Instance StdioSpec_eq_dec : EqDecision StdioSpec.
Proof. solve_decision. Defined.

Definition stdio_captured : StdioSpec := {| stdin := Null; stdout := Pipe; stderr := Pipe |}.
Definition stdio_inherited : StdioSpec := {| stdin := Inherit; stdout := Inherit; stderr := Inherit |}.
Definition with_stdin (s : StdioSpec) (m : StdioMode) : StdioSpec :=
  {| stdin := m; stdout := stdout s; stderr := stderr s |}.
Definition with_stdout (s : StdioSpec) (m : StdioMode) : StdioSpec :=
  {| stdin := stdin s; stdout := m; stderr := stderr s |}.
Definition with_stderr (s : StdioSpec) (m : StdioMode) : StdioSpec :=
  {| stdin := stdin s; stdout := stdout s; stderr := m |}.

Record CommandSpec := { program : string; args : list string }.

Definition validate_program (p : string) : result CommandError unit :=
  reject bool_decide (p = "") with EmptyProgram ;;
  reject os_contains_nul p with ProgramContainsNul ;;
  Ok ().

Definition validate_argument (a : string) : result CommandError unit :=
  reject os_contains_nul a with ArgumentContainsNul ;;
  Ok ().

Definition CommandSpec_new (p : string) : result CommandError CommandSpec :=
  _ ← validate_program p;
  Ok {| program := p; args := [] |}.

Definition with_arg (c : CommandSpec) (a : string) : result CommandError CommandSpec :=
  _ ← validate_argument a;
  Ok {| program := program c; args := args c ++ [a] |}.

Definition with_args (c : CommandSpec) (arguments : list string) : result CommandError CommandSpec :=
  foldM with_arg c arguments.

Definition into_parts (c : CommandSpec) : string * list string := (program c, args c).

Section request.
Context {U : Unicode} {W : WildMatch}.

Record CommandRequest := {
  command : CommandSpec;
  working_directory : option path;
  environment : EnvironmentSpec;
  stdio : StdioSpec;
  timeout : TimeoutPolicy
}.

Definition CommandRequest_new (c : CommandSpec) : CommandRequest :=
  {| command := c; working_directory := None; environment := env_default;
     stdio := stdio_captured; timeout := BackendDefault |}.

Definition with_working_directory (r : CommandRequest) (p : path) : result CommandError CommandRequest :=
  reject bool_decide (p = "") with EmptyWorkingDirectory ;;
  reject os_contains_nul p with WorkingDirectoryContainsNul ;;
  reject contains_parent_traversal p with WorkingDirectoryParentTraversal p ;;
  Ok {| command := command r; working_directory := Some p; environment := environment r;
        stdio := stdio r; timeout := timeout r |}.

Definition without_working_directory (r : CommandRequest) : CommandRequest :=
  {| command := command r; working_directory := None; environment := environment r;
     stdio := stdio r; timeout := timeout r |}.

Definition with_environment (r : CommandRequest) (e : EnvironmentSpec) : CommandRequest :=
  {| command := command r; working_directory := working_directory r; environment := e;
     stdio := stdio r; timeout := timeout r |}.

Definition with_stdio (r : CommandRequest) (s : StdioSpec) : CommandRequest :=
  {| command := command r; working_directory := working_directory r; environment := environment r;
     stdio := s; timeout := timeout r |}.

Definition with_timeout_policy (r : CommandRequest) (t : TimeoutPolicy) : CommandRequest :=
  {| command := command r; working_directory := working_directory r; environment := environment r;
     stdio := stdio r; timeout := t |}.

Definition with_timeout (r : CommandRequest) (d : Duration) : CommandRequest := with_timeout_policy r (Limit d).
Definition use_backend_timeout (r : CommandRequest) : CommandRequest := with_timeout_policy r BackendDefault.
Definition disable_timeout (r : CommandRequest) : CommandRequest := with_timeout_policy r TimeoutDisabled.

(** The requests a caller can build. *)
Inductive command_built : CommandSpec -> Prop :=
  | cb_new p c : CommandSpec_new p = Ok c -> command_built c
  | cb_args c l c' : command_built c -> with_args c l = Ok c' -> command_built c'.

Inductive request_built : CommandRequest -> Prop :=
  | rb_new c : command_built c -> request_built (CommandRequest_new c)
  | rb_directory r p r' : request_built r -> with_working_directory r p = Ok r' -> request_built r'
  | rb_no_directory r : request_built r -> request_built (without_working_directory r)
  | rb_environment r e : request_built r -> spec_built e -> request_built (with_environment r e)
  | rb_stdio r s : request_built r -> request_built (with_stdio r s)
  | rb_timeout r t : request_built r -> request_built (with_timeout_policy r t).

Definition command_wf (c : CommandSpec) : Prop :=
  program c <> "" /\ os_contains_nul (program c) = false /\
  Forall (fun a => os_contains_nul a = false) (args c).

Lemma command_built_wf c : command_built c -> command_wf c.
Proof.
  induction 1 as [p c H|c l c' _ IH H].
  - unfold CommandSpec_new, validate_program in H. res_inv. bool_inv. split_and!; [done|done|constructor].
  - revert H. unfold with_args. apply foldM_invariant; [done|].
    intros a x a' _ (Hp & Hn & Hf) H. unfold with_arg, validate_argument in H. res_inv.
    split_and!; [done|done|]. simpl. apply Forall_app. auto.
Qed.

Definition request_wf (r : CommandRequest) : Prop :=
  command_wf (command r) /\
  (forall p, working_directory r = Some p ->
     p <> "" /\ os_contains_nul p = false /\ contains_parent_traversal p = false) /\
  spec_wf (environment r).

Lemma request_built_wf r : request_built r -> request_wf r.
Proof.
  induction 1 as [c Hc|r p r' _ IH H|r _ IH|r e _ IH Hs|r s _ IH|r t _ IH]; try exact IH.
  - split_and!; [by apply command_built_wf|done|]. apply spec_built_wf, (sb_base BaseCore).
  - unfold with_working_directory in H. res_inv. bool_inv. destruct IH as (? & _ & ?).
    split_and!; [done| |done]. simpl. intros q [= <-]. done.
  - destruct IH as (? & _ & ?). split_and!; [done|done|done].
  - destruct IH as (? & ? & _). split_and!; [done|done|]. by apply spec_built_wf.
Qed.

(** A request that can be built is safe to hand to a process launcher: its
    program is not empty, no part of its command line or working directory holds
    a NUL, its working directory has no parent traversal, and its environment
    specification is well formed.  Its argument vector is exactly the arguments
    given, in order. *)
Theorem request_builders_invariant (r : CommandRequest) :
  request_built r ->
  program (command r) <> "" /\
  Forall (fun a => os_contains_nul a = false) (program (command r) :: args (command r)) /\
  (forall p, working_directory r = Some p ->
     p <> "" /\ os_contains_nul p = false /\ contains_parent_traversal p = false) /\
  spec_wf (environment r) /\
  (forall c l c', with_args c l = Ok c' -> program c' = program c /\ args c' = args c ++ l).
Proof.
  intros ((Hp & Hn & Hf) & Hd & He)%request_built_wf.
  split_and!; [done|by constructor|done|done|].
  intros c l. revert c. unfold with_args. induction l as [|a l IH]; intros c c' H; simpl in H.
  - injection H as <-. by rewrite app_nil_r.
  - apply bind_Ok in H as (c1 & H1 & H). apply IH in H as [-> ->].
    unfold with_arg in H1. res_inv. simpl. by rewrite <- app_assoc.
Qed.

End request.

Section examples.
#[local] Existing Instance ascii_unicode.
#[local] Existing Instance literal_wildmatch.

Lemma request_builders_invariant_witness :
  let r := CommandRequest_new {| program := "ls"; args := [] |} in
  request_built r /\ program (command r) <> "".
Proof.
  assert (request_built (CommandRequest_new {| program := "ls"; args := [] |})) as H.
  { apply rb_new, (cb_new "ls"). reflexivity. }
  split; [exact H|]. exact (proj1 (request_builders_invariant _ H)).
Defined.

End examples.
