(* ===== verification/Compose.v ===== *)
(** [cageforge-policy-compose]: the composition of a requested policy with a
    ceiling ([compose.rs], [model.rs], [model/types.rs], [ownership.rs],
    [context.rs], [error.rs]): ownership of enforcement, workspace roots, and the
    runtime path context bound to one composition.

    An [Arc<()>] is its allocation: identities are numbers handed out by a
    counter that [compose] threads. *)

From Stdlib Require Import Ascii String NArith Lia.
From stdpp Require Import base list strings option gmap sets.
From S2P Require Import Prelude Text NativePath IpAddr Access Selector PathPattern FsPolicy Domain LocalIpc NetPolicy Policy Environment.

(** * Identities *)

(** [Arc::new(())]: the identity allocated, and the next one. *)
Definition arc_new (next : N) : N * N := (next, N.succ next).

(** [Arc::ptr_eq] *)
Definition arc_ptr_eq (a b : N) : bool := N.eqb a b.

Record ExternalOwner := { owner_token : N }.
Record ContextIdentity := { identity_token : N }.

#[global] Instance ExternalOwner_eq_dec : EqDecision ExternalOwner.
Proof. solve_decision. Defined.

Definition ExternalOwner_new (next : N) : ExternalOwner * N :=
  let '(a, next) := arc_new next in ({| owner_token := a |}, next).

Definition ContextIdentity_new (next : N) : ContextIdentity * N :=
  let '(a, next) := arc_new next in ({| identity_token := a |}, next).

(** [impl PartialEq for ExternalOwner], lifted to [Option] *)
Definition owner_eqb (a b : option ExternalOwner) : bool :=
  match a, b with
  | Some a, Some b => arc_ptr_eq (owner_token a) (owner_token b)
  | None, None => true
  | _, _ => false
  end.

(** [ContextIdentity::matches] *)
Definition identity_matches (a b : ContextIdentity) : bool :=
  arc_ptr_eq (identity_token a) (identity_token b).

(** * Errors *)

Inductive CompositionBoundary := BoundaryFilesystem | BoundaryNetwork.

Inductive CompositionError :=
  | InvalidRequestedPolicy (source : PolicyError)
  | InvalidCeiling (source : PolicyError)
  | InvalidWorkspaceRoot (p : path) (reason : string)
  | WorkspaceRootNotGranted (p : path)
  | InvalidPathContext (source : PolicyError)
  | PathContextMismatch
  | EffectiveBaseTooPermissive (required supplied : EnvironmentBase)
  | EnvironmentApplication (source : CommandError)
  | EnforcementOwnershipConflict (boundary : CompositionBoundary)
  | ExternalOwnerMismatch (boundary : CompositionBoundary)
  | UnexpectedExternalOwner (boundary : CompositionBoundary)
  | PolicyEvaluation (boundary : CompositionBoundary) (source : PolicyError).

(** * Workspace roots *)

Definition validate_root (p : path) : result CompositionError unit :=
  reject bool_decide (p = "") with InvalidWorkspaceRoot p "root must not be empty" ;;
  reject contains_char NUL (to_string_lossy p)
    with InvalidWorkspaceRoot p "root must not contain NUL" ;;
  reject contains_parent_traversal p
    with InvalidWorkspaceRoot p "parent traversal is not allowed" ;;
  reject negb (is_absolute p)
    with InvalidWorkspaceRoot p "root must be absolute at composition time" ;;
  Ok ().

Definition normalize_roots (roots : list path) : result CompositionError (list path) :=
  st ← foldM (fun (st : list path * gset (list NativeComponentKey)) root =>
         _ ← validate_root root;
         Ok (insert_keyed root st.1 st.2)) ([], ∅) roots;
  Ok st.1.

Definition root_is_within (root : path) (ceiling_roots : list path) : bool :=
  existsb (fun ceiling_root => is_within root ceiling_root) ceiling_roots.

Record ComposedWorkspaceRoots := { selected : option (list path); limit : option (list path) }.

(** [roots.map(normalize_roots).transpose()] *)
Definition normalize_option (roots : option (list path)) :
  result CompositionError (option (list path)) :=
  match roots with
  | Some roots => roots ← normalize_roots roots; Ok (Some roots)
  | None => Ok None
  end.

Definition compose_workspace_roots (requested_roots ceiling_roots : option (list path)) :
  result CompositionError ComposedWorkspaceRoots :=
  requested_roots ← normalize_option requested_roots;
  ceiling_roots ← normalize_option ceiling_roots;
  match requested_roots, ceiling_roots with
  | Some requested, Some ceiling =>
      _ ← foldM (fun _ root =>
            reject negb (root_is_within root ceiling) with WorkspaceRootNotGranted root ;; Ok ())
          () requested;
      Ok {| selected := Some requested; limit := Some ceiling |}
  | Some requested, None => Ok {| selected := Some requested; limit := None |}
  | None, Some ceiling => Ok {| selected := None; limit := Some ceiling |}
  | None, None => Ok {| selected := None; limit := None |}
  end.

(** * Runtime path contexts bound to a composition *)

Record EffectivePathContext := { context : PathResolutionContext; context_owner : ContextIdentity }.

Definition context_resolve (c : EffectivePathContext) (s : PathSelector) : list path :=
  resolve s (context c).

Definition belongs_to (c : EffectivePathContext) (i : ContextIdentity) : bool :=
  identity_matches (context_owner c) i.

Definition glob_search_roots {G : Globset} (c : EffectivePathContext) (pattern : PathPattern) : list path :=
  let prefix := literal_prefix pattern in
  if pp_absolute pattern then [prefix]
  else (fun root => path_join root prefix) <$> workspace_roots (context c).

Definition context_pattern_matches {G : Globset} (c : EffectivePathContext) (pattern : PathPattern)
    (p : path) : bool :=
  pattern_matches pattern p (context c).

Section compose.
Context {U : Unicode} {G : Globset} {W : WildMatch}.

(** * Ceilings and requests *)

Record PolicyCeiling := {
  ceiling_policy : SandboxPolicy;
  ceiling_environment : EnvironmentSpec;
  ceiling_workspace_roots : option (list path);
  ceiling_external_owner : option ExternalOwner
}.

Record CompositionRequest := {
  requested_policy : SandboxPolicy;
  requested_environment : EnvironmentSpec;
  requested_workspace_roots : option (list path);
  ceiling : PolicyCeiling;
  external_owner : option ExternalOwner
}.

Definition PolicyCeiling_new (p : SandboxPolicy) (e : EnvironmentSpec) : PolicyCeiling :=
  {| ceiling_policy := p; ceiling_environment := e; ceiling_workspace_roots := None;
     ceiling_external_owner := None |}.

Definition ceiling_with_workspace_roots (c : PolicyCeiling) (roots : list path) :
  result CompositionError PolicyCeiling :=
  roots ← normalize_roots roots;
  Ok {| ceiling_policy := ceiling_policy c; ceiling_environment := ceiling_environment c;
        ceiling_workspace_roots := Some roots; ceiling_external_owner := ceiling_external_owner c |}.

Definition without_workspace_root_limit (c : PolicyCeiling) : PolicyCeiling :=
  {| ceiling_policy := ceiling_policy c; ceiling_environment := ceiling_environment c;
     ceiling_workspace_roots := None; ceiling_external_owner := ceiling_external_owner c |}.

Definition ceiling_with_external_owner (c : PolicyCeiling) (o : ExternalOwner) : PolicyCeiling :=
  {| ceiling_policy := ceiling_policy c; ceiling_environment := ceiling_environment c;
     ceiling_workspace_roots := ceiling_workspace_roots c; ceiling_external_owner := Some o |}.

Definition CompositionRequest_new (p : SandboxPolicy) (e : EnvironmentSpec) (c : PolicyCeiling) :
  CompositionRequest :=
  {| requested_policy := p; requested_environment := e; requested_workspace_roots := None;
     ceiling := c; external_owner := None |}.

Definition request_with_workspace_roots (r : CompositionRequest) (roots : list path) :
  result CompositionError CompositionRequest :=
  roots ← normalize_roots roots;
  Ok {| requested_policy := requested_policy r; requested_environment := requested_environment r;
        requested_workspace_roots := Some roots; ceiling := ceiling r;
        external_owner := external_owner r |}.

Definition request_with_external_owner (r : CompositionRequest) (o : ExternalOwner) : CompositionRequest :=
  {| requested_policy := requested_policy r; requested_environment := requested_environment r;
     requested_workspace_roots := requested_workspace_roots r; ceiling := ceiling r;
     external_owner := Some o |}.

(** * Effective results *)

Record EffectiveFilesystemPolicy := {
  fs_requested : FilesystemPolicy;
  fs_ceiling : FilesystemPolicy;
  context_identity : ContextIdentity
}.

Record EffectiveNetworkPolicy := { net_requested : NetworkPolicy; net_ceiling : NetworkPolicy }.

Record EffectiveEnvironment := { env_requested : EnvironmentSpec; env_ceiling : EnvironmentSpec }.

Record EffectiveSandbox := {
  es_filesystem : EffectiveFilesystemPolicy;
  es_network : EffectiveNetworkPolicy;
  es_environment : EffectiveEnvironment;
  es_workspace_roots : option (list path);
  workspace_root_limit : option (list path)
}.

(** [impl EnforcementMode for FilesystemMode] and [for NetworkMode] *)
Definition fs_delegates_enforcement (m : FilesystemMode) : bool := bool_decide (m = External).
Definition net_delegates_enforcement (m : NetworkMode) : bool := bool_decide (m = NetExternal).

Definition validate_ownership (requested_delegates ceiling_delegates : bool)
    (boundary : CompositionBoundary) : result CompositionError unit :=
  reject negb (Bool.eqb requested_delegates ceiling_delegates)
    with EnforcementOwnershipConflict boundary ;;
  Ok ().

Definition validate_external_owner (external : bool) (requested_owner ceiling_owner : option ExternalOwner)
    (boundary : CompositionBoundary) : result CompositionError unit :=
  reject external && (negb (owner_eqb requested_owner ceiling_owner)
                      || bool_decide (requested_owner = None))
    with ExternalOwnerMismatch boundary ;;
  Ok ().

Definition compose (next : N) (request : CompositionRequest) :
  result CompositionError (EffectiveSandbox * N) :=
  requested ← map_err InvalidRequestedPolicy (sandbox_normalized (requested_policy request));
  outer ← map_err InvalidCeiling (sandbox_normalized (ceiling_policy (ceiling request)));
  _ ← validate_ownership (fs_delegates_enforcement (mode (filesystem requested)))
        (fs_delegates_enforcement (mode (filesystem outer))) BoundaryFilesystem;
  _ ← validate_ownership (net_delegates_enforcement (net_mode (network requested)))
        (net_delegates_enforcement (net_mode (network outer))) BoundaryNetwork;
  _ ← validate_external_owner (bool_decide (mode (filesystem requested) = External))
        (external_owner request) (ceiling_external_owner (ceiling request)) BoundaryFilesystem;
  _ ← validate_external_owner (bool_decide (net_mode (network requested) = NetExternal))
        (external_owner request) (ceiling_external_owner (ceiling request)) BoundaryNetwork;
  reject bool_decide (mode (filesystem requested) <> External)
         && bool_decide (net_mode (network requested) <> NetExternal)
         && (bool_decide (is_Some (external_owner request))
             || bool_decide (is_Some (ceiling_external_owner (ceiling request))))
    with UnexpectedExternalOwner BoundaryFilesystem ;;
  roots ← compose_workspace_roots (requested_workspace_roots request)
            (ceiling_workspace_roots (ceiling request));
  let '(i, next) := ContextIdentity_new next in
  Ok ({| es_filesystem := {| fs_requested := filesystem requested; fs_ceiling := filesystem outer;
                             context_identity := i |};
         es_network := {| net_requested := network requested; net_ceiling := network outer |};
         es_environment := {| env_requested := requested_environment request;
                              env_ceiling := ceiling_environment (ceiling request) |};
         es_workspace_roots := selected roots; workspace_root_limit := limit roots |}, next).

(** One loop of [path_context]: each path through a builder. *)
Definition copy_paths (builder : PathResolutionContext -> path -> result PolicyError PathResolutionContext)
    (c : PathResolutionContext) (paths : list path) : result CompositionError PathResolutionContext :=
  foldM (fun c p => map_err InvalidPathContext (builder c p)) c paths.

Definition within_limit (e : EffectiveSandbox) (p : path) : bool :=
  match workspace_root_limit e with Some limit => root_is_within p limit | None => true end.

(** [EffectiveSandbox::path_context] *)
Definition path_context (e : EffectiveSandbox) (base : PathResolutionContext) :
  result CompositionError EffectivePathContext :=
  c ← copy_paths with_root context_new (root_paths base);
  let roots := default (workspace_roots base) (es_workspace_roots e) in
  c ← copy_paths with_workspace_root c (filter (fun p => within_limit e p = true) roots);
  c ← copy_paths with_minimal_path c (minimal_paths base);
  c ← copy_paths with_executable_root c (executable_roots base);
  c ← copy_paths with_tmpdir c (option_list (tmpdir base));
  c ← copy_paths with_slash_tmp c (option_list (slash_tmp base));
  c ← copy_paths with_current_directory c (option_list (current_directory base));
  Ok {| context := c; context_owner := context_identity (es_filesystem e) |}.

Definition owns_context (f : EffectiveFilesystemPolicy) (c : EffectivePathContext) : bool :=
  belongs_to c (context_identity f).

End compose.

(** * Lemmas on roots *)

Lemma validate_root_Ok p : validate_root p = Ok () <-> valid_absolute p.
Proof.
  unfold validate_root, valid_absolute, contains_nul. rewrite lossy_contains_ascii by done. split.
  - intros H. res_inv. by bool_inv.
  - intros (Ha & Hn & Ht). rewrite bool_decide_eq_false_2 by by intros ->. by rewrite Hn, Ha, Ht.
Qed.

(** What one loop of keyed insertions leaves. *)
Definition insert_all (st : list path * gset (list NativeComponentKey)) (l : list path) :=
  foldl (fun st p => insert_keyed p st.1 st.2) st l.

Lemma insert_all_wf l st :
  Forall valid_absolute l -> keyed_paths st.1 st.2 ->
  keyed_paths (insert_all st l).1 (insert_all st l).2 /\
  forall p, p ∈ (insert_all st l).1 -> p ∈ st.1 ++ l.
Proof.
  revert st. induction l as [|p l IH]; intros st Hl Hst; simpl; [by rewrite app_nil_r|].
  apply Forall_cons in Hl as [Hp Hl]. destruct (insert_keyed p st.1 st.2) as [ps ks] eqn:E.
  destruct (IH (ps, ks) Hl) as [Hwf Hin]; [by eapply insert_keyed_wf|]. split; [exact Hwf|].
  intros q Hq. apply Hin in Hq. simpl in Hq. unfold insert_keyed in E.
  case_bool_decide; simplify_eq; set_solver.
Qed.

Lemma insert_keyed_mono p st q : q ∈ st.1 -> q ∈ (insert_keyed p st.1 st.2).1.
Proof. unfold insert_keyed. case_bool_decide; simpl; set_solver. Qed.

Lemma insert_all_mono l st q : q ∈ st.1 -> q ∈ (insert_all st l).1.
Proof.
  revert st. induction l as [|p l IH]; intros st Hq; simpl; [done|].
  apply IH. by apply insert_keyed_mono.
Qed.

(** Every inserted path is represented. *)
Lemma insert_all_represents l st p :
  Forall valid_absolute l -> keyed_paths st.1 st.2 -> p ∈ l ->
  exists q, q ∈ (insert_all st l).1 /\ NativePathKey_new q = NativePathKey_new p.
Proof.
  revert st. induction l as [|x l IH]; intros st Hl Hst Hp; [by apply elem_of_nil in Hp|].
  apply Forall_cons in Hl as [Hx Hl]. simpl.
  destruct (insert_keyed x st.1 st.2) as [ps ks] eqn:E.
  assert (keyed_paths ps ks) as Hwf by by eapply insert_keyed_wf.
  apply elem_of_cons in Hp as [->|Hp]; [|by apply (IH (ps, ks))].
  assert (exists q, q ∈ ps /\ NativePathKey_new q = NativePathKey_new x) as (q & Hq & Hk).
  { destruct Hst as (_ & _ & Hks). unfold insert_keyed in E. case_bool_decide as Hin; simplify_eq.
    - apply Hks, list_elem_of_fmap in Hin as (q & ? & ?). eauto.
    - exists x. set_solver. }
  exists q. split; [|done]. by apply (insert_all_mono l (ps, ks)).
Qed.

(** Inserting paths with fresh keys appends them. *)
Lemma insert_all_fresh l ps ks :
  keyed_paths ps ks -> Forall valid_absolute l -> NoDup (NativePathKey_new <$> (ps ++ l)) ->
  exists ks', insert_all (ps, ks) l = (ps ++ l, ks') /\ keyed_paths (ps ++ l) ks'.
Proof.
  revert ps ks. induction l as [|p l IH]; intros ps ks Hwf Hl Hnd; simpl.
  { exists ks. by rewrite app_nil_r. }
  apply Forall_cons in Hl as [Hp Hl].
  assert (insert_keyed p ps ks = (ps ++ [p], {[NativePathKey_new p]} ∪ ks)) as Hins.
  { unfold insert_keyed. rewrite bool_decide_eq_false_2; [done|]. destruct Hwf as (_ & _ & ->).
    rewrite fmap_app in Hnd. apply NoDup_app in Hnd as (_ & Hd & _). intros Hin.
    apply (Hd _ Hin). simpl. apply list_elem_of_here. }
  rewrite Hins. apply insert_keyed_wf in Hins; [|done..].
  destruct (IH (ps ++ [p]) ({[NativePathKey_new p]} ∪ ks)) as (ks' & Heq & Hwf'); [done..| |].
  - by rewrite <- app_assoc.
  - rewrite <- app_assoc in *. eauto.
Qed.

Lemma normalize_roots_eq l :
  Forall valid_absolute l -> normalize_roots l = Ok (insert_all ([], ∅) l).1.
Proof.
  intros Hl. unfold normalize_roots.
  rewrite (foldM_pure _ (fun st p => insert_keyed p st.1 st.2)); [done|].
  intros st p Hp. rewrite Forall_forall in Hl. by rewrite (proj2 (validate_root_Ok p) (Hl p Hp)).
Qed.

Lemma normalize_roots_valid l r : normalize_roots l = Ok r -> Forall valid_absolute l.
Proof.
  intros H. unfold normalize_roots in H. apply bind_Ok in H as (st & H & _).
  revert H. generalize (([], ∅) : list path * gset (list NativeComponentKey)).
  induction l as [|p l IH]; intros st0 H; [constructor|]. simpl in H.
  apply bind_Ok in H as (st1 & H1 & H). apply bind_Ok in H1 as ([] & Hp & _).
  constructor; [by apply validate_root_Ok|by eapply IH].
Qed.

(** Root declarations are accepted exactly when each is absolute, NUL-free and
    traversal-free; duplicates are dropped and each declaration is kept by one
    of its spellings. *)
Lemma normalize_roots_spec l :
  ((exists r, normalize_roots l = Ok r) <-> Forall valid_absolute l) /\
  forall r, normalize_roots l = Ok r ->
    Forall valid_absolute r /\ NoDup (NativePathKey_new <$> r) /\
    (forall p, p ∈ r -> p ∈ l) /\
    (forall p, p ∈ l -> exists q, q ∈ r /\ NativePathKey_new q = NativePathKey_new p).
Proof.
  split; [split; [intros [r Hr]; by eapply normalize_roots_valid|eauto using normalize_roots_eq]|].
  intros r Hr. pose proof (normalize_roots_valid l r Hr) as Hl.
  rewrite normalize_roots_eq in Hr by done. injection Hr as <-.
  destruct (insert_all_wf l ([], ∅) Hl keyed_paths_nil) as [(? & ? & _) Hin].
  split_and!; [done|done|exact Hin|]. intros p Hp. by apply insert_all_represents; [|apply keyed_paths_nil|].
Qed.

(** Containment is about lexical paths. *)
Lemma is_within_keys p p' r r' :
  valid_absolute p -> valid_absolute p' -> NativePathKey_new p = NativePathKey_new p' ->
  NativePathKey_new r = NativePathKey_new r' -> is_within p r = is_within p' r'.
Proof.
  intros [Hp _] [Hp' _]. rewrite !NativePathKey_new_eq.
  intros H1%(inj (fmap component_key)) H2%(inj (fmap component_key)).
  apply eq_true_iff_eq. rewrite !is_within_true, !contains_parent_traversal_lexical, H1, H2.
  by rewrite Hp, Hp'.
Qed.

(** Every requested root lies below a root of the ceiling. *)
Definition roots_granted (requested outer : option (list path)) : Prop :=
  match requested, outer with
  | Some l, Some k => forall p, p ∈ l -> exists q, q ∈ k /\ is_within p q = true
  | _, _ => True
  end.

Definition roots_valid (roots : option (list path)) : Prop :=
  match roots with Some l => Forall valid_absolute l | None => True end.

Definition roots_wf (roots : option (list path)) : Prop :=
  match roots with
  | Some l => Forall valid_absolute l /\ NoDup (NativePathKey_new <$> l)
  | None => True
  end.

Lemma normalize_option_spec o :
  ((exists n, normalize_option o = Ok n) <-> roots_valid o) /\
  forall n, normalize_option o = Ok n -> roots_wf n /\ (is_Some n <-> is_Some o).
Proof.
  destruct o as [l|]; simpl; [|naive_solver].
  destruct (normalize_roots_spec l) as [Hv Hr]. split.
  - rewrite <- Hv. split; [intros (n & H); res_inv; eauto|intros (r & ->)]; by eexists.
  - intros n H. res_inv. apply Hr in H0 as (? & ? & _). split; [done|by split; intros _].
Qed.

Lemma root_is_within_true p l : root_is_within p l = true <-> exists q, q ∈ l /\ is_within p q = true.
Proof. apply existsb_elem. Qed.

(** Normalizing both sides does not change what is granted. *)
Lemma roots_granted_normalized l k l' k' :
  normalize_roots l = Ok l' -> normalize_roots k = Ok k' ->
  (forall p, p ∈ l' -> root_is_within p k' = true) <-> roots_granted (Some l) (Some k).
Proof.
  intros Hl Hk. pose proof (normalize_roots_valid _ _ Hl) as Hvl. rewrite Forall_forall in Hvl.
  apply normalize_roots_spec in Hl as (_ & _ & Hl1 & Hl2), Hk as (_ & _ & Hk1 & Hk2). simpl. split.
  - intros Hall p Hp. destruct (Hl2 p Hp) as (p' & Hp' & Hkey).
    destruct (proj1 (root_is_within_true p' k') (Hall p' Hp')) as (q & Hq & Hin).
    exists q. split; [auto|]. rewrite <- Hin. apply is_within_keys; auto.
  - intros Hall p Hp. apply root_is_within_true. destruct (Hall p) as (q & Hq & Hin); [auto|].
    destruct (Hk2 q Hq) as (q' & Hq' & Hkey). exists q'. split; [done|]. rewrite <- Hin.
    apply is_within_keys; auto.
Qed.

Lemma grant_loop l k :
  foldM (fun _ root => reject negb (root_is_within root k) with WorkspaceRootNotGranted root ;; Ok ()) () l
    = Ok () <-> forall p, p ∈ l -> root_is_within p k = true.
Proof.
  split.
  - intros H p Hp. apply (foldM_unit_inv _ _ H) in Hp. cbn in Hp. by destruct (root_is_within p k).
  - intros H. apply foldM_unit. intros p Hp. by rewrite H.
Qed.

Lemma compose_roots_accepts requested outer :
  (exists w, compose_workspace_roots requested outer = Ok w) <->
  roots_valid requested /\ roots_valid outer /\ roots_granted requested outer.
Proof.
  rewrite <- (proj1 (normalize_option_spec requested)), <- (proj1 (normalize_option_spec outer)).
  unfold compose_workspace_roots. split.
  - intros (w & H). res_inv. split_and!; [eauto..|]. destruct requested as [l|], outer as [k|]; try done.
    simpl in *. res_inv. eapply roots_granted_normalized; [eassumption..|]. apply grant_loop. by destruct a.
  - intros ((n1 & Hn1) & (n2 & Hn2) & Hgr). rewrite Hn1, Hn2. cbn.
    destruct n1 as [l'|], n2 as [k'|]; [|by eexists..].
    destruct requested as [l|], outer as [k|]; simpl in Hn1, Hn2; res_inv; try discriminate.
    rewrite (proj2 (grant_loop l' k')); [by eexists|]. by eapply roots_granted_normalized.
Qed.

Lemma compose_roots_Ok requested outer w :
  compose_workspace_roots requested outer = Ok w ->
  normalize_option requested = Ok (selected w) /\ normalize_option outer = Ok (limit w) /\
  match selected w, limit w with
  | Some l, Some k => forall p, p ∈ l -> root_is_within p k = true
  | _, _ => True
  end.
Proof.
  unfold compose_workspace_roots. intros H. res_inv.
  destruct a as [l|], a0 as [k|]; res_inv; cbn [selected limit]; do 2 (split; [done|]); try done.
  apply grant_loop. by destruct a.
Qed.

(** * Lemmas on composition *)

Section composed.
Context {U : Unicode} {G : Globset} {W : WildMatch}.

Lemma sandbox_normalized_Ok s :
  (exists s', sandbox_normalized s = Ok s') <-> sandbox_validate s = Ok ().
Proof.
  unfold sandbox_normalized, sandbox_validate, normalized, net_normalized.
  destruct (policy_validate (filesystem s)) as [[]|]; cbn; [|naive_solver].
  case_bool_decide; cbn; destruct (net_validate (network s)) as [[]|]; cbn; naive_solver.
Qed.

Lemma sandbox_normalized_inv s s' :
  sandbox_normalized s = Ok s' ->
  normalized (filesystem s) = Ok (filesystem s') /\ net_normalized (network s) = Ok (network s') /\
  mode (filesystem s') = mode (filesystem s) /\ net_mode (network s') = net_mode (network s).
Proof.
  unfold sandbox_normalized. intros H. res_inv. simpl. rewrite H0, H1.
  split_and!; [done|done| |unfold net_normalized in H1; by res_inv].
  unfold normalized in H0. res_inv. case_bool_decide; by res_inv.
Qed.

(** Both sides of each boundary agree on who enforces it. *)
Definition ownership_agrees (r : CompositionRequest) : Prop :=
  (mode (filesystem (requested_policy r)) = External <->
     mode (filesystem (ceiling_policy (ceiling r))) = External) /\
  (net_mode (network (requested_policy r)) = NetExternal <->
     net_mode (network (ceiling_policy (ceiling r))) = NetExternal).

Definition delegates (r : CompositionRequest) : Prop :=
  mode (filesystem (requested_policy r)) = External \/
  net_mode (network (requested_policy r)) = NetExternal.

(** A delegated boundary has one owner on both sides, a local one none. *)
Definition owners_agree (r : CompositionRequest) : Prop :=
  (delegates r -> exists o, external_owner r = Some o /\ ceiling_external_owner (ceiling r) = Some o) /\
  (~ delegates r -> external_owner r = None /\ ceiling_external_owner (ceiling r) = None).

Lemma owner_eqb_true a b : owner_eqb a b = true <-> a = b.
Proof.
  destruct a as [[a]|], b as [[b]|]; simpl; unfold arc_ptr_eq; rewrite ?N.eqb_eq; naive_solver.
Qed.

Lemma validate_ownership_Ok a b bd : validate_ownership a b bd = Ok () <-> a = b.
Proof. unfold validate_ownership. destruct a, b; naive_solver. Qed.

Lemma validate_external_owner_Ok external a b bd :
  validate_external_owner external a b bd = Ok () <->
  (external = true -> exists o, a = Some o /\ b = Some o).
Proof.
  unfold validate_external_owner. destruct external; simpl; [|naive_solver].
  destruct (owner_eqb a b) eqn:E; simpl.
  - apply owner_eqb_true in E as ->. destruct b; simpl; naive_solver.
  - split; [done|]. intros (o & -> & ->); [done|]. by rewrite (proj2 (owner_eqb_true _ _)) in E.
Qed.

(** The sandbox a successful composition returns. *)
Definition effective_of (next : N) (r : CompositionRequest) (requested outer : SandboxPolicy)
    (w : ComposedWorkspaceRoots) : EffectiveSandbox :=
  {| es_filesystem := {| fs_requested := filesystem requested; fs_ceiling := filesystem outer;
                         context_identity := {| identity_token := next |} |};
     es_network := {| net_requested := network requested; net_ceiling := network outer |};
     es_environment := {| env_requested := requested_environment r;
                          env_ceiling := ceiling_environment (ceiling r) |};
     es_workspace_roots := selected w; workspace_root_limit := limit w |}.

Lemma bool_decide_eq_iff (P Q : Prop) `{Decision P, Decision Q} :
  bool_decide P = bool_decide Q <-> (P <-> Q).
Proof. repeat case_bool_decide; naive_solver. Qed.

Lemma compose_Ok next r e n :
  compose next r = Ok (e, n) <->
  exists requested outer w,
    sandbox_normalized (requested_policy r) = Ok requested /\
    sandbox_normalized (ceiling_policy (ceiling r)) = Ok outer /\
    ownership_agrees r /\ owners_agree r /\
    compose_workspace_roots (requested_workspace_roots r) (ceiling_workspace_roots (ceiling r)) = Ok w /\
    e = effective_of next r requested outer w /\ n = N.succ next.
Proof.
  unfold compose, ownership_agrees, owners_agree, delegates.
  destruct (sandbox_normalized (requested_policy r)) as [requested|] eqn:Hr; cbn; [|naive_solver].
  destruct (sandbox_normalized (ceiling_policy (ceiling r))) as [outer|] eqn:Ho; cbn; [|naive_solver].
  destruct (sandbox_normalized_inv _ _ Hr) as (_ & _ & <- & <-).
  destruct (sandbox_normalized_inv _ _ Ho) as (_ & _ & <- & <-).
  unfold fs_delegates_enforcement, net_delegates_enforcement. split.
  - intros H. res_inv. destruct a, a0, a1, a2.
    apply validate_ownership_Ok, bool_decide_eq_iff in H0, H1.
    rewrite validate_external_owner_Ok, bool_decide_eq_true in H2, H3. res_inv.
    exists requested, outer, a3. split_and!; try done; [naive_solver|].
    intros Hn. rewrite !bool_decide_eq_true_2 in G0 by tauto. simpl in G0. bool_inv.
    by rewrite !eq_None_not_Some.
  - intros (? & ? & w & [= <-] & [= <-] & [Hf Hn] & [Hex Hloc] & Hw & -> & ->).
    rewrite (proj2 (validate_ownership_Ok _ _ _)) by by apply bool_decide_eq_iff. cbn.
    rewrite (proj2 (validate_ownership_Ok _ _ _)) by by apply bool_decide_eq_iff. cbn.
    rewrite (proj2 (validate_external_owner_Ok _ _ _ _)) by (rewrite bool_decide_eq_true; auto). cbn.
    rewrite (proj2 (validate_external_owner_Ok _ _ _ _)) by (rewrite bool_decide_eq_true; auto). cbn.
    rewrite Hw. cbn.
    case_bool_decide as H1; case_bool_decide as H2; simpl; try done.
    destruct Hloc as [-> ->]; [naive_solver|]. done.
Qed.

(** C11. Composition accepts a request exactly when both policies validate, both
    sides of each boundary agree on who enforces it, a delegated boundary has one
    owner identity shared by both sides and no owner is attached to a purely
    local request, every declared workspace root is absolute and traversal-free,
    and, when the ceiling limits workspace roots, each requested root lies below
    one of its roots. *)
Theorem compose_accepts_iff (next : N) (r : CompositionRequest) :
  (exists e n, compose next r = Ok (e, n)) <->
  sandbox_validate (requested_policy r) = Ok () /\
  sandbox_validate (ceiling_policy (ceiling r)) = Ok () /\
  (mode (filesystem (requested_policy r)) = External <->
     mode (filesystem (ceiling_policy (ceiling r))) = External) /\
  (net_mode (network (requested_policy r)) = NetExternal <->
     net_mode (network (ceiling_policy (ceiling r))) = NetExternal) /\
  (delegates r -> exists o, external_owner r = Some o /\ ceiling_external_owner (ceiling r) = Some o) /\
  (~ delegates r -> external_owner r = None /\ ceiling_external_owner (ceiling r) = None) /\
  (forall l, requested_workspace_roots r = Some l -> Forall valid_absolute l) /\
  (forall k, ceiling_workspace_roots (ceiling r) = Some k -> Forall valid_absolute k) /\
  (forall l k, requested_workspace_roots r = Some l -> ceiling_workspace_roots (ceiling r) = Some k ->
     forall p, p ∈ l -> exists q, q ∈ k /\ is_within p q = true).
Proof.
  rewrite <- !sandbox_normalized_Ok. setoid_rewrite compose_Ok.
  pose proof (compose_roots_accepts (requested_workspace_roots r) (ceiling_workspace_roots (ceiling r))) as Hw.
  unfold roots_valid, roots_granted in Hw. split.
  - intros (e & n & requested & outer & w & Hr & Ho & [] & [] & Hroots & _).
    destruct (proj1 Hw (ex_intro _ w Hroots)) as (Hv & Hk & Hgr).
    split_and!; eauto.
    + intros l Hl. by rewrite Hl in Hv.
    + intros k Hk'. by rewrite Hk' in Hk.
    + intros l k Hl Hk'. by rewrite Hl, Hk' in Hgr.
  - intros ((requested & Hr) & (outer & Ho) & Hf & Hn & Hd & Hl & H1 & H2 & H3).
    destruct (proj2 Hw) as [w Hroots].
    { destruct (requested_workspace_roots r), (ceiling_workspace_roots (ceiling r)); split_and!; eauto. }
    do 2 eexists. exists requested, outer, w. done.
Qed.

End composed.

(** * Lemmas on path contexts *)

(** A builder that inserts into one keyed list of a context. *)
Section keyed_builder.
Context (get : PathResolutionContext -> list path * gset (list NativeComponentKey))
        (set : PathResolutionContext -> list path * gset (list NativeComponentKey) -> PathResolutionContext)
        (builder : PathResolutionContext -> path -> result PolicyError PathResolutionContext).
Hypothesis get_set : forall c x, get (set c x) = x.
Hypothesis set_set : forall c x y, set (set c x) y = set c y.
Hypothesis set_get : forall c, set c (get c) = c.
Hypothesis builder_spec : forall c p,
  valid_absolute p -> builder c p = Ok (set c (insert_keyed p (get c).1 (get c).2)).

Lemma copy_paths_keyed c l :
  Forall valid_absolute l -> copy_paths builder c l = Ok (set c (insert_all (get c) l)).
Proof.
  intros Hl. revert c. induction Hl as [|p l Hp _ IH]; intros c.
  - unfold copy_paths. simpl. by rewrite set_get.
  - unfold copy_paths in *. simpl. rewrite builder_spec by done. cbn. rewrite IH.
    by rewrite get_set, set_set.
Qed.

(** Copying a deduplicated list into an empty one gives that list. *)
Lemma copy_paths_fresh c l :
  get c = ([], ∅) -> Forall valid_absolute l -> NoDup (NativePathKey_new <$> l) ->
  exists ks, copy_paths builder c l = Ok (set c (l, ks)).
Proof.
  intros Hc Hl Hnd. rewrite copy_paths_keyed, Hc by done.
  destruct (insert_all_fresh l [] ∅ keyed_paths_nil) as (ks & -> & _); eauto.
Qed.

End keyed_builder.

Lemma copy_paths_built builder c l c' :
  (forall c p c', context_built c -> builder c p = Ok c' -> context_built c') ->
  context_built c -> copy_paths builder c l = Ok c' -> context_built c'.
Proof.
  intros Hb Hc. apply foldM_invariant; [done|]. intros a p a' _ Ha H. res_inv. eauto.
Qed.

Lemma validated_absolute_eq p : valid_absolute p -> validated_absolute p = Ok p.
Proof. intros Hp. by apply validated_absolute_Ok. Qed.

(** The four keyed lists of a context as fields that can be set. *)
Definition set_roots (c : PathResolutionContext) (x : list path * gset (list NativeComponentKey)) :=
  {| root_paths := x.1; root_keys := x.2;
     workspace_roots := workspace_roots c; workspace_root_keys := workspace_root_keys c;
     minimal_paths := minimal_paths c; minimal_path_keys := minimal_path_keys c;
     executable_roots := executable_roots c; executable_root_keys := executable_root_keys c;
     tmpdir := tmpdir c; slash_tmp := slash_tmp c; current_directory := current_directory c |}.

Definition set_workspace (c : PathResolutionContext) (x : list path * gset (list NativeComponentKey)) :=
  {| root_paths := root_paths c; root_keys := root_keys c;
     workspace_roots := x.1; workspace_root_keys := x.2;
     minimal_paths := minimal_paths c; minimal_path_keys := minimal_path_keys c;
     executable_roots := executable_roots c; executable_root_keys := executable_root_keys c;
     tmpdir := tmpdir c; slash_tmp := slash_tmp c; current_directory := current_directory c |}.

Definition set_minimal (c : PathResolutionContext) (x : list path * gset (list NativeComponentKey)) :=
  {| root_paths := root_paths c; root_keys := root_keys c;
     workspace_roots := workspace_roots c; workspace_root_keys := workspace_root_keys c;
     minimal_paths := x.1; minimal_path_keys := x.2;
     executable_roots := executable_roots c; executable_root_keys := executable_root_keys c;
     tmpdir := tmpdir c; slash_tmp := slash_tmp c; current_directory := current_directory c |}.

Definition set_executable (c : PathResolutionContext) (x : list path * gset (list NativeComponentKey)) :=
  {| root_paths := root_paths c; root_keys := root_keys c;
     workspace_roots := workspace_roots c; workspace_root_keys := workspace_root_keys c;
     minimal_paths := minimal_paths c; minimal_path_keys := minimal_path_keys c;
     executable_roots := x.1; executable_root_keys := x.2;
     tmpdir := tmpdir c; slash_tmp := slash_tmp c; current_directory := current_directory c |}.

(** Applies [copy_paths_fresh] to the next keyed list. *)
Ltac copy_keyed get set builder :=
  let ks := fresh "ks" in let E := fresh "E" in
  edestruct (copy_paths_fresh get set builder) as (ks & E);
    [by intros [] []|done|by intros []
    |intros ?c ?p ?Hp; unfold builder; rewrite validated_absolute_eq by done; cbn;
     by destruct (insert_keyed _ _ _)
    | | | |rewrite E; cbn; clear E].

Section path_context.
Context {U : Unicode} {G : Globset} {W : WildMatch}.

Lemma roots_wf_default o base keys :
  roots_wf o -> keyed_paths base keys ->
  Forall valid_absolute (default base o) /\ NoDup (NativePathKey_new <$> default base o).
Proof. intros Ho (? & ? & _). by destruct o. Qed.

Lemma narrowed_roots_wf e o base keys :
  roots_wf o -> keyed_paths base keys ->
  Forall valid_absolute (filter (fun p => within_limit e p = true) (default base o)) /\
  NoDup (NativePathKey_new <$> filter (fun p => within_limit e p = true) (default base o)).
Proof.
  intros Ho Hb. destruct (roots_wf_default _ _ _ Ho Hb) as [Hv Hn]. split.
  - rewrite Forall_forall in Hv |- *. intros p [_ Hp]%list_elem_of_filter. auto.
  - eapply sublist_NoDup; [exact Hn|]. apply fmap_sublist, sublist_filter.
Qed.

Lemma path_context_built e base c : path_context e base = Ok c -> context_built (context c).
Proof.
  unfold path_context. intros H. res_inv. simpl.
  repeat match goal with H : copy_paths _ _ _ = Ok ?c |- context_built ?c =>
    eapply copy_paths_built; [|clear c H|exact H]; [clear; intros; econstructor; eassumption|] end.
  constructor.
Qed.

(** The context a composition builds: the runtime paths of the base, with the
    workspace roots narrowed. *)
Lemma path_context_Ok e base :
  context_wf base -> roots_wf (es_workspace_roots e) ->
  exists c, path_context e base = Ok c /\
    context_owner c = context_identity (es_filesystem e) /\
    workspace_roots (context c) =
      filter (fun p => within_limit e p = true) (default (workspace_roots base) (es_workspace_roots e)) /\
    root_paths (context c) = root_paths base /\ minimal_paths (context c) = minimal_paths base /\
    executable_roots (context c) = executable_roots base /\ tmpdir (context c) = tmpdir base /\
    slash_tmp (context c) = slash_tmp base /\ current_directory (context c) = current_directory base.
Proof.
  intros ((? & ? & _) & Hwork & (? & ? & _) & (? & ? & _) & Ht & Hs & Hcur) Hr.
  destruct (narrowed_roots_wf e _ _ _ Hr Hwork) as [Hwv Hwn]. unfold path_context.
  copy_keyed (fun c => (root_paths c, root_keys c)) set_roots with_root; [done..|].
  copy_keyed (fun c => (workspace_roots c, workspace_root_keys c)) set_workspace with_workspace_root; [done..|].
  copy_keyed (fun c => (minimal_paths c, minimal_path_keys c)) set_minimal with_minimal_path; [done..|].
  copy_keyed (fun c => (executable_roots c, executable_root_keys c)) set_executable with_executable_root; [done..|].
  unfold copy_paths, with_tmpdir, with_slash_tmp, with_current_directory.
  destruct (tmpdir base), (slash_tmp base), (current_directory base); simpl in Ht, Hs, Hcur;
    do 3 (simpl; rewrite ?validated_absolute_eq by done); simpl;
    (eexists; split; [reflexivity|done]).
Qed.

(** C12. The runtime context of a composition never holds a workspace root the
    ceiling does not cover: it can always be built, its workspace roots are
    requested roots (or, without a request, roots of the base context) lying
    below the ceiling's roots, every requested root is kept by one of its
    spellings, every other runtime path is the base's, and the context belongs
    to that composition. *)
Theorem path_context_confined (next n : N) (r : CompositionRequest) (e : EffectiveSandbox)
    (base : PathResolutionContext) :
  compose next r = Ok (e, n) -> context_built base ->
  exists c, path_context e base = Ok c /\ context_built (context c) /\
    owns_context (es_filesystem e) c = true /\
    (forall p, p ∈ workspace_roots (context c) ->
       p ∈ default (workspace_roots base) (requested_workspace_roots r) /\
       forall k, ceiling_workspace_roots (ceiling r) = Some k -> exists q, q ∈ k /\ is_within p q = true) /\
    (forall l p, requested_workspace_roots r = Some l -> p ∈ l ->
       exists q, q ∈ workspace_roots (context c) /\ paths_equal q p = true) /\
    root_paths (context c) = root_paths base /\ minimal_paths (context c) = minimal_paths base /\
    executable_roots (context c) = executable_roots base /\ tmpdir (context c) = tmpdir base /\
    slash_tmp (context c) = slash_tmp base /\ current_directory (context c) = current_directory base.
Proof.
  rewrite compose_Ok. intros (requested & outer & w & _ & _ & _ & _ & Hw & -> & ->) Hbase%context_built_wf.
  apply compose_roots_Ok in Hw as (Hsel & Hlim & Hgr).
  destruct (path_context_Ok (effective_of next r requested outer w) base) as (c & Hc & Hown & Hroots & Hrest);
    [done|by eapply normalize_option_spec|].
  exists c. split_and!; [done|by eapply path_context_built| | | |apply Hrest..].
  - unfold owns_context, belongs_to, identity_matches, arc_ptr_eq. rewrite Hown. apply N.eqb_refl.
  - intros p Hp. rewrite Hroots in Hp. apply list_elem_of_filter in Hp as [Hin Hp]. simpl in Hp. split.
    + destruct (requested_workspace_roots r) as [l|]; simpl in Hsel; res_inv;
        match goal with H : Some _ = selected w |- _ => rewrite <- H in Hp | H : None = selected w |- _ => rewrite <- H in Hp end;
        [|done]. by eapply normalize_roots_spec.
    + intros k Hk. rewrite Hk in Hlim. simpl in Hlim. res_inv. unfold within_limit in Hin. simpl in Hin.
      rewrite <- Hlim in Hin. apply root_is_within_true in Hin as (q & Hq & Hin). exists q. split; [|done].
      by eapply normalize_roots_spec.
  - intros l p Hl Hp. rewrite Hl in Hsel. simpl in Hsel. res_inv. rewrite <- Hsel in Hgr.
    destruct (normalize_roots_spec l) as [_ Hspec].
    match goal with H : normalize_roots l = Ok _ |- _ => apply Hspec in H as (_ & _ & _ & Hrep) end.
    destruct (Hrep p Hp) as (q & Hq & Hkey). exists q. split.
    + rewrite Hroots. apply list_elem_of_filter. simpl. rewrite <- Hsel. split; [|done].
      unfold within_limit. simpl. destruct (limit w); auto.
    + apply paths_equal_true. rewrite !NativePathKey_new_eq in Hkey. by apply (inj (fmap component_key)) in Hkey.
Qed.

End path_context.

(** * Examples *)

Section examples.
#[local] Existing Instance literal_globset.
#[local] Existing Instance ascii_unicode.
#[local] Existing Instance literal_wildmatch.

(** A workspace preset requested below a full-access ceiling limited to [/work]. *)
Definition example_request : CompositionRequest :=
  {| requested_policy := sandbox_workspace; requested_environment := inherit_core;
     requested_workspace_roots := Some ["/work/app"; "/work//app/."];
     ceiling := {| ceiling_policy := sandbox_full_access; ceiling_environment := inherit_all;
                   ceiling_workspace_roots := Some ["/work"]; ceiling_external_owner := None |};
     external_owner := None |}.

Definition example_sandbox : EffectiveSandbox :=
  effective_of 0 example_request sandbox_workspace sandbox_full_access
    {| selected := Some ["/work/app"]; limit := Some ["/work"] |}.

Lemma example_composed : compose 0 example_request = Ok (example_sandbox, 1%N).
Proof. reflexivity. Qed.

Definition example_base : PathResolutionContext :=
  let c := unwrap_or context_new (with_workspace_root context_new "/home") in
  let c := unwrap_or c (with_root c "/usr") in
  unwrap_or c (with_current_directory c "/work/app").

Lemma unwrap_built (r : result PolicyError PathResolutionContext) c :
  context_built c -> (forall c', r = Ok c' -> context_built c') -> context_built (unwrap_or c r).
Proof. intros Hc Hr. destruct r; simpl; auto. Qed.

Lemma example_base_built : context_built example_base.
Proof.
  unfold example_base. cbv zeta.
  repeat first [constructor | apply unwrap_built; [|intros; econstructor; [|eassumption]]].
Qed.

Definition example_context : EffectivePathContext :=
  unwrap_or {| context := context_new; context_owner := {| identity_token := 0 |} |}
    (path_context example_sandbox example_base).

Lemma example_context_built : path_context example_sandbox example_base = Ok example_context.
Proof. reflexivity. Qed.

Lemma path_context_confined_witness :
  exists c, path_context example_sandbox example_base = Ok c /\
    owns_context (es_filesystem example_sandbox) c = true /\ root_paths (context c) = ["/usr"].
Proof.
  destruct (path_context_confined 0 1 example_request example_sandbox example_base
              example_composed example_base_built) as (c & Hc & _ & Ho & _ & _ & Hr & _).
  exists c. split; [exact Hc|]. split; [exact Ho|]. rewrite Hr. reflexivity.
Defined.

End examples.
