(* ===== verification/Effective.v ===== *)
(** [cageforge-policy-compose]: the decisions of an effective sandbox
    ([compose.rs]).  Every query asks both sides and keeps the intersection. *)

From Stdlib Require Import Ascii String NArith Lia.
From stdpp Require Import base list strings option gmap sets.
From S2P Require Import Prelude Text NativePath IpAddr Access Selector PathPattern FsPolicy Domain LocalIpc NetPolicy Policy Environment Compose.

Definition combine_filesystem_decisions (requested ceiling : FilesystemDecision) : FilesystemDecision :=
  match requested, ceiling with
  | FExternallyEnforced, FExternallyEnforced => FExternallyEnforced
  | FExternallyEnforced, _ | _, FExternallyEnforced => FDeny
  | l, r =>
      match as_access_mode l, as_access_mode r with
      | Some l, Some r => decision_of_access (most_restrictive l r)
      | _, _ => FDeny
      end
  end.

Definition combine_network_decisions (requested ceiling : NetworkDecision) : NetworkDecision :=
  match requested, ceiling with
  | NetExternallyEnforced, NetExternallyEnforced => NetExternallyEnforced
  | NetExternallyEnforced, _ | _, NetExternallyEnforced => NetDeny
  | NetAllow, NetAllow => NetAllow
  | _, _ => NetDeny
  end.

Definition combine_connection_authorizations (requested ceiling : ConnectionAuthorization) :
  ConnectionAuthorization :=
  match requested, ceiling with
  | Allowed requested, Allowed _ => Allowed requested
  | CExternallyEnforced, CExternallyEnforced => CExternallyEnforced
  | _, _ => CDenied
  end.

Section effective.
Context {U : Unicode} {G : Globset} {W : WildMatch}.

(** [EffectiveFilesystemPolicy::access_for_path] *)
Definition effective_access_for_path (f : EffectiveFilesystemPolicy) (p : path)
    (c : EffectivePathContext) : result CompositionError FilesystemDecision :=
  reject negb (owns_context f c) with PathContextMismatch ;;
  requested ← map_err (PolicyEvaluation BoundaryFilesystem) (access_for_path (fs_requested f) p (context c));
  ceiling ← map_err (PolicyEvaluation BoundaryFilesystem) (access_for_path (fs_ceiling f) p (context c));
  Ok (combine_filesystem_decisions requested ceiling).

(** [EffectiveFilesystemPolicy::access_for] *)
Definition effective_access_for (f : EffectiveFilesystemPolicy) (s : PathSelector)
    (c : EffectivePathContext) : result CompositionError FilesystemDecision :=
  reject negb (owns_context f c) with PathContextMismatch ;;
  if bool_decide (mode (fs_requested f) = External) && bool_decide (mode (fs_ceiling f) = External)
  then Ok FExternallyEnforced
  else
    decision ← foldM (fun acc p =>
        decision ← effective_access_for_path f p c;
        Ok (Some match acc with
                 | Some previous => combine_filesystem_decisions previous decision
                 | None => decision
                 end)) None (context_resolve c s);
    Ok (default FDeny decision).

(** A query of both network policies *)
Definition both_sides {A} (combine : A -> A -> A) (query : NetworkPolicy -> result PolicyError A)
    (n : EffectiveNetworkPolicy) : result CompositionError A :=
  requested ← map_err (PolicyEvaluation BoundaryNetwork) (query (net_requested n));
  ceiling ← map_err (PolicyEvaluation BoundaryNetwork) (query (net_ceiling n));
  Ok (combine requested ceiling).

Definition effective_decision_for_domain (n : EffectiveNetworkPolicy) (domain : string) :
  result CompositionError NetworkDecision :=
  both_sides combine_network_decisions (fun p => decision_for_domain p domain) n.

Definition effective_decision_for_resolved_ips (n : EffectiveNetworkPolicy) (domain : string)
    (resolved_ips : list IpAddr) : result CompositionError NetworkDecision :=
  both_sides combine_network_decisions
    (fun p => decision_for_domain_with_resolved_ips p domain resolved_ips) n.

Definition effective_authorize_connection (n : EffectiveNetworkPolicy) (t : ResolvedNetworkTarget)
    (connected : SocketAddr) : result CompositionError ConnectionAuthorization :=
  both_sides combine_connection_authorizations (fun p => authorize_connection p t connected) n.

Definition effective_decision_for_unix_socket (n : EffectiveNetworkPolicy) (socket : path) :
  result CompositionError NetworkDecision :=
  both_sides combine_network_decisions (fun p => decision_for_unix_socket p socket) n.

End effective.

(** * Intersections *)

(** What a decision lets a process do. *)
Definition decision_reads (d : FilesystemDecision) : bool :=
  match d with FRead | FWrite => true | _ => false end.
Definition decision_writes (d : FilesystemDecision) : bool :=
  match d with FWrite => true | _ => false end.

(** [d] is the intersection of two decisions: it lets a process do what both let
    it do, and it is delegated exactly when both are. *)
Definition intersects (d left right : FilesystemDecision) : Prop :=
  decision_reads d = decision_reads left && decision_reads right /\
  decision_writes d = decision_writes left && decision_writes right /\
  is_externally_enforced d = is_externally_enforced left && is_externally_enforced right.

Lemma combine_intersects l r : intersects (combine_filesystem_decisions l r) l r.
Proof. by destruct l, r. Qed.

Lemma intersects_unique d d' l r : intersects d l r -> intersects d' l r -> d = d'.
Proof. unfold intersects. destruct d, d', l, r; naive_solver. Qed.

Lemma combine_network_allow l r :
  combine_network_decisions l r = NetAllow <-> l = NetAllow /\ r = NetAllow.
Proof. destruct l, r; naive_solver. Qed.

Lemma combine_network_external l r :
  combine_network_decisions l r = NetExternallyEnforced <->
  l = NetExternallyEnforced /\ r = NetExternallyEnforced.
Proof. destruct l, r; naive_solver. Qed.

Lemma combine_connection_allowed l r a :
  combine_connection_authorizations l r = Allowed a <-> l = Allowed a /\ exists b, r = Allowed b.
Proof. destruct l, r; naive_solver. Qed.

Section filesystem.
Context {U : Unicode} {G : Globset} {W : WildMatch}.

(** The two filesystem policies of a request. *)
Definition requested_fs (r : CompositionRequest) : FilesystemPolicy := filesystem (requested_policy r).
Definition ceiling_fs (r : CompositionRequest) : FilesystemPolicy := filesystem (ceiling_policy (ceiling r)).

Lemma effective_path_both f p c :
  owns_context f c = true -> valid_absolute p ->
  exists l r, access_for_path (fs_requested f) p (context c) = Ok l /\
    access_for_path (fs_ceiling f) p (context c) = Ok r /\
    effective_access_for_path f p c = Ok (combine_filesystem_decisions l r).
Proof.
  intros Hc Hp. destruct (access_for_path_total (fs_requested f) p (context c) Hp) as [l Hl].
  destruct (access_for_path_total (fs_ceiling f) p (context c) Hp) as [r Hr].
  exists l, r. unfold effective_access_for_path. by rewrite Hc, Hl, Hr.
Qed.

(** A decision is delegated exactly when its policy is. *)
Lemma access_external f p c d :
  access_for_path f p c = Ok d -> d = FExternallyEnforced <-> mode f = External.
Proof.
  intros H. split.
  - intros ->. destruct (decide (mode f = External)) as [|Hm]; [done|].
    by apply (access_for_path_local f p c) in H.
  - intros Hm. unfold access_for_path in H. rewrite Hm in H. by res_inv.
Qed.

Lemma combine_deny l r :
  (l = FExternallyEnforced <-> r = FExternallyEnforced) ->
  combine_filesystem_decisions l r = FDeny <-> l = FDeny \/ r = FDeny.
Proof. destruct l, r; naive_solver. Qed.

Lemma combine_external l r :
  combine_filesystem_decisions l r = FExternallyEnforced <->
  l = FExternallyEnforced /\ r = FExternallyEnforced.
Proof. destruct l, r; naive_solver. Qed.

(** C1. An effective sandbox never grants a path more than its inputs: for every
    validated path there is a decision; it is a denial exactly when the requested
    policy or the ceiling denies the path, it is delegated exactly when both
    policies are, and, unless a target mixes a read-only rule with a carved-out
    writable rule, it lets a process read (write) exactly what both input
    policies let it read (write). *)
Theorem effective_access_meet (next n : N) (r : CompositionRequest) (e : EffectiveSandbox)
    (base : PathResolutionContext) (c : EffectivePathContext) (p : path) :
  compose next r = Ok (e, n) -> path_context e base = Ok c ->
  policy_built (requested_fs r) -> policy_built (ceiling_fs r) -> valid_absolute p ->
  exists d, effective_access_for_path (es_filesystem e) p c = Ok d /\
    (d = FDeny <-> access_for_path (requested_fs r) p (context c) = Ok FDeny \/
                   access_for_path (ceiling_fs r) p (context c) = Ok FDeny) /\
    (d = FExternallyEnforced <-> mode (requested_fs r) = External) /\
    (all_mergeable (entries (requested_fs r)) -> all_mergeable (entries (ceiling_fs r)) ->
     exists dr dc, access_for_path (requested_fs r) p (context c) = Ok dr /\
       access_for_path (ceiling_fs r) p (context c) = Ok dc /\ intersects d dr dc).
Proof.
  intros He Hc Hr%policy_built_wf Ho%policy_built_wf Hp.
  apply compose_Ok in He as (requested & outer & w & Hreq & Hout & [Hown _] & _ & Hw & -> & ->).
  apply sandbox_normalized_inv in Hreq as (Hreq & _ & Hmr & _), Hout as (Hout & _ & Hmo & _).
  set (e := effective_of next r requested outer w) in *.
  assert (owns_context (es_filesystem e) c = true) as Hctx.
  { unfold path_context in Hc. res_inv. apply N.eqb_refl. }
  destruct (effective_path_both (es_filesystem e) p c Hctx Hp) as (l & k & Hl & Hk & Heff).
  apply access_external in Hl as Hle. apply access_external in Hk as Hke. simpl in Hl, Hk, Hle, Hke.
  exists (combine_filesystem_decisions l k). split_and!; [done|..].
  - rewrite combine_deny by (rewrite Hle, Hke, Hmr, Hmo; exact Hown).
    unfold requested_fs, ceiling_fs. rewrite <- (normalized_denial _ _ _ _ Hr Hreq), <- (normalized_denial _ _ _ _ Ho Hout).
    rewrite Hl, Hk. naive_solver.
  - rewrite combine_external, Hle, Hke, Hmr, Hmo. unfold requested_fs. naive_solver.
  - intros Hm1 Hm2. exists l, k. split_and!; [..|apply combine_intersects].
    + by rewrite <- (normalized_access _ _ p (context c) Hr Hm1 Hreq).
    + by rewrite <- (normalized_access _ _ p (context c) Ho Hm2 Hout).
Qed.

(** A context built for one composition is refused by every later one: both
    queries report the mismatch and no decision is made. *)
Theorem context_isolation (next1 n1 next2 n2 : N) (r1 r2 : CompositionRequest)
    (e1 e2 : EffectiveSandbox) (base : PathResolutionContext) (c : EffectivePathContext) :
  compose next1 r1 = Ok (e1, n1) -> (n1 <= next2)%N -> compose next2 r2 = Ok (e2, n2) ->
  path_context e1 base = Ok c ->
  (forall p, effective_access_for_path (es_filesystem e2) p c = Err PathContextMismatch) /\
  (forall s, effective_access_for (es_filesystem e2) s c = Err PathContextMismatch).
Proof.
  intros (? & ? & ? & _ & _ & _ & _ & _ & -> & ->)%compose_Ok Hle
    (requested & outer & w & _ & _ & _ & _ & _ & -> & ->)%compose_Ok Hc.
  assert (owns_context (es_filesystem (effective_of next2 r2 requested outer w)) c = false) as Hno.
  { unfold path_context in Hc. res_inv. unfold owns_context, belongs_to, identity_matches, arc_ptr_eq.
    simpl. apply N.eqb_neq. lia. }
  unfold effective_access_for, effective_access_for_path. by rewrite Hno.
Qed.

(** The fold of [effective_access_for] over the decisions of the paths. *)
Definition combine_decisions (ds : list FilesystemDecision) : option FilesystemDecision :=
  foldl (fun acc d => Some match acc with
                           | Some previous => combine_filesystem_decisions previous d
                           | None => d
                           end) None ds.

Lemma combine_decisions_spec ds :
  Forall (fun d => d <> FExternallyEnforced) ds ->
  match combine_decisions ds with
  | None => ds = []
  | Some d => ds <> [] /\ d <> FExternallyEnforced /\
      decision_reads d = forallb decision_reads ds /\ decision_writes d = forallb decision_writes ds
  end.
Proof.
  induction ds as [|d ds IH] using rev_ind; [done|]. intros [Hds Hd]%Forall_app.
  rewrite Forall_singleton in Hd. unfold combine_decisions. rewrite foldl_app. simpl. fold (combine_decisions ds).
  specialize (IH Hds). rewrite !forallb_app. simpl. rewrite !andb_true_r.
  destruct (combine_decisions ds) as [d'|].
  - destruct IH as (_ & Hd' & <- & <-). destruct d', d; simpl in *; split_and!; try done; by destruct ds.
  - by subst.
Qed.

Lemma effective_fold f c l ds acc :
  Forall2 (fun p d => effective_access_for_path f p c = Ok d) l ds ->
  foldM (fun acc p =>
      decision ← effective_access_for_path f p c;
      Ok (Some match acc with
               | Some previous => combine_filesystem_decisions previous decision
               | None => decision
               end)) acc l =
  Ok (foldl (fun acc d => Some match acc with
                           | Some previous => combine_filesystem_decisions previous d
                           | None => d
                           end) acc ds).
Proof.
  intros H. revert acc. induction H as [|p d l ds Hp _ IH]; intros acc; simpl; [done|].
  rewrite Hp. apply IH.
Qed.

(** Every path of a validated list gets a local decision. *)
Lemma effective_decisions f c l :
  owns_context f c = true -> mode (fs_requested f) <> External \/ mode (fs_ceiling f) <> External ->
  Forall valid_absolute l ->
  exists ds, Forall2 (fun p d => effective_access_for_path f p c = Ok d) l ds /\
    Forall (fun d => d <> FExternallyEnforced) ds.
Proof.
  intros Hc Hm. induction 1 as [|p l Hp _ (ds & IH & Hds)]; [by exists []|].
  destruct (effective_path_both f p c Hc Hp) as (d1 & d2 & H1 & H2 & Heff).
  exists (combine_filesystem_decisions d1 d2 :: ds). split; [by constructor|]. constructor; [|done].
  rewrite combine_external, (access_external _ _ _ _ H1), (access_external _ _ _ _ H2). tauto.
Qed.

(** A selector is decided by all of its paths: in a context of its own
    composition every validated selector gets a decision; it is delegated when
    both policies are, and otherwise it lets a process read (write) exactly when
    it resolves to at least one path and every resolved path may be read
    (written). *)
Theorem effective_selector_spec (f : EffectiveFilesystemPolicy) (s : PathSelector) (c : EffectivePathContext) :
  owns_context f c = true -> context_built (context c) -> selector_wf s ->
  exists d, effective_access_for f s c = Ok d /\
    (mode (fs_requested f) = External -> mode (fs_ceiling f) = External -> d = FExternallyEnforced) /\
    (mode (fs_requested f) <> External \/ mode (fs_ceiling f) <> External ->
     let holds may := resolve s (context c) <> [] /\
       forall p, p ∈ resolve s (context c) ->
         exists d', effective_access_for_path f p c = Ok d' /\ may d' = true in
     d <> FExternallyEnforced /\
     (decision_reads d = true <-> holds decision_reads) /\
     (decision_writes d = true <-> holds decision_writes)).
Proof.
  intros Hc Hwf%context_built_wf Hs. pose proof (resolve_valid s (context c) Hwf Hs) as Hv.
  unfold effective_access_for, context_resolve. rewrite Hc. simpl.
  destruct (decide (mode (fs_requested f) = External /\ mode (fs_ceiling f) = External)) as [[H1 H2]|Hn].
  { rewrite !bool_decide_eq_true_2 by done. eexists. split; [reflexivity|]. split; [done|]. tauto. }
  assert (mode (fs_requested f) <> External \/ mode (fs_ceiling f) <> External) as Hm.
  { destruct (decide (mode (fs_requested f) = External)); tauto. }
  destruct (effective_decisions f c _ Hc Hm Hv) as (ds & Hds & Hloc).
  assert (bool_decide (mode (fs_requested f) = External) && bool_decide (mode (fs_ceiling f) = External) = false) as ->.
  { apply andb_false_iff. by rewrite !bool_decide_eq_false. }
  rewrite (effective_fold f c _ ds) by done. fold (combine_decisions ds). cbn.
  eexists. split; [reflexivity|]. split; [tauto|]. intros _.
  assert (forall may, forallb may ds = true <->
    forall p, p ∈ resolve s (context c) -> exists d', effective_access_for_path f p c = Ok d' /\ may d' = true) as Hall.
  { intros may. clear -Hds. induction Hds as [|p d l ds Hp _ IH]; simpl; [set_solver|].
    rewrite andb_true_iff, IH. setoid_rewrite elem_of_cons. split.
    - intros [? Hl] q [->|Hq]; eauto.
    - intros H. split; [|eauto]. destruct (H p) as (d' & Hd' & Hm); [auto|]. congruence. }
  assert (resolve s (context c) = [] <-> ds = []) as Hnil by (inversion Hds; naive_solver).
  pose proof (combine_decisions_spec ds Hloc) as Hspec.
  destruct (combine_decisions ds) as [d|]; cbn.
  - destruct Hspec as (Hne & Hx & -> & ->). rewrite !Hall, Hnil. naive_solver.
  - rewrite Hnil. naive_solver.
Qed.

End filesystem.

Section network.
Context {U : Unicode} {G : Globset} {W : WildMatch}.

Definition requested_net (r : CompositionRequest) : NetworkPolicy := network (requested_policy r).
Definition ceiling_net (r : CompositionRequest) : NetworkPolicy := network (ceiling_policy (ceiling r)).

Lemma both_sides_Ok {A} (combine : A -> A -> A) query n d :
  both_sides combine query n = Ok d <->
  exists l r, query (net_requested n) = Ok l /\ query (net_ceiling n) = Ok r /\ d = combine l r.
Proof.
  unfold both_sides. split.
  - intros H. res_inv. eauto.
  - intros (l & r & Hl & Hr & ->). by rewrite Hl, Hr.
Qed.

Lemma both_sides_allow query n :
  both_sides combine_network_decisions query n = Ok NetAllow <->
  query (net_requested n) = Ok NetAllow /\ query (net_ceiling n) = Ok NetAllow.
Proof.
  rewrite both_sides_Ok. split.
  - intros (l & r & Hl & Hr & Hd). symmetry in Hd. apply combine_network_allow in Hd as [-> ->]. done.
  - intros [Hl Hr]. exists NetAllow, NetAllow. done.
Qed.

Lemma both_sides_external query n :
  both_sides combine_network_decisions query n = Ok NetExternallyEnforced <->
  query (net_requested n) = Ok NetExternallyEnforced /\ query (net_ceiling n) = Ok NetExternallyEnforced.
Proof.
  rewrite both_sides_Ok. split.
  - intros (l & r & Hl & Hr & Hd). symmetry in Hd. apply combine_network_external in Hd as [-> ->]. done.
  - intros [Hl Hr]. exists NetExternallyEnforced, NetExternallyEnforced. done.
Qed.

(** The network layers of a composition are the normalized inputs. *)
Lemma composed_network next r e n :
  compose next r = Ok (e, n) ->
  net_normalized (requested_net r) = Ok (net_requested (es_network e)) /\
  net_normalized (ceiling_net r) = Ok (net_ceiling (es_network e)).
Proof.
  intros (requested & outer & w & Hr & Ho & _ & _ & _ & -> & _)%compose_Ok.
  apply sandbox_normalized_inv in Hr as (_ & Hr & _), Ho as (_ & Ho & _). done.
Qed.

(** An effective sandbox allows a host or a Unix-socket path exactly when the
    requested policy and the ceiling both allow it, reports external enforcement
    exactly when both delegate it, and allows a resolved host, spelled without
    glob metacharacters, exactly when both policies allow it with those
    addresses. *)
Theorem effective_network_meet (L : GlobsetLaws G) (next n : N) (r : CompositionRequest)
    (e : EffectiveSandbox) :
  compose next r = Ok (e, n) -> net_built (requested_net r) -> net_built (ceiling_net r) ->
  (forall domain, effective_decision_for_domain (es_network e) domain = Ok NetAllow <->
     decision_for_domain (requested_net r) domain = Ok NetAllow /\
     decision_for_domain (ceiling_net r) domain = Ok NetAllow) /\
  (forall domain, effective_decision_for_domain (es_network e) domain = Ok NetExternallyEnforced <->
     decision_for_domain (requested_net r) domain = Ok NetExternallyEnforced /\
     decision_for_domain (ceiling_net r) domain = Ok NetExternallyEnforced) /\
  (forall socket, effective_decision_for_unix_socket (es_network e) socket = Ok NetAllow <->
     decision_for_unix_socket (requested_net r) socket = Ok NetAllow /\
     decision_for_unix_socket (ceiling_net r) socket = Ok NetAllow) /\
  (forall domain h ips, normalize_domain domain = Ok h -> normalize_domain h = Ok h ->
     str_any (glob_special domain_options) h = false ->
     effective_decision_for_resolved_ips (es_network e) domain ips = Ok NetAllow <->
     decision_for_domain_with_resolved_ips (requested_net r) domain ips = Ok NetAllow /\
     decision_for_domain_with_resolved_ips (ceiling_net r) domain ips = Ok NetAllow).
Proof.
  intros [Hr Ho]%composed_network Hbr Hbo. split_and!.
  - intros domain. unfold effective_decision_for_domain.
    by rewrite both_sides_allow, (net_normalized_domain _ _ _ Hbr Hr), (net_normalized_domain _ _ _ Hbo Ho).
  - intros domain. unfold effective_decision_for_domain.
    by rewrite both_sides_external, (net_normalized_domain _ _ _ Hbr Hr), (net_normalized_domain _ _ _ Hbo Ho).
  - intros socket. unfold effective_decision_for_unix_socket.
    by rewrite both_sides_allow, (net_normalized_unix _ _ _ Hr), (net_normalized_unix _ _ _ Ho).
  - intros domain h ips Hd Hh Hlit. unfold effective_decision_for_resolved_ips.
    by rewrite both_sides_allow, (net_normalized_resolved L _ _ _ _ _ Hbr Hr Hd Hh Hlit),
      (net_normalized_resolved L _ _ _ _ _ Hbo Ho Hd Hh Hlit).
Qed.

Lemma normalized_local n n' : net_normalized n = Ok n' -> local_network_access n' = local_network_access n.
Proof. unfold net_normalized. intros H. by res_inv. Qed.

(** What a side of the composition says of an authorized address. *)
Lemma side_authorizes n n' t connected a :
  net_built n -> net_normalized n = Ok n' -> authorize_connection n' t connected = Ok (Allowed a) ->
  a = connected /\ connected ∈ rt_addresses t /\
  exists h, normalize_domain (rt_domain t) = Ok h /\ decision_for_domain n h = Ok NetAllow /\
    address_safe n h (socket_ip connected).
Proof.
  intros Hb Hn (-> & Hin & _ & h & Hh & Hd & Hlit & Hsafe)%authorize_connection_allowed.
  rewrite (net_normalized_domain n n') in Hd by done. split_and!; [done|done|]. exists h. do 3 (split; [done|]).
  intros Hl. rewrite <- (normalized_local n n' Hn) in Hl.
  destruct (Hsafe Hl) as [?|[Hex ?]]; [by left|right]. split; [by eapply normalized_exact_allow|done].
Qed.

(** A connection that is authorized for a composition is safe for both sides. *)
Lemma composed_connection_safe next n r e t connected a :
  compose next r = Ok (e, n) -> net_built (requested_net r) -> net_built (ceiling_net r) ->
  effective_authorize_connection (es_network e) t connected = Ok (Allowed a) ->
  a = connected /\ connected ∈ rt_addresses t /\
  exists h, normalize_domain (rt_domain t) = Ok h /\
    forall side, side = requested_net r \/ side = ceiling_net r ->
      decision_for_domain side h = Ok NetAllow /\ address_safe side h (socket_ip connected).
Proof.
  intros [Hr Ho]%composed_network Hbr Hbo H.
  unfold effective_authorize_connection in H. apply both_sides_Ok in H as (l & k & Hl & Hk & Hd).
  symmetry in Hd. apply combine_connection_allowed in Hd as [-> [b ->]].
  destruct (side_authorizes _ _ _ _ _ Hbr Hr Hl) as (-> & Hin & h & Hh & Hd1 & Hs1).
  destruct (side_authorizes _ _ _ _ _ Hbo Ho Hk) as (-> & _ & h' & Hh' & Hd2 & Hs2).
  assert (h' = h) as -> by congruence. split_and!; [done|done|]. exists h. split; [done|].
  intros side [->| ->]; split; done.
Qed.

(** C2. A connection an effective sandbox authorizes is safe for both inputs: the
    authorized address is the one asked for and belongs to the resolution
    snapshot, both policies allow the host, and if either policy denies local
    access the address is public or that policy allows it exactly (the literal
    itself, or a loopback address of [localhost]). *)
Theorem effective_connection_safe (next n : N) (r : CompositionRequest) (e : EffectiveSandbox)
    (t : ResolvedNetworkTarget) (connected a : SocketAddr) :
  compose next r = Ok (e, n) -> net_built (requested_net r) -> net_built (ceiling_net r) ->
  effective_authorize_connection (es_network e) t connected = Ok (Allowed a) ->
  a = connected /\ connected ∈ rt_addresses t /\
  exists h, normalize_domain (rt_domain t) = Ok h /\
    forall side, side = requested_net r \/ side = ceiling_net r ->
      decision_for_domain side h = Ok NetAllow /\
      (forall literal, parse_ip_literal h = Some literal -> socket_ip connected = literal) /\
      (local_network_access side = LocalDeny ->
       is_non_public_ip (socket_ip connected) = false \/
       has_exact_allow side h = true /\
         (parse_ip_literal h = Some (socket_ip connected) \/
          h = "localhost" /\ ip_is_loopback (socket_ip connected) = true)).
Proof.
  intros Hc Hbr Hbo H.
  destruct (composed_connection_safe _ _ _ _ _ _ _ Hc Hbr Hbo H) as (-> & Hin & h & Hh & Hs).
  split_and!; [done|done|]. exists h. split; [done|]. intros side Hside.
  destruct (Hs side Hside) as [Hd Hsafe]. split; [done|exact Hsafe].
Qed.

End network.

(** * Examples *)

Section examples.
#[local] Existing Instance literal_globset.
#[local] Existing Instance ascii_unicode.
#[local] Existing Instance literal_wildmatch.

Lemma presets_built : policy_built (filesystem sandbox_workspace) /\ policy_built (filesystem sandbox_full_access).
Proof. split; [|apply built_unrestricted]. apply built_restricted. repeat constructor. Qed.

Lemma effective_access_meet_witness :
  exists d, effective_access_for_path (es_filesystem example_sandbox) "/work/app/main.rs" example_context = Ok d /\
    (d = FDeny <-> access_for_path (requested_fs example_request) "/work/app/main.rs" (context example_context) = Ok FDeny \/
                   access_for_path (ceiling_fs example_request) "/work/app/main.rs" (context example_context) = Ok FDeny).
Proof.
  destruct (effective_access_meet 0 1 example_request example_sandbox example_base example_context
              "/work/app/main.rs" example_composed example_context_built
              (proj1 presets_built) (proj2 presets_built)) as (d & Hd & Hdeny & _); [by vm_compute|].
  exists d. split; [exact Hd|exact Hdeny].
Defined.

(** The same request composed again gets another identity. *)
Definition example_sandbox_again : EffectiveSandbox :=
  effective_of 1 example_request sandbox_workspace sandbox_full_access
    {| selected := Some ["/work/app"]; limit := Some ["/work"] |}.

Lemma example_composed_again : compose 1 example_request = Ok (example_sandbox_again, 2%N).
Proof. reflexivity. Qed.

Lemma context_isolation_witness :
  effective_access_for_path (es_filesystem example_sandbox_again) "/work/app" example_context = Err PathContextMismatch.
Proof.
  apply (context_isolation 0 1 1 2 example_request example_request example_sandbox example_sandbox_again
           example_base example_context); [exact example_composed|lia|exact example_composed_again
           |exact example_context_built].
Defined.

Lemma effective_selector_spec_witness :
  exists d, effective_access_for (es_filesystem example_sandbox) selector_workspace_root example_context = Ok d /\
    d <> FExternallyEnforced.
Proof.
  destruct (effective_selector_spec (es_filesystem example_sandbox) selector_workspace_root example_context)
    as (d & Hd & _ & Hl); [reflexivity|exact (path_context_built _ _ _ example_context_built)|by vm_compute|].
  exists d. split; [exact Hd|]. apply Hl. by left.
Defined.

Lemma effective_network_meet_witness :
  effective_decision_for_domain (es_network example_sandbox) "example.com" <> Ok NetAllow.
Proof.
  destruct (effective_network_meet literal_globset_laws 0 1 example_request example_sandbox example_composed
              nb_disabled nb_unrestricted) as (Hdom & _).
  intros H. apply Hdom in H as [H _]. vm_compute in H. discriminate H.
Defined.

(** A request whose network policy names one host. *)
Definition network_request : CompositionRequest :=
  {| requested_policy := {| filesystem := unrestricted; network := example_policy |};
     requested_environment := inherit_core; requested_workspace_roots := None;
     ceiling := PolicyCeiling_new sandbox_full_access inherit_all; external_owner := None |}.

Definition network_sandbox : EffectiveSandbox :=
  effective_of 0 network_request {| filesystem := unrestricted; network := example_policy |} sandbox_full_access
    {| selected := None; limit := None |}.

Lemma network_composed : compose 0 network_request = Ok (network_sandbox, 1%N).
Proof. reflexivity. Qed.

Lemma effective_connection_safe_witness :
  example_address ∈ rt_addresses example_target /\
  effective_authorize_connection (es_network network_sandbox) example_target example_address = Ok (Allowed example_address).
Proof.
  assert (effective_authorize_connection (es_network network_sandbox) example_target example_address
          = Ok (Allowed example_address)) as H by reflexivity.
  split; [|exact H].
  apply (effective_connection_safe 0 1 network_request network_sandbox example_target example_address example_address
           network_composed example_policy_built nb_unrestricted H).
Defined.

(** A request whose filesystem policy has a read-only rule on the target of a
    carved-out writable rule. *)
Definition widened_request : CompositionRequest :=
  {| requested_policy := {| filesystem := mixed_policy; network := net_disabled |};
     requested_environment := inherit_core; requested_workspace_roots := None;
     ceiling := PolicyCeiling_new sandbox_full_access inherit_all; external_owner := None |}.

Definition widened_sandbox : EffectiveSandbox :=
  effective_of 0 widened_request {| filesystem := mixed_policy_normalized; network := net_disabled |}
    sandbox_full_access {| selected := None; limit := None |}.

(** Composition can grant more than the requested policy: for a request whose
    policy carries a read-only rule on the target of a carved-out writable rule,
    the requested policy lets a path be read only, and the effective sandbox lets
    it be written, although the ceiling merely allows everything. *)
Example composition_can_widen :
  exists (r : CompositionRequest) (e : EffectiveSandbox) (n : N) (c : EffectivePathContext) (p : path),
    policy_built (requested_fs r) /\ compose 0 r = Ok (e, n) /\ path_context e context_new = Ok c /\
    access_for_path (requested_fs r) p (context c) = Ok FRead /\
    effective_access_for_path (es_filesystem e) p c = Ok FWrite.
Proof.
  exists widened_request, widened_sandbox, 1%N,
    {| context := context_new; context_owner := {| identity_token := 0 |} |}, "/a/b/c/file".
  split; [exact mixed_policy_built|]. split_and!; reflexivity.
Qed.

End examples.
