(* ===== verification/Requirements.v ===== *)
(** [cageforge-policy-compose]: what a backend must be able to enforce for an
    effective sandbox ([filesystem.rs], [model.rs], [lowering.rs]): aggregate
    requirements, the glob scan depth, and the lowering views. *)

From Stdlib Require Import Ascii String NArith Lia.
From stdpp Require Import base list strings option gmap sets.
From S2P Require Import Prelude Text NativePath IpAddr Access Selector PathPattern FsPolicy Domain LocalIpc NetPolicy Policy Environment Compose Effective.

(** * Filesystem requirements *)

Record EffectiveFilesystemRequirements := {
  req_mode : FilesystemMode;
  req_scopes : bool;
  req_absolute_scopes : bool;
  req_workspace_scopes : bool;
  req_root_scopes : bool;
  req_minimal_scopes : bool;
  req_tmpdir_scopes : bool;
  req_conventional_temporary_scopes : bool;
  req_globs : bool;
  req_glob_scan_depth : bool;
  req_read_only_subpaths : bool;
  req_missing_path_behavior : bool;
  req_protected_paths : bool
}.

(** The names of the boolean fields *)
Inductive RequirementField :=
  | Scopes | AbsoluteScopes | WorkspaceScopes | RootScopes | MinimalScopes | TmpdirScopes
  | ConventionalTemporaryScopes | Globs | GlobScanDepth | ReadOnlySubpaths | MissingPath | ProtectedPaths.

#[global] Instance RequirementField_eq_dec : EqDecision RequirementField.
Proof. solve_decision. Defined.

Definition field (f : RequirementField) (r : EffectiveFilesystemRequirements) : bool :=
  match f with
  | Scopes => req_scopes r
  | AbsoluteScopes => req_absolute_scopes r
  | WorkspaceScopes => req_workspace_scopes r
  | RootScopes => req_root_scopes r
  | MinimalScopes => req_minimal_scopes r
  | TmpdirScopes => req_tmpdir_scopes r
  | ConventionalTemporaryScopes => req_conventional_temporary_scopes r
  | Globs => req_globs r
  | GlobScanDepth => req_glob_scan_depth r
  | ReadOnlySubpaths => req_read_only_subpaths r
  | MissingPath => req_missing_path_behavior r
  | ProtectedPaths => req_protected_paths r
  end.

(** [requirements.field |= b], and [requirements.field = true] for [b = true] *)
Definition or_field (f : RequirementField) (b : bool) (r : EffectiveFilesystemRequirements) :
  EffectiveFilesystemRequirements :=
  let upd g := field g r || (bool_decide (f = g) && b) in
  {| req_mode := req_mode r; req_scopes := upd Scopes; req_absolute_scopes := upd AbsoluteScopes;
     req_workspace_scopes := upd WorkspaceScopes; req_root_scopes := upd RootScopes;
     req_minimal_scopes := upd MinimalScopes; req_tmpdir_scopes := upd TmpdirScopes;
     req_conventional_temporary_scopes := upd ConventionalTemporaryScopes; req_globs := upd Globs;
     req_glob_scan_depth := upd GlobScanDepth; req_read_only_subpaths := upd ReadOnlySubpaths;
     req_missing_path_behavior := upd MissingPath; req_protected_paths := upd ProtectedPaths |}.

Definition effective_mode (left right : FilesystemMode) : FilesystemMode :=
  match left, right with
  | External, External => External
  | Restricted, _ | _, Restricted => Restricted
  | Unrestricted, Unrestricted => Unrestricted
  | External, _ | _, External => Restricted
  end.

Definition no_requirements (m : FilesystemMode) : EffectiveFilesystemRequirements :=
  {| req_mode := m; req_scopes := false; req_absolute_scopes := false; req_workspace_scopes := false;
     req_root_scopes := false; req_minimal_scopes := false; req_tmpdir_scopes := false;
     req_conventional_temporary_scopes := false; req_globs := false; req_glob_scan_depth := false;
     req_read_only_subpaths := false; req_missing_path_behavior := false; req_protected_paths := false |}.

Definition add_selector_requirements (r : EffectiveFilesystemRequirements) (s : PathSelector) :
  EffectiveFilesystemRequirements :=
  let r := or_field Scopes true r in
  if is_absolute_scope s then or_field AbsoluteScopes true r
  else if is_workspace_scope s then or_field WorkspaceScopes true r
  else if is_root_scope s then or_field RootScopes true r
  else if is_minimal_scope s then or_field MinimalScopes true r
  else if is_tmpdir_scope s then or_field TmpdirScopes true r
  else if is_slash_tmp_scope s then or_field ConventionalTemporaryScopes true r
  else r.

Section requirements.
Context {U : Unicode} {G : Globset} {W : WildMatch}.

(** The body of the loop over [policy.entries()] *)
Definition add_rule_requirements (q : EffectiveFilesystemRequirements) (r : FilesystemRule) :
  EffectiveFilesystemRequirements :=
  let q := or_field MissingPath (match target r with Scope _ => true | Glob _ => false end) q in
  let q := match target r with
           | Scope s => add_selector_requirements q s
           | Glob g =>
               let q := or_field Globs true (or_field Scopes true q) in
               let q := if pp_absolute g then or_field AbsoluteScopes true q
                        else or_field WorkspaceScopes true q in
               or_field GlobScanDepth (bool_decide (access r = Deny)) q
           end in
  let q := foldl add_selector_requirements q (read_only_subpaths r) in
  or_field ReadOnlySubpaths (bool_decide (read_only_subpaths r <> [])) q.

(** The body of the loop over the two policies *)
Definition add_policy_requirements (q : EffectiveFilesystemRequirements) (f : FilesystemPolicy) :
  EffectiveFilesystemRequirements :=
  let q := or_field ProtectedPaths (bool_decide (protected_relative_paths f <> [])) q in
  foldl add_rule_requirements q (entries f).

(** [EffectiveFilesystemPolicy::requirements] *)
Definition filesystem_requirements (f : EffectiveFilesystemPolicy) : EffectiveFilesystemRequirements :=
  foldl add_policy_requirements
    (no_requirements (effective_mode (mode (fs_requested f)) (mode (fs_ceiling f))))
    [fs_requested f; fs_ceiling f].

(** * Glob scan depth *)

Definition effective_glob_scan_depth (f : FilesystemPolicy) : option (option N) :=
  if existsb (fun r => is_glob (target r) && bool_decide (access r = Deny)) (entries f)
  then Some (glob_scan_max_depth f) else None.

Definition merge_glob_scan_depth (left right : option (option N)) : option N :=
  match left, right with
  | Some None, _ | _, Some None => None
  | Some (Some l), Some (Some r) => Some (N.max l r)
  | Some (Some depth), None | None, Some (Some depth) => Some depth
  | None, None => None
  end.

Definition effective_glob_scan_max_depth (f : EffectiveFilesystemPolicy) : option N :=
  merge_glob_scan_depth (effective_glob_scan_depth (fs_requested f)) (effective_glob_scan_depth (fs_ceiling f)).

(** * Lowering views *)

Record EffectiveFilesystemLowering := {
  fs_layers : list FilesystemPolicy;
  lowering_glob_scan_max_depth : option N
}.

Record EffectiveNetworkLowering := { net_layers : list NetworkPolicy }.

Definition filesystem_lowering (f : EffectiveFilesystemPolicy) : EffectiveFilesystemLowering :=
  {| fs_layers := [fs_requested f; fs_ceiling f];
     lowering_glob_scan_max_depth := effective_glob_scan_max_depth f |}.

Definition network_lowering (n : EffectiveNetworkPolicy) : EffectiveNetworkLowering :=
  {| net_layers := [net_requested n; net_ceiling n] |}.

(** * Network requirements *)

Record EffectiveNetworkRequirements := {
  nreq_mode : NetworkMode;
  nreq_domain_rules : bool;
  nreq_local_address_restrictions : bool;
  nreq_resolved_targets : bool;
  nreq_local_ipc_isolation : bool;
  nreq_local_ipc_rules : bool;
  nreq_local_ipc_deny_rules : bool;
  nreq_windows_named_pipe_rules : bool
}.

Definition effective_network_mode (left right : NetworkMode) : NetworkMode :=
  match left, right with
  | NetExternal, NetExternal => NetExternal
  | NetDisabled, _ | _, NetDisabled => NetDisabled
  | NetEnabled, NetEnabled => NetEnabled
  | NetExternal, _ | _, NetExternal => NetDisabled
  end.

Definition denies_all_unix_sockets (n : NetworkPolicy) : bool :=
  bool_decide (unix_socket_mode n = UnixDisabled)
  || (bool_decide (unix_socket_mode n = UnixRestricted)
      && negb (existsb (fun r => bool_decide (us_access r = DAllow)) (unix_sockets n))).

Definition network_requirements (n : EffectiveNetworkPolicy) : EffectiveNetworkRequirements :=
  let policies := [net_requested n; net_ceiling n] in
  let m := effective_network_mode (net_mode (net_requested n)) (net_mode (net_ceiling n)) in
  let enabled := bool_decide (m = NetEnabled) in
  let domain_rules := enabled &&
    existsb (fun p => bool_decide (domains p <> []) || bool_decide (domain_mode p <> DomEnabled)) policies in
  let local_address_restrictions := enabled &&
    existsb (fun p => bool_decide (local_network_access p = LocalDeny)) policies in
  let local_ipc_isolation := enabled && existsb denies_all_unix_sockets policies in
  let local_ipc_rules := enabled && negb local_ipc_isolation &&
    existsb (fun p => bool_decide (unix_socket_mode p = UnixRestricted)) policies in
  let local_ipc_deny_rules := enabled && negb local_ipc_isolation &&
    forallb (fun p => bool_decide (unix_socket_mode p = UnixEnabled)) policies &&
    existsb (fun p => existsb (fun r => bool_decide (us_access r = DDeny)) (unix_sockets p)) policies in
  let windows_named_pipe_rules :=
    existsb (fun p => existsb (fun r => match li_endpoint r with
                                        | WindowsNamedPipe _ => true
                                        | _ => false
                                        end) (local_ipc p)) policies in
  {| nreq_mode := m; nreq_domain_rules := domain_rules;
     nreq_local_address_restrictions := local_address_restrictions;
     nreq_resolved_targets := domain_rules || local_address_restrictions;
     nreq_local_ipc_isolation := local_ipc_isolation; nreq_local_ipc_rules := local_ipc_rules;
     nreq_local_ipc_deny_rules := local_ipc_deny_rules;
     nreq_windows_named_pipe_rules := windows_named_pipe_rules |}.

End requirements.

(** * What the requirements say *)

Lemma field_or f b g r : field g (or_field f b r) = field g r || (bool_decide (f = g) && b).
Proof. by destruct g. Qed.

(** The fields a selector sets. *)
Definition selector_needs (g : RequirementField) (s : PathSelector) : bool :=
  match g with
  | Scopes => true
  | AbsoluteScopes => is_absolute_scope s
  | WorkspaceScopes => is_workspace_scope s
  | RootScopes => is_root_scope s
  | MinimalScopes => is_minimal_scope s
  | TmpdirScopes => is_tmpdir_scope s
  | ConventionalTemporaryScopes => is_slash_tmp_scope s
  | _ => false
  end.

Lemma field_add_selector g q s :
  field g (add_selector_requirements q s) = field g q || selector_needs g s.
Proof.
  unfold add_selector_requirements, selector_needs.
  unfold is_absolute_scope, is_workspace_scope, is_root_scope, is_minimal_scope, is_tmpdir_scope, is_slash_tmp_scope.
  destruct (ps_kind s); rewrite !field_or; destruct g; simpl; by rewrite ?orb_false_r, ?orb_true_r.
Qed.

Lemma field_fold {A} (add : EffectiveFilesystemRequirements -> A -> EffectiveFilesystemRequirements)
    (needs : RequirementField -> A -> bool) g :
  (forall q a, field g (add q a) = field g q || needs g a) ->
  forall l q, field g (foldl add q l) = field g q || existsb (needs g) l.
Proof.
  intros Hadd l. induction l as [|a l IH]; intros q; simpl; [by rewrite orb_false_r|].
  by rewrite IH, Hadd, orb_assoc.
Qed.

Section exact.
Context {U : Unicode} {G : Globset} {W : WildMatch}.

(** The selectors a rule mentions. *)
Definition rule_selectors (r : FilesystemRule) : list PathSelector :=
  match target r with Scope s => [s] | Glob _ => [] end ++ read_only_subpaths r.

Definition rule_needs (g : RequirementField) (r : FilesystemRule) : bool :=
  existsb (selector_needs g) (rule_selectors r) ||
  match g, target r with
  | (Scopes | Globs), Glob _ => true
  | AbsoluteScopes, Glob pat => pp_absolute pat
  | WorkspaceScopes, Glob pat => negb (pp_absolute pat)
  | GlobScanDepth, Glob _ => bool_decide (access r = Deny)
  | MissingPath, Scope _ => true
  | ReadOnlySubpaths, _ => bool_decide (read_only_subpaths r <> [])
  | _, _ => false
  end.

Lemma field_add_rule g q r : field g (add_rule_requirements q r) = field g q || rule_needs g r.
Proof.
  unfold add_rule_requirements, rule_needs, rule_selectors.
  rewrite field_or, (field_fold _ selector_needs) by apply field_add_selector. rewrite existsb_app.
  destruct (existsb (selector_needs g) (read_only_subpaths r)).
  { by rewrite !orb_true_r. }
  rewrite !orb_false_r. destruct (target r) as [s|pat].
  - rewrite field_add_selector, field_or. simpl.
    destruct g; simpl; rewrite ?orb_false_r, ?orb_true_r; done.
  - rewrite field_or. destruct (pp_absolute pat); rewrite !field_or; simpl;
      destruct g; simpl; rewrite ?orb_false_r, ?orb_true_r; done.
Qed.

Definition policy_needs (g : RequirementField) (f : FilesystemPolicy) : bool :=
  bool_decide (g = ProtectedPaths) && bool_decide (protected_relative_paths f <> [])
  || existsb (rule_needs g) (entries f).

Lemma field_requirements g f :
  field g (filesystem_requirements f) = policy_needs g (fs_requested f) || policy_needs g (fs_ceiling f).
Proof.
  unfold filesystem_requirements. rewrite (field_fold _ policy_needs).
  - simpl. rewrite orb_false_r. by destruct g.
  - intros q p. unfold add_policy_requirements, policy_needs.
    rewrite (field_fold _ rule_needs) by apply field_add_rule. rewrite field_or, <- orb_assoc.
    by destruct g.
Qed.

Lemma req_mode_requirements f :
  req_mode (filesystem_requirements f) = effective_mode (mode (fs_requested f)) (mode (fs_ceiling f)).
Proof.
  unfold filesystem_requirements.
  assert (forall l q, req_mode (foldl add_selector_requirements q l) = req_mode q) as Hsel.
  { induction l as [|s l IH]; intros q; simpl; [done|]. rewrite IH. by destruct s as [[]]. }
  assert (forall l q, req_mode (foldl add_rule_requirements q l) = req_mode q) as Hrule.
  { induction l as [|r l IH]; intros q; simpl; [done|]. rewrite IH. unfold add_rule_requirements. simpl.
    rewrite Hsel. destruct (target r) as [[[]]|pat]; try done. by destruct (pp_absolute pat). }
  cbn [foldl]. unfold add_policy_requirements. do 2 (rewrite Hrule; simpl). done.
Qed.

(** A rule mentions a selector of a kind, or targets a glob with a property. *)
Definition mentions (scope : PathSelector -> bool) (r : FilesystemRule) : Prop :=
  exists s, s ∈ rule_selectors r /\ scope s = true.
Definition targets_glob (P : PathPattern -> Prop) (r : FilesystemRule) : Prop :=
  exists pat, target r = Glob pat /\ P pat.

(** What it means for a rule to use a feature. *)
Definition rule_uses (g : RequirementField) (r : FilesystemRule) : Prop :=
  match g with
  | Scopes => True
  | AbsoluteScopes => mentions is_absolute_scope r \/ targets_glob (fun pat => pp_absolute pat = true) r
  | WorkspaceScopes => mentions is_workspace_scope r \/ targets_glob (fun pat => pp_absolute pat = false) r
  | RootScopes => mentions is_root_scope r
  | MinimalScopes => mentions is_minimal_scope r
  | TmpdirScopes => mentions is_tmpdir_scope r
  | ConventionalTemporaryScopes => mentions is_slash_tmp_scope r
  | Globs => targets_glob (fun _ => True) r
  | GlobScanDepth => targets_glob (fun _ => True) r /\ access r = Deny
  | ReadOnlySubpaths => read_only_subpaths r <> []
  | MissingPath => exists s, target r = Scope s
  | ProtectedPaths => False
  end.

Lemma rule_needs_uses g r : rule_needs g r = true <-> rule_uses g r.
Proof.
  unfold rule_needs. rewrite orb_true_iff, existsb_elem.
  unfold rule_uses, mentions, targets_glob. destruct g, (target r) as [s|pat] eqn:E; simpl;
    rewrite ?negb_true_iff, ?bool_decide_eq_true; try naive_solver.
  - split; [done|]. intros _. left. exists s. split; [|done]. unfold rule_selectors. rewrite E. apply list_elem_of_here.
Qed.

Lemma field_requirements_rules g f :
  field g (filesystem_requirements f) = true <->
  (g = ProtectedPaths /\
     (protected_relative_paths (fs_requested f) <> [] \/ protected_relative_paths (fs_ceiling f) <> [])) \/
  exists r, (r ∈ entries (fs_requested f) \/ r ∈ entries (fs_ceiling f)) /\ rule_uses g r.
Proof.
  rewrite field_requirements. unfold policy_needs.
  rewrite !orb_true_iff, !andb_true_iff, !bool_decide_eq_true, !existsb_elem.
  setoid_rewrite rule_needs_uses. naive_solver.
Qed.

(** The filesystem requirements of an effective sandbox are exact: a feature
    is required exactly when a rule of one of the two policies uses it, in its
    target, as a selector or a glob, or in a read-only carve-out, and the
    protected-path requirement is set exactly when a policy protects paths. *)
Theorem filesystem_requirements_exact (f : EffectiveFilesystemPolicy) :
  let q := filesystem_requirements f in
  let some_rule P := exists r, (r ∈ entries (fs_requested f) \/ r ∈ entries (fs_ceiling f)) /\ P r in
  req_mode q = effective_mode (mode (fs_requested f)) (mode (fs_ceiling f)) /\
  (req_scopes q = true <-> some_rule (fun _ => True)) /\
  (req_absolute_scopes q = true <->
     some_rule (fun r => mentions is_absolute_scope r \/ targets_glob (fun pat => pp_absolute pat = true) r)) /\
  (req_workspace_scopes q = true <->
     some_rule (fun r => mentions is_workspace_scope r \/ targets_glob (fun pat => pp_absolute pat = false) r)) /\
  (req_root_scopes q = true <-> some_rule (mentions is_root_scope)) /\
  (req_minimal_scopes q = true <-> some_rule (mentions is_minimal_scope)) /\
  (req_tmpdir_scopes q = true <-> some_rule (mentions is_tmpdir_scope)) /\
  (req_conventional_temporary_scopes q = true <-> some_rule (mentions is_slash_tmp_scope)) /\
  (req_globs q = true <-> some_rule (targets_glob (fun _ => True))) /\
  (req_glob_scan_depth q = true <->
     some_rule (fun r => targets_glob (fun _ => True) r /\ access r = Deny)) /\
  (req_read_only_subpaths q = true <-> some_rule (fun r => read_only_subpaths r <> [])) /\
  (req_missing_path_behavior q = true <-> some_rule (fun r => exists s, target r = Scope s)) /\
  (req_protected_paths q = true <->
     protected_relative_paths (fs_requested f) <> [] \/ protected_relative_paths (fs_ceiling f) <> []).
Proof.
  intros q some_rule. split; [apply req_mode_requirements|].
  assert (forall g, g <> ProtectedPaths -> field g q = true <-> some_rule (rule_uses g)) as Hfield.
  { intros g Hg. unfold q. rewrite field_requirements_rules. unfold some_rule. naive_solver. }
  split_and!; [by apply (Hfield Scopes)|by apply (Hfield AbsoluteScopes)|by apply (Hfield WorkspaceScopes)
    |by apply (Hfield RootScopes)|by apply (Hfield MinimalScopes)|by apply (Hfield TmpdirScopes)
    |by apply (Hfield ConventionalTemporaryScopes)|by apply (Hfield Globs)|by apply (Hfield GlobScanDepth)
    |by apply (Hfield ReadOnlySubpaths)|by apply (Hfield MissingPath)|].
  pose proof (field_requirements_rules ProtectedPaths f) as H. simpl in H. unfold q. rewrite H. naive_solver.
Qed.

End exact.

(** * What the requirements guarantee *)

Section semantics.
Context {U : Unicode} {G : Globset} {W : WildMatch}.

(** Two runtime contexts agree on the symbolic locations the requirements name. *)
Definition agree_on (q : EffectiveFilesystemRequirements) (c c' : PathResolutionContext) : Prop :=
  (req_workspace_scopes q = true -> workspace_roots c = workspace_roots c') /\
  (req_root_scopes q = true -> root_paths c = root_paths c') /\
  (req_minimal_scopes q = true -> minimal_paths c = minimal_paths c') /\
  (req_tmpdir_scopes q = true -> tmpdir c = tmpdir c') /\
  (req_conventional_temporary_scopes q = true -> slash_tmp c = slash_tmp c').

Lemma resolve_agree q c c' s :
  agree_on q c c' -> (forall g, selector_needs g s = true -> field g q = true) ->
  resolve s c = resolve s c'.
Proof.
  intros (Hw & Hr & Hm & Ht & Hs) Hq. destruct s as [[]]; unfold resolve; simpl; [done|..].
  - by rewrite Hw by by apply (Hq WorkspaceScopes).
  - by rewrite Hr by by apply (Hq RootScopes).
  - by rewrite Hm by by apply (Hq MinimalScopes).
  - by rewrite Ht by by apply (Hq TmpdirScopes).
  - by rewrite Hs by by apply (Hq ConventionalTemporaryScopes).
Qed.

Lemma matches_path_agree q c c' r p :
  agree_on q c c' -> (forall g, rule_needs g r = true -> field g q = true) ->
  matches_path r p c = matches_path r p c'.
Proof.
  intros Ha Hq.
  assert (forall s, s ∈ rule_selectors r -> covering s p c = covering s p c') as Hcov.
  { intros s Hs. unfold covering. rewrite (resolve_agree q c c' s Ha); [done|].
    intros g Hg. apply Hq. unfold rule_needs. apply orb_true_iff. left. apply existsb_elem. eauto. }
  unfold matches_path.
  assert (forall m, foldl (read_only_step p c) m (read_only_subpaths r) =
                    foldl (read_only_step p c') m (read_only_subpaths r)) as Hsub.
  { intros m. apply foldl_ext_elem. intros m' s Hs. unfold read_only_step. rewrite Hcov; [done|].
    unfold rule_selectors. set_solver. }
  destruct (target r) as [s|pat] eqn:E.
  - rewrite Hcov by (unfold rule_selectors; rewrite E; apply list_elem_of_here).
    destruct (iter_max (covering s p c')); simpl; by rewrite ?Hsub.
  - assert (pattern_matches pat p c = pattern_matches pat p c') as ->.
    { unfold pattern_matches. destruct (pp_absolute pat) eqn:Hp; [done|].
      assert (workspace_roots c = workspace_roots c') as ->; [|done].
      apply Ha, (Hq WorkspaceScopes). unfold rule_needs. rewrite E, Hp. apply orb_true_r. }
    destruct (pattern_matches pat p c'); simpl; by rewrite ?Hsub.
Qed.

Lemma access_agree q c c' f p :
  agree_on q c c' -> (forall g, policy_needs g f = true -> field g q = true) ->
  access_for_path f p c = access_for_path f p c'.
Proof.
  intros Ha Hq. unfold access_for_path.
  assert (forall best w, match_rules (entries f) p c best w = match_rules (entries f) p c' best w) as ->; [|done].
  assert (forall r, r ∈ entries f -> matches_path r p c = matches_path r p c') as Hr.
  { intros r Hr. apply (matches_path_agree q); [done|]. intros g Hg. apply Hq. unfold policy_needs.
    apply orb_true_iff. right. apply existsb_elem. eauto. }
  clear Hq. induction (entries f) as [|r rs IH]; intros best w; simpl; [done|].
  rewrite Hr by apply list_elem_of_here. destruct (matches_path r p c') as [m|].
  - case_bool_decide; [done|]. apply IH. set_solver.
  - apply IH. set_solver.
Qed.

(** The requirements name every runtime input a decision depends on: two
    contexts of the composition that agree on the symbolic locations the
    requirements name give every path the same decision.  An unrestricted
    requirement means every path may be written, an external one that every
    decision is delegated, and a restricted one without scopes that every path is
    denied. *)
Theorem requirements_cover_decisions (f : EffectiveFilesystemPolicy) (c : EffectivePathContext) :
  owns_context f c = true ->
  let q := filesystem_requirements f in
  (forall c' p, owns_context f c' = true -> agree_on q (context c) (context c') ->
     effective_access_for_path f p c = effective_access_for_path f p c') /\
  (forall p, valid_absolute p ->
     (req_mode q = Unrestricted -> effective_access_for_path f p c = Ok FWrite) /\
     (req_mode q = External -> effective_access_for_path f p c = Ok FExternallyEnforced) /\
     (req_mode q = Restricted -> req_scopes q = false -> effective_access_for_path f p c = Ok FDeny)).
Proof.
  intros Hc q. split.
  - intros c' p Hc' Ha. unfold effective_access_for_path. rewrite Hc, Hc'.
    rewrite (access_agree q (context c) (context c') (fs_requested f)), (access_agree q (context c) (context c') (fs_ceiling f));
      try done; intros g Hg; unfold q; rewrite field_requirements, Hg; auto using orb_true_r.
  - intros p Hp. unfold q. rewrite req_mode_requirements. unfold effective_access_for_path. rewrite Hc. simpl.
    unfold access_for_path. destruct Hp as (-> & -> & ->). simpl.
    split_and!; [by destruct (mode (fs_requested f)), (mode (fs_ceiling f))..|].
    intros Hm Hs. assert (entries (fs_requested f) = [] /\ entries (fs_ceiling f) = []) as [-> ->].
    { change (field Scopes (filesystem_requirements f) = false) in Hs.
      rewrite <- not_true_iff_false, field_requirements_rules in Hs. simpl in Hs.
      split; [destruct (entries (fs_requested f)) as [|r l]|destruct (entries (fs_ceiling f)) as [|r l]];
        try done; destruct Hs; right; exists r; set_solver. }
    by destruct (mode (fs_requested f)), (mode (fs_ceiling f)).
Qed.

(** A layer denies by a glob. *)
Definition denies_by_glob (f : FilesystemPolicy) : Prop :=
  exists r, r ∈ entries f /\ is_glob (target r) = true /\ access r = Deny.

Lemma effective_depth_Some f :
  effective_glob_scan_depth f = Some (glob_scan_max_depth f) /\ denies_by_glob f \/
  effective_glob_scan_depth f = None /\ ~ denies_by_glob f.
Proof.
  unfold effective_glob_scan_depth, denies_by_glob. destruct (existsb _ (entries f)) eqn:E.
  - left. split; [done|]. apply existsb_elem in E as (r & Hr & Hb). bool_inv. eauto.
  - right. split; [done|]. rewrite existsb_elem_false in E. intros (r & Hr & Hg & Ha).
    apply E in Hr. rewrite Hg, Ha in Hr. done.
Qed.

Lemma merged_depth_bounds f :
  (forall layer, layer ∈ [fs_requested f; fs_ceiling f] -> denies_by_glob layer ->
     match effective_glob_scan_max_depth f with
     | None => True
     | Some bound => exists k, glob_scan_max_depth layer = Some k /\ (k <= bound)%N
     end) /\
  (forall bound, effective_glob_scan_max_depth f = Some bound ->
     exists layer, layer ∈ [fs_requested f; fs_ceiling f] /\ denies_by_glob layer /\
       glob_scan_max_depth layer = Some bound).
Proof.
  unfold effective_glob_scan_max_depth. setoid_rewrite elem_of_cons. setoid_rewrite list_elem_of_singleton.
  destruct (effective_depth_Some (fs_requested f)) as [[-> H1]|[-> H1]],
    (effective_depth_Some (fs_ceiling f)) as [[-> H2]|[-> H2]].
  - destruct (glob_scan_max_depth (fs_requested f)) as [k1|] eqn:E1,
      (glob_scan_max_depth (fs_ceiling f)) as [k2|] eqn:E2; simpl; try done. split.
    + intros layer [->| ->] _; eexists; (split; [done|lia]).
    + intros bound [= <-]. destruct (N.max_dec k1 k2) as [-> | ->]; eauto.
  - destruct (glob_scan_max_depth (fs_requested f)) as [k1|] eqn:E1; simpl; [|done]. split.
    + intros layer [->| ->] Hl; [eexists; (split; [done|lia])|done].
    + intros bound [= <-]. eauto.
  - destruct (glob_scan_max_depth (fs_ceiling f)) as [k2|] eqn:E2; simpl; [|done]. split.
    + intros layer [->| ->] Hl; [done|eexists; (split; [done|lia])].
    + intros bound [= <-]. eauto.
  - done.
Qed.

(** Lowering loses nothing: the view holds exactly the two layers whose
    conjunction is the effective decision (a process may read or write a path
    exactly when every layer lets it), its glob scan depth is unbounded or at
    least that of every layer that denies by a glob, and a bound it has is one
    of those layers' own. *)
Theorem lowering_conjunction (f : EffectiveFilesystemPolicy) (c : EffectivePathContext) (p : path)
    (d : FilesystemDecision) :
  effective_access_for_path f p c = Ok d ->
  let view := filesystem_lowering f in
  let all_layers may := forall layer, layer ∈ fs_layers view ->
    exists d', access_for_path layer p (context c) = Ok d' /\ may d' = true in
  (decision_reads d = true <-> all_layers decision_reads) /\
  (decision_writes d = true <-> all_layers decision_writes) /\
  (forall layer, layer ∈ fs_layers view -> denies_by_glob layer ->
     match lowering_glob_scan_max_depth view with
     | None => True
     | Some bound => exists k, glob_scan_max_depth layer = Some k /\ (k <= bound)%N
     end) /\
  (forall bound, lowering_glob_scan_max_depth view = Some bound ->
     exists layer, layer ∈ fs_layers view /\ denies_by_glob layer /\ glob_scan_max_depth layer = Some bound).
Proof.
  intros H view all_layers. unfold effective_access_for_path in H. res_inv.
  assert (forall may, all_layers may <-> may a = true /\ may a0 = true) as Hall.
  { intros may. unfold all_layers, view. simpl. setoid_rewrite elem_of_cons.
    setoid_rewrite list_elem_of_singleton. split.
    - intros Hl. destruct (Hl (fs_requested f)) as (d1 & Hd1 & ?), (Hl (fs_ceiling f)) as (d2 & Hd2 & ?); auto.
      split; congruence.
    - intros [? ?] layer [->| ->]; eauto. }
  rewrite !Hall. destruct (combine_intersects a a0) as (-> & -> & _). rewrite !andb_true_iff.
  split; [done|]. split; [done|]. apply merged_depth_bounds.
Qed.

End semantics.

Section network.
Context {U : Unicode} {G : Globset} {W : WildMatch}.
Implicit Types (n : EffectiveNetworkPolicy) (p : NetworkPolicy).

Lemma decision_mode p domain d :
  decision_for_domain p domain = Ok d ->
  (net_mode p = NetDisabled -> d = NetDeny) /\ (net_mode p = NetExternal -> d = NetExternallyEnforced) /\
  (net_mode p = NetEnabled -> d <> NetExternallyEnforced).
Proof.
  unfold decision_for_domain. intros H. res_inv.
  destruct (net_mode p); [..|destruct (domain_mode p)|]; res_inv; split_and!; try done; by case_bool_decide.
Qed.

Lemma socket_mode p socket d :
  decision_for_unix_socket p socket = Ok d ->
  (net_mode p = NetDisabled -> d = NetDeny) /\ (net_mode p = NetExternal -> d = NetExternallyEnforced) /\
  (net_mode p = NetEnabled -> d <> NetExternallyEnforced).
Proof.
  unfold decision_for_unix_socket. intros H. res_inv.
  destruct (net_mode p); simpl in *; [|destruct (unix_socket_mode p); simpl in *|];
    res_inv; split_and!; try done; by case_bool_decide.
Qed.

Lemma open_domain p domain h :
  net_mode p = NetEnabled -> domain_mode p = DomEnabled -> domains p = [] ->
  normalize_domain domain = Ok h -> decision_for_domain p domain = Ok NetAllow.
Proof.
  intros Hm Hd Hr Hh. unfold decision_for_domain. rewrite Hh. cbn.
  unfold access_for_normalized_domain. by rewrite Hm, Hd, Hr.
Qed.

Lemma open_addresses p h ips :
  local_network_access p = LocalAllow -> ips <> [] ->
  (forall literal ip, parse_ip_literal h = Some literal -> ip ∈ ips -> ip = literal) -> address_ok p h ips.
Proof.
  intros Hl Hne Hlit. unfold address_ok. destruct (parse_ip_literal h); [|by auto]. split; [|by auto].
  intros ip. by apply Hlit.
Qed.

(** A policy that denies all sockets denies each of them. *)
Lemma denies_all_socket p socket d :
  denies_all_unix_sockets p = true -> decision_for_unix_socket p socket = Ok d -> d <> NetAllow.
Proof.
  unfold denies_all_unix_sockets, decision_for_unix_socket. intros Hall H. res_inv.
  destruct (net_mode p); simpl in *; try by res_inv; subst.
  destruct (unix_socket_mode p); simpl in *; try done; [by res_inv|]. res_inv.
  case_bool_decide as Hf; [|done]. exfalso.
  apply fold_access_allow in Hf as ((r & Hr & Hm) & Hacc).
  apply negb_true_iff in Hall. rewrite existsb_elem_false in Hall.
  specialize (Hall r Hr). bool_inv. by destruct Hall; auto.
Qed.

Lemma open_sockets p socket :
  net_mode p = NetEnabled -> unix_socket_mode p = UnixEnabled ->
  (forall r, r ∈ unix_sockets p -> us_access r <> DDeny) -> valid_absolute socket ->
  decision_for_unix_socket p socket = Ok NetAllow.
Proof.
  intros Hm Hu Hno Hs. unfold decision_for_unix_socket.
  rewrite (proj2 (selector_absolute_Ok socket _) (conj Hs eq_refl)). cbn. rewrite Hm, Hu. cbn.
  simpl. rewrite bool_decide_eq_false_2; [done|]. intros (r & Hr & _ & Hd)%fold_access_deny. by apply (Hno r Hr).
Qed.

(** The effective mode is enabled exactly when both sides are. *)
Lemma effective_network_enabled l r :
  effective_network_mode l r = NetEnabled <-> l = NetEnabled /\ r = NetEnabled.
Proof. destruct l, r; naive_solver. Qed.

(** The network requirements of an effective sandbox are sound: a disabled
    requirement means no host and no Unix socket is allowed, an external one that
    every decision is delegated; when networking is enabled, without domain rules
    every well-formed host is allowed, without resolved targets every address
    list of a host that does not contradict its literal is allowed, with
    local-IPC isolation no socket is allowed, and with neither isolation, rules
    nor deny rules every absolute socket path is allowed. *)
Theorem network_requirements_sound (n : EffectiveNetworkPolicy) :
  let q := network_requirements n in
  (nreq_mode q = NetDisabled ->
     (forall domain, effective_decision_for_domain n domain <> Ok NetAllow) /\
     (forall socket, effective_decision_for_unix_socket n socket <> Ok NetAllow)) /\
  (nreq_mode q = NetExternal -> forall domain d,
     effective_decision_for_domain n domain = Ok d -> d = NetExternallyEnforced) /\
  (nreq_mode q = NetEnabled ->
     (nreq_domain_rules q = false -> forall domain h, normalize_domain domain = Ok h ->
        effective_decision_for_domain n domain = Ok NetAllow) /\
     (nreq_resolved_targets q = false -> forall domain h ips,
        normalize_domain domain = Ok h -> normalize_domain h = Ok h -> ips <> [] ->
        (forall literal ip, parse_ip_literal h = Some literal -> ip ∈ ips -> ip = literal) ->
        effective_decision_for_resolved_ips n domain ips = Ok NetAllow) /\
     (nreq_local_ipc_isolation q = true -> forall socket,
        effective_decision_for_unix_socket n socket <> Ok NetAllow) /\
     (nreq_local_ipc_isolation q = false -> nreq_local_ipc_rules q = false ->
      nreq_local_ipc_deny_rules q = false -> forall socket, valid_absolute socket ->
        effective_decision_for_unix_socket n socket = Ok NetAllow)).
Proof.
  intros q. unfold q, effective_decision_for_domain, effective_decision_for_unix_socket,
    effective_decision_for_resolved_ips. clear q. unfold network_requirements.
  cbn [nreq_mode nreq_domain_rules nreq_resolved_targets nreq_local_ipc_isolation nreq_local_ipc_rules
       nreq_local_ipc_deny_rules existsb forallb]. split_and!.
  - intros Hm. split.
    + intros domain [H1 H2]%both_sides_allow. apply decision_mode in H1 as (? & ? & _), H2 as (? & ? & _).
      destruct (net_mode (net_requested n)), (net_mode (net_ceiling n)); naive_solver.
    + intros socket [H1 H2]%both_sides_allow. apply socket_mode in H1 as (? & ? & _), H2 as (? & ? & _).
      destruct (net_mode (net_requested n)), (net_mode (net_ceiling n)); naive_solver.
  - intros Hm domain d (l & r & Hl & Hr & ->)%both_sides_Ok. apply decision_mode in Hl as (_ & Hl & _), Hr as (_ & Hr & _).
    apply combine_network_external. destruct (net_mode (net_requested n)), (net_mode (net_ceiling n)); naive_solver.
  - intros Hm. rewrite (bool_decide_eq_true_2 _ Hm). apply effective_network_enabled in Hm as [Hm1 Hm2].
    assert (forall p, bool_decide (domains p <> []) || bool_decide (domain_mode p <> DomEnabled) = false ->
              domains p = [] /\ domain_mode p = DomEnabled) as Hdom.
    { intros p Hp. bool_inv. split; by apply dec_stable. }
    rewrite !orb_false_r, !andb_true_l. split_and!.
    + intros [H1%Hdom H2%Hdom]%orb_false_iff domain h Hh. apply both_sides_allow.
      split; eapply open_domain; naive_solver.
    + intros [[H1%Hdom H2%Hdom]%orb_false_iff [L1 L2]%orb_false_iff]%orb_false_iff domain h ips Hh Hhh Hne Hlit.
      assert (forall p, bool_decide (local_network_access p = LocalDeny) = false -> local_network_access p = LocalAllow) as Hloc.
      { intros p Hp. bool_inv. by destruct (local_network_access p). }
      apply both_sides_allow. split; apply resolved_ips_allow; exists h;
        (split; [done|]); (split; [eapply open_domain; naive_solver|apply open_addresses; auto]).
    + intros [Hi|Hi]%orb_true_iff socket [H1 H2]%both_sides_allow;
        eapply denies_all_socket; eauto.
    + intros [I1 I2]%orb_false_iff. rewrite I1, I2. simpl. intros [R1 R2]%orb_false_iff Hd socket Hs.
      assert (forall p, denies_all_unix_sockets p = false -> bool_decide (unix_socket_mode p = UnixRestricted) = false ->
                unix_socket_mode p = UnixEnabled) as Hen.
      { intros p Hp Hr. unfold denies_all_unix_sockets in Hp. bool_inv. by destruct (unix_socket_mode p). }
      pose proof (Hen _ I1 R1) as E1. pose proof (Hen _ I2 R2) as E2.
      rewrite E1, E2 in Hd. simpl in Hd. apply orb_false_iff in Hd as [D1 D2].
      rewrite existsb_elem_false in D1, D2. apply both_sides_allow.
      split; apply open_sockets; try done; intros r Hr; [apply D1 in Hr|apply D2 in Hr]; by bool_inv.
Qed.

End network.

(** * Examples *)

Section examples.
#[local] Existing Instance literal_globset.
#[local] Existing Instance ascii_unicode.
#[local] Existing Instance literal_wildmatch.

Lemma requirements_cover_decisions_witness :
  req_mode (filesystem_requirements (es_filesystem network_sandbox)) = Unrestricted /\
  forall c, path_context network_sandbox example_base = Ok c ->
    effective_access_for_path (es_filesystem network_sandbox) "/etc/hosts" c = Ok FWrite.
Proof.
  assert (req_mode (filesystem_requirements (es_filesystem network_sandbox)) = Unrestricted) as Hm by reflexivity.
  split; [exact Hm|]. intros c Hc.
  assert (owns_context (es_filesystem network_sandbox) c = true) as Ho.
  { unfold path_context in Hc. res_inv. reflexivity. }
  exact (proj1 (proj2 (requirements_cover_decisions (es_filesystem network_sandbox) c Ho) "/etc/hosts"
                  ltac:(by vm_compute)) Hm).
Defined.

Lemma lowering_conjunction_witness :
  decision_writes FWrite = true /\
  forall layer, layer ∈ fs_layers (filesystem_lowering (es_filesystem example_sandbox)) ->
    exists d, access_for_path layer "/work/app/main.rs" (context example_context) = Ok d /\ decision_writes d = true.
Proof.
  assert (effective_access_for_path (es_filesystem example_sandbox) "/work/app/main.rs" example_context = Ok FWrite)
    as H by reflexivity.
  split; [reflexivity|].
  exact (proj1 (proj1 (proj2 (lowering_conjunction (es_filesystem example_sandbox) example_context
                               "/work/app/main.rs" FWrite H))) eq_refl).
Defined.

End examples.
