(* ===== verification/EffectiveEnv.v ===== *)
(** [cageforge-policy-compose]: the environment of an effective sandbox
    ([environment.rs]): the requested transformation followed by the ceiling's,
    keeping only names the requested result has. *)

From Stdlib Require Import Ascii String NArith Lia.
From stdpp Require Import base list strings option gmap sets.
From S2P Require Import Prelude Text BTree NativePath Access FsPolicy NetPolicy Policy Environment Compose.

Record EffectiveEnvironmentRequirements := {
  ereq_base : EnvironmentBase;
  ereq_filters : bool;
  ereq_overrides : bool
}.

Definition least_permissive_base (left right : EnvironmentBase) : EnvironmentBase :=
  match left, right with
  | BaseNone, _ | _, BaseNone => BaseNone
  | BaseCore, _ | _, BaseCore => BaseCore
  | BaseAll, BaseAll => BaseAll
  end.

Definition environment_application_error (e : CommandError) : CompositionError :=
  match e with
  | EnvironmentBaseTooPermissive required supplied => EffectiveBaseTooPermissive required supplied
  | other => EnvironmentApplication other
  end.

Section environment.
Context {U : Unicode} {G : Globset} {W : WildMatch}.

Definition effective_base (e : EffectiveEnvironment) : EnvironmentBase :=
  least_permissive_base (spec_base (env_requested e)) (spec_base (env_ceiling e)).

Definition environment_requirements (e : EffectiveEnvironment) : EffectiveEnvironmentRequirements :=
  {| ereq_base := effective_base e;
     ereq_filters := bool_decide (filters (env_requested e) <> []) || bool_decide (filters (env_ceiling e) <> []);
     ereq_overrides := bool_decide (overrides (env_requested e) <> [])
                       || bool_decide (overrides (env_ceiling e) <> []) |}.

Definition requested_matches (e : EffectiveEnvironment) (s : EnvironmentSpec) : bool :=
  env_spec_eqb (env_requested e) s.

(** [EffectiveEnvironment::apply_to]; the [base_is_at_most] of this crate is the
    function of [cageforge-command]. *)
Definition effective_apply_to (e : EffectiveEnvironment) (input : EnvironmentInput) :
  result CompositionError (BTreeMap string string) :=
  reject negb (base_is_at_most (input_base input) (effective_base e))
    with EffectiveBaseTooPermissive (effective_base e) (input_base input) ;;
  requested ← map_err environment_application_error (apply_to (env_requested e) input);
  let requested_names : gset EnvironmentNameKey :=
    list_to_set ((fun entry => name_key entry.1) <$> variables requested) in
  effective ← map_err environment_application_error (apply_to (env_ceiling e) requested);
  Ok (bt_retain (fun name _ => bool_decide (name_key name ∈ requested_names)) (variables effective)).

Lemma least_permissive_at_most b l r :
  base_is_at_most b (least_permissive_base l r) = base_is_at_most b l && base_is_at_most b r.
Proof. by destruct b, l, r. Qed.

(** A name of a map, up to case. *)
Definition has_name (vars : BTreeMap string string) (n : string) : Prop :=
  exists m v, bt_get m vars = Some v /\ name_key m = name_key n.

Lemma requested_names_spec (vars : BTreeMap string string) n :
  bt_wf vars ->
  name_key n ∈ (list_to_set ((fun entry => name_key entry.1) <$> vars) : gset EnvironmentNameKey) <->
  has_name vars n.
Proof.
  intros Hwf. rewrite elem_of_list_to_set, list_elem_of_fmap. unfold has_name. split.
  - intros ([m v] & Hk & Hin). exists m, v. by rewrite bt_get_Some.
  - intros (m & v & Hg & Hk). exists (m, v). split; [done|]. by apply bt_get_Some.
Qed.

Lemma effective_apply_stages e input :
  vars_wf (variables input) ->
  (is_ok (effective_apply_to e input) =
     base_is_at_most (input_base input) (spec_base (env_requested e))
     && base_is_at_most (input_base input) (spec_base (env_ceiling e))) /\
  forall vars, effective_apply_to e input = Ok vars ->
    exists requested capped, apply_to (env_requested e) input = Ok requested /\
      apply_to (env_ceiling e) requested = Ok capped /\ vars_wf (variables requested) /\ bt_wf vars /\
      forall n v, bt_get n vars = Some v <->
        bt_get n (variables capped) = Some v /\ has_name (variables requested) n.
Proof.
  intros Hin. unfold effective_apply_to, effective_base. rewrite least_permissive_at_most.
  destruct (base_is_at_most (input_base input) (spec_base (env_requested e))) eqn:B1; [|done].
  destruct (base_is_at_most (input_base input) (spec_base (env_ceiling e))) eqn:B2; [|done]. simpl.
  destruct (apply_to_stages (env_requested e) input Hin B1) as (requested & -> & Hb & Hw1 & _). cbn.
  rewrite <- Hb in B2.
  destruct (apply_to_stages (env_ceiling e) requested Hw1 B2) as (capped & Hcap & _ & Hw2 & _). rewrite Hcap. cbn.
  split; [done|]. intros vars [= <-]. exists requested, capped.
  destruct Hw2 as [Hw2 _]. do 3 (split; [done|]). split; [by apply bt_wf_retain|].
  intros n v. rewrite bt_get_retain by done.
  destruct (bt_get n (variables capped)) as [w|]; [|naive_solver].
  rewrite <- (requested_names_spec _ n (proj1 Hw1)). case_bool_decide; naive_solver.
Qed.

(** The environment of an effective sandbox: an input with a base broader
    than the requested specification or the ceiling allows is rejected; otherwise
    the environment is produced, and a name has a value exactly when applying the
    ceiling to the requested result gives it that value and the requested result
    already has that name, up to case, so the ceiling never introduces a name. *)
Theorem effective_environment_spec (e : EffectiveEnvironment) (input : EnvironmentInput) :
  vars_wf (variables input) ->
  (is_ok (effective_apply_to e input) =
     base_is_at_most (input_base input) (spec_base (env_requested e))
     && base_is_at_most (input_base input) (spec_base (env_ceiling e))) /\
  forall vars, effective_apply_to e input = Ok vars ->
    exists requested capped, apply_to (env_requested e) input = Ok requested /\
      apply_to (env_ceiling e) requested = Ok capped /\
      forall n v, bt_get n vars = Some v <->
        bt_get n (variables capped) = Some v /\ has_name (variables requested) n.
Proof.
  intros Hin. destruct (effective_apply_stages e input Hin) as [Hok Hspec]. split; [done|].
  intros vars H. destruct (Hspec vars H) as (requested & capped & Hr & Hc & _ & _ & Hget). eauto.
Qed.

(** Overrides do not see the case of a name. *)
Lemma override_for_key s n m : name_key n = name_key m -> override_for s n = override_for s m.
Proof. unfold override_for. by intros ->. Qed.

(** C20. No variable escapes the two specifications: a name either side removes is
    absent; each variable is set by a ceiling override of its name, or is left
    alone by the ceiling and is set by a requested override or inherited from the
    input unchanged; and when a side has include filters, the name (on the
    requested side, a spelling of it) matches one of them. *)
Theorem effective_environment_safe (e : EffectiveEnvironment) (input : EnvironmentInput)
    (vars : BTreeMap string string) :
  spec_wf (env_requested e) -> spec_wf (env_ceiling e) -> vars_wf (variables input) ->
  effective_apply_to e input = Ok vars -> forall n v, bt_get n vars = Some v ->
  override_for (env_requested e) n <> Some Remove /\ override_for (env_ceiling e) n <> Some Remove /\
  (override_for (env_ceiling e) n = Some (Set_ v) \/
   override_for (env_ceiling e) n = None /\
   (override_for (env_requested e) n = Some (Set_ v) \/
    override_for (env_requested e) n = None /\ bt_get n (variables input) = Some v)) /\
  (has_include_filter (env_ceiling e) = true -> some_filter (env_ceiling e) Include n = true) /\
  (has_include_filter (env_requested e) = true ->
     exists m, name_key m = name_key n /\ some_filter (env_requested e) Include m = true).
Proof.
  intros Hr Hc Hin H n v Hn.
  destruct (proj2 (effective_apply_stages e input Hin) vars H) as (requested & capped & Hreq & Hcap & Hw & _ & Hget).
  destruct (proj1 (Hget n v) Hn) as [Hcapped (m & w & Hm & Hkey)].
  destruct (apply_to_safe _ _ _ Hc Hw Hcap n v Hcapped) as (Hval & Hinc & _).
  destruct (apply_to_safe _ _ _ Hr Hin Hreq m w Hm) as (Hval' & Hinc' & _).
  rewrite (override_for_key (env_requested e) m n Hkey) in Hval'.
  split_and!; [destruct Hval' as [->|[-> _]]; done|destruct Hval as [->|[-> _]]; done| |done|eauto].
  destruct Hval as [?|(? & Hn' & _)]; [by left|right]. split; [done|].
  destruct (apply_to_safe _ _ _ Hr Hin Hreq n v Hn') as ([?|(? & ? & _)] & _); auto.
Qed.

End environment.

(** * Examples *)

Section examples.
#[local] Existing Instance literal_globset.
#[local] Existing Instance ascii_unicode.
#[local] Existing Instance literal_wildmatch.

(** The requested side hides a token; the ceiling tries to set two variables. *)
Definition example_requested : EnvironmentSpec := unwrap_or inherit_all (without_var inherit_all "TOKEN").
Definition example_ceiling : EnvironmentSpec :=
  let s := unwrap_or inherit_all (with_var inherit_all "PATH" "/bin") in
  unwrap_or s (with_var s "TOKEN" "leak").

Definition example_effective : EffectiveEnvironment :=
  {| env_requested := example_requested; env_ceiling := example_ceiling |}.

Lemma example_specs_wf : spec_wf example_requested /\ spec_wf example_ceiling.
Proof.
  split; apply spec_built_wf.
  - apply (sb_without inherit_all "TOKEN"); [apply (sb_base BaseAll)|reflexivity].
  - apply (sb_var (unwrap_or inherit_all (with_var inherit_all "PATH" "/bin")) "TOKEN" "leak"); [|reflexivity].
    apply (sb_var inherit_all "PATH" "/bin"); [apply (sb_base BaseAll)|reflexivity].
Qed.

Lemma effective_environment_spec_witness :
  is_ok (effective_apply_to example_effective example_input) = true.
Proof.
  rewrite (proj1 (effective_environment_spec example_effective example_input example_input_wf)). reflexivity.
Defined.

Lemma effective_environment_safe_witness :
  effective_apply_to example_effective example_input = Ok [("PATH", "/bin")] /\
  override_for example_requested "PATH" <> Some Remove.
Proof.
  assert (effective_apply_to example_effective example_input = Ok [("PATH", "/bin")]) as H by reflexivity.
  split; [exact H|].
  exact (proj1 (effective_environment_safe example_effective example_input _ (proj1 example_specs_wf)
                  (proj2 example_specs_wf) example_input_wf H "PATH" "/bin" eq_refl)).
Defined.

End examples.
