(* ===== verification/Backend.v ===== *)
(** [cageforge-backend-api]: capability negotiation and preflight ([lib.rs],
    [model.rs], [requirements.rs], [capability.rs]) and the launch contract
    ([execution.rs]).

    A native backend is a type with an instance of [SandboxBackend]; its value is
    the backend at one moment, so that the capabilities it advertises may differ
    between preparation and use. *)

From Stdlib Require Import Ascii String NArith Lia.
From stdpp Require Import base list strings option gmap sets.
From S2P Require Import Prelude Text BTree NativePath IpAddr Access Selector PathPattern FsPolicy Domain LocalIpc NetPolicy Policy Environment Command Compose Effective Requirements EffectiveEnv.

(** * Capabilities *)

Inductive BackendCapability :=
  | CapCommandExecution | CapWorkingDirectory | CapStdioInherit | CapStdioNull | CapStdioPipe |
  CapTimeoutBackendDefault | CapTimeoutLimit | CapTimeoutDisabled | CapFilesystemRestricted |
  CapFilesystemUnrestricted | CapFilesystemExternal | CapFilesystemScopes |
  CapFilesystemExecutableMapping | CapFilesystemAbsoluteScopes | CapFilesystemWorkspaceScopes |
  CapFilesystemRootScopes | CapFilesystemMinimalScopes | CapFilesystemTmpdirScopes |
  CapFilesystemConventionalTemporaryScopes | CapFilesystemGlobs | CapFilesystemGlobScanDepth |
  CapFilesystemReadOnlySubpaths | CapFilesystemMissingPathBehavior | CapFilesystemProtectedPaths |
  CapNetworkDisabled | CapNetworkEnabled | CapNetworkExternal | CapNetworkDomainRules |
  CapNetworkLocalAddressRestrictions | CapNetworkResolvedTargets | CapNetworkLocalIpcIsolation |
  CapNetworkLocalIpcRules | CapNetworkLocalIpcDenyRules | CapNetworkWindowsNamedPipeRules |
  CapEnvironmentAll | CapEnvironmentCore | CapEnvironmentNone | CapEnvironmentFilters |
  CapEnvironmentOverrides.

(** The capabilities in declaration order, which is their [Ord] *)
Definition all_capabilities : list BackendCapability :=
  [CapCommandExecution; CapWorkingDirectory; CapStdioInherit; CapStdioNull; CapStdioPipe;
   CapTimeoutBackendDefault; CapTimeoutLimit; CapTimeoutDisabled; CapFilesystemRestricted;
   CapFilesystemUnrestricted; CapFilesystemExternal; CapFilesystemScopes;
   CapFilesystemExecutableMapping; CapFilesystemAbsoluteScopes; CapFilesystemWorkspaceScopes;
   CapFilesystemRootScopes; CapFilesystemMinimalScopes; CapFilesystemTmpdirScopes;
   CapFilesystemConventionalTemporaryScopes; CapFilesystemGlobs; CapFilesystemGlobScanDepth;
   CapFilesystemReadOnlySubpaths; CapFilesystemMissingPathBehavior; CapFilesystemProtectedPaths;
   CapNetworkDisabled; CapNetworkEnabled; CapNetworkExternal; CapNetworkDomainRules;
   CapNetworkLocalAddressRestrictions; CapNetworkResolvedTargets; CapNetworkLocalIpcIsolation;
   CapNetworkLocalIpcRules; CapNetworkLocalIpcDenyRules; CapNetworkWindowsNamedPipeRules;
   CapEnvironmentAll; CapEnvironmentCore; CapEnvironmentNone; CapEnvironmentFilters;
   CapEnvironmentOverrides].

Definition capability_index (c : BackendCapability) : N :=
  match c with
  | CapCommandExecution => 0 | CapWorkingDirectory => 1 | CapStdioInherit => 2 | CapStdioNull => 3
  | CapStdioPipe => 4 | CapTimeoutBackendDefault => 5 | CapTimeoutLimit => 6
  | CapTimeoutDisabled => 7 | CapFilesystemRestricted => 8 | CapFilesystemUnrestricted => 9
  | CapFilesystemExternal => 10 | CapFilesystemScopes => 11 | CapFilesystemExecutableMapping => 12
  | CapFilesystemAbsoluteScopes => 13 | CapFilesystemWorkspaceScopes => 14
  | CapFilesystemRootScopes => 15 | CapFilesystemMinimalScopes => 16
  | CapFilesystemTmpdirScopes => 17 | CapFilesystemConventionalTemporaryScopes => 18
  | CapFilesystemGlobs => 19 | CapFilesystemGlobScanDepth => 20
  | CapFilesystemReadOnlySubpaths => 21 | CapFilesystemMissingPathBehavior => 22
  | CapFilesystemProtectedPaths => 23 | CapNetworkDisabled => 24 | CapNetworkEnabled => 25
  | CapNetworkExternal => 26 | CapNetworkDomainRules => 27
  | CapNetworkLocalAddressRestrictions => 28 | CapNetworkResolvedTargets => 29
  | CapNetworkLocalIpcIsolation => 30 | CapNetworkLocalIpcRules => 31
  | CapNetworkLocalIpcDenyRules => 32 | CapNetworkWindowsNamedPipeRules => 33
  | CapEnvironmentAll => 34 | CapEnvironmentCore => 35 | CapEnvironmentNone => 36
  | CapEnvironmentFilters => 37 | CapEnvironmentOverrides => 38
  end%N.


Lemma capability_index_lookup c : all_capabilities !! N.to_nat (capability_index c) = Some c.
Proof. by destruct c. Qed.

#[global] Instance capability_index_inj : Inj (=) (=) capability_index.
Proof.
  intros c d H. pose proof (capability_index_lookup c) as Hc. rewrite H, capability_index_lookup in Hc. congruence.
Qed.
#[global] Instance BackendCapability_eq_dec : EqDecision BackendCapability.
Proof.
  refine (fun c d => cast_if (decide (capability_index c = capability_index d))); [by apply (inj capability_index)|congruence].
Defined.
#[global] Instance ord_capability : Ord BackendCapability :=
  fun c d => cmp (capability_index c) (capability_index d).
#[global] Instance ord_capability_laws : OrdLaws BackendCapability.
Proof. exact (pullback_laws capability_index). Qed.
#[global] Instance ord_capability_leibniz : OrdLeibniz BackendCapability.
Proof. intros c d H. apply (inj capability_index). by apply (cmp_eq (capability_index c)). Qed.

(** A [BTreeSet] is the map to unit. *)
Record BackendCapabilities := { capability_set : BTreeMap BackendCapability () }.

Definition capabilities_new : BackendCapabilities := {| capability_set := [] |}.

Definition with_capability (b : BackendCapabilities) (c : BackendCapability) : BackendCapabilities :=
  {| capability_set := bt_insert c () (capability_set b) |}.

Definition from_capabilities (l : list BackendCapability) : BackendCapabilities :=
  foldl with_capability capabilities_new l.

Definition supports (b : BackendCapabilities) (c : BackendCapability) : bool :=
  bool_decide (is_Some (bt_get c (capability_set b))).

Definition capabilities_iter (b : BackendCapabilities) : list BackendCapability := fst <$> capability_set b.

#[global] Instance BackendCapabilities_eq_dec : EqDecision BackendCapabilities.
Proof. solve_decision. Defined.

(** * Backends and requests *)

Record BackendIdentity := { backend_token : N }.
#[global] Instance BackendIdentity_eq_dec : EqDecision BackendIdentity.
Proof. solve_decision. Defined.

(** [impl PartialEq for BackendIdentity] *)
Definition backend_identity_eqb (a b : BackendIdentity) : bool :=
  arc_ptr_eq (backend_token a) (backend_token b).

Definition BackendIdentity_new (next : N) : BackendIdentity * N :=
  let '(a, next) := arc_new next in ({| backend_token := a |}, next).

(** The [SandboxBackend] trait *)
Class SandboxBackend (B : Type) := {
  backend_identity : B -> BackendIdentity;
  capabilities : B -> BackendCapabilities
}.

Inductive BackendContractError :=
  | UnsupportedCapability (capability : BackendCapability)
  | CommandEnvironmentMismatch
  | InvalidRuntimeContext (source : CompositionError)
  | EnvironmentPreparation (source : CompositionError)
  | FilesystemEvaluation (source : CompositionError)
  | WorkingDirectoryDenied (p : path)
  | WorkingDirectoryResolution (p : path)
  | MissingRuntimeCurrentDirectory
  | NetworkEvaluation (source : CompositionError)
  | BackendIdentityMismatch
  | BackendCapabilitiesMismatch.

Section backend.
Context {U : Unicode} {G : Globset} {W : WildMatch}.

Record BackendRequest := { req_command : CommandRequest; req_sandbox : EffectiveSandbox }.

Record PreparedBackendRequest := {
  prepared_request : BackendRequest;
  prepared_context : EffectivePathContext;
  prepared_directory : path;
  prepared_capabilities : BackendCapabilities;
  prepared_identity : BackendIdentity
}.

(** * Required capabilities *)

(** [if b { required.insert(c) }] *)
Definition require_if (b : bool) (c : BackendCapability) (required : BackendCapabilities) : BackendCapabilities :=
  if b then with_capability required c else required.

Definition stdio_capability (m : StdioMode) : BackendCapability :=
  match m with Inherit => CapStdioInherit | Null => CapStdioNull | Pipe => CapStdioPipe end.

Definition add_command_capabilities (required : BackendCapabilities) (c : CommandRequest) : BackendCapabilities :=
  let required := with_capability required CapWorkingDirectory in
  let required := foldl (fun required m => with_capability required (stdio_capability m)) required
                    [stdin (stdio c); stdout (stdio c); stderr (stdio c)] in
  with_capability required
    match timeout c with
    | BackendDefault => CapTimeoutBackendDefault
    | Limit _ => CapTimeoutLimit
    | TimeoutDisabled => CapTimeoutDisabled
    end.

Definition filesystem_mode_capability (m : FilesystemMode) : BackendCapability :=
  match m with
  | Restricted => CapFilesystemRestricted
  | Unrestricted => CapFilesystemUnrestricted
  | External => CapFilesystemExternal
  end.

Definition add_filesystem_capabilities (required : BackendCapabilities) (e : EffectiveSandbox) : BackendCapabilities :=
  let q := filesystem_requirements (es_filesystem e) in
  let m := req_mode q in
  let required := with_capability required (filesystem_mode_capability m) in
  let limited := bool_decide (is_Some (es_workspace_roots e)) || bool_decide (is_Some (workspace_root_limit e)) in
  let required := require_if limited CapFilesystemScopes required in
  let required := require_if limited CapFilesystemWorkspaceScopes required in
  if bool_decide (m <> Restricted) then required
  else
    let required := require_if (req_glob_scan_depth q) CapFilesystemGlobScanDepth required in
    let required := require_if (req_protected_paths q) CapFilesystemProtectedPaths required in
    let required := require_if (req_scopes q) CapFilesystemScopes required in
    let required := require_if (req_absolute_scopes q) CapFilesystemAbsoluteScopes required in
    let required := require_if (req_workspace_scopes q || bool_decide (is_Some (es_workspace_roots e)))
                      CapFilesystemWorkspaceScopes required in
    let required := require_if (req_root_scopes q) CapFilesystemRootScopes required in
    let required := require_if (req_minimal_scopes q) CapFilesystemMinimalScopes required in
    let required := require_if (req_tmpdir_scopes q) CapFilesystemTmpdirScopes required in
    let required := require_if (req_conventional_temporary_scopes q)
                      CapFilesystemConventionalTemporaryScopes required in
    let required := require_if (req_globs q) CapFilesystemGlobs required in
    let required := require_if (req_read_only_subpaths q) CapFilesystemReadOnlySubpaths required in
    require_if (req_missing_path_behavior q) CapFilesystemMissingPathBehavior required.

Definition network_mode_capability (m : NetworkMode) : BackendCapability :=
  match m with
  | NetDisabled => CapNetworkDisabled
  | NetEnabled => CapNetworkEnabled
  | NetExternal => CapNetworkExternal
  end.

Definition add_network_capabilities (required : BackendCapabilities) (e : EffectiveSandbox) : BackendCapabilities :=
  let q := network_requirements (es_network e) in
  let m := nreq_mode q in
  let required := with_capability required (network_mode_capability m) in
  let required := require_if (nreq_windows_named_pipe_rules q) CapNetworkWindowsNamedPipeRules required in
  if bool_decide (m <> NetEnabled) then required
  else
    let required := require_if (nreq_resolved_targets q) CapNetworkResolvedTargets required in
    let required := require_if (nreq_domain_rules q) CapNetworkDomainRules required in
    let required := require_if (nreq_local_address_restrictions q) CapNetworkLocalAddressRestrictions required in
    let required := require_if (nreq_local_ipc_isolation q) CapNetworkLocalIpcIsolation required in
    let required := require_if (nreq_local_ipc_rules q) CapNetworkLocalIpcRules required in
    require_if (nreq_local_ipc_deny_rules q) CapNetworkLocalIpcDenyRules required.

Definition environment_base_capability (b : EnvironmentBase) : BackendCapability :=
  match b with
  | BaseAll => CapEnvironmentAll
  | BaseCore => CapEnvironmentCore
  | BaseNone => CapEnvironmentNone
  end.

Definition add_environment_capabilities (required : BackendCapabilities) (e : EffectiveSandbox) : BackendCapabilities :=
  let q := environment_requirements (es_environment e) in
  let required := with_capability required (environment_base_capability (ereq_base q)) in
  let required := require_if (ereq_filters q) CapEnvironmentFilters required in
  require_if (ereq_overrides q) CapEnvironmentOverrides required.

(** [BackendRequest::required_capabilities] *)
Definition required_capabilities (r : BackendRequest) : BackendCapabilities :=
  let required := with_capability capabilities_new CapCommandExecution in
  let required := add_command_capabilities required (req_command r) in
  let required := add_filesystem_capabilities required (req_sandbox r) in
  let required := add_network_capabilities required (req_sandbox r) in
  add_environment_capabilities required (req_sandbox r).

(** * Preflight *)

(** The working directory of [BackendRequest::validate] *)
Definition resolve_working_directory (directory current : option path) : result BackendContractError path :=
  match directory with
  | Some p =>
      if is_absolute p then Ok (normalize_lexical_path p)
      else
        current ← ok_or (WorkingDirectoryResolution p) current;
        Ok (normalize_lexical_path (path_join current p))
  | None => ok_or MissingRuntimeCurrentDirectory (normalize_lexical_path <$> current)
  end.

(** [BackendRequest::validate] *)
Definition backend_validate (r : BackendRequest) (caps : BackendCapabilities) (i : BackendIdentity)
    (base : PathResolutionContext) : result BackendContractError PreparedBackendRequest :=
  reject negb (requested_matches (es_environment (req_sandbox r)) (environment (req_command r)))
    with CommandEnvironmentMismatch ;;
  _ ← foldM (fun _ c => reject negb (supports caps c) with UnsupportedCapability c ;; Ok ()) ()
        (capabilities_iter (required_capabilities r));
  path_context ← map_err InvalidRuntimeContext (path_context (req_sandbox r) base);
  reject bool_decide (executable_roots (context path_context) <> [])
         && negb (supports caps CapFilesystemExecutableMapping)
    with UnsupportedCapability CapFilesystemExecutableMapping ;;
  directory ← resolve_working_directory (working_directory (req_command r)) (current_directory base);
  decision ← map_err FilesystemEvaluation
               (effective_access_for_path (es_filesystem (req_sandbox r)) directory path_context);
  match decision with
  | FDeny => Err (WorkingDirectoryDenied directory)
  | FRead | FWrite | FExternallyEnforced =>
      Ok {| prepared_request := r; prepared_context := path_context; prepared_directory := directory;
            prepared_capabilities := caps; prepared_identity := i |}
  end.

Context {B : Type} {SB : SandboxBackend B}.

(** [BackendRequest::prepare_for] *)
Definition prepare_for (r : BackendRequest) (b : B) (base : PathResolutionContext) :
  result BackendContractError PreparedBackendRequest :=
  backend_validate r (capabilities b) (backend_identity b) base.

(** * Accessors of a prepared request *)

Definition ensure_backend (p : PreparedBackendRequest) (b : B) : result BackendContractError unit :=
  if negb (backend_identity_eqb (prepared_identity p) (backend_identity b)) then Err BackendIdentityMismatch
  else if bool_decide (prepared_capabilities p <> capabilities b) then Err BackendCapabilitiesMismatch
  else Ok ().

Definition prepared_command_spec (p : PreparedBackendRequest) (b : B) : result BackendContractError CommandSpec :=
  _ ← ensure_backend p b; Ok (command (req_command (prepared_request p))).

Definition prepared_sandbox (p : PreparedBackendRequest) (b : B) : result BackendContractError EffectiveSandbox :=
  _ ← ensure_backend p b; Ok (req_sandbox (prepared_request p)).

Definition prepared_filesystem_lowering (p : PreparedBackendRequest) (b : B) :
  result BackendContractError EffectiveFilesystemLowering :=
  _ ← ensure_backend p b; Ok (filesystem_lowering (es_filesystem (req_sandbox (prepared_request p)))).

Definition prepared_network_lowering (p : PreparedBackendRequest) (b : B) :
  result BackendContractError EffectiveNetworkLowering :=
  _ ← ensure_backend p b; Ok (network_lowering (es_network (req_sandbox (prepared_request p)))).

Definition prepared_path_context (p : PreparedBackendRequest) (b : B) :
  result BackendContractError EffectivePathContext :=
  _ ← ensure_backend p b; Ok (prepared_context p).

Definition prepared_working_directory (p : PreparedBackendRequest) (b : B) : result BackendContractError path :=
  _ ← ensure_backend p b; Ok (prepared_directory p).

Definition prepared_stdio (p : PreparedBackendRequest) (b : B) : result BackendContractError StdioSpec :=
  _ ← ensure_backend p b; Ok (stdio (req_command (prepared_request p))).

Definition prepared_timeout_policy (p : PreparedBackendRequest) (b : B) :
  result BackendContractError TimeoutPolicy :=
  _ ← ensure_backend p b; Ok (timeout (req_command (prepared_request p))).

Definition prepared_apply_environment (p : PreparedBackendRequest) (b : B) (input : EnvironmentInput) :
  result BackendContractError (BTreeMap string string) :=
  _ ← ensure_backend p b;
  map_err EnvironmentPreparation (effective_apply_to (es_environment (req_sandbox (prepared_request p))) input).

Definition prepared_access_for_path (p : PreparedBackendRequest) (b : B) (q : path) :
  result BackendContractError FilesystemDecision :=
  _ ← ensure_backend p b;
  map_err FilesystemEvaluation
    (effective_access_for_path (es_filesystem (req_sandbox (prepared_request p))) q (prepared_context p)).

Definition prepared_access_for (p : PreparedBackendRequest) (b : B) (s : PathSelector) :
  result BackendContractError FilesystemDecision :=
  _ ← ensure_backend p b;
  map_err FilesystemEvaluation
    (effective_access_for (es_filesystem (req_sandbox (prepared_request p))) s (prepared_context p)).

Definition prepared_decision_for_resolved_ips (p : PreparedBackendRequest) (b : B) (domain : string)
    (ips : list IpAddr) : result BackendContractError NetworkDecision :=
  _ ← ensure_backend p b;
  map_err NetworkEvaluation
    (effective_decision_for_resolved_ips (es_network (req_sandbox (prepared_request p))) domain ips).

Definition prepared_authorize_connection (p : PreparedBackendRequest) (b : B) (t : ResolvedNetworkTarget)
    (connected : SocketAddr) : result BackendContractError ConnectionAuthorization :=
  _ ← ensure_backend p b;
  map_err NetworkEvaluation
    (effective_authorize_connection (es_network (req_sandbox (prepared_request p))) t connected).

Definition prepared_decision_for_unix_socket (p : PreparedBackendRequest) (b : B) (socket : path) :
  result BackendContractError NetworkDecision :=
  _ ← ensure_backend p b;
  map_err NetworkEvaluation
    (effective_decision_for_unix_socket (es_network (req_sandbox (prepared_request p))) socket).

End backend.

(** * Capability sets *)

Lemma supports_with b c d : supports (with_capability b c) d = bool_decide (c = d) || supports b d.
Proof.
  unfold supports, with_capability. simpl. destruct (decide (c = d)) as [->|Hne].
  - by rewrite bt_get_insert, !bool_decide_eq_true_2 by eauto.
  - rewrite (bool_decide_eq_false_2 (c = d)) by done. rewrite bt_get_insert_ne; [done|].
    intros Heq%cmp_eq. congruence.
Qed.

Lemma supports_require b c required d :
  supports (require_if b c required) d = (b && bool_decide (c = d)) || supports required d.
Proof. destruct b; simpl; [apply supports_with|done]. Qed.

Lemma supports_with_same b c : supports (with_capability b c) c = true.
Proof. rewrite supports_with. by rewrite bool_decide_eq_true_2. Qed.

Lemma supports_with_mono b c d : supports b d = true -> supports (with_capability b c) d = true.
Proof. intros H. rewrite supports_with, H. apply orb_true_r. Qed.

Lemma supports_require_same x b c : x = true -> supports (require_if x c b) c = true.
Proof. intros ->. apply supports_with_same. Qed.

Lemma supports_require_mono x b c d : supports b d = true -> supports (require_if x c b) d = true.
Proof. destruct x; [apply supports_with_mono|done]. Qed.

(** Finds the insertion of a capability in a sequence of insertions. *)
Ltac supports_solve :=
  repeat first
    [ apply supports_with_same | apply supports_require_same; by apply orb_true_iff; left | apply supports_require_same; done
    | apply supports_with_mono | apply supports_require_mono ].

Lemma capabilities_wf_with b c : bt_wf (capability_set b) -> bt_wf (capability_set (with_capability b c)).
Proof. apply bt_wf_insert. Qed.

Lemma capabilities_wf_require x c required :
  bt_wf (capability_set required) -> bt_wf (capability_set (require_if x c required)).
Proof. destruct x; [apply capabilities_wf_with|done]. Qed.

#[export] Hint Resolve capabilities_wf_with capabilities_wf_require : cage.

Lemma iter_supports b c : bt_wf (capability_set b) -> c ∈ capabilities_iter b <-> supports b c = true.
Proof.
  intros Hwf. unfold capabilities_iter, supports. rewrite bool_decide_eq_true, list_elem_of_fmap. split.
  - intros ([d []] & -> & Hin). exists (). by apply bt_get_Some.
  - intros [[] H]. exists (c, ()). split; [done|]. by apply bt_get_Some.
Qed.

Section preflight.
Context {U : Unicode} {G : Globset} {W : WildMatch}.
Implicit Types (r : BackendRequest) (e : EffectiveSandbox).

Lemma add_filesystem_wf required e :
  bt_wf (capability_set required) -> bt_wf (capability_set (add_filesystem_capabilities required e)).
Proof. intros H. unfold add_filesystem_capabilities. case_bool_decide; auto 20 with cage. Qed.

Lemma add_network_wf required e :
  bt_wf (capability_set required) -> bt_wf (capability_set (add_network_capabilities required e)).
Proof. intros H. unfold add_network_capabilities. case_bool_decide; auto 20 with cage. Qed.

Lemma required_capabilities_wf r : bt_wf (capability_set (required_capabilities r)).
Proof.
  unfold required_capabilities, add_environment_capabilities, add_command_capabilities. simpl.
  do 3 first [apply capabilities_wf_require|apply capabilities_wf_with].
  apply add_network_wf, add_filesystem_wf. repeat apply capabilities_wf_with. constructor.
Qed.

(** A set of capabilities covers another. *)
Definition covers (caps required : BackendCapabilities) : Prop :=
  forall c, supports required c = true -> supports caps c = true.

Lemma capability_loop caps r :
  foldM (fun _ c => reject negb (supports caps c) with UnsupportedCapability c ;; Ok ()) ()
    (capabilities_iter (required_capabilities r)) = Ok () <-> covers caps (required_capabilities r).
Proof.
  pose proof (fun c => iter_supports _ c (required_capabilities_wf r)) as Hiter. split.
  - intros H c Hc%Hiter. apply (foldM_unit_inv _ _ H) in Hc. cbn in Hc. by destruct (supports caps c).
  - intros H. apply foldM_unit. intros c Hc%Hiter. by rewrite (H c Hc).
Qed.

(** * Working directories *)

Lemma valid_absolute_normalize p : valid_absolute p -> valid_absolute (normalize_lexical_path p).
Proof.
  intros (Ha & Hn & Ht). split_and!.
  - by rewrite is_absolute_normalize.
  - by apply normalize_contains.
  - rewrite contains_parent_traversal_lexical, lexical_components_normalize.
    by rewrite <- contains_parent_traversal_lexical.
Qed.

Lemma resolve_directory_valid c base dir :
  request_wf c -> context_wf base ->
  resolve_working_directory (working_directory c) (current_directory base) = Ok dir -> valid_absolute dir.
Proof.
  intros (_ & Hd & _) (_ & _ & _ & _ & _ & _ & Hc) H. unfold resolve_working_directory in H.
  destruct (working_directory c) as [p|].
  - destruct (Hd p eq_refl) as (_ & Hn & Ht). destruct (is_absolute p) eqn:Ha; res_inv.
    + apply valid_absolute_normalize. done.
    + rewrite H0 in Hc. by apply valid_absolute_normalize, valid_absolute_join.
  - res_inv. destruct (current_directory base) as [q|]; [|done]. simpl in *. simplify_eq.
    by apply valid_absolute_normalize.
Qed.

Context {B : Type} {SB : SandboxBackend B}.

(** What a prepared request went through. *)
Lemma prepare_for_Ok r (b : B) base p :
  prepare_for r b base = Ok p <->
  requested_matches (es_environment (req_sandbox r)) (environment (req_command r)) = true /\
  covers (capabilities b) (required_capabilities r) /\
  exists c dir d, path_context (req_sandbox r) base = Ok c /\
    (executable_roots (context c) <> [] -> supports (capabilities b) CapFilesystemExecutableMapping = true) /\
    resolve_working_directory (working_directory (req_command r)) (current_directory base) = Ok dir /\
    effective_access_for_path (es_filesystem (req_sandbox r)) dir c = Ok d /\ d <> FDeny /\
    p = {| prepared_request := r; prepared_context := c; prepared_directory := dir;
           prepared_capabilities := capabilities b; prepared_identity := backend_identity b |}.
Proof.
  unfold prepare_for, backend_validate. split.
  - intros H. res_inv. destruct a. apply capability_loop in H0. bool_inv. split_and!; [done|done|].
    do 3 eexists. split_and!; try done; [..|by destruct a2; res_inv].
    + intros Hne. apply andb_false_iff in G1 as [G1|G1]; bool_inv; [by destruct G1|done].
    + by intros ->.
  - intros (He & Hc & c & dir & d & Hctx & Hx & Hdir & Hd & Hne & ->). rewrite He. simpl.
    rewrite (proj2 (capability_loop _ _) Hc). cbn. rewrite Hctx. cbn.
    assert (bool_decide (executable_roots (context c) <> []) &&
            negb (supports (capabilities b) CapFilesystemExecutableMapping) = false) as ->.
    { case_bool_decide as Hr; [by rewrite Hx|done]. }
    rewrite Hdir. cbn. rewrite Hd. cbn. by destruct d.
Qed.

(** C15. A request that passes preflight is safe to lower: the command was composed
    with the environment it carries, the backend advertises every capability the
    request needs (and executable mapping when the context has executable roots),
    the prepared context belongs to the composition, and the working directory is
    absolute, traversal-free and not denied by the effective policy.  The handoff
    records the backend that was checked. *)
Theorem preflight_sound (r : BackendRequest) (b : B) (base : PathResolutionContext)
    (p : PreparedBackendRequest) :
  request_built (req_command r) -> context_built base -> prepare_for r b base = Ok p ->
  prepared_request p = r /\ prepared_identity p = backend_identity b /\
  prepared_capabilities p = capabilities b /\
  requested_matches (es_environment (req_sandbox r)) (environment (req_command r)) = true /\
  (forall c, supports (required_capabilities r) c = true -> supports (capabilities b) c = true) /\
  (executable_roots (context (prepared_context p)) <> [] ->
     supports (capabilities b) CapFilesystemExecutableMapping = true) /\
  owns_context (es_filesystem (req_sandbox r)) (prepared_context p) = true /\
  valid_absolute (prepared_directory p) /\
  exists d, effective_access_for_path (es_filesystem (req_sandbox r)) (prepared_directory p) (prepared_context p)
    = Ok d /\ d <> FDeny.
Proof.
  intros Hc%request_built_wf Hb%context_built_wf (He & Hcov & c & dir & d & Hctx & Hx & Hdir & Hd & Hne & ->)%prepare_for_Ok.
  simpl. do 6 (split; [done|]). split; [|split; [by eapply resolve_directory_valid|eauto]].
  unfold path_context in Hctx. res_inv. apply N.eqb_refl.
Qed.

(** Preflight fails for a reason the caller can act on: for a composed
    sandbox, a command and a runtime context that can be built, the only errors
    are an environment the sandbox was not composed with, a capability the
    backend does not advertise, a missing current directory, and a working
    directory the effective policy denies; each error is reported only when it
    is the case. *)
Theorem preflight_errors (next n : N) (cr : CompositionRequest) (r : BackendRequest) (b : B)
    (base : PathResolutionContext) (err : BackendContractError) :
  compose next cr = Ok (req_sandbox r, n) -> request_built (req_command r) -> context_built base ->
  prepare_for r b base = Err err ->
  match err with
  | CommandEnvironmentMismatch =>
      requested_matches (es_environment (req_sandbox r)) (environment (req_command r)) = false
  | UnsupportedCapability c =>
      supports (capabilities b) c = false /\
      (supports (required_capabilities r) c = true \/
       c = CapFilesystemExecutableMapping /\ executable_roots base <> [])
  | WorkingDirectoryResolution p =>
      working_directory (req_command r) = Some p /\ is_absolute p = false /\ current_directory base = None
  | MissingRuntimeCurrentDirectory =>
      working_directory (req_command r) = None /\ current_directory base = None
  | WorkingDirectoryDenied dir =>
      exists c, path_context (req_sandbox r) base = Ok c /\
        effective_access_for_path (es_filesystem (req_sandbox r)) dir c = Ok FDeny
  | _ => False
  end.
Proof.
  intros (requested & outer & w & _ & _ & _ & _ & Hw & Hsand & _)%compose_Ok Hc%request_built_wf Hb%context_built_wf H.
  apply compose_roots_Ok in Hw as (Hsel & _ & _).
  destruct (path_context_Ok (req_sandbox r) base) as (c & Hctx & Hown & _ & _ & _ & Hexe & _);
    [done|rewrite Hsand; by eapply normalize_option_spec|].
  unfold prepare_for, backend_validate in H.
  destruct (requested_matches _ _) eqn:Henv; simpl in H; [|by injection H as <-].
  apply bind_Err in H as [H|([] & _ & H)].
  { apply foldM_Err in H as (c' & Hin & [] & H). rewrite (iter_supports _ _ (required_capabilities_wf r)) in Hin.
    destruct (supports (capabilities b) c') eqn:Hs; simpl in H; [done|]. injection H as <-. auto. }
  rewrite Hctx in H. cbn in H. rewrite Hexe in H.
  destruct (_ && _) eqn:Hx; [injection H as <-; bool_inv; auto|].
  apply bind_Err in H as [H|(dir & Hdir & H)].
  { unfold resolve_working_directory in H. destruct (working_directory (req_command r)) as [p|].
    - destruct (is_absolute p) eqn:Ha; [done|]. destruct (current_directory base); [done|]. by injection H as <-.
    - destruct (current_directory base); [done|]. by injection H as <-. }
  assert (owns_context (es_filesystem (req_sandbox r)) c = true) as Ho.
  { unfold owns_context, belongs_to, identity_matches, arc_ptr_eq. rewrite Hown. apply N.eqb_refl. }
  destruct (effective_path_both _ dir c Ho (resolve_directory_valid _ _ _ Hc Hb Hdir)) as (l & k & _ & _ & Heff).
  rewrite Heff in H. cbn in H. destruct (combine_filesystem_decisions l k) eqn:Ed; try done.
  injection H as <-. eauto.
Qed.

(** * Features and capabilities *)

Lemma supports_network_mono required e c :
  supports required c = true -> supports (add_network_capabilities required e) c = true.
Proof.
  intros H. unfold add_network_capabilities. case_bool_decide;
    rewrite ?supports_require, ?supports_with, H; by rewrite ?orb_true_r.
Qed.

Lemma supports_environment_mono required e c :
  supports required c = true -> supports (add_environment_capabilities required e) c = true.
Proof.
  intros H. unfold add_environment_capabilities.
  rewrite ?supports_require, ?supports_with, H; by rewrite ?orb_true_r.
Qed.

Lemma supports_filesystem_mono required e c :
  supports required c = true -> supports (add_filesystem_capabilities required e) c = true.
Proof.
  intros H. unfold add_filesystem_capabilities. case_bool_decide;
    rewrite ?supports_require, ?supports_with, H; by rewrite ?orb_true_r.
Qed.

(** The capability a filesystem feature needs. *)
Definition field_capability (g : RequirementField) : BackendCapability :=
  match g with
  | Scopes => CapFilesystemScopes
  | AbsoluteScopes => CapFilesystemAbsoluteScopes
  | WorkspaceScopes => CapFilesystemWorkspaceScopes
  | RootScopes => CapFilesystemRootScopes
  | MinimalScopes => CapFilesystemMinimalScopes
  | TmpdirScopes => CapFilesystemTmpdirScopes
  | ConventionalTemporaryScopes => CapFilesystemConventionalTemporaryScopes
  | Globs => CapFilesystemGlobs
  | GlobScanDepth => CapFilesystemGlobScanDepth
  | ReadOnlySubpaths => CapFilesystemReadOnlySubpaths
  | MissingPath => CapFilesystemMissingPathBehavior
  | ProtectedPaths => CapFilesystemProtectedPaths
  end.

Lemma supports_field required e g :
  req_mode (filesystem_requirements (es_filesystem e)) = Restricted ->
  field g (filesystem_requirements (es_filesystem e)) = true ->
  supports (add_filesystem_capabilities required e) (field_capability g) = true.
Proof.
  intros Hm Hg. unfold add_filesystem_capabilities. rewrite Hm. cbn zeta.
  rewrite bool_decide_eq_false_2 by (intros Hn; by apply Hn).
  destruct g; simpl in Hg; cbn [field_capability]; by supports_solve.
Qed.

(** The stages of [required_capabilities]: what one adds, the later ones keep. *)
Lemma required_by_filesystem r c :
  supports (add_filesystem_capabilities
    (add_command_capabilities (with_capability capabilities_new CapCommandExecution) (req_command r))
    (req_sandbox r)) c = true -> supports (required_capabilities r) c = true.
Proof. intros H. by apply supports_environment_mono, supports_network_mono. Qed.

Lemma required_by_command r c :
  supports (add_command_capabilities (with_capability capabilities_new CapCommandExecution) (req_command r)) c = true ->
  supports (required_capabilities r) c = true.
Proof. intros H. by apply required_by_filesystem, supports_filesystem_mono. Qed.

Lemma required_command r :
  let required := required_capabilities r in
  let c := req_command r in
  supports required CapCommandExecution = true /\ supports required CapWorkingDirectory = true /\
  supports required (stdio_capability (stdin (stdio c))) = true /\
  supports required (stdio_capability (stdout (stdio c))) = true /\
  supports required (stdio_capability (stderr (stdio c))) = true.
Proof.
  intros required c. split_and!; apply required_by_command; unfold add_command_capabilities; cbn [foldl];
    by supports_solve.
Qed.

Lemma required_network r :
  let required := required_capabilities r in
  let q := network_requirements (es_network (req_sandbox r)) in
  supports required (network_mode_capability (nreq_mode q)) = true /\
  (nreq_windows_named_pipe_rules q = true -> supports required CapNetworkWindowsNamedPipeRules = true) /\
  (nreq_mode q = NetEnabled ->
     (nreq_resolved_targets q = true -> supports required CapNetworkResolvedTargets = true) /\
     (nreq_domain_rules q = true -> supports required CapNetworkDomainRules = true) /\
     (nreq_local_address_restrictions q = true -> supports required CapNetworkLocalAddressRestrictions = true) /\
     (nreq_local_ipc_isolation q = true -> supports required CapNetworkLocalIpcIsolation = true) /\
     (nreq_local_ipc_rules q = true -> supports required CapNetworkLocalIpcRules = true) /\
     (nreq_local_ipc_deny_rules q = true -> supports required CapNetworkLocalIpcDenyRules = true)).
Proof.
  intros required q. unfold required, required_capabilities.
  split_and!; [|intros Hp|intros Hm; split_and!; intros Hp]; apply supports_environment_mono;
    unfold add_network_capabilities; fold q; cbn zeta; try case_bool_decide; try (by supports_solve); congruence.
Qed.

Lemma required_environment r :
  let required := required_capabilities r in
  let q := environment_requirements (es_environment (req_sandbox r)) in
  supports required (environment_base_capability (ereq_base q)) = true /\
  (ereq_filters q = true -> supports required CapEnvironmentFilters = true) /\
  (ereq_overrides q = true -> supports required CapEnvironmentOverrides = true).
Proof.
  intros required q. unfold required, required_capabilities, add_environment_capabilities. fold q.
  split_and!; [|intros Hq..]; by supports_solve.
Qed.

(** Nothing reaches lowering without a capability for it: for a request that
    passed preflight, the backend advertises command execution, working
    directories and each standard-stream mode, the capability of the effective
    filesystem mode and, under a restricted one, of every feature a rule of
    either layer uses and of protected paths, the capability of the effective
    network mode and of every network requirement, and those of the effective
    environment base, filters and overrides. *)
Theorem prepared_capabilities_cover (r : BackendRequest) (b : B) (base : PathResolutionContext)
    (p : PreparedBackendRequest) :
  prepare_for r b base = Ok p ->
  let has c := supports (capabilities b) c = true in
  let e := req_sandbox r in
  let layers := fs_layers (filesystem_lowering (es_filesystem e)) in
  let q := network_requirements (es_network e) in
  (has CapCommandExecution /\ has CapWorkingDirectory /\
   Forall (fun m => has (stdio_capability m))
     [stdin (stdio (req_command r)); stdout (stdio (req_command r)); stderr (stdio (req_command r))]) /\
  (req_mode (filesystem_requirements (es_filesystem e)) = Restricted ->
     (forall layer rule g, layer ∈ layers -> rule ∈ entries layer -> rule_uses g rule -> has (field_capability g)) /\
     (forall layer, layer ∈ layers -> protected_relative_paths layer <> [] -> has CapFilesystemProtectedPaths)) /\
  (has (network_mode_capability (nreq_mode q)) /\
   (nreq_windows_named_pipe_rules q = true -> has CapNetworkWindowsNamedPipeRules) /\
   (nreq_mode q = NetEnabled ->
      (nreq_resolved_targets q = true -> has CapNetworkResolvedTargets) /\
      (nreq_domain_rules q = true -> has CapNetworkDomainRules) /\
      (nreq_local_address_restrictions q = true -> has CapNetworkLocalAddressRestrictions) /\
      (nreq_local_ipc_isolation q = true -> has CapNetworkLocalIpcIsolation) /\
      (nreq_local_ipc_rules q = true -> has CapNetworkLocalIpcRules) /\
      (nreq_local_ipc_deny_rules q = true -> has CapNetworkLocalIpcDenyRules))) /\
  (has (environment_base_capability (effective_base (es_environment e))) /\
   (ereq_filters (environment_requirements (es_environment e)) = true -> has CapEnvironmentFilters) /\
   (ereq_overrides (environment_requirements (es_environment e)) = true -> has CapEnvironmentOverrides)).
Proof.
  intros (_ & Hcov & _)%prepare_for_Ok has e layers q.
  assert (forall c, supports (required_capabilities r) c = true -> has c) as Hhas by exact Hcov.
  assert (forall g, req_mode (filesystem_requirements (es_filesystem e)) = Restricted ->
    field g (filesystem_requirements (es_filesystem e)) = true -> has (field_capability g)) as Hfield.
  { intros g Hm Hg. apply Hhas, required_by_filesystem. by apply supports_field. }
  split; [|split; [intros Hm; split|split]].
  - destruct (required_command r) as (? & ? & ? & ? & ?). auto 10.
  - intros layer rule g Hl Hr Hu. apply Hfield; [done|]. apply field_requirements_rules. right. exists rule.
    split; [|done]. unfold layers in Hl. simpl in Hl. set_solver.
  - intros layer Hl Hp. apply (Hfield ProtectedPaths Hm). apply field_requirements_rules. left. split; [done|].
    unfold layers in Hl. simpl in Hl. set_solver.
  - destruct (required_network r) as (? & ? & Hn). split; [auto|]. split; [auto|].
    intros Hm. destruct (Hn Hm) as (? & ? & ? & ? & ? & ?). auto 10.
  - destruct (required_environment r) as (? & ? & ?). auto.
Qed.

End preflight.

(** * Bound accessors *)

Section accessors.
Context {U : Unicode} {G : Globset} {W : WildMatch} {B : Type} {SB : SandboxBackend B}.

Lemma ensure_backend_spec p (b : B) :
  ensure_backend p b =
    if decide (prepared_identity p = backend_identity b) then
      if decide (prepared_capabilities p = capabilities b) then Ok () else Err BackendCapabilitiesMismatch
    else Err BackendIdentityMismatch.
Proof.
  unfold ensure_backend, backend_identity_eqb, arc_ptr_eq.
  destruct (prepared_identity p) as [i], (backend_identity b) as [j] eqn:E. simpl.
  destruct (N.eqb_spec i j) as [->|Hne]; simpl.
  - rewrite decide_True by done. case_bool_decide; case_decide; done.
  - rewrite decide_False by congruence. done.
Qed.

Lemma ensure_same p (b : B) :
  prepared_identity p = backend_identity b -> prepared_capabilities p = capabilities b -> ensure_backend p b = Ok ().
Proof. intros Hi Hc. rewrite ensure_backend_spec. by rewrite !decide_True. Qed.

(** Every query of a prepared request, with the result it guards. *)
Inductive prepared_query (p : PreparedBackendRequest) (b : B) : forall A, result BackendContractError A -> result BackendContractError A -> Prop :=
  | q_command : prepared_query p b _ (prepared_command_spec p b) (Ok (command (req_command (prepared_request p))))
  | q_sandbox : prepared_query p b _ (prepared_sandbox p b) (Ok (req_sandbox (prepared_request p)))
  | q_filesystem : prepared_query p b _ (prepared_filesystem_lowering p b)
      (Ok (filesystem_lowering (es_filesystem (req_sandbox (prepared_request p)))))
  | q_network : prepared_query p b _ (prepared_network_lowering p b)
      (Ok (network_lowering (es_network (req_sandbox (prepared_request p)))))
  | q_context : prepared_query p b _ (prepared_path_context p b) (Ok (prepared_context p))
  | q_directory : prepared_query p b _ (prepared_working_directory p b) (Ok (prepared_directory p))
  | q_stdio : prepared_query p b _ (prepared_stdio p b) (Ok (stdio (req_command (prepared_request p))))
  | q_timeout : prepared_query p b _ (prepared_timeout_policy p b) (Ok (timeout (req_command (prepared_request p))))
  | q_environment input : prepared_query p b _ (prepared_apply_environment p b input)
      (map_err EnvironmentPreparation (effective_apply_to (es_environment (req_sandbox (prepared_request p))) input))
  | q_path q : prepared_query p b _ (prepared_access_for_path p b q)
      (map_err FilesystemEvaluation
         (effective_access_for_path (es_filesystem (req_sandbox (prepared_request p))) q (prepared_context p)))
  | q_selector s : prepared_query p b _ (prepared_access_for p b s)
      (map_err FilesystemEvaluation
         (effective_access_for (es_filesystem (req_sandbox (prepared_request p))) s (prepared_context p)))
  | q_resolved domain ips : prepared_query p b _ (prepared_decision_for_resolved_ips p b domain ips)
      (map_err NetworkEvaluation
         (effective_decision_for_resolved_ips (es_network (req_sandbox (prepared_request p))) domain ips))
  | q_connection t a : prepared_query p b _ (prepared_authorize_connection p b t a)
      (map_err NetworkEvaluation (effective_authorize_connection (es_network (req_sandbox (prepared_request p))) t a))
  | q_socket s : prepared_query p b _ (prepared_decision_for_unix_socket p b s)
      (map_err NetworkEvaluation (effective_decision_for_unix_socket (es_network (req_sandbox (prepared_request p))) s)).

(** A prepared request answers only to the backend that was checked: every
    query of it reports an identity mismatch to any other backend instance, a
    capability mismatch when that backend's capabilities have changed since
    preparation, and otherwise the guarded answer of the prepared request. *)
Theorem prepared_accessors_bound (p : PreparedBackendRequest) (b : B) (A : Type)
    (query answer : result BackendContractError A) :
  prepared_query p b A query answer ->
  (prepared_identity p <> backend_identity b -> query = Err BackendIdentityMismatch) /\
  (prepared_identity p = backend_identity b -> prepared_capabilities p <> capabilities b ->
     query = Err BackendCapabilitiesMismatch) /\
  (prepared_identity p = backend_identity b -> prepared_capabilities p = capabilities b -> query = answer).
Proof.
  assert (forall f : () -> result BackendContractError A, query = (x ← ensure_backend p b; f x) -> answer = f () ->
    (prepared_identity p <> backend_identity b -> query = Err BackendIdentityMismatch) /\
    (prepared_identity p = backend_identity b -> prepared_capabilities p <> capabilities b ->
       query = Err BackendCapabilitiesMismatch) /\
    (prepared_identity p = backend_identity b -> prepared_capabilities p = capabilities b -> query = answer)) as Hguard.
  { intros f -> ->. rewrite ensure_backend_spec. split_and!; intros; repeat case_decide; done. }
  intros H. destruct H; eapply Hguard; reflexivity.
Qed.

End accessors.

(** * Launching *)

(** [Sandbox]: a native backend's preparation and process creation, and the part
    of the system its process creation changes. *)
Class Sandbox {U : Unicode} {G : Globset} {W : WildMatch} (B : Type) {SB : SandboxBackend B} := {
  Child : Type;
  NativeError : Type;
  System : Type;
  prepare : B -> BackendRequest -> PathResolutionContext -> result NativeError PreparedBackendRequest;
  spawn : B -> PreparedBackendRequest -> System -> result NativeError Child * System
}.

(** Documented behaviour: a native backend runs the common preflight and cannot
    replace it with a broader one. *)
Class SandboxLaws {U : Unicode} {G : Globset} {W : WildMatch} (B : Type) {SB : SandboxBackend B} (S : Sandbox B) : Prop := {
  prepare_checked (b : B) r base p : prepare b r base = Ok p -> prepare_for r b base = Ok p
}.

Inductive SandboxExecutionError (E : Type) :=
  | PrepareError (source : E)
  | SpawnError (source : E)
  | TryWaitError (source : E)
  | WaitError (source : E)
  | KillError (source : E).
Arguments PrepareError {E} source.
Arguments SpawnError {E} source.
Arguments TryWaitError {E} source.
Arguments WaitError {E} source.
Arguments KillError {E} source.

Section launch.
Context {U : Unicode} {G : Globset} {W : WildMatch} {B : Type} {SB : SandboxBackend B} {S : Sandbox B}.

(** [DynSandbox::launch] *)
Definition launch (b : B) (r : BackendRequest) (base : PathResolutionContext) (w : System) :
  result (SandboxExecutionError NativeError) Child * System :=
  match prepare b r base with
  | Err source => (Err (PrepareError source), w)
  | Ok prepared =>
      let '(child, w) := spawn b prepared w in
      (map_err SpawnError child, w)
  end.

(** No process starts without preflight: a failed preparation leaves the
    system as it was, and a launched child was spawned from a request that passed
    the common preflight of that very backend, with a prepared request the
    backend's own accessors accept. *)
Theorem launch_prepares_first (L : SandboxLaws B S) (b : B) (r : BackendRequest)
    (base : PathResolutionContext) (w w' : System) (result : result (SandboxExecutionError NativeError) Child) :
  launch b r base w = (result, w') ->
  match result with
  | Ok child => exists p, prepare_for r b base = Ok p /\ spawn b p w = (Ok child, w') /\ ensure_backend p b = Ok ()
  | Err (SpawnError e) => exists p, prepare_for r b base = Ok p /\ spawn b p w = (Err e, w')
  | Err (PrepareError e) => prepare b r base = Err e /\ w' = w
  | Err _ => False
  end.
Proof.
  unfold launch. destruct (prepare b r base) as [p|e] eqn:Hp; [|by intros [= <- <-]].
  apply prepare_checked in Hp as Hc. destruct (spawn b p w) as [[child|e] w1] eqn:Hs; intros [= <- <-]; simpl.
  - exists p. split_and!; [done|done|]. apply prepare_for_Ok in Hc as (_ & _ & c & dir & d & _ & _ & _ & _ & _ & ->).
    by apply ensure_same.
  - eauto.
Qed.

End launch.

(** * Examples *)

Section examples.
#[local] Existing Instance literal_globset.
#[local] Existing Instance ascii_unicode.
#[local] Existing Instance literal_wildmatch.

(** A backend that advertises everything, or nothing. *)
Record ExampleBackend := { example_token : N; example_full : bool }.

#[local] Instance ExampleBackend_backend : SandboxBackend ExampleBackend := {|
  backend_identity b := {| backend_token := example_token b |};
  capabilities b := from_capabilities (if example_full b then all_capabilities else [])
|}.

#[local] Instance ExampleBackend_sandbox : Sandbox ExampleBackend := {|
  Child := path;
  NativeError := BackendContractError;
  System := list path;
  prepare b r base := prepare_for r b base;
  spawn b p w := (Ok (prepared_directory p), prepared_directory p :: w)
|}.

#[local] Instance ExampleBackend_laws : SandboxLaws ExampleBackend ExampleBackend_sandbox.
Proof. split. intros b r base p H. exact H. Qed.

Definition full_backend : ExampleBackend := {| example_token := 7; example_full := true |}.
Definition bare_backend : ExampleBackend := {| example_token := 8; example_full := false |}.

Definition example_command : CommandRequest :=
  CommandRequest_new {| program := "cargo"; args := ["build"] |}.

Lemma example_command_built : request_built example_command.
Proof.
  apply rb_new. apply (cb_args {| program := "cargo"; args := [] |} ["build"]); [|reflexivity].
  apply (cb_new "cargo"). reflexivity.
Qed.

Definition example_backend_request : BackendRequest :=
  {| req_command := example_command; req_sandbox := example_sandbox |}.

Definition example_prepared : PreparedBackendRequest :=
  {| prepared_request := example_backend_request; prepared_context := example_context;
     prepared_directory := "/work/app"; prepared_capabilities := capabilities full_backend;
     prepared_identity := {| backend_token := 7 |} |}.

Lemma example_prepares : prepare_for example_backend_request full_backend example_base = Ok example_prepared.
Proof. reflexivity. Qed.

Lemma preflight_sound_witness :
  exists d, effective_access_for_path (es_filesystem example_sandbox) "/work/app" example_context = Ok d /\ d <> FDeny.
Proof.
  exact (proj2 (proj2 (proj2 (proj2 (proj2 (proj2 (proj2 (proj2
    (preflight_sound example_backend_request full_backend example_base example_prepared
       example_command_built example_base_built example_prepares))))))))).
Defined.

Lemma preflight_errors_witness :
  prepare_for example_backend_request bare_backend example_base = Err (UnsupportedCapability CapCommandExecution) /\
  supports (capabilities bare_backend) CapCommandExecution = false.
Proof.
  assert (prepare_for example_backend_request bare_backend example_base
          = Err (UnsupportedCapability CapCommandExecution)) as H by reflexivity.
  split; [exact H|].
  exact (proj1 (preflight_errors 0 1 example_request example_backend_request bare_backend example_base _
                  example_composed example_command_built example_base_built H)).
Defined.

Lemma prepared_capabilities_cover_witness : supports (capabilities full_backend) CapCommandExecution = true.
Proof.
  exact (proj1 (proj1 (prepared_capabilities_cover example_backend_request full_backend example_base
                         example_prepared example_prepares))).
Defined.

Lemma prepared_accessors_bound_witness :
  prepared_working_directory example_prepared bare_backend = Err BackendIdentityMismatch.
Proof.
  apply (prepared_accessors_bound example_prepared bare_backend path _ _
           (q_directory example_prepared bare_backend)). by vm_compute.
Defined.

Lemma launch_prepares_first_witness :
  exists p, prepare_for example_backend_request full_backend example_base = Ok p /\
    spawn full_backend p [] = (Ok "/work/app", ["/work/app"]) /\ ensure_backend p full_backend = Ok ().
Proof.
  apply (launch_prepares_first ExampleBackend_laws full_backend example_backend_request example_base [] ["/work/app"]
           (Ok "/work/app")).
  reflexivity.
Defined.

End examples.
