(* ===== verification/GrantId.v ===== *)
(** [cageforge-permissions]: the error types of the crate, grant identities
    with their hexadecimal form, and the cursors of a paged listing.  A
    [[u8; 32]] is a string of 32 bytes. *)

From Stdlib Require Import Ascii String NArith Lia.
From stdpp Require Import base list strings option.
From S2P Require Import Prelude Text BTree NativePath.

(** * Errors *)

Inductive PermissionError :=
  | InvalidCapability (value : string)
  | InvalidIdentity (field : string)
  | InvalidDigest (field : string)
  | InvalidGrantId
  | InvalidScope (value : string)
  | GrantExceedsRequest
  | InvalidExpiration
  | InvalidTimeout
  | InvalidEscalationReason
  | EmptyEscalation.

Inductive StoreError :=
  | PathNotAbsolute (path : path)
  | StoreRead (message : string)
  | StoreFormat (message : string)
  | UnsupportedSchema (version : N)
  | Poisoned
  | GrantMismatch
  | NonPersistentGrant
  | StoreWrite (message : string)
  | StoreInvalidGrantId
  | GrantNotFound
  | ListingSnapshotExpired
  | InvalidPageSize (requested maximum : N)
  | InvalidCursor
  | StoreLocked (message : string).

#[global] Instance PermissionError_eq_dec : EqDecision PermissionError.
Proof. solve_decision. Defined.
#[global] Instance StoreError_eq_dec : EqDecision StoreError.
Proof. solve_decision. Defined.

(** * Hexadecimal *)

(** A digest: its bytes. *)
Abbreviation GrantId := string.

(** [[u8; 32]] *)
Definition digest_wf (id : string) : Prop := String.length id = 32.

Definition hex_nibble (value : ascii) : option N :=
  let v := byte_val value in
  if in_range 48 57 v then Some (v - 48)%N
  else if in_range 97 102 v then Some (v - 97 + 10)%N
  else if in_range 65 70 v then Some (v - 65 + 10)%N
  else None.

(** The loop of [GrantId::from_hex] over [as_chunks::<2>], which leaves out an
    odd last byte; [high << 4] is an [u8]. *)
Fixpoint hex_bytes (value : string) : option string :=
  match value with
  | String h (String l rest) =>
      high ← hex_nibble h;
      low ← hex_nibble l;
      bytes ← hex_bytes rest;
      Some (String (ascii_of_N (N.lor (N.shiftl high 4 mod 256) low)) bytes)
  | _ => Some ""
  end.

Definition from_hex (value : string) : result PermissionError GrantId :=
  reject bool_decide (String.length value <> 64) with InvalidGrantId ;;
  ok_or InvalidGrantId (hex_bytes value).

(** [format!("{byte:02x}")] *)
Definition format_02x (byte : ascii) : string :=
  String (hex_digit (byte_val byte / 16)%N) (String (hex_digit (byte_val byte mod 16)%N) "").

Arguments hex_nibble : simpl never.
Arguments format_02x : simpl never.

(** [GrantId::to_hex] and [digest_hex] *)
Fixpoint to_hex (id : GrantId) : string :=
  match id with
  | EmptyString => ""
  | String byte rest => format_02x byte +:+ to_hex rest
  end.

(** * Cursors *)

Record GrantPageCursor := { snapshot : GrantId; last_id : GrantId }.

Definition cursor_wf (c : GrantPageCursor) : Prop := digest_wf (snapshot c) /\ digest_wf (last_id c).

Definition to_token (c : GrantPageCursor) : string :=
  "v1." +:+ to_hex (snapshot c) +:+ "." +:+ to_hex (last_id c).

Definition from_token (value : string) : result StoreError GrantPageCursor :=
  match str_split "." value with
  | [version; snapshot; last_id] =>
      reject bool_decide (version <> "v1") with InvalidCursor ;;
      snapshot ← map_err (fun _ => InvalidCursor) (from_hex snapshot);
      last_id ← map_err (fun _ => InvalidCursor) (from_hex last_id);
      Ok {| snapshot := snapshot; last_id := last_id |}
  | _ => Err InvalidCursor
  end.

(** * Lemmas *)

(** One byte at a time, by cases on its bits. *)
Lemma hex_byte_roundtrip a :
  exists h l, format_02x a = String h (String l "") /\
    exists high low, hex_nibble h = Some high /\ hex_nibble l = Some low /\
      ascii_of_N (N.lor (N.shiftl high 4 mod 256) low) = a.
Proof.
  destruct a as [[] [] [] [] [] [] [] []];
    (eexists _, _; split; [reflexivity|]; eexists _, _; split; [reflexivity|split; reflexivity]).
Qed.

Lemma hex_nibble_Some a : is_Some (hex_nibble a) <-> is_ascii_hexdigit a = true.
Proof. destruct a as [[] [] [] [] [] [] [] []]; cbn; split; solve [done|by intros [? [=]]|eauto]. Qed.

Lemma hex_nibble_lt a n : hex_nibble a = Some n -> (n < 16)%N.
Proof. destruct a as [[] [] [] [] [] [] [] []]; vm_compute; by intros [= <-]. Qed.

(** A digit printed again is the lower case of the digit read. *)
Lemma hex_digit_nibble a n : hex_nibble a = Some n -> hex_digit n = ascii_lower a.
Proof. destruct a as [[] [] [] [] [] [] [] []]; vm_compute; by intros [= <-]. Qed.

Lemma nibbles_byte h l : (h < 16)%N -> (l < 16)%N ->
  byte_val (ascii_of_N (N.lor (N.shiftl h 4 mod 256) l)) = (h * 16 + l)%N.
Proof.
  intros Hh Hl.
  destruct h as [|h]; [|do 4 try (destruct h as [h|h|]; try lia)];
    (destruct l as [|l]; [reflexivity|do 4 try (destruct l as [l|l|]; try lia; try reflexivity)]).
Qed.

Lemma hex_bytes_to_hex id : hex_bytes (to_hex id) = Some id.
Proof.
  induction id as [|a id IH]; [done|].
  change (hex_bytes (format_02x a +:+ to_hex id) = Some (String a id)).
  destruct (hex_byte_roundtrip a) as (h & l & -> & high & low & Hh & Hl & Ha). simpl.
  
  change ("" +:+ to_hex id) with (to_hex id). by rewrite Hh, Hl; simpl; rewrite IH; simpl; rewrite Ha.
Qed.

Lemma to_hex_cons a id :
  to_hex (String a id) =
  String (hex_digit (byte_val a / 16)) (String (hex_digit (byte_val a mod 16)) (to_hex id)).
Proof. done. Qed.

Lemma to_hex_length id : String.length (to_hex id) = 2 * String.length id.
Proof. induction id as [|a id IH]; [done|]. rewrite to_hex_cons. simpl. lia. Qed.

Lemma to_hex_digits id : str_all (fun a => is_ascii_hexdigit a && negb (is_ascii_upper a)) (to_hex id) = true.
Proof.
  induction id as [|a id IH]; [done|]. rewrite to_hex_cons, !str_all_cons, IH.
  by destruct a as [[] [] [] [] [] [] [] []].
Qed.

Lemma hex_bytes_cons h l t :
  is_Some (hex_bytes (String h (String l t))) <->
  is_Some (hex_nibble h) /\ is_Some (hex_nibble l) /\ is_Some (hex_bytes t).
Proof.
  simpl. destruct (hex_nibble h), (hex_nibble l), (hex_bytes t); simpl;
    split; solve [eauto|by intros [? [=]]|by intros ([? [=]] & [? [=]] & [? [=]])].
Qed.

(** Induction on the pairs of a string of even length. *)
Lemma string_pair_ind (P : string -> Prop) :
  P "" -> (forall h l t, P t -> P (String h (String l t))) ->
  forall n s, String.length s = 2 * n -> P s.
Proof.
  intros H0 H2 n. induction n as [|n IH]; intros [|h [|l t]]; simpl; try lia; [done|].
  intros Ht. apply H2, IH. lia.
Qed.

Lemma hex_bytes_Some n s : String.length s = 2 * n ->
  is_Some (hex_bytes s) <-> str_all is_ascii_hexdigit s = true.
Proof.
  revert n s. apply string_pair_ind; [by split; [|eauto]|]. intros h l t IH.
  by rewrite hex_bytes_cons, !hex_nibble_Some, IH, !str_all_cons, !andb_true_iff.
Qed.

Lemma hex_bytes_length n s id :
  String.length s = 2 * n -> hex_bytes s = Some id -> String.length id = n.
Proof.
  revert s id. induction n as [|n IH]; intros [|h [|l t]] id; simpl; try lia; [by intros _ [= <-]|].
  intros Ht. rewrite !bind_Some. intros (high & _ & Hrest).
  apply bind_Some in Hrest as (low & _ & (bytes & Hb & [= <-])%bind_Some).
  simpl. by rewrite (IH t bytes) by (done || lia).
Qed.

Lemma to_hex_of_bytes n s id :
  String.length s = 2 * n -> hex_bytes s = Some id -> to_hex id = to_ascii_lowercase s.
Proof.
  revert s id. induction n as [|n IH]; intros [|h [|l t]] id; simpl; try lia; [by intros _ [= <-]|].
  intros Ht. rewrite !bind_Some. intros (high & Hh & Hrest).
  apply bind_Some in Hrest as (low & Hl & (bytes & Hb & [= <-])%bind_Some).
  rewrite to_hex_cons, (IH t bytes) by (done || lia).
  apply hex_nibble_lt in Hh as Hh16. apply hex_nibble_lt in Hl as Hl16.
  rewrite nibbles_byte by done.
  replace ((high * 16 + low) / 16)%N with high by (apply N.div_unique with low; lia).
  replace ((high * 16 + low) mod 16)%N with low by (apply N.mod_unique with high; lia).
  by rewrite (hex_digit_nibble _ _ Hh), (hex_digit_nibble _ _ Hl).
Qed.

Lemma from_hex_Ok s id :
  from_hex s = Ok id <-> String.length s = 64 /\ hex_bytes s = Some id.
Proof.
  unfold from_hex. case_bool_decide as Hn; [split; [done|by intros [? _]]|].
  rewrite ok_or_Ok. naive_solver.
Qed.

Lemma from_hex_to_hex id : digest_wf id -> from_hex (to_hex id) = Ok id.
Proof. intros H. apply from_hex_Ok. by rewrite to_hex_length, hex_bytes_to_hex, H. Qed.

Lemma from_hex_wf s id : from_hex s = Ok id -> digest_wf id.
Proof. intros [Hn Hb]%from_hex_Ok. by apply (hex_bytes_length 32 s). Qed.

Lemma from_hex_lower s id : from_hex s = Ok id -> to_hex id = to_ascii_lowercase s.
Proof. intros [Hn Hb]%from_hex_Ok. by apply (to_hex_of_bytes 32). Qed.

#[global] Instance to_hex_inj : Inj (=) (=) to_hex.
Proof. intros x y H. apply (f_equal hex_bytes) in H. rewrite !hex_bytes_to_hex in H. by injection H. Qed.

(** The hexadecimal form orders digests as their bytes do. *)
Lemma list_cmp_string a s b t :
  cmp (String a s) (String b t) =
  match N.compare (byte_val a) (byte_val b) with Eq => cmp s t | r => r end.
Proof. done. Qed.

Lemma hex_digit_cmp n m : (n < 16)%N -> (m < 16)%N ->
  N.compare (byte_val (hex_digit n)) (byte_val (hex_digit m)) = N.compare n m.
Proof.
  intros Hn Hm.
  destruct n as [|n]; [|do 4 try (destruct n as [n|n|]; try lia)];
    (destruct m as [|m]; [reflexivity|do 4 try (destruct m as [m|m|]; try lia; try reflexivity)]).
Qed.

Lemma format_02x_cmp a b s t :
  cmp (format_02x a +:+ s) (format_02x b +:+ t) =
  match N.compare (byte_val a) (byte_val b) with Eq => cmp s t | r => r end.
Proof.
  assert (forall c, byte_val c < 256)%N as Hb by (intros c; apply N_ascii_bounded).
  pose proof (Hb a). pose proof (Hb b).
  change (format_02x a +:+ s) with (String (hex_digit (byte_val a / 16)) (String (hex_digit (byte_val a mod 16)) s)).
  change (format_02x b +:+ t) with (String (hex_digit (byte_val b / 16)) (String (hex_digit (byte_val b mod 16)) t)).
  rewrite !list_cmp_string.
  rewrite !hex_digit_cmp by (apply N.mod_lt || apply N.Div0.div_lt_upper_bound; lia).
  pose proof (N.Div0.div_mod (byte_val a) 16). pose proof (N.Div0.div_mod (byte_val b) 16).
  pose proof (N.mod_lt (byte_val a) 16 ltac:(done)). pose proof (N.mod_lt (byte_val b) 16 ltac:(done)).
  revert H H0 H1 H2 H3 H4.
  generalize (byte_val a / 16)%N (byte_val b / 16)%N (byte_val a mod 16)%N (byte_val b mod 16)%N.
  intros qa qb ra rb. intros.
  destruct (N.compare_spec qa qb), (N.compare_spec ra rb), (N.compare_spec (byte_val a) (byte_val b));
    solve [done|exfalso; lia].
Qed.

Lemma to_hex_cmp x y : cmp (to_hex x) (to_hex y) = cmp x y.
Proof.
  revert y. induction x as [|a x IH]; intros [|b y]; [done..|].
  cbn [to_hex]. by rewrite format_02x_cmp, list_cmp_string, IH.
Qed.

(** * Round trips *)

(** Grant identities and their text: a digest prints as 64 lower-case digits
    that read back as the digest; the texts accepted are exactly the 64-digit
    ones, in either case, and one that is read prints as its lower case; and
    texts are ordered as the digests they stand for. *)
Theorem grant_id_hex_roundtrip :
  (forall id, digest_wf id -> from_hex (to_hex id) = Ok id) /\
  (forall s, is_ok (from_hex s) = true <-> String.length s = 64 /\ str_all is_ascii_hexdigit s = true) /\
  (forall s id, from_hex s = Ok id -> digest_wf id /\ to_hex id = to_ascii_lowercase s) /\
  (forall x y, cmp (to_hex x) (to_hex y) = cmp x y).
Proof.
  split; [exact from_hex_to_hex|]. split; [|split; [|exact to_hex_cmp]].
  - intros s. rewrite is_ok_true. setoid_rewrite from_hex_Ok. split.
    + intros (id & Hn & Hid). rewrite <- (hex_bytes_Some 32) by done. by eauto.
    + intros [Hn [id Hid]%(hex_bytes_Some 32)]; eauto.
  - intros s id H. split; [by eapply from_hex_wf|by apply from_hex_lower].
Qed.

Lemma to_hex_no_dot id : contains_char "." (to_hex id) = false.
Proof.
  induction id as [|a id IH]; [done|]. rewrite to_hex_cons, !contains_char_cons, IH.
  by destruct a as [[] [] [] [] [] [] [] []].
Qed.

Lemma from_token_to_token c : cursor_wf c -> from_token (to_token c) = Ok c.
Proof.
  intros [Hs Hl]. unfold from_token, to_token.
  change ("v1." +:+ to_hex (snapshot c) +:+ "." +:+ to_hex (last_id c))
    with (str_join "." ["v1"; to_hex (snapshot c); to_hex (last_id c)]).
  rewrite str_split_join; [|done|by repeat constructor; try apply to_hex_no_dot].
  simpl. rewrite !from_hex_to_hex by done. by destruct c.
Qed.

Lemma str_map_app f s t : str_map f (s +:+ t) = str_map f s +:+ str_map f t.
Proof.
  induction s as [|a s IH]; [done|].
  change (String (f a) (str_map f (s +:+ t)) = String (f a) (str_map f s +:+ str_map f t)). by rewrite IH.
Qed.

Lemma from_token_lower s c : from_token s = Ok c -> cursor_wf c /\ to_token c = to_ascii_lowercase s.
Proof.
  unfold from_token. destruct (str_split "." s) as [|v [|x [|y [|]]]] eqn:E; try done.
  intros H. res_inv. bool_inv. apply dec_stable in G as ->. simpl.
  split; [by split; eapply from_hex_wf|].
  rewrite <- (str_join_split "." s), E. unfold to_token, to_ascii_lowercase. simpl.
  erewrite !from_hex_lower by done. unfold str_join, to_ascii_lowercase. cbn.
  by rewrite !str_map_app.
Qed.

(** Continuation tokens: a cursor's token reads back as the cursor, and any
    text accepted is, up to the case of its digits, the token of the cursor it
    stands for. *)
Theorem cursor_token_roundtrip :
  (forall c, cursor_wf c -> from_token (to_token c) = Ok c) /\
  (forall s c, from_token s = Ok c -> cursor_wf c /\ to_token c = to_ascii_lowercase s).
Proof. split; [exact from_token_to_token|exact from_token_lower]. Qed.

Lemma grant_id_hex_roundtrip_witness :
  from_hex (to_hex "0123456789abcdefghijklmnopqrstuv") = Ok "0123456789abcdefghijklmnopqrstuv".
Proof. apply (proj1 grant_id_hex_roundtrip). reflexivity. Defined.

Lemma cursor_token_roundtrip_witness :
  from_token (to_token {| snapshot := "0123456789abcdefghijklmnopqrstuv";
                          last_id := "vutsrqponmlkjihgfedcba9876543210" |})
  = Ok {| snapshot := "0123456789abcdefghijklmnopqrstuv"; last_id := "vutsrqponmlkjihgfedcba9876543210" |}.
Proof. apply (proj1 cursor_token_roundtrip). split; reflexivity. Defined.
