(* ===== verification/Permissions.v ===== *)
(** [cageforge-permissions]: capability sets, preflight and escalation
    requests, and the grants a trusted host issues for them. *)

From Stdlib Require Import Ascii String NArith ZArith Lia Sorting.
From stdpp Require Import base list strings option sets sorting.
From S2P Require Import Prelude Text BTree NativePath GrantId.

(** * Settings *)

Inductive PlatformId := Linux | Macos | Windows.

Inductive PlatformError := UnsupportedTarget.

(** [PlatformId::current], for the [target_os] the crate is compiled for. *)
Definition platform_current (target_os : string) : result PlatformError PlatformId :=
  if bool_decide (target_os = "linux") then Ok Linux
  else if bool_decide (target_os = "macos") then Ok Macos
  else if bool_decide (target_os = "windows") then Ok Windows
  else Err UnsupportedTarget.

Definition platform_str (p : PlatformId) : string :=
  match p with Linux => "linux" | Macos => "macos" | Windows => "windows" end.

Inductive PermissionMode := Disabled | Preflight | OnDemand | PreflightAndOnDemand.
Inductive ApprovalTimeoutAction := TimeoutDeny.
Inductive ApprovalPersistence := PersistLaunch | PersistSession | PersistPersistent.

Record ApprovalConfig := {
  approval_mode : PermissionMode;
  timeout_ms : N;
  on_timeout : ApprovalTimeoutAction;
  persistence : ApprovalPersistence
}.

Definition approval_default : ApprovalConfig :=
  {| approval_mode := Disabled; timeout_ms := 10000; on_timeout := TimeoutDeny;
     persistence := PersistSession |}.

Definition approval_new (mode : PermissionMode) (timeout : N) (action : ApprovalTimeoutAction)
    (p : ApprovalPersistence) : result PermissionError ApprovalConfig :=
  reject (timeout =? 0)%N with InvalidTimeout ;;
  Ok {| approval_mode := mode; timeout_ms := timeout; on_timeout := action; persistence := p |}.

Inductive PermissionScope := Launch | Session | Persistent.

Definition scope_parse (value : string) : result PermissionError PermissionScope :=
  if bool_decide (value = "launch") then Ok Launch
  else if bool_decide (value = "session") then Ok Session
  else if bool_decide (value = "persistent") then Ok Persistent
  else Err (InvalidScope value).

#[global] Instance PlatformId_eq_dec : EqDecision PlatformId.
Proof. solve_decision. Defined.
#[global] Instance PermissionScope_eq_dec : EqDecision PermissionScope.
Proof. solve_decision. Defined.

(** * Capabilities *)

Inductive FilesystemOperation := OpRead | OpWrite | OpDeny | OpMapExecutable.

Definition operation_str (o : FilesystemOperation) : string :=
  match o with
  | OpRead => "read" | OpWrite => "write" | OpDeny => "deny" | OpMapExecutable => "map-executable"
  end.

Record FilesystemCapability := { operation : FilesystemOperation; cap_path : string }.
Record NetworkCapability := { endpoint : string }.
Record ProcessCapability := { cap_program : string }.

#[global] Instance FilesystemOperation_eq_dec : EqDecision FilesystemOperation.
Proof. solve_decision. Defined.
#[global] Instance FilesystemCapability_eq_dec : EqDecision FilesystemCapability.
Proof. solve_decision. Defined.
#[global] Instance NetworkCapability_eq_dec : EqDecision NetworkCapability.
Proof. solve_decision. Defined.
#[global] Instance ProcessCapability_eq_dec : EqDecision ProcessCapability.
Proof. solve_decision. Defined.

(** [value.trim().is_empty() || value.contains('\0')] *)
Definition blank_or_nul (value : string) : bool :=
  bool_decide (trim value = "") || contains_char NUL value.

Definition validate_path (p : string) : result PermissionError unit :=
  reject blank_or_nul p with InvalidCapability "filesystem path must be non-empty and NUL-free" ;;
  Ok ().

Definition filesystem_capability_new (o : FilesystemOperation) (p : string) :
  result PermissionError FilesystemCapability :=
  _ ← validate_path p; Ok {| operation := o; cap_path := p |}.

Definition network_capability_new (e : string) : result PermissionError NetworkCapability :=
  reject blank_or_nul e with InvalidCapability "network endpoint must be non-empty and NUL-free" ;;
  Ok {| endpoint := e |}.

Definition process_capability_new (p : string) : result PermissionError ProcessCapability :=
  reject blank_or_nul p with InvalidCapability "program must be non-empty and NUL-free" ;;
  Ok {| cap_program := p |}.

(** The derived orders: declaration order of the constructors, then the fields
    from left to right. *)
Definition operation_index (o : FilesystemOperation) : N :=
  match o with OpRead => 0 | OpWrite => 1 | OpDeny => 2 | OpMapExecutable => 3 end.

#[global] Instance ord_filesystem_capability : Ord FilesystemCapability := fun x y =>
  match cmp (operation_index (operation x)) (operation_index (operation y)) with
  | Eq => cmp (cap_path x) (cap_path y)
  | r => r
  end.
#[global] Instance ord_network_capability : Ord NetworkCapability := fun x y =>
  cmp (endpoint x) (endpoint y).
#[global] Instance ord_process_capability : Ord ProcessCapability := fun x y =>
  cmp (cap_program x) (cap_program y).

(** * Vectors kept sorted without duplicates *)

Section vectors.
Context `{O : Ord A, !EqDecision A}.

(** [Vec::sort], a stable sort *)
Fixpoint sort_insert (x : A) (l : list A) : list A :=
  match l with
  | [] => [x]
  | y :: l' => match cmp x y with Gt => y :: sort_insert x l' | _ => x :: l end
  end.

Definition vec_sort (l : list A) : list A := foldr sort_insert [] l.

(** [if !v.contains(&x) { v.push(x) }] *)
Definition push_new (v : list A) (x : A) : list A := if bool_decide (x ∈ v) then v else v ++ [x].

(** The body of the [with_*] methods *)
Definition with_capability_sorted (v : list A) (x : A) : list A :=
  if bool_decide (x ∈ v) then v else vec_sort (v ++ [x]).

(** One loop of [additional_to] *)
Definition additional_vec (v base : list A) : list A := filter (fun x => x ∉ base) v.

(** One loop of [extend_from] with its final sort *)
Definition extend_vec (v other : list A) : list A := vec_sort (foldl push_new v other).

(** [v.iter().all(|x| request.contains(x))] *)
Definition subset_vec (v request : list A) : bool := forallb (fun x => bool_decide (x ∈ request)) v.

End vectors.

(** * Capability sets *)

Record PermissionSet := {
  filesystem : list FilesystemCapability;
  network : list NetworkCapability;
  child_processes : list ProcessCapability
}.

Definition set_new : PermissionSet := {| filesystem := []; network := []; child_processes := [] |}.

Definition with_filesystem (s : PermissionSet) (c : FilesystemCapability) : PermissionSet :=
  {| filesystem := with_capability_sorted (filesystem s) c; network := network s;
     child_processes := child_processes s |}.
Definition with_network (s : PermissionSet) (c : NetworkCapability) : PermissionSet :=
  {| filesystem := filesystem s; network := with_capability_sorted (network s) c;
     child_processes := child_processes s |}.
Definition with_child_process (s : PermissionSet) (c : ProcessCapability) : PermissionSet :=
  {| filesystem := filesystem s; network := network s;
     child_processes := with_capability_sorted (child_processes s) c |}.

Definition is_subset_of (s request : PermissionSet) : bool :=
  subset_vec (filesystem s) (filesystem request)
  && subset_vec (network s) (network request)
  && subset_vec (child_processes s) (child_processes request).

Definition set_is_empty (s : PermissionSet) : bool :=
  bool_decide (filesystem s = []) && bool_decide (network s = []) && bool_decide (child_processes s = []).

Definition additional_to (s base : PermissionSet) : PermissionSet :=
  {| filesystem := additional_vec (filesystem s) (filesystem base);
     network := additional_vec (network s) (network base);
     child_processes := additional_vec (child_processes s) (child_processes base) |}.

Definition extend_from (s other : PermissionSet) : PermissionSet :=
  {| filesystem := extend_vec (filesystem s) (filesystem other);
     network := extend_vec (network s) (network other);
     child_processes := extend_vec (child_processes s) (child_processes other) |}.

#[global] Instance PermissionSet_eq_dec : EqDecision PermissionSet.
Proof. solve_decision. Defined.

(** * Requests *)

Record PermissionRequest := {
  tool_id : string;
  tool_version : string;
  manifest_digest : string;
  config_digest : string;
  platform : PlatformId;
  architecture : string;
  capabilities : PermissionSet
}.

Record PermissionEscalationRequest := {
  esc_base : PermissionRequest;
  esc_request : PermissionRequest;
  additional : PermissionSet;
  reason : string
}.

Definition validate_identity (value field : string) : result PermissionError string :=
  reject blank_or_nul value with InvalidIdentity field ;; Ok value.

Definition validate_digest (value field : string) : result PermissionError string :=
  reject bool_decide (String.length value <> 64)
         || negb (str_all (fun byte => is_ascii_hexdigit byte && negb (is_ascii_upper byte)) value)
    with InvalidDigest field ;;
  Ok value.

Definition request_new (id version manifest config : string) (p : PlatformId) (arch : string)
    (caps : PermissionSet) : result PermissionError PermissionRequest :=
  id ← validate_identity id "tool id";
  version ← validate_identity version "tool version";
  manifest ← validate_digest manifest "manifest digest";
  config ← validate_digest config "config digest";
  arch ← validate_identity arch "architecture";
  Ok {| tool_id := id; tool_version := version; manifest_digest := manifest; config_digest := config;
        platform := p; architecture := arch; capabilities := caps |}.

Definition escalation_new (base : PermissionRequest) (requested_additional : PermissionSet)
    (reason : string) : result PermissionError PermissionEscalationRequest :=
  reject blank_or_nul reason with InvalidEscalationReason ;;
  let additional := additional_to requested_additional (capabilities base) in
  reject set_is_empty additional with EmptyEscalation ;;
  let capabilities := extend_from (capabilities base) additional in
  request ← request_new (tool_id base) (tool_version base) (manifest_digest base) (config_digest base)
              (platform base) (architecture base) capabilities;
  Ok {| esc_base := base; esc_request := request; additional := additional; reason := reason |}.

(** * Digests *)

(** [sha2::Sha256] and [serde_json::to_writer], which returns the bytes it
    wrote and whether it succeeded. *)
Class Sha256 := sha256 : string -> string.
Class Sha256Laws (D : Sha256) : Prop := sha256_length (bytes : string) : digest_wf (sha256 bytes).
Class Serialize (T : Type) := to_writer : T -> string * bool.

Definition canonical_digest `{Sha256, Serialize T} (value : T) : string :=
  let '(written, success) := to_writer value in
  sha256 (if success then written else written +:+ String NUL "cageforge-serialization-error").

(** [unix_timestamp], from the system time in nanoseconds since the epoch *)
Definition unix_timestamp (system_time : Z) : N :=
  if (system_time <? 0)%Z then 0%N else Z.to_N (system_time / 1000000000).

(** * Grants *)

Record PermissionGrant := {
  request_digest : string;
  approved : PermissionSet;
  scope : PermissionScope;
  expires_at : option N;
  issued_at : N
}.

#[global] Instance PermissionGrant_eq_dec : EqDecision PermissionGrant.
Proof. solve_decision. Defined.

Section grants.
Context {D : Sha256} {J : Serialize PermissionRequest}.

(** [PermissionRequest::grant_id] and [PermissionRequest::digest] *)
Definition grant_id (r : PermissionRequest) : GrantId := canonical_digest r.
Definition request_digest_hex (r : PermissionRequest) : string := to_hex (canonical_digest r).

Definition grant_matches (g : PermissionGrant) (r : PermissionRequest) : bool :=
  bool_decide (request_digest g = request_digest_hex r) && is_subset_of (approved g) (capabilities r).

Definition is_valid_at (g : PermissionGrant) (now : N) : bool :=
  match expires_at g with None => true | Some e => (now <? e)%N end.

(** * [GrantAuthority] *)

Definition approve (r : PermissionRequest) (clock : Z) : PermissionGrant :=
  {| request_digest := request_digest_hex r; approved := capabilities r; scope := Session;
     expires_at := None; issued_at := unix_timestamp clock |}.

Definition approve_with (r : PermissionRequest) (approved : PermissionSet) (scope : PermissionScope)
    (expires_at : option N) (clock : Z) : result PermissionError PermissionGrant :=
  reject bool_decide (expires_at = Some 0%N) with InvalidExpiration ;;
  reject negb (is_subset_of approved (capabilities r)) with GrantExceedsRequest ;;
  Ok {| request_digest := request_digest_hex r; approved := approved; scope := scope;
        expires_at := expires_at; issued_at := unix_timestamp clock |}.

Definition approve_subset (r : PermissionRequest) (approved : PermissionSet) (clock : Z) :
  result PermissionError PermissionGrant := approve_with r approved Session None clock.

Definition approve_escalation (e : PermissionEscalationRequest) (approved_additional : PermissionSet)
    (scope : PermissionScope) (expires_at : option N) (clock : Z) :
  result PermissionError PermissionGrant :=
  reject negb (is_subset_of approved_additional (additional e)) with GrantExceedsRequest ;;
  approve_with (esc_request e) (extend_from (capabilities (esc_base e)) approved_additional)
    scope expires_at clock.

End grants.

(** * The derived orders are total orders *)

Section lexicographic.
Context `{O1 : Ord A1, !OrdLaws A1, O2 : Ord A2, !OrdLaws A2} {B : Type} (f : B -> A1) (g : B -> A2).

Definition lexicographic (x y : B) : comparison :=
  match cmp (f x) (f y) with Eq => cmp (g x) (g y) | r => r end.

Lemma lexicographic_laws : @OrdLaws B lexicographic.
Proof.
  split; change (@cmp B lexicographic) with lexicographic; unfold lexicographic.
  - intros x. by rewrite !cmp_refl.
  - intros x y. rewrite (cmp_antisym (f x)), (cmp_antisym (g x)). by destruct (cmp (f x) (f y)).
  - intros x y z. destruct (cmp (f x) (f y)) eqn:E1; [|intros _|done].
    + rewrite (cmp_eq_l _ _ (f z) E1). destruct (cmp (f y) (f z)); [|done..].
      apply cmp_trans.
    + destruct (cmp (f y) (f z)) eqn:E2; [|by rewrite (cmp_trans _ _ _ E1 E2)|done].
      intros _. by rewrite <- (cmp_eq_r _ _ _ E2), E1.
  - intros x y z. destruct (cmp (f x) (f y)) eqn:E1; [|done..]. intros E2.
    by rewrite (cmp_eq_l _ _ (f z) E1), (cmp_eq_l _ _ (g z) E2).
Qed.

End lexicographic.

#[global] Instance ord_filesystem_capability_laws : OrdLaws FilesystemCapability.
Proof. exact (lexicographic_laws (fun c => operation_index (operation c)) cap_path). Qed.
#[global] Instance ord_network_capability_laws : OrdLaws NetworkCapability.
Proof. exact (pullback_laws endpoint). Qed.
#[global] Instance ord_process_capability_laws : OrdLaws ProcessCapability.
Proof. exact (pullback_laws cap_program). Qed.

#[global] Instance ord_filesystem_capability_leibniz : OrdLeibniz FilesystemCapability.
Proof.
  intros [o p] [o' p'] H. change (match cmp (operation_index o) (operation_index o') with
    | Eq => cmp p p' | r => r end = Eq) in H.
  destruct (cmp (operation_index o) _) eqn:E; try done. apply cmp_eq in E. apply cmp_eq in H as ->.
  by destruct o, o'.
Qed.
#[global] Instance ord_network_capability_leibniz : OrdLeibniz NetworkCapability.
Proof. intros [e] [e'] H. apply (cmp_eq e) in H as ->. done. Qed.
#[global] Instance ord_process_capability_leibniz : OrdLeibniz ProcessCapability.
Proof. intros [p] [p'] H. apply (cmp_eq p) in H as ->. done. Qed.

(** * Sorted vectors *)

Section sorted_vectors.
Context `{O : Ord A, !OrdLaws A, !OrdLeibniz A, !EqDecision A}.
Implicit Types (l v : list A) (x y : A).

(** Strictly ascending: sorted and without duplicates. *)
Definition ascending l : Prop := StronglySorted (fun x y => cmp x y = Lt) l.

Lemma sort_insert_perm x l : sort_insert x l ≡ₚ x :: l.
Proof.
  induction l as [|y l IH]; simpl; [done|]. destruct (cmp x y); try done.
  by rewrite IH, Permutation_swap.
Qed.

Lemma vec_sort_perm l : vec_sort l ≡ₚ l.
Proof. induction l as [|x l IH]; simpl; [done|]. by rewrite sort_insert_perm, IH. Qed.

Lemma sort_insert_ascending x l : ascending l -> x ∉ l -> ascending (sort_insert x l).
Proof.
  induction 1 as [|y l Hl IH Hy]; intros Hx; simpl; [by repeat constructor|].
  apply not_elem_of_cons in Hx as [Hxy Hx].
  destruct (cmp x y) eqn:E; [by apply cmp_eq in E|..].
  - constructor; [by constructor|]. constructor; [done|].
    eapply Forall_impl; [exact Hy|]. intros z Hz. by eapply cmp_trans.
  - constructor; [by apply IH|]. apply Forall_forall. intros z Hz.
    rewrite (sort_insert_perm x l) in Hz. apply elem_of_cons in Hz as [->|Hz].
    + by rewrite cmp_antisym, E.
    + rewrite Forall_forall in Hy. by apply Hy.
Qed.

Lemma vec_sort_ascending l : NoDup l -> ascending (vec_sort l).
Proof.
  induction 1 as [|x l Hx Hl IH]; simpl; [constructor|].
  apply sort_insert_ascending; [done|]. by rewrite vec_sort_perm.
Qed.

Lemma ascending_NoDup l : ascending l -> NoDup l.
Proof.
  induction 1 as [|x l Hl IH Hx]; constructor; [|done]. intros Hin.
  rewrite Forall_forall in Hx. apply Hx in Hin. by rewrite cmp_refl in Hin.
Qed.

(** A set of values has one strictly ascending enumeration. *)
Lemma ascending_unique l k : ascending l -> ascending k -> (forall x, x ∈ l <-> x ∈ k) -> l = k.
Proof.
  intros Hl. revert k. induction Hl as [|x l Hl IH Hx]; intros k Hk Heq.
  - destruct k as [|y k]; [done|]. destruct (Heq y) as [_ H].
    by destruct (elem_of_nil y) as [Hn _]; destruct Hn; apply H, list_elem_of_here.
  - inversion Hk as [|y k' Hk' Hy]; subst; [exfalso; by eapply elem_of_nil, Heq, list_elem_of_here|].
    rewrite Forall_forall in Hx, Hy.
    assert (x = y) as <-.
    { pose proof (proj1 (Heq x) (list_elem_of_here _ _)) as H1.
      pose proof (proj2 (Heq y) (list_elem_of_here _ _)) as H2.
      apply elem_of_cons in H1 as [->|H1]; [done|]. apply elem_of_cons in H2 as [->|H2]; [done|].
      apply Hy in H1. apply Hx in H2. rewrite cmp_antisym, H2 in H1. done. }
    f_equal. apply IH; [done|]. intros z. specialize (Heq z). rewrite !elem_of_cons in Heq.
    split; intros Hz.
    + destruct (proj1 Heq (or_intror Hz)) as [->|]; [|done]. apply Hx in Hz. by rewrite cmp_refl in Hz.
    + destruct (proj2 Heq (or_intror Hz)) as [->|]; [|done]. apply Hy in Hz. by rewrite cmp_refl in Hz.
Qed.

Lemma with_capability_sorted_elem v x y : y ∈ with_capability_sorted v x <-> y = x \/ y ∈ v.
Proof.
  unfold with_capability_sorted. case_bool_decide; [naive_solver|].
  rewrite vec_sort_perm, elem_of_app, list_elem_of_singleton. naive_solver.
Qed.

Lemma with_capability_sorted_ascending v x : ascending v -> ascending (with_capability_sorted v x).
Proof.
  intros Hv. unfold with_capability_sorted. case_bool_decide as Hx; [done|].
  apply vec_sort_ascending, NoDup_app. split; [by apply ascending_NoDup|].
  split; [|apply NoDup_singleton]. intros y Hy ->%list_elem_of_singleton. done.
Qed.

Lemma push_all_elem v other y : y ∈ foldl push_new v other <-> y ∈ v \/ y ∈ other.
Proof.
  revert v. induction other as [|x other IH]; intros v; simpl; [set_solver|]. rewrite IH.
  unfold push_new. case_bool_decide; set_solver.
Qed.

Lemma push_all_NoDup v other : NoDup v -> NoDup (foldl push_new v other).
Proof.
  revert v. induction other as [|x other IH]; intros v Hv; simpl; [done|]. apply IH.
  unfold push_new. case_bool_decide as Hx; [done|]. apply NoDup_app.
  split; [done|]. split; [|apply NoDup_singleton]. intros y Hy ->%list_elem_of_singleton. done.
Qed.

Lemma extend_vec_elem v other y : y ∈ extend_vec v other <-> y ∈ v \/ y ∈ other.
Proof. unfold extend_vec. by rewrite vec_sort_perm, push_all_elem. Qed.

Lemma extend_vec_ascending v other : ascending v -> ascending (extend_vec v other).
Proof. intros. by apply vec_sort_ascending, push_all_NoDup, ascending_NoDup. Qed.

Lemma additional_vec_elem v base y : y ∈ additional_vec v base <-> y ∈ v /\ y ∉ base.
Proof. unfold additional_vec. rewrite list_elem_of_filter. naive_solver. Qed.

Lemma additional_vec_ascending v base : ascending v -> ascending (additional_vec v base).
Proof.
  unfold additional_vec. induction 1 as [|x v Hv IH Hx]; [constructor|].
  rewrite filter_cons. case_decide; [|done]. constructor; [done|].
  apply Forall_forall. intros y [_ Hy]%list_elem_of_filter. rewrite Forall_forall in Hx. auto.
Qed.

Lemma subset_vec_true v request : subset_vec v request = true <-> forall x, x ∈ v -> x ∈ request.
Proof.
  unfold subset_vec. rewrite forallb_elem. by setoid_rewrite bool_decide_eq_true.
Qed.

End sorted_vectors.

(** * Capability sets *)

Inductive Capability :=
  | CapFilesystem (c : FilesystemCapability)
  | CapNetwork (c : NetworkCapability)
  | CapProcess (c : ProcessCapability).

(** The capabilities a set holds. *)
#[global] Instance PermissionSet_elem_of : ElemOf Capability PermissionSet := fun c s =>
  match c with
  | CapFilesystem c => c ∈ filesystem s
  | CapNetwork c => c ∈ network s
  | CapProcess c => c ∈ child_processes s
  end.

#[global] Instance PermissionSet_elem_of_dec (c : Capability) (s : PermissionSet) : Decision (c ∈ s).
Proof. destruct c; unfold elem_of, PermissionSet_elem_of; apply _. Defined.

(** The canonical form every builder keeps. *)
Definition set_wf (s : PermissionSet) : Prop :=
  ascending (filesystem s) /\ ascending (network s) /\ ascending (child_processes s).

Lemma set_forall (P : Capability -> Prop) :
  (forall c, P c) <->
  (forall c, P (CapFilesystem c)) /\ (forall c, P (CapNetwork c)) /\ (forall c, P (CapProcess c)).
Proof. split; [auto|]. by intros (?&?&?) []. Qed.

Lemma is_subset_of_true s r : is_subset_of s r = true <-> forall c : Capability, c ∈ s -> c ∈ r.
Proof.
  unfold is_subset_of. rewrite !andb_true_iff, !subset_vec_true, set_forall. tauto.
Qed.

Lemma extend_from_elem s other (c : Capability) : c ∈ extend_from s other <-> c ∈ s \/ c ∈ other.
Proof. destruct c; apply extend_vec_elem. Qed.

Lemma additional_to_elem s base (c : Capability) : c ∈ additional_to s base <-> c ∈ s /\ c ∉ base.
Proof. destruct c; apply additional_vec_elem. Qed.

Lemma set_is_empty_true s : set_is_empty s = true <-> forall c : Capability, c ∉ s.
Proof.
  unfold set_is_empty. rewrite !andb_true_iff, !bool_decide_eq_true, set_forall.
  split.
  - intros [[Hf Hn] Hp]. unfold elem_of, PermissionSet_elem_of. rewrite Hf, Hn, Hp.
    repeat split; intros c; apply not_elem_of_nil.
  - intros (Hf & Hn & Hp). repeat split; by apply elem_of_nil_inv.
Qed.

Lemma set_is_empty_false s : set_is_empty s = false <-> exists c : Capability, c ∈ s.
Proof.
  split.
  - destruct s as [[|f ?] [|n ?] [|p ?]]; [done|..]; intros _;
      first [exists (CapFilesystem f); apply list_elem_of_here
            |exists (CapNetwork n); apply list_elem_of_here
            |exists (CapProcess p); apply list_elem_of_here].
  - intros [c Hc]. apply not_true_iff_false. rewrite set_is_empty_true. naive_solver.
Qed.

Lemma with_elem s c :
  (forall f, c ∈ with_filesystem s f <-> c = CapFilesystem f \/ c ∈ s) /\
  (forall n, c ∈ with_network s n <-> c = CapNetwork n \/ c ∈ s) /\
  (forall p, c ∈ with_child_process s p <-> c = CapProcess p \/ c ∈ s).
Proof.
  destruct c as [c|c|c]; (split; [|split]); intros x; unfold elem_of, PermissionSet_elem_of; simpl;
    rewrite ?with_capability_sorted_elem; naive_solver.
Qed.

Lemma set_wf_with s f n p : set_wf s ->
  set_wf (with_filesystem s f) /\ set_wf (with_network s n) /\ set_wf (with_child_process s p).
Proof.
  intros (Hf & Hn & Hp). unfold set_wf. simpl.
  split_and!; try done; by apply with_capability_sorted_ascending.
Qed.

Lemma set_wf_extend s other : set_wf s -> set_wf (extend_from s other).
Proof. intros (?&?&?). repeat split; by apply extend_vec_ascending. Qed.

Lemma set_wf_additional s base : set_wf s -> set_wf (additional_to s base).
Proof. intros (?&?&?). repeat split; by apply additional_vec_ascending. Qed.

Lemma set_wf_unique s t : set_wf s -> set_wf t -> (forall c : Capability, c ∈ s <-> c ∈ t) -> s = t.
Proof.
  intros (Hf & Hn & Hp) (Hf' & Hn' & Hp') H.
  destruct s as [sf sn sp], t as [tf tn tp]; simpl in *. f_equal; apply ascending_unique; try done.
  - intros c. apply (H (CapFilesystem c)).
  - intros c. apply (H (CapNetwork c)).
  - intros c. apply (H (CapProcess c)).
Qed.

(** The sets the public interface of the crate produces. *)
Inductive set_built : PermissionSet -> Prop :=
  | built_empty : set_built set_new
  | built_filesystem s c : set_built s -> set_built (with_filesystem s c)
  | built_network s c : set_built s -> set_built (with_network s c)
  | built_process s c : set_built s -> set_built (with_child_process s c)
  | built_extend s other : set_built s -> set_built (extend_from s other)
  | built_additional s base : set_built s -> set_built (additional_to s base).

Lemma set_built_wf s : set_built s -> set_wf s.
Proof.
  induction 1.
  - repeat constructor.
  - by apply (set_wf_with _ c (Build_NetworkCapability "") (Build_ProcessCapability "")).
  - by apply (set_wf_with _ (Build_FilesystemCapability OpRead "") c (Build_ProcessCapability "")).
  - by apply (set_wf_with _ (Build_FilesystemCapability OpRead "") (Build_NetworkCapability "") c).
  - by apply set_wf_extend.
  - by apply set_wf_additional.
Qed.

Lemma request_new_Ok id version manifest config p arch caps r :
  request_new id version manifest config p arch caps = Ok r ->
  r = {| tool_id := id; tool_version := version; manifest_digest := manifest; config_digest := config;
         platform := p; architecture := arch; capabilities := caps |}.
Proof. unfold request_new, validate_identity, validate_digest. intros H. by res_inv. Qed.

(** What [PermissionRequest::new] checks. *)
Definition request_wf (r : PermissionRequest) : Prop :=
  request_new (tool_id r) (tool_version r) (manifest_digest r) (config_digest r) (platform r)
    (architecture r) (capabilities r) = Ok r.

(** The checks do not look at the capabilities. *)
Lemma request_wf_capabilities r caps : request_wf r ->
  request_new (tool_id r) (tool_version r) (manifest_digest r) (config_digest r) (platform r)
    (architecture r) caps
  = Ok {| tool_id := tool_id r; tool_version := tool_version r; manifest_digest := manifest_digest r;
          config_digest := config_digest r; platform := platform r; architecture := architecture r;
          capabilities := caps |}.
Proof.
  unfold request_wf, request_new. intros H.
  destruct (validate_identity (tool_id r) _) eqn:E1; [simpl in *|done].
  destruct (validate_identity (tool_version r) _) eqn:E2; [simpl in *|done].
  destruct (validate_digest (manifest_digest r) _) eqn:E3; [simpl in *|done].
  destruct (validate_digest (config_digest r) _) eqn:E4; [simpl in *|done].
  destruct (validate_identity (architecture r) _) eqn:E5; [simpl in *|done].
  unfold validate_identity, validate_digest in *. by res_inv.
Qed.

Lemma escalation_new_Ok base extra why e :
  request_wf base -> escalation_new base extra why = Ok e ->
  esc_base e = base /\
  (forall c : Capability, c ∈ additional e <-> c ∈ extra /\ c ∉ capabilities base) /\
  esc_request e = {| tool_id := tool_id base; tool_version := tool_version base;
                     manifest_digest := manifest_digest base; config_digest := config_digest base;
                     platform := platform base; architecture := architecture base;
                     capabilities := capabilities (esc_request e) |} /\
  (forall c : Capability, c ∈ capabilities (esc_request e) <-> c ∈ capabilities base \/ c ∈ extra).
Proof.
  intros Hwf. unfold escalation_new. destruct (blank_or_nul why); [done|].
  destruct (set_is_empty _); [done|]. rewrite request_wf_capabilities by done.
  intros [= <-]. simpl. split_and!; try done; [apply additional_to_elem|].
  intros c. rewrite extend_from_elem, additional_to_elem.
  destruct (decide (c ∈ capabilities base)); naive_solver.
Qed.

(** * Theorems *)

(** Capability sets are canonical: however a set is built, its vectors are
    strictly ascending, so sets that hold the same capabilities are equal
    values, and with them the requests and digests made from them. *)
Theorem permission_set_canonical (s t : PermissionSet) :
  set_built s -> set_built t -> set_wf s /\ ((forall c : Capability, c ∈ s <-> c ∈ t) -> s = t).
Proof. intros Hs%set_built_wf Ht%set_built_wf. split; [done|]. by apply set_wf_unique. Qed.

(** An escalation of a valid base request: it is accepted exactly when the
    reason is not blank and some requested capability is new; the additional
    set is then the requested capabilities the base lacks, and the expanded
    request keeps the identity of the base and holds the base capabilities and
    the additional ones. *)
Theorem escalation_spec (base : PermissionRequest) (extra : PermissionSet) (why : string) :
  request_wf base ->
  (is_ok (escalation_new base extra why) = true <->
     blank_or_nul why = false /\ exists c : Capability, c ∈ extra /\ c ∉ capabilities base) /\
  forall e, escalation_new base extra why = Ok e ->
    esc_base e = base /\ request_wf (esc_request e) /\
    (forall c : Capability, c ∈ additional e <-> c ∈ extra /\ c ∉ capabilities base) /\
    (forall c : Capability, c ∈ capabilities (esc_request e) <-> c ∈ capabilities base \/ c ∈ extra) /\
    (tool_id (esc_request e) = tool_id base /\ tool_version (esc_request e) = tool_version base /\
     manifest_digest (esc_request e) = manifest_digest base /\
     config_digest (esc_request e) = config_digest base /\
     platform (esc_request e) = platform base /\ architecture (esc_request e) = architecture base).
Proof.
  intros Hwf. destruct (blank_or_nul why) eqn:Hb.
  { unfold escalation_new. rewrite Hb. split; [split; [done|by intros [? _]]|done]. }
  assert (is_ok (escalation_new base extra why) = true <->
            exists c : Capability, c ∈ extra /\ c ∉ capabilities base) as Hok.
  { unfold escalation_new. rewrite Hb. setoid_rewrite <- additional_to_elem.
    rewrite <- set_is_empty_false. destruct (set_is_empty _); [done|].
    by rewrite request_wf_capabilities. }
  rewrite Hok. split; [naive_solver|]. intros e (Hbase & Hadd & -> & Hcaps)%escalation_new_Ok; [|done].
  split_and!; try done. by apply (request_wf_capabilities base).
Qed.

Section authority.
Context {D : Sha256} {J : Serialize PermissionRequest}.

Lemma grant_matches_true g r :
  grant_matches g r = true <->
  request_digest g = request_digest_hex r /\ forall c : Capability, c ∈ approved g -> c ∈ capabilities r.
Proof. unfold grant_matches. by rewrite andb_true_iff, bool_decide_eq_true, is_subset_of_true. Qed.

Lemma approve_with_Ok r caps sc expiry clock g :
  approve_with r caps sc expiry clock = Ok g <->
  expiry <> Some 0%N /\ (forall c : Capability, c ∈ caps -> c ∈ capabilities r) /\
  g = {| request_digest := request_digest_hex r; approved := caps; scope := sc; expires_at := expiry;
         issued_at := unix_timestamp clock |}.
Proof.
  unfold approve_with. rewrite <- is_subset_of_true. case_bool_decide; [naive_solver|].
  destruct (is_subset_of _ _); simpl; split; naive_solver.
Qed.

(** Grants never exceed their request: what the authority issues, in full, for
    a subset or with an explicit lifetime, matches the request it was asked
    for, and a subset is refused exactly when it holds something that was not
    requested or the expiration is zero. *)
Theorem grants_within_request (r : PermissionRequest) (clock : Z) :
  grant_matches (approve r clock) r = true /\
  forall caps sc expiry,
    (is_ok (approve_with r caps sc expiry clock) = true <->
       expiry <> Some 0%N /\ forall c : Capability, c ∈ caps -> c ∈ capabilities r) /\
    forall g, approve_with r caps sc expiry clock = Ok g ->
      grant_matches g r = true /\ approved g = caps /\ scope g = sc /\
      forall now, is_valid_at g now = true <-> forall e, expiry = Some e -> (now < e)%N.
Proof.
  split; [by apply grant_matches_true|]. intros caps sc expiry. split.
  - rewrite is_ok_true. setoid_rewrite approve_with_Ok. naive_solver.
  - intros g (Hz & Hsub & ->)%approve_with_Ok. split; [by apply grant_matches_true|].
    split_and!; try done. intros now. unfold is_valid_at. simpl.
    destruct expiry as [e|]; [|naive_solver]. rewrite N.ltb_lt. naive_solver.
Qed.

(** Approving an escalation: any subset of the additional capabilities is
    accepted (with a non-zero expiration) and nothing else; the grant matches
    the expanded request and holds exactly the base capabilities and the
    approved additional ones. *)
Theorem escalation_approval (base : PermissionRequest) (extra : PermissionSet) (why : string)
    (e : PermissionEscalationRequest) (chosen : PermissionSet) (sc : PermissionScope)
    (expiry : option N) (clock : Z) :
  request_wf base -> escalation_new base extra why = Ok e ->
  (is_ok (approve_escalation e chosen sc expiry clock) = true <->
     expiry <> Some 0%N /\ forall c : Capability, c ∈ chosen -> c ∈ extra /\ c ∉ capabilities base) /\
  forall g, approve_escalation e chosen sc expiry clock = Ok g ->
    grant_matches g (esc_request e) = true /\ scope g = sc /\ expires_at g = expiry /\
    forall c : Capability, c ∈ approved g <-> c ∈ capabilities base \/ c ∈ chosen.
Proof.
  intros Hwf He. apply escalation_new_Ok in He as (Hbase & Hadd & _ & Hcaps); [|done].
  assert (forall g, approve_escalation e chosen sc expiry clock = Ok g <->
            (forall c : Capability, c ∈ chosen -> c ∈ extra /\ c ∉ capabilities base) /\
            approve_with (esc_request e) (extend_from (capabilities base) chosen) sc expiry clock = Ok g) as H.
  { intros g. unfold approve_escalation. rewrite Hbase.
    pose proof (is_subset_of_true chosen (additional e)) as Hsub. setoid_rewrite Hadd in Hsub.
    destruct (is_subset_of _ _); simpl; naive_solver. }
  assert (forall c : Capability, c ∈ extend_from (capabilities base) chosen <->
            c ∈ capabilities base \/ c ∈ chosen) as Hext by apply extend_from_elem.
  split.
  - rewrite is_ok_true. setoid_rewrite H. setoid_rewrite approve_with_Ok. setoid_rewrite Hcaps.
    setoid_rewrite Hext. naive_solver.
  - intros g [_ (Hz & Hsub & ->)%approve_with_Ok]%H. simpl. split_and!; try done.
    by apply grant_matches_true.
Qed.

End authority.

(** * Examples *)

(** A digest and a serializer for the examples: the digest pads or cuts its
    input to 32 bytes, and requests are written as their tool identifier. *)
Definition padding : string := "################################".
Definition pad_sha256 : Sha256 := fun bytes => str_take 32 (bytes +:+ padding).
Definition tool_serialize : Serialize PermissionRequest := fun r => (tool_id r, true).

Section examples.
#[local] Existing Instance pad_sha256.
#[local] Existing Instance tool_serialize.

Definition read_etc : FilesystemCapability := {| operation := OpRead; cap_path := "/etc/tool" |}.
Definition web : NetworkCapability := {| endpoint := "example.com" |}.

Definition base_example : PermissionRequest :=
  {| tool_id := "tool"; tool_version := "1.0.0"; manifest_digest := to_hex padding;
     config_digest := to_hex padding; platform := Linux; architecture := "x86_64";
     capabilities := with_filesystem set_new read_etc |}.

Definition extra_example : PermissionSet := with_network (with_filesystem set_new read_etc) web.

Lemma permission_set_canonical_witness :
  with_network (with_filesystem set_new read_etc) web = with_filesystem (with_network set_new web) read_etc.
Proof.
  apply (permission_set_canonical (with_network (with_filesystem set_new read_etc) web)
           (with_filesystem (with_network set_new web) read_etc)); [repeat constructor..|].
  intros c. rewrite (proj1 (proj2 (with_elem _ c)) web), (proj1 (with_elem _ c) read_etc),
    (proj1 (with_elem _ c) read_etc), (proj1 (proj2 (with_elem _ c)) web). naive_solver.
Defined.

Lemma base_example_wf : request_wf base_example.
Proof. reflexivity. Qed.

Lemma escalation_spec_witness :
  is_ok (escalation_new base_example extra_example "download") = true.
Proof.
  apply (escalation_spec base_example extra_example "download" base_example_wf).
  split; [reflexivity|]. exists (CapNetwork web). split; [apply list_elem_of_here|apply not_elem_of_nil].
Defined.

Definition escalation_example : PermissionEscalationRequest :=
  {| esc_base := base_example;
     esc_request := {| tool_id := "tool"; tool_version := "1.0.0"; manifest_digest := to_hex padding;
                       config_digest := to_hex padding; platform := Linux; architecture := "x86_64";
                       capabilities := extra_example |};
     additional := with_network set_new web; reason := "download" |}.

Lemma escalation_approval_witness :
  is_ok (approve_escalation escalation_example (with_network set_new web) Session None 0) = true.
Proof.
  apply (escalation_approval base_example extra_example "download" escalation_example
           (with_network set_new web) Session None 0 base_example_wf eq_refl).
  split; [discriminate|]. intros [c|c|c] Hc; [by apply elem_of_nil in Hc| |by apply elem_of_nil in Hc].
  apply list_elem_of_singleton in Hc as ->. split; [apply list_elem_of_here|apply not_elem_of_nil].
Defined.

End examples.
