(* ===== verification/HostFs.v ===== *)
(** The part of [std::fs] and [std::path] the grant store uses, on a POSIX
    host: a tree of directories and regular files, and the calls on it.  Any
    call may also fail for a reason outside the model (an I/O error, a missing
    right, a full disk): the host carries a list of outcomes, one per call, and
    a fault may leave a multi-step call part-way.  Symbolic links are not
    represented. *)

From Stdlib Require Import Ascii String NArith Lia.
From stdpp Require Import base list gmap strings option pretty.
From S2P Require Import Prelude Text NativePath.

(** * Paths *)

(** Paths name files by their components, the way [Path] compares them. *)
Abbreviation fs_path := (list Component).

Definition component_encode (c : Component) : nat * string :=
  match c with
  | Prefix s => (0, s) | RootDir => (1, "") | CurDir => (2, "") | ParentDir => (3, "") | Normal s => (4, s)
  end.
Definition component_decode (e : nat * string) : Component :=
  match e with
  | (0, s) => Prefix s | (1, _) => RootDir | (2, _) => CurDir | (3, _) => ParentDir | (_, s) => Normal s
  end.

#[global] Instance Component_countable : Countable Component.
Proof. apply (inj_countable' component_encode component_decode). by intros []. Defined.

(** [Path::file_stem]'s split at the last dot; a name that starts with its
    only dot has no extension. *)
Definition file_stem (name : string) : string :=
  let pieces := str_split "." name in
  let before := str_join "." (take (length pieces - 1) pieces) in
  if bool_decide (before = "") then name else before.

(** [Path::with_extension]: nothing to replace when there is no file name. *)
Definition with_extension (p : fs_path) (extension : string) : fs_path :=
  match last p with
  | Some (Normal name) => take (length p - 1) p ++ [Normal (file_stem name +:+ "." +:+ extension)]
  | _ => p
  end.

(** [Path::parent] *)
Definition parent (p : fs_path) : option fs_path :=
  match last p with
  | Some (Normal _ | CurDir | ParentDir) => Some (take (length p - 1) p)
  | _ => None
  end.

(** * The tree *)

Inductive node :=
  | Dir (mode : N)
  | File (mode : N) (content : string).

(** The outcome of a call the model does not decide: the message of its
    [io::Error] and how far a call of several steps came. *)
Record Fault := { message : string; progress : nat }.

Record Host := {
  tree : gmap fs_path node;
  faults : list (option Fault);
  umask : N;
  process_id : N;
  temp_counter : N
}.

Definition set_tree (h : Host) (t : gmap fs_path node) : Host :=
  {| tree := t; faults := faults h; umask := umask h; process_id := process_id h;
     temp_counter := temp_counter h |}.

Definition set_faults (h : Host) (fs : list (option Fault)) : Host :=
  {| tree := tree h; faults := fs; umask := umask h; process_id := process_id h;
     temp_counter := temp_counter h |}.

(** Permission bits, in the octal the sources write: [0o777], [0o666], [0o600]
    and [0o077]. *)
Definition MODE_777 : N := 7 * 64 + 7 * 8 + 7.
Definition MODE_666 : N := 6 * 64 + 6 * 8 + 6.
Definition MODE_600 : N := 6 * 64.
Definition MODE_077 : N := 7 * 8 + 7.

(** * Effects *)

(** A computation on the host that may fail. *)
Definition io (E A : Type) : Type := Host -> result E A * Host.

#[global] Instance io_ret {E} : MRet (io E) := fun _ a h => (Ok a, h).
#[global] Instance io_bind {E} : MBind (io E) := fun A B f m h =>
  match m h with (Ok a, h') => f a h' | (Err e, h') => (Err e, h') end.

Definition lift {E A} (r : result E A) : io E A := fun h => (r, h).
Definition io_map_err {E F A} (f : E -> F) (m : io E A) : io F A := fun h =>
  let '(r, h') := m h in (map_err f r, h').

(** The next outcome. *)
Definition next_fault (h : Host) : option Fault * Host :=
  match faults h with [] => (None, h) | f :: fs => (f, set_faults h fs) end.

(** A call with effect [run] on the tree; a fault keeps what [partial] leaves. *)
Definition call {A} (run : gmap fs_path node -> result string A * gmap fs_path node)
    (partial : nat -> gmap fs_path node -> gmap fs_path node) : io string A := fun h =>
  let '(f, h) := next_fault h in
  match f with
  | Some f => (Err (message f), set_tree h (partial (progress f) (tree h)))
  | None => let '(r, t) := run (tree h) in (r, set_tree h t)
  end.

(** A call that fails without an effect. *)
Definition simple_call {A} (run : gmap fs_path node -> result string A * gmap fs_path node) : io string A :=
  call run (fun _ t => t).

(** [Path::exists]: a failing [stat] counts as absence. *)
Definition path_exists {E} (p : fs_path) : io E bool := fun h =>
  let '(f, h) := next_fault h in
  (Ok match f with Some _ => false | None => bool_decide (is_Some (tree h !! p)) end, h).

Definition node_mode (n : node) : N := match n with Dir m => m | File m _ => m end.

(** [fs::metadata(path)?.permissions().mode()] *)
Definition metadata_mode (p : fs_path) : io string N := simple_call (fun t =>
  (match t !! p with Some n => Ok (node_mode n) | None => Err "No such file or directory" end, t)).

(** [fs::set_permissions(path, Permissions::from_mode(mode))] *)
Definition set_permissions (p : fs_path) (mode : N) : io string unit := simple_call (fun t =>
  match t !! p with
  | Some (Dir _) => (Ok (), <[p := Dir mode]> t)
  | Some (File _ c) => (Ok (), <[p := File mode c]> t)
  | None => (Err "No such file or directory", t)
  end).

(** [fs::read] *)
Definition fs_read (p : fs_path) : io string string := simple_call (fun t =>
  (match t !! p with
   | Some (File _ c) => Ok c
   | Some (Dir _) => Err "Is a directory"
   | None => Err "No such file or directory"
   end, t)).

(** The paths [create_dir_all] visits, outermost first. *)
Definition ancestors (p : fs_path) : list fs_path := (fun n => take n p) <$> seq 1 (length p).

Definition make_dir (mode : N) (t : gmap fs_path node) (p : fs_path) : gmap fs_path node :=
  match t !! p with None => <[p := Dir mode]> t | Some _ => t end.

(** [fs::create_dir_all]: an ancestor that is a file stops it. *)
Definition create_dir_all (p : fs_path) : io string unit := fun h =>
  let mode := N.ldiff MODE_777 (umask h) in
  call (fun t =>
          if existsb (fun q => match t !! q with Some (File _ _) => true | _ => false end) (ancestors p)
          then (Err "Not a directory", t)
          else (Ok (), foldl (make_dir mode) t (ancestors p)))
       (fun n t => foldl (make_dir mode) t (take n (ancestors p))) h.

(** [OpenOptions::open] with [create(true)] and [write(true)], for a mode
    subject to the umask. *)
Definition open_create (p : fs_path) (mode : N) (truncate : bool) : io string unit := fun h =>
  let mode := N.ldiff mode (umask h) in
  simple_call (fun t =>
    match t !! p with
    | Some (Dir _) => (Err "Is a directory", t)
    | Some (File m c) => (Ok (), if truncate then <[p := File m ""]> t else t)
    | None =>
        match t !! take (length p - 1) p with
        | Some (Dir _) => (Ok (), <[p := File mode ""]> t)
        | Some (File _ _) => (Err "Not a directory", t)
        | None => (Err "No such file or directory", t)
        end
    end) h.

(** [File::write_all] on a file opened empty; a fault leaves a prefix. *)
Definition put_content (p : fs_path) (bytes : string) (t : gmap fs_path node) : gmap fs_path node :=
  match t !! p with Some (File m _) => <[p := File m bytes]> t | _ => t end.

Definition write_all (p : fs_path) (bytes : string) : io string unit :=
  call (fun t => (Ok (), put_content p bytes t)) (fun n t => put_content p (str_take n bytes) t).

(** [File::sync_all] and [libc::flock]: they can only fail. *)
Definition sync_all : io string unit := simple_call (fun t => (Ok (), t)).
Definition flock : io string unit := simple_call (fun t => (Ok (), t)).

(** [fs::rename] of a regular file *)
Definition rename (source target : fs_path) : io string unit := simple_call (fun t =>
  match t !! source, t !! target with
  | Some n, (None | Some (File _ _)) => (Ok (), <[target := n]> (delete source t))
  | Some _, Some (Dir _) => (Err "Is a directory", t)
  | None, _ => (Err "No such file or directory", t)
  end).

(** [TEMP_COUNTER.fetch_add(1, Ordering::Relaxed)] on an [AtomicU64] *)
Definition fetch_add_counter {E} : io E N := fun h =>
  (Ok (temp_counter h),
   {| tree := tree h; faults := faults h; umask := umask h; process_id := process_id h;
      temp_counter := (temp_counter h + 1) mod 2 ^ 64 |}).

(** * Names *)

Lemma str_join_snoc c l x : l <> [] -> str_join c (l ++ [x]) = str_join c l +:+ String c x.
Proof.
  induction l as [|y [|z l] IH]; intros Hl; [done|done|].
  change ((y :: z :: l) ++ [x]) with (y :: z :: (l ++ [x])).
  rewrite !str_join_cons2. change (z :: l ++ [x]) with ((z :: l) ++ [x]). rewrite IH by done.
  by rewrite <- string_app_assoc.
Qed.

(** An extension with a dot of its own names another file. *)
Lemma file_stem_dotted name extension :
  contains_char "." extension = true -> file_stem name +:+ "." +:+ extension <> name.
Proof.
  intros Hdot. unfold file_stem. case_bool_decide as Hb.
  { intros H%(f_equal String.length). rewrite !string_app_length in H. simpl in H. lia. }
  intros H. pose proof (str_join_split "." name) as Hj.
  pose proof (str_split_pieces "." name) as Hp.
  destruct (str_split "." name) as [|x l] using rev_ind; [done|clear IHl].
  rewrite length_app in Hb, H; simpl in Hb, H. rewrite Nat.add_sub, take_app_length in Hb, H.
  rewrite str_join_snoc in Hj by (intros ->; done). rewrite <- Hj in H.
  apply (inj (String.append _)) in H. change ("." +:+ extension) with (String "." extension) in H.
  injection H as ->. apply Forall_app in Hp as [_ Hp]. apply Forall_cons in Hp as [Hp _]. congruence.
Qed.

Lemma with_extension_snoc dir name extension :
  with_extension (dir ++ [Normal name]) extension = dir ++ [Normal (file_stem name +:+ "." +:+ extension)].
Proof. unfold with_extension. by rewrite last_snoc, length_app, Nat.add_sub, take_app_length. Qed.

Lemma parent_snoc dir name : parent (dir ++ [Normal name]) = Some dir.
Proof. unfold parent. by rewrite last_snoc, length_app, Nat.add_sub, take_app_length. Qed.

Lemma ancestors_length p q : q ∈ ancestors p -> length q <= length p.
Proof.
  intros (n & -> & Hn)%list_elem_of_fmap. rewrite length_take. lia.
Qed.

Lemma ancestors_self p : p <> [] -> p ∈ ancestors p.
Proof.
  intros Hp. apply list_elem_of_fmap. exists (length p). rewrite take_ge by done. split; [done|].
  apply elem_of_seq. destruct p; simpl in *; [done|lia].
Qed.

Lemma snoc_not_ancestor dir c : dir ++ [c] ∉ ancestors dir.
Proof. intros H%ancestors_length. rewrite length_app in H. simpl in H. lia. Qed.

(** * Directories *)

Lemma make_dirs_lookup mode t ps q :
  foldl (make_dir mode) t ps !! q =
  match t !! q with
  | Some n => Some n
  | None => if bool_decide (q ∈ ps) then Some (Dir mode) else None
  end.
Proof.
  revert t. induction ps as [|p ps IH]; intros t; simpl.
  { by destruct (t !! q). }
  rewrite IH. unfold make_dir. destruct (decide (q = p)) as [->|Hne].
  - destruct (t !! p) eqn:E; [by rewrite E|]. rewrite lookup_insert_eq.
    by rewrite bool_decide_eq_true_2 by apply list_elem_of_here.
  - assert (q ∈ p :: ps <-> q ∈ ps) as Hiff by (rewrite elem_of_cons; naive_solver).
    rewrite (bool_decide_ext _ _ Hiff).
    destruct (t !! p); [done|]. by rewrite lookup_insert_ne.
Qed.

(** * Where a computation writes *)

(** Outside the paths of [P] the trees agree; the process does not change. *)
Definition frame (P : fs_path -> Prop) (h h' : Host) : Prop :=
  (forall q, ~ P q -> tree h' !! q = tree h !! q) /\
  umask h' = umask h /\ process_id h' = process_id h.

Definition within {E A} (P : fs_path -> Prop) (m : io E A) : Prop := forall h, frame P h (m h).2.

Section frames.
Context (P : fs_path -> Prop) {E A B : Type}.
Implicit Types (m : io E A).

Lemma frame_refl h : frame P h h.
Proof. done. Qed.

Lemma frame_trans h1 h2 h3 : frame P h1 h2 -> frame P h2 h3 -> frame P h1 h3.
Proof. intros (H1 & H2 & H3) (H4 & H5 & H6). split_and!; [|congruence..]. intros q Hq. rewrite H4; auto. Qed.

Lemma frame_next_fault h : frame P h (next_fault h).2.
Proof. unfold next_fault. by destruct (faults h). Qed.

Lemma frame_set_tree h t : (forall q, ~ P q -> t !! q = tree h !! q) -> frame P h (set_tree h t).
Proof. done. Qed.

Lemma within_ret (a : A) : within (E := E) P (mret a).
Proof. intros h. apply frame_refl. Qed.

Lemma within_lift (r : result E A) : within P (lift r).
Proof. intros h. apply frame_refl. Qed.

Lemma within_bind m (f : A -> io E B) : within P m -> (forall a, within P (f a)) -> within P (m ≫= f).
Proof.
  intros Hm Hf h. unfold mbind, io_bind. specialize (Hm h). destruct (m h) as [[a|e] h']; [|done].
  eapply frame_trans; [exact Hm|apply Hf].
Qed.

Lemma within_map_err {F} (g : E -> F) m : within P m -> within P (io_map_err g m).
Proof. intros Hm h. unfold io_map_err. specialize (Hm h). by destruct (m h). Qed.

Lemma within_call run partial :
  (forall t q, ~ P q -> (run t).2 !! q = t !! q) ->
  (forall n t q, ~ P q -> partial n t !! q = t !! q) -> within P (call (A := A) run partial).
Proof.
  intros Hr Hp h. unfold call. pose proof (frame_next_fault h) as H0.
  destruct (next_fault h) as [[f|] h1]; simpl in *.
  - eapply frame_trans; [exact H0|]. apply frame_set_tree. auto.
  - specialize (Hr (tree h1)). destruct (run (tree h1)) as [r t]. simpl in *.
    eapply frame_trans; [exact H0|]. by apply frame_set_tree.
Qed.

Lemma within_simple run :
  (forall t q, ~ P q -> (run t).2 !! q = t !! q) -> within P (simple_call (A := A) run).
Proof. intros H. by apply within_call. Qed.

End frames.

Create HintDb frames.
#[export] Hint Resolve within_ret within_lift within_bind within_map_err : frames.

Section calls.
Context (P : fs_path -> Prop).

Lemma within_exists {E} p : within (E := E) P (path_exists p).
Proof.
  intros h. unfold path_exists. pose proof (frame_next_fault P h). by destruct (next_fault h).
Qed.

Lemma within_metadata p : within P (metadata_mode p).
Proof. by apply within_simple. Qed.

Lemma within_set_permissions p mode : P p -> within P (set_permissions p mode).
Proof.
  intros Hp. apply within_simple. intros t q Hq.
  destruct (t !! p) as [[]|]; simpl; rewrite ?lookup_insert_ne by congruence; done.
Qed.

Lemma within_read p : within P (fs_read p).
Proof. by apply within_simple. Qed.

Lemma within_create_dir_all p : (forall q, q ∈ ancestors p -> P q) -> within P (create_dir_all p).
Proof.
  intros Hp h. apply within_call.
  - intros t q Hq. destruct (existsb _ _); [done|]. simpl. rewrite make_dirs_lookup.
    destruct (t !! q); [done|]. rewrite bool_decide_eq_false_2 by auto. done.
  - intros n t q Hq. rewrite make_dirs_lookup. destruct (t !! q); [done|].
    rewrite bool_decide_eq_false_2; [done|].
    intros Hin. apply Hq, Hp. by apply elem_of_take in Hin as (i & Hi%list_elem_of_lookup_2 & _).
Qed.

Lemma within_open p mode truncate : P p -> within P (open_create p mode truncate).
Proof.
  intros Hp h. apply within_simple. intros t q Hq.
  destruct (t !! p) as [[]|]; [done|..]; [destruct truncate|destruct (t !! take _ p) as [[]|]]; simpl;
    rewrite ?lookup_insert_ne by congruence; done.
Qed.

Lemma within_write_all p bytes : P p -> within P (write_all p bytes).
Proof.
  intros Hp. apply within_call; intros; unfold put_content; simpl;
    destruct (_ !! p) as [[]|]; rewrite ?lookup_insert_ne by congruence; done.
Qed.

Lemma within_sync : within P sync_all.
Proof. by apply within_simple. Qed.
Lemma within_flock : within P flock.
Proof. by apply within_simple. Qed.

Lemma within_rename source target : P source -> P target -> within P (rename source target).
Proof.
  intros Hs Ht. apply within_simple. intros t q Hq.
  destruct (t !! source), (t !! target) as [[]|]; simpl; try done;
    rewrite lookup_insert_ne, lookup_delete_ne by congruence; done.
Qed.

Lemma within_fetch_add {E} : within (E := E) P fetch_add_counter.
Proof. intros h. done. Qed.

End calls.

#[export] Hint Resolve within_exists within_metadata within_set_permissions within_read
  within_create_dir_all within_open within_write_all within_sync within_flock within_rename
  within_fetch_add : frames.

(** * Runs without faults *)

Lemma call_ok {A} run partial h : faults h = [] ->
  call (A := A) run partial h = ((run (tree h)).1, set_tree h (run (tree h)).2).
Proof. intros Hf. unfold call, next_fault. rewrite Hf. by destruct (run (tree h)). Qed.

Lemma path_exists_ok {E} p h : faults h = [] ->
  path_exists (E := E) p h = (Ok (bool_decide (is_Some (tree h !! p))), h).
Proof. intros Hf. unfold path_exists, next_fault. by rewrite Hf. Qed.

Lemma io_bind_Ok {E A B} (m : io E A) (f : A -> io E B) h a h' :
  m h = (Ok a, h') -> (m ≫= f) h = f a h'.
Proof. intros H. unfold mbind, io_bind. by rewrite H. Qed.

Lemma io_bind_inv {E A B} (m : io E A) (f : A -> io E B) h b h'' :
  (m ≫= f) h = (Ok b, h'') -> exists a h', m h = (Ok a, h') /\ f a h' = (Ok b, h'').
Proof. unfold mbind, io_bind. destruct (m h) as [[a|e] h'] eqn:E1; [eauto|done]. Qed.

Lemma io_map_err_Ok {E F A} (g : E -> F) (m : io E A) h a h' :
  io_map_err g m h = (Ok a, h') <-> m h = (Ok a, h').
Proof. unfold io_map_err. destruct (m h) as [[]]; simpl; naive_solver. Qed.

(** A call that succeeded had its effect. *)
Lemma call_Ok_inv {A} run partial h a h' : call (A := A) run partial h = (Ok a, h') ->
  run (tree h) = (Ok a, tree h') /\ umask h' = umask h /\ process_id h' = process_id h.
Proof.
  unfold call. pose proof (frame_next_fault (fun _ => False) h) as (Ht & Hu & Hp).
  assert (tree (next_fault h).2 = tree h) as Heq by (unfold next_fault; by destruct (faults h)).
  destruct (next_fault h) as [[f|] h1]; simpl in *; [done|]. rewrite Heq.
  destruct (run (tree h)) as [r t]. intros [= -> <-]. done.
Qed.

Lemma set_tree_same h : set_tree h (tree h) = h.
Proof. by destruct h. Qed.

Section no_faults.
Context (h : Host) (Hf : faults h = []).

Lemma create_dir_all_ok p :
  (forall q m c, q ∈ ancestors p -> tree h !! q <> Some (File m c)) ->
  create_dir_all p h
  = (Ok (), set_tree h (foldl (make_dir (N.ldiff MODE_777 (umask h))) (tree h) (ancestors p))).
Proof.
  intros Hp. unfold create_dir_all. rewrite call_ok by done.
  assert (existsb (fun q => match tree h !! q with Some (File _ _) => true | _ => false end) (ancestors p)
          = false) as ->; [|done].
  apply existsb_elem_false. intros q Hq. destruct (tree h !! q) as [[]|] eqn:E; [done| |done].
  by eapply Hp in E.
Qed.

Lemma open_create_ok p mode truncate m :
  (forall m, tree h !! p <> Some (Dir m)) -> tree h !! take (length p - 1) p = Some (Dir m) ->
  exists m c, open_create p mode truncate h = (Ok (), set_tree h (<[p := File m c]> (tree h))).
Proof.
  intros Hd Hpar. unfold open_create, simple_call. rewrite call_ok by done.
  destruct (tree h !! p) as [[m'|m' c]|] eqn:E; [by destruct (Hd m')|..].
  - destruct truncate; simpl; [eauto|]. exists m', c. by rewrite (insert_id (tree h)) by done.
  - rewrite Hpar. simpl. eauto.
Qed.

Lemma set_permissions_ok p mode m c : tree h !! p = Some (File m c) ->
  set_permissions p mode h = (Ok (), set_tree h (<[p := File mode c]> (tree h))).
Proof. intros E. unfold set_permissions, simple_call. rewrite call_ok by done. by rewrite E. Qed.

Lemma metadata_ok p n : tree h !! p = Some n -> metadata_mode p h = (Ok (node_mode n), h).
Proof.
  intros E. unfold metadata_mode, simple_call. rewrite call_ok by done. rewrite E. simpl.
  by rewrite set_tree_same.
Qed.

Lemma fs_read_ok p m c : tree h !! p = Some (File m c) -> fs_read p h = (Ok c, h).
Proof.
  intros E. unfold fs_read, simple_call. rewrite call_ok by done. rewrite E. simpl.
  by rewrite set_tree_same.
Qed.

Lemma write_all_ok p bytes m c : tree h !! p = Some (File m c) ->
  write_all p bytes h = (Ok (), set_tree h (<[p := File m bytes]> (tree h))).
Proof. intros E. unfold write_all. rewrite call_ok by done. simpl. unfold put_content. by rewrite E. Qed.

Lemma sync_all_ok : sync_all h = (Ok (), h).
Proof. unfold sync_all, simple_call. rewrite call_ok by done. simpl. by rewrite set_tree_same. Qed.

Lemma flock_ok : flock h = (Ok (), h).
Proof. unfold flock, simple_call. rewrite call_ok by done. simpl. by rewrite set_tree_same. Qed.

Lemma rename_ok source target n : tree h !! source = Some n ->
  (forall m, tree h !! target <> Some (Dir m)) ->
  rename source target h = (Ok (), set_tree h (<[target := n]> (delete source (tree h)))).
Proof.
  intros E Hd. unfold rename, simple_call. rewrite call_ok by done. rewrite E.
  destruct (tree h !! target) as [[]|] eqn:E'; try done. by destruct (Hd mode).
Qed.

End no_faults.

Lemma io_bind_assoc {E A B C} (m : io E A) (f : A -> io E B) (g : B -> io E C) h :
  ((m ≫= f) ≫= g) h = (m ≫= (fun x => f x ≫= g)) h.
Proof. unfold mbind, io_bind. by destruct (m h) as [[]]. Qed.

Lemma io_bind_run {E A B} (m : io E A) (f : A -> io E B) h :
  (m ≫= f) h = match m h with (Ok a, h') => f a h' | (Err e, h') => (Err e, h') end.
Proof. done. Qed.

Lemma io_bind_map {E A B} (m : io E A) (f : A -> B) h :
  (m ≫= (fun a => mret (f a))) h = (f <$> (m h).1, (m h).2).
Proof. rewrite io_bind_run. by destruct (m h) as [[]]. Qed.
