(* ===== verification/GrantStore.v ===== *)
(** [cageforge-permissions]: the persistent grant store.  Its document is read
    under a file lock for every operation and replaced by renaming a temporary
    file over it. *)

From Stdlib Require Import Ascii String NArith ZArith Lia.
From stdpp Require Import base list gmap strings option sorting pretty.
From S2P Require Import Prelude Text BTree NativePath GrantId Permissions HostFs.

(** * Documents *)

Record StoredGrant := {
  sg_request_digest : string;
  sg_tool_id : string;
  sg_tool_version : string;
  sg_manifest_digest : string;
  sg_config_digest : string;
  sg_platform : PlatformId;
  sg_architecture : string;
  sg_approved : PermissionSet;
  sg_scope : PermissionScope;
  sg_expires_at : option N;
  sg_issued_at : N
}.

Record StoreDocument := { schema_version : N; grants : BTreeMap string StoredGrant }.

Definition SCHEMA_VERSION : N := 2.

Definition empty_document : StoreDocument := {| schema_version := SCHEMA_VERSION; grants := [] |}.

Record GrantSummary := {
  gs_id : GrantId;
  gs_tool_id : string;
  gs_tool_version : string;
  gs_platform : PlatformId;
  gs_architecture : string;
  gs_scope : PermissionScope;
  gs_issued_at : N;
  gs_expires_at : option N
}.

Record GrantPage := { entries : list GrantSummary; next_cursor : option GrantPageCursor }.
Record GrantPageRequest := { page_size : N; cursor : option GrantPageCursor }.

Inductive RevokeResult := Revoked | NotFound.

(** [serde_json::to_vec_pretty] and [serde_json::from_slice] on documents *)
Class Json := {
  to_vec_pretty : StoreDocument -> result string string;
  from_slice : string -> result string StoreDocument
}.

(** Serialized documents read back, and a document that was read has the sorted
    keys of a [BTreeMap]. *)
Class JsonLaws (J : Json) : Prop := {
  json_roundtrip d : bt_wf (grants d) -> exists bytes, to_vec_pretty d = Ok bytes /\ from_slice bytes = Ok d;
  json_sorted bytes d : from_slice bytes = Ok d -> bt_wf (grants d)
}.

Definition MAX_PAGE_SIZE : N := 1000.

(** [GrantPageRequest::new] *)
Definition page_request_new (size : N) (c : option GrantPageCursor) : result StoreError GrantPageRequest :=
  reject (size =? 0)%N with InvalidPageSize size MAX_PAGE_SIZE ;;
  reject (MAX_PAGE_SIZE <? size)%N with InvalidPageSize size MAX_PAGE_SIZE ;;
  Ok {| page_size := size; cursor := c |}.

Definition summary_from_stored (id : GrantId) (s : StoredGrant) : GrantSummary :=
  {| gs_id := id; gs_tool_id := sg_tool_id s; gs_tool_version := sg_tool_version s;
     gs_platform := sg_platform s; gs_architecture := sg_architecture s; gs_scope := sg_scope s;
     gs_issued_at := sg_issued_at s; gs_expires_at := sg_expires_at s |}.

Section store.
Context {D : Sha256} {R : Serialize PermissionRequest} {T : Serialize StoreDocument} {J : Json}.

(** * Reading and writing the file *)

(** [set_owner_only_permissions] and [ensure_owner_only_permissions] on Unix *)
Definition set_owner_only_permissions (p : fs_path) : io string unit := set_permissions p MODE_600.

Definition ensure_owner_only_permissions (p : fs_path) : io string unit :=
  mode ← metadata_mode p;
  if bool_decide (N.land mode MODE_077 <> 0%N)
  then lift (Err "permission store is accessible by group or other users")
  else mret ().

(** The loop of [read_document] over the grants *)
Definition check_grant (_ : unit) (entry : string * StoredGrant) : result StoreError unit :=
  let '(key, grant) := entry in
  id ← map_err (fun _ => StoreInvalidGrantId) (from_hex key);
  reject bool_decide (to_hex id <> key) with StoreInvalidGrantId ;;
  reject bool_decide (sg_request_digest grant <> key)
    with StoreFormat "grant key does not match request digest" ;;
  Ok ().

(** What [read_document] makes of the bytes of the file *)
Definition parse_document (bytes : string) : result StoreError StoreDocument :=
  document ← map_err StoreFormat (from_slice bytes);
  reject bool_decide (schema_version document <> SCHEMA_VERSION)
    with UnsupportedSchema (schema_version document) ;;
  _ ← foldM check_grant () (grants document);
  Ok document.

Definition read_document (p : fs_path) : io StoreError StoreDocument :=
  _ ← io_map_err StoreWrite (ensure_owner_only_permissions p);
  bytes ← io_map_err StoreRead (fs_read p);
  lift (parse_document bytes).

Definition temporary_path (p : fs_path) (pid n : N) : fs_path :=
  with_extension p ("json.tmp." +:+ pretty pid +:+ "." +:+ pretty n).

(** The first part of [write_document]: the serialized document in a synced
    temporary file only the owner can read *)
Definition write_temporary (p : fs_path) (document : StoreDocument) : io StoreError fs_path :=
  _ ← io_map_err StoreWrite (create_dir_all (default [CurDir] (parent p)));
  n ← fetch_add_counter;
  temporary ← (fun h => (Ok (temporary_path p (process_id h) n), h));
  bytes ← lift (map_err StoreFormat (to_vec_pretty document));
  _ ← io_map_err StoreWrite (open_create temporary MODE_666 true);
  _ ← io_map_err StoreWrite (set_owner_only_permissions temporary);
  _ ← io_map_err StoreWrite (write_all temporary bytes);
  _ ← io_map_err StoreWrite sync_all;
  mret temporary.

Definition write_document (p : fs_path) (document : StoreDocument) : io StoreError unit :=
  temporary ← write_temporary p document;
  _ ← io_map_err StoreWrite (rename temporary p);
  io_map_err StoreWrite (ensure_owner_only_permissions p).

Definition lock_path (p : fs_path) : fs_path := with_extension p "json.lock".

(** [acquire_file_lock] on Unix; the lock is held to the end of the operation. *)
Definition acquire_file_lock (p : fs_path) : io StoreError unit :=
  let lock := lock_path p in
  _ ← match parent lock with
      | Some q => io_map_err StoreWrite (create_dir_all q)
      | None => mret ()
      end;
  _ ← io_map_err StoreWrite (open_create lock MODE_600 false);
  _ ← io_map_err StoreWrite (set_owner_only_permissions lock);
  _ ← io_map_err StoreWrite (ensure_owner_only_permissions lock);
  io_map_err StoreLocked flock.

(** * [PermissionStore] *)

(** [PermissionStore::open]; a store is its path. *)
Definition store_open (p : path) : io StoreError fs_path :=
  if is_absolute p then
    let p := components p in
    present ← path_exists p;
    _ ← (if (present : bool) then _ ← read_document p; mret () else mret ());
    mret p
  else lift (Err (PathNotAbsolute p)).

Definition read_current_document (p : fs_path) : io StoreError StoreDocument :=
  present ← path_exists p;
  if (present : bool) then _ ← acquire_file_lock p; read_document p
  else mret empty_document.

(** The closure of [PermissionStore::get] *)
Definition usable_grant (request : PermissionRequest) (now : N) (stored : StoredGrant) :
  option PermissionGrant :=
  let metadata_matches :=
    bool_decide (sg_request_digest stored = request_digest_hex request)
    && bool_decide (sg_tool_id stored = tool_id request)
    && bool_decide (sg_tool_version stored = tool_version request)
    && bool_decide (sg_manifest_digest stored = manifest_digest request)
    && bool_decide (sg_config_digest stored = config_digest request)
    && bool_decide (sg_platform stored = platform request)
    && bool_decide (sg_architecture stored = architecture request) in
  let grant := {| request_digest := sg_request_digest stored; approved := sg_approved stored;
                  scope := sg_scope stored; expires_at := sg_expires_at stored;
                  issued_at := sg_issued_at stored |} in
  if metadata_matches && bool_decide (sg_scope stored = Persistent) && grant_matches grant request
     && is_valid_at grant now
  then Some grant else None.

Definition store_get (p : fs_path) (request : PermissionRequest) (clock : Z) :
  io StoreError (option PermissionGrant) :=
  document ← read_current_document p;
  mret (bt_get (request_digest_hex request) (grants document)
        ≫= usable_grant request (unix_timestamp clock)).

Definition stored_of (grant : PermissionGrant) (request : PermissionRequest) : StoredGrant :=
  {| sg_request_digest := request_digest grant; sg_tool_id := tool_id request;
     sg_tool_version := tool_version request; sg_manifest_digest := manifest_digest request;
     sg_config_digest := config_digest request; sg_platform := platform request;
     sg_architecture := architecture request; sg_approved := approved grant; sg_scope := scope grant;
     sg_expires_at := expires_at grant; sg_issued_at := issued_at grant |}.

Definition with_grants (d : StoreDocument) (g : BTreeMap string StoredGrant) : StoreDocument :=
  {| schema_version := schema_version d; grants := g |}.

Definition store_put (p : fs_path) (grant : PermissionGrant) (request : PermissionRequest) :
  io StoreError unit :=
  if negb (grant_matches grant request) then lift (Err GrantMismatch)
  else if bool_decide (scope grant <> Persistent) then lift (Err NonPersistentGrant)
  else
    _ ← acquire_file_lock p;
    present ← path_exists p;
    document ← (if (present : bool) then read_document p else mret empty_document);
    write_document p
      (with_grants document
         (bt_insert (request_digest_hex request) (stored_of grant request) (grants document))).

(** The loop of [PermissionStore::list_page]: the entries and whether more
    grants follow. *)
Fixpoint page_loop (size : N) (after : option GrantId) (acc : list GrantSummary)
    (gs : list (string * StoredGrant)) : result StoreError (list GrantSummary * bool) :=
  match gs with
  | [] => Ok (acc, false)
  | (key, stored) :: gs' =>
      id ← map_err (fun _ => StoreInvalidGrantId) (from_hex key);
      if match after with Some a => match cmp id a with Gt => false | _ => true end | None => false end
      then page_loop size after acc gs'
      else if (N.of_nat (length acc) =? size)%N then Ok (acc, true)
      else page_loop size after (acc ++ [summary_from_stored id stored]) gs'
  end.

Definition list_document (document : StoreDocument) (request : GrantPageRequest) :
  result StoreError GrantPage :=
  let snapshot := canonical_digest document in
  reject match cursor request with
         | Some c => bool_decide (GrantId.snapshot c <> snapshot)
         | None => false
         end
    with ListingSnapshotExpired ;;
  '(entries, has_more) ← page_loop (page_size request) (last_id <$> cursor request) [] (grants document);
  Ok {| entries := entries;
        next_cursor :=
          if (has_more : bool)
          then (fun e => {| snapshot := snapshot; last_id := gs_id e |}) <$> last entries
          else None |}.

Definition store_list_page (p : fs_path) (request : GrantPageRequest) : io StoreError GrantPage :=
  document ← read_current_document p;
  lift (list_document document request).

Definition store_revoke (p : fs_path) (id : GrantId) : io StoreError RevokeResult :=
  present ← path_exists p;
  if negb (present : bool) then mret NotFound
  else
    _ ← acquire_file_lock p;
    document ← read_document p;
    match bt_get (to_hex id) (grants document) with
    | None => mret NotFound
    | Some _ =>
        _ ← write_document p (with_grants document (bt_remove (to_hex id) (grants document)));
        mret Revoked
    end.

Definition store_revoke_all (p : fs_path) : io StoreError unit :=
  present ← path_exists p;
  if negb (present : bool) then mret ()
  else
    _ ← acquire_file_lock p;
    document ← read_document p;
    write_document p (with_grants document []).

End store.

(** * Where the store writes *)

(** A path with a file name in a directory, as every usable store path has. *)
Definition file_path (p : fs_path) (dir : fs_path) (name : string) : Prop :=
  p = dir ++ [Normal name] /\ dir <> [].

Section paths.
Context {p dir : fs_path} {name : string} (Hp : file_path p dir name).

Lemma lock_path_eq : lock_path p = dir ++ [Normal (file_stem name +:+ "." +:+ "json.lock")].
Proof. destruct Hp as [-> _]. apply with_extension_snoc. Qed.

Lemma temporary_path_eq pid n :
  temporary_path p pid n =
  dir ++ [Normal (file_stem name +:+ "." +:+ "json.tmp." +:+ pretty pid +:+ "." +:+ pretty n)].
Proof. destruct Hp as [-> _]. apply with_extension_snoc. Qed.

Lemma lock_path_ne : lock_path p <> p.
Proof.
  rewrite lock_path_eq. destruct Hp as [-> _]. intros H%(inj (app dir)). injection H.
  by apply file_stem_dotted.
Qed.

Lemma temporary_path_ne pid n : temporary_path p pid n <> p.
Proof.
  rewrite temporary_path_eq. destruct Hp as [-> _]. intros H%(inj (app dir)). injection H.
  by apply file_stem_dotted.
Qed.

Lemma temporary_lock_ne pid n : temporary_path p pid n <> lock_path p.
Proof.
  rewrite temporary_path_eq, lock_path_eq. intros H%(inj (app dir)). injection H as H.
  by apply (inj (String.append _)) in H.
Qed.

Lemma store_parent : parent p = Some dir.
Proof. destruct Hp as [-> _]. apply parent_snoc. Qed.

Lemma lock_parent : parent (lock_path p) = Some dir.
Proof. rewrite lock_path_eq. apply parent_snoc. Qed.

Lemma not_ancestor : p ∉ ancestors dir /\ lock_path p ∉ ancestors dir /\
  forall pid n, temporary_path p pid n ∉ ancestors dir.
Proof.
  rewrite lock_path_eq. split_and!.
  - destruct Hp as [-> _]. apply snoc_not_ancestor.
  - apply snoc_not_ancestor.
  - intros. rewrite temporary_path_eq. apply snoc_not_ancestor.
Qed.

End paths.

(** The files an operation of the store at [p] may write. *)
Definition store_files (p dir q : fs_path) : Prop :=
  q ∈ ancestors dir \/ q = p \/ q = lock_path p \/ exists pid n, q = temporary_path p pid n.

Section atomic.
Context {D : Sha256} {R : Serialize PermissionRequest} {T : Serialize StoreDocument} {J : Json}.
Context {p dir : fs_path} {name : string} (Hp : file_path p dir name).

(** Leaves the document itself alone. *)
Abbreviation aside := (fun q : fs_path => q <> p).

Lemma within_ensure P q : within P (ensure_owner_only_permissions q).
Proof.
  apply within_bind; [apply within_metadata|]. intros mode. case_bool_decide; auto with frames.
Qed.

Lemma within_read_document P q : within P (read_document q).
Proof. unfold read_document. auto 10 using within_ensure with frames. Qed.

Lemma within_process_id {E A} P (f : Host -> A) : within (E := E) P (fun h => (Ok (f h), h)).
Proof. intros h. apply frame_refl. Qed.

Lemma within_acquire P : (forall q, q ∈ ancestors dir -> P q) -> P (lock_path p) -> within P (acquire_file_lock p).
Proof.
  intros Ha Hl. unfold acquire_file_lock. rewrite (lock_parent Hp).
  unfold set_owner_only_permissions. auto 20 using within_ensure with frames.
Qed.

Lemma within_write_temporary P d :
  (forall q, q ∈ ancestors dir -> P q) -> (forall pid n, P (temporary_path p pid n)) ->
  within P (write_temporary p d).
Proof.
  intros Ha Ht. unfold write_temporary, set_owner_only_permissions. rewrite (store_parent Hp). simpl.
  apply within_bind; [auto with frames|]. intros _.
  apply within_bind; [auto with frames|]. intros n h.
  unfold mbind at 1, io_bind at 1. specialize (Ht (process_id h) n).
  match goal with |- frame _ _ (?m h).2 => assert (within P m) as Hw; [|exact (Hw h)] end.
  auto 20 with frames.
Qed.

(** A written temporary file holds the serialized document and is private. *)
Lemma write_temporary_Ok d h q h' :
  write_temporary p d h = (Ok q, h') ->
  exists pid n bytes, q = temporary_path p pid n /\ to_vec_pretty d = Ok bytes /\
    tree h' !! q = Some (File MODE_600 bytes).
Proof.
  unfold write_temporary, set_owner_only_permissions. intros H.
  apply io_bind_inv in H as (_ & h1 & _ & H). apply io_bind_inv in H as (n & h2 & _ & H).
  apply io_bind_inv in H as (tmp & h3 & [= <- <-] & H).
  apply io_bind_inv in H as (bytes & h4 & Hb & H). unfold lift in Hb.
  injection Hb as Hb <-. apply map_err_Ok in Hb.
  apply io_bind_inv in H as ([] & h5 & Ho%io_map_err_Ok & H).
  apply io_bind_inv in H as ([] & h6 & Hm%io_map_err_Ok & H).
  apply io_bind_inv in H as ([] & h7 & Hw%io_map_err_Ok & H).
  apply io_bind_inv in H as ([] & h8 & Hs%io_map_err_Ok & [= <- <-]).
  exists (process_id h2), n, bytes. split; [done|]. split; [done|].
  set (tmp := temporary_path p (process_id h2) n) in *.
  assert (exists m c, tree h5 !! tmp = Some (File m c)) as (m & c & H5).
  { apply call_Ok_inv in Ho as (Ho & _). destruct (tree h2 !! tmp) as [[]|] eqn:E; [done|..].
    - injection Ho as <-. rewrite lookup_insert_eq. eauto.
    - destruct (tree h2 !! take _ tmp) as [[]|]; try done. injection Ho as <-.
      rewrite lookup_insert_eq. eauto. }
  apply call_Ok_inv in Hm as (Hm & _). rewrite H5 in Hm. injection Hm as Hm.
  apply call_Ok_inv in Hw as (Hw & _). injection Hw as Hw.
  apply call_Ok_inv in Hs as (Hs & _). injection Hs as Hs.
  unfold put_content in Hw. rewrite <- Hm, lookup_insert_eq in Hw.
  by rewrite <- Hs, <- Hw, lookup_insert_eq.
Qed.

(** Replacing the document is atomic: whatever fails, the file keeps its old
    node or holds the whole new document, and it holds the new one on success. *)
Lemma write_document_atomic d h r h' :
  write_document p d h = (r, h') ->
  (tree h' !! p = tree h !! p \/
   exists bytes, to_vec_pretty d = Ok bytes /\ tree h' !! p = Some (File MODE_600 bytes)) /\
  (r = Ok () -> exists bytes, to_vec_pretty d = Ok bytes /\ tree h' !! p = Some (File MODE_600 bytes)).
Proof.
  intros H. assert (within aside (write_temporary p d)) as Hw.
  { apply within_write_temporary; [intros q Hq ->; exact (proj1 (not_ancestor Hp) Hq)|].
    intros pid n. apply (temporary_path_ne Hp). }
  destruct (Hw h) as (Hw' & _). specialize (Hw' p ltac:(auto)). clear Hw. rename Hw' into Hw.
  unfold write_document in H. unfold mbind at 1, io_bind at 1 in H.
  destruct (write_temporary p d h) as [[q|e] h1] eqn:E; simpl in Hw.
  2: { injection H as <- <-. split; [by left|done]. }
  apply write_temporary_Ok in E as (pid & n & bytes & -> & Hb & Ht).
  unfold mbind, io_bind in H.
  destruct (io_map_err StoreWrite (rename (temporary_path p pid n) p) h1) as [[[]|e] h2] eqn:Er.
  - apply io_map_err_Ok, call_Ok_inv in Er as (Er & _). rewrite Ht in Er.
    assert (tree h2 !! p = Some (File MODE_600 bytes)) as H2.
    { destruct (tree h1 !! p) as [[]|]; try done; injection Er as <-; by rewrite lookup_insert_eq. }
    assert (tree h' !! p = Some (File MODE_600 bytes)) as H3.
    { rewrite <- H2.
      pose proof (within_map_err (fun _ => False) StoreWrite _ (within_ensure (fun _ => False) p) h2) as (Hf & _).
      rewrite H in Hf. apply Hf. auto. }
    split; [right; eauto|eauto].
  - injection H as <- <-. split; [left|done]. rewrite <- Hw.
    unfold io_map_err, rename, simple_call, call in Er.
    assert (tree (next_fault h1).2 = tree h1) as Heq by (unfold next_fault; by destruct (faults h1)).
    destruct (next_fault h1) as [[f|] h1']; simpl in *; [by injection Er as _ <-; simpl; rewrite Heq|].
    rewrite Heq, Ht in Er. destruct (tree h1 !! p) as [[]|] eqn:E1; try done.
    injection Er as _ <-. exact E1.
Qed.

End atomic.

(** * The document a store holds *)

Section contents.
Context {D : Sha256} {R : Serialize PermissionRequest} {T : Serialize StoreDocument} {J : Json}.
Context {DL : Sha256Laws D} {JL : JsonLaws J}.

(** The document a fault-free reader sees; none when the file is not a private
    regular file with a valid document. *)
Definition contents (h : Host) (p : fs_path) : option StoreDocument :=
  match tree h !! p with
  | None => Some empty_document
  | Some (File m bytes) =>
      if bool_decide (N.land m MODE_077 = 0%N)
      then match parse_document bytes with Ok d => Some d | Err _ => None end
      else None
  | Some (Dir _) => None
  end.

(** What [read_document] guarantees of a document. *)
Definition entry_wf (entry : string * StoredGrant) : Prop :=
  exists id, digest_wf id /\ entry.1 = to_hex id /\ sg_request_digest entry.2 = entry.1.

Definition document_wf (d : StoreDocument) : Prop :=
  schema_version d = SCHEMA_VERSION /\ bt_wf (grants d) /\ Forall entry_wf (grants d).

Lemma check_grant_Ok entry : check_grant () entry = Ok () <-> entry_wf entry.
Proof.
  destruct entry as [key g]. unfold check_grant, entry_wf. simpl. split.
  - intros H. res_inv. bool_inv. apply dec_stable in G, G0.
    exists a. split_and!; [by eapply from_hex_wf|done|done].
  - intros (id & Hid & -> & Hg). rewrite from_hex_to_hex by done. simpl.
    rewrite Hg, !bool_decide_eq_false_2 by naive_solver. done.
Qed.

Lemma parse_document_Ok bytes d :
  parse_document bytes = Ok d <-> from_slice bytes = Ok d /\ document_wf d.
Proof.
  unfold parse_document. split.
  - intros H. res_inv. bool_inv. apply dec_stable in G. split; [done|]. destruct a0.
    split_and!; [done|by eapply json_sorted|]. apply Forall_forall. intros e He.
    apply check_grant_Ok. by apply (foldM_unit_inv _ (grants d)).
  - intros [-> (Hv & _ & Hg)]. simpl. rewrite bool_decide_eq_false_2 by naive_solver.
    rewrite foldM_unit; [done|]. intros e He. rewrite Forall_forall in Hg. by apply check_grant_Ok, Hg.
Qed.

Lemma document_wf_empty : document_wf empty_document.
Proof. split_and!; [done|constructor|constructor]. Qed.

Lemma contents_wf h p d : contents h p = Some d -> document_wf d.
Proof.
  unfold contents. destruct (tree h !! p) as [[]|]; [done| |intros [= <-]; apply document_wf_empty].
  case_bool_decide; [|done]. destruct (parse_document content) eqn:E; [|done].
  intros [= <-]. by apply parse_document_Ok in E as [_ ?].
Qed.

Lemma contents_written h p d bytes :
  document_wf d -> to_vec_pretty d = Ok bytes -> tree h !! p = Some (File MODE_600 bytes) ->
  contents h p = Some d.
Proof.
  intros Hd Hb Ht. unfold contents. rewrite Ht, bool_decide_eq_true_2 by done.
  destruct (json_roundtrip d) as (bytes' & Hb' & Hs); [apply Hd|].
  assert (bytes' = bytes) as -> by congruence.
  by rewrite (proj2 (parse_document_Ok bytes d)).
Qed.

Lemma contents_frame P h h' p : frame P h h' -> ~ P p -> contents h' p = contents h p.
Proof. intros (Ht & _) Hn. unfold contents. by rewrite Ht. Qed.

Lemma document_wf_insert d g r :
  document_wf d -> grant_matches g r = true ->
  document_wf (with_grants d (bt_insert (request_digest_hex r) (stored_of g r) (grants d))).
Proof.
  intros (Hv & Hs & Hg) [Hm _]%grant_matches_true. split_and!; simpl; [done|by apply bt_wf_insert|].
  apply Forall_forall. intros e He. rewrite Forall_forall in Hg.
  assert (e = (request_digest_hex r, stored_of g r) \/ e ∈ grants d) as [->|He'].
  { destruct e as [k v]. apply bt_insert_elem in He as [[Hv' Hk]|He]; [|by right].
    apply cmp_eq in Hk. simpl in *. subst. by left. }
  - exists (canonical_digest r). split_and!; [|done|done].
    unfold canonical_digest. destruct (to_writer r). apply sha256_length.
  - by apply Hg.
Qed.

Lemma document_wf_filter d (P : string * StoredGrant -> Prop) `{forall e, Decision (P e)} :
  document_wf d -> document_wf (with_grants d (filter P (grants d))).
Proof.
  intros (Hv & Hs & Hg). split_and!; simpl; [done|by apply bt_wf_filter|].
  rewrite Forall_forall in *. intros e [_ He]%list_elem_of_filter. auto.
Qed.

Lemma document_wf_clear d : document_wf d -> document_wf (with_grants d []).
Proof. intros (Hv & _). split_and!; [done|constructor|constructor]. Qed.

Lemma read_document_Ok p h d h' :
  read_document p h = (Ok d, h') -> contents h p = Some d /\ is_Some (tree h !! p).
Proof.
  unfold read_document. intros H.
  apply io_bind_inv in H as ([] & h1 & He%io_map_err_Ok & H).
  apply io_bind_inv in H as (bytes & h2 & Hr%io_map_err_Ok & H). injection H as Hd <-.
  apply io_bind_inv in He as (mode & h3 & Hm & He).
  apply call_Ok_inv in Hm as (Hm & _). apply call_Ok_inv in Hr as (Hr & _).
  assert (N.land mode MODE_077 = 0%N /\ tree h1 = tree h3) as [Hpriv H13].
  { case_bool_decide as Hm'; [done|]. injection He as <-. done. }
  assert (tree h3 = tree h) as H3 by (destruct (tree h !! p); by injection Hm).
  rewrite H13, H3 in Hr. unfold contents.
  destruct (tree h !! p) as [[m|m c]|] eqn:E; simpl in *; try done.
  injection Hm as -> _. injection Hr as -> _. split; [|done].
  by rewrite bool_decide_eq_true_2, Hd.
Qed.

End contents.

(** * The abstract store *)

(** A store promises to be a document, changed by one operation at a time. *)
Inductive StoreOp :=
  | OpGet (request : PermissionRequest) (clock : Z)
  | OpPut (grant : PermissionGrant) (request : PermissionRequest)
  | OpList (request : GrantPageRequest)
  | OpRevoke (id : GrantId)
  | OpRevokeAll.

Inductive StoreOutput :=
  | OutGrant (grant : option PermissionGrant)
  | OutPage (page : GrantPage)
  | OutRevoke (r : RevokeResult)
  | OutDone.

Section refinement.
Context {D : Sha256} {R : Serialize PermissionRequest} {T : Serialize StoreDocument} {J : Json}.

Definition run_op (p : fs_path) (op : StoreOp) : io StoreError StoreOutput :=
  match op with
  | OpGet r clock => g ← store_get p r clock; mret (OutGrant g)
  | OpPut g r => _ ← store_put p g r; mret OutDone
  | OpList r => page ← store_list_page p r; mret (OutPage page)
  | OpRevoke id => r ← store_revoke p id; mret (OutRevoke r)
  | OpRevokeAll => _ ← store_revoke_all p; mret OutDone
  end.

Definition spec_op (op : StoreOp) (d : StoreDocument) : result StoreError StoreOutput * StoreDocument :=
  match op with
  | OpGet r clock =>
      (Ok (OutGrant (bt_get (request_digest_hex r) (grants d) ≫= usable_grant r (unix_timestamp clock))), d)
  | OpPut g r =>
      if negb (grant_matches g r) then (Err GrantMismatch, d)
      else if bool_decide (scope g <> Persistent) then (Err NonPersistentGrant, d)
      else (Ok OutDone, with_grants d (bt_insert (request_digest_hex r) (stored_of g r) (grants d)))
  | OpList r => (OutPage <$> list_document d r, d)
  | OpRevoke id =>
      match bt_get (to_hex id) (grants d) with
      | None => (Ok (OutRevoke NotFound), d)
      | Some _ => (Ok (OutRevoke Revoked), with_grants d (bt_remove (to_hex id) (grants d)))
      end
  | OpRevokeAll => (Ok OutDone, with_grants d [])
  end.

Context {DL : Sha256Laws D} {JL : JsonLaws J}.

Lemma with_grants_same d : with_grants d (grants d) = d.
Proof. by destruct d. Qed.

Lemma spec_op_wf op d : document_wf d -> document_wf (spec_op op d).2.
Proof.
  intros Hd. destruct op; simpl; try done.
  - destruct (grant_matches grant request) eqn:Hm; simpl; [|done].
    case_bool_decide; [done|]. by apply document_wf_insert.
  - destruct (bt_get _ _); [|done]. by apply document_wf_filter.
  - by apply document_wf_clear.
Qed.

Section operations.
Context {p dir : fs_path} {name : string} (Hp : file_path p dir name).

Lemma frame_acquire h : frame (store_files p dir) h (acquire_file_lock p h).2.
Proof. apply (within_acquire Hp); unfold store_files; auto. Qed.

Lemma contents_acquire h : contents (acquire_file_lock p h).2 p = contents h p.
Proof.
  eapply (contents_frame (fun q => q <> p)); [|auto].
  apply (within_acquire Hp); [intros q Hq ->; exact (proj1 (not_ancestor Hp) Hq)|apply (lock_path_ne Hp)].
Qed.

Lemma within_write_document d : within (store_files p dir) (write_document p d).
Proof.
  unfold write_document.
  assert (within (store_files p dir) (write_temporary p d)) as Hw.
  { apply (within_write_temporary Hp); unfold store_files; eauto 10. }
  intros h. unfold mbind at 1, io_bind at 1. specialize (Hw h).
  destruct (write_temporary p d h) as [[q|e] h1] eqn:E; [|done].
  apply write_temporary_Ok in E as (pid & n & bytes & -> & _).
  eapply frame_trans; [exact Hw|].
  match goal with |- frame _ _ (?m h1).2 => assert (within (store_files p dir) m) as Hm; [|exact (Hm h1)] end.
  apply within_bind; [|intros _; apply within_map_err, within_ensure].
  apply within_map_err, within_rename; unfold store_files; eauto 10.
Qed.

(** The document is replaced as a whole or not at all. *)
Lemma write_document_contents d h r h' :
  document_wf d -> write_document p d h = (r, h') ->
  (contents h' p = contents h p \/ contents h' p = Some d) /\ (r = Ok () -> contents h' p = Some d).
Proof.
  intros Hd H. destruct (write_document_atomic Hp _ _ _ _ H) as [[Heq|(b & Hb & Ht)] Hok].
  - split; [left; unfold contents; by rewrite Heq|].
    intros (b & Hb & Ht)%Hok. by eapply contents_written.
  - split; [right|intros _]; by eapply contents_written.
Qed.

Lemma path_exists_cases {E} q h :
  exists b h1, path_exists (E := E) q h = (Ok b, h1) /\ frame (fun _ => False) h h1 /\
    (b = true -> is_Some (tree h !! q)) /\ (b = false -> tree h !! q = None \/ is_Some (next_fault h).1).
Proof.
  unfold path_exists. pose proof (frame_next_fault (fun _ => False) h) as Hf.
  destruct (next_fault h) as [[f|] h1]; simpl in *; eexists _, _; split_and!; try done; [eauto|..];
    destruct Hf as (Ht & _); rewrite Ht by auto; intros Hb; bool_inv; [done|].
  left. by apply eq_None_not_Some.
Qed.

(** A store that looks absent is empty, or its [stat] failed. *)
Lemma absent_empty h d : contents h p = Some d -> tree h !! p = None -> d = empty_document.
Proof. unfold contents. intros Hc Hn. rewrite Hn in Hc. by injection Hc. Qed.

Lemma frame_weaken (P Q : fs_path -> Prop) h h' : (forall q, P q -> Q q) -> frame P h h' -> frame Q h h'.
Proof. intros HPQ (Ht & ?). split; [|done]. auto. Qed.

Lemma contents_never h h' : frame (fun _ => False) h h' -> contents h' p = contents h p.
Proof. intros Hf. eapply contents_frame; [exact Hf|auto]. Qed.

(** Reading under the lock. *)
Lemma locked_read h d r h' :
  contents h p = Some d -> (_ ← acquire_file_lock p; read_document p) h = (r, h') ->
  frame (store_files p dir) h h' /\ contents h' p = Some d /\ forall d', r = Ok d' -> d' = d.
Proof.
  intros Hc H. rewrite io_bind_run in H.
  pose proof (frame_acquire h) as Hf. pose proof (contents_acquire h) as Hc1. rewrite Hc in Hc1.
  destruct (acquire_file_lock p h) as [[[]|e] h1]; simpl in *; [|by injection H as <- <-].
  pose proof (within_read_document (fun _ => False) p h1) as Hr. rewrite H in Hr. simpl in Hr.
  split_and!.
  - eapply frame_trans; [exact Hf|]. by eapply frame_weaken, Hr.
  - by rewrite (contents_never h1).
  - intros d' ->. apply read_document_Ok in H as [Hd' _]. congruence.
Qed.

(** A guarded update: lock, read, then [k]. *)
Lemma locked_update {A} (k : StoreDocument -> io StoreError A) h d r h' :
  contents h p = Some d ->
  (_ ← acquire_file_lock p; document ← read_document p; k document) h = (r, h') ->
  exists h1, frame (store_files p dir) h h1 /\ contents h1 p = Some d /\
    ((exists e, r = Err e /\ h' = h1) \/ k d h1 = (r, h')).
Proof.
  intros Hc H. rewrite <- (io_bind_assoc _ (fun _ => read_document p)), io_bind_run in H.
  destruct ((_ ← acquire_file_lock p; read_document p) h) as [r1 h1] eqn:E. apply (locked_read _ _ _ _ Hc) in E as (Hf & Hc1 & Hd).
  exists h1. split_and!; [done|done|]. destruct r1 as [d'|e].
  - right. by rewrite (Hd d') in H.
  - left. injection H as <- <-. eauto.
Qed.

(** The host at the operation's [Path::exists]: a put has taken the lock before. *)
Definition at_stat (op : StoreOp) (h : Host) : Host :=
  match op with OpPut _ _ => (acquire_file_lock p h).2 | _ => h end.

(** The [stat] of that [Path::exists] fails. *)
Definition stat_fails (op : StoreOp) (h : Host) : Prop := is_Some (next_fault (at_stat op h)).1.

(** The outcome of an operation on a store that holds [d], whatever call
    fails: outside its own files nothing changes; the document is the old one or
    the whole replacement; a result is that of the abstract operation.  Only a
    failed [stat] makes a store look empty. *)
Definition atomic_outcome (op : StoreOp) (d : StoreDocument) (h : Host)
    (res : result StoreError StoreOutput) (h' : Host) : Prop :=
  frame (store_files p dir) h h' /\
  exists view, (view = d \/ stat_fails op h /\ view = empty_document) /\
    (contents h' p = Some d \/ contents h' p = Some (spec_op op view).2) /\
    forall out, res = Ok out ->
      (spec_op op view).1 = Ok out /\
      (view = d -> contents h' p = Some (spec_op op d).2).

Lemma read_current_cases h d r h' :
  contents h p = Some d -> read_current_document p h = (r, h') ->
  frame (store_files p dir) h h' /\ contents h' p = Some d /\
  forall d', r = Ok d' -> d' = d \/ is_Some (next_fault h).1 /\ d' = empty_document.
Proof.
  intros Hc H. unfold read_current_document in H. unfold mbind at 1, io_bind at 1 in H.
  destruct (path_exists_cases (E := StoreError) p h) as (b & h1 & Hb & Hf & _ & Habs). rewrite Hb in H.
  pose proof (absent_empty h d Hc) as Hempty. rewrite <- (contents_never h h1 Hf) in Hc.
  apply (frame_weaken _ (store_files p dir)) in Hf; [|done]. destruct b.
  - apply (locked_read _ _ _ _ Hc) in H as (Hf' & Hc' & Hd).
    split_and!; [by eapply frame_trans|done|naive_solver].
  - injection H as <- <-. split_and!; [done|done|]. intros d' [= <-].
    destruct (Habs eq_refl) as [Hn|Hn]; [left; symmetry; auto|by right].
Qed.

Lemma write_atomic d view d' h h0 r h' out op :
  contents h p = Some d -> view = d \/ stat_fails op h0 /\ view = empty_document -> document_wf view ->
  frame (store_files p dir) h0 h ->
  spec_op op view = (Ok out, d') -> write_document p d' h = (r, h') ->
  atomic_outcome op d h0 ((fun _ => out) <$> r) h'.
Proof.
  intros Hc Hview Hwf Hf Hs Hw. split.
  { eapply frame_trans; [exact Hf|]. pose proof (within_write_document d' h) as H. by rewrite Hw in H. }
  exists view. split; [done|]. rewrite Hs. simpl.
  assert (document_wf d') as Hd by (pose proof (spec_op_wf op view Hwf) as H; by rewrite Hs in H).
  destruct (write_document_contents _ _ _ _ Hd Hw) as [Hcases Hok]. rewrite Hc in Hcases.
  split; [done|]. intros out' H. destruct r as [[]|]; [|done]. injection H as <-.
  split; [done|]. intros <-. rewrite Hs. auto.
Qed.

(** An operation that stopped before replacing anything. *)
Lemma unchanged_atomic op d h h' res :
  frame (store_files p dir) h h' -> contents h' p = Some d ->
  (forall out, res = Ok out -> spec_op op d = (Ok out, d) \/
     stat_fails op h /\ (spec_op op empty_document).1 = Ok out /\ (d = empty_document -> (spec_op op d).2 = d)) ->
  atomic_outcome op d h res h'.
Proof.
  intros Hf Hc Hres. split; [done|]. destruct res as [out|e].
  - destruct (Hres out eq_refl) as [Hs|(Hstat & Hs & He)].
    + exists d. split; [by left|]. split; [by left|]. intros out' [= <-]. by rewrite Hs.
    + exists empty_document. split; [by right|]. split; [by left|]. intros out' [= <-].
      split; [done|]. intros <-. by rewrite He.
  - exists d. split; [by left|]. split; [by left|]. done.
Qed.

(** [if path.exists() { read_document(path)? } else { empty_document() }] *)
Lemma view_cases (b : bool) (failed : Prop) h d :
  contents h p = Some d -> (b = false -> d = empty_document \/ failed) ->
  exists r h', (if b then read_document p else mret empty_document) h = (r, h') /\
    frame (store_files p dir) h h' /\ contents h' p = Some d /\
    forall view, r = Ok view -> (view = d \/ failed /\ view = empty_document) /\ document_wf view.
Proof.
  intros Hc Habs. destruct b.
  - pose proof (within_read_document (fun _ => False) p h) as Hr.
    destruct (read_document p h) as [r h'] eqn:E; simpl in Hr. exists r, h'. split; [done|].
    split; [by eapply frame_weaken, Hr|]. split; [by rewrite (contents_never h)|]. intros view ->.
    apply read_document_Ok in E as [E _]. assert (view = d) as -> by congruence.
    split; [by left|by eapply contents_wf].
  - exists (Ok empty_document), h. split_and!; try done. intros view [= <-].
    split; [|apply document_wf_empty]. destruct (Habs eq_refl) as [->|?]; [by left|by right].
Qed.

Lemma put_atomic g r d h res h' :
  contents h p = Some d -> run_op p (OpPut g r) h = (res, h') -> atomic_outcome (OpPut g r) d h res h'.
Proof.
  intros Hc H. pose proof (contents_wf _ _ _ Hc) as Hwf. simpl in H. rewrite io_bind_map in H.
  unfold store_put in H. destruct (grant_matches g r) eqn:Hm; simpl in H.
  2: { injection H as <- <-. by apply unchanged_atomic. }
  case_bool_decide as Hs; simpl in H.
  { injection H as <- <-. by apply unchanged_atomic. }
  assert (forall view, spec_op (OpPut g r) view = (Ok OutDone,
     with_grants view (bt_insert (request_digest_hex r) (stored_of g r) (grants view)))) as Hspec.
  { intros view. simpl. rewrite Hm. simpl. by rewrite bool_decide_eq_false_2 by naive_solver. }
  rewrite io_bind_run in H. pose proof (frame_acquire h) as Hf.
  pose proof (contents_acquire h) as Hc1. rewrite Hc in Hc1.
  destruct (acquire_file_lock p h) as [[[]|e] h1] eqn:Elock; simpl in Hf, Hc1.
  2: { injection H as <- <-. by apply unchanged_atomic. }
  destruct (path_exists_cases (E := StoreError) p h1) as (b & h2 & Hb & Hf2 & _ & Habs).
  rewrite (io_bind_Ok _ _ _ _ _ Hb) in H. pose proof (absent_empty h1 d Hc1) as Hempty. rewrite <- (contents_never h1 h2 Hf2) in Hc1.
  apply (frame_weaken _ (store_files p dir)) in Hf2; [|done].
  pose proof (frame_trans _ _ _ _ Hf Hf2) as Hf3. rewrite io_bind_run in H.
  destruct (view_cases b (is_Some (next_fault h1).1) h2 d Hc1) as (r2 & h3 & E2 & Hf4 & Hc4 & Hv);
    [intros Hn; destruct (Habs Hn); auto|].
  pose proof (frame_trans _ _ _ _ Hf3 Hf4) as Hf5.
  rewrite E2 in H. destruct r2 as [view|e].
  2: { injection H as <- <-. by apply unchanged_atomic. }
  destruct (Hv view eq_refl) as [Hview Hvwf].
  destruct (write_document _ _ h3) as [r4 h4] eqn:E4 in H. injection H as <- <-.
  eapply (write_atomic _ view); eauto. unfold stat_fails, at_stat. rewrite Elock. exact Hview.
Qed.

(** A revocation: nothing to do on a store that looks absent, else a guarded
    update by [k]. *)
Lemma guarded_atomic {A} (f : A -> StoreOutput) (absent : A) (k : StoreDocument -> io StoreError A)
    op d h res h' :
  contents h p = Some d -> at_stat op h = h ->
  (spec_op op empty_document).1 = Ok (f absent) ->
  (d = empty_document -> (spec_op op d).2 = d) ->
  (forall h1 r1 h2, contents h1 p = Some d -> k d h1 = (r1, h2) -> frame (store_files p dir) h h1 ->
     atomic_outcome op d h (f <$> r1) h2) ->
  (a ← (present ← path_exists p;
        if negb present then mret absent
        else _ ← acquire_file_lock p; document ← read_document p; k document);
   mret (f a)) h = (res, h') ->
  atomic_outcome op d h res h'.
Proof.
  intros Hc Hstat Hnone Hempty Hk H. rewrite io_bind_map in H.
  destruct (path_exists_cases (E := StoreError) p h) as (b & h1 & Hb & Hf & _ & Habs).
  rewrite (io_bind_Ok _ _ _ _ _ Hb) in H. pose proof Hc as Hc1. rewrite <- (contents_never h h1 Hf) in Hc1.
  apply (frame_weaken _ (store_files p dir)) in Hf; [|done]. destruct b; simpl in H.
  - destruct ((_ ← acquire_file_lock p; document ← read_document p; k document) h1) as [r2 h2] eqn:E.
    injection H as <- <-.
    apply (locked_update k _ _ _ _ Hc1) in E as (h3 & Hf3 & Hc3 & [(e & -> & ->)|E]).
    + apply unchanged_atomic; [by eapply frame_trans|done|done].
    + apply (Hk _ _ _ Hc3 E). by eapply frame_trans.
  - injection H as <- <-. apply unchanged_atomic; [done|done|]. intros out [= <-].
    destruct (Habs eq_refl) as [Hn|Hn]; [left|right; unfold stat_fails; by rewrite Hstat].
    pose proof (absent_empty h d Hc Hn) as ->. rewrite (surjective_pairing (spec_op op empty_document)), Hnone. f_equal. auto.
Qed.

Lemma read_atomic {A} (f : A -> StoreOutput) (k : StoreDocument -> result StoreError A) op d h res h' :
  contents h p = Some d -> at_stat op h = h -> (forall d, spec_op op d = (f <$> k d, d)) ->
  (a ← (document ← read_current_document p; lift (k document)); mret (f a)) h = (res, h') ->
  atomic_outcome op d h res h'.
Proof.
  intros Hc Hstat Hspec H. rewrite io_bind_map, io_bind_run in H.
  destruct (read_current_document p h) as [r1 h1] eqn:E.
  apply (read_current_cases _ _ _ _ Hc) in E as (Hf & Hc1 & Hd). destruct r1 as [d'|e].
  - injection H as <- <-. apply unchanged_atomic; [done|done|]. simpl. intros out Hout.
    destruct (Hd d' eq_refl) as [->|[Hf' ->]]; [left|right; split; [unfold stat_fails; by rewrite Hstat|]];
      rewrite !Hspec; simpl; by rewrite Hout.
  - injection H as <- <-. by apply unchanged_atomic.
Qed.

Lemma run_op_atomic op d h res h' :
  contents h p = Some d -> run_op p op h = (res, h') -> atomic_outcome op d h res h'.
Proof.
  intros Hc H. pose proof (contents_wf _ _ _ Hc) as Hwf. destruct op; simpl in H.
  - apply (read_atomic OutGrant (fun d => Ok (bt_get (request_digest_hex request) (grants d)
             ≫= usable_grant request (unix_timestamp clock)))); [done|done|done|exact H].
  - by apply put_atomic.
  - by apply (read_atomic OutPage (fun d => list_document d request)).
  - refine (guarded_atomic OutRevoke NotFound _ (OpRevoke id) _ _ _ _ Hc _ _ _ _ H); [done|done|by intros ->|].
    intros h1 r1 h2 Hc1 Hk Hf. destruct (bt_get (to_hex id) (grants d)) eqn:E.
    + rewrite io_bind_map in Hk. destruct (write_document _ _ h1) as [r2 h3] eqn:E2.
      injection Hk as <- <-.
      assert (OutRevoke <$> ((fun _ => Revoked) <$> r2) = (fun _ => OutRevoke Revoked) <$> r2) as ->
        by (by destruct r2).
      eapply (write_atomic _ d); eauto. simpl. by rewrite E.
    + injection Hk as <- <-. apply unchanged_atomic; [done|done|].
      intros out [= <-]. left. simpl. by rewrite E.
  - refine (guarded_atomic (fun _ : unit => OutDone) () _ OpRevokeAll _ _ _ _ Hc _ _ _ _ H);
      [done|done|by intros ->|].
    intros h1 r1 h2 Hc1 Hk Hf. by eapply (write_atomic _ d); eauto.
Qed.

(** * Runs without faults *)

(** The location can be used: its ancestors are no files, and the names of the
    lock and of the temporary files are no directories. *)
Definition usable (h : Host) : Prop :=
  faults h = [] /\
  (forall q m c, q ∈ ancestors dir -> tree h !! q <> Some (File m c)) /\
  (forall m, tree h !! lock_path p <> Some (Dir m)) /\
  (forall pid n m, tree h !! temporary_path p pid n <> Some (Dir m)).

(** The tree once the directory of the store exists. *)
Definition with_directory (h : Host) : Host :=
  set_tree h (foldl (make_dir (N.ldiff MODE_777 (umask h))) (tree h) (ancestors dir)).

Lemma with_directory_other h q : q ∉ ancestors dir -> tree (with_directory h) !! q = tree h !! q.
Proof.
  intros Hq. simpl. rewrite make_dirs_lookup, bool_decide_eq_false_2 by done. by destruct (tree h !! q).
Qed.

Lemma with_directory_dir h : usable h -> exists m, tree (with_directory h) !! dir = Some (Dir m).
Proof.
  intros (_ & Hd & _). pose proof (ancestors_self dir (proj2 Hp)) as Hin. simpl.
  rewrite make_dirs_lookup, bool_decide_eq_true_2 by done.
  destruct (tree h !! dir) as [[]|] eqn:E; [eauto|by apply Hd in E|eauto].
Qed.

Lemma usable_with_directory h : usable h -> usable (with_directory h).
Proof.
  intros (Hf & Hd & Hl & Ht). destruct (not_ancestor Hp) as (_ & Hnl & Hnt).
  split_and!; [done| | |].
  - intros q m c Hq. simpl. rewrite make_dirs_lookup. destruct (tree h !! q) eqn:E; [by rewrite <- E; apply Hd|].
    by case_bool_decide.
  - intros m. by rewrite with_directory_other.
  - intros pid n m. by rewrite with_directory_other.
Qed.

(** Writing a regular file that is no ancestor keeps the location usable. *)
Lemma usable_insert h q m c : usable h -> q ∉ ancestors dir -> usable (set_tree h (<[q := File m c]> (tree h))).
Proof.
  intros (Hf & Hd & Hl & Ht) Hq. split_and!; simpl; [done| | |].
  - intros q' m' c' Hq'. rewrite lookup_insert_ne by congruence. by apply Hd.
  - intros m'. destruct (decide (q = lock_path p)) as [->|]; [by rewrite lookup_insert_eq|].
    by rewrite lookup_insert_ne.
  - intros pid n m'. destruct (decide (q = temporary_path p pid n)) as [->|]; [by rewrite lookup_insert_eq|].
    by rewrite lookup_insert_ne.
Qed.

Lemma usable_delete h q : usable h -> usable (set_tree h (delete q (tree h))).
Proof.
  intros (Hf & Hd & Hl & Ht). split_and!; simpl; [done|..]; intros *;
    rewrite lookup_delete; case_decide; naive_solver.
Qed.

Lemma sibling_parent name' : take (length (dir ++ [Normal name']) - 1) (dir ++ [Normal name']) = dir.
Proof. by rewrite length_app, Nat.add_sub, take_app_length. Qed.

Lemma ensure_ok h q c : faults h = [] -> tree h !! q = Some (File MODE_600 c) ->
  ensure_owner_only_permissions q h = (Ok (), h).
Proof.
  intros Hf Hq. unfold ensure_owner_only_permissions.
  by rewrite (io_bind_Ok _ _ _ _ _ (metadata_ok h Hf q _ Hq)).
Qed.

Lemma acquire_ok h : usable h -> exists h1, acquire_file_lock p h = (Ok (), h1) /\ usable h1.
Proof.
  intros Hu. pose proof (usable_with_directory h Hu) as Hu1. destruct (with_directory_dir h Hu) as [md Hdir].
  destruct (not_ancestor Hp) as (_ & Hnl & _). destruct Hu as (Hf & Hd & _).
  unfold acquire_file_lock, set_owner_only_permissions. rewrite (lock_parent Hp).
  rewrite (io_bind_Ok _ _ h () (with_directory h))
    by (apply io_map_err_Ok; by apply create_dir_all_ok).
  destruct (open_create_ok (with_directory h) Hf (lock_path p) MODE_600 false md) as (m & c & Ho).
  { apply Hu1. }
  { by rewrite (lock_path_eq Hp), sibling_parent. }
  apply (io_map_err_Ok StoreWrite) in Ho. rewrite (io_bind_Ok _ _ _ _ _ Ho). clear Ho.
  set (h2 := set_tree (with_directory h) _).
  assert (tree h2 !! lock_path p = Some (File m c)) as H2 by (simpl; by rewrite lookup_insert_eq).
  pose proof (set_permissions_ok h2 Hf _ MODE_600 _ _ H2) as Hs.
  apply (io_map_err_Ok StoreWrite) in Hs. rewrite (io_bind_Ok _ _ _ _ _ Hs). clear Hs.
  set (h3 := set_tree h2 _).
  assert (tree h3 !! lock_path p = Some (File MODE_600 c)) as H3 by (simpl; by rewrite lookup_insert_eq).
  rewrite (io_bind_Ok _ _ h3 () h3) by (apply io_map_err_Ok; by eapply ensure_ok).
  exists h3. split; [apply io_map_err_Ok; by apply flock_ok|].
  apply usable_insert; [|done]. by apply usable_insert.
Qed.

Lemma read_ok h d : faults h = [] -> is_Some (tree h !! p) -> contents h p = Some d ->
  read_document p h = (Ok d, h).
Proof.
  intros Hf [n Hn] Hc. unfold contents in Hc. rewrite Hn in Hc. destruct n as [m|m bytes]; [done|].
  case_bool_decide as Hm; [|done]. destruct (parse_document bytes) as [d'|] eqn:E; [|done].
  injection Hc as ->. unfold read_document, ensure_owner_only_permissions.
  rewrite (io_bind_Ok _ _ h () h).
  2: { apply io_map_err_Ok. rewrite (io_bind_Ok _ _ _ _ _ (metadata_ok h Hf p _ Hn)). simpl.
       by rewrite bool_decide_eq_false_2 by naive_solver. }
  rewrite (io_bind_Ok _ _ h bytes h) by (apply io_map_err_Ok; by eapply fs_read_ok).
  unfold lift. by rewrite E.
Qed.

Lemma write_temporary_ok h d bytes :
  usable h -> to_vec_pretty d = Ok bytes ->
  exists q h1, write_temporary p d h = (Ok q, h1) /\ usable h1 /\
    tree h1 !! q = Some (File MODE_600 bytes) /\ tree h1 !! p = tree h !! p.
Proof.
  intros Hu Hb. pose proof (usable_with_directory h Hu) as Hu1.
  destruct (with_directory_dir h Hu) as [md Hdir].
  destruct (not_ancestor Hp) as (Hnp & _ & Hnt). destruct Hu as (Hf & Hd & _).
  unfold write_temporary, set_owner_only_permissions. rewrite (store_parent Hp).
  rewrite (io_bind_Ok _ _ h () (with_directory h)) by (apply io_map_err_Ok; by apply create_dir_all_ok).
  set (h1 := with_directory h) in *. set (n := temp_counter h1).
  set (h2 := {| tree := tree h1; faults := faults h1; umask := umask h1; process_id := process_id h1;
                temp_counter := (n + 1) mod 2 ^ 64 |}).
  rewrite (io_bind_Ok _ _ h1 n h2) by done.
  pose (tmp := temporary_path p (process_id h1) n). assert (tmp ∉ ancestors dir) as Htmp by apply Hnt.
  rewrite (io_bind_Ok _ _ h2 tmp h2), (io_bind_Ok _ _ h2 bytes h2) by (unfold lift; by rewrite ?Hb).
  destruct (open_create_ok h2 Hf tmp MODE_666 true md) as (m & c & Ho).
  { apply Hu1. }
  { unfold tmp. by rewrite (temporary_path_eq Hp), sibling_parent. }
  apply (io_map_err_Ok StoreWrite) in Ho. rewrite (io_bind_Ok _ _ _ _ _ Ho). clear Ho.
  set (h3 := set_tree h2 _).
  assert (tree h3 !! tmp = Some (File m c)) as H3 by (simpl; by rewrite lookup_insert_eq).
  pose proof (set_permissions_ok h3 Hf _ MODE_600 _ _ H3) as Hs. apply (io_map_err_Ok StoreWrite) in Hs.
  rewrite (io_bind_Ok _ _ _ _ _ Hs). clear Hs. set (h4 := set_tree h3 _).
  assert (tree h4 !! tmp = Some (File MODE_600 c)) as H4 by (simpl; by rewrite lookup_insert_eq).
  pose proof (write_all_ok h4 Hf _ bytes _ _ H4) as Hs. apply (io_map_err_Ok StoreWrite) in Hs.
  rewrite (io_bind_Ok _ _ _ _ _ Hs). clear Hs. set (h5 := set_tree h4 _).
  rewrite (io_bind_Ok _ _ h5 () h5) by (apply io_map_err_Ok; by apply sync_all_ok).
  exists tmp, h5. split; [done|]. split; [by repeat apply usable_insert|].
  split; [simpl; by rewrite lookup_insert_eq|].
  pose proof (temporary_path_ne Hp (process_id h1) n) as Hne. change (tmp <> p) in Hne. simpl.
  rewrite !lookup_insert_ne by done. by apply with_directory_other.
Qed.

Lemma write_ok h d bytes :
  usable h -> (forall m, tree h !! p <> Some (Dir m)) -> to_vec_pretty d = Ok bytes ->
  exists h1, write_document p d h = (Ok (), h1) /\ usable h1.
Proof.
  intros Hu Hpd Hb. destruct (write_temporary_ok h d bytes Hu Hb) as (q & h1 & Hw & Hu1 & Hq & Hsame).
  unfold write_document. rewrite (io_bind_Ok _ _ _ _ _ Hw).
  pose proof (rename_ok h1 (proj1 Hu1) q p _ Hq) as Hr. rewrite Hsame in Hr. specialize (Hr Hpd).
  apply (io_map_err_Ok StoreWrite) in Hr. rewrite (io_bind_Ok _ _ _ _ _ Hr). clear Hr.
  eexists. split.
  - apply io_map_err_Ok. eapply ensure_ok; [apply Hu1|]. simpl. by rewrite lookup_insert_eq.
  - exact (usable_insert (set_tree h1 (delete q (tree h1))) p MODE_600 bytes (usable_delete h1 q Hu1)
             (proj1 (not_ancestor Hp))).
Qed.

Lemma contents_not_dir h d : contents h p = Some d -> forall m, tree h !! p <> Some (Dir m).
Proof. unfold contents. by destruct (tree h !! p) as [[]|]. Qed.

Lemma contents_absent h d : contents h p = Some d -> tree h !! p = None -> d = empty_document.
Proof. unfold contents. intros Hc Hn. rewrite Hn in Hc. congruence. Qed.

Lemma lock_ok h : usable h ->
  exists h1, acquire_file_lock p h = (Ok (), h1) /\ usable h1 /\ tree h1 !! p = tree h !! p.
Proof.
  intros Hu. destruct (acquire_ok h Hu) as (h1 & Ha & Hu1). exists h1. split_and!; [done|done|].
  assert (within (fun q => q <> p) (acquire_file_lock p)) as Hw.
  { apply (within_acquire Hp); [intros q Hq ->; exact (proj1 (not_ancestor Hp) Hq)|apply (lock_path_ne Hp)]. }
  destruct (Hw h) as (Ht & _). rewrite Ha in Ht. apply Ht. auto.
Qed.

Lemma contents_tree h h' : tree h' !! p = tree h !! p -> contents h' p = contents h p.
Proof. intros H. unfold contents. by rewrite H. Qed.

Lemma update_ok h d d' : usable h -> contents h p = Some d -> document_wf d' ->
  exists h1, write_document p d' h = (Ok (), h1) /\ usable h1 /\ contents h1 p = Some d'.
Proof.
  intros Hu Hc Hd. destruct (json_roundtrip d') as (bytes & Hb & _); [apply Hd|].
  destruct (write_ok h d' bytes Hu (contents_not_dir _ _ Hc) Hb) as (h1 & Hw & Hu1).
  exists h1. split_and!; [done|done|]. by apply (write_document_contents _ _ _ _ Hd Hw).
Qed.

Lemma locked_ok {A} (k : StoreDocument -> io StoreError A) h d :
  usable h -> contents h p = Some d -> is_Some (tree h !! p) ->
  exists h1, (_ ← acquire_file_lock p; document ← read_document p; k document) h = k d h1 /\
    usable h1 /\ contents h1 p = Some d.
Proof.
  intros Hu Hc Hs. destruct (lock_ok h Hu) as (h1 & Ha & Hu1 & Ht).
  rewrite <- (contents_tree _ _ Ht) in Hc. exists h1. split_and!; [|done|done].
  rewrite (io_bind_Ok _ _ _ _ _ Ha), (io_bind_Ok _ _ h1 d h1); [done|].
  apply read_ok; [apply Hu1|by rewrite Ht|done].
Qed.

Lemma read_current_ok h d : usable h -> contents h p = Some d ->
  exists h1, read_current_document p h = (Ok d, h1) /\ usable h1 /\ contents h1 p = Some d.
Proof.
  intros Hu Hc. unfold read_current_document.
  rewrite (io_bind_Ok _ _ _ _ _ (path_exists_ok p h (proj1 Hu))). case_bool_decide as Hs.
  - destruct (lock_ok h Hu) as (h1 & Ha & Hu1 & Ht). rewrite <- (contents_tree _ _ Ht) in Hc.
    exists h1. split_and!; [|done|done]. rewrite (io_bind_Ok _ _ _ _ _ Ha).
    apply read_ok; [apply Hu1|by rewrite Ht|done].
  - exists h. split_and!; [|done|done].
    by rewrite (contents_absent h d) by (done || by apply eq_None_not_Some).
Qed.

(** Without faults an operation gives the result of the abstract one and leaves
    its document. *)
Lemma run_op_ok op h d : usable h -> contents h p = Some d ->
  exists h', run_op p op h = ((spec_op op d).1, h') /\ usable h' /\ contents h' p = Some (spec_op op d).2.
Proof.
  intros Hu Hc. pose proof (contents_wf _ _ _ Hc) as Hwf.
  destruct op as [r clock|g r|r|id|]; simpl; rewrite ?io_bind_map.
  - destruct (read_current_ok h d Hu Hc) as (h1 & Hr & ?). unfold store_get.
    rewrite (io_bind_Ok _ _ _ _ _ Hr). simpl. eauto.
  - unfold store_put. destruct (grant_matches g r) eqn:Hm; simpl; [|eauto].
    case_bool_decide; simpl; [eauto|].
    destruct (lock_ok h Hu) as (h1 & Ha & Hu1 & Ht). rewrite <- (contents_tree _ _ Ht) in Hc.
    rewrite (io_bind_Ok _ _ _ _ _ Ha), (io_bind_Ok _ _ _ _ _ (path_exists_ok p h1 (proj1 Hu1))).
    rewrite (io_bind_Ok _ _ h1 d h1).
    2: { case_bool_decide as Hs; [by apply read_ok; [apply Hu1|..]|].
         by rewrite (contents_absent h1 d) by (done || by apply eq_None_not_Some). }
    destruct (update_ok h1 d (with_grants d (bt_insert (request_digest_hex r) (stored_of g r) (grants d))))
      as (h2 & -> & ?); [done|done|by apply document_wf_insert|eauto].
  - destruct (read_current_ok h d Hu Hc) as (h1 & Hr & ?). unfold store_list_page.
    rewrite (io_bind_Ok _ _ _ _ _ Hr). simpl. eauto.
  - unfold store_revoke. rewrite (io_bind_Ok _ _ _ _ _ (path_exists_ok p h (proj1 Hu))).
    case_bool_decide as Hs; simpl.
    2: { rewrite (contents_absent h d) in * by (done || by apply eq_None_not_Some). simpl. eauto. }
    match goal with |- context[(_ ← acquire_file_lock p; document ← read_document p; @?k document) h] =>
      destruct (locked_ok k h d Hu Hc Hs) as (h1 & -> & Hu1 & Hc1) end.
    destruct (bt_get (to_hex id) (grants d)); simpl; [|eauto].
    destruct (update_ok h1 d (with_grants d (bt_remove (to_hex id) (grants d))))
      as (h2 & Hw & ?); [done|done|by apply document_wf_filter|].
    rewrite (io_bind_Ok _ _ _ _ _ Hw). simpl. eauto.
  - unfold store_revoke_all. rewrite (io_bind_Ok _ _ _ _ _ (path_exists_ok p h (proj1 Hu))).
    case_bool_decide as Hs; simpl.
    2: { rewrite (contents_absent h d) in * by (done || by apply eq_None_not_Some). simpl. eauto. }
    match goal with |- context[(_ ← acquire_file_lock p; document ← read_document p; @?k document) h] =>
      destruct (locked_ok k h d Hu Hc Hs) as (h1 & -> & Hu1 & Hc1) end.
    destruct (update_ok h1 d (with_grants d [])) as (h2 & -> & ?); [done|done|by apply document_wf_clear|eauto].
Qed.

(** What a stored grant must be to be handed out. *)
Lemma usable_grant_Some r now s g :
  usable_grant r now s = Some g <->
  s = stored_of g r /\ scope g = Persistent /\ grant_matches g r = true /\ is_valid_at g now = true.
Proof.
  unfold usable_grant. split.
  - destruct (_ && _ && _ && _) eqn:E; [|done]. intros [= <-]. bool_inv. simpl in *.
    split_and!; try done. destruct s; unfold stored_of; simpl in *; subst. done.
  - intros (-> & Hs & Hm & Hv). destruct g as [dg ap sc ex iat]; simpl in *. subst.
    pose proof Hm as [Hd _]%grant_matches_true. simpl in Hd. rewrite Hm, Hv, Hd.
    by rewrite !bool_decide_eq_true_2.
Qed.

Lemma store_get_Some r clock h g h' :
  store_get p r clock h = (Ok (Some g), h') ->
  exists d s, contents h p = Some d /\ bt_get (request_digest_hex r) (grants d) = Some s /\
    usable_grant r (unix_timestamp clock) s = Some g.
Proof.
  unfold store_get. intros (d & h1 & Hr & Hg)%io_bind_inv. injection Hg as Hg _.
  apply bind_Some in Hg as (s & Hs & Hg). exists d, s. split; [|done].
  unfold read_current_document in Hr. apply io_bind_inv in Hr as (b & h2 & Hb & Hr).
  destruct (path_exists_cases (E := StoreError) p h) as (b' & h2' & Hb' & Hf & _).
  rewrite Hb in Hb'. injection Hb' as <- <-. destruct b; [|injection Hr as <- <-; done].
  apply io_bind_inv in Hr as ([] & h3 & Ha & Hr). apply read_document_Ok in Hr as [Hr _].
  rewrite <- (contents_never h h2 Hf). pose proof (contents_acquire h2) as Hc.
  rewrite Ha in Hc. by rewrite <- Hc.
Qed.

(** C31. Every operation is atomic, whichever of its system calls fail and however
    far they came: nothing changes but the store's own files (the document, its
    lock, its temporary files and the directories above it); the document is
    afterwards the old one or the complete new one, never a mixture; and a
    success is the abstract operation's result, with the document it leaves.
    The exception is a failing [stat] of the operation's own [Path::exists],
    which makes the store look empty: then the result may be that on the empty
    store. *)
Theorem store_operations_atomic (op : StoreOp) (d : StoreDocument) (h h' : Host)
    (res : result StoreError StoreOutput) :
  contents h p = Some d -> run_op p op h = (res, h') ->
  frame (store_files p dir) h h' /\
  (~ stat_fails op h ->
     (contents h' p = Some d \/ contents h' p = Some (spec_op op d).2) /\
     forall out, res = Ok out -> (spec_op op d).1 = Ok out /\ contents h' p = Some (spec_op op d).2) /\
  (stat_fails op h -> exists view, (view = d \/ view = empty_document) /\
     (contents h' p = Some d \/ contents h' p = Some (spec_op op view).2) /\
     forall out, res = Ok out -> (spec_op op view).1 = Ok out).
Proof.
  intros Hc (Hf & view & Hview & Hcases & Hok)%(run_op_atomic op d h res h' Hc). split_and!; [done|..]; intros Hs.
  - destruct Hview as [->|[? _]]; [|done]. split; [done|]. intros out Hout. destruct (Hok out Hout). auto.
  - exists view. split_and!; [tauto|done|]. intros out Hout. by apply Hok.
Qed.

(** C32. Grants read back are sound, whatever the file holds and whichever call
    fails: a grant the store returns for a request was stored for this request
    with the same identity, belongs to its digest, approves nothing beyond it,
    is persistent and has not expired. *)
Theorem store_get_sound (r : PermissionRequest) (clock : Z) (h h' : Host) (g : PermissionGrant) :
  store_get p r clock h = (Ok (Some g), h') ->
  grant_matches g r = true /\ scope g = Persistent /\ is_valid_at g (unix_timestamp clock) = true /\
  exists d, contents h p = Some d /\ bt_get (request_digest_hex r) (grants d) = Some (stored_of g r).
Proof.
  intros (d & s & Hc & Hs & (-> & Hsc & Hm & Hv)%usable_grant_Some)%store_get_Some. eauto 10.
Qed.

End operations.
End refinement.
