(* ===== verification/GrantListing.v ===== *)
(** [cageforge-permissions]: paged listings of the grant store.  A client that
    follows the cursors sees every grant once. *)

From Stdlib Require Import Ascii String NArith ZArith Lia.
From stdpp Require Import base list gmap strings option sets sorting.
From S2P Require Import Prelude Text BTree NativePath GrantId Permissions HostFs GrantStore.

Section listing.
Context {D : Sha256} {R : Serialize PermissionRequest} {T : Serialize StoreDocument} {J : Json}.

(** The identity a valid key stands for, and all summaries in key order. *)
Definition entry_id (e : string * StoredGrant) : GrantId := unwrap_or "" (from_hex e.1).
Definition entry_summary (e : string * StoredGrant) : GrantSummary := summary_from_stored (entry_id e) e.2.
Definition summaries (d : StoreDocument) : list GrantSummary := entry_summary <$> grants d.

(** A client: asks for pages until one has no cursor. *)
Fixpoint all_pages (fuel : nat) (d : StoreDocument) (size : N) (c : option GrantPageCursor) :
  option (list GrantSummary) :=
  match fuel with
  | O => None
  | S fuel' =>
      match list_document d {| page_size := size; cursor := c |} with
      | Err _ => None
      | Ok page =>
          match next_cursor page with
          | None => Some (entries page)
          | Some c => (app (entries page)) <$> all_pages fuel' d size (Some c)
          end
      end
  end.

(** The summaries that come after a cursor's last identity. *)
Definition beyond (after : option GrantId) (s : GrantSummary) : bool :=
  match after with Some a => match cmp (gs_id s) a with Gt => true | _ => false end | None => true end.

Lemma entry_wf_hex e : entry_wf e -> from_hex e.1 = Ok (entry_id e) /\ e.1 = to_hex (entry_id e).
Proof.
  intros (id & Hid & Hk & _). unfold entry_id. rewrite Hk, from_hex_to_hex by done. done.
Qed.

(** One page: the first [size] summaries beyond the cursor, and whether one is
    left over. *)
Lemma page_loop_spec size after acc gs :
  Forall entry_wf gs -> (N.of_nat (length acc) <= size)%N ->
  let rest := filter (fun s => beyond after s = true) (entry_summary <$> gs) in
  let room := N.to_nat size - length acc in
  page_loop size after acc gs = Ok (acc ++ take room rest, bool_decide (room < length rest)).
Proof.
  intros Hgs. revert acc. induction Hgs as [|[key g] gs He Hgs IH]; intros acc Hacc; cbv zeta.
  { change (filter _ (entry_summary <$> [])) with (@nil GrantSummary).
    rewrite take_nil, app_nil_r, bool_decide_eq_false_2 by (simpl; lia). done. }
  apply entry_wf_hex in He as [Hid Hkey]. cbn [page_loop fmap list_fmap]. simpl in Hid. rewrite Hid. simpl.
  assert (beyond after (entry_summary (key, g)) = negb
    match after with Some a => match cmp (entry_id (key, g)) a with Gt => false | _ => true end | None => false end)
    as Hb by (unfold beyond; simpl; destruct after; [|done]; by destruct (cmp _ _)).
  destruct (match after with Some a => _ | None => false end).
  - rewrite !filter_cons_False by (rewrite Hb; done). by apply IH.
  - rewrite !filter_cons_True by (rewrite Hb; done).
    destruct (N.eqb_spec (N.of_nat (length acc)) size) as [Heq|Hne].
    + replace (N.to_nat size - length acc) with 0 by lia. simpl.
      by rewrite app_nil_r.
    + rewrite IH by (rewrite length_app; simpl; lia). rewrite length_app. simpl.
      replace (N.to_nat size - length acc) with (S (N.to_nat size - (length acc + 1))) by lia.
      simpl. rewrite <- app_assoc. simpl. do 2 f_equal. apply bool_decide_ext. lia.
Qed.

(** Summaries are listed in strictly ascending order of their identities. *)
Lemma summaries_ascending d : document_wf d ->
  StronglySorted (fun s t => cmp (gs_id s) (gs_id t) = Lt) (summaries d).
Proof.
  intros (_ & Hs & Hg). unfold summaries. induction Hs as [|e gs Hs IH He]; simpl; [constructor|].
  apply Forall_cons in Hg as [Hwf Hg]. constructor; [by apply IH|].
  apply Forall_fmap. rewrite Forall_forall in He, Hg |- *. intros f Hf. simpl.
  rewrite <- to_hex_cmp. destruct (entry_wf_hex _ Hwf) as [_ <-].
  destruct (entry_wf_hex _ (Hg f Hf)) as [_ <-]. by apply He.
Qed.

Lemma beyond_None (l : list GrantSummary) : filter (fun s => beyond None s = true) l = l.
Proof. induction l as [|s l IH]; [done|]. by rewrite filter_cons_True, IH. Qed.

Lemma beyond_suffix (l1 l2 : list GrantSummary) x :
  StronglySorted (fun s t => cmp (gs_id s) (gs_id t) = Lt) (l1 ++ x :: l2) ->
  filter (fun s => beyond (Some (gs_id x)) s = true) (l1 ++ x :: l2) = l2.
Proof.
  intros Hs. rewrite filter_app, filter_cons_False by (unfold beyond; by rewrite cmp_refl).
  assert (filter (fun s => beyond (Some (gs_id x)) s = true) l1 = []) as ->.
  { apply elem_of_nil_inv. intros s [Hb Hin]%list_elem_of_filter. unfold beyond in Hb.
    assert (cmp (gs_id s) (gs_id x) = Lt) as Hlt; [|by rewrite Hlt in Hb].
    clear Hb. induction l1 as [|y l1 IH]; [by apply elem_of_nil in Hin|].
    inversion_clear Hs as [|? ? Hs' Hy]. apply elem_of_cons in Hin as [->|Hin]; [|by apply IH].
    rewrite Forall_forall in Hy. apply Hy. set_solver. }
  simpl. induction l1 as [|y l1 IH]; [|inversion_clear Hs; auto].
  inversion_clear Hs as [|? ? _ Hx]. simpl.
  induction Hx as [|z l2 Hz Hl IH]; [done|]. rewrite filter_cons_True, IH; [done|].
  unfold beyond. by rewrite cmp_antisym, Hz.
Qed.

(** The request for the next page goes on where the previous one ended. *)
Lemma list_document_step d size c l1 l2 :
  document_wf d -> (0 < size)%N -> summaries d = l1 ++ l2 ->
  filter (fun s => beyond (last_id <$> c) s = true) (summaries d) = l2 ->
  (forall c', c = Some c' -> snapshot c' = canonical_digest d) ->
  let page := take (N.to_nat size) l2 in
  list_document d {| page_size := size; cursor := c |} =
  Ok {| entries := page;
        next_cursor := if bool_decide (N.to_nat size < length l2)
                       then (fun e => {| snapshot := canonical_digest d; last_id := gs_id e |}) <$> last page
                       else None |}.
Proof.
  intros Hd Hsize Hsum Hrest Hc. unfold list_document. simpl.
  assert (match c with Some c0 => bool_decide (snapshot c0 <> canonical_digest d) | None => false end
          = false) as ->.
  { destruct c as [c'|]; [|done]. by rewrite bool_decide_eq_false_2 by (rewrite (Hc c'); auto). }
  rewrite page_loop_spec by (apply Hd || (simpl; lia)). simpl.
  change (entry_summary <$> grants d) with (summaries d). rewrite Hrest, Nat.sub_0_r.
  by case_bool_decide.
Qed.

Lemma all_pages_from d size c l1 l2 fuel :
  document_wf d -> (0 < size)%N -> summaries d = l1 ++ l2 ->
  filter (fun s => beyond (last_id <$> c) s = true) (summaries d) = l2 ->
  (forall c', c = Some c' -> snapshot c' = canonical_digest d) ->
  length l2 < fuel -> all_pages fuel d size c = Some l2.
Proof.
  intros Hd Hsize. revert c l1 l2. induction fuel as [|fuel IH]; intros c l1 l2 Hsum Hrest Hc Hfuel; [lia|].
  simpl. rewrite (list_document_step d size c l1 l2) by done. simpl. case_bool_decide as Hmore.
  2: { by rewrite take_ge by lia. }
  set (page := take (N.to_nat size) l2).
  assert (length page = N.to_nat size) as Hlen by (apply length_take_le; lia).
  destruct page as [|x page' _] eqn:Epage using rev_ind; [simpl in Hlen; lia|].
  rewrite last_snoc. simpl.
  assert (summaries d = (l1 ++ page') ++ x :: drop (N.to_nat size) l2) as Hsplit.
  { rewrite Hsum, <- (take_drop (N.to_nat size) l2) at 1. fold page. rewrite Epage, <- !app_assoc. done. }
  rewrite (IH _ ((l1 ++ page') ++ [x]) (drop (N.to_nat size) l2)).
  - simpl. f_equal. rewrite <- Epage. apply take_drop.
  - by rewrite <- !app_assoc in *.
  - simpl. rewrite Hsplit. apply beyond_suffix. rewrite <- Hsplit. by apply summaries_ascending.
  - by intros c' [= <-].
  - rewrite length_drop. lia.
Qed.

Lemma list_document_Ok d q page :
  document_wf d -> list_document d q = Ok page ->
  (forall c, cursor q = Some c -> snapshot c = canonical_digest d) /\
  let rest := filter (fun s => beyond (last_id <$> cursor q) s = true) (summaries d) in
  entries page = take (N.to_nat (page_size q)) rest /\
  next_cursor page =
    if bool_decide (N.to_nat (page_size q) < length rest)
    then (fun e => {| snapshot := canonical_digest d; last_id := gs_id e |}) <$> last (entries page)
    else None.
Proof.
  intros Hd H. unfold list_document in H. rewrite page_loop_spec in H by (apply Hd || (simpl; lia)).
  simpl in H. res_inv. simpl. change (entry_summary <$> grants d) with (summaries d).
  rewrite Nat.sub_0_r. split_and!; [|done|by case_bool_decide].
  intros c Hc. rewrite Hc in G. bool_inv. by apply dec_stable.
Qed.

(** * Theorems *)

(** C38. Listings end and miss nothing: a client that follows the cursors of a
    document with [n] grants, at any positive page size, is done after at most
    [n + 1] requests and has then seen every grant exactly once, in ascending
    order of the identities. *)
Theorem listing_complete (d : StoreDocument) (size : N) (fuel : nat) :
  document_wf d -> (0 < size)%N -> length (grants d) < fuel ->
  all_pages fuel d size None = Some (summaries d) /\
  StronglySorted (fun s t => cmp (gs_id s) (gs_id t) = Lt) (summaries d).
Proof.
  intros Hd Hsize Hfuel. split; [|by apply summaries_ascending].
  apply (all_pages_from d size None []); try done.
  - apply beyond_None.
  - unfold summaries. by rewrite length_fmap.
Qed.

(** Pages are bounded and belong to one snapshot: a request is accepted for
    sizes from 1 to 1000 only; a page then has at most that many entries; it is
    answered without a cursor or with a cursor of the very document it reads;
    and a continuation is offered exactly when the page is full and a grant is
    left over. *)
Theorem listing_bounded (d : StoreDocument) (size : N) (c : option GrantPageCursor)
    (q : GrantPageRequest) (page : GrantPage) :
  document_wf d -> page_request_new size c = Ok q -> list_document d q = Ok page ->
  (1 <= size <= 1000)%N /\ length (entries page) <= N.to_nat size /\
  (forall c', c = Some c' -> snapshot c' = canonical_digest d) /\
  (forall c', next_cursor page = Some c' ->
     snapshot c' = canonical_digest d /\ length (entries page) = N.to_nat size) /\
  (next_cursor page = None -> entries page = filter (fun s => beyond (last_id <$> c) s = true) (summaries d)).
Proof.
  intros Hd Hq Hp. unfold page_request_new, MAX_PAGE_SIZE in Hq. res_inv.
  apply N.eqb_neq in G. apply N.ltb_ge in G0.
  apply (list_document_Ok _ _ _ Hd) in Hp as (Hs & He & Hn). simpl in *.
  split; [lia|]. split; [rewrite He, length_take; lia|]. split; [done|]. rewrite Hn.
  case_bool_decide as Hmore; split.
  - intros c' (e & _ & ->)%fmap_Some. split; [done|]. rewrite He, length_take. lia.
  - intros Hl%fmap_None%last_None. rewrite He in Hl.
    apply (f_equal length) in Hl. rewrite length_take in Hl. simpl in Hl. lia.
  - done.
  - intros _. rewrite He. apply take_ge. lia.
Qed.

(** A cursor does not survive a change of the document: it is refused unless
    the digests of the two documents agree. *)
Theorem listing_snapshot (d : StoreDocument) (size : N) (c : GrantPageCursor) :
  snapshot c <> canonical_digest d ->
  list_document d {| page_size := size; cursor := Some c |} = Err ListingSnapshotExpired.
Proof. intros H. unfold list_document. simpl. by rewrite bool_decide_eq_true_2. Qed.

End listing.
