(* ===== verification/StoreRefinement.v ===== *)
(** [cageforge-permissions]: what the grant store promises.  Sequences of
    operations on the host refine the abstract document store; single
    operations stay atomic when calls fail; a grant read back was stored for
    the request. *)

From Stdlib Require Import Ascii String NArith ZArith Lia.
From stdpp Require Import base list gmap strings option sorting countable pretty.
From S2P Require Import Prelude Text BTree NativePath GrantId Permissions HostFs GrantStore GrantListing.

Section refinement.
Context {D : Sha256} {R : Serialize PermissionRequest} {T : Serialize StoreDocument} {J : Json}.

(** Operations one after the other, and the same on the abstract store. *)
Fixpoint run_ops (p : fs_path) (ops : list StoreOp) (h : Host) :
  list (result StoreError StoreOutput) * Host :=
  match ops with
  | [] => ([], h)
  | op :: ops' =>
      let '(r, h) := run_op p op h in
      let '(rs, h) := run_ops p ops' h in (r :: rs, h)
  end.

Fixpoint spec_ops (ops : list StoreOp) (d : StoreDocument) :
  list (result StoreError StoreOutput) * StoreDocument :=
  match ops with
  | [] => ([], d)
  | op :: ops' =>
      let '(r, d) := spec_op op d in
      let '(rs, d) := spec_ops ops' d in (r :: rs, d)
  end.

Context {DL : Sha256Laws D} {JL : JsonLaws J}.
Context {p dir : fs_path} {name : string} (Hp : file_path p dir name).

Lemma run_ops_ok ops h d : usable (p := p) (dir := dir) h -> contents h p = Some d ->
  exists h', run_ops p ops h = ((spec_ops ops d).1, h') /\
    usable (p := p) (dir := dir) h' /\ contents h' p = Some (spec_ops ops d).2.
Proof.
  revert h d. induction ops as [|op ops IH]; intros h d Hu Hc; simpl; [eauto|].
  destruct (run_op_ok Hp op h d Hu Hc) as (h1 & -> & Hu1 & Hc1).
  destruct (spec_op op d) as [r d1]; simpl in *.
  destruct (IH h1 d1 Hu1 Hc1) as (h2 & -> & Hu2 & Hc2). destruct (spec_ops ops d1); simpl in *. eauto.
Qed.

(** C30. The grant store refines its specification: on a usable location without
    failing calls, any sequence of get, put, list, revoke and revoke-all
    operations returns what the abstract document store returns, errors
    included, and leaves the abstract document in the file. *)
Theorem store_refines (ops : list StoreOp) (h : Host) (d : StoreDocument) :
  usable (p := p) (dir := dir) h -> contents h p = Some d ->
  exists h', run_ops p ops h = ((spec_ops ops d).1, h') /\ contents h' p = Some (spec_ops ops d).2.
Proof. intros Hu Hc. destruct (run_ops_ok ops h d Hu Hc) as (h' & ? & _ & ?). eauto. Qed.

(** The life of a grant: a persistent grant that was put is returned until it
    expires, other requests see no difference, and after its revocation nothing
    is returned. *)
Theorem store_grant_lifecycle (h : Host) (d : StoreDocument) (g : PermissionGrant)
    (r : PermissionRequest) (clock : Z) :
  usable (p := p) (dir := dir) h -> contents h p = Some d ->
  grant_matches g r = true -> scope g = Persistent ->
  (run_ops p [OpPut g r; OpGet r clock] h).1
    = [Ok OutDone; Ok (OutGrant (if is_valid_at g (unix_timestamp clock) then Some g else None))] /\
  (forall r', request_digest_hex r' <> request_digest_hex r ->
     (run_ops p [OpPut g r; OpGet r' clock] h).1 = Ok OutDone :: (run_ops p [OpGet r' clock] h).1) /\
  (run_ops p [OpPut g r; OpRevoke (grant_id r); OpGet r clock] h).1
    = [Ok OutDone; Ok (OutRevoke Revoked); Ok (OutGrant None)].
Proof.
  intros Hu Hc Hm Hs.
  assert (forall ops, (run_ops p ops h).1 = (spec_ops ops d).1) as Hrun.
  { intros ops. by destruct (run_ops_ok ops h d Hu Hc) as (h' & -> & _). }
  split; [|split; [intros r' Hr'|]]; rewrite !Hrun; simpl; rewrite Hm, bool_decide_eq_false_2 by naive_solver;
    simpl.
  - rewrite bt_get_insert. simpl. do 4 f_equal. destruct (is_valid_at _ _) eqn:Hv.
    + by apply usable_grant_Some.
    + destruct (usable_grant _ _ _) as [g'|] eqn:E; [|done].
      apply usable_grant_Some in E as (Hst & _ & _ & Hv'). destruct g, g'. unfold stored_of in Hst.
      simpl in *. injection Hst as <- <- <- <- <-. congruence.
  - rewrite bt_get_insert_ne; [done|]. by intros H%cmp_eq.
  - change (to_hex (grant_id r)) with (request_digest_hex r). rewrite bt_get_insert. simpl.
    by rewrite bt_get_remove.
Qed.

(** A failing [stat] hides the store from a revocation: it reports that the
    grant does not exist and leaves it in the file, where the next lookup finds
    it. *)
Theorem revoke_misses_on_stat_error (h : Host) (d : StoreDocument) (r : PermissionRequest) (clock : Z)
    (g : PermissionGrant) (f : Fault) :
  usable (p := p) (dir := dir) h -> contents h p = Some d ->
  bt_get (request_digest_hex r) (grants d) ≫= usable_grant r (unix_timestamp clock) = Some g ->
  store_revoke p (grant_id r) (set_faults h [Some f]) = (Ok NotFound, h) /\
  (run_ops p [OpGet r clock] h).1 = [Ok (OutGrant (Some g))].
Proof.
  intros Hu Hc Hg. split.
  - unfold store_revoke, path_exists, next_fault, mbind, io_bind. simpl.
    destruct Hu as (Hf & _). destruct h; simpl in *. by subst.
  - destruct (run_ops_ok [OpGet r clock] h d Hu Hc) as (h' & -> & _). simpl. by rewrite Hg.
Qed.

End refinement.

(** * An instance of the parameters *)

(** Laws of the example digest, and a document format for the examples: the
    bits of a binary encoding. *)
#[export] Instance pad_sha256_laws : Sha256Laws pad_sha256.
Proof. intros bytes. apply str_take_length. rewrite string_app_length. simpl. lia. Qed.

Definition count_serialize : Serialize StoreDocument := fun d => (pretty (length (grants d)), true).

Fixpoint bits (p : positive) : string :=
  match p with xH => "" | xO p => String "0" (bits p) | xI p => String "1" (bits p) end.
Fixpoint of_bits (s : string) : positive :=
  match s with
  | EmptyString => xH
  | String a s => if Ascii.eqb a "1" then xI (of_bits s) else xO (of_bits s)
  end.

Lemma of_bits_bits p : of_bits (bits p) = p.
Proof. induction p as [p IH|p IH|]; simpl; by rewrite ?IH. Qed.

#[export] Instance StoredGrant_eq_dec : EqDecision StoredGrant.
Proof. solve_decision. Defined.
#[export] Instance StoreDocument_eq_dec : EqDecision StoreDocument.
Proof. solve_decision. Defined.

#[export] Instance PlatformId_countable : Countable PlatformId.
Proof.
  apply (inj_countable' (fun x => match x with Linux => 0 | Macos => 1 | Windows => 2 end)
           (fun n => match n with 0 => Linux | 1 => Macos | _ => Windows end)). by intros [].
Defined.
#[export] Instance PermissionScope_countable : Countable PermissionScope.
Proof.
  apply (inj_countable' (fun x => match x with Launch => 0 | Session => 1 | Persistent => 2 end)
           (fun n => match n with 0 => Launch | 1 => Session | _ => Persistent end)). by intros [].
Defined.
#[export] Instance FilesystemCapability_countable : Countable FilesystemCapability.
Proof.
  apply (inj_countable' (fun c => (operation_index (operation c), cap_path c))
           (fun '(n, p) => {| operation := match n with 0%N => OpRead | 1%N => OpWrite | 2%N => OpDeny
                                           | _ => OpMapExecutable end; cap_path := p |})).
  by intros [[] p].
Defined.
#[export] Instance PermissionSet_countable : Countable PermissionSet.
Proof.
  apply (inj_countable' (fun s => (filesystem s, endpoint <$> network s, cap_program <$> child_processes s))
           (fun '(f, n, c) => {| filesystem := f; network := Build_NetworkCapability <$> n;
                                 child_processes := Build_ProcessCapability <$> c |})).
  intros [f n c]. simpl. f_equal; rewrite <- list_fmap_compose.
  - rewrite <- (list_fmap_id n) at 2. by apply list_fmap_ext; intros ? [].
  - rewrite <- (list_fmap_id c) at 2. by apply list_fmap_ext; intros ? [].
Defined.
#[export] Instance StoredGrant_countable : Countable StoredGrant.
Proof.
  apply (inj_countable' (fun g => ((sg_request_digest g, sg_tool_id g, sg_tool_version g, sg_manifest_digest g),
            (sg_config_digest g, sg_platform g, sg_architecture g, sg_approved g),
            (sg_scope g, sg_expires_at g, sg_issued_at g)))
           (fun '((a, b, c, d), (e, f, g, h), (i, j, k)) =>
              {| sg_request_digest := a; sg_tool_id := b; sg_tool_version := c; sg_manifest_digest := d;
                 sg_config_digest := e; sg_platform := f; sg_architecture := g; sg_approved := h;
                 sg_scope := i; sg_expires_at := j; sg_issued_at := k |})).
  by intros [].
Defined.

Definition bits_json : Json := {|
  to_vec_pretty d := Ok (bits (encode (schema_version d, grants d)));
  from_slice s :=
    match decode (of_bits s) with
    | Some (v, gs) => if decide (bt_wf gs) then Ok {| schema_version := v; grants := gs |} else Err "unsorted"
    | None => Err "expected value"
    end
|}.

#[export] Instance bits_json_laws : JsonLaws bits_json.
Proof.
  split; simpl.
  - intros [v gs] Hs. eexists. split; [done|]. rewrite of_bits_bits, decode_encode.
    by rewrite decide_True.
  - intros s d. destruct (decode _) as [[v gs]|]; [|done]. case_decide; [|done]. by intros [= <-].
Qed.

(** * Examples *)

Section examples.
#[local] Existing Instance pad_sha256.
#[local] Existing Instance tool_serialize.
#[local] Existing Instance count_serialize.
#[local] Existing Instance bits_json.

Definition store_dir : fs_path := [RootDir; Normal "srv"].
Definition store_path : fs_path := [RootDir; Normal "srv"; Normal "grants.json"].

Definition fresh_host : Host :=
  {| tree := {[ [RootDir] := Dir 493 ]}; faults := []; umask := 18; process_id := 7; temp_counter := 0 |}.

Definition tool_set : PermissionSet := with_network set_new {| endpoint := "example.com" |}.

Definition tool_request : PermissionRequest :=
  {| tool_id := "tool"; tool_version := "1.0.0"; manifest_digest := to_hex padding;
     config_digest := to_hex padding; platform := Linux; architecture := "x86_64";
     capabilities := tool_set |}.

Definition tool_grant : PermissionGrant :=
  {| request_digest := request_digest_hex tool_request; approved := tool_set; scope := Persistent;
     expires_at := Some 100%N; issued_at := 1 |}.

Lemma store_path_file : file_path store_path store_dir "grants.json".
Proof. split; [reflexivity|done]. Qed.

Lemma fresh_host_usable : usable (p := store_path) (dir := store_dir) fresh_host.
Proof.
  split_and!; [done|..]; intros *; simpl; [intros _|..]; intros [? ?]%lookup_singleton_Some; done.
Qed.

Lemma store_refines_witness :
  exists h', run_ops store_path [OpPut tool_grant tool_request; OpRevokeAll; OpGet tool_request 0] fresh_host
    = ([Ok OutDone; Ok OutDone; Ok (OutGrant None)], h') /\ contents h' store_path = Some empty_document.
Proof.
  destruct (store_refines store_path_file [OpPut tool_grant tool_request; OpRevokeAll; OpGet tool_request 0]
    fresh_host empty_document fresh_host_usable eq_refl) as (h' & Hr & Hc).
  exists h'. split; [exact Hr|exact Hc].
Defined.

(** The disk fills up while the temporary file is written: nine calls succeed,
    the tenth one fails after three bytes. *)
Definition full_disk_host : Host :=
  set_faults fresh_host [None; None; None; None; None; None; None; None; None;
                         Some {| message := "No space left on device"; progress := 3 |}].

Definition tool_document : StoreDocument := (spec_op (OpPut tool_grant tool_request) empty_document).2.

Lemma store_operations_atomic_witness :
  let '(res, h') := run_op store_path (OpPut tool_grant tool_request) full_disk_host in
  res = Err (StoreWrite "No space left on device") /\
  (contents h' store_path = Some empty_document \/ contents h' store_path = Some tool_document).
Proof.
  assert ((run_op store_path (OpPut tool_grant tool_request) full_disk_host).1
          = Err (StoreWrite "No space left on device")) as Hres by reflexivity.
  destruct (run_op store_path (OpPut tool_grant tool_request) full_disk_host) as [res h'] eqn:E.
  split; [exact Hres|].
  destruct (store_operations_atomic store_path_file _ empty_document full_disk_host h' res eq_refl E)
    as (_ & Hc & _); apply Hc. intros [f Hstat]. vm_compute in Hstat. discriminate Hstat.
Defined.

Lemma store_grant_lifecycle_witness :
  (run_ops store_path [OpPut tool_grant tool_request; OpGet tool_request 5000000000] fresh_host).1
    = [Ok OutDone; Ok (OutGrant (Some tool_grant))].
Proof.
  exact (proj1 (store_grant_lifecycle store_path_file fresh_host empty_document tool_grant tool_request
                  5000000000 fresh_host_usable eq_refl eq_refl eq_refl)).
Defined.

(** A host whose store holds the example grant. *)
Lemma stored_host : exists h d, usable (p := store_path) (dir := store_dir) h /\ contents h store_path = Some d /\
  bt_get (request_digest_hex tool_request) (grants d) ≫= usable_grant tool_request 0 = Some tool_grant /\
  exists h', store_get store_path tool_request 0 h = (Ok (Some tool_grant), h').
Proof.
  destruct (run_op_ok store_path_file (OpPut tool_grant tool_request) fresh_host empty_document
              fresh_host_usable eq_refl) as (h & _ & Hu & Hc).
  exists h. eexists. split; [exact Hu|]. split; [exact Hc|]. split; [reflexivity|].
  destruct (run_op_ok store_path_file (OpGet tool_request 0) h _ Hu Hc) as (h' & Hr & _).
  exists h'. simpl in Hr. rewrite io_bind_map in Hr.
  destruct (store_get store_path tool_request 0 h) as [r h1]. injection Hr as Hr <-.
  destruct r as [og|]; simpl in Hr; [|discriminate Hr]. injection Hr as ->. reflexivity.
Qed.

Lemma store_get_sound_witness : exists h h',
  store_get store_path tool_request 0 h = (Ok (Some tool_grant), h') /\
  exists d, contents h store_path = Some d /\
    bt_get (request_digest_hex tool_request) (grants d) = Some (stored_of tool_grant tool_request).
Proof.
  destruct stored_host as (h & d & _ & _ & _ & h' & Hg). exists h, h'. split; [exact Hg|].
  apply (store_get_sound store_path_file tool_request 0 h h' tool_grant Hg).
Defined.

Lemma revoke_misses_on_stat_error_witness : exists h f,
  (store_revoke store_path (grant_id tool_request) (set_faults h [Some f])).1 = Ok NotFound /\
  (run_ops store_path [OpGet tool_request 0] h).1 = [Ok (OutGrant (Some tool_grant))].
Proof.
  destruct stored_host as (h & d & Hu & Hc & Hg & _).
  exists h, {| message := "Permission denied"; progress := 0 |}.
  destruct (revoke_misses_on_stat_error store_path_file h d tool_request 0 tool_grant
    {| message := "Permission denied"; progress := 0 |} Hu Hc Hg) as [Hr Hget].
  split; [by rewrite Hr|exact Hget].
Defined.

Lemma tool_document_wf : document_wf tool_document.
Proof. apply spec_op_wf, document_wf_empty. Qed.

Lemma listing_complete_witness : all_pages 2 tool_document 10 None = Some (summaries tool_document).
Proof. apply (listing_complete tool_document 10 2 tool_document_wf); [done|simpl; lia]. Defined.

Lemma listing_bounded_witness :
  exists page, list_document tool_document {| page_size := 10; cursor := None |} = Ok page /\
    length (entries page) <= 10.
Proof.
  eexists. split; [reflexivity|].
  apply (listing_bounded tool_document 10 None _ _ tool_document_wf eq_refl eq_refl).
Defined.

Lemma listing_snapshot_witness :
  list_document tool_document {| page_size := 1; cursor := Some {| snapshot := padding; last_id := padding |} |}
  = Err ListingSnapshotExpired.
Proof. apply (listing_snapshot tool_document 1 {| snapshot := padding; last_id := padding |}). discriminate. Defined.

End examples.
