(* ===== verification/GatewayConfig.v ===== *)
(** [cageforge-network-proxy/src/config.rs]: the validated limits of one
    gateway.  A duration is a number of nanoseconds; [usize] has 64 bits. *)

From Stdlib Require Import Ascii String NArith Lia.
From stdpp Require Import base list strings option.
From S2P Require Import Prelude.

#[local] Open Scope N_scope.

Definition SECOND : N := 1000000000.
Definition MIN_HTTP_HEADER_BYTES : N := 8 * 1024.
Definition DEFAULT_RELAY_BYTE_LIMIT : N := 1024 * 1024 * 1024.

(** [usize::MAX >> 3], the most permits a Tokio semaphore can hold *)
Definition MAX_CONCURRENT_CONNECTIONS : N := N.shiftr (2 ^ 64 - 1) 3.

Record GatewayConfig := {
  handshake_timeout : N;
  dns_timeout : N;
  connect_timeout : N;
  response_header_timeout : N;
  relay_idle_timeout : N;
  max_concurrent_connections : N;
  max_requests_per_connection : N;
  max_resolved_addresses : N;
  http_header_bytes : N;
  relay_byte_limit : option N
}.

Inductive GatewayConfigError :=
  | ZeroTimeout (field : string)
  | HttpHeaderLimitTooSmall (minimum actual : N)
  | LimitTooLarge (field : string) (maximum actual : N).

Definition gateway_config_new : GatewayConfig := {|
  handshake_timeout := 10 * SECOND; dns_timeout := 10 * SECOND; connect_timeout := 10 * SECOND;
  response_header_timeout := 30 * SECOND; relay_idle_timeout := 300 * SECOND;
  max_concurrent_connections := 128; max_requests_per_connection := 64; max_resolved_addresses := 64;
  http_header_bytes := 32 * 1024; relay_byte_limit := Some DEFAULT_RELAY_BYTE_LIMIT
|}.

Definition validate_timeout (field : string) (timeout : N) : result GatewayConfigError unit :=
  reject timeout =? 0 with ZeroTimeout field ;; Ok ().

Definition validate_limit (field : string) (value maximum : N) : result GatewayConfigError unit :=
  reject maximum <? value with LimitTooLarge field maximum value ;; Ok ().

(** The builders take the configuration by value and replace one field. *)
Definition set_config (handshake dns connect response idle concurrent requests
    resolved header : N) (bytes : option N) : GatewayConfig :=
  {| handshake_timeout := handshake; dns_timeout := dns; connect_timeout := connect;
     response_header_timeout := response; relay_idle_timeout := idle;
     max_concurrent_connections := concurrent; max_requests_per_connection := requests;
     max_resolved_addresses := resolved; http_header_bytes := header; relay_byte_limit := bytes |}.

Definition with_handshake_timeout (c : GatewayConfig) (t : N) : result GatewayConfigError GatewayConfig :=
  _ ← validate_timeout "handshake" t;
  Ok (set_config t (dns_timeout c) (connect_timeout c) (response_header_timeout c)
        (relay_idle_timeout c) (max_concurrent_connections c) (max_requests_per_connection c)
        (max_resolved_addresses c) (http_header_bytes c) (relay_byte_limit c)).

Definition with_dns_timeout (c : GatewayConfig) (t : N) : result GatewayConfigError GatewayConfig :=
  _ ← validate_timeout "DNS" t;
  Ok (set_config (handshake_timeout c) t (connect_timeout c) (response_header_timeout c)
        (relay_idle_timeout c) (max_concurrent_connections c) (max_requests_per_connection c)
        (max_resolved_addresses c) (http_header_bytes c) (relay_byte_limit c)).

Definition with_connect_timeout (c : GatewayConfig) (t : N) : result GatewayConfigError GatewayConfig :=
  _ ← validate_timeout "connect" t;
  Ok (set_config (handshake_timeout c) (dns_timeout c) t (response_header_timeout c)
        (relay_idle_timeout c) (max_concurrent_connections c) (max_requests_per_connection c)
        (max_resolved_addresses c) (http_header_bytes c) (relay_byte_limit c)).

Definition with_response_header_timeout (c : GatewayConfig) (t : N) :
  result GatewayConfigError GatewayConfig :=
  _ ← validate_timeout "response header" t;
  Ok (set_config (handshake_timeout c) (dns_timeout c) (connect_timeout c) t
        (relay_idle_timeout c) (max_concurrent_connections c) (max_requests_per_connection c)
        (max_resolved_addresses c) (http_header_bytes c) (relay_byte_limit c)).

Definition with_relay_idle_timeout (c : GatewayConfig) (t : N) : result GatewayConfigError GatewayConfig :=
  _ ← validate_timeout "relay idle" t;
  Ok (set_config (handshake_timeout c) (dns_timeout c) (connect_timeout c) (response_header_timeout c)
        t (max_concurrent_connections c) (max_requests_per_connection c)
        (max_resolved_addresses c) (http_header_bytes c) (relay_byte_limit c)).

Definition with_max_concurrent_connections (c : GatewayConfig) (limit : N) :
  result GatewayConfigError GatewayConfig :=
  _ ← validate_limit "maximum concurrent connections" limit MAX_CONCURRENT_CONNECTIONS;
  Ok (set_config (handshake_timeout c) (dns_timeout c) (connect_timeout c) (response_header_timeout c)
        (relay_idle_timeout c) limit (max_requests_per_connection c)
        (max_resolved_addresses c) (http_header_bytes c) (relay_byte_limit c)).

Definition with_max_requests_per_connection (c : GatewayConfig) (limit : N) : GatewayConfig :=
  set_config (handshake_timeout c) (dns_timeout c) (connect_timeout c) (response_header_timeout c)
    (relay_idle_timeout c) (max_concurrent_connections c) limit
    (max_resolved_addresses c) (http_header_bytes c) (relay_byte_limit c).

Definition with_max_resolved_addresses (c : GatewayConfig) (limit : N) : GatewayConfig :=
  set_config (handshake_timeout c) (dns_timeout c) (connect_timeout c) (response_header_timeout c)
    (relay_idle_timeout c) (max_concurrent_connections c) (max_requests_per_connection c)
    limit (http_header_bytes c) (relay_byte_limit c).

Definition with_http_header_bytes (c : GatewayConfig) (limit : N) : result GatewayConfigError GatewayConfig :=
  reject limit <? MIN_HTTP_HEADER_BYTES with HttpHeaderLimitTooSmall MIN_HTTP_HEADER_BYTES limit ;;
  Ok (set_config (handshake_timeout c) (dns_timeout c) (connect_timeout c) (response_header_timeout c)
        (relay_idle_timeout c) (max_concurrent_connections c) (max_requests_per_connection c)
        (max_resolved_addresses c) limit (relay_byte_limit c)).

Definition set_relay_byte_limit (c : GatewayConfig) (limit : option N) : GatewayConfig :=
  set_config (handshake_timeout c) (dns_timeout c) (connect_timeout c) (response_header_timeout c)
    (relay_idle_timeout c) (max_concurrent_connections c) (max_requests_per_connection c)
    (max_resolved_addresses c) (http_header_bytes c) limit.

Definition with_relay_byte_limit (c : GatewayConfig) (limit : N) : GatewayConfig :=
  set_relay_byte_limit c (Some limit).
Definition without_relay_byte_limit (c : GatewayConfig) : GatewayConfig := set_relay_byte_limit c None.

(** * Invariant *)

(** The configurations the builders produce; [NonZeroUsize] arguments are
    positive 64-bit numbers. *)
Definition nonzero_usize (n : N) : Prop := 0 < n < 2 ^ 64.

Inductive config_built : GatewayConfig -> Prop :=
  | config_default : config_built gateway_config_new
  | config_handshake c t c' : config_built c -> with_handshake_timeout c t = Ok c' -> config_built c'
  | config_dns c t c' : config_built c -> with_dns_timeout c t = Ok c' -> config_built c'
  | config_connect c t c' : config_built c -> with_connect_timeout c t = Ok c' -> config_built c'
  | config_response c t c' : config_built c -> with_response_header_timeout c t = Ok c' -> config_built c'
  | config_idle c t c' : config_built c -> with_relay_idle_timeout c t = Ok c' -> config_built c'
  | config_concurrent c n c' : config_built c -> nonzero_usize n ->
      with_max_concurrent_connections c n = Ok c' -> config_built c'
  | config_requests c n : config_built c -> nonzero_usize n -> config_built (with_max_requests_per_connection c n)
  | config_resolved c n : config_built c -> nonzero_usize n -> config_built (with_max_resolved_addresses c n)
  | config_header c n c' : config_built c -> nonzero_usize n -> with_http_header_bytes c n = Ok c' -> config_built c'
  | config_bytes c n : config_built c -> nonzero_usize n -> config_built (with_relay_byte_limit c n)
  | config_no_bytes c : config_built c -> config_built (without_relay_byte_limit c).

(** Every configuration that can be built keeps its bounds: no timeout is zero,
    the permits fit a Tokio semaphore, the header buffer reaches hyper's
    minimum, and a byte ceiling, if any, is positive. *)
Theorem gateway_config_bounds (c : GatewayConfig) :
  config_built c ->
  0 < handshake_timeout c /\ 0 < dns_timeout c /\ 0 < connect_timeout c /\
  0 < response_header_timeout c /\ 0 < relay_idle_timeout c /\
  0 < max_concurrent_connections c <= 2 ^ 61 - 1 /\ 0 < max_requests_per_connection c /\
  0 < max_resolved_addresses c /\ 8192 <= http_header_bytes c /\
  (forall limit, relay_byte_limit c = Some limit -> 0 < limit < 2 ^ 64).
Proof.
  assert (MAX_CONCURRENT_CONNECTIONS = 2 ^ 61 - 1) as Hmax by reflexivity.
  induction 1; [split_and!; try done; by intros limit [= <-]|..];
    unfold with_handshake_timeout, with_dns_timeout, with_connect_timeout,
      with_response_header_timeout, with_relay_idle_timeout, with_max_concurrent_connections,
      with_http_header_bytes, validate_timeout, validate_limit, nonzero_usize, MIN_HTTP_HEADER_BYTES in *;
    res_inv; simpl;
    repeat match goal with
    | H : (_ =? _) = false |- _ => apply N.eqb_neq in H
    | H : (_ <? _) = false |- _ => apply N.ltb_ge in H
    end; destruct_and?; split_and!; try lia; naive_solver.
Qed.

Lemma gateway_config_bounds_witness :
  exists c, with_max_concurrent_connections gateway_config_new 7 = Ok c /\ 0 < max_concurrent_connections c.
Proof.
  eexists. split; [reflexivity|].
  pose proof (config_concurrent gateway_config_new 7 _ config_default (conj eq_refl eq_refl) eq_refl) as H.
  destruct (gateway_config_bounds _ H) as (_ & _ & _ & _ & _ & [H' _] & _). exact H'.
Defined.
