(* ===== verification/GatewayError.v ===== *)
(** [cageforge-network-proxy/src/error.rs]: the typed failures of the gateway.
    The causes other libraries report ([io::Error], [hyper::Error],
    [JoinError], [getrandom::Error]) are kept as their text. *)

From Stdlib Require Import String NArith.
From stdpp Require Import base strings.
From S2P Require Import Prelude IpAddr Access Compose.

Definition cause : Type := string.

Inductive UnsupportedNetworkRequirement := DisabledMode | ExternalMode.

(** Three constructors carry a prefix because other components declare the
    plain name. *)
Inductive GatewayError :=
  | UnsupportedPolicy (requirement : UnsupportedNetworkRequirement)
  | AuthenticationKeyGeneration (source : cause)
  | ResolverInitialization (source : cause)
  | AuthenticationFailed
  | ConnectionLimitReached
  | HandshakeTimedOut
  | InvalidHttpRequest (reason : string)
  | InvalidHttpResponse (reason : string)
  | InvalidSocksRequest (reason : string)
  | InvalidAuthority (authority : string)
  | DnsTimedOut (host : string)
  | DnsFailed (host : string) (source : cause)
  | EmptyDnsResult (host : string)
  | DnsAddressLimitExceeded (host : string) (limit : N)
  | ResolvedPortMismatch (host : string) (expected : N) (actual : SocketAddr)
  | InvalidResolvedTarget (source : PolicyError)
  | PolicyDenied (host : string) (port : N)
  | GwExternallyEnforced (host : string) (port : N)
  | GwPolicyEvaluation (source : CompositionError)
  | ConnectFailed (host : string) (port : N) (source : cause)
  | ConnectTimedOut (host : string) (port : N)
  | ResponseHeaderTimedOut (host : string) (port : N)
  | RelayTimedOut
  | RelayByteLimitExceeded (limit : N)
  | GwIo (source : cause)
  | HttpConnection (source : cause)
  | HttpUpgrade (source : cause)
  | ProtocolTask (source : cause).

(** [Display] of the requirement *)
Definition requirement_to_string (r : UnsupportedNetworkRequirement) : string :=
  match r with
  | DisabledMode => "disabled network mode"
  | ExternalMode => "external network enforcement"
  end.
