(* ===== verification/Authority.v ===== *)
(** [cageforge-network-proxy/src/authority.rs]: the host and port of a request,
    as HTTP and SOCKS5 spell them.  The grammar of an authority is that of the
    [http] crate, which the definitions take as a parameter. *)

From Stdlib Require Import Ascii String NArith Lia.
From stdpp Require Import base list strings option numbers.
From S2P Require Import Prelude Text IpAddr IpText Domain GatewayError.

#[local] Open Scope N_scope.

(** ** The [http] crate *)

(** [http::uri::Authority::from_str]: [host()] and [port_u16()] of a well-formed
    authority.  The host of a bracketed address keeps its brackets. *)
Class HttpAuthority := { from_str : string -> option (string * option N) }.

(** [{}] of a [u16] *)
Definition port_to_string (port : N) : string := print_digits 4 10 port "".

(** The bytes of a registered name that need no escape, as the policy's host
    names use them *)
Definition host_char (a : ascii) : bool :=
  is_ascii_alphabetic a || is_ascii_digit a || Ascii.eqb a "-" || Ascii.eqb a "." || Ascii.eqb a "_".

(** What the documentation of the crate and RFC 3986 say of [host:port], of a
    bare host and of a bracketed IPv6 address. *)
Class HttpAuthorityLaws (H : HttpAuthority) : Prop := {
  from_str_name host port : host <> "" -> str_all host_char host = true -> port < 65536 ->
    from_str (host +:+ ":" +:+ port_to_string port) = Some (host, Some port);
  from_str_bare host : host <> "" -> str_all host_char host = true -> from_str host = Some (host, None);
  from_str_ipv6 ip port : ipv6_wf ip -> port < 65536 ->
    from_str ("[" +:+ ipv6_to_string ip +:+ "]:" +:+ port_to_string port)
    = Some ("[" +:+ ipv6_to_string ip +:+ "]", Some port)
}.

(** ** Authorities *)

Record Authority := { host : string; port : N }.

(** [str::strip_suffix] with an ASCII character *)
Definition strip_suffix_char (c : ascii) (s : string) : option string :=
  if ends_with_char c s then Some (str_take (String.length s - 1) s) else None.

(** [SocketAddr::new] *)
Definition socket_addr (ip : IpAddr) (port : N) : SocketAddr :=
  match ip with V4 a => SocketV4 a port | V6 a => SocketV6 a port 0 0 end.

Definition socket_port (s : SocketAddr) : N :=
  match s with SocketV4 _ p | SocketV6 _ p _ _ => p end.

Section authority.
Context {H : HttpAuthority}.

Definition authority_parse (value : string) (default_port : option N) : result GatewayError Authority :=
  reject contains_char "@" value with InvalidAuthority value ;;
  '(parsed_host, parsed_port) ← ok_or (InvalidAuthority value) (from_str value);
  port ← ok_or (InvalidAuthority value)
           (p ← match parsed_port with Some p => Some p | None => default_port end;
            if p =? 0 then None else Some p);
  let host := default parsed_host (h ← strip_prefix "[" parsed_host; strip_suffix_char "]" h) in
  reject bool_decide (host = "") with InvalidAuthority value ;;
  Ok {| host := host; port := port |}.

Definition from_host_port (host : string) (port : N) : result GatewayError Authority :=
  reject bool_decide (host = "") || (port =? 0)
    with InvalidAuthority (host +:+ ":" +:+ port_to_string port) ;;
  let display :=
    if bool_decide (is_Some (parse_ipv6 host))
    then "[" +:+ host +:+ "]:" +:+ port_to_string port
    else host +:+ ":" +:+ port_to_string port in
  authority_parse display None.

End authority.

Definition literal_address (a : Authority) : option SocketAddr :=
  (fun ip => socket_addr ip (port a)) <$> parse_ip (host a).

Definition canonical_host (host : string) : string :=
  match parse_ip host with
  | Some address => ip_to_string address
  | None => to_ascii_lowercase (trim_end_matches "." host)
  end.

Definition same_endpoint (a b : Authority) : bool :=
  bool_decide (canonical_host (host a) = canonical_host (host b)) && (port a =? port b).

(** * Lemmas *)

Lemma socket_addr_ip ip port : socket_ip (socket_addr ip port) = ip.
Proof. by destruct ip. Qed.

Lemma socket_addr_port ip port : socket_port (socket_addr ip port) = port.
Proof. by destruct ip. Qed.

Lemma last_char_snoc s a : last_char (s +:+ String a "") = Some a.
Proof. by rewrite last_char_app. Qed.

Lemma strip_suffix_char_app c s : strip_suffix_char c (s +:+ String c "") = Some s.
Proof.
  unfold strip_suffix_char, ends_with_char. rewrite last_char_snoc, Ascii.eqb_refl, string_app_length.
  simpl String.length. rewrite Nat.add_sub. f_equal.
  induction s as [|a s IH]; [done|]. simpl. by f_equal.
Qed.

(** The digits of a printed number are letters and digits. *)
Lemma hex_digit_host m : m < 16 -> host_char (hex_digit m) = true.
Proof.
  intros Hm. destruct m as [|m]; [done|]. do 4 try (destruct m as [m|m|]; try lia; try reflexivity).
Qed.

Lemma print_digits_host radix fuel n tail :
  2 <= radix <= 16 -> n < radix ^ N.of_nat (S fuel) ->
  str_all host_char (print_digits fuel radix n tail) = str_all host_char tail.
Proof.
  intros Hr. revert n tail. induction fuel as [|fuel IH]; intros n tail Hn; cbn [print_digits].
  - change (N.of_nat 1) with 1 in Hn. rewrite N.pow_1_r in Hn.
    by rewrite str_all_cons, hex_digit_host by lia.
  - destruct (N.ltb_spec n radix); [by rewrite str_all_cons, hex_digit_host by lia|].
    rewrite IH; [by rewrite str_all_cons, hex_digit_host
                   by (pose proof (N.mod_lt n radix ltac:(lia)); lia)|].
    apply N.Div0.div_lt_upper_bound. by rewrite Nat2N.inj_succ, N.pow_succ_r' in Hn.
Qed.

Lemma print_digits_nonempty radix fuel n tail : print_digits fuel radix n tail <> "".
Proof.
  revert n tail. induction fuel as [|fuel IH]; intros n tail; cbn [print_digits]; [done|].
  destruct (n <? radix); [done|]. apply IH.
Qed.

Lemma ipv4_host x : ipv4_wf x -> ipv4_to_string x <> "" /\ str_all host_char (ipv4_to_string x) = true.
Proof.
  destruct x as [a b c d]. unfold ipv4_wf. intros (Ha & Hb & Hc & Hd). unfold ipv4_to_string. split.
  - unfold str_join. cbn [String.concat]. intros E. apply (f_equal String.length) in E.
    rewrite string_app_length in E. simpl in E.
    pose proof (print_digits_nonempty 10 3 a "") as Hne. unfold print_number in E.
    destruct (print_digits 3 10 a ""); [done|simpl in E; lia].
  - rewrite !str_join_cons2. unfold str_join. cbn [String.concat].
    rewrite !str_all_app, !str_all_cons, !str_all_app, !str_all_cons, !str_all_app, !str_all_cons.
    unfold print_number.
    assert (forall n, n < 256 -> str_all host_char (print_digits 3 10 n "") = true) as Hp
      by (intros n Hn; rewrite print_digits_host; [done|lia|simpl; lia]).
    rewrite !Hp by done. done.
Qed.

(** What an IPv6 address is printed with. *)
Definition ipv6_char (a : ascii) : bool := host_char a || Ascii.eqb a ":".

Lemma host_char_ipv6 s : str_all host_char s = true -> str_all ipv6_char s = true.
Proof. apply str_all_impl. intros a Ha. unfold ipv6_char. by rewrite Ha. Qed.

Lemma print_group_chars s tail : s < 65536 -> str_all ipv6_char tail = true ->
  str_all ipv6_char (print_number 16 s +:+ tail) = true.
Proof.
  intros Hs Ht. rewrite str_all_app, Ht, andb_true_r. apply host_char_ipv6. unfold print_number.
  by rewrite print_digits_host.
Qed.

Lemma more_groups_chars segs tail : Forall (fun s => s < 65536) segs -> str_all ipv6_char tail = true ->
  str_all ipv6_char (more_groups segs tail) = true.
Proof.
  intros Hsegs Htail. induction Hsegs; [done|]. rewrite more_groups_cons, str_all_cons.
  by apply print_group_chars.
Qed.

Lemma groups_chars segs tail : Forall (fun s => s < 65536) segs -> str_all ipv6_char tail = true ->
  str_all ipv6_char (groups segs tail) = true.
Proof.
  intros [|s segs' Hs Hsegs] Htail; [done|]. simpl.
  apply print_group_chars; [done|]. by apply more_groups_chars.
Qed.

Lemma ipv6_chars x : ipv6_wf x -> str_all ipv6_char (ipv6_to_string x) = true.
Proof.
  intros Hwf. unfold ipv6_to_string. destruct (to_ipv4_mapped x) as [v4|] eqn:Hm.
  - destruct (mapped_segments _ _ Hwf Hm) as [Hv4 _]. rewrite str_all_app.
    apply andb_true_iff. split; [done|]. by apply host_char_ipv6, ipv4_host.
  - destruct (zero_span _ _ _ _) as [start len]. destruct (1 <? len)%nat.
    + rewrite print_segments_groups, <- (string_app_empty_r (print_segments (drop _ _))), print_segments_groups.
      apply groups_chars; [by apply Forall_take|].
      change ("::" +:+ groups ?p ?t) with (String ":" (String ":" (groups p t))).
      rewrite !str_all_cons. simpl. by apply groups_chars; [apply Forall_drop|].
    + rewrite <- (string_app_empty_r (print_segments _)), print_segments_groups. by apply groups_chars.
Qed.

(** Without a colon there is no IPv6 address. *)
Lemma read_separator_no_colon {A} (p : parser A) s :
  contains_char ":" s = false -> read_given_char ":" s = None /\ read_separator ":" false p s = None.
Proof.
  intros Hs. assert (read_given_char ":" s = None) as Hg.
  { unfold read_given_char. destruct s as [|a s]; [done|]. rewrite contains_char_cons in Hs.
    apply orb_false_iff in Hs as [Ha _]. rewrite Ascii.eqb_sym in Ha. by rewrite Ha. }
  split; [done|]. unfold read_separator. by rewrite Hg.
Qed.

Lemma read_number_rest c radix max zeros limit s n rest :
  contains_char c s = false -> read_number radix max zeros limit s = Some (n, rest) ->
  contains_char c rest = false.
Proof.
  intros Hs. unfold read_number.
  destruct (read_digits radix max 0 0 s) as [[[m k] rest']|] eqn:E; [|done].
  apply read_digits_rest with (c := c) in E; [|done]. destruct (k =? 0)%nat; [done|].
  destruct (negb zeros && _ && _); [done|]. destruct (m <? limit); [|done]. by intros [= _ <-].
Qed.

Lemma read_groups_no_colon left s :
  contains_char ":" s = false -> read_groups left false s = ([], false, s).
Proof.
  intros Hs. destruct left as [|left]; [done|]. cbn [read_groups].
  rewrite !(proj2 (read_separator_no_colon _ s Hs)). by destruct (2 <=? S left)%nat.
Qed.

Lemma parse_ipv6_no_colon s : contains_char ":" s = false -> parse_ipv6 s = None.
Proof.
  intros Hs. unfold parse_ipv6, read_ipv6_addr.
  assert (read_groups 8 true s = match read_ipv4_addr s with
    | Some (ipv4 a b c d, rest) => ([a * 256 + b; c * 256 + d], true, rest)
    | None => match read_number 16 4 true 65536 s with
              | Some (g, rest) => let '(gs, v4, rest') := read_groups 7 false rest in (g :: gs, v4, rest')
              | None => ([], false, s)
              end
    end) as -> by done.
  destruct (read_ipv4_addr s) as [[[a b c d] rest]|]; [done|].
  destruct (read_number 16 4 true 65536 s) as [[g rest]|] eqn:E.
  - apply (read_number_rest ":"%char) in E; [|done]. rewrite read_groups_no_colon by done. simpl.
    by rewrite (proj1 (read_separator_no_colon read_octet _ E)).
  - simpl. by rewrite (proj1 (read_separator_no_colon read_octet _ Hs)).
Qed.

Section endpoints.
Context {H : HttpAuthority} {HL : HttpAuthorityLaws H}.
Implicit Types (ip : IpAddr) (p : N).

Lemma port_chars p : p < 65536 -> str_all host_char (port_to_string p) = true.
Proof. intros Hp. unfold port_to_string. rewrite print_digits_host; [done|lia|simpl; lia]. Qed.

Lemma no_at_sign f s : str_all f s = true -> f "@"%char = false -> contains_char "@" s = false.
Proof. apply str_all_contains. Qed.

Lemma authority_parse_port value d h p h' :
  contains_char "@" value = false -> from_str value = Some (h, Some p) -> p <> 0 ->
  default h (h ← strip_prefix "[" h; strip_suffix_char "]" h) = h' ->
  h' <> "" -> authority_parse value d = Ok {| host := h'; port := p |}.
Proof.
  intros Hat Hs Hp Hh Hne. unfold authority_parse. rewrite Hat, Hs.
  cbn [ok_or mbind result_bind option_bind]. rewrite (proj2 (N.eqb_neq p 0) Hp). cbn [ok_or result_bind].
  rewrite Hh. by rewrite bool_decide_false.
Qed.

(** A default port matters only where none is written. *)
Lemma authority_parse_default value d a :
  authority_parse value None = Ok a -> authority_parse value d = Ok a.
Proof.
  unfold authority_parse. destruct (contains_char "@" value); [done|].
  destruct (from_str value) as [[h [p|]]|]; done.
Qed.

(** A host name and a port are taken as they are. *)
Lemma from_host_port_name h p :
  h <> "" -> str_all host_char h = true -> 0 < p < 65536 ->
  from_host_port h p = Ok {| host := h; port := p |}.
Proof.
  intros Hne Hh Hp. unfold from_host_port. rewrite bool_decide_false by done.
  rewrite (proj2 (N.eqb_neq p 0)) by lia. cbn [orb].
  rewrite parse_ipv6_no_colon by (by apply (str_all_contains host_char)). rewrite bool_decide_false by (by intros []).
  assert (strip_prefix "[" h = None) as Hb.
  { destruct (strip_prefix "[" h) as [r|] eqn:E; [|done]. apply strip_prefix_Some in E as ->.
    by rewrite str_all_app in Hh. }
  apply (authority_parse_port _ _ h); [eapply (no_at_sign ipv6_char); [|done]
    |apply from_str_name; done || lia|lia|by rewrite Hb|done].
  rewrite !str_all_app, (host_char_ipv6 _ Hh), (host_char_ipv6 _ (port_chars p ltac:(lia))). done.
Qed.

Lemma parse_ipv6_text x : ipv6_wf x -> parse_ipv6 (ipv6_to_string x) = Some x.
Proof. intros Hx. unfold parse_ipv6. by rewrite ipv6_roundtrip. Qed.

Lemma from_host_port_ipv6 x p : ipv6_wf x -> 0 < p < 65536 ->
  from_host_port (ipv6_to_string x) p = Ok {| host := ipv6_to_string x; port := p |}.
Proof.
  intros Hx Hp. assert (ipv6_to_string x <> "") as Hne.
  { intros E. pose proof (parse_ipv6_text x Hx) as Hr. by rewrite E in Hr. }
  unfold from_host_port. rewrite bool_decide_false by done. rewrite (proj2 (N.eqb_neq p 0)) by lia.
  cbn [orb]. rewrite parse_ipv6_text by done. rewrite bool_decide_true by eauto.
  assert (strip_prefix "[" ("[" +:+ ipv6_to_string x +:+ "]") = Some (ipv6_to_string x +:+ "]")) as Hb
    by (by apply strip_prefix_Some).
  apply (authority_parse_port _ _ ("[" +:+ ipv6_to_string x +:+ "]"));
    [eapply (no_at_sign (fun a => ipv6_char a || Ascii.eqb a "[" || Ascii.eqb a "]")); [|done]
    |apply from_str_ipv6; done || lia|lia
    |rewrite Hb; cbn [mbind option_bind]; by rewrite strip_suffix_char_app|done].
  rewrite !str_all_app. repeat (apply andb_true_iff; split; try done);
    eapply str_all_impl; [|by apply ipv6_chars| |by apply host_char_ipv6, port_chars; lia];
    intros a ->; done.
Qed.

(** A literal address keeps its spelling and leads back to the address itself,
    without a resolver. *)
Lemma from_host_port_literal ip p : ip_wf ip -> 0 < p < 65536 ->
  exists a, from_host_port (ip_to_string ip) p = Ok a /\ a = {| host := ip_to_string ip; port := p |} /\
    literal_address a = Some (socket_addr ip p).
Proof.
  intros Hip Hp. eexists. split; [|split; [done|]].
  - destruct ip as [x|x]; simpl in *; [|by apply from_host_port_ipv6].
    destruct (ipv4_host x Hip). by apply from_host_port_name.
  - unfold literal_address. simpl. by rewrite ip_text_roundtrip.
Qed.

End endpoints.

(** ** Endpoints *)

Lemma same_endpoint_iff a b :
  same_endpoint a b = true <-> canonical_host (host a) = canonical_host (host b) /\ port a = port b.
Proof. unfold same_endpoint. by rewrite andb_true_iff, bool_decide_eq_true, N.eqb_eq. Qed.

(** Comparing endpoints is an equivalence. *)
#[global] Instance same_endpoint_equivalence : Equivalence (fun a b => same_endpoint a b = true).
Proof.
  split.
  - intros a. by apply same_endpoint_iff.
  - intros a b. rewrite !same_endpoint_iff. naive_solver.
  - intros a b c. rewrite !same_endpoint_iff. intros [-> ->]. done.
Qed.

(** Between literal addresses the same endpoint means the same socket address,
    however they are spelt. *)
Theorem same_endpoint_literal (a b : Authority) (x y : SocketAddr) :
  literal_address a = Some x -> literal_address b = Some y -> (same_endpoint a b = true <-> x = y).
Proof.
  unfold literal_address. intros (i & Hi & ->)%fmap_Some (j & Hj & ->)%fmap_Some.
  rewrite same_endpoint_iff. unfold canonical_host. rewrite Hi, Hj. split.
  - intros [Hs ->]. by rewrite (ip_to_string_inj i j) by (done || by eapply parse_ip_wf).
  - intros E. split; [|by rewrite <- (socket_addr_port i (port a)), E, socket_addr_port].
    f_equal. by rewrite <- (socket_addr_ip i (port a)), E, socket_addr_ip.
Qed.

(** ** An authority parser *)

(** A parser of the two forms the laws describe. *)
Definition parse_port_suffix (s : string) : option (option N) :=
  match s with
  | EmptyString => Some None
  | String ":" p => if valid_port p then Some (parse_u16 p) else None
  | _ => None
  end.

Definition plain_authority : HttpAuthority := {|
  from_str s :=
    match s with
    | String "[" rest =>
        match split_once "]" rest with
        | Some (h, suffix) => p ← parse_port_suffix suffix; Some ("[" +:+ h +:+ "]", p)
        | None => None
        end
    | _ =>
        match split_once ":" s with
        | Some (h, p) =>
            if str_all host_char h && valid_port p then Some (h, parse_u16 p) else None
        | None => if str_all host_char s then Some (s, None) else None
        end
    end
|}.

Lemma parse_port_digits fuel n tail acc :
  n < 10 ^ N.of_nat (S fuel) ->
  foldl (fun acc a => acc * 10 + (byte_val a - 48))%N acc (list_ascii_of_string (print_digits fuel 10 n tail))
  = foldl (fun acc a => acc * 10 + (byte_val a - 48))%N (acc * 10 ^ N.of_nat (digit_count 10 fuel n) + n)
      (list_ascii_of_string tail).
Proof.
  assert (forall m, m < 10 -> byte_val (hex_digit m) - 48 = m) as Hd.
  { intros m Hm. destruct m as [|m]; [done|]. do 4 try (destruct m as [m|m|]; try lia; try reflexivity). }
  revert n tail. induction fuel as [|fuel IH]; intros n tail Hn; cbn [print_digits digit_count].
  - change (N.of_nat 1) with 1 in *. rewrite N.pow_1_r in *. cbn [list_ascii_of_string foldl].
    by rewrite Hd.
  - destruct (N.ltb_spec n 10).
    + change (N.of_nat 1) with 1. rewrite N.pow_1_r. cbn [list_ascii_of_string foldl]. by rewrite Hd.
    + rewrite IH; [|apply N.Div0.div_lt_upper_bound; by rewrite Nat2N.inj_succ, N.pow_succ_r' in Hn].
      cbn [list_ascii_of_string foldl]. rewrite Hd by (apply N.mod_lt; lia). f_equal.
      rewrite Nat2N.inj_succ, N.pow_succ_r'. pose proof (N.Div0.div_mod n 10) as Hdm.
      generalize (10 ^ N.of_nat (digit_count 10 fuel (n / 10))). lia.
Qed.

Lemma print_digits_decimal fuel n tail : n < 10 ^ N.of_nat (S fuel) ->
  str_all is_ascii_digit (print_digits fuel 10 n tail) = str_all is_ascii_digit tail.
Proof.
  assert (forall m, m < 10 -> is_ascii_digit (hex_digit m) = true) as Hd.
  { intros m Hm. destruct m as [|m]; [done|]. do 4 try (destruct m as [m|m|]; try lia; try reflexivity). }
  revert n tail. induction fuel as [|fuel IH]; intros n tail Hn; cbn [print_digits].
  - change (N.of_nat 1) with 1 in Hn. rewrite N.pow_1_r in Hn. by rewrite str_all_cons, Hd.
  - destruct (N.ltb_spec n 10); [by rewrite str_all_cons, Hd|].
    rewrite IH; [by rewrite str_all_cons, Hd by (apply N.mod_lt; lia)|].
    apply N.Div0.div_lt_upper_bound. by rewrite Nat2N.inj_succ, N.pow_succ_r' in Hn.
Qed.

Lemma port_roundtrip p : p < 65536 -> parse_u16 (port_to_string p) = Some p.
Proof.
  intros Hp. unfold parse_u16, port_to_string. rewrite parse_port_digits by (simpl; lia).
  cbn [list_ascii_of_string foldl]. rewrite N.mul_0_l, N.add_0_l. by rewrite (proj2 (N.ltb_lt p 65536)).
Qed.

Lemma port_valid p : p < 65536 -> valid_port (port_to_string p) = true.
Proof.
  intros Hp. unfold valid_port. rewrite port_roundtrip by done.
  rewrite bool_decide_false by apply print_digits_nonempty. rewrite bool_decide_true by eauto.
  unfold port_to_string. by rewrite print_digits_decimal by (simpl; lia).
Qed.

Lemma plain_authority_laws : HttpAuthorityLaws plain_authority.
Proof.
  split.
  - intros h p Hne Hh Hp.
    assert (split_once ":" (h +:+ ":" +:+ port_to_string p) = Some (h, port_to_string p)) as Hs
      by (apply split_once_char; by apply (str_all_contains host_char)).
    assert (from_str (HttpAuthority := plain_authority) (h +:+ ":" +:+ port_to_string p) =
      if str_all host_char h && valid_port (port_to_string p)
      then Some (h, parse_u16 (port_to_string p)) else None) as ->.
    { destruct h as [|a h]; [done|]. change (String a h +:+ ?t) with (String a (h +:+ t)) in *.
      destruct a as [[] [] [] [] [] [] [] []]; try done; cbn [from_str plain_authority]; by rewrite Hs. }
    by rewrite Hh, port_valid, port_roundtrip.
  - intros h Hne Hh. assert (split_once ":" h = None) as Hs.
    { apply split_once_none. by apply (str_all_contains host_char). }
    destruct h as [|a h]; [done|].
    destruct a as [[] [] [] [] [] [] [] []]; try done; cbn [from_str plain_authority]; by rewrite Hs, Hh.
  - intros x p Hx Hp. change ("[" +:+ ?t) with (String "[" t). cbn [from_str plain_authority].
    change ("]:" +:+ port_to_string p) with (String "]" (String ":" (port_to_string p))).
    rewrite split_once_char by (apply (str_all_contains ipv6_char); [by apply ipv6_chars|done]).
    cbn [parse_port_suffix]. rewrite port_valid, port_roundtrip by done. done.
Qed.

Lemma same_endpoint_literal_witness :
  same_endpoint {| host := "0:0::1"; port := 80 |} {| host := "::1"; port := 80 |} = true.
Proof.
  apply (same_endpoint_literal _ _ (SocketV6 (ipv6 0 0 0 0 0 0 0 1) 80 0 0)
           (SocketV6 (ipv6 0 0 0 0 0 0 0 1) 80 0 0)); reflexivity.
Defined.

Example authority_examples :
  authority_parse (H := plain_authority) "example.com" (Some 80) = Ok {| host := "example.com"; port := 80 |} /\
  authority_parse (H := plain_authority) "[::1]:8080" None = Ok {| host := "::1"; port := 8080 |} /\
  authority_parse (H := plain_authority) "user@example.com:80" None = Err (InvalidAuthority "user@example.com:80") /\
  authority_parse (H := plain_authority) "example.com:0" None = Err (InvalidAuthority "example.com:0") /\
  canonical_host "Example.COM." = "example.com".
Proof. vm_compute. tauto. Qed.
