(* ===== verification/Ingress.v ===== *)
(** The streams a gateway serves, and [authentication.rs]: the frame that opens
    an ingress connection.

    A stream is a script of what the peer does: the bytes that arrive in time,
    what a read finds behind them, and what happens to each write.  A task runs
    over a stream to a value, to a gateway error, to a wait that does not end
    before the enclosing deadline, or to a panic. *)

From Stdlib Require Import Ascii String NArith Lia.
From stdpp Require Import base list strings option numbers.
From S2P Require Import Prelude Text GatewayError.

(** * Streams and tasks *)

Inductive stream_end := Eof | Fault (source : cause) | Stall.

(** A write that is not taken in full takes its first bytes. *)
Inductive write_event :=
  | Accept
  | WriteFault (taken : nat) (source : cause)
  | WriteStall (taken : nat).

Record Stream := {
  input : string;
  input_end : stream_end;
  output : string;
  writes : list write_event
}.

Inductive outcome (A : Type) : Type :=
  | Ready (a : A)
  | Failed (e : GatewayError)
  | Stalled
  | Panicked.
Arguments Ready {A} a.
Arguments Failed {A} e.
Arguments Stalled {A}.
Arguments Panicked {A}.

Definition task (A : Type) : Type := Stream -> outcome A * Stream.

#[global] Instance task_ret : MRet task := fun _ a s => (Ready a, s).
#[global] Instance task_bind : MBind task := fun A B f m s =>
  match m s with
  | (Ready a, s') => f a s'
  | (Failed e, s') => (Failed e, s')
  | (Stalled, s') => (Stalled, s')
  | (Panicked, s') => (Panicked, s')
  end.

Definition fail {A} (e : GatewayError) : task A := fun s => (Failed e, s).

(** [?] on a result computed without the stream *)
Definition lift {A} (r : result GatewayError A) : task A :=
  match r with Ok a => mret a | Err e => fail e end.

(** [.map_err(f)] *)
Definition map_failed {A} (f : GatewayError -> GatewayError) (m : task A) : task A := fun s =>
  match m s with (Failed e, s') => (Failed (f e), s') | r => r end.

(** [timeout(..).await.map_err(|_| e)?]: the deadline ends a wait. *)
Definition with_timeout {A} (e : GatewayError) (m : task A) : task A := fun s =>
  match m s with (Stalled, s') => (Failed e, s') | r => r end.

Definition EARLY_EOF : cause := "early eof".

(** [read_exact]; a failed read leaves nothing to be read. *)
Definition read_exact (n : nat) : task string := fun s =>
  if (n <=? String.length (input s))%nat
  then (Ready (str_take n (input s)),
        {| input := str_drop n (input s); input_end := input_end s; output := output s; writes := writes s |})
  else
    let s' := {| input := ""; input_end := input_end s; output := output s; writes := writes s |} in
    match input_end s with
    | Eof => (Failed (GwIo EARLY_EOF), s')
    | Fault source => (Failed (GwIo source), s')
    | Stall => (Stalled, s')
    end.

(** [write_all], and [flush] as a write of nothing *)
Definition write_all (bytes : string) : task unit := fun s =>
  let wrote n := {| input := input s; input_end := input_end s;
                    output := output s +:+ str_take n bytes; writes := tail (writes s) |} in
  match writes s with
  | [] | Accept :: _ => (Ready (), wrote (String.length bytes))
  | WriteFault n source :: _ => (Failed (GwIo source), wrote n)
  | WriteStall n :: _ => (Stalled, wrote n)
  end.

Definition flush : task unit := write_all "".

(** [stream.fill_buf()]: some bytes are there, or the stream has ended. *)
Definition peek : task (option ascii) := fun s =>
  match input s with
  | String a _ => (Ready (Some a), s)
  | EmptyString =>
      match input_end s with
      | Eof => (Ready None, s)
      | Fault source => (Failed (GwIo source), s)
      | Stall => (Stalled, s)
      end
  end.

(** * [authentication.rs] *)

Definition MAGIC : string := "CGNP" +:+ String (ascii_of_N 1) "".
Definition KEY_BYTES : nat := 32.

(** The 32 bytes of the key *)
Record GatewayIngressKey := { key_bytes : string }.

(** [getrandom::fill] is the parameter [fill]. *)
Definition generate (fill : result cause string) : result GatewayError GatewayIngressKey :=
  key ← map_err AuthenticationKeyGeneration fill;
  Ok {| key_bytes := key |}.

Definition authenticate (k : GatewayIngressKey) : task unit :=
  _ ← write_all MAGIC;
  _ ← write_all (key_bytes k);
  flush.

Definition constant_time_equal (left right : string) : bool :=
  (foldl (fun difference '(l, r) => N.lor difference (N.lxor (byte_val l) (byte_val r))) 0
     (zip (list_ascii_of_string left) (list_ascii_of_string right)) =? 0)%N.

Definition verify (k : GatewayIngressKey) : task unit :=
  magic ← map_failed (fun _ => AuthenticationFailed) (read_exact (String.length MAGIC));
  supplied ← map_failed (fun _ => AuthenticationFailed) (read_exact KEY_BYTES);
  if bool_decide (magic = MAGIC) && constant_time_equal (key_bytes k) supplied
  then mret () else fail AuthenticationFailed.

(** * Lemmas *)

Lemma task_bind_Ready {A B} (m : task A) (f : A -> task B) s b s' :
  (m ≫= f) s = (Ready b, s') <-> exists a s1, m s = (Ready a, s1) /\ f a s1 = (Ready b, s').
Proof.
  unfold mbind, task_bind. destruct (m s) as [[a|e| |] s1] eqn:E; split; try naive_solver.
Qed.

Lemma with_timeout_Ready {A} e (m : task A) s a s' :
  with_timeout e m s = (Ready a, s') <-> m s = (Ready a, s').
Proof. unfold with_timeout. destruct (m s) as [[] ?]; naive_solver. Qed.

Lemma map_failed_Ready {A} f (m : task A) s a s' :
  map_failed f m s = (Ready a, s') <-> m s = (Ready a, s').
Proof. unfold map_failed. destruct (m s) as [[] ?]; naive_solver. Qed.

(** A read that succeeds takes the next bytes. *)
Lemma read_exact_Ready n s x s' :
  read_exact n s = (Ready x, s') <->
  String.length x = n /\ input s = x +:+ input s' /\ input_end s' = input_end s /\
  output s' = output s /\ writes s' = writes s.
Proof.
  unfold read_exact. destruct (Nat.leb_spec n (String.length (input s))) as [Hle|Hlt].
  - split.
    + intros [= <- <-]. simpl. split_and!; try done; [by apply str_take_length|by rewrite str_take_drop].
    + intros (<- & Hi & He & Ho & Hw). destruct s as [i e o w], s' as [i' e' o' w']. simpl in *. subst.
      by rewrite str_take_app, str_drop_app.
  - split; [by destruct (input_end s)|]. intros (<- & Hi & _). rewrite Hi, string_app_length in Hlt. lia.
Qed.

Lemma lxor_fold_zero (d : N) l :
  foldl (fun d '(x, y) => N.lor d (N.lxor (byte_val x) (byte_val y))) d l = 0%N <->
  d = 0%N /\ Forall (fun '(x, y) => x = y) l.
Proof.
  revert d. induction l as [|[x y] l IH]; intros d; simpl; [naive_solver|].
  rewrite IH, N.lor_eq_0_iff, N.lxor_eq_0_iff, Forall_cons_iff.
  split; [|naive_solver]. intros [[-> E] Hl]. split_and!; try done.
  apply (f_equal ascii_of_N) in E. unfold byte_val in E. by rewrite !ascii_N_embedding in E.
Qed.

Lemma zip_same {A} (l k : list A) :
  length l = length k -> Forall (fun '(x, y) => x = y) (zip l k) <-> l = k.
Proof.
  revert k. induction l as [|x l IH]; intros [|y k]; try done. intros [= E].
  simpl. rewrite Forall_cons_iff, IH by done. naive_solver.
Qed.

Lemma length_list_ascii s : length (list_ascii_of_string s) = String.length s.
Proof. induction s; simpl; by f_equal. Qed.

(** The comparison that looks at every byte decides equality. *)
Lemma constant_time_equal_spec left right :
  String.length left = String.length right -> constant_time_equal left right = true <-> left = right.
Proof.
  intros Hlen. unfold constant_time_equal. rewrite N.eqb_eq, lxor_fold_zero, zip_same by (by rewrite !length_list_ascii).
  split; [|by intros ->]. intros [_ E].
  by rewrite <- (string_of_list_ascii_of_string left), E, string_of_list_ascii_of_string.
Qed.

(** ** Authentication *)

(** A frame is accepted exactly when it is the magic and this gateway's key;
    nothing behind it is consumed and nothing is written. *)
Lemma verify_Ready k s s' :
  String.length (key_bytes k) = KEY_BYTES ->
  verify k s = (Ready (), s') <->
  input s = MAGIC +:+ key_bytes k +:+ input s' /\ input_end s' = input_end s /\
  output s' = output s /\ writes s' = writes s.
Proof.
  intros Hk. unfold verify. rewrite task_bind_Ready. split.
  - intros (magic & s1 & H1 & H). apply map_failed_Ready, read_exact_Ready in H1 as (_ & Hi1 & He1 & Ho1 & Hw1).
    apply task_bind_Ready in H as (key & s2 & H2 & H).
    apply map_failed_Ready, read_exact_Ready in H2 as (Hl & Hi2 & He2 & Ho2 & Hw2).
    destruct (bool_decide _ && _) eqn:E; [|done]. injection H as <-. bool_inv. subst magic.
    apply constant_time_equal_spec in H0 as <-; [|congruence]. rewrite Hi1, Hi2. split_and!; congruence.
  - intros (Hi & He & Ho & Hw).
    exists MAGIC, {| input := key_bytes k +:+ input s'; input_end := input_end s; output := output s; writes := writes s |}.
    split; [by apply map_failed_Ready, read_exact_Ready|].
    apply task_bind_Ready. exists (key_bytes k), s'.
    split; [by apply map_failed_Ready, read_exact_Ready|].
    rewrite bool_decide_true by done. by rewrite (proj2 (constant_time_equal_spec _ _ eq_refl) eq_refl).
Qed.

(** Whatever else arrives is refused, or has not arrived yet. *)
Lemma verify_refuses k s :
  (exists s', verify k s = (Ready (), s')) \/ (exists s', verify k s = (Failed AuthenticationFailed, s')) \/
  (exists s', verify k s = (Stalled, s') /\ input_end s = Stall /\
     (String.length (input s) < String.length MAGIC + KEY_BYTES)%nat).
Proof.
  unfold verify, mbind, task_bind, map_failed.
  destruct (read_exact (String.length MAGIC) s) as [[magic|e| |] s1] eqn:H1; [|eauto|..].
  - apply read_exact_Ready in H1 as (Hl & Hi & He & _).
    destruct (read_exact KEY_BYTES s1) as [[key|e| |] s2] eqn:H2; [|eauto|..].
    + destruct (_ && _); unfold mret, task_ret, fail; eauto.
    + right; right. exists s2. split; [done|]. unfold read_exact in H2.
      destruct (Nat.leb_spec KEY_BYTES (String.length (input s1))); [done|].
      rewrite He in H2. destruct (input_end s); try done. split; [done|].
      rewrite Hi, string_app_length. lia.
    + unfold read_exact in H2. destruct (_ <=? _)%nat; [done|]. by destruct (input_end s1).
  - right; right. exists s1. split; [done|]. unfold read_exact in H1.
    destruct (Nat.leb_spec (String.length MAGIC) (String.length (input s))); [done|].
    destruct (input_end s); try done. split; [done|]. lia.
  - unfold read_exact in H1. destruct (_ <=? _)%nat; [done|]. by destruct (input_end s).
Qed.

Definition empty_stream : Stream := {| input := ""; input_end := Eof; output := ""; writes := [] |}.

Lemma authenticate_writes k : output (authenticate k empty_stream).2 = MAGIC +:+ key_bytes k.
Proof.
  assert (str_take (String.length (key_bytes k)) (key_bytes k) = key_bytes k) as Hk
    by (rewrite <- (string_app_empty_r (key_bytes k)) at 2; apply str_take_app).
  unfold authenticate, flush, write_all, mbind, task_bind. simpl output. rewrite Hk.
  change (str_take (String.length MAGIC) MAGIC) with MAGIC. change ("" +:+ MAGIC) with MAGIC.
  by rewrite string_app_empty_r.
Qed.

(** The frame one key writes opens the gateway of that key and of no other:
    a gateway with the same key accepts it and reads on behind it, a gateway
    with another key refuses it; and whatever a gateway accepts starts with the
    frame of its own key. *)
Theorem ingress_authentication_exact (k k' : GatewayIngressKey) (s : Stream) (rest : string) :
  String.length (key_bytes k) = KEY_BYTES -> String.length (key_bytes k') = KEY_BYTES ->
  let frame k := output (authenticate k empty_stream).2 in
  (input s = frame k +:+ rest ->
   (key_bytes k = key_bytes k' ->
      exists s', verify k' s = (Ready (), s') /\ input s' = rest /\ output s' = output s) /\
   (key_bytes k <> key_bytes k' -> exists s', verify k' s = (Failed AuthenticationFailed, s'))) /\
  (forall s', verify k' s = (Ready (), s') -> input s = frame k' +:+ input s').
Proof.
  intros Hk Hk' frame. unfold frame. rewrite !authenticate_writes. split; [intros Hi; split|].
  - intros E. rewrite E in Hi.
    exists {| input := rest; input_end := input_end s; output := output s; writes := writes s |}.
    split; [|done]. apply verify_Ready; [done|]. by rewrite string_app_assoc.
  - intros Hne. destruct (verify_refuses k' s) as [[s' H]|[H|(s' & _ & _ & Hlt)]]; [|done|].
    + apply verify_Ready in H as [Hi' _]; [|done]. rewrite Hi, <- string_app_assoc in Hi'. exfalso. apply Hne.
      apply (f_equal (str_drop (String.length MAGIC))) in Hi'. rewrite !str_drop_app in Hi'.
      apply (f_equal (str_take KEY_BYTES)) in Hi'. rewrite <- Hk in Hi' at 1. rewrite <- Hk' in Hi'.
      by rewrite !str_take_app in Hi'.
    + rewrite Hi, !string_app_length, Hk in Hlt. lia.
  - intros s' [Hi _]%verify_Ready; [|done]. by rewrite <- string_app_assoc.
Qed.

Definition example_key : GatewayIngressKey := {| key_bytes := "0123456789abcdef0123456789abcdef" |}.
Definition other_key : GatewayIngressKey := {| key_bytes := "1123456789abcdef0123456789abcdef" |}.

Lemma ingress_authentication_exact_witness :
  exists s', verify other_key {| input := MAGIC +:+ key_bytes example_key; input_end := Eof; output := ""; writes := [] |}
             = (Failed AuthenticationFailed, s').
Proof.
  destruct (ingress_authentication_exact example_key other_key
              {| input := MAGIC +:+ key_bytes example_key; input_end := Eof; output := ""; writes := [] |} ""
              eq_refl eq_refl) as [H _].
  apply H; [reflexivity|discriminate].
Defined.
