(* ===== verification/Connect.v ===== *)
(** [cageforge-network-proxy]: the outbound path of [connect.rs] (resolve once,
    authorize each candidate, dial the exact address) with the resolver
    boundary of [resolver.rs].

    Time is in nanoseconds.  The outside world is an argument: when the dialling
    starts, how long each dial takes and how it ends, and how long the code
    between two dials takes. *)

From Stdlib Require Import Ascii String NArith Lia.
From stdpp Require Import base numbers option strings list.
From S2P Require Import Prelude Text IpAddr Access PathPattern Domain NetPolicy Environment Compose Effective Requirements.
From S2P Require Import GatewayConfig GatewayError Authority Ingress.

#[local] Open Scope N_scope.

(** A future: what it yields, and when ([None]: never) *)
Record Future (A : Type) := { latency : option N; value : A }.
Arguments latency {A} _.
Arguments value {A} _.

(** [tokio::time::timeout]: a value that is ready at the deadline still counts. *)
Definition timeout {A} (limit : N) (f : Future A) : option A :=
  match latency f with
  | Some t => if t <=? limit then Some (value f) else None
  | None => None
  end.

(** The time spent waiting under a timeout *)
Definition waited {A} (limit : N) (f : Future A) : N :=
  match latency f with Some t => N.min t limit | None => limit end.

(** The implementations of the trait [NetworkResolver] *)
Definition Resolver : Type := string -> N -> Future (result cause (list SocketAddr)).

(** [SystemResolver::resolve] over the [hickory] lookup *)
Definition system_resolve (lookup_ip : string -> Future (result cause (list IpAddr))) : Resolver :=
  fun host port =>
    {| latency := latency (lookup_ip host);
       value := match value (lookup_ip host) with
                | Ok addresses => Ok ((fun address => socket_addr address port) <$> addresses)
                | Err source => Err source
                end |}.

Record World := {
  connect_start : N;
  dial : nat -> SocketAddr -> Future (result cause unit);
  pause : nat -> N
}.

(** An [Instant] counts seconds in 64 signed bits; adding past it panics. *)
Definition INSTANT_END : N := 2 ^ 63 * SECOND.

Section connect.
Context {U : Unicode} {G : Globset}.

Record GatewayInner := {
  gw_policy : EffectiveNetworkPolicy;
  gw_resolver : Resolver;
  gw_config : GatewayConfig;
  gw_ingress_key : GatewayIngressKey
}.

Definition resolve (gw : GatewayInner) (authority : Authority) : result GatewayError (list SocketAddr) :=
  addresses ←
    match literal_address authority with
    | Some literal => Ok [literal]
    | None =>
        match timeout (dns_timeout (gw_config gw)) (gw_resolver gw (host authority) (port authority)) with
        | None => Err (DnsTimedOut (host authority))
        | Some answer => map_err (DnsFailed (host authority)) answer
        end
    end;
  _ ← match find (fun address => negb (socket_port address =? port authority)) addresses with
      | Some address => Err (ResolvedPortMismatch (host authority) (port authority) address)
      | None => Ok ()
      end;
  let limit := max_resolved_addresses (gw_config gw) in
  reject limit <? N.of_nat (length addresses) with DnsAddressLimitExceeded (host authority) limit ;;
  reject bool_decide (addresses = []) with EmptyDnsResult (host authority) ;;
  Ok addresses.

(** The share of the remaining time one candidate gets *)
Definition candidate_timeout (remaining : N) (candidates_left : nat) : N :=
  remaining / N.min (N.of_nat candidates_left) (2 ^ 32 - 1).

(** The loop of [connect_authorized] over the candidates that are left, with
    the addresses it dialled.  [outer] is the instant at which the timeout
    around the whole function drops it. *)
Fixpoint connect_loop (gw : GatewayInner) (w : World) (authority : Authority)
    (target : ResolvedNetworkTarget) (outer deadline now : N) (last_failure : option cause)
    (timed_out : bool) (index : nat) (candidates : list SocketAddr) :
  result GatewayError SocketAddr * list SocketAddr :=
  let timed_out_error := ConnectTimedOut (host authority) (port authority) in
  let finish timed_out :=
    (Err (if timed_out : bool then timed_out_error
          else ConnectFailed (host authority) (port authority) (default "no address connected" last_failure)), []) in
  match candidates with
  | [] => finish timed_out
  | candidate :: candidates' =>
      match map_err GwPolicyEvaluation (effective_authorize_connection (gw_policy gw) target candidate) with
      | Err e => (Err e, [])
      | Ok CDenied => (Err (PolicyDenied (host authority) (port authority)), [])
      | Ok CExternallyEnforced => (Err (GwExternallyEnforced (host authority) (port authority)), [])
      | Ok (Allowed exact) =>
          let now := now + pause w index in
          let remaining := deadline - now in
          if remaining =? 0 then finish true
          else
            let limit := candidate_timeout remaining (S (length candidates')) in
            let attempt := dial w index exact in
            let now := now + waited limit attempt in
            if outer <? now then (Err timed_out_error, [exact])
            else
              match timeout limit attempt with
              | Some (Ok _) => (Ok exact, [exact])
              | Some (Err source) =>
                  let '(r, dialled) := connect_loop gw w authority target outer deadline now (Some source)
                                         timed_out (S index) candidates' in
                  (r, exact :: dialled)
              | None =>
                  let '(r, dialled) := connect_loop gw w authority target outer deadline now last_failure
                                         true (S index) candidates' in
                  (r, exact :: dialled)
              end
      end
  end.

(** [None] is the panic of [Instant::now() + connect_timeout]. *)
Definition connect_authorized (gw : GatewayInner) (w : World) (authority : Authority)
    (target : ResolvedNetworkTarget) (outer : N) : option (result GatewayError SocketAddr * list SocketAddr) :=
  let deadline := connect_start w + connect_timeout (gw_config gw) in
  if INSTANT_END <=? deadline then None
  else Some (connect_loop gw w authority target outer deadline (connect_start w) None false 0
               (rt_addresses target)).

(** The first half of [connect]: the host is allowed before it is resolved. *)
Definition resolve_target (gw : GatewayInner) (authority : Authority) :
  result GatewayError ResolvedNetworkTarget :=
  decision ← map_err GwPolicyEvaluation (effective_decision_for_domain (gw_policy gw) (host authority));
  _ ← match decision with
      | NetAllow => Ok ()
      | NetDeny => Err (PolicyDenied (host authority) (port authority))
      | NetExternallyEnforced => Err (GwExternallyEnforced (host authority) (port authority))
      end;
  addresses ← resolve gw authority;
  target ← map_err InvalidResolvedTarget (ResolvedNetworkTarget_new (host authority) addresses);
  reject bool_decide (rt_addresses target = []) with EmptyDnsResult (host authority) ;;
  Ok target.

(** The address of the stream and the addresses that were dialled *)
Definition connect (gw : GatewayInner) (w : World) (authority : Authority) :
  outcome SocketAddr * list SocketAddr :=
  match resolve_target gw authority with
  | Err e => (Failed e, [])
  | Ok target =>
      match connect_authorized gw w authority target (connect_start w + connect_timeout (gw_config gw)) with
      | None => (Panicked, [])
      | Some (Ok address, dialled) => (Ready address, dialled)
      | Some (Err e, dialled) => (Failed e, dialled)
      end
  end.

End connect.

(** * Lemmas *)

Section lemmas.
Context {U : Unicode} {G : Globset}.
Implicit Types (gw : GatewayInner) (w : World) (a : Authority) (t : ResolvedNetworkTarget).

(** Every address dialled was authorized for the target, and a stream is one to
    the last address dialled. *)
Definition dials_authorized gw t (candidates : list SocketAddr) (r : result GatewayError SocketAddr)
    (dialled : list SocketAddr) : Prop :=
  Forall (fun x => exists c, c ∈ candidates /\ effective_authorize_connection (gw_policy gw) t c = Ok (Allowed x)) dialled /\
  (length dialled <= length candidates)%nat /\
  (forall x, r = Ok x -> exists l, dialled = l ++ [x]).

Lemma dials_none gw t candidates e : dials_authorized gw t candidates (Err e) [].
Proof. split_and!; [done|simpl; lia|done]. Qed.

Lemma dials_cons gw t c candidates x r dialled :
  effective_authorize_connection (gw_policy gw) t c = Ok (Allowed x) ->
  dials_authorized gw t candidates r dialled -> dials_authorized gw t (c :: candidates) r (x :: dialled).
Proof.
  intros Hc (Hf & Hl & Hr). split_and!; [|simpl; lia|].
  - constructor; [exists c; split; [by left|done]|]. eapply Forall_impl; [done|]. simpl.
    intros y (c' & Hin & Hy). exists c'. split; [by right|done].
  - intros y Hy. destruct (Hr y Hy) as [l ->]. by exists (x :: l).
Qed.

Lemma connect_loop_authorized gw w a t outer deadline candidates : forall now failure timed_out index,
  let '(r, dialled) := connect_loop gw w a t outer deadline now failure timed_out index candidates in
  dials_authorized gw t candidates r dialled.
Proof.
  induction candidates as [|c candidates IH]; intros now failure timed_out index; cbn [connect_loop];
    [apply dials_none|].
  destruct (effective_authorize_connection (gw_policy gw) t c) as [[x| |]|e] eqn:Ha; cbn [map_err];
    try apply dials_none.
  destruct (_ =? 0); [apply dials_none|]. destruct (outer <? _); [apply dials_cons; [done|apply dials_none]|].
  destruct (timeout _ _) as [[]|].
  - split_and!; [|simpl; lia|by intros ? [= ->]; exists []].
    constructor; [|done]. exists c. split; [by left|done].
  - match goal with |- context [connect_loop _ _ _ _ _ _ ?n ?f ?b ?i _] => specialize (IH n f b i) end.
    destruct (connect_loop _ _ _ _ _ _ _ _ _ _ _) as [r dialled]. by eapply dials_cons.
  - match goal with |- context [connect_loop _ _ _ _ _ _ ?n ?f ?b ?i _] => specialize (IH n f b i) end.
    destruct (connect_loop _ _ _ _ _ _ _ _ _ _ _) as [r dialled]. by eapply dials_cons.
Qed.

Lemma find_none_forall {A} (f : A -> bool) l : find f l = None -> Forall (fun x => f x = false) l.
Proof. induction l as [|x l IH]; simpl; [done|]. destruct (f x) eqn:E; [done|]. constructor; auto. Qed.

(** A resolution that succeeds has the requested port throughout and is within
    the configured bound. *)
Lemma resolve_Ok gw a addresses : resolve gw a = Ok addresses ->
  addresses <> [] /\ N.of_nat (length addresses) <= max_resolved_addresses (gw_config gw) /\
  Forall (fun x => socket_port x = port a) addresses.
Proof.
  unfold resolve. intros H. apply bind_Ok in H as (l & _ & H). apply bind_Ok in H as ([] & Hf & H). res_inv.
  destruct (find _ _) eqn:E; [done|]. apply find_none_forall in E. bool_inv. apply N.ltb_ge in G0.
  split_and!; [done|done|]. eapply Forall_impl; [done|]. simpl. intros x Hx.
  bool_inv. by apply N.eqb_eq.
Qed.

Lemma resolve_target_Ok gw a t : resolve_target gw a = Ok t ->
  effective_decision_for_domain (gw_policy gw) (host a) = Ok NetAllow /\
  normalize_domain (host a) = Ok (rt_domain t) /\ rt_addresses t <> [] /\
  N.of_nat (length (rt_addresses t)) <= max_resolved_addresses (gw_config gw) /\
  Forall (fun x => socket_port x = port a) (rt_addresses t).
Proof.
  unfold resolve_target. intros H. apply bind_Ok in H as (d & Hd & H). apply map_err_Ok in Hd.
  apply bind_Ok in H as ([] & Hd' & H). destruct d; [|done..].
  apply bind_Ok in H as (addresses & Hr & H). apply bind_Ok in H as (t' & Ht & H).
  apply map_err_Ok in Ht. res_inv. bool_inv. apply resolve_Ok in Hr as (_ & Hlen & Hports).
  destruct (resolved_target_new _ _ _ Ht) as (Hdom & Hnd & Hin & _).
  split_and!; try done.
  - assert (length (rt_addresses t) <= length addresses)%nat; [|lia].
    apply submseteq_length, NoDup_submseteq; [done|]. intros x Hx. by apply Hin.
  - apply Forall_forall. intros x Hx%Hin. by eapply Forall_forall in Hports.
Qed.

(** Either nothing was dialled and there is no stream, or the dialled addresses
    were authorized for the resolved target. *)
Lemma connect_cases gw w a o dialled : connect gw w a = (o, dialled) ->
  (dialled = [] /\ (forall x, o <> Ready x)) \/
  exists t r, resolve_target gw a = Ok t /\ dials_authorized gw t (rt_addresses t) r dialled /\
    o = match r with Ok x => Ready x | Err e => Failed e end.
Proof.
  unfold connect. destruct (resolve_target gw a) as [t|e]; [|by intros [= <- <-]; left].
  unfold connect_authorized. destruct (INSTANT_END <=? _); [by intros [= <- <-]; left|].
  pose proof (connect_loop_authorized gw w a t (connect_start w + connect_timeout (gw_config gw))
                (connect_start w + connect_timeout (gw_config gw)) (rt_addresses t)
                (connect_start w) None false 0) as H.
  destruct (connect_loop _ _ _ _ _ _ _ _ _ _ _) as [[x|e] d]; intros [= <- <-]; right; eauto.
Qed.

End lemmas.

(** * The outbound path *)

Section outbound.
Context {U : Unicode} {G : Globset} {W : WildMatch}.

(** What makes a dialled address safe for a composition: it has the requested
    port, and both network policies allow the requested host and the address
    (a public one, or one an exact allow covers, unless the policy permits local
    access). *)
Definition dial_safe (r : CompositionRequest) (a : Authority) (x : SocketAddr) : Prop :=
  socket_port x = port a /\
  exists h0 h, normalize_domain (host a) = Ok h0 /\ normalize_domain h0 = Ok h /\
    forall side, side = requested_net r \/ side = ceiling_net r ->
      decision_for_domain side h = Ok NetAllow /\
      (forall literal, parse_ip_literal h = Some literal -> socket_ip x = literal) /\
      (local_network_access side = LocalDeny ->
       is_non_public_ip (socket_ip x) = false \/
       has_exact_allow side h = true /\
         (parse_ip_literal h = Some (socket_ip x) \/
          h = "localhost" /\ ip_is_loopback (socket_ip x) = true)).

(** A gateway that runs the network policy of a composition. *)
Definition gateway_of (r : CompositionRequest) (gw : GatewayInner) : Prop :=
  exists next e n, compose next r = Ok (e, n) /\ gw_policy gw = es_network e /\
    net_built (requested_net r) /\ net_built (ceiling_net r).

Lemma connect_dials_safe r gw w a o dialled :
  gateway_of r gw -> connect gw w a = (o, dialled) ->
  N.of_nat (length dialled) <= max_resolved_addresses (gw_config gw) /\
  (forall x, o = Ready x -> exists l, dialled = l ++ [x]) /\
  (forall x, x ∈ dialled -> dial_safe r a x).
Proof.
  intros (next & e & n & Hc & Hgw & Hbr & Hbo) Hcon.
  destruct (connect_cases _ _ _ _ _ Hcon) as [[-> Ho]|(t & res & Ht & (Hauth & Hlen & Hlast) & ->)].
  { split_and!; [apply N.le_0_l|intros x ->; by destruct (Ho x)|intros x Hx; by apply not_elem_of_nil in Hx]. }
  apply resolve_target_Ok in Ht as (_ & Hdom & _ & Hmax & Hports). split_and!.
  - lia.
  - intros x Hx. apply Hlast. destruct res; [by injection Hx as ->|done].
  - intros x Hx. rewrite Forall_forall in Hauth. destruct (Hauth x Hx) as (c & Hin & Hx').
    rewrite Hgw in Hx'. destruct (composed_connection_safe _ _ _ _ _ _ _ Hc Hbr Hbo Hx') as (-> & _ & h & Hh & Hs).
    split; [by rewrite Forall_forall in Hports; apply Hports|].
    exists (rt_domain t), h. split_and!; [done|done|]. intros side Hside.
    destruct (Hs side Hside) as [Hd [Hlit Hsafe]]. done.
Qed.

(** Nothing is dialled that both inputs of the composition do not allow: every
    address a connection attempt dials has the requested port, is allowed by
    both network policies for the requested host and is safe for both (public,
    or covered by an exact allow, unless the policy permits local access).  The
    number of dials is bounded, and a stream is always to the last address
    dialled. *)
Theorem gateway_connect_safe (r : CompositionRequest) (gw : GatewayInner) (w : World) (a : Authority)
    (o : outcome SocketAddr) (dialled : list SocketAddr) :
  gateway_of r gw -> connect gw w a = (o, dialled) ->
  N.of_nat (length dialled) <= max_resolved_addresses (gw_config gw) /\
  (forall x, o = Ready x -> exists l, dialled = l ++ [x]) /\
  (forall x, x ∈ dialled -> dial_safe r a x).
Proof. apply connect_dials_safe. Qed.

Lemma connect_refused (gw : GatewayInner) (w : World) (a : Authority) :
  effective_decision_for_domain (gw_policy gw) (host a) <> Ok NetAllow ->
  connect gw w a =
    (match effective_decision_for_domain (gw_policy gw) (host a) with
     | Ok NetExternallyEnforced => Failed (GwExternallyEnforced (host a) (port a))
     | Ok _ => Failed (PolicyDenied (host a) (port a))
     | Err source => Failed (GwPolicyEvaluation source)
     end, []).
Proof.
  intros Hd. unfold connect, resolve_target.
  by destruct (effective_decision_for_domain (gw_policy gw) (host a)) as [[]|].
Qed.

(** A host the effective policy does not allow fails before anything leaves the
    gateway: no name is resolved (the outcome is the same under every resolver)
    and no address is dialled; the error says whether it was denied or
    delegated. *)
Theorem connect_refused_host (gw gw' : GatewayInner) (w w' : World) (a : Authority) :
  gw_policy gw' = gw_policy gw ->
  effective_decision_for_domain (gw_policy gw) (host a) <> Ok NetAllow ->
  connect gw' w' a = connect gw w a /\
  (connect gw w a).2 = [] /\
  (connect gw w a).1 =
    match effective_decision_for_domain (gw_policy gw) (host a) with
    | Ok NetExternallyEnforced => Failed (GwExternallyEnforced (host a) (port a))
    | Ok _ => Failed (PolicyDenied (host a) (port a))
    | Err source => Failed (GwPolicyEvaluation source)
    end.
Proof.
  intros Hp Hd. rewrite !connect_refused by (by rewrite ?Hp). by rewrite Hp.
Qed.

(** All addresses of a target are authorized, or none is. *)
Lemma authorize_uniform (n : NetworkPolicy) t c c' x :
  c ∈ rt_addresses t -> c' ∈ rt_addresses t ->
  authorize_connection n t c = Ok (Allowed x) -> authorize_connection n t c' = Ok (Allowed c').
Proof.
  intros Hc Hc'. unfold authorize_connection, decision_for_connected_address, contains_address.
  destruct (decision_for_resolved_target n t) as [[]|]; try done. simpl.
  by rewrite !bool_decide_true.
Qed.

Lemma effective_authorize_uniform (p : EffectiveNetworkPolicy) t c c' x :
  c ∈ rt_addresses t -> c' ∈ rt_addresses t ->
  effective_authorize_connection p t c = Ok (Allowed x) ->
  effective_authorize_connection p t c' = Ok (Allowed c').
Proof.
  intros Hc Hc' H. unfold effective_authorize_connection in *.
  apply both_sides_Ok in H as (l & k & Hl & Hk & Hd). symmetry in Hd.
  apply combine_connection_allowed in Hd as [-> [y ->]]. unfold both_sides.
  rewrite (authorize_uniform _ _ _ _ _ Hc Hc' Hl), (authorize_uniform _ _ _ _ _ Hc Hc' Hk). simpl.
  by destruct c'.
Qed.

(** A dial that ends in a stream, and one that does so within [limit] *)
Definition accepts_within (limit : N) (f : Future (result cause unit)) : Prop :=
  exists l, latency f = Some l /\ l <= limit /\ value f = Ok ().

Definition accepts (f : Future (result cause unit)) : Prop := exists limit, accepts_within limit f.

Lemma timeout_accepts limit f : timeout limit f = Some (Ok ()) -> accepts f.
Proof.
  unfold timeout. destruct (latency f) as [l|] eqn:Hl; [|done].
  destruct (N.leb_spec l limit); [|done]. intros [= Hv]. by exists limit, l.
Qed.

Lemma accepts_within_timeout s limit f : s <= limit -> accepts_within s f -> timeout limit f = Some (Ok ()).
Proof.
  intros Hs (l & Hl & Hls & Hv). unfold timeout. rewrite Hl, Hv, (proj2 (N.leb_le l limit)) by lia. done.
Qed.

Lemma share_left (r m s : N) : 0 < m -> m * s <= r -> s <= r / m /\ (m - 1) * s <= r - r / m.
Proof.
  intros Hm Hr. assert (s <= r / m) as Hs by (apply N.div_le_lower_bound; lia). split; [done|].
  pose proof (N.Div0.mul_div_le r m). nia.
Qed.

(** The loop gives every candidate at least the share [s] it started with, so
    it stops at the first one that accepts, and that is not behind one which
    accepts within [s]. *)
Lemma connect_loop_reaches (gw : GatewayInner) (w : World) a t deadline s x candidates :
  (forall c, c ∈ candidates -> effective_authorize_connection (gw_policy gw) t c = Ok (Allowed c)) ->
  (forall j, pause w j = 0) -> 0 < s -> N.of_nat (length candidates) < 2 ^ 32 ->
  forall now failure timed_out index i l,
  now <= deadline -> N.of_nat (length candidates) * s <= deadline - now ->
  candidates !! i = Some x -> latency (dial w (index + i) x) = Some l -> l <= s ->
  value (dial w (index + i) x) = Ok () ->
  exists j y, (j <= i)%nat /\ candidates !! j = Some y /\ accepts (dial w (index + j) y) /\
    (forall k z, (k < j)%nat -> candidates !! k = Some z -> ~ accepts_within s (dial w (index + k) z)) /\
    connect_loop gw w a t deadline deadline now failure timed_out index candidates =
      (Ok y, take (S j) candidates).
Proof.
  intros Hauth Hpause Hs. induction candidates as [|c candidates IH];
    intros Hlen now failure timed_out index i l Hnow Hshare Hi Hl Hls Hv; [done|].
  cbn [connect_loop]. rewrite Hauth by (by left). cbn [map_err]. rewrite Hpause, N.add_0_r.
  cbn [length] in Hlen, Hshare. set (remaining := deadline - now) in *.
  rewrite (proj2 (N.eqb_neq remaining 0)) by lia.
  assert (candidate_timeout remaining (S (length candidates)) = remaining / N.of_nat (S (length candidates))) as Hct
    by (unfold candidate_timeout; rewrite N.min_l by lia; done).
  destruct (share_left remaining (N.of_nat (S (length candidates))) s) as [Hsl Hleft]; [lia|done|].
  rewrite <- Hct in Hsl, Hleft. set (limit := candidate_timeout remaining (S (length candidates))) in *.
  assert (limit <= remaining) as Hlim
    by (rewrite Hct; apply N.Div0.div_le_upper_bound; nia).
  assert (waited limit (dial w index c) <= limit) as Hw
    by (unfold waited; destruct (latency (dial w index c)); [apply N.le_min_r|done]).
  rewrite (proj2 (N.ltb_ge deadline _)) by lia.
  destruct (timeout limit (dial w index c)) as [[[]|source]|] eqn:Ht.
  { exists O, c. rewrite Nat.add_0_r. split_and!; [lia|done|by eapply timeout_accepts|lia|done]. }
  all: assert (~ accepts_within s (dial w index c)) as Hfirst
         by (intros H; rewrite (accepts_within_timeout s limit _ Hsl H) in Ht; discriminate).
  all: destruct i as [|i]; [destruct Hfirst; injection Hi as ->; rewrite Nat.add_0_r in Hl, Hv; by exists l|].
  all: rewrite Nat.add_succ_r, <- Nat.add_succ_l in Hl, Hv.
  all: match goal with |- context [connect_loop _ _ _ _ _ _ ?n ?f ?b _ _] =>
         destruct (IH (fun c' Hc' => Hauth c' (list_elem_of_further _ _ _ Hc')) ltac:(lia) n f b (S index) i l)
           as (j & y & Hj & Hy & Hacc & Hbefore & ->); [lia|lia|done..|] end.
  all: exists (S j), y; split_and!; [lia|done|by rewrite Nat.add_succ_r, <- Nat.add_succ_l| |done].
  all: intros [|k] z Hk Hz; [by injection Hz as <-; rewrite Nat.add_0_r|].
  all: rewrite Nat.add_succ_r, <- Nat.add_succ_l; apply Hbefore; [lia|done].
Qed.

(** C29. An authorized target whose address [x], the [i]-th of [n], accepts within
    its share is connected to, however the others behave: the stream is to [x]
    or to an earlier address of the target that accepts too, the addresses
    dialled are exactly those up to it, and no address before it accepts within
    its share [connect_timeout / n]; so a candidate is reached even if every
    earlier one hangs.  This is for a run in which the gateway's own code takes
    no time between the attempts ([pause] is zero), with a timeout of at least
    [n] nanoseconds, fewer than 2^32 addresses and a deadline that the clock can
    represent. *)
Theorem connect_reaches (gw : GatewayInner) (w : World) (a : Authority) (t : ResolvedNetworkTarget)
    (i : nat) (x c : SocketAddr) (l : N) :
  let n := N.of_nat (length (rt_addresses t)) in
  let limit := connect_timeout (gw_config gw) in
  resolve_target gw a = Ok t ->
  c ∈ rt_addresses t -> effective_authorize_connection (gw_policy gw) t c = Ok (Allowed c) ->
  n <= limit -> n < 2 ^ 32 -> connect_start w + limit < INSTANT_END -> (forall j, pause w j = 0) ->
  rt_addresses t !! i = Some x -> latency (dial w i x) = Some l -> l <= limit / n ->
  value (dial w i x) = Ok () ->
  exists j y, (j <= i)%nat /\ rt_addresses t !! j = Some y /\ accepts (dial w j y) /\
    (forall k z, (k < j)%nat -> rt_addresses t !! k = Some z -> ~ accepts_within (limit / n) (dial w k z)) /\
    connect gw w a = (Ready y, take (S j) (rt_addresses t)).
Proof.
  intros n limit Ht Hc Hauth Hn Hmax Hpanic Hpause Hx Hl Hlim Hv. unfold connect. rewrite Ht.
  unfold connect_authorized. fold limit. rewrite (proj2 (N.leb_gt INSTANT_END _)) by done.
  assert (0 < n) as Hpos by (apply lookup_lt_Some in Hx; lia).
  destruct (connect_loop_reaches gw w a t (connect_start w + limit) (limit / n) x (rt_addresses t))
    with (now := connect_start w) (failure := @None cause) (timed_out := false) (index := O) (i := i) (l := l)
    as (j & y & Hj & Hy & Hacc & Hbefore & ->); try done; [..|by exists j, y].
  - intros c' Hc'. by apply (effective_authorize_uniform _ t c c' c).
  - apply N.div_str_pos. lia.
  - lia.
  - fold n. pose proof (N.Div0.mul_div_le limit n). lia.
Qed.

(** [Duration::MAX] *)
Definition DURATION_MAX : N := (2 ^ 64 - 1) * SECOND + 999999999.

(** The configuration accepts every positive timeout, but a long one makes the
    deadline overflow: with [Duration::MAX] each connection to an allowed
    target panics instead of waiting. *)
Theorem connect_timeout_can_panic (gw : GatewayInner) (w : World) (a : Authority) (t : ResolvedNetworkTarget) :
  resolve_target gw a = Ok t ->
  exists c, with_connect_timeout (gw_config gw) DURATION_MAX = Ok c /\
    connect {| gw_policy := gw_policy gw; gw_resolver := gw_resolver gw; gw_config := c;
               gw_ingress_key := gw_ingress_key gw |} w a = (Panicked, []).
Proof.
  intros Ht. eexists. split; [reflexivity|]. unfold connect.
  match goal with |- context [resolve_target ?g a] =>
    change (resolve_target g a) with (resolve_target gw a) end.
  rewrite Ht. unfold connect_authorized. cbn [gw_config connect_timeout set_config].
  rewrite (proj2 (N.leb_le INSTANT_END _)); [done|].
  assert (INSTANT_END <= DURATION_MAX) by (by vm_compute). lia.
Qed.

End outbound.

(** * Examples *)

Section examples.
#[local] Existing Instance literal_globset.
#[local] Existing Instance ascii_unicode.
#[local] Existing Instance literal_wildmatch.

(** A gateway for the policy that allows one host, whose resolver answers at
    once and whose first address hangs. *)
Definition other_address : SocketAddr := SocketV4 (ipv4 93 184 216 35) 443.

Definition example_gateway : GatewayInner :=
  {| gw_policy := es_network network_sandbox;
     gw_resolver := fun _ _ => {| latency := Some 1; value := Ok [other_address; example_address] |};
     gw_config := gateway_config_new; gw_ingress_key := example_key |}.

Definition example_world : World :=
  {| connect_start := 0; pause := fun _ => 0;
     dial := fun _ address => if bool_decide (address = example_address)
                              then {| latency := Some 5; value := Ok () |}
                              else {| latency := None; value := Ok () |} |}.

Definition example_authority : Authority := {| host := "example.com"; port := 443 |}.

Lemma example_connects :
  connect example_gateway example_world example_authority = (Ready example_address, [other_address; example_address]).
Proof. reflexivity. Qed.

Definition pair_target : ResolvedNetworkTarget :=
  {| rt_domain := "example.com"; rt_addresses := [other_address; example_address] |}.

Lemma example_resolves : resolve_target example_gateway example_authority = Ok pair_target.
Proof. reflexivity. Qed.

Lemma example_gateway_of : gateway_of network_request example_gateway.
Proof.
  exists 0, network_sandbox, 1. split_and!;
    [exact network_composed|reflexivity|exact example_policy_built|exact nb_unrestricted].
Qed.

Lemma gateway_connect_safe_witness :
  is_non_public_ip (socket_ip other_address) = false \/ has_exact_allow example_policy "example.com" = true.
Proof.
  destruct (gateway_connect_safe network_request example_gateway example_world
              example_authority (Ready example_address) [other_address; example_address]
              example_gateway_of example_connects) as (_ & _ & H).
  destruct (H other_address (list_elem_of_here _ _)) as (_ & h0 & h & H0 & H1 & Hs).
  assert (h0 = "example.com") as -> by (by injection H0).
  assert (h = "example.com") as -> by (by injection H1).
  destruct (Hs example_policy (or_introl eq_refl)) as (_ & _ & Hsafe).
  destruct (Hsafe eq_refl) as [Hp|[He _]]; [by left|by right].
Defined.

Lemma connect_refused_host_witness :
  (connect example_gateway example_world {| host := "example.org"; port := 443 |}).2 = [].
Proof.
  apply (connect_refused_host example_gateway example_gateway example_world example_world); [done|].
  assert (effective_decision_for_domain (gw_policy example_gateway) "example.org" = Ok NetDeny) as E by reflexivity.
  cbn [host]. rewrite E. discriminate.
Defined.

Lemma connect_reaches_witness :
  exists j y, (j <= 1)%nat /\ [other_address; example_address] !! j = Some y /\
    connect example_gateway example_world example_authority = (Ready y, take (S j) [other_address; example_address]).
Proof.
  destruct (connect_reaches example_gateway example_world example_authority pair_target 1 example_address
           other_address 5) as (j & y & Hj & Hy & _ & _ & H); try reflexivity;
    [apply list_elem_of_here|by vm_compute|by vm_compute|].
  exists j, y. split; [exact Hj|]. split; [exact Hy|exact H].
Defined.

Lemma connect_timeout_can_panic_witness :
  exists c, with_connect_timeout gateway_config_new DURATION_MAX = Ok c.
Proof.
  destruct (connect_timeout_can_panic example_gateway example_world example_authority pair_target example_resolves)
    as (c & Hc & _). exists c. exact Hc.
Defined.

End examples.
