(* ===== verification/Relay.v ===== *)
(** [cageforge-network-proxy]: the byte relay of [relay.rs] and the guarded HTTP
    bodies of [body.rs], with the transfer budget both count against.

    The budget is a shared 64-bit counter that several tasks update with a
    compare-and-swap loop, modelled step by step under an arbitrary schedule.
    The relay is a machine that runs over what its two streams do. *)

From Stdlib Require Import Ascii String NArith Lia.
From stdpp Require Import base numbers option strings sorting list.
From S2P Require Import Prelude Text GatewayError Ingress.

#[local] Open Scope N_scope.

Definition U64 : N := 2 ^ 64.

(** [u64::checked_add] *)
Definition checked_add (a b : N) : option N := if a + b <? U64 then Some (a + b) else None.

(** * The transfer budget *)

(** A task in the loop of [add_transferred] and of [TransferBudget::add]: before
    the load, with a value of the counter in hand, or finished. *)
Inductive adder :=
  | Start (amount : N)
  | Trying (amount current : N)
  | Counted (amount : N)
  | Refused (amount : N).

(** One step of one task.  [compare_exchange_weak] may fail although the value
    is the expected one ([spurious]). *)
Definition adder_step (limit : N) (counter : N) (spurious : bool) (t : adder) : N * adder :=
  match t with
  | Start amount => (counter, Trying amount counter)
  | Trying amount current =>
      match checked_add current amount with
      | None => (counter, Refused amount)
      | Some updated =>
          if limit <? updated then (counter, Refused amount)
          else if (counter =? current) && negb spurious then (updated, Counted amount)
          else (counter, Trying amount counter)
      end
  | Counted _ | Refused _ => (counter, t)
  end.

(** Several tasks on one counter, run by a schedule. *)
Record Adders := { counter : N; tasks : list adder }.

Definition adders_step (limit : N) (a : Adders) (turn : nat * bool) : Adders :=
  match tasks a !! turn.1 with
  | None => a
  | Some t =>
      let '(c, t') := adder_step limit (counter a) turn.2 t in
      {| counter := c; tasks := <[turn.1 := t']> (tasks a) |}
  end.

Definition run_adders (limit : N) (a : Adders) (schedule : list (nat * bool)) : Adders :=
  foldl (adders_step limit) a schedule.

(** The same without interference: what a task that is not interrupted does. *)
Definition add_transferred (transferred amount : N) (limit : option N) : result GatewayError N :=
  match limit with
  | None => Ok ((transferred + amount) mod U64)
  | Some limit =>
      match checked_add transferred amount with
      | None => Err (RelayByteLimitExceeded limit)
      | Some updated =>
          if limit <? updated then Err (RelayByteLimitExceeded limit) else Ok updated
      end
  end.

(** [TransferBudget]: without a limit nothing is counted. *)
Record TransferBudget := { transferred : N; budget_limit : option N }.

Definition budget_new (limit : option N) : TransferBudget := {| transferred := 0; budget_limit := limit |}.

Definition budget_add (b : TransferBudget) (amount : N) : result GatewayError TransferBudget :=
  match budget_limit b with
  | None => Ok b
  | Some limit =>
      updated ← add_transferred (transferred b) amount (Some limit);
      Ok {| transferred := updated; budget_limit := budget_limit b |}
  end.

(** ** Lemmas *)

Definition admitted (t : adder) : N := match t with Counted n => n | _ => 0 end.
Definition total_admitted (ts : list adder) : N := foldr (fun t acc => admitted t + acc) 0 ts.

(** What is true of a task at every moment: a value in hand is not ahead of the
    counter, and a refused amount does not fit any more. *)
Definition adder_ok (limit counter : N) (t : adder) : Prop :=
  match t with
  | Start _ => True
  | Trying _ current => current <= counter
  | Counted _ => True
  | Refused amount => limit < counter + amount \/ U64 <= counter + amount
  end.

Lemma adder_ok_mono limit c c' t : c <= c' -> adder_ok limit c t -> adder_ok limit c' t.
Proof. destruct t; simpl; lia. Qed.

Lemma adder_step_spec limit c spurious t :
  adder_ok limit c t ->
  let '(c', t') := adder_step limit c spurious t in
  adder_ok limit c' t' /\ c' + admitted t = c + admitted t' /\ c <= c' /\ (c <= limit -> c' <= limit).
Proof.
  destruct t as [n|n cur|n|n]; simpl; intros Hok; try (split_and!; lia).
  unfold checked_add. destruct (N.ltb_spec (cur + n) U64); [|simpl; split_and!; lia].
  destruct (N.ltb_spec limit (cur + n)); [simpl; split_and!; lia|].
  destruct (N.eqb_spec c cur) as [->|]; [destruct spurious|]; simpl; split_and!; lia.
Qed.

Lemma total_admitted_insert ts i t t' : ts !! i = Some t ->
  total_admitted (<[i := t']> ts) + admitted t = total_admitted ts + admitted t'.
Proof.
  revert i. induction ts as [|u ts IH]; intros [|i] Hi; try done; simpl in *.
  - injection Hi as ->. lia.
  - specialize (IH i Hi). lia.
Qed.

(** The invariant of a counter and its tasks. *)
Definition adders_inv (limit : N) (a : Adders) : Prop :=
  counter a = total_admitted (tasks a) /\ counter a <= limit /\
  Forall (adder_ok limit (counter a)) (tasks a).

Lemma adders_step_inv limit a turn :
  adders_inv limit a -> adders_inv limit (adders_step limit a turn) /\ counter a <= counter (adders_step limit a turn).
Proof.
  intros (Hc & Hl & Hf). unfold adders_step. destruct (tasks a !! turn.1) as [t|] eqn:Ht; [|split; [done|lia]].
  pose proof (Forall_lookup_1 _ _ _ _ Hf Ht) as Hok.
  pose proof (adder_step_spec limit (counter a) turn.2 t Hok) as Hs.
  destruct (adder_step limit (counter a) turn.2 t) as [c' t']. destruct Hs as (Hok' & Hsum & Hmono & Hlim).
  split; [|done]. split_and!; simpl.
  - pose proof (total_admitted_insert (tasks a) turn.1 t t' Ht). lia.
  - auto.
  - apply Forall_insert; [|done]. eapply Forall_impl; [exact Hf|]. intros u. by apply adder_ok_mono.
Qed.

Lemma run_adders_inv limit a schedule :
  adders_inv limit a ->
  adders_inv limit (run_adders limit a schedule) /\ counter a <= counter (run_adders limit a schedule).
Proof.
  revert a. induction schedule as [|turn schedule IH]; intros a Ha; [split; [done|apply N.le_refl]|].
  destruct (adders_step_inv limit a turn Ha) as [Ha' Hmono].
  destruct (IH _ Ha') as [Hinv Hmono']. simpl. split; [done|]. etrans; [exact Hmono|done].
Qed.

Definition amount_of (t : adder) : N :=
  match t with Start n | Trying n _ | Counted n | Refused n => n end.

Lemma adder_step_amount limit c spurious t : amount_of (adder_step limit c spurious t).2 = amount_of t.
Proof.
  destruct t as [n|n cur|n|n]; simpl; try done. destruct (checked_add cur n) as [u|]; [|done].
  destruct (limit <? u); [done|]. by destruct ((c =? cur) && negb spurious).
Qed.

Lemma run_adders_amounts limit a schedule :
  amount_of <$> tasks (run_adders limit a schedule) = amount_of <$> tasks a.
Proof.
  revert a. induction schedule as [|turn schedule IH]; intros a; [done|]. simpl. rewrite IH.
  unfold adders_step. destruct (tasks a !! turn.1) as [t|] eqn:Ht; [|done].
  pose proof (adder_step_amount limit (counter a) turn.2 t) as Hs.
  destruct (adder_step limit (counter a) turn.2 t) as [c' t']. simpl in *.
  rewrite list_fmap_insert, Hs. apply list_insert_id. by rewrite list_lookup_fmap, Ht.
Qed.

Definition adders_start (amounts : list N) : Adders := {| counter := 0; tasks := Start <$> amounts |}.

Lemma adders_start_inv limit amounts : adders_inv limit (adders_start amounts).
Proof.
  split_and!; simpl; [|lia|].
  - by induction amounts.
  - apply Forall_forall. by intros t (n & -> & _)%list_elem_of_fmap.
Qed.

(** C26. The budget is exact under every interleaving: however the tasks that add to
    one counter are scheduled, and however often the weak exchange fails, the
    counter is the sum of the amounts that were admitted, it never passes the
    limit, and an amount that was refused would still pass it. *)
Theorem transfer_budget_exact (limit : N) (amounts : list N) (schedule : list (nat * bool)) :
  limit < U64 ->
  let a := run_adders limit (adders_start amounts) schedule in
  amount_of <$> tasks a = amounts /\
  counter a = total_admitted (tasks a) /\ counter a <= limit /\
  (forall amount, Refused amount ∈ tasks a -> limit < counter a + amount).
Proof.
  intros Hlimit a. destruct (run_adders_inv limit _ schedule (adders_start_inv limit amounts)) as [(Hc & Hl & Hf) _].
  fold a in Hc, Hl, Hf. split_and!; [|done|done|].
  - unfold a. rewrite run_adders_amounts. simpl. rewrite <- list_fmap_compose.
    by apply list_fmap_id.
  - intros amount Hin. rewrite Forall_forall in Hf. destruct (Hf _ Hin); lia.
Qed.

Lemma transfer_budget_exact_witness :
  counter (run_adders 10 (adders_start [7; 5]) [(0%nat, false); (1%nat, false); (1%nat, true); (0%nat, false); (1%nat, false); (1%nat, false)]) <= 10.
Proof.
  apply (transfer_budget_exact 10 [7; 5] [(0%nat, false); (1%nat, false); (1%nat, true); (0%nat, false); (1%nat, false); (1%nat, false)]).
  reflexivity.
Defined.

(** ** Termination *)

Definition unfinished (t : adder) : bool := match t with Start _ | Trying _ _ => true | _ => false end.

(** How far a task is from its end while the counter does not move. *)
Definition distance (c : N) (t : adder) : nat :=
  match t with
  | Start _ => 1
  | Trying _ current => if current =? c then 0 else 1
  | _ => 0
  end.

Definition sum_of (f : adder -> nat) (ts : list adder) : nat := foldr (fun t acc => f t + acc)%nat 0%nat ts.

Definition live (t : adder) : nat := if unfinished t then 1 else 0.

(** Every turn of an unfinished task brings this down: an admission may make the
    value every other task holds stale, but it ends one task. *)
Definition adders_measure (a : Adders) : nat :=
  sum_of live (tasks a) * (length (tasks a) + 2) + sum_of (distance (counter a)) (tasks a).

(** The turns all go to tasks that are not finished, and no exchange fails
    without cause. *)
Fixpoint effective_schedule (limit : N) (a : Adders) (schedule : list (nat * bool)) : bool :=
  match schedule with
  | [] => true
  | (i, spurious) :: schedule' =>
      negb spurious && match tasks a !! i with Some t => unfinished t | None => false end
      && effective_schedule limit (adders_step limit a (i, spurious)) schedule'
  end.

Lemma sum_of_insert f ts i t t' : ts !! i = Some t ->
  (sum_of f (<[i := t']> ts) + f t = sum_of f ts + f t')%nat.
Proof.
  revert i. induction ts as [|u ts IH]; intros [|i] Hi; try done; simpl in *.
  - injection Hi as ->. lia.
  - specialize (IH i Hi). lia.
Qed.

Lemma sum_of_bound f ts : (forall t, f t <= 1)%nat -> (sum_of f ts <= length ts)%nat.
Proof. intros Hf. induction ts as [|t ts IH]; simpl; [lia|]. specialize (Hf t). lia. Qed.

Lemma distance_bound c t : (distance c t <= 1)%nat.
Proof. destruct t; simpl; try lia. destruct (_ =? _); lia. Qed.

Lemma adders_step_measure limit a i t :
  tasks a !! i = Some t -> unfinished t = true ->
  (adders_measure (adders_step limit a (i, false)) < adders_measure a)%nat.
Proof.
  intros Ht Hu. unfold adders_step, adders_measure. cbn [fst snd]. rewrite Ht.
  pose proof (sum_of_insert live (tasks a) i t) as Hlive.
  pose proof (sum_of_insert (distance (counter a)) (tasks a) i t) as Hdist.
  assert (forall c ts, sum_of (distance c) ts <= length ts)%nat as Hb
    by (intros; apply sum_of_bound, distance_bound).
  destruct (adder_step limit (counter a) false t) as [c' t'] eqn:Hs. cbn [counter tasks].
  specialize (Hlive t' Ht). specialize (Hdist t' Ht). rewrite length_insert.
  destruct t as [n|n cur|n|n]; cbn [unfinished] in Hu; try done; cbn [adder_step] in Hs.
  { injection Hs as <- <-. cbn [live unfinished distance] in Hlive, Hdist. rewrite N.eqb_refl in Hdist. nia. }
  assert (unfinished t' = false \/ c' = counter a /\ t' = Trying n (counter a) /\ cur <> counter a) as [Hfin|(-> & -> & Hne)].
  { destruct (checked_add cur n) as [u|]; [|injection Hs as <- <-; by left].
    destruct (limit <? u); [injection Hs as <- <-; by left|].
    destruct (N.eqb_spec (counter a) cur); simpl in Hs; injection Hs as <- <-; [by left|right; auto]. }
  - assert (live t' = 0%nat) as Hl' by (unfold live; by rewrite Hfin).
    specialize (Hb c' (<[i := t']> (tasks a))). rewrite length_insert in Hb.
    rewrite Hl' in Hlive. cbn [live unfinished] in Hlive. nia.
  - cbn [live unfinished distance] in Hlive, Hdist. rewrite N.eqb_refl in Hdist.
    rewrite (proj2 (N.eqb_neq cur (counter a)) Hne) in Hdist. nia.
Qed.

Lemma effective_schedule_bound limit a schedule :
  effective_schedule limit a schedule = true -> (length schedule <= adders_measure a)%nat.
Proof.
  revert a. induction schedule as [|[i spurious] schedule IH]; intros a H; simpl in *; [lia|].
  apply andb_true_iff in H as [H Hrest]. apply andb_true_iff in H as [Hs Hu].
  destruct spurious; [done|]. destruct (tasks a !! i) as [t|] eqn:Ht; [|done].
  pose proof (adders_step_measure limit a i t Ht Hu). specialize (IH _ Hrest). lia.
Qed.

(** The loop is lock free: of [n] tasks that add to one counter, as long as the
    exchange fails only when the counter has moved, no schedule takes more than
    [n * (n + 3)] turns before every task has finished. *)
Theorem transfer_budget_terminates (limit : N) (amounts : list N) (schedule : list (nat * bool)) :
  effective_schedule limit (adders_start amounts) schedule = true ->
  (length schedule <= length amounts * (length amounts + 3))%nat.
Proof.
  intros H%effective_schedule_bound. etrans; [exact H|]. unfold adders_measure. simpl tasks. rewrite length_fmap.
  assert (sum_of live (Start <$> amounts) <= length amounts)%nat as Hl.
  { rewrite <- (length_fmap Start). apply sum_of_bound. intros t. unfold live. destruct (unfinished t); lia. }
  assert (sum_of (distance 0) (Start <$> amounts) <= length amounts)%nat as Hd.
  { rewrite <- (length_fmap Start). apply sum_of_bound, distance_bound. }
  simpl counter. nia.
Qed.

Lemma transfer_budget_terminates_witness :
  (length [(0%nat, false); (1%nat, false); (0%nat, false); (1%nat, false); (1%nat, false)] <= 2 * (2 + 3))%nat.
Proof.
  apply (transfer_budget_terminates 10 [7; 2]
           [(0%nat, false); (1%nat, false); (0%nat, false); (1%nat, false); (1%nat, false)]). reflexivity.
Defined.

(** A task that is not interrupted computes [add_transferred]. *)
Lemma adder_alone limit c amount :
  let '(c', t) := let '(c1, t1) := adder_step limit c false (Start amount) in adder_step limit c1 false t1 in
  match add_transferred c amount (Some limit) with
  | Ok updated => c' = updated /\ t = Counted amount
  | Err _ => c' = c /\ t = Refused amount
  end.
Proof.
  simpl. destruct (checked_add c amount) as [u|]; [|done]. destruct (limit <? u); [done|].
  by rewrite N.eqb_refl.
Qed.

(** * The relay *)

Definition BUFFER_BYTES : nat := 16 * 1024.

(** Where the loop of [copy_direction] waits: for its reader, for its writer to
    take a chunk, for the shutdown of the writer; or it has returned. *)
Inductive phase := Reading | Writing (chunk : string) | ShuttingDown | Finished.

(** One direction, with the bytes its reader gave and the bytes its writer took. *)
Record Direction := { at_phase : phase; received : string; delivered : string }.

(** [copy_bidirectional]: both directions in one task, the shared count of
    bytes, how often [activity] was notified, and the result once there is one. *)
Record Relay := {
  left_to_right : Direction;
  right_to_left : Direction;
  relay_transferred : N;
  notified : nat;
  relay_result : option (result GatewayError unit)
}.

(** What the streams and the timer do; [true] is the direction left to right. *)
Inductive relay_event :=
  | ReadBytes (side : bool) (bytes : string)
  | ReadFailed (side : bool) (source : cause)
  | Written (side : bool)
  | WriteFailed (side : bool) (taken : nat) (source : cause)
  | ShutdownDone (side : bool)
  | ShutdownFailed (side : bool) (source : cause)
  | IdleExpired.

Definition direction (r : Relay) (side : bool) : Direction :=
  if side then left_to_right r else right_to_left r.

Definition set_direction (r : Relay) (side : bool) (d : Direction) : Relay :=
  {| left_to_right := if side then d else left_to_right r;
     right_to_left := if side then right_to_left r else d;
     relay_transferred := relay_transferred r; notified := notified r; relay_result := relay_result r |}.

Definition set_transferred (r : Relay) (n : N) : Relay :=
  {| left_to_right := left_to_right r; right_to_left := right_to_left r;
     relay_transferred := n; notified := notified r; relay_result := relay_result r |}.

Definition notify_one (r : Relay) : Relay :=
  {| left_to_right := left_to_right r; right_to_left := right_to_left r;
     relay_transferred := relay_transferred r; notified := S (notified r); relay_result := relay_result r |}.

Definition set_result (r : Relay) (x : result GatewayError unit) : Relay :=
  {| left_to_right := left_to_right r; right_to_left := right_to_left r;
     relay_transferred := relay_transferred r; notified := notified r; relay_result := Some x |}.

Definition at_phase_of (d : Direction) (p : phase) : Direction :=
  {| at_phase := p; received := received d; delivered := delivered d |}.

(** The reader gave [bytes]. *)
Definition read_into (d : Direction) (bytes : string) (p : phase) : Direction :=
  {| at_phase := p; received := received d +:+ bytes; delivered := delivered d |}.

(** [reader.read] returned [bytes]: the end of the stream starts the shutdown,
    anything else is counted before it is written. *)
Definition on_read (limit : option N) (r : Relay) (side : bool) (bytes : string) : Relay :=
  let d := direction r side in
  if bool_decide (bytes = "") then set_direction r side (at_phase_of d ShuttingDown)
  else
    match add_transferred (relay_transferred r) (N.of_nat (String.length bytes)) limit with
    | Err e => set_result (set_direction r side (read_into d bytes Finished)) (Err e)
    | Ok n => set_transferred (set_direction r side (read_into d bytes (Writing bytes))) n
    end.

(** [write_all] took the first [n] bytes of the chunk. *)
Definition deliver (d : Direction) (n : nat) (chunk : string) (p : phase) : Direction :=
  {| at_phase := p; received := received d; delivered := delivered d +:+ str_take n chunk |}.

(** The task ends when both directions have returned. *)
Definition join (r : Relay) : Relay :=
  match at_phase (left_to_right r), at_phase (right_to_left r) with
  | Finished, Finished => set_result r (Ok ())
  | _, _ => r
  end.

(** One event; [None] when the event cannot happen in this state. *)
Definition relay_step (limit : option N) (r : Relay) (e : relay_event) : option Relay :=
  match relay_result r with
  | Some _ => None
  | None =>
      match e with
      | IdleExpired => Some (set_result r (Err RelayTimedOut))
      | ReadBytes side bytes =>
          match at_phase (direction r side) with
          | Reading => if (String.length bytes <=? BUFFER_BYTES)%nat then Some (on_read limit r side bytes) else None
          | _ => None
          end
      | ReadFailed side source =>
          match at_phase (direction r side) with
          | Reading => Some (set_result r (Err (GwIo source)))
          | _ => None
          end
      | Written side =>
          match at_phase (direction r side) with
          | Writing chunk =>
              Some (notify_one (set_direction r side
                (deliver (direction r side) (String.length chunk) chunk Reading)))
          | _ => None
          end
      | WriteFailed side taken source =>
          match at_phase (direction r side) with
          | Writing chunk =>
              Some (set_result (set_direction r side
                (deliver (direction r side) taken chunk Finished)) (Err (GwIo source)))
          | _ => None
          end
      | ShutdownDone side =>
          match at_phase (direction r side) with
          | ShuttingDown => Some (join (set_direction r side (at_phase_of (direction r side) Finished)))
          | _ => None
          end
      | ShutdownFailed side source =>
          match at_phase (direction r side) with
          | ShuttingDown => Some (set_result r (Err (GwIo source)))
          | _ => None
          end
      end
  end.

Fixpoint relay_run (limit : option N) (r : Relay) (events : list relay_event) : option Relay :=
  match events with
  | [] => Some r
  | e :: events' => r' ← relay_step limit r e; relay_run limit r' events'
  end.

Definition direction_start : Direction := {| at_phase := Reading; received := ""; delivered := "" |}.

Definition relay_start : Relay :=
  {| left_to_right := direction_start; right_to_left := direction_start;
     relay_transferred := 0; notified := 0; relay_result := None |}.

(** [wait_until_idle]: when it returns, given the times of the notifications in
    order; each one restarts the timer. *)
Fixpoint idle_at (idle_timeout start : N) (notifications : list N) : N :=
  match notifications with
  | t :: notifications' =>
      if t <=? start + idle_timeout then idle_at idle_timeout t notifications'
      else start + idle_timeout
  | [] => start + idle_timeout
  end.

(** ** Correctness *)

Definition in_flight (d : Direction) : string := match at_phase d with Writing chunk => chunk | _ => "" end.

Definition size (s : string) : N := N.of_nat (String.length s).

(** While the relay runs: what was read is what was delivered and the chunk
    being written, and under a limit the count is what was read. *)
Definition relay_inv (limit : option N) (r : Relay) : Prop :=
  (forall side, received (direction r side) = delivered (direction r side) +:+ in_flight (direction r side)) /\
  (forall l, limit = Some l ->
     relay_transferred r = size (received (left_to_right r)) + size (received (right_to_left r)) /\
     relay_transferred r <= l).

(** At every moment, the end included. *)
Definition relay_safe (limit : option N) (r : Relay) : Prop :=
  (forall side, exists rest, received (direction r side) = delivered (direction r side) +:+ rest) /\
  (forall l, limit = Some l -> size (delivered (left_to_right r)) + size (delivered (right_to_left r)) <= l) /\
  (relay_result r = Some (Ok ()) -> forall side, received (direction r side) = delivered (direction r side)) /\
  (forall l, relay_result r = Some (Err (RelayByteLimitExceeded l)) -> limit = Some l /\
     (l < U64 -> l < size (received (left_to_right r)) + size (received (right_to_left r)))).

Lemma size_app s t : size (s +:+ t) = size s + size t.
Proof. unfold size. rewrite string_app_length. lia. Qed.

Lemma direction_set r side d side' :
  direction (set_direction r side d) side' = if Bool.eqb side side' then d else direction r side'.
Proof. by destruct side, side'. Qed.

Lemma sizes_set (f : Direction -> string) r side d :
  size (f (left_to_right (set_direction r side d))) + size (f (right_to_left (set_direction r side d)))
  + size (f (direction r side))
  = size (f (left_to_right r)) + size (f (right_to_left r)) + size (f d).
Proof. destruct side; simpl; lia. Qed.

Lemma relay_inv_safe limit r : relay_inv limit r -> relay_result r = None -> relay_safe limit r.
Proof.
  intros [Hd Hl] Hr. split_and!; [eauto| |by rewrite Hr|by rewrite Hr].
  intros l ->. destruct (Hl l eq_refl) as [Ht Hle]. rewrite Ht in Hle.
  pose proof (Hd true) as H1. pose proof (Hd false) as H2. simpl in *.
  rewrite H1, H2, !size_app in Hle. lia.
Qed.

(** Ending with an error other than the byte limit keeps what was true. *)
Lemma relay_safe_fail limit r e :
  relay_inv limit r -> (forall l, e <> RelayByteLimitExceeded l) -> relay_safe limit (set_result r (Err e)).
Proof.
  intros Hi He. pose proof Hi as [Hd Hl]. split_and!; simpl; [| |done|intros l [= ->]; by destruct (He l)].
  - intros side. exists (in_flight (direction r side)). destruct side; [apply (Hd true)|apply (Hd false)].
  - intros l ->. destruct (Hl l eq_refl) as [Ht Hle]. rewrite Ht in Hle.
    pose proof (Hd true) as H1. pose proof (Hd false) as H2. simpl in *.
    rewrite H1, H2, !size_app in Hle. lia.
Qed.

(** Replacing a direction by one that has read the same. *)
Lemma relay_inv_set limit r side d :
  relay_inv limit r -> received d = received (direction r side) ->
  received d = delivered d +:+ in_flight d -> relay_inv limit (set_direction r side d).
Proof.
  intros [Hd Hl] Hr Hflight. split.
  - intros side'. rewrite direction_set. destruct (Bool.eqb side side'); [done|apply Hd].
  - intros l ->. destruct (Hl l eq_refl) as [Ht Hle]. split; [|done].
    pose proof (sizes_set received r side d) as Hs. rewrite <- Hr in Hs.
    change (relay_transferred (set_direction r side d)) with (relay_transferred r). lia.
Qed.

Lemma add_transferred_Ok c n limit c' : add_transferred c n limit = Ok c' ->
  forall l, limit = Some l -> c' = c + n /\ c' <= l.
Proof.
  unfold add_transferred, checked_add. intros H l ->. destruct (c + n <? U64); [|done].
  destruct (N.ltb_spec l (c + n)); [done|]. by injection H as <-.
Qed.

Lemma add_transferred_Err c n limit e : add_transferred c n limit = Err e ->
  exists l, limit = Some l /\ e = RelayByteLimitExceeded l /\ (l < U64 -> l < c + n).
Proof.
  unfold add_transferred, checked_add. intros H. destruct limit as [l|]; [|done]. exists l.
  destruct (N.ltb_spec (c + n) U64); [|injection H as <-; split_and!; try done; lia].
  destruct (N.ltb_spec l (c + n)); [|done]. by injection H as <-.
Qed.

Lemma on_read_inv limit r side bytes :
  relay_inv limit r -> relay_result r = None -> at_phase (direction r side) = Reading ->
  let r' := on_read limit r side bytes in
  relay_inv limit r' /\ relay_result r' = None \/ relay_safe limit r' /\ relay_result r' <> None.
Proof.
  intros Hi Hnone Hphase. pose proof Hi as [Hd Hl]. unfold on_read.
  pose proof (Hd side) as Hds. unfold in_flight in Hds. rewrite Hphase, string_app_empty_r in Hds.
  case_bool_decide as Hb.
  { left. split; [|done]. apply relay_inv_set; [done|done|]. simpl. by rewrite string_app_empty_r. }
  pose proof (fun p => sizes_set received r side (read_into (direction r side) bytes p)) as Hs.
  cbn [received read_into] in Hs. rewrite size_app in Hs.
  destruct (add_transferred _ _ _) as [n|e] eqn:E.
  - left. split; [|done]. split.
    + intros side'. change (direction (set_transferred ?q n) side') with (direction q side').
      rewrite direction_set. destruct (Bool.eqb side side'); [|apply Hd]. simpl. by rewrite Hds.
    + intros l ->. destruct (Hl l eq_refl) as [Ht _]. cbn [relay_transferred set_transferred].
      destruct (add_transferred_Ok _ _ _ _ E l eq_refl) as [-> Hle]. split; [|exact Hle].
      specialize (Hs (Writing bytes)). fold (size bytes). cbn [left_to_right right_to_left set_transferred]. lia.
  - right. split; [|done]. destruct (add_transferred_Err _ _ _ _ E) as (l & -> & -> & Hlim).
    destruct (Hl l eq_refl) as [Ht Hle]. specialize (Hs Finished).
    pose proof (sizes_set delivered r side (read_into (direction r side) bytes Finished)) as Hs'.
    cbn [delivered read_into] in Hs'.
    split_and!; cbn [relay_result set_result]; [| |done|].
    + intros side'. change (direction (set_result ?q ?x) side') with (direction q side').
      rewrite direction_set. destruct (Bool.eqb side side'); [exists bytes; simpl; by rewrite Hds|eauto].
    + intros l' [= <-]. cbn [left_to_right right_to_left set_result].
      pose proof (relay_inv_safe _ _ Hi Hnone) as (_ & Hsafe & _). specialize (Hsafe l eq_refl). lia.
    + intros l' [= <-]. split; [done|]. intros Hu. specialize (Hlim Hu). fold (size bytes) in Hlim.
      cbn [left_to_right right_to_left set_result]. lia.
Qed.

Lemma join_cases r :
  join r = r \/ join r = set_result r (Ok ()) /\ at_phase (left_to_right r) = Finished /\
    at_phase (right_to_left r) = Finished.
Proof.
  unfold join. destruct (at_phase (left_to_right r)) eqn:H1; auto.
  destruct (at_phase (right_to_left r)) eqn:H2; auto.
Qed.

Lemma write_failed_safe limit r side chunk taken source :
  relay_inv limit r -> relay_result r = None -> at_phase (direction r side) = Writing chunk ->
  relay_safe limit (set_result (set_direction r side (deliver (direction r side) taken chunk Finished)) (Err (GwIo source))).
Proof.
  intros Hi Hnone Hp. destruct (relay_inv_safe _ _ Hi Hnone) as (Hpre & Hlim & _).
  destruct Hi as [Hd Hl]. specialize (Hd side) as Hds. unfold in_flight in Hds. rewrite Hp in Hds.
  split_and!; cbn [relay_result set_result]; [| |done|done].
  + intros side'. change (direction (set_result ?q ?x) side') with (direction q side').
    rewrite direction_set. destruct (Bool.eqb side side'); [|eauto].
    exists (str_drop taken chunk). cbn [received delivered deliver].
    by rewrite Hds, <- string_app_assoc, str_take_drop.
  + intros l ->. destruct (Hl l eq_refl) as [Ht Hle].
    pose proof (sizes_set delivered r side (deliver (direction r side) taken chunk Finished)) as Hs.
    cbn [delivered deliver] in Hs. rewrite size_app in Hs.
    pose proof (Hd true) as H1. pose proof (Hd false) as H2. cbn [direction] in H1, H2.
    assert (size (str_take taken chunk) <= size chunk) as Htake
      by (rewrite <- (str_take_drop taken chunk) at 2; rewrite size_app; lia).
    rewrite Ht, H1, H2, !size_app in Hle. cbn [left_to_right right_to_left set_result].
    destruct side; cbn [direction] in *; unfold in_flight in Hle; rewrite Hp in Hle; lia.
Qed.

Lemma relay_step_inv limit r e r' :
  relay_inv limit r -> relay_step limit r e = Some r' ->
  relay_inv limit r' /\ relay_result r' = None \/ relay_safe limit r' /\ relay_result r' <> None.
Proof.
  intros Hi. unfold relay_step. destruct (relay_result r) eqn:Hnone; [done|].
  assert (forall e, (forall l, e <> RelayByteLimitExceeded l) ->
    relay_inv limit (set_result r (Err e)) /\ relay_result (set_result r (Err e)) = None \/
    relay_safe limit (set_result r (Err e)) /\ relay_result (set_result r (Err e)) <> None) as Hfail
    by (intros; right; split; [by apply relay_safe_fail|done]).
  destruct e as [side bytes|side source|side|side taken source|side|side source|];
    try (destruct (at_phase (direction r side)) as [|chunk| |] eqn:Hp; try done).
  - destruct (_ <=? _)%nat; [|done]. intros [= <-]. by apply on_read_inv.
  - intros [= <-]. by apply Hfail.
  - intros [= <-]. left. split; [|done].
    assert (relay_inv limit (set_direction r side (deliver (direction r side) (String.length chunk) chunk Reading)))
      as H; [|exact H].
    apply relay_inv_set; [done|done|]. cbn [received delivered deliver in_flight at_phase].
    destruct Hi as [Hd _]. specialize (Hd side). unfold in_flight in Hd. rewrite Hp in Hd.
    by rewrite str_take_all, string_app_empty_r.
  - intros [= <-]. right. split; [|done]. by apply write_failed_safe.
  - intros [= <-]. set (r1 := set_direction r side (at_phase_of (direction r side) Finished)).
    assert (relay_inv limit r1) as Hi1.
    { apply relay_inv_set; [done|done|]. cbn [received delivered at_phase_of in_flight at_phase].
      destruct Hi as [Hd _]. specialize (Hd side). unfold in_flight in Hd. by rewrite Hp in Hd. }
    destruct (join_cases r1) as [->|(-> & HL & HR)]; [left; done|].
    right. split; [|done]. destruct (relay_inv_safe limit r1 Hi1 Hnone) as (Hpre & Hlim & _).
    split_and!; [exact Hpre|exact Hlim| |done]. intros _ [].
    + destruct Hi1 as [Hd _]. specialize (Hd true). cbn [direction] in *. unfold in_flight in Hd.
      by rewrite HL, string_app_empty_r in Hd.
    + destruct Hi1 as [Hd _]. specialize (Hd false). cbn [direction] in *. unfold in_flight in Hd.
      by rewrite HR, string_app_empty_r in Hd.
  - intros [= <-]. by apply Hfail.
  - intros [= <-]. by apply Hfail.
Qed.

Lemma relay_run_safe limit r events r' :
  relay_inv limit r -> relay_result r = None -> relay_run limit r events = Some r' -> relay_safe limit r'.
Proof.
  revert r. induction events as [|e events IH]; intros r Hi Hn; cbn [relay_run].
  { intros [= <-]. by apply relay_inv_safe. }
  intros (r1 & Hs & Hrun)%bind_Some. destruct (relay_step_inv _ _ _ _ Hi Hs) as [[Hi1 Hn1]|[Hsafe Hn1]]; [eauto|].
  destruct events as [|e' events]; [by injection Hrun as <-|]. cbn [relay_run] in Hrun.
  apply bind_Some in Hrun as (r2 & Hs2 & _). unfold relay_step in Hs2. by destruct (relay_result r1).
Qed.

Lemma relay_start_inv limit : relay_inv limit relay_start.
Proof. split; [by intros []|]. intros l _. split; [done|]. simpl. lia. Qed.

(** C22. Whatever the two streams and the timer do, each side of a relay is given a
    prefix of what the other side sent, in order and unchanged; together no more
    bytes than the limit are delivered, in either direction, at any time; a
    relay that ends well has delivered everything it read; and one that ends
    with the byte limit had been sent more than that. *)
Theorem relay_faithful (limit : option N) (events : list relay_event) (r : Relay) :
  relay_run limit relay_start events = Some r ->
  (forall side, exists rest, received (direction r side) = delivered (direction r side) +:+ rest) /\
  (forall l, limit = Some l -> size (delivered (left_to_right r)) + size (delivered (right_to_left r)) <= l) /\
  (relay_result r = Some (Ok ()) -> forall side, received (direction r side) = delivered (direction r side)) /\
  (forall l, relay_result r = Some (Err (RelayByteLimitExceeded l)) -> limit = Some l /\
     (l < U64 -> l < size (received (left_to_right r)) + size (received (right_to_left r)))).
Proof. apply relay_run_safe; [apply relay_start_inv|done]. Qed.

Lemma relay_faithful_witness :
  exists r, relay_run (Some 4) relay_start [ReadBytes true "abc"; Written true; ReadBytes false "de"] = Some r /\
    relay_result r = Some (Err (RelayByteLimitExceeded 4)) /\ 4 < size (received (left_to_right r)) + size (received (right_to_left r)).
Proof.
  eexists. split; [reflexivity|]. split; [reflexivity|].
  eapply (relay_faithful (Some 4) [ReadBytes true "abc"; Written true; ReadBytes false "de"]); reflexivity.
Defined.

(** The relay is idle exactly one timeout after the last transfer: the timer
    ends [idle_timeout] after the start or after some notification, and no
    notification came in between. *)
Theorem relay_idle_exact (idle_timeout start : N) (notifications : list N) :
  StronglySorted N.le (start :: notifications) ->
  exists t, (t = start \/ t ∈ notifications) /\
    idle_at idle_timeout start notifications = t + idle_timeout /\
    (forall u, u ∈ notifications -> u <= t + idle_timeout -> u <= t).
Proof.
  revert start. induction notifications as [|u us IH]; intros start Hs; cbn [idle_at].
  { exists start. split_and!; [by left|done|]. intros u Hu. by apply not_elem_of_nil in Hu. }
  apply StronglySorted_inv in Hs as [Hs Hle]. pose proof Hs as Hs'.
  apply StronglySorted_inv in Hs' as [_ Hus]. rewrite Forall_forall in Hus.
  destruct (N.leb_spec u (start + idle_timeout)).
  - destruct (IH u Hs) as (t & Ht & -> & Hgap). exists t. split_and!; [|done|].
    + right. destruct Ht as [->|]; [by left|by right].
    + intros v [->|Hv]%elem_of_cons Hvt; [|by apply Hgap].
      destruct Ht as [->|Ht]; [done|]. by apply Hus.
  - exists start. split_and!; [by left|done|]. intros v [->|Hv]%elem_of_cons Hvt; [lia|].
    specialize (Hus v Hv). lia.
Qed.

Lemma relay_idle_exact_witness : exists t, idle_at 10 0 [3; 8; 30] = t + 10 /\ t = 8.
Proof.
  destruct (relay_idle_exact 10 0 [3; 8; 30]) as (t & _ & Ht & _).
  { repeat constructor; lia. }
  exists t. split; [exact Ht|]. change (idle_at 10 0 [3; 8; 30]) with 18 in Ht. lia.
Defined.

(** * Guarded bodies *)

(** What polling the inner body gives: nothing yet, the end, a frame of data, a
    frame of trailers (which carries no bytes), or an error. *)
Inductive polled := PollPending | PollEnd | PollData (data : string) | PollTrailers | PollError (source : cause).

(** What the guarded body gives. *)
Inductive guarded_poll :=
  | GuardPending
  | GuardEnd
  | GuardFrame (data : option string)
  | GuardFailed (e : GatewayError)
  | GuardInner (source : cause).

(** A body under guard: the budget it shares with the other direction and the
    instant its idle timer runs out. *)
Record GuardedBody := { guarded_timeout : N; idle_deadline : N }.

Definition guarded (idle_timeout now : N) : GuardedBody :=
  {| guarded_timeout := idle_timeout; idle_deadline := now + idle_timeout |}.

(** [poll_frame] at the instant [now] *)
Definition poll_frame (g : GuardedBody) (b : TransferBudget) (now : N) (inner : polled) :
  guarded_poll * GuardedBody * TransferBudget :=
  let frame data :=
    match budget_add b (match data with Some d => N.min (size d) (U64 - 1) | None => 0 end) with
    | Err e => (GuardFailed e, g, b)
    | Ok b' => (GuardFrame data, {| guarded_timeout := guarded_timeout g;
                                    idle_deadline := now + guarded_timeout g |}, b')
    end in
  match inner with
  | PollData d => frame (Some d)
  | PollTrailers => frame None
  | PollError source => (GuardInner source, g, b)
  | PollEnd => (GuardEnd, g, b)
  | PollPending => (if idle_deadline g <=? now then GuardFailed RelayTimedOut else GuardPending, g, b)
  end.

(** A request body and a response body that share one budget: polls of either,
    in any order, with the data each gave on. *)
Record Exchange := {
  request_body : GuardedBody; response_body : GuardedBody; budget : TransferBudget;
  forwarded : list string
}.

Definition exchange_step (x : Exchange) (p : bool * N * polled) : Exchange :=
  let '(side, now, inner) := p in
  let '(out, g, b) := poll_frame (if side : bool then request_body x else response_body x) (budget x) now inner in
  {| request_body := if side then g else request_body x;
     response_body := if side then response_body x else g;
     budget := b;
     forwarded := match out with GuardFrame (Some d) => forwarded x ++ [d] | _ => forwarded x end |}.

Definition total_size (l : list string) : N := foldr (fun s acc => size s + acc) 0 l.

Lemma total_size_app l k : total_size (l ++ k) = total_size l + total_size k.
Proof. induction l as [|s l IH]; simpl; [done|]. rewrite IH. lia. Qed.

(** A buffer is shorter than [usize::MAX]. *)
Definition poll_fits (p : bool * N * polled) : Prop := match p.2 with PollData d => size d < U64 | _ => True end.

Definition exchange_ok (l : N) (x : Exchange) : Prop :=
  budget_limit (budget x) = Some l /\ transferred (budget x) = total_size (forwarded x) /\
  transferred (budget x) <= l.

Lemma exchange_step_ok l x p : exchange_ok l x -> poll_fits p -> exchange_ok l (exchange_step x p).
Proof.
  destruct p as [[side now] inner]. unfold poll_fits. cbn [snd]. intros (Hb & Ht & Hl) Hfit. unfold exchange_step.
  assert (forall g, exchange_ok l (let '(out, g, b) := poll_frame g (budget x) now inner in
    {| request_body := if side then g else request_body x; response_body := if side then response_body x else g;
       budget := b; forwarded := match out with GuardFrame (Some d) => forwarded x ++ [d] | _ => forwarded x end |})) as H;
    [|exact (H _)].
  intros g. destruct inner as [| |d| |source]; cbn [poll_frame];
    try (split_and!; simpl; try done; by destruct (_ <=? _)).
  - unfold budget_add. rewrite Hb. rewrite N.min_l by lia.
    destruct (add_transferred _ _ _) as [n|e] eqn:E; [|by split_and!].
    destruct (add_transferred_Ok _ _ _ _ E l eq_refl) as [-> Hle]. cbn [mbind result_bind].
    split_and!; cbn [budget transferred budget_limit forwarded]; [done| |exact Hle].
    rewrite total_size_app. simpl. lia.
  - unfold budget_add. rewrite Hb. destruct (add_transferred _ _ _) as [n|e] eqn:E; [|by split_and!].
    destruct (add_transferred_Ok _ _ _ _ E l eq_refl) as [-> Hle]. cbn [mbind result_bind].
    split_and!; cbn [budget transferred budget_limit forwarded]; [done| |exact Hle]. lia.
Qed.

(** The request and the response of one HTTP exchange share one byte ceiling:
    however the two bodies are polled, the data handed on by both together
    never exceeds the limit, and the budget counts exactly that data. *)
Theorem exchange_bounded (l t1 t2 n1 n2 : N) (polls : list (bool * N * polled)) :
  Forall poll_fits polls ->
  let x := foldl exchange_step {| request_body := guarded t1 n1; response_body := guarded t2 n2;
                                  budget := budget_new (Some l); forwarded := [] |} polls in
  transferred (budget x) = total_size (forwarded x) /\ total_size (forwarded x) <= l.
Proof.
  intros Hfit.
  assert (forall x, exchange_ok l x -> exchange_ok l (foldl exchange_step x polls)) as Hrun.
  { induction Hfit as [|p polls Hp _ IH]; intros x Hx; [done|]. simpl. apply IH. by apply exchange_step_ok. }
  destruct (Hrun {| request_body := guarded t1 n1; response_body := guarded t2 n2;
                    budget := budget_new (Some l); forwarded := [] |}) as (_ & Ht & Hl).
  - split_and!; simpl; [done|done|lia].
  - simpl. rewrite <- Ht. done.
Qed.

Lemma exchange_bounded_witness :
  total_size (forwarded (foldl exchange_step {| request_body := guarded 10 0; response_body := guarded 10 0;
                                  budget := budget_new (Some 5); forwarded := [] |}
                    [(true, 1, PollData "abc"); (false, 2, PollData "de"); (false, 3, PollData "f")])) <= 5.
Proof.
  apply (exchange_bounded 5 10 10 0 0 [(true, 1, PollData "abc"); (false, 2, PollData "de"); (false, 3, PollData "f")]).
  repeat constructor.
Defined.
