(* ===== verification/Socks.v ===== *)
(** [cageforge-network-proxy/src/socks5.rs]: the SOCKS5 handshake without
    authentication, its replies, and the service of one connection. *)

From Stdlib Require Import Ascii String NArith Lia.
From stdpp Require Import base numbers option strings list.
From S2P Require Import Prelude Text IpAddr IpText Access Domain LocalIpc NetPolicy Environment Compose Effective GatewayConfig GatewayError Authority Ingress Connect Relay.

#[local] Open Scope N_scope.

Definition VERSION : N := 0x05.
Definition NO_AUTH : N := 0x00.
Definition NO_ACCEPTABLE_METHOD : N := 0xff.
Definition CONNECT : N := 0x01.

(** Bytes by their values *)
Fixpoint bytes (l : list N) : string :=
  match l with [] => "" | n :: l' => String (ascii_of_N n) (bytes l') end.

Definition byte_at (s : string) (i : nat) : N :=
  match String.get i s with Some a => byte_val a | None => 0 end.

Definition write_reply (reply : N) : task unit :=
  _ ← write_all (bytes [VERSION; reply; 0; 0x01; 0; 0; 0; 0; 0; 0]);
  flush.

(** [Ipv4Addr::from([u8; 4])] and [Ipv6Addr::from([u8; 16])] *)
Definition ipv4_of_bytes (s : string) : Ipv4Addr :=
  ipv4 (byte_at s 0) (byte_at s 1) (byte_at s 2) (byte_at s 3).

Definition word_at (s : string) (i : nat) : N := byte_at s i * 256 + byte_at s (S i).

Definition ipv6_of_bytes (s : string) : Ipv6Addr :=
  ipv6 (word_at s 0) (word_at s 2) (word_at s 4) (word_at s 6)
       (word_at s 8) (word_at s 10) (word_at s 12) (word_at s 14).

Section socks.
Context {H : HttpAuthority}.

(** The address of a request, by its type *)
Definition read_host (address_type : N) : task string :=
  if address_type =? 0x01 then
    address ← read_exact 4; mret (ipv4_to_string (ipv4_of_bytes address))
  else if address_type =? 0x03 then
    length ← read_exact 1;
    let length := byte_at length 0 in
    if length =? 0 then fail (InvalidSocksRequest "empty domain")
    else
      domain ← read_exact (N.to_nat length);
      match to_str domain with
      | Some domain => mret domain
      | None => fail (InvalidSocksRequest "domain is not UTF-8")
      end
  else if address_type =? 0x04 then
    address ← read_exact 16; mret (ipv6_to_string (ipv6_of_bytes address))
  else
    _ ← write_reply 0x08; fail (InvalidSocksRequest "unsupported address type").

Definition read_request : task Authority :=
  request ← read_exact 4;
  if negb (byte_at request 0 =? VERSION) || negb (byte_at request 2 =? 0) then
    _ ← write_reply 0x01; fail (InvalidSocksRequest "invalid SOCKS5 request header")
  else if negb (byte_at request 1 =? CONNECT) then
    _ ← write_reply 0x07; fail (InvalidSocksRequest "only SOCKS5 CONNECT is supported")
  else
    host ← read_host (byte_at request 3);
    port ← read_exact 2;
    match from_host_port host (word_at port 0) with
    | Ok authority => mret authority
    | Err error => _ ← write_reply 0x01; fail error
    end.

Definition negotiate_and_read_request : task Authority :=
  greeting ← read_exact 2;
  if negb (byte_at greeting 0 =? VERSION) || (byte_at greeting 1 =? 0)
  then fail (InvalidSocksRequest "invalid greeting")
  else
    methods ← read_exact (N.to_nat (byte_at greeting 1));
    if negb (contains_char (ascii_of_N NO_AUTH) methods) then
      _ ← write_all (bytes [VERSION; NO_ACCEPTABLE_METHOD]);
      fail (InvalidSocksRequest "no supported authentication method")
    else
      _ ← write_all (bytes [VERSION; NO_AUTH]);
      read_request.

Definition reply_for_error (error : GatewayError) : N :=
  match error with
  | PolicyDenied _ _ | GwExternallyEnforced _ _ => 0x02
  | DnsFailed _ _ | DnsTimedOut _ | EmptyDnsResult _ | DnsAddressLimitExceeded _ _ => 0x04
  | ConnectTimedOut _ _ => 0x06
  | ConnectFailed _ _ _ => 0x05
  | _ => 0x01
  end.

(** The end of [copy_bidirectional] on what its streams did *)
Definition relay_outcome (limit : option N) (events : list relay_event) : outcome unit :=
  match relay_run limit relay_start events with
  | Some {| relay_result := Some (Ok _) |} => Ready ()
  | Some {| relay_result := Some (Err e) |} => Failed e
  | _ => Stalled
  end.

Context {U : Unicode} {G : Globset}.

(** The service of one connection, with the addresses that were dialled.  What
    the client and the upstream do once they are connected is [events]. *)
Definition socks_serve (gw : GatewayInner) (w : World) (events : list relay_event) (s : Stream) :
  outcome unit * Stream * list SocketAddr :=
  match with_timeout HandshakeTimedOut negotiate_and_read_request s with
  | (Failed e, s1) => (Failed e, s1, [])
  | (Stalled, s1) => (Stalled, s1, [])
  | (Panicked, s1) => (Panicked, s1, [])
  | (Ready authority, s1) =>
      match connect gw w authority with
      | (Ready _, dialled) =>
          match write_reply 0x00 s1 with
          | (Ready _, s2) => (relay_outcome (relay_byte_limit (gw_config gw)) events, s2, dialled)
          | (Failed e, s2) => (Failed e, s2, dialled)
          | (Stalled, s2) => (Stalled, s2, dialled)
          | (Panicked, s2) => (Panicked, s2, dialled)
          end
      | (Failed error, dialled) =>
          match write_reply (reply_for_error error) s1 with
          | (Stalled, s2) => (Stalled, s2, dialled)
          | (_, s2) => (Failed error, s2, dialled)
          end
      | (Stalled, dialled) => (Stalled, s1, dialled)
      | (Panicked, dialled) => (Panicked, s1, dialled)
      end
  end.

End socks.

(** * Requests *)

(** What a client can name, and how it writes it. *)
Inductive socks_address := SocksIp (ip : IpAddr) | SocksDomain (name : string).

Definition word_bytes (n : N) : list N := [n / 256; n mod 256].

Definition address_type (a : socks_address) : N :=
  match a with SocksIp (V4 _) => 0x01 | SocksDomain _ => 0x03 | SocksIp (V6 _) => 0x04 end.

Definition address_body (a : socks_address) : string :=
  match a with
  | SocksIp (V4 (ipv4 a b c d)) => bytes [a; b; c; d]
  | SocksIp (V6 x) => bytes (concat (word_bytes <$> segments x))
  | SocksDomain name => bytes [N.of_nat (String.length name)] +:+ name
  end.

Definition address_host (a : socks_address) : string :=
  match a with SocksIp ip => ip_to_string ip | SocksDomain name => name end.

(** Addresses at their width, names of one to 255 bytes a host name may have *)
Definition socks_address_wf (a : socks_address) : Prop :=
  match a with
  | SocksIp ip => ip_wf ip
  | SocksDomain name => (0 < String.length name < 256)%nat /\ str_all host_char name = true
  end.

(** The bytes of a client that offers [methods] and asks for a destination *)
Definition encode_request (methods : string) (a : socks_address) (port : N) : string :=
  bytes [VERSION; N.of_nat (String.length methods)] +:+ methods +:+
  bytes [VERSION; CONNECT; 0; address_type a] +:+ address_body a +:+ bytes (word_bytes port).

Definition with_input (s : Stream) (rest : string) : Stream :=
  {| input := rest; input_end := input_end s; output := output s; writes := writes s |}.

Definition with_output (s : Stream) (out : string) : Stream :=
  {| input := input s; input_end := input_end s; output := output s +:+ out; writes := writes s |}.

Lemma read_exact_app n x rest s :
  String.length x = n -> input s = x +:+ rest -> read_exact n s = (Ready x, with_input s rest).
Proof. intros Hn Hi. by apply read_exact_Ready. Qed.

Lemma write_all_accept b s : writes s = [] -> write_all b s = (Ready (), with_output s b).
Proof. intros Hw. unfold write_all. rewrite Hw. unfold with_output. rewrite Hw. simpl. by rewrite str_take_all. Qed.

Lemma bind_step {A B} (m : task A) (f : A -> task B) s a s1 :
  m s = (Ready a, s1) -> (m ≫= f) s = f a s1.
Proof. unfold mbind, task_bind. by intros ->. Qed.

Lemma bytes_length l : String.length (bytes l) = length l.
Proof. induction l; simpl; by f_equal. Qed.

Lemma bytes_app l k : bytes (l ++ k) = bytes l +:+ bytes k.
Proof. induction l as [|n l IH]; [done|]. simpl. by rewrite IH. Qed.

Lemma byte_at_bytes l i n : l !! i = Some n -> n < 256 -> byte_at (bytes l) i = n.
Proof.
  revert i. induction l as [|m l IH]; intros [|i] Hi Hn; try done.
  - injection Hi as ->. unfold byte_at. simpl. by apply N_ascii_embedding.
  - apply (IH i Hi Hn).
Qed.

Lemma word_at_bytes l i n : n < 65536 -> l !! i = Some (n / 256) -> l !! S i = Some (n mod 256) ->
  word_at (bytes l) i = n.
Proof.
  intros Hn H1 H2. unfold word_at.
  rewrite (byte_at_bytes l i (n / 256)), (byte_at_bytes l (S i) (n mod 256)); try done.
  - pose proof (N.Div0.div_mod n 256). lia.
  - apply N.mod_lt. lia.
  - apply N.Div0.div_lt_upper_bound. lia.
Qed.

Lemma host_char_ascii a : host_char a = true -> byte_val a <? 128 = true.
Proof. by destruct a as [[] [] [] [] [] [] [] []]. Qed.

Lemma host_to_str name : str_all host_char name = true -> to_str name = Some name.
Proof.
  intros Hn. apply utf8_chunks_utf8. destruct (utf8_chunks_ascii name) as (l & -> & _); [|done].
  eapply str_all_impl; [|exact Hn]. apply host_char_ascii.
Qed.

Lemma ipv6_bytes_roundtrip x : ipv6_wf x -> ipv6_of_bytes (bytes (concat (word_bytes <$> segments x))) = x.
Proof.
  destruct x as [s0 s1 s2 s3 s4 s5 s6 s7]. unfold ipv6_wf. cbn [segments]. intros Hwf.
  assert (forall i s, [s0; s1; s2; s3; s4; s5; s6; s7] !! i = Some s -> s < 65536) as Hs
    by (intros i s Hi; by apply (Forall_lookup_1 _ _ i s Hwf)).
  unfold ipv6_of_bytes. f_equal; apply word_at_bytes; try done;
    [apply (Hs 0%nat)|apply (Hs 1%nat)|apply (Hs 2%nat)|apply (Hs 3%nat)
    |apply (Hs 4%nat)|apply (Hs 5%nat)|apply (Hs 6%nat)|apply (Hs 7%nat)]; done.
Qed.

Lemma ipv4_bytes_roundtrip a b c d : ipv4_wf (ipv4 a b c d) -> ipv4_of_bytes (bytes [a; b; c; d]) = ipv4 a b c d.
Proof.
  intros (Ha & Hb & Hc & Hd). unfold ipv4_of_bytes. f_equal; by apply byte_at_bytes.
Qed.

Section requests.
Context {H : HttpAuthority} {HL : HttpAuthorityLaws H}.

Lemma read_host_encoded a s rest :
  socks_address_wf a -> input s = address_body a +:+ rest ->
  read_host (address_type a) s = (Ready (address_host a), with_input s rest).
Proof.
  destruct a as [[[a b c d]|x]|name]; cbn [address_type address_body address_host socks_address_wf ip_to_string ip_wf];
    intros Hwf Hi; unfold read_host; cbn [N.eqb Pos.eqb].
  - rewrite (bind_step _ _ _ _ _ (read_exact_app 4 (bytes [a; b; c; d]) rest s eq_refl Hi)).
    by rewrite ipv4_bytes_roundtrip.
  - rewrite (bind_step _ _ _ _ _ (read_exact_app 16 (bytes (concat (word_bytes <$> segments x))) rest s ltac:(by destruct x) Hi)).
    by rewrite ipv6_bytes_roundtrip.
  - destruct Hwf as [Hlen Hname]. rewrite <- string_app_assoc in Hi.
    rewrite (bind_step _ _ _ _ _ (read_exact_app 1 (bytes [N.of_nat (String.length name)]) _ s eq_refl Hi)).
    rewrite (byte_at_bytes [N.of_nat (String.length name)] 0 (N.of_nat (String.length name))) by (done || lia).
    rewrite (proj2 (N.eqb_neq _ 0)) by lia. rewrite Nat2N.id.
    rewrite (bind_step _ _ _ _ _ (read_exact_app _ name rest (with_input s (name +:+ rest)) eq_refl eq_refl)).
    by rewrite host_to_str.
Qed.

Lemma from_host_port_address a p : socks_address_wf a -> 0 < p < 65536 ->
  from_host_port (address_host a) p = Ok {| host := address_host a; port := p |}.
Proof.
  intros Hwf Hp. destruct a as [ip|name]; cbn [address_host socks_address_wf] in *.
  - destruct (from_host_port_literal ip p Hwf Hp) as (x & -> & -> & _). done.
  - destruct Hwf as [Hlen Hname]. apply from_host_port_name; [by intros ->; simpl in Hlen; lia|done|done].
Qed.

Lemma negotiate_encoded methods a p s rest :
  (0 < String.length methods < 256)%nat -> contains_char (ascii_of_N NO_AUTH) methods = true ->
  socks_address_wf a -> 0 < p < 65536 -> writes s = [] ->
  input s = encode_request methods a p +:+ rest ->
  negotiate_and_read_request s =
    (Ready {| host := address_host a; port := p |}, with_input (with_output s (bytes [VERSION; NO_AUTH])) rest).
Proof.
  intros Hlen Hno Ha Hp Hw Hi. unfold encode_request in Hi. rewrite <- !string_app_assoc in Hi.
  unfold negotiate_and_read_request.
  rewrite (bind_step _ _ _ _ _ (read_exact_app 2 (bytes [VERSION; N.of_nat (String.length methods)]) _ s eq_refl Hi)).
  rewrite (byte_at_bytes _ 1 (N.of_nat (String.length methods))) by (done || lia).
  rewrite (byte_at_bytes _ 0 VERSION) by done.
  rewrite N.eqb_refl, (proj2 (N.eqb_neq _ 0)) by lia. cbn [negb orb]. rewrite Nat2N.id.
  rewrite (bind_step _ _ _ _ _ (read_exact_app _ methods _ (with_input s _) eq_refl eq_refl)).
  rewrite Hno. cbn [negb]. set (s1 := with_output s (bytes [VERSION; NO_AUTH])).
  change (with_input (with_input s ?x) ?y) with (with_input s y).
  rewrite (bind_step _ _ _ _ _ (write_all_accept _ (with_input s _) Hw)).
  change (with_output (with_input s ?x) (bytes [VERSION; NO_AUTH])) with (with_input s1 x). unfold read_request.
  rewrite (bind_step _ _ _ _ _ (read_exact_app 4 (bytes [VERSION; CONNECT; 0; address_type a]) _
             (with_input s1 _) eq_refl eq_refl)).
  rewrite (byte_at_bytes _ 0 VERSION), (byte_at_bytes _ 1 CONNECT), (byte_at_bytes _ 2 0) by done.
  rewrite (byte_at_bytes _ 3 (address_type a)) by (done || by destruct a as [[]|]).
  cbn [N.eqb Pos.eqb negb orb VERSION CONNECT].
  change (with_input (with_input s1 ?x) ?y) with (with_input s1 y).
  rewrite (bind_step _ _ _ _ _ (read_host_encoded a (with_input s1 _) _ Ha eq_refl)).
  change (with_input (with_input s1 ?x) ?y) with (with_input s1 y).
  rewrite (bind_step _ _ _ _ _ (read_exact_app 2 (bytes (word_bytes p)) rest (with_input s1 _) eq_refl eq_refl)).
  rewrite (word_at_bytes (word_bytes p) 0 p) by (done || lia).
  by rewrite from_host_port_address.
Qed.

(** C40. What a client writes is what the gateway reads: a well-formed request for an
    address or a name, with any list of methods that offers no authentication,
    is answered by selecting that method and read as exactly that destination;
    nothing behind it is consumed, and a literal address leads to itself. *)
Theorem socks_request_roundtrip (methods : string) (a : socks_address) (p : N) (s : Stream) (rest : string) :
  (0 < String.length methods < 256)%nat -> contains_char (ascii_of_N NO_AUTH) methods = true ->
  socks_address_wf a -> 0 < p < 65536 -> writes s = [] ->
  input s = encode_request methods a p +:+ rest ->
  exists authority s', negotiate_and_read_request s = (Ready authority, s') /\
    authority = {| host := address_host a; port := p |} /\
    input s' = rest /\ output s' = output s +:+ bytes [VERSION; NO_AUTH] /\
    (forall ip, a = SocksIp ip -> literal_address authority = Some (socket_addr ip p)).
Proof.
  intros Hlen Hno Ha Hp Hw Hi. eexists _, _. split; [by eapply negotiate_encoded|].
  split_and!; try done. intros ip ->. cbn [address_host].
  by destruct (from_host_port_literal ip p Ha Hp) as (x & _ & -> & ?).
Qed.
End requests.

(** * The service *)

Section service.
Context {H : HttpAuthority} {U : Unicode} {G : Globset}.

Lemma reply_for_error_nonzero e : reply_for_error e <> 0.
Proof. by destruct e. Qed.

Lemma write_reply_accept reply s : writes s = [] ->
  write_reply reply s = (Ready (), with_output s (bytes [VERSION; reply; 0; 0x01; 0; 0; 0; 0; 0; 0])).
Proof.
  intros Hw. unfold write_reply. rewrite (bind_step _ _ _ _ _ (write_all_accept _ _ Hw)).
  unfold flush. rewrite write_all_accept by done. unfold with_output. cbn [output input input_end writes].
  by rewrite string_app_empty_r.
Qed.

Lemma socks_serve_dials (gw : GatewayInner) (w : World) events s :
  (socks_serve gw w events s).2 = [] \/ exists a, (socks_serve gw w events s).2 = (connect gw w a).2.
Proof.
  unfold socks_serve. destruct (with_timeout _ _ s) as [[a|e| |] s1]; [|by left..].
  right. exists a. destruct (connect gw w a) as [[] l]; [..|done|done]; by destruct (write_reply _ _) as [[] ?].
Qed.

(** The service fails closed.  Nothing is dialled unless the client completed
    the handshake, and then only what the outbound path dials for the
    destination it named; a relay runs only on a stream the outbound path gave;
    and a refused client is told so: the reply to an error is never the one
    that means success. *)
Theorem socks_fail_closed (gw : GatewayInner) (w : World) (events : list relay_event) (s : Stream) :
  let '(o, s', dialled) := socks_serve gw w events s in
  (dialled <> [] -> exists a s1, negotiate_and_read_request s = (Ready a, s1) /\ dialled = (connect gw w a).2) /\
  (o = Ready () -> exists a s1 x, negotiate_and_read_request s = (Ready a, s1) /\ (connect gw w a).1 = Ready x) /\
  (forall a s1 e, negotiate_and_read_request s = (Ready a, s1) -> (connect gw w a).1 = Failed e -> writes s1 = [] ->
     o = Failed e /\ exists reply, reply <> 0 /\ reply = reply_for_error e /\
     output s' = output s1 +:+ bytes [VERSION; reply; 0; 0x01; 0; 0; 0; 0; 0; 0]).
Proof.
  unfold socks_serve, with_timeout.
  destruct (negotiate_and_read_request s) as [[a|e| |] s1] eqn:E; try (split_and!; done).
  destruct (connect gw w a) as [[x|e| |] dialled] eqn:C.
  - destruct (write_reply 0 s1) as [[[]|e| |] s2]; (split_and!; [intros _; exists a, s1; by rewrite C| |]);
      try done; try (intros _; exists a, s1, x; by rewrite C); intros a' s1' e' [= -> ->]; by rewrite C.
  - assert (dialled <> [] -> exists a' s1', (@Ready Authority a, s1) = (Ready a', s1') /\
      dialled = (connect gw w a').2) as Hd by (intros _; exists a, s1; by rewrite C).
    destruct (write_reply (reply_for_error e) s1) as [[[]|e'| |] s2] eqn:Hw; (split_and!; [by apply Hd|done|]);
      intros a' s1' e'' [= <- <-]; rewrite C; intros [= <-] Hnil;
      rewrite (write_reply_accept _ _ Hnil) in Hw; try done.
    injection Hw as <-. split; [done|]. exists (reply_for_error e).
    split_and!; [apply reply_for_error_nonzero|done|done].
  - split_and!; [intros _; exists a, s1; by rewrite C|done|]. intros a' s1' e [= -> ->]; by rewrite C.
  - split_and!; [intros _; exists a, s1; by rewrite C|done|]. intros a' s1' e [= -> ->]; by rewrite C.
Qed.

End service.

(** * Examples *)

Section examples.
#[local] Existing Instance literal_globset.
#[local] Existing Instance ascii_unicode.
#[local] Existing Instance literal_wildmatch.
#[local] Existing Instance plain_authority.

Definition socks_stream : Stream :=
  {| input := encode_request (bytes [2; NO_AUTH]) (SocksIp (V6 (ipv6 0x2001 0xdb8 0 0 0 0 0 1))) 443 +:+ "hello";
     input_end := Stall; output := ""; writes := [] |}.

Lemma socks_request_roundtrip_witness :
  exists authority s', negotiate_and_read_request socks_stream = (Ready authority, s') /\
    literal_address authority = Some (SocketV6 (ipv6 0x2001 0xdb8 0 0 0 0 0 1) 443 0 0).
Proof.
  destruct (socks_request_roundtrip (HL := plain_authority_laws) (bytes [2; NO_AUTH])
              (SocksIp (V6 (ipv6 0x2001 0xdb8 0 0 0 0 0 1))) 443 socks_stream "hello")
    as (authority & s' & Hn & _ & _ & _ & Hl); [simpl; lia|reflexivity|repeat constructor|lia|reflexivity|reflexivity|].
  exists authority, s'. split; [exact Hn|]. exact (Hl _ eq_refl).
Defined.

Example socks_denied :
  let '(o, s', dialled) := socks_serve example_gateway example_world [] 
    {| input := encode_request (bytes [NO_AUTH]) (SocksDomain "example.org") 443; input_end := Stall;
       output := ""; writes := [] |} in
  o = Failed (PolicyDenied "example.org" 443) /\ dialled = [] /\
  output s' = bytes [5; 0; 5; 2; 0; 1; 0; 0; 0; 0; 0; 0].
Proof. vm_compute. tauto. Qed.
End examples.
