(* ===== verification/HttpProxy.v ===== *)
(** [cageforge-network-proxy/src/http.rs]: forward-proxy requests and CONNECT.

    A message is what [hyper] hands over: a method, the parts of the URI, and a
    header map.  Parsing, and the syntax of header names and values, belong to
    [hyper] and [http]; they are parameters.  A header map is a list of pairs of
    a lower-case name and a value; the order of different names is not
    observed. *)

From Stdlib Require Import Ascii String NArith Lia.
From stdpp Require Import base numbers option strings sorting list.
From S2P Require Import Prelude Text IpAddr IpText Access Domain LocalIpc NetPolicy Environment Compose Effective.
From S2P Require Import GatewayConfig GatewayError Authority Ingress Connect Relay Socks.

#[local] Open Scope N_scope.

(** ** The [http] crate *)

Record Uri := { scheme : option string; uri_authority : option string; path_and_query : option string }.

(** [HeaderName::from_bytes], [HeaderValue::to_str], [HeaderValue::from_str] and
    [Uri::builder().path_and_query(..).build()] *)
Class HttpSyntax := {
  name_from_bytes : string -> option string;
  value_to_str : string -> option string;
  value_from_str : string -> option string;
  build_uri : string -> option Uri
}.

(** A name is normalized to lower case; values and the path are kept. *)
Class HttpSyntaxLaws (X : HttpSyntax) : Prop := {
  name_normalized bytes name : name_from_bytes bytes = Some name -> name = to_ascii_lowercase bytes;
  value_read value s : value_to_str value = Some s -> s = value;
  value_written s value : value_from_str s = Some value -> value = s;
  uri_built path uri : build_uri path = Some uri ->
    uri = {| scheme := None; uri_authority := None; path_and_query := Some path |}
}.

Notation HeaderMap := (list (string * string)).

Definition get_all (headers : HeaderMap) (name : string) : list string :=
  (filter (fun h => h.1 = name) headers).*2.

Definition contains_key (headers : HeaderMap) (name : string) : bool := bool_decide (get_all headers name <> []).

Definition header_remove (headers : HeaderMap) (name : string) : HeaderMap :=
  filter (fun h => h.1 <> name) headers.

Definition header_insert (headers : HeaderMap) (name value : string) : HeaderMap :=
  header_remove headers name ++ [(name, value)].

Record Request := { req_method : string; req_uri : Uri; req_headers : HeaderMap; req_version : N }.
Record Response := { status : N; resp_headers : HeaderMap; resp_body : string }.

(** * Headers *)

Definition hop_by_hop : list string :=
  ["connection"; "keep-alive"; "proxy-connection"; "te"; "trailer"; "transfer-encoding"; "upgrade";
   "proxy-authenticate"; "proxy-authorization"].

Definition remove_hop_by_hop_headers (headers : HeaderMap) (nominated : list string) : HeaderMap :=
  foldl header_remove (foldl header_remove headers nominated) hop_by_hop.

(** Collecting the results of an iterator stops at the first error. *)
Fixpoint collect {E A B} (f : A -> result E B) (l : list A) : result E (list B) :=
  match l with
  | [] => Ok []
  | a :: l' => b ← f a; bs ← collect f l'; Ok (b :: bs)
  end.

Section http.
Context {H : HttpAuthority} {X : HttpSyntax}.

(** The names the [Connection] headers list; [error] is the kind of rejection,
    which differs between requests and responses. *)
Definition nominated_names (error : string -> GatewayError) (headers : HeaderMap) :
  result GatewayError (list string) :=
  values ← collect (fun value => ok_or (error "Connection header contains non-ASCII data") (value_to_str value))
             (get_all headers "connection");
  collect (fun name => ok_or (error "Connection header contains an invalid field name") (name_from_bytes name))
    (trim <$> concat (str_split "," <$> values)).

Definition remove_request_hop_by_hop_headers (headers : HeaderMap) : result GatewayError HeaderMap :=
  nominated ← nominated_names InvalidHttpRequest headers;
  Ok (remove_hop_by_hop_headers headers nominated).

Definition remove_response_hop_by_hop_headers (headers : HeaderMap) : result GatewayError HeaderMap :=
  nominated ← nominated_names InvalidHttpResponse headers;
  Ok (remove_hop_by_hop_headers headers nominated).

(** The value of the [Host] header that is sent on *)
Definition host_value (authority : Authority) : string :=
  if port authority =? 80 then host authority
  else if contains_char ":" (host authority)
  then "[" +:+ host authority +:+ "]:" +:+ port_to_string (port authority)
  else host authority +:+ ":" +:+ port_to_string (port authority).

Definition sanitize_request_headers (headers : HeaderMap) (authority : Authority) :
  result GatewayError HeaderMap :=
  headers ← remove_request_hop_by_hop_headers headers;
  value ← ok_or (InvalidHttpRequest "authority cannot be represented as a Host header")
            (value_from_str (host_value authority));
  Ok (header_insert headers "host" value).

Definition validate_host_header (headers : HeaderMap) (authority : Authority) : result GatewayError unit :=
  match get_all headers "host" with
  | [] => Err (InvalidHttpRequest "ordinary proxy request is missing its Host header")
  | _ :: _ :: _ => Err (InvalidHttpRequest "ordinary proxy request contains multiple Host headers")
  | [value] =>
      value ← ok_or (InvalidHttpRequest "ordinary proxy request has an invalid Host header") (value_to_str value);
      host ← authority_parse value (Some 80);
      reject negb (same_endpoint authority host)
        with InvalidHttpRequest "Host header does not match the absolute request target" ;;
      Ok ()
  end.

Definition reject_connect_body (headers : HeaderMap) : result GatewayError unit :=
  let has_nonempty_length := match head (get_all headers "content-length") with
                             | Some value => negb (bool_decide (value = "0"))
                             | None => false
                             end in
  reject has_nonempty_length || contains_key headers "transfer-encoding"
    with InvalidHttpRequest "CONNECT request bodies are not supported" ;;
  Ok ().

(** * Targets *)

Definition ordinary_authority (uri : Uri) : result GatewayError Authority :=
  reject negb (bool_decide (scheme uri = Some "http"))
    with InvalidHttpRequest "ordinary proxy requests require an absolute http URI" ;;
  authority ← ok_or (InvalidHttpRequest "absolute URI is missing an authority") (uri_authority uri);
  authority_parse authority (Some 80).

Definition origin_form (uri : Uri) : result GatewayError Uri :=
  ok_or (InvalidHttpRequest "request target cannot be converted to origin form")
    (build_uri (default "/" (path_and_query uri))).

(** * Responses *)

Definition error_response (status : N) (message : string) (close : bool) : Response :=
  {| status := status; resp_body := message;
     resp_headers := if close then [("connection", "close")] else [] |}.

Definition response_for_error (error : GatewayError) : Response :=
  let '(status, message) :=
    match error with
    | InvalidHttpRequest _ | InvalidAuthority _ => (400, "invalid proxy request")
    | PolicyDenied _ _ | GwExternallyEnforced _ _ | UnsupportedPolicy _ | GwPolicyEvaluation _
    | InvalidResolvedTarget _ => (403, "destination denied")
    | DnsTimedOut _ | ConnectTimedOut _ _ | ResponseHeaderTimedOut _ _ => (504, "upstream timed out")
    | ConnectionLimitReached => (429, "connection limit exceeded")
    | RelayByteLimitExceeded _ => (413, "transfer limit exceeded")
    | InvalidHttpResponse _ => (502, "invalid upstream response")
    | _ => (502, "upstream failed")
    end in
  error_response status (message +:+ String (ascii_of_N 10) "") false.

End http.

(** * Handlers *)

(** What the upstream does on a new connection: [hyper]'s handshake, and the
    answer to a request. *)
Record Upstream := {
  client_handshake : Future (result cause unit);
  respond : Request -> Future (result cause Response)
}.

(** A background task of the connection: driving an upstream connection, or the
    tunnel of a CONNECT. *)
Inductive protocol_task := DriveConnection | Tunnel.

(** What a handler did besides answering: the addresses it dialled, the request
    it sent on, the tasks it spawned, and whether it armed the idle timer. *)
Record Effects := {
  dialled : list SocketAddr;
  sent : option Request;
  spawned : list protocol_task;
  armed_timer : bool
}.

Definition no_effects : Effects := {| dialled := []; sent := None; spawned := []; armed_timer := false |}.
Definition only_dialled (l : list SocketAddr) : Effects :=
  {| dialled := l; sent := None; spawned := []; armed_timer := false |}.

(** The failures of an outbound attempt, for a handler that stops there *)
Definition stop_outcome {A B} (o : outcome A) : outcome B :=
  match o with Failed e => Failed e | Panicked => Panicked | _ => Stalled end.

Section handlers.
Context {H : HttpAuthority} {X : HttpSyntax} {U : Unicode} {G : Globset}.

(** The request that leaves the proxy *)
Definition outgoing_request (request : Request) (authority : Authority) : result GatewayError Request :=
  headers ← sanitize_request_headers (req_headers request) authority;
  uri ← origin_form (req_uri request);
  Ok {| req_method := req_method request; req_uri := uri; req_headers := headers; req_version := 11 |}.

Definition forward (gw : GatewayInner) (w : World) (up : Upstream) (request : Request) :
  outcome Response * Effects :=
  match (authority ← ordinary_authority (req_uri request);
         _ ← validate_host_header (req_headers request) authority;
         Ok authority) with
  | Err e => (Failed e, no_effects)
  | Ok authority =>
      match connect gw w authority with
      | (Ready _, l) =>
          match outgoing_request request authority with
          | Err e => (Failed e, only_dialled l)
          | Ok out =>
              match timeout (handshake_timeout (gw_config gw)) (client_handshake up) with
              | None => (Failed HandshakeTimedOut, only_dialled l)
              | Some (Err source) => (Failed (HttpConnection source), only_dialled l)
              | Some (Ok _) =>
                  let effects := {| dialled := l; sent := Some out; spawned := [DriveConnection]; armed_timer := true |} in
                  match timeout (response_header_timeout (gw_config gw)) (respond up out) with
                  | None => (Failed (ResponseHeaderTimedOut (host authority) (port authority)), effects)
                  | Some (Err source) => (Failed (HttpConnection source), effects)
                  | Some (Ok response) =>
                      match remove_response_hop_by_hop_headers (resp_headers response) with
                      | Err e => (Failed e, effects)
                      | Ok headers =>
                          (Ready {| status := status response; resp_headers := headers;
                                    resp_body := resp_body response |}, effects)
                      end
                  end
              end
          end
      | (o, l) => (stop_outcome o, only_dialled l)
      end
  end.

Definition handle_connect (gw : GatewayInner) (w : World) (request : Request) : outcome Response * Effects :=
  match (_ ← reject_connect_body (req_headers request);
         value ← ok_or (InvalidHttpRequest "CONNECT requires authority-form target") (uri_authority (req_uri request));
         authority_parse value None) with
  | Err e => (Failed e, no_effects)
  | Ok authority =>
      match connect gw w authority with
      | (Ready _, l) =>
          (Ready {| status := 200; resp_headers := []; resp_body := "" |},
           {| dialled := l; sent := None; spawned := [Tunnel]; armed_timer := true |})
      | (o, l) => (stop_outcome o, only_dialled l)
      end
  end.

(** [match handler { Ok(response) => response, Err(error) => response_for_error(&error) }] *)
Definition answer (r : outcome Response * Effects) : outcome Response * Effects :=
  match r with
  | (Failed e, effects) => (Ready (response_for_error e), effects)
  | _ => r
  end.

(** One request; [count] is the number of requests before it. *)
Definition handle_request (gw : GatewayInner) (w : World) (up : Upstream) (count : N) (request : Request) :
  outcome Response * Effects * N :=
  let number := N.min (count + 1) (2 ^ 64 - 1) in
  let count := (count + 1) mod 2 ^ 64 in
  if max_requests_per_connection (gw_config gw) <? number
  then (Ready (error_response 429 ("request limit exceeded" +:+ String (ascii_of_N 10) "") true), no_effects, count)
  else if bool_decide (req_method request = "CONNECT")
  then (answer (handle_connect gw w request), count)
  else (answer (forward gw w up request), count).

(** The requests of one connection in their order, with the world each meets *)
Fixpoint handle_requests (gw : GatewayInner) (count : N) (requests : list (Request * World * Upstream)) :
  list (outcome Response * Effects) :=
  match requests with
  | [] => []
  | (request, w, up) :: requests' =>
      let '(r, count') := handle_request gw w up count request in
      r :: handle_requests gw count' requests'
  end.

(** ** Background tasks *)

(** How a task ends: with its result, or cancelled or panicked. *)
Definition join_result : Type := result cause (result GatewayError unit).

(** [ProtocolTasks::finish]: the last task first; the first failure is returned
    and the tasks that are left are aborted. *)
Fixpoint finish_loop (handles : list join_result) : result GatewayError unit * nat :=
  match handles with
  | [] => (Ok (), O)
  | handle :: handles' =>
      match handle with
      | Err source => (Err (ProtocolTask source), length handles')
      | Ok (Err e) => (Err e, length handles')
      | Ok (Ok _) => finish_loop handles'
      end
  end.

Definition finish (handles : list join_result) : result GatewayError unit * nat := finish_loop (reverse handles).

(** [serve]: what [hyper] reads off the connection, how it ends, how the tasks
    end, and whether the idle timer ran out first. *)
Record HttpScript := {
  requests : list (Request * World * Upstream);
  connection_result : result cause unit;
  task_results : list join_result;
  idle_first : bool
}.

Definition http_serve (gw : GatewayInner) (c : HttpScript) :
  result GatewayError unit * list (outcome Response * Effects) :=
  let handled := handle_requests gw 0 (requests c) in
  if idle_first c then (Err RelayTimedOut, handled)
  else
    let task_result := (finish (task_results c)).1 in
    ((_ ← map_err HttpConnection (connection_result c); task_result), handled).

End handlers.

(** ** Idle connections *)

(** [HttpActivity]: armed once the first upstream is there; every transfer is
    recorded with its instant. *)
Record HttpActivity := { armed : bool; last_transfer : N }.

Definition activity_new (now : N) : HttpActivity := {| armed := false; last_transfer := now |}.
Definition record_transfer (a : HttpActivity) (now : N) : HttpActivity := {| armed := armed a; last_transfer := now |}.
Definition arm (a : HttpActivity) (now : N) : HttpActivity :=
  if armed a then a else record_transfer {| armed := true; last_transfer := last_transfer a |} now.

Inductive activity_event := Arm | Transfer.

Definition on_activity (a : HttpActivity) (now : N) (e : activity_event) : HttpActivity :=
  match e with Arm => arm a now | Transfer => record_transfer a now end.

(** [HttpActivity::wait_until_idle]: when it returns, if it does, given the
    events in the order of their instants *)
Fixpoint wait_until_idle (idle_timeout : N) (a : HttpActivity) (events : list (N * activity_event)) : option N :=
  match events with
  | [] => if armed a then Some (last_transfer a + idle_timeout) else None
  | (t, e) :: events' =>
      if armed a && (last_transfer a + idle_timeout <? t) then Some (last_transfer a + idle_timeout)
      else wait_until_idle idle_timeout (on_activity a t e) events'
  end.

(** [TrackedIo]: a poll that moved bytes is a transfer. *)
Definition tracked (moved : N) (a : HttpActivity) (now : N) : HttpActivity :=
  if 0 <? moved then record_transfer a now else a.

(** * Headers that are sent on *)

Lemma removals_filter (names : list string) (headers : HeaderMap) :
  foldl header_remove headers names = filter (fun h => h.1 ∉ names) headers.
Proof.
  revert headers. induction names as [|name names IH]; intros headers.
  - simpl. symmetry. induction headers as [|h headers IHh]; [done|]. rewrite filter_cons, IHh.
    by rewrite decide_True by apply not_elem_of_nil.
  - simpl. rewrite IH. unfold header_remove. rewrite list_filter_filter. apply list_filter_iff.
    intros h. rewrite not_elem_of_cons. naive_solver.
Qed.

Lemma removed_headers (headers : HeaderMap) (nominated : list string) :
  remove_hop_by_hop_headers headers nominated = filter (fun h => h.1 ∉ nominated /\ h.1 ∉ hop_by_hop) headers.
Proof.
  unfold remove_hop_by_hop_headers. rewrite !removals_filter, list_filter_filter.
  apply list_filter_iff. naive_solver.
Qed.

Section forwarding.
Context {H : HttpAuthority} {X : HttpSyntax} {XL : HttpSyntaxLaws X} {U : Unicode} {G : Globset}.

Lemma sanitized_headers headers authority out :
  sanitize_request_headers headers authority = Ok out ->
  exists nominated, nominated_names InvalidHttpRequest headers = Ok nominated /\
    out = filter (fun h => h.1 <> "host" /\ h.1 ∉ nominated /\ h.1 ∉ hop_by_hop) headers ++
          [("host", host_value authority)].
Proof.
  unfold sanitize_request_headers, remove_request_hop_by_hop_headers. intros E. res_inv.
  apply value_written in E1 as ->. exists a1. split; [done|]. unfold header_insert, header_remove. f_equal.
  by rewrite removed_headers, list_filter_filter.
Qed.

Lemma validated_host headers authority :
  validate_host_header headers authority = Ok () ->
  exists value h, get_all headers "host" = [value] /\ authority_parse value (Some 80) = Ok h /\
    same_endpoint authority h = true.
Proof.
  unfold validate_host_header. destruct (get_all headers "host") as [|value [|]]; [done| |done].
  intros (v & Hv & E)%bind_Ok. apply ok_or_Ok, value_read in Hv as ->. res_inv. bool_inv. eauto.
Qed.

(** What a forwarded request did. *)
Lemma forward_sent gw w up request o effects out :
  forward gw w up request = (o, effects) -> sent effects = Some out ->
  exists authority x, ordinary_authority (req_uri request) = Ok authority /\
    validate_host_header (req_headers request) authority = Ok () /\
    connect gw w authority = (Ready x, dialled effects) /\ outgoing_request request authority = Ok out.
Proof.
  unfold forward. destruct (_ ≫= _) as [authority|e] eqn:E; [|by intros [= <- <-]].
  apply bind_Ok in E as (a & Ha & E). apply bind_Ok in E as ([] & Hv & [= ->]).
  destruct (connect gw w authority) as [[x|e| |] l] eqn:Hc; try (by intros [= <- <-]).
  destruct (outgoing_request request authority) as [out'|e] eqn:Ho; [|by intros [= <- <-]].
  destruct (timeout _ (client_handshake up)) as [[]|]; try (by intros [= <- <-]).
  intros Hf Hs. exists authority, x.
  assert (effects = {| dialled := l; sent := Some out'; spawned := [DriveConnection]; armed_timer := true |}) as ->
    by (by repeat case_match; simplify_eq).
  injection Hs as <-. done.
Qed.


End forwarding.

Section requests.
Context {H : HttpAuthority} {X : HttpSyntax} {U : Unicode} {G : Globset}.

(** Whatever a handler dials, the outbound path dialled for some destination. *)
Lemma handled_dials gw w up count request :
  let '(r, _) := handle_request gw w up count request in
  dialled r.2 = [] \/ exists a, dialled r.2 = (connect gw w a).2.
Proof.
  assert (forall r : outcome Response * Effects, (answer r).2 = r.2) as Hans by (by intros [[] ?]).
  unfold handle_request. destruct (_ <? _); [by left|]. case_bool_decide.
  - rewrite Hans. unfold handle_connect. destruct (_ ≫= _) as [a|e]; [|by left].
    destruct (connect gw w a) as [[] l] eqn:E; right; exists a; by rewrite E.
  - rewrite Hans. unfold forward. destruct (_ ≫= _) as [a|e]; [|by left].
    destruct (connect gw w a) as [[] l] eqn:E; right; exists a; rewrite E; [|done..].
    by repeat case_match; simplify_eq.
Qed.

Lemma handle_request_count gw w up count request :
  (handle_request gw w up count request).2 = (count + 1) mod 2 ^ 64.
Proof. unfold handle_request. destruct (_ <? _); [done|]. by case_bool_decide. Qed.

Lemma handle_requests_dials gw count requests r :
  r ∈ handle_requests gw count requests ->
  dialled r.2 = [] \/ exists w a, dialled r.2 = (connect gw w a).2.
Proof.
  revert count. induction requests as [|[[request w] up] requests IH]; intros count Hr.
  { by apply not_elem_of_nil in Hr. }
  cbn [handle_requests] in Hr. pose proof (handled_dials gw w up count request) as Hd.
  destruct (handle_request gw w up count request) as [r' count'].
  apply elem_of_cons in Hr as [->|Hr]; [|by apply (IH count')].
  destruct Hd as [|[a ?]]; [by left|right; eauto].
Qed.

Definition limit_response : Response :=
  error_response 429 ("request limit exceeded" +:+ String (ascii_of_N 10) "") true.

Lemma handle_requests_over gw count requests i r :
  count + N.of_nat (length requests) < 2 ^ 64 ->
  handle_requests gw count requests !! i = Some r ->
  max_requests_per_connection (gw_config gw) <= count + N.of_nat i -> r = (Ready limit_response, no_effects).
Proof.
  revert count i. induction requests as [|[[request w] up] requests IH]; intros count i Hn Hi Hmax; [done|].
  cbn [handle_requests length] in *.
  pose proof (handle_request_count gw w up count request) as Hc. rewrite N.mod_small in Hc by lia.
  destruct (handle_request gw w up count request) as [r' count'] eqn:E. cbn [snd] in Hc. subst count'.
  destruct i as [|i]; [|apply (IH (count + 1) i); [lia|done|lia]]. injection Hi as <-.
  unfold handle_request in E. rewrite N.min_l in E by lia.
  rewrite (proj2 (N.ltb_lt _ _)) in E by lia. by injection E as <-.
Qed.

(** A connection gets its configured number of requests and no more: every
    request beyond it is answered with 429 and the close of the connection, and
    has no effect at all: nothing is dialled, sent or spawned. *)
Theorem http_request_limit (gw : GatewayInner) (requests : list (Request * World * Upstream)) (i : nat)
    (r : outcome Response * Effects) :
  N.of_nat (length requests) < 2 ^ 64 ->
  handle_requests gw 0 requests !! i = Some r ->
  max_requests_per_connection (gw_config gw) <= N.of_nat i ->
  r = (Ready {| status := 429; resp_headers := [("connection", "close")];
                resp_body := "request limit exceeded" +:+ String (ascii_of_N 10) "" |}, no_effects).
Proof. intros Hn Hi Hmax. exact (handle_requests_over gw 0 requests i r Hn Hi Hmax). Qed.

(** The destination a request names, for either kind of request *)
Definition request_authority (request : Request) : result GatewayError Authority :=
  if bool_decide (req_method request = "CONNECT") then
    _ ← reject_connect_body (req_headers request);
    value ← ok_or (InvalidHttpRequest "CONNECT requires authority-form target") (uri_authority (req_uri request));
    authority_parse value None
  else
    authority ← ordinary_authority (req_uri request);
    _ ← validate_host_header (req_headers request) authority;
    Ok authority.

Lemma handle_request_unfold gw w up count request a :
  count + 1 <= max_requests_per_connection (gw_config gw) -> count + 1 < 2 ^ 64 ->
  request_authority request = Ok a ->
  exists f, (handle_request gw w up count request).1 = answer (match connect gw w a with
    | (Ready x, l) => f x l
    | (o, l) => (stop_outcome o, only_dialled l)
    end).
Proof.
  intros Hmax Hn Ha. unfold request_authority in Ha. unfold handle_request. rewrite N.min_l by lia.
  rewrite (proj2 (N.ltb_ge _ _)) by lia. case_bool_decide; cbn [fst].
  - unfold handle_connect. rewrite Ha. eexists (fun _ l => _). done.
  - unfold forward. rewrite Ha. eexists (fun _ l => _). done.
Qed.

(** A destination the effective policy does not allow is answered with 403, for
    an ordinary request as for a CONNECT, and nothing is dialled for it. *)
Theorem http_refused (gw : GatewayInner) (w : World) (up : Upstream) (count : N) (request : Request) (a : Authority) :
  count + 1 <= max_requests_per_connection (gw_config gw) -> count + 1 < 2 ^ 64 ->
  request_authority request = Ok a ->
  effective_decision_for_domain (gw_policy gw) (host a) <> Ok NetAllow ->
  exists response, (handle_request gw w up count request).1 = (Ready response, no_effects) /\ status response = 403.
Proof.
  intros Hmax Hn Ha Hd. destruct (handle_request_unfold gw w up count request a) as [f ->]; try done.
  rewrite connect_refused by done.
  destruct (effective_decision_for_domain (gw_policy gw) (host a)) as [[]|]; try done; eexists; split; try reflexivity.
Qed.

End requests.

Section host_header.
Context {H : HttpAuthority} {HL : HttpAuthorityLaws H}.

(** The [Host] header that is sent on names the destination again, for host
    names and IPv4 addresses on any port, and for IPv6 addresses on any port
    but 80. *)
Theorem host_value_roundtrip (a : Authority) :
  0 < port a < 65536 ->
  (host a <> "" /\ str_all host_char (host a) = true) \/
  (exists x, ipv6_wf x /\ host a = ipv6_to_string x /\ port a <> 80) ->
  authority_parse (host_value a) (Some 80) = Ok a.
Proof.
  destruct a as [h p]. cbn [host port]. unfold host_value. cbn [host port]. intros Hp [[Hne Hh]|(x & Hx & -> & Hp80)].
  - assert (contains_char ":" h = false) as Hcolon by (by apply (str_all_contains host_char)).
    destruct (N.eqb_spec p 80) as [->|Hp80].
    + unfold authority_parse. rewrite (no_at_sign host_char) by done. rewrite from_str_bare by done.
      cbn [ok_or mbind result_bind option_bind N.eqb].
      assert (strip_prefix "[" h = None) as ->.
      { destruct (strip_prefix "[" h) as [r|] eqn:E; [|done]. apply strip_prefix_Some in E as ->.
        by rewrite str_all_app in Hh. }
      cbn [default option_bind]. by rewrite bool_decide_false.
    + rewrite Hcolon. pose proof (from_host_port_name h p Hne Hh Hp) as E. unfold from_host_port in E.
      rewrite bool_decide_false in E by done. rewrite (proj2 (N.eqb_neq p 0)) in E by lia. cbn [orb] in E.
      rewrite parse_ipv6_no_colon in E by done. rewrite bool_decide_false in E by (by intros []).
      by apply authority_parse_default.
  - rewrite (proj2 (N.eqb_neq p 80) Hp80).
    assert (contains_char ":" (ipv6_to_string x) = true) as ->.
    { destruct (contains_char ":" (ipv6_to_string x)) eqn:E; [done|].
      apply parse_ipv6_no_colon in E. by rewrite parse_ipv6_text in E. }
    pose proof (from_host_port_ipv6 x p Hx Hp) as E. unfold from_host_port in E.
    rewrite bool_decide_false in E by (intros E'; pose proof (parse_ipv6_text x Hx) as Hr; by rewrite E' in Hr).
    rewrite (proj2 (N.eqb_neq p 0)) in E by lia. cbn [orb] in E.
    rewrite parse_ipv6_text, bool_decide_true in E by (done || eauto). by apply authority_parse_default.
Qed.

(** On port 80 an IPv6 address is sent without its brackets, which is no
    [Host] header: the gateway itself reads the address on another port back
    but refuses this one. *)
Theorem ipv6_host_unbracketed :
  let a := {| host := "2001:db8::1"; port := 80 |} in
  authority_parse (H := plain_authority) "[2001:db8::1]" (Some 80) = Ok a /\
  host_value a = "2001:db8::1" /\
  authority_parse (H := plain_authority) (host_value a) (Some 80) = Err (InvalidAuthority "2001:db8::1").
Proof. vm_compute. tauto. Qed.

End host_header.

(** ** Idle connections *)

Lemma wait_until_idle_from idle_timeout events t : forall a,
  StronglySorted N.le (last_transfer a :: events.*1) ->
  wait_until_idle idle_timeout a events = Some t ->
  exists u, t = u + idle_timeout /\ last_transfer a <= u /\
    (armed a = true \/ exists v, v <= u /\ (v, Arm) ∈ events) /\
    (u = last_transfer a \/ exists e, (u, e) ∈ events) /\
    (forall v, (v, Transfer) ∈ events -> v <= t -> v <= u).
Proof.
  induction events as [|[v e] events IH]; intros a Hs Hw; cbn [wait_until_idle] in Hw.
  { destruct (armed a) eqn:Ha; [|done]. injection Hw as <-. exists (last_transfer a).
    split_and!; auto. intros v Hv. by apply not_elem_of_nil in Hv. }
  cbn [fmap list_fmap fst] in Hs. apply StronglySorted_inv in Hs as [Hs Hle].
  apply Forall_cons in Hle as [Hle Hle'].
  destruct (armed a && (last_transfer a + idle_timeout <? v)) eqn:Hb.
  - injection Hw as <-. bool_inv. exists (last_transfer a). split_and!; auto.
    intros v' Hv' Hle2. apply N.ltb_lt in H0. exfalso.
    apply elem_of_cons in Hv' as [[= -> _]|Hv']; [lia|].
    apply StronglySorted_inv in Hs as [_ Hall]. rewrite Forall_forall in Hall.
    pose proof (Hall v' (list_elem_of_fmap_2 fst _ _ Hv')). lia.
  - assert (last_transfer (on_activity a v e) = last_transfer a \/ last_transfer (on_activity a v e) = v) as Hlast
      by (destruct e; simpl; [unfold arm; destruct (armed a)|]; auto).
    assert (StronglySorted N.le (last_transfer (on_activity a v e) :: events.*1)) as Hs'.
    { destruct Hlast as [->| ->]; [|done]. constructor; [|done]. by apply StronglySorted_inv in Hs as [? _]. }
    destruct (IH _ Hs' Hw) as (u & -> & Hu & Harm & Hin & Hgap). exists u.
    assert (last_transfer a <= u) as Hau by (destruct Hlast as [E|E]; rewrite E in Hu; lia).
    split_and!; [done|done| | |].
    + destruct Harm as [Harm|(v' & ? & ?)]; [|right; exists v'; split; [done|by right]].
      destruct e; [|by left]. cbn [on_activity] in *. unfold arm in Harm, Hu.
      destruct (armed a); [by left|]. right. exists v. split; [exact Hu|by left].
    + destruct Hin as [->|[e' ?]]; [|right; exists e'; by right].
      destruct Hlast as [->| ->]; [by left|right; exists e; by left].
    + intros v' [[= <- <-]|Hv']%elem_of_cons Hle2; [exact Hu|by apply Hgap].
Qed.

(** The wait ends only for an armed connection, exactly one timeout after a
    transfer (or after the arming), and no transfer came in between. *)
Theorem http_idle_exact (idle_timeout start : N) (events : list (N * activity_event)) (t : N) :
  StronglySorted N.le (start :: events.*1) ->
  wait_until_idle idle_timeout (activity_new start) events = Some t ->
  exists u, t = u + idle_timeout /\ start <= u /\
    (exists v, v <= u /\ (v, Arm) ∈ events) /\
    (u = start \/ exists e, (u, e) ∈ events) /\
    (forall v, (v, Transfer) ∈ events -> v <= t -> v <= u).
Proof.
  intros Hs Hw. destruct (wait_until_idle_from _ _ _ (activity_new start) Hs Hw)
    as (u & ? & ? & [?|?] & ? & ?); [done|]. by exists u.
Qed.

(** * Examples *)

(** The tokens of RFC 9110 and visible ASCII *)
Definition token_char (a : ascii) : bool :=
  is_ascii_alphabetic a || is_ascii_digit a || contains_char a "!#$%&'*+-.^_`|~".
Definition visible_char (a : ascii) : bool := in_range 32 126 (byte_val a) || (byte_val a =? 9).

Definition plain_syntax : HttpSyntax := {|
  name_from_bytes s := if negb (bool_decide (s = "")) && str_all token_char s
                       then Some (to_ascii_lowercase s) else None;
  value_to_str v := if str_all visible_char v then Some v else None;
  value_from_str s := if str_all visible_char s then Some s else None;
  build_uri path := Some {| scheme := None; uri_authority := None; path_and_query := Some path |}
|}.

Lemma plain_syntax_laws : HttpSyntaxLaws plain_syntax.
Proof.
  split; simpl.
  - intros s name E. destruct (_ && _); [|done]. by injection E as <-.
  - intros v s E. destruct (str_all _ _); [|done]. by injection E as <-.
  - intros s v E. destruct (str_all _ _); [|done]. by injection E as <-.
  - intros path uri [= <-]. done.
Qed.

Section examples.
#[local] Existing Instance literal_globset.
#[local] Existing Instance ascii_unicode.
#[local] Existing Instance literal_wildmatch.
#[local] Existing Instance plain_authority.
#[local] Existing Instance plain_syntax.

Definition http_request (authority : string) : Request :=
  {| req_method := "GET"; req_version := 11;
     req_uri := {| scheme := Some "http"; uri_authority := Some authority; path_and_query := Some "/a?b" |};
     req_headers := [("host", authority); ("accept", "*/*"); ("connection", "X-Trace, close");
                     ("x-trace", "1"); ("proxy-authorization", "secret")] |}.

Definition http_upstream : Upstream :=
  {| client_handshake := {| latency := Some 1; value := Ok () |};
     respond := fun _ => {| latency := Some 1; value := Ok {| status := 200; resp_headers := [("te", "x")]; resp_body := "ok" |} |} |}.

Definition forwarded_request : Request :=
  {| req_method := "GET"; req_version := 11;
     req_uri := {| scheme := None; uri_authority := None; path_and_query := Some "/a?b" |};
     req_headers := [("accept", "*/*"); ("host", "example.com:443")] |}.

Definition forward_effects : Effects :=
  {| dialled := [other_address; example_address]; sent := Some forwarded_request;
     spawned := [DriveConnection]; armed_timer := true |}.

Lemma example_forwards :
  forward example_gateway example_world http_upstream (http_request "example.com:443")
  = (Ready {| status := 200; resp_headers := []; resp_body := "ok" |}, forward_effects).
Proof. by vm_compute. Qed.


Definition one_request_gateway : GatewayInner :=
  {| gw_policy := gw_policy example_gateway; gw_resolver := gw_resolver example_gateway;
     gw_config := with_max_requests_per_connection gateway_config_new 1; gw_ingress_key := example_key |}.

Definition two_requests : list (Request * World * Upstream) :=
  [(http_request "a", example_world, http_upstream); (http_request "a", example_world, http_upstream)].

Lemma http_request_limit_witness :
  exists r, handle_requests one_request_gateway 0 two_requests !! 1%nat = Some r /\ dialled r.2 = [].
Proof.
  destruct (handle_requests one_request_gateway 0 two_requests !! 1%nat) as [r|] eqn:E;
    [|vm_compute in E; discriminate E].
  exists r. split; [reflexivity|].
  rewrite (http_request_limit one_request_gateway two_requests 1 r eq_refl E); [reflexivity|by vm_compute].
Defined.

Lemma http_refused_witness :
  exists response, (handle_request example_gateway example_world http_upstream 0 (http_request "example.org")).1
                   = (Ready response, no_effects) /\ status response = 403.
Proof.
  apply (http_refused example_gateway example_world http_upstream 0 (http_request "example.org")
           {| host := "example.org"; port := 80 |}); [by vm_compute|reflexivity|by vm_compute|].
  assert (effective_decision_for_domain (gw_policy example_gateway) "example.org" = Ok NetDeny) as E by reflexivity.
  cbn [host]. rewrite E. discriminate.
Defined.

Lemma host_value_roundtrip_witness :
  authority_parse "[2001:db8::1]:8080" (Some 80) = Ok {| host := "2001:db8::1"; port := 8080 |}.
Proof.
  apply (host_value_roundtrip (HL := plain_authority_laws) {| host := "2001:db8::1"; port := 8080 |}); [simpl; lia|].
  right. exists (ipv6 0x2001 0xdb8 0 0 0 0 0 1). split_and!; [repeat constructor|reflexivity|discriminate].
Defined.

Lemma http_idle_exact_witness :
  exists u, 17 = u + 10 /\ u = 7.
Proof.
  assert (StronglySorted N.le [0; 2; 5; 7; 30]) as Hs by (repeat constructor; lia).
  destruct (http_idle_exact 10 0 [(2, Transfer); (5, Arm); (7, Transfer); (30, Transfer)] 17 Hs eq_refl) as (u & Hu & _).
  exists u. split; [exact Hu|lia].
Defined.

End examples.
