(* ===== verification/Gateway.v ===== *)
(** [cageforge-network-proxy/src/gateway.rs]: construction of a gateway and the
    service of one private ingress stream from authentication to the last dial. *)

From Stdlib Require Import Ascii String NArith Lia.
From stdpp Require Import base numbers option strings list.
From S2P Require Import Prelude Text IpAddr Access Domain NetPolicy Environment Compose Effective Requirements.
From S2P Require Import GatewayConfig GatewayError Authority Ingress Connect Relay Socks HttpProxy.

#[local] Open Scope N_scope.

(** What the other side of an authenticated stream does: the world the outbound
    path meets, the tunnel of a SOCKS client, and what [hyper] reads. *)
Record Peer := { peer_world : World; peer_events : list relay_event; peer_http : HttpScript }.

Section gateway.
Context {H : HttpAuthority} {X : HttpSyntax} {U : Unicode} {G : Globset}.

(** The shared part of a gateway and the permits its semaphore starts with *)
Record NetworkGateway := { inner : GatewayInner; connections : N }.

(** [NetworkGateway::new]; [fill] is what [getrandom] gives. *)
Definition gateway_new (policy : EffectiveNetworkPolicy) (resolver : Resolver) (config : GatewayConfig)
    (fill : result cause string) : result GatewayError NetworkGateway :=
  _ ← match nreq_mode (network_requirements policy) with
      | NetDisabled => Err (UnsupportedPolicy DisabledMode)
      | NetExternal => Err (UnsupportedPolicy ExternalMode)
      | NetEnabled => Ok ()
      end;
  ingress_key ← generate fill;
  Ok {| inner := {| gw_policy := policy; gw_resolver := resolver; gw_config := config;
                    gw_ingress_key := ingress_key |};
        connections := max_concurrent_connections config |}.

(** [NetworkGateway::with_system_resolver]; [lookup] is the system resolver, if
    it could be built. *)
Definition with_system_resolver (policy : EffectiveNetworkPolicy) (config : GatewayConfig)
    (lookup : result cause (string -> Future (result cause (list IpAddr)))) (fill : result cause string) :
  result GatewayError NetworkGateway :=
  lookup_ip ← map_err ResolverInitialization lookup;
  gateway_new policy (system_resolve lookup_ip) config fill.

(** A connection without a key is closed before anything is read. *)
Definition NO_PROTOCOL : cause := "authenticated ingress closed before protocol negotiation".

(** The first protocol byte, behind the authentication *)
Definition open_protocol (gw : GatewayInner) : task ascii :=
  _ ← with_timeout HandshakeTimedOut (verify (gw_ingress_key gw));
  first ← with_timeout HandshakeTimedOut peek;
  match first with
  | Some first => mret first
  | None => fail (GwIo NO_PROTOCOL)
  end.

Definition is_panic {A} (o : outcome A) : bool := match o with Panicked => true | _ => false end.

(** One connection, with the addresses dialled for it; [permit] says whether the
    semaphore had one left. *)
Definition serve_connection (gw : GatewayInner) (permit : bool) (p : Peer) (s : Stream) :
  outcome unit * Stream * list SocketAddr :=
  if negb permit then (Failed ConnectionLimitReached, s, [])
  else
    match open_protocol gw s with
    | (Ready first, s1) =>
        if byte_val first =? 0x05 then socks_serve gw (peer_world p) (peer_events p) s1
        else
          let '(result, handled) := http_serve gw (peer_http p) in
          (if existsb (fun h => is_panic h.1) handled then Panicked
           else match result with Ok _ => Ready () | Err e => Failed e end,
           s1, concat ((fun h => dialled h.2) <$> handled))
    | (o, s1) => (stop_outcome o, s1, [])
    end.

End gateway.

(** * One connection, end to end *)

Section service.
Context {H : HttpAuthority} {X : HttpSyntax} {U : Unicode} {G : Globset} {W : WildMatch}.

(** Only an enabled policy gets a gateway: both policies it was composed of
    enforce networking locally, its permits are the configured number, and
    without randomness there is no gateway. *)
Theorem gateway_new_enabled (policy : EffectiveNetworkPolicy) (resolver : Resolver) (config : GatewayConfig)
    (fill : result cause string) :
  match gateway_new policy resolver config fill with
  | Ok g => net_mode (net_requested policy) = NetEnabled /\ net_mode (net_ceiling policy) = NetEnabled /\
      gw_policy (inner g) = policy /\ connections g = max_concurrent_connections config /\
      fill = Ok (key_bytes (gw_ingress_key (inner g)))
  | Err (UnsupportedPolicy ExternalMode) =>
      net_mode (net_requested policy) = NetExternal /\ net_mode (net_ceiling policy) = NetExternal
  | Err (UnsupportedPolicy DisabledMode) =>
      net_mode (net_requested policy) <> NetEnabled \/ net_mode (net_ceiling policy) <> NetEnabled
  | Err e => exists source, fill = Err source /\ e = AuthenticationKeyGeneration source
  end.
Proof.
  unfold gateway_new. cbn [network_requirements nreq_mode].
  destruct (net_mode (net_requested policy)), (net_mode (net_ceiling policy)); simpl;
    try (by left); try (by right); try done; destruct fill as [key|source]; simpl; eauto.
Qed.

Lemma open_protocol_Ready gw s first s1 :
  String.length (key_bytes (gw_ingress_key gw)) = KEY_BYTES ->
  open_protocol gw s = (Ready first, s1) ->
  exists rest, input s = MAGIC +:+ key_bytes (gw_ingress_key gw) +:+ String first rest /\ input s1 = String first rest.
Proof.
  intros Hk. unfold open_protocol. intros ([] & s2 & Hv & Hp)%task_bind_Ready.
  apply with_timeout_Ready, verify_Ready in Hv as (Hi & _); [|done].
  apply task_bind_Ready in Hp as (o & s3 & Hp & Hr). apply with_timeout_Ready in Hp.
  unfold peek in Hp. destruct (input s2) as [|a rest] eqn:E.
  - destruct (input_end s2); try done. by injection Hp as <- <-.
  - injection Hp as <- <-. unfold mret, task_ret in Hr. injection Hr as <- <-. exists rest.
    by rewrite Hi, E.
Qed.

Lemma http_serve_handled gw c : (http_serve gw c).2 = handle_requests gw 0 (requests c).
Proof. unfold http_serve. by destruct (idle_first c). Qed.

(** C3. Nothing leaves a sandbox that its policies do not allow.  For every stream a
    client writes and everything its peers do, over SOCKS5 as over HTTP: an
    address is dialled only on a connection that holds a permit and opened with
    this gateway's authentication frame, and every dialled address is safe for
    both policies the gateway's policy was composed of. *)
Theorem serve_connection_safe (r : CompositionRequest) (gw : GatewayInner) (permit : bool) (p : Peer) (s : Stream) :
  gateway_of r gw -> String.length (key_bytes (gw_ingress_key gw)) = KEY_BYTES ->
  forall x, x ∈ (serve_connection gw permit p s).2 ->
  permit = true /\
  (exists rest, input s = MAGIC +:+ key_bytes (gw_ingress_key gw) +:+ rest /\ rest <> "") /\
  exists a, dial_safe r a x.
Proof.
  intros Hgw Hk x Hx. unfold serve_connection in Hx. destruct permit; [|by apply not_elem_of_nil in Hx]. cbn [negb] in Hx.
  destruct (open_protocol gw s) as [[first|e| |] s1] eqn:Ho; try (by apply not_elem_of_nil in Hx).
  destruct (open_protocol_Ready _ _ _ _ Hk Ho) as (rest & Hi & _).
  assert (forall w a, x ∈ (connect gw w a).2 -> exists a, dial_safe r a x) as Hsafe.
  { intros w a Hin. exists a. destruct (connect gw w a) as [o l] eqn:E.
    destruct (connect_dials_safe _ _ _ _ _ _ Hgw E) as (_ & _ & Hd). by apply Hd. }
  split; [done|]. split; [by exists (String first rest)|].
  destruct (byte_val first =? 5).
  - destruct (socks_serve_dials gw (peer_world p) (peer_events p) s1) as [E|[a E]]; rewrite E in Hx;
      [by apply not_elem_of_nil in Hx|by eapply Hsafe].
  - pose proof (http_serve_handled gw (peer_http p)) as Hh.
    destruct (http_serve gw (peer_http p)) as [result handled]. cbn [snd] in Hh, Hx. subst handled.
    apply list_elem_of_In, in_concat in Hx as (l & Hl & Hx). apply list_elem_of_In in Hl, Hx.
    apply list_elem_of_fmap in Hl as (h & -> & Hin).
    destruct (handle_requests_dials _ _ _ _ Hin) as [E|(w & a & E)]; rewrite E in Hx;
      [by apply not_elem_of_nil in Hx|by eapply Hsafe].
Qed.

End service.

(** * Examples *)

Section examples.
#[local] Existing Instance literal_globset.
#[local] Existing Instance ascii_unicode.
#[local] Existing Instance literal_wildmatch.
#[local] Existing Instance plain_authority.
#[local] Existing Instance plain_syntax.

Definition example_peer : Peer :=
  {| peer_world := example_world; peer_events := [];
     peer_http := {| requests := []; connection_result := Ok (); task_results := []; idle_first := false |} |}.

(** A SOCKS client of the example gateway that asks for the allowed host. *)
Definition ingress_stream : Stream :=
  {| input := MAGIC +:+ key_bytes example_key +:+ encode_request (bytes [NO_AUTH]) (SocksDomain "example.com") 443;
     input_end := Stall; output := ""; writes := [] |}.

Lemma serve_connection_safe_witness : exists a, dial_safe network_request a example_address.
Proof.
  apply (serve_connection_safe network_request example_gateway true example_peer ingress_stream
           example_gateway_of eq_refl example_address).
  assert ((serve_connection example_gateway true example_peer ingress_stream).2 = [other_address; example_address])
    as -> by (by vm_compute).
  right. left.
Defined.
End examples.
