(* ===== verification/ConfigError.v ===== *)
(** [cageforge-config]: the typed errors of a configuration and the source
    context attached to them ([error.rs]). *)

From Stdlib Require Import Ascii String NArith Lia.
From stdpp Require Import base option strings list.
From S2P Require Import Prelude Text NativePath Access Environment GatewayConfig Permissions.

Record SourceLocation := {
  sl_line : nat;
  sl_column : nat;
  sl_offset : nat;
  sl_length : nat
}.

Record ConfigErrorContext := {
  cx_config_path : option path;
  cx_platform : option PlatformId;
  cx_location : option SourceLocation
}.

#[global] Instance SourceLocation_eq_dec : EqDecision SourceLocation.
Proof. solve_decision. Defined.
#[global] Instance ConfigErrorContext_eq_dec : EqDecision ConfigErrorContext.
Proof. solve_decision. Defined.

(** The variants of [ConfigError] without the [context] field all of them
    carry. *)
Inductive ConfigErrorKind :=
  | InvalidToml (message : string) (location : option SourceLocation)
  | ReadFile (p : path) (message : string)
  | InvalidProfileName (name : string)
  | UnknownProfile (name : string)
  | NoDefaultProfile
  | ResolutionInvariant (message : string)
  | ProfileCycle (chain : list string)
  | InvalidValue (profile field value : string)
  | MissingCommandProgram (profile : string)
  | EPolicy (profile : string) (source : PolicyError)
  | ECommand (profile : string) (source : CommandError)
  | ENetworkGateway (profile : string) (source : GatewayConfigError).

Record ConfigError := { ce_kind : ConfigErrorKind; ce_context : option ConfigErrorContext }.

(** A variant with [context: None] *)
Definition bare (k : ConfigErrorKind) : ConfigError := {| ce_kind := k; ce_context := None |}.

Definition invalid_value (profile field value : string) : ConfigError :=
  bare (InvalidValue profile field value).

Definition profile_field (e : ConfigError) : option string * option string :=
  match ce_kind e with
  | InvalidToml _ _ | ReadFile _ _ => (None, None)
  | InvalidProfileName name => (Some name, None)
  | UnknownProfile name => (Some name, None)
  | NoDefaultProfile => (None, None)
  | ResolutionInvariant _ => (None, None)
  | ProfileCycle chain => (head chain, Some "inherits")
  | InvalidValue profile field _ => (Some profile, Some field)
  | MissingCommandProgram profile => (Some profile, Some "command.program")
  | EPolicy profile _ => (Some profile, Some "filesystem")
  | ECommand profile _ => (Some profile, Some "command")
  | ENetworkGateway profile _ => (Some profile, Some "network.gateway")
  end.

(** [if incoming.is_some() { result = incoming; }] *)
Definition replace_present {A} (current incoming : option A) : option A :=
  match incoming with Some _ => incoming | None => current end.

Definition empty_context : ConfigErrorContext :=
  {| cx_config_path := None; cx_platform := None; cx_location := None |}.

(** The [merge] inside [ConfigError::with_context] *)
Definition merge_context (existing : option ConfigErrorContext) (incoming : ConfigErrorContext) :
  option ConfigErrorContext :=
  let base := default empty_context existing in
  let r := {| cx_config_path := replace_present (cx_config_path base) (cx_config_path incoming);
              cx_platform := replace_present (cx_platform base) (cx_platform incoming);
              cx_location := replace_present (cx_location base) (cx_location incoming) |} in
  if bool_decide (is_Some (cx_config_path r)) || bool_decide (is_Some (cx_platform r))
     || bool_decide (is_Some (cx_location r))
  then Some r else None.

Definition with_context (e : ConfigError) (context : ConfigErrorContext) : ConfigError :=
  {| ce_kind := ce_kind e; ce_context := merge_context (ce_context e) context |}.

(** * Lemmas *)

Lemma replace_present_assoc {A} (x y z : option A) :
  replace_present (replace_present x y) z = replace_present x (replace_present y z).
Proof. by destruct z. Qed.

Lemma replace_present_None {A} (x : option A) : replace_present None x = x.
Proof. by destruct x. Qed.

(** What a context says of a field after a merge. *)
Lemma merge_context_fields existing incoming :
  let r := default empty_context (merge_context existing incoming) in
  let b := default empty_context existing in
  cx_config_path r = replace_present (cx_config_path b) (cx_config_path incoming) /\
  cx_platform r = replace_present (cx_platform b) (cx_platform incoming) /\
  cx_location r = replace_present (cx_location b) (cx_location incoming).
Proof.
  unfold merge_context. simpl. destruct (default empty_context existing) as [p m l].
  destruct incoming as [p' m' l']. simpl.
  destruct (replace_present p p'), (replace_present m m'), (replace_present l l'); done.
Qed.
