(* ===== verification/ConfigModel.v ===== *)
(** [cageforge-config]: the deserialized TOML document ([model.rs]).  Fields of
    the source keep their names behind a prefix for their structure. *)

From Stdlib Require Import Ascii String NArith Lia.
From stdpp Require Import base option strings list.
From S2P Require Import Prelude Text BTree Permissions.

Inductive RawFilesystemMode := RawRestricted | RawUnrestricted | RawExternal.

Inductive RawFilesystemTarget :=
  | RTAbsolute | RTWorkspace | RTWorkspaceRoot | RTRoot | RTMinimal | RTTmpdir | RTSlashTmp
  | RTAbsoluteGlob | RTWorkspaceGlob.

Inductive RawAccessMode := RawRead | RawWrite | RawDeny.
Inductive RawNetworkMode := RawNetDisabled | RawNetEnabled | RawNetExternal.
Inductive RawDomainMode := RawDomDisabled | RawDomEnabled | RawDomRestricted.
Inductive RawUnixSocketMode := RawUnixDisabled | RawUnixEnabled | RawUnixRestricted.
Inductive RawLocalNetworkAccess := RawLocalAllow | RawLocalDeny.
Inductive RawDomainAccess := RawAllow | RawDenyDomain.
Inductive RawEnvironmentBase := RawAll | RawCore | RawNone.
Inductive RawEnvironmentFilterAction := RawInclude | RawExclude.
Inductive RawStdioMode := RawInherit | RawNull | RawPipe.
Inductive RawTimeoutMode := RawBackendDefault | RawLimit | RawDisabled.
Inductive RawMissingPathBehavior := RawError | RawSkip.

#[global] Instance RawFilesystemMode_eq_dec : EqDecision RawFilesystemMode.
Proof. solve_decision. Defined.
#[global] Instance RawFilesystemTarget_eq_dec : EqDecision RawFilesystemTarget.
Proof. solve_decision. Defined.
#[global] Instance RawNetworkMode_eq_dec : EqDecision RawNetworkMode.
Proof. solve_decision. Defined.

(** The derived [Debug] of [RawFilesystemTarget] *)
Definition target_debug (t : RawFilesystemTarget) : string :=
  match t with
  | RTAbsolute => "Absolute" | RTWorkspace => "Workspace" | RTWorkspaceRoot => "WorkspaceRoot"
  | RTRoot => "Root" | RTMinimal => "Minimal" | RTTmpdir => "Tmpdir" | RTSlashTmp => "SlashTmp"
  | RTAbsoluteGlob => "AbsoluteGlob" | RTWorkspaceGlob => "WorkspaceGlob"
  end.

Record RawRuntime := { rr_executable_roots : list string }.

Record RawApproval := {
  ra_mode : option PermissionMode;
  ra_timeout_ms : option N;
  ra_on_timeout : option ApprovalTimeoutAction;
  ra_persistence : option ApprovalPersistence
}.

Record RawFilesystemSecurity := { rs_dangerously_allow_git_write : option bool }.

Record RawSelector := { sel_target : RawFilesystemTarget; sel_path : option string }.

Record RawFilesystemRule := {
  rule_target : RawFilesystemTarget;
  rule_path : option string;
  rule_pattern : option string;
  rule_access : RawAccessMode;
  rule_missing_path : option RawMissingPathBehavior;
  rule_read_only_subpaths : list RawSelector
}.

Record RawFilesystem := {
  rf_mode : option RawFilesystemMode;
  rf_glob_scan_max_depth : option N;
  rf_additional_protected_paths : list string;
  rf_security : option RawFilesystemSecurity;
  rf_rules : list RawFilesystemRule
}.

Inductive RawRelayByteLimitMode := RawUnlimited.
Inductive RawRelayByteLimit := RawBytes (n : N) | RawMode (m : RawRelayByteLimitMode).

Record RawGatewayConfig := {
  rg_handshake_timeout_ms : option N;
  rg_dns_timeout_ms : option N;
  rg_connect_timeout_ms : option N;
  rg_response_header_timeout_ms : option N;
  rg_relay_idle_timeout_ms : option N;
  rg_max_concurrent_connections : option N;
  rg_max_requests_per_connection : option N;
  rg_max_resolved_addresses : option N;
  rg_http_header_bytes : option N;
  rg_relay_byte_limit : option RawRelayByteLimit
}.

Record RawDomainRule := { rd_pattern : string; rd_access : RawDomainAccess }.
Record RawUnixSocketRule := { ru_path : string; ru_access : RawDomainAccess }.

Record RawNetwork := {
  rn_mode : option RawNetworkMode;
  rn_domain_mode : option RawDomainMode;
  rn_unix_socket_mode : option RawUnixSocketMode;
  rn_local_network_access : option RawLocalNetworkAccess;
  rn_gateway : option RawGatewayConfig;
  rn_domains : list RawDomainRule;
  rn_unix_sockets : list RawUnixSocketRule
}.

Record RawLocalIpc := { rl_unix_sockets : list string; rl_named_pipes : list string }.

Record RawEnvironment := {
  re_inherit : option RawEnvironmentBase;
  re_filters : BTreeMap string RawEnvironmentFilterAction;
  re_set : BTreeMap string string;
  re_remove : list string
}.

Record RawStdio := {
  rio_stdin : option RawStdioMode;
  rio_stdout : option RawStdioMode;
  rio_stderr : option RawStdioMode
}.

Record RawTimeout := { rt_mode : option RawTimeoutMode; rt_milliseconds : option N }.

Record RawCommand := {
  rcm_program : option string;
  rcm_args : option (list string);
  rcm_working_directory : option string;
  rcm_environment : option RawEnvironment;
  rcm_stdio : option RawStdio;
  rcm_timeout : option RawTimeout
}.

Record RawPlatformProfile := {
  rpp_description : option string;
  rpp_workspace_roots : BTreeMap string bool;
  rpp_filesystem : option RawFilesystem;
  rpp_network : option RawNetwork;
  rpp_local_ipc : option RawLocalIpc;
  rpp_command : option RawCommand;
  rpp_approval : option RawApproval;
  rpp_runtime : option RawRuntime
}.

(** The derived order of [PlatformId] *)
Definition platform_index (p : PlatformId) : N :=
  match p with Linux => 0 | Macos => 1 | Windows => 2 end.

#[global] Instance ord_platform : Ord PlatformId := fun p q => cmp (platform_index p) (platform_index q).
#[global] Instance ord_platform_laws : OrdLaws PlatformId.
Proof. exact (pullback_laws platform_index). Qed.
#[global] Instance ord_platform_leibniz : OrdLeibniz PlatformId.
Proof. by intros [] []. Qed.

Record RawProfile := {
  rp_description : option string;
  rp_inherits : list string;
  rp_workspace_roots : BTreeMap string bool;
  rp_filesystem : option RawFilesystem;
  rp_network : option RawNetwork;
  rp_local_ipc : option RawLocalIpc;
  rp_command : option RawCommand;
  rp_approval : option RawApproval;
  rp_runtime : option RawRuntime;
  rp_platforms : BTreeMap PlatformId RawPlatformProfile
}.

Record RawConfig := {
  rc_default_profile : option string;
  rc_profiles : BTreeMap string RawProfile
}.

(** * [Default] *)

Definition default_filesystem : RawFilesystem := {|
  rf_mode := None; rf_glob_scan_max_depth := None; rf_additional_protected_paths := [];
  rf_security := None; rf_rules := []
|}.

Definition default_security : RawFilesystemSecurity := {| rs_dangerously_allow_git_write := None |}.

Definition default_network : RawNetwork := {|
  rn_mode := None; rn_domain_mode := None; rn_unix_socket_mode := None;
  rn_local_network_access := None; rn_gateway := None; rn_domains := []; rn_unix_sockets := []
|}.

Definition default_local_ipc : RawLocalIpc := {| rl_unix_sockets := []; rl_named_pipes := [] |}.

Definition default_gateway : RawGatewayConfig := {|
  rg_handshake_timeout_ms := None; rg_dns_timeout_ms := None; rg_connect_timeout_ms := None;
  rg_response_header_timeout_ms := None; rg_relay_idle_timeout_ms := None;
  rg_max_concurrent_connections := None; rg_max_requests_per_connection := None;
  rg_max_resolved_addresses := None; rg_http_header_bytes := None; rg_relay_byte_limit := None
|}.

Definition default_environment : RawEnvironment :=
  {| re_inherit := None; re_filters := []; re_set := []; re_remove := [] |}.

Definition default_stdio : RawStdio := {| rio_stdin := None; rio_stdout := None; rio_stderr := None |}.

Definition default_timeout : RawTimeout := {| rt_mode := None; rt_milliseconds := None |}.

Definition default_command : RawCommand := {|
  rcm_program := None; rcm_args := None; rcm_working_directory := None; rcm_environment := None;
  rcm_stdio := None; rcm_timeout := None
|}.

Definition default_approval : RawApproval :=
  {| ra_mode := None; ra_timeout_ms := None; ra_on_timeout := None; ra_persistence := None |}.

Definition default_runtime : RawRuntime := {| rr_executable_roots := [] |}.

Definition empty_profile : RawProfile := {|
  rp_description := None; rp_inherits := []; rp_workspace_roots := []; rp_filesystem := None;
  rp_network := None; rp_local_ipc := None; rp_command := None; rp_approval := None;
  rp_runtime := None; rp_platforms := []
|}.

(** [u64] fields hold machine words. *)
Definition fits_u64 (o : option N) : Prop := match o with Some n => (n < 2 ^ 64)%N | None => True end.
