(* ===== verification/ConfigGraph.v ===== *)
(** [cageforge-config]: the iterative walk over the inheritance graph that
    orders the profiles to merge (the loop of [Config::resolve_raw]).  It is
    related to the recursive post-order of the graph, and shown to end within
    one iteration per profile and inheritance edge. *)

From Stdlib Require Import Ascii String NArith Lia.
From stdpp Require Import base option strings gmap sets relations list.
From S2P Require Import Prelude Text BTree ConfigError ConfigModel.

Section graph.
Context (profiles : BTreeMap string RawProfile).

(** The locals of the loop.  [frames] holds the name and the [next_parent] of
    every [ResolveFrame], the top of the stack first. *)
Record Resolver := {
  frames : list (string * nat);
  active : gmap string nat;
  active_names : list string;
  completed : gset string;
  order : list string
}.

(** The outcome of one iteration.  [Panicked] stands for an index out of
    bounds. *)
Inductive Iteration :=
  | Continue (st : Resolver)
  | Break (order : list string)
  | Fail (e : ConfigError)
  | Panicked.

Definition resolve_iteration (st : Resolver) : Iteration :=
  match frames st with
  | [] => Panicked
  | (frame_name, next_parent) :: rest =>
      match bt_get frame_name profiles with
      | None => Fail (bare (UnknownProfile frame_name))
      | Some profile =>
          match rp_inherits profile !! next_parent with
          | Some parent_name =>
              let advanced := (frame_name, S next_parent) :: rest in
              if bool_decide (parent_name ∈ completed st)
              then Continue {| frames := advanced; active := active st;
                               active_names := active_names st; completed := completed st;
                               order := order st |}
              else match active st !! parent_name with
              | Some start =>
                  if (length (active_names st) <? start)%nat then Panicked
                  else Fail (bare (ProfileCycle (drop start (active_names st) ++ [parent_name])))
              | None =>
                  match bt_get parent_name profiles with
                  | None => Fail (bare (UnknownProfile parent_name))
                  | Some _ =>
                      Continue {| frames := (parent_name, 0) :: advanced;
                                  active := <[parent_name := length (active_names st)]> (active st);
                                  active_names := active_names st ++ [parent_name];
                                  completed := completed st; order := order st |}
                  end
              end
          | None =>
              let order' := order st ++ [frame_name] in
              match rest with
              | [] => Break order'
              | _ => Continue {| frames := rest; active := delete frame_name (active st);
                                 active_names := take (length (active_names st) - 1) (active_names st);
                                 completed := {[frame_name]} ∪ completed st; order := order' |}
              end
          end
      end
  end.

(** [loop { … }], for at most [fuel] iterations. *)
Fixpoint resolve_loop (fuel : nat) (st : Resolver) : option Iteration :=
  match fuel with
  | 0 => None
  | S fuel' =>
      match resolve_iteration st with
      | Continue st' => resolve_loop fuel' st'
      | stop => Some stop
      end
  end.

Definition resolver_start (name : string) : Resolver := {|
  frames := [(name, 0)]; active := {[name := 0]}; active_names := [name]; completed := ∅; order := []
|}.

(** The iterations the frame of a profile takes: one for each parent, one to
    complete it. *)
Definition weight (n : string) : nat :=
  match bt_get n profiles with Some p => S (length (rp_inherits p)) | None => 1 end.

Definition resolve_fuel : nat := S (sum_list_with weight profiles.*1).

(** The order in which [resolve_raw] merges profiles, up to its [break]. *)
Definition resolve_order (name : string) : option Iteration :=
  match bt_get name profiles with
  | None => Some (Fail (bare (UnknownProfile name)))
  | Some _ => resolve_loop resolve_fuel (resolver_start name)
  end.

(** * The graph *)

(** [extends c p]: the profile [c] lists [p] among its parents. *)
Definition extends (c p : string) : Prop :=
  exists profile, bt_get c profiles = Some profile /\ p ∈ rp_inherits profile.

Definition inherits_from : string -> string -> Prop := rtc extends.

(** The recursive post-order: parents first, from left to right, each profile
    at its first visit only. *)
Inductive visit : list string -> string -> list string -> Prop :=
  | visit_done done n : n ∈ done -> visit done n done
  | visit_profile done n profile done' :
      n ∉ done -> bt_get n profiles = Some profile ->
      visit_all done (rp_inherits profile) done' -> visit done n (done' ++ [n])
with visit_all : list string -> list string -> list string -> Prop :=
  | visit_nil done : visit_all done [] done
  | visit_cons done n ns done1 done2 :
      visit done n done1 -> visit_all done1 ns done2 -> visit_all done (n :: ns) done2.

Lemma visit_all_snoc done ns done1 n done2 :
  visit_all done ns done1 -> visit done1 n done2 -> visit_all done (ns ++ [n]) done2.
Proof.
  induction 1 as [|d m ms d1 d2 Hm _ IH]; simpl; intros Hn.
  - econstructor; [exact Hn|constructor].
  - econstructor; [exact Hm|auto].
Qed.

Scheme visit_ind2 := Induction for visit Sort Prop
with visit_all_ind2 := Induction for visit_all Sort Prop.
Combined Scheme visit_visit_all_ind from visit_ind2, visit_all_ind2.

Lemma visit_extends :
  (forall done n done', visit done n done' -> n ∈ done' /\ done ⊆ done') /\
  (forall done ns done', visit_all done ns done' -> ns ⊆ done' /\ done ⊆ done').
Proof. apply visit_visit_all_ind; set_solver. Qed.

(** * The invariant *)

(** The stack is a branch of the recursion: below the top, a frame waits for
    the visit of the frame above it. *)
Inductive branch (root : string) : list (string * nat) -> list string -> Prop :=
  | branch_root k profile done :
      bt_get root profiles = Some profile -> k <= length (rp_inherits profile) ->
      visit_all [] (take k (rp_inherits profile)) done ->
      branch root [(root, k)] done
  | branch_push m j rest done0 child n k profile done :
      branch root ((m, j) :: rest) done0 ->
      bt_get m profiles = Some child -> rp_inherits child !! j = Some n ->
      n ∉ done0 -> bt_get n profiles = Some profile -> k <= length (rp_inherits profile) ->
      visit_all done0 (take k (rp_inherits profile)) done ->
      branch root ((n, k) :: (m, S j) :: rest) done.

Definition topological (l : list string) : Prop :=
  forall l1 n l2, l = l1 ++ n :: l2 ->
    exists profile, bt_get n profiles = Some profile /\ forall p, p ∈ rp_inherits profile -> p ∈ l1.

Record resolver_ok (root : string) (st : Resolver) : Prop := {
  ok_branch : branch root (frames st) (order st);
  ok_names : active_names st = reverse (frames st).*1;
  ok_active n i : active st !! n = Some i <-> active_names st !! i = Some n;
  ok_completed n : n ∈ completed st <-> n ∈ order st;
  ok_disjoint n : n ∈ active_names st -> n ∉ order st;
  ok_topological : topological (order st);
  ok_nodup : NoDup (order st);
  ok_reach n : n ∈ order st \/ n ∈ active_names st -> inherits_from root n
}.

Lemma branch_advance root n k rest done profile p done' :
  branch root ((n, k) :: rest) done -> bt_get n profiles = Some profile ->
  rp_inherits profile !! k = Some p -> visit done p done' -> branch root ((n, S k) :: rest) done'.
Proof.
  intros Hb Hn Hk Hv. apply lookup_lt_Some in Hk as Hlt. inversion Hb; subst; simplify_eq.
  - econstructor; [done..|]. rewrite (take_S_r _ _ p) by done. by eapply visit_all_snoc.
  - econstructor; [done..|]. rewrite (take_S_r _ _ p) by done. by eapply visit_all_snoc.
Qed.

Lemma branch_enter root n k rest done profile p parent :
  branch root ((n, k) :: rest) done -> bt_get n profiles = Some profile ->
  rp_inherits profile !! k = Some p -> p ∉ done -> bt_get p profiles = Some parent ->
  branch root ((p, 0) :: (n, S k) :: rest) done.
Proof. intros. econstructor; [done..|lia|]. rewrite take_0. constructor. Qed.

(** Completing the top frame completes the visit its parent frame waits for. *)
Lemma branch_complete root n k rest done profile :
  branch root ((n, k) :: rest) done -> bt_get n profiles = Some profile ->
  rp_inherits profile !! k = None ->
  match rest with
  | [] => n = root /\ visit [] root (done ++ [n])
  | _ => branch root rest (done ++ [n])
  end.
Proof.
  intros Hb Hn Hk. apply lookup_ge_None in Hk. inversion Hb; subst; simplify_eq.
  - split; [done|]. econstructor; [apply not_elem_of_nil|done|]. by rewrite take_ge in * by done.
  - eapply branch_advance; [done..|]. econstructor; [done..|]. by rewrite take_ge in * by done.
Qed.

Lemma branch_known root fs done n : branch root fs done -> n ∈ fs.*1 -> is_Some (bt_get n profiles).
Proof.
  induction 1 as [k profile done Hr _ _|m j rest done0 child n' k profile done Hb IH Hm _ _ Hn _ _]; simpl.
  - intros ->%list_elem_of_singleton. eauto.
  - intros [->|H]%elem_of_cons; [eauto|]. by apply IH.
Qed.

(** A branch is a path of the graph from the root. *)
Lemma branch_path root fs done :
  branch root fs done ->
  let l := reverse fs.*1 in
  l !! 0 = Some root /\ forall i x y, l !! i = Some x -> l !! S i = Some y -> extends x y.
Proof.
  induction 1 as [k profile done Hr _ _|m j rest done0 child n k profile done Hb [IH0 IH] Hm Hj _ Hn _ _].
  - split; [done|]. intros [|i] x y; simpl; [|by rewrite lookup_nil]. done.
  - cbn [fmap list_fmap fst] in *. rewrite !reverse_cons in *. set (l := reverse rest.*1 ++ [m]) in *.
    split; [by apply lookup_app_l_Some|]. intros i x y Hx Hy.
    apply lookup_app_Some in Hy as [Hy|[Hi Hy]].
    + apply (IH i); [|done]. rewrite lookup_app_l in Hx; [done|].
      apply lookup_lt_Some in Hy. lia.
    + assert (S i = length l) as Hl. { apply lookup_lt_Some in Hy. simpl in Hy. lia. }
      rewrite Hl, Nat.sub_diag in Hy. injection Hy as <-.
      rewrite lookup_app_l in Hx by lia.
      unfold l in Hx, Hl. rewrite length_app in Hl. simpl in Hl.
      replace i with (length (reverse rest.*1)) in Hx by lia.
      rewrite list_lookup_middle in Hx by done. injection Hx as <-.
      exists child. split; [done|]. by eapply list_elem_of_lookup_2.
Qed.

Lemma topological_snoc l n profile :
  topological l -> bt_get n profiles = Some profile -> (forall p, p ∈ rp_inherits profile -> p ∈ l) ->
  topological (l ++ [n]).
Proof.
  intros Hl Hn Hp l1 m l2 Heq. destruct l2 as [|x l2 _] using rev_ind.
  - apply app_inj_tail in Heq as [-> ->]. eauto.
  - rewrite app_comm_cons, app_assoc in Heq. apply app_inj_tail in Heq as [-> _]. by eapply Hl.
Qed.

(** A topological list is closed under inheritance, and what it holds lies on
    no cycle. *)
Lemma topological_closed l n p : topological l -> n ∈ l -> extends n p -> p ∈ l.
Proof.
  intros Hl Hn (profile & Hg & Hp). apply list_elem_of_split in Hn as (l1 & l2 & ->).
  destruct (Hl l1 n l2) as (profile' & Hg' & H); [done|]. simplify_eq. set_solver.
Qed.

Lemma topological_reach l n p : topological l -> n ∈ l -> inherits_from n p -> p ∈ l.
Proof.
  intros Hl Hn H. revert Hn. induction H as [|x y z Hxy _ IH]; intros Hx; [done|].
  apply IH. by eapply topological_closed.
Qed.

Lemma topological_index l i n p :
  topological l -> l !! i = Some n -> tc extends n p -> exists j, j < i /\ l !! j = Some p.
Proof.
  intros Hl Hi H. revert i Hi.
  assert (forall i x y, l !! i = Some x -> extends x y -> exists j, j < i /\ l !! j = Some y) as Hstep.
  { intros i x y Hi (profile & Hx & Hy). apply take_drop_middle in Hi as Heq. symmetry in Heq.
    destruct (Hl _ _ _ Heq) as (profile' & Hx' & H'). simplify_eq.
    apply H' in Hy as (j & Hj)%list_elem_of_lookup_1. apply lookup_take_Some in Hj as [? ?]. eauto. }
  induction H as [x y Hxy|x y z Hxy _ IH]; intros i Hi; [eauto|].
  destruct (Hstep i x y Hi Hxy) as (j & Hj & Hy). destruct (IH j Hy) as (k & Hk & ?). exists k. split; [lia|done].
Qed.

Lemma topological_acyclic l n : topological l -> NoDup l -> n ∈ l -> ~ tc extends n n.
Proof.
  intros Hl Hd (i & Hi)%list_elem_of_lookup_1 Hc.
  destruct (topological_index l i n n Hl Hi Hc) as (j & Hj & Hn).
  pose proof (NoDup_lookup l j i n Hd Hn Hi). lia.
Qed.

Lemma branch_parents root n k rest done profile :
  branch root ((n, k) :: rest) done -> bt_get n profiles = Some profile ->
  rp_inherits profile !! k = None -> forall p, p ∈ rp_inherits profile -> p ∈ done.
Proof.
  intros Hb Hn Hk%lookup_ge_None p. inversion Hb; subst; simplify_eq; rewrite take_ge in * by done;
    match goal with H : visit_all _ _ _ |- _ => apply (proj2 visit_extends) in H end; set_solver.
Qed.

Lemma branch_next root n k rest done profile :
  branch root ((n, k) :: rest) done -> bt_get n profiles = Some profile -> k <= length (rp_inherits profile).
Proof. intros Hb Hn. inversion Hb; by simplify_eq. Qed.

(** A closed path is a cycle. *)
Lemma closed_path_tc x c :
  (forall i a b, (x :: c ++ [x]) !! i = Some a -> (x :: c ++ [x]) !! S i = Some b -> extends a b) ->
  tc extends x x.
Proof.
  generalize x at 2 4 6 as y. revert x. induction c as [|z c IH]; intros x y Hpath.
  - apply tc_once. by apply (Hpath 0).
  - apply tc_l with z; [by apply (Hpath 0)|]. apply IH. intros i. apply (Hpath (S i)).
Qed.

(** * The measure *)

(** What is left to do: the whole weight of the profiles not yet visited, and
    the rest of the weight of those on the stack. *)
Definition fresh_name (st : Resolver) (n : string) : Prop := n ∉ active_names st /\ n ∉ order st.

#[local] Instance fresh_name_dec st n : Decision (fresh_name st n) := _.
#[local] Opaque fresh_name_dec.

Definition remaining (st : Resolver) : nat :=
  sum_list_with weight (filter (fresh_name st) profiles.*1)
  + sum_list_with (fun f => weight f.1 - f.2) (frames st).

Lemma sum_filter_le (P Q : string -> Prop) `{!forall x, Decision (P x), !forall x, Decision (Q x)} l :
  (forall x, x ∈ l -> Q x -> P x) ->
  sum_list_with weight (filter Q l) <= sum_list_with weight (filter P l).
Proof.
  induction l as [|x l IH]; intros Hsub; [done|]. rewrite !filter_cons.
  specialize (IH ltac:(set_solver)). specialize (Hsub x ltac:(set_solver)).
  repeat case_decide; simpl; try lia. tauto.
Qed.

Lemma sum_filter_drop (P Q : string -> Prop) `{!forall x, Decision (P x), !forall x, Decision (Q x)} l n :
  (forall x, x ∈ l -> Q x -> P x) -> n ∈ l -> P n -> ~ Q n ->
  sum_list_with weight (filter Q l) + weight n <= sum_list_with weight (filter P l).
Proof.
  intros Hsub Hn HP HQ. apply list_elem_of_split in Hn as (l1 & l2 & ->).
  rewrite !filter_app, !sum_list_with_app, !filter_cons.
  rewrite decide_False, decide_True by done. simpl.
  pose proof (sum_filter_le P Q l1 ltac:(set_solver)). pose proof (sum_filter_le P Q l2 ltac:(set_solver)). lia.
Qed.

Lemma filter_True (l : list string) : filter (fun _ => True) l = l.
Proof. induction l as [|x l IH]; [done|]. by rewrite filter_cons, decide_True, IH. Qed.

Lemma bt_get_key n p : bt_get n profiles = Some p -> n ∈ profiles.*1.
Proof. intros (m & ->%cmp_eq & H)%bt_get_elem. by apply (list_elem_of_fmap_2 fst) in H. Qed.

Lemma weight_gt n profile k p :
  bt_get n profiles = Some profile -> rp_inherits profile !! k = Some p -> weight n - S k < weight n - k.
Proof. intros Hn Hk%lookup_lt_Some. unfold weight. rewrite Hn. lia. Qed.

(** * One iteration *)

(** What the failures of the walk mean. *)
Definition failure_ok (root : string) (e : ConfigError) : Prop :=
  (exists n, e = bare (UnknownProfile n) /\ inherits_from root n /\ bt_get n profiles = None) \/
  (exists x c, e = bare (ProfileCycle (x :: c ++ [x])) /\ inherits_from root x /\
     forall i a b, (x :: c ++ [x]) !! i = Some a -> (x :: c ++ [x]) !! S i = Some b -> extends a b).

(** What a completed walk returns. *)
Definition order_ok (root : string) (l : list string) : Prop :=
  visit [] root l /\ NoDup l /\ topological l /\ forall n, n ∈ l <-> inherits_from root n.

Section iteration.
Context (root : string) (st : Resolver) (Hst : resolver_ok root st).
Context (n : string) (k : nat) (rest : list (string * nat)) (Hfr : frames st = (n, k) :: rest).
Context (profile : RawProfile) (Hn : bt_get n profiles = Some profile).

Lemma top_active : n ∈ active_names st.
Proof. rewrite (ok_names _ _ Hst), Hfr, fmap_cons, reverse_cons. set_solver. Qed.

Lemma top_reach : inherits_from root n.
Proof. apply (ok_reach _ _ Hst). right. apply top_active. Qed.

Lemma parent_reach p : rp_inherits profile !! k = Some p -> inherits_from root p.
Proof.
  intros Hk. eapply rtc_r; [apply top_reach|]. exists profile. split; [done|]. by eapply list_elem_of_lookup_2.
Qed.

Lemma skip_ok p :
  rp_inherits profile !! k = Some p -> p ∈ completed st ->
  let st' := {| frames := (n, S k) :: rest; active := active st; active_names := active_names st;
                completed := completed st; order := order st |} in
  resolver_ok root st' /\ remaining st' < remaining st.
Proof.
  intros Hk Hp st'. split.
  - destruct Hst as [Hb Hna Ha Hc Hd Ht Hnd Hr]. rewrite Hfr in *. split; simpl; try done.
    eapply branch_advance; [done..|]. constructor. by apply Hc.
  - unfold remaining. rewrite Hfr. change (frames st') with ((n, S k) :: rest).
    cbn [sum_list_with fst snd]. pose proof (weight_gt n profile k p Hn Hk).
    assert (sum_list_with weight (filter (fresh_name st') profiles.*1)
            <= sum_list_with weight (filter (fresh_name st) profiles.*1)); [|lia].
    by apply sum_filter_le.
Qed.

Lemma enter_ok p parent :
  rp_inherits profile !! k = Some p -> p ∉ completed st -> active st !! p = None ->
  bt_get p profiles = Some parent ->
  let st' := {| frames := (p, 0) :: (n, S k) :: rest;
                active := <[p := length (active_names st)]> (active st);
                active_names := active_names st ++ [p]; completed := completed st; order := order st |} in
  resolver_ok root st' /\ remaining st' < remaining st.
Proof.
  intros Hk Hc Ha Hp st'.
  assert (p ∉ active_names st) as Hna.
  { intros (i & Hi)%list_elem_of_lookup_1. apply (ok_active _ _ Hst) in Hi. congruence. }
  assert (p ∉ order st) as Hno by by rewrite <- (ok_completed _ _ Hst).
  split.
  - pose proof (parent_reach p Hk) as Hreach.
    destruct Hst as [Hb Hnames Hact Hcomp Hd Ht Hnd Hr]. rewrite Hfr in *. split; simpl; try done.
    + by eapply branch_enter.
    + by rewrite Hnames, !fmap_cons, !reverse_cons.
    + intros m i. rewrite lookup_insert_Some, Hact, lookup_app_Some, list_lookup_singleton_Some.
      split.
      * intros [[<- <-]|[Hm Hi]]; [right; split; lia || (split; [lia|done])|by left].
      * intros [Hi|(Hle & Hi & <-)]; [right; split; [|done]|left; split; [done|lia]].
        intros ->. apply Hna. by eapply list_elem_of_lookup_2.
    + intros m. rewrite elem_of_app, list_elem_of_singleton. intros [?| ->]; auto.
    + intros m. rewrite elem_of_app, list_elem_of_singleton. intros [?|[?| ->]]; auto.
  - unfold remaining. rewrite Hfr. change (frames st') with ((p, 0) :: (n, S k) :: rest).
    cbn [sum_list_with fst snd]. pose proof (weight_gt n profile k p Hn Hk).
    assert (sum_list_with weight (filter (fresh_name st') profiles.*1) + weight p
            <= sum_list_with weight (filter (fresh_name st) profiles.*1)); [|lia].
    apply sum_filter_drop; [unfold fresh_name; set_solver|by eapply bt_get_key|done|unfold fresh_name; set_solver].
Qed.

Lemma complete_ok f rest' :
  rp_inherits profile !! k = None -> rest = f :: rest' ->
  let st' := {| frames := rest; active := delete n (active st);
                active_names := take (length (active_names st) - 1) (active_names st);
                completed := {[n]} ∪ completed st; order := order st ++ [n] |} in
  resolver_ok root st' /\ remaining st' < remaining st.
Proof.
  intros Hk Hrest st'. pose proof top_reach as Hreach.
  destruct Hst as [Hb Hnames Hact Hcomp Hd Ht Hnd Hr]. rewrite Hfr in *.
  rewrite fmap_cons, reverse_cons in Hnames. simpl in Hnames.
  assert (active_names st' = reverse rest.*1) as Hnames'.
  { simpl. rewrite Hnames, length_app. simpl. by rewrite Nat.add_sub, take_app_length. }
  assert (n ∉ order st) as Hno. { apply Hd. rewrite Hnames. set_solver. }
  assert (NoDup (active_names st)) as Hnda.
  { apply NoDup_alt. intros i j x Hi%Hact Hj%Hact. congruence. }
  rewrite Hnames in Hnda. apply NoDup_app in Hnda as (_ & Hnin & _).
  assert (forall m, m ∈ reverse rest.*1 -> m <> n) as Hne by (intros m Hm ->; apply (Hnin n Hm); set_solver).
  split.
  - split; [| exact Hnames' | | | | | |].
    + simpl. pose proof (branch_complete root n k rest _ profile Hb Hn Hk) as Hc. by rewrite Hrest in *.
    + intros m i. rewrite Hnames'. simpl. rewrite lookup_delete_Some, Hact, Hnames, lookup_app_Some.
      split.
      * intros [Hm [?|(_ & [_ <-]%list_lookup_singleton_Some)]]; done.
      * intros Hi. split; [|by left]. intros ->. by apply (Hne m); [eapply list_elem_of_lookup_2|].
    + intros m. simpl. rewrite elem_of_app, list_elem_of_singleton, <- Hcomp. set_solver.
    + intros m. rewrite Hnames'. simpl. rewrite elem_of_app, list_elem_of_singleton. intros Hm [Ho| ->].
      * revert Ho. apply Hd. rewrite Hnames. set_solver.
      * by apply (Hne n).
    + simpl. eapply topological_snoc; [done..|]. by eapply branch_parents.
    + simpl. apply NoDup_app. split_and!; [done|set_solver|apply NoDup_singleton].
    + intros m. rewrite Hnames'. simpl. rewrite elem_of_app, list_elem_of_singleton.
      intros [[?| ->]|?]; [auto|done|]. apply Hr. right. rewrite Hnames. set_solver.
  - unfold remaining. rewrite Hfr. change (frames st') with rest.
    cbn [sum_list_with fst snd].
    assert (sum_list_with weight (filter (fresh_name st') profiles.*1)
            <= sum_list_with weight (filter (fresh_name st) profiles.*1)) as Hsum.
    { apply sum_filter_le. intros x _. unfold fresh_name. rewrite Hnames', Hnames. simpl. set_solver. }
    assert (k < weight n).
    { unfold weight. rewrite Hn. pose proof (branch_next root n k rest _ profile Hb Hn). lia. }
    lia.
Qed.

(** An active parent closes a cycle through the stack. *)
Lemma cycle_ok p start :
  rp_inherits profile !! k = Some p -> active st !! p = Some start ->
  start <= length (active_names st) /\
  failure_ok root (bare (ProfileCycle (drop start (active_names st) ++ [p]))).
Proof.
  intros Hk Ha. apply (ok_active _ _ Hst) in Ha. apply lookup_lt_Some in Ha as Hlt.
  split; [lia|]. right. exists p, (drop (S start) (active_names st)).
  rewrite (drop_S _ p start Ha). split_and!; [done|by apply parent_reach|].
  pose proof (branch_path _ _ _ (ok_branch _ _ Hst)) as [_ Hpath]. rewrite <- (ok_names _ _ Hst) in Hpath.
  assert (last (active_names st) = Some n) as Hlast.
  { rewrite (ok_names _ _ Hst), Hfr, fmap_cons, reverse_cons. apply last_snoc. }
  rewrite app_comm_cons, <- (drop_S _ p start Ha). rewrite last_lookup in Hlast.
  intros i a b Hia Hib. apply lookup_app_Some in Hib as [Hib|[Hi Hib]].
  - rewrite lookup_drop in Hib. apply (Hpath (start + i)); [|by rewrite Nat.add_succ_r in Hib].
    apply lookup_app_Some in Hia as [Hia|[Hge _]]; [by rewrite lookup_drop in Hia|].
    apply lookup_lt_Some in Hib. rewrite length_drop in Hge. lia.
  - apply list_lookup_singleton_Some in Hib as [Hz <-]. rewrite length_drop in Hi, Hz.
    rewrite lookup_app_l in Hia by (rewrite length_drop; lia). rewrite lookup_drop in Hia.
    replace (start + i) with (pred (length (active_names st))) in Hia by lia.
    rewrite Hlast in Hia. injection Hia as <-. exists profile. split; [done|].
    by eapply list_elem_of_lookup_2.
Qed.

(** Completing the root ends the walk. *)
Lemma finish_ok : rp_inherits profile !! k = None -> rest = [] -> order_ok root (order st ++ [n]).
Proof.
  intros Hk Hrest. pose proof top_active as Hact. pose proof top_reach as Hreach.
  destruct Hst as [Hb Hnames _ _ Hd Ht Hnd Hr]. rewrite Hfr, Hrest in *.
  destruct (branch_complete root n k [] _ profile Hb Hn Hk) as [-> Hv].
  assert (topological (order st ++ [root])) as Htop.
  { eapply topological_snoc; [done..|]. by eapply branch_parents. }
  split_and!; [done| |done|].
  - apply NoDup_app. split_and!; [done| |apply NoDup_singleton]. intros m Hm ->%list_elem_of_singleton.
    by apply (Hd root).
  - intros m. split.
    + rewrite elem_of_app, list_elem_of_singleton. intros [?| ->]; auto.
    + apply (topological_reach _ root); [done|]. set_solver.
Qed.

End iteration.

Lemma resolve_iteration_ok root st :
  resolver_ok root st ->
  match resolve_iteration st with
  | Continue st' => resolver_ok root st' /\ remaining st' < remaining st
  | Break l => order_ok root l
  | Fail e => failure_ok root e
  | Panicked => False
  end.
Proof.
  intros Hst. unfold resolve_iteration. destruct (frames st) as [|[n k] rest] eqn:Hfr.
  { pose proof (ok_branch _ _ Hst) as Hb. rewrite Hfr in Hb. inversion Hb. }
  destruct (branch_known root (frames st) (order st) n (ok_branch _ _ Hst)) as [profile Hn];
    [rewrite Hfr; set_solver|].
  rewrite Hn. destruct (rp_inherits profile !! k) as [p|] eqn:Hk.
  - case_bool_decide as Hc; [by eapply skip_ok|].
    destruct (active st !! p) as [start|] eqn:Ha.
    + destruct (cycle_ok root st Hst n k rest Hfr profile Hn p start Hk Ha) as [Hle Hf].
      apply Nat.ltb_ge in Hle as ->. done.
    + destruct (bt_get p profiles) as [parent|] eqn:Hp; [by eapply enter_ok|].
      left. exists p. split_and!; [done|by eapply parent_reach|done].
  - destruct rest as [|f rest'] eqn:Hrest; [by eapply finish_ok|].
    rewrite <- Hrest in Hfr. subst rest. by eapply complete_ok.
Qed.

Lemma resolve_loop_ok root fuel st :
  resolver_ok root st -> remaining st < fuel ->
  match resolve_loop fuel st with
  | Some (Break l) => order_ok root l
  | Some (Fail e) => failure_ok root e
  | _ => False
  end.
Proof.
  revert st. induction fuel as [|fuel IH]; intros st Hst Hlt; [lia|]. simpl.
  pose proof (resolve_iteration_ok root st Hst) as H.
  destruct (resolve_iteration st) as [st'|l|e|]; [|done..].
  destruct H as [Hst' Hm]. apply IH; [done|lia].
Qed.

Lemma resolver_start_ok root profile :
  bt_get root profiles = Some profile ->
  resolver_ok root (resolver_start root) /\ remaining (resolver_start root) < resolve_fuel.
Proof.
  intros Hr. split.
  - split; simpl.
    + econstructor; [done|lia|]. rewrite take_0. constructor.
    + done.
    + intros n i. rewrite lookup_singleton_Some, list_lookup_singleton_Some. naive_solver.
    + set_solver.
    + set_solver.
    + intros [|] n l2; done.
    + constructor.
    + intros n [[]%not_elem_of_nil| ->%list_elem_of_singleton]. reflexivity.
  - unfold remaining, resolve_fuel. change (frames (resolver_start root)) with [(root, 0)].
    cbn [sum_list_with fst snd].
    assert (sum_list_with weight (filter (fresh_name (resolver_start root)) profiles.*1) + weight root
            <= sum_list_with weight (filter (fun _ => True) profiles.*1)) as Hsum.
    { apply sum_filter_drop; [done|by eapply bt_get_key|done|]. unfold fresh_name. simpl. set_solver. }
    rewrite filter_True in Hsum. lia.
Qed.

Lemma resolve_order_cases root :
  match resolve_order root with
  | Some (Break l) => order_ok root l
  | Some (Fail e) => failure_ok root e
  | _ => False
  end.
Proof.
  unfold resolve_order. destruct (bt_get root profiles) as [profile|] eqn:Hr.
  - destruct (resolver_start_ok root profile Hr). by apply resolve_loop_ok.
  - left. exists root. split_and!; [done|reflexivity|done].
Qed.

Lemma order_ok_wf root l n :
  order_ok root l -> inherits_from root n -> is_Some (bt_get n profiles) /\ ~ tc extends n n.
Proof.
  intros (_ & Hd & Ht & Hr) Hn%Hr. split; [|by eapply topological_acyclic].
  apply list_elem_of_split in Hn as (l1 & l2 & ->). destruct (Ht l1 n l2) as (profile & ? & _); eauto.
Qed.

(** C13. The order in which a profile's ancestors are merged.  The walk either
    completes with the recursive post-order of the inheritance graph (parents
    from left to right, before the profile that names them, each once), which
    holds exactly the profiles the requested one inherits from; or it reports an
    unknown profile the requested one inherits from; or a cycle, as a closed
    path of the graph reachable from the requested profile.  It never indexes
    out of bounds, and it returns within one iteration per profile and
    inheritance edge. *)
Theorem inheritance_order_exact (root : string) :
  match resolve_order root with
  | Some (Break l) =>
      visit [] root l /\ NoDup l /\ last l = Some root /\ (forall n, n ∈ l <-> inherits_from root n) /\
      (forall l1 n l2, l = l1 ++ n :: l2 -> exists profile, bt_get n profiles = Some profile /\
         forall p, p ∈ rp_inherits profile -> p ∈ l1)
  | Some (Fail e) =>
      (exists n, e = bare (UnknownProfile n) /\ inherits_from root n /\ bt_get n profiles = None) \/
      (exists x c, e = bare (ProfileCycle (x :: c ++ [x])) /\ inherits_from root x /\
         forall i a b, (x :: c ++ [x]) !! i = Some a -> (x :: c ++ [x]) !! S i = Some b -> extends a b)
  | _ => False
  end.
Proof.
  pose proof (resolve_order_cases root) as H. destruct (resolve_order root) as [[]|]; try done.
  destruct H as (Hv & Hd & Ht & Hr). split_and!; [done|done| |done|done].
  inversion Hv as [? ? Hin|? ? ? ? _ _ _]; [by apply not_elem_of_nil in Hin|]. apply last_snoc.
Qed.

(** A profile can be ordered exactly when its inheritance is well formed:
    every profile it inherits from exists and none of them inherits from
    itself. *)
Theorem inheritance_accepts_iff (root : string) :
  (exists l, resolve_order root = Some (Break l)) <->
  (forall n, inherits_from root n -> is_Some (bt_get n profiles) /\ ~ tc extends n n).
Proof.
  pose proof (resolve_order_cases root) as H. split.
  - intros [l Hl] n Hn. rewrite Hl in H. by eapply order_ok_wf.
  - intros Hok. destruct (resolve_order root) as [[| |e|]|]; try done; [eauto|].
    destruct H as [(n & _ & Hn & Hnone)|(x & c & _ & Hx & Hpath)].
    + destruct (Hok n Hn) as [[? ?] _]. congruence.
    + destruct (Hok x Hx) as [_ []]. by apply (closed_path_tc x c).
Qed.

End graph.
