(* ===== verification/Indexed.v ===== *)
(** Merging by key with the last writer winning: the loops of the profile
    merger that keep, beside a vector or an ordered map of declarations, a hash
    map from the identity of a declaration to its place in it.  The lemmas say
    what the collection holds after any sequence of declarations. *)

From Stdlib Require Import Ascii String NArith Lia.
From stdpp Require Import base option strings sets sorting list.
From S2P Require Import Prelude Text BTree Keyed.

(** The [Eq] of a key, as [Hash] collections rely on it. *)
Class KeyEq {K : Type} (keqb : K -> K -> bool) : Prop := {
  keqb_refl (k : K) : keqb k k = true;
  keqb_sym (k l : K) : keqb k l = keqb l k;
  keqb_trans (k l m : K) : keqb k l = true -> keqb l m = true -> keqb k m = true
}.
Arguments keqb_refl {K} keqb {_} k.
Arguments keqb_sym {K} keqb {_} k l.
Arguments keqb_trans {K} keqb {_} k l m.

Lemma keqb_ext {K} (keqb : K -> K -> bool) `{!KeyEq keqb} k l m : keqb k l = true -> keqb k m = keqb l m.
Proof.
  intros H. apply eq_true_iff_eq. split; intros Hm.
  - apply (keqb_trans keqb l k m); [by rewrite keqb_sym|done].
  - by apply (keqb_trans keqb k l m).
Qed.

#[global] Instance eqdec_key_eq `{EqDecision K} : KeyEq (fun k l : K => bool_decide (k = l)).
Proof.
  split.
  - intros k. by rewrite bool_decide_eq_true.
  - intros k l. apply bool_decide_ext. split; congruence.
  - intros k l m. rewrite !bool_decide_eq_true. congruence.
Qed.

(** * Hash maps *)

Section hash.
Context {K V : Type} (keqb : K -> K -> bool).

(** [HashMap::get]: at most one stored key equals [k]. *)
Fixpoint hm_get (k : K) (m : list (K * V)) : option V :=
  match m with
  | [] => None
  | (l, v) :: m' => if keqb k l then Some v else hm_get k m'
  end.

(** [HashMap::insert]: a stored key is kept and its value replaced. *)
Fixpoint hm_set (k : K) (v : V) (m : list (K * V)) : list (K * V) :=
  match m with
  | [] => [(k, v)]
  | (l, w) :: m' => if keqb k l then (l, v) :: m' else (l, w) :: hm_set k v m'
  end.

Definition hm_insert (k : K) (v : V) (m : list (K * V)) : option V * list (K * V) :=
  (hm_get k m, hm_set k v m).

Context `{Heq : !KeyEq keqb}.

Lemma hm_get_set k l v m : hm_get k (hm_set l v m) = if keqb k l then Some v else hm_get k m.
Proof using Heq.
  induction m as [|[j w] m IH]; simpl; [done|]. destruct (keqb l j) eqn:Hl; simpl.
  - rewrite (keqb_sym keqb k l), (keqb_ext keqb l j k Hl), (keqb_sym keqb j k). by destruct (keqb k j).
  - destruct (keqb k j) eqn:Hk; [|done]. destruct (keqb k l) eqn:Hkl; [|done].
    rewrite (keqb_ext keqb k l j Hkl) in Hk. congruence.
Qed.

End hash.

(** * Vectors *)

Section vector.
Context {R K : Type} (key : R -> K) (keqb : K -> K -> bool).
Context `{Heq : !KeyEq keqb}.

(** One iteration: replace the declaration of the same identity, or append. *)
Definition keyed_put : list R * list (K * nat) -> R -> list R * list (K * nat) :=
  keyed_step key keqb (fun _ r => r).

(** The last declaration of an identity. *)
Definition last_with (k : K) (l : list R) : option R := last (filter (fun r => keqb k (key r) = true) l).

Lemma last_with_app k l1 l2 :
  last_with k (l1 ++ l2) = match last_with k l2 with Some r => Some r | None => last_with k l1 end.
Proof. unfold last_with. by rewrite filter_app, last_app. Qed.

Lemma last_with_one k r : last_with k [r] = if keqb k (key r) then Some r else None.
Proof. unfold last_with. rewrite filter_cons. destruct (keqb k (key r)); by case_decide. Qed.

Lemma last_with_snoc k l r : last_with k (l ++ [r]) = if keqb k (key r) then Some r else last_with k l.
Proof. rewrite last_with_app, last_with_one. by destruct (keqb k (key r)). Qed.

Lemma last_with_Some k l r : last_with k l = Some r -> r ∈ l /\ keqb k (key r) = true.
Proof. intros H%last_Some_elem_of%list_elem_of_filter. tauto. Qed.

Lemma last_with_None k l : last_with k l = None <-> Forall (fun r => keqb k (key r) = false) l.
Proof.
  induction l as [|r l IH] using rev_ind; [split; [by constructor|done]|].
  rewrite last_with_snoc, Forall_app, Forall_singleton.
  destruct (keqb k (key r)); [split; [done|by intros [_ ?]]|]. rewrite IH. tauto.
Qed.

(** No two declarations share an identity. *)
Definition distinct (es : list R) : Prop :=
  forall i j e f, es !! i = Some e -> es !! j = Some f -> keqb (key e) (key f) = true -> i = j.

Definition positions_ok (es : list R) (ps : list (K * nat)) : Prop :=
  length ps = length es /\
  forall i e, es !! i = Some e -> exists k, ps !! i = Some (k, i) /\ keqb k (key e) = true.

Definition keyed_ok (st : list R * list (K * nat)) : Prop := distinct st.1 /\ positions_ok st.1 st.2.

Lemma positions_get_None k ps : positions_get keqb k ps = None <-> forall l i, (l, i) ∈ ps -> keqb k l = false.
Proof.
  induction ps as [|[l i] ps IH]; simpl; [split; [set_solver|done]|].
  destruct (keqb k l) eqn:E.
  - split; [done|]. intros H. specialize (H l i (list_elem_of_here _ _)). congruence.
  - rewrite IH. split; [|set_solver]. intros H m j [[= -> ->]|?]%elem_of_cons; eauto.
Qed.

Lemma positions_get_Some k ps i : positions_get keqb k ps = Some i -> exists l, (l, i) ∈ ps /\ keqb k l = true.
Proof.
  induction ps as [|[l j] ps IH]; simpl; [done|]. destruct (keqb k l) eqn:E.
  - intros [= ->]. exists l. set_solver.
  - intros (m & ? & ?)%IH. exists m. set_solver.
Qed.

Lemma keyed_ok_nil : keyed_ok ([], []).
Proof. split; [intros [|i] j e f; done|]. split; [done|]. intros [|i] e; done. Qed.

Lemma keyed_put_fresh es ps r :
  keyed_ok (es, ps) -> positions_get keqb (key r) ps = None ->
  keyed_ok (es ++ [r], ps ++ [(key r, length es)]) /\ Forall (fun e => keqb (key r) (key e) = false) es.
Proof using Heq.
  intros [Hd [Hl Hp]] Hg. rewrite positions_get_None in Hg. simpl in *.
  assert (forall i e, es !! i = Some e -> keqb (key r) (key e) = false) as Hfresh.
  { intros i e (k & Hk & Hke)%Hp. rewrite (keqb_sym keqb (key r)), <- (keqb_ext keqb k (key e) (key r) Hke), (keqb_sym keqb k).
    apply (Hg k i). by eapply list_elem_of_lookup_2. }
  split; [split|apply Forall_lookup; eauto]; simpl.
  - intros i j e f He Hf Hef.
    apply lookup_snoc_Some in He as [[_ He]|[-> <-]], Hf as [[_ Hf]|[-> <-]]; [by eauto| | |done].
    + rewrite keqb_sym, (Hfresh _ _ He) in Hef by done. done.
    + by rewrite (Hfresh _ _ Hf) in Hef.
  - split; [by rewrite !length_app, Hl|]. intros i e He. apply lookup_snoc_Some in He as [[_ He]|[-> <-]].
    + destruct (Hp i e He) as (k & Hk & ?). exists k. split; [by apply lookup_app_l_Some|done].
    + exists (key r). split; [|by apply keqb_refl]. by rewrite <- Hl, list_lookup_middle.
Qed.

Lemma keyed_put_replace es ps r index :
  keyed_ok (es, ps) -> positions_get keqb (key r) ps = Some index ->
  exists l1 e l2, es = l1 ++ e :: l2 /\ index = length l1 /\ keqb (key r) (key e) = true /\
    keyed_ok (l1 ++ r :: l2, ps).
Proof using Heq.
  intros [Hd [Hl Hp]] (k & Hin & Hk)%positions_get_Some. simpl in *.
  apply list_elem_of_lookup_1 in Hin as [i Hi].
  destruct (lookup_lt_is_Some_2 es i) as [e He]; [rewrite <- Hl; by eapply lookup_lt_Some|].
  destruct (Hp i e He) as (k' & Hk' & Hke). assert (index = i /\ k' = k) as [-> ->] by (split; congruence).
  apply take_drop_middle in He as Hes. apply lookup_lt_Some in He as Hlt.
  assert (keqb (key r) (key e) = true) as Hre by by rewrite (keqb_ext keqb _ _ _ Hk).
  exists (take i es), e, (drop (S i) es). split_and!; [done|by rewrite length_take_le by lia|done|].
  rewrite <- (insert_take_drop es i r) by done.
  assert (forall j f, <[i:=r]> es !! j = Some f -> exists g, es !! j = Some g /\ keqb (key f) (key g) = true) as Hold.
  { intros j f [(-> & -> & _)|[? ?]]%list_lookup_insert_Some; [eauto|]. exists f. split; [done|by apply keqb_refl]. }
  split; simpl.
  - intros j1 j2 f1 f2 H1 H2 Hf. destruct (Hold _ _ H1) as (g1 & Hg1 & E1), (Hold _ _ H2) as (g2 & Hg2 & E2).
    apply (Hd j1 j2 g1 g2); [done..|]. by rewrite <- (keqb_ext keqb _ _ _ E1), keqb_sym, <- (keqb_ext keqb _ _ _ E2), keqb_sym.
  - split; [by rewrite length_insert|]. intros j f Hf. destruct (Hold _ _ Hf) as (g & Hg & E).
    destruct (Hp j g Hg) as (k' & ? & Hg'). exists k'. split; [done|]. by rewrite keqb_sym, (keqb_ext keqb _ _ _ E), keqb_sym.
Qed.

Lemma keyed_put_ok st r :
  keyed_ok st ->
  keyed_ok (keyed_put st r) /\
  forall k, last_with k (keyed_put st r).1 = if keqb k (key r) then Some r else last_with k st.1.
Proof using Heq.
  intros Hst. destruct st as [es ps]. unfold keyed_put, keyed_step.
  destruct (positions_get keqb (key r) ps) as [index|] eqn:Hg.
  - destruct (keyed_put_replace es ps r index Hst Hg) as (l1 & e & l2 & -> & -> & Hre & Hok).
    rewrite alter_middle. split; [done|]. intros k. simpl.
    destruct Hst as [Hd _]. simpl in Hd.
    assert (forall f, f ∈ l2 -> keqb (key r) (key f) = false) as Hl2.
    { intros f [i Hi]%list_elem_of_lookup_1. rewrite (keqb_ext keqb _ _ _ Hre). apply not_true_is_false. intros Hef.
      assert (length l1 = length l1 + S i); [|lia]. apply (Hd _ _ e f); [by rewrite list_lookup_middle| |done].
      rewrite lookup_app_r by lia. by replace (length l1 + S i - length l1) with (S i) by lia. }
    change (r :: l2) with ([r] ++ l2). change (e :: l2) with ([e] ++ l2).
    rewrite !last_with_app, !last_with_one. rewrite <- (keqb_sym keqb (key e) k), <- (keqb_ext keqb _ _ k Hre), (keqb_sym keqb (key r) k).
    destruct (keqb k (key r)) eqn:Hk; [|done].
    destruct (last_with k l2) as [f|] eqn:Hf; [|done].
    apply last_with_Some in Hf as [Hf Hkf]. rewrite (keqb_ext keqb _ _ _ Hk), Hl2 in Hkf by done. done.
  - destruct (keyed_put_fresh es ps r Hst Hg) as [Hok _]. split; [done|]. intros k. apply last_with_snoc.
Qed.

(** After any sequence of declarations the vector holds, without repetition,
    the last declaration of every identity. *)
Lemma keyed_fold_ok st l :
  keyed_ok st ->
  keyed_ok (foldl keyed_put st l) /\ forall k, last_with k (foldl keyed_put st l).1 = last_with k (st.1 ++ l).
Proof using Heq.
  intros Hst. induction l as [|r l IH] using rev_ind; [by rewrite app_nil_r|].
  rewrite foldl_snoc. destruct IH as [Hok IH]. destruct (keyed_put_ok _ r Hok) as [Hok' Hput].
  split; [done|]. intros k. by rewrite Hput, IH, app_assoc, last_with_snoc.
Qed.

Lemma distinct_last es e : distinct es -> e ∈ es <-> last_with (key e) es = Some e.
Proof using Heq.
  intros Hd. split; [|by intros [? _]%last_with_Some].
  intros [i Hi]%list_elem_of_lookup_1. destruct (last_with (key e) es) as [f|] eqn:Hf.
  - apply last_with_Some in Hf as [[j Hj]%list_elem_of_lookup_1 Hk]. assert (i = j) as <- by eauto. congruence.
  - apply last_with_None in Hf. apply (Forall_lookup_1 _ _ _ _ Hf) in Hi. by rewrite keqb_refl in Hi.
Qed.

End vector.

(** * Ordered maps *)

Section ordered.
Context {K V : Type} (key : string -> K) (keqb : K -> K -> bool).
Context `{Heq : !KeyEq keqb}.

(** One iteration: forget the spelling the identity had, then insert. *)
Definition indexed_put (st : BTreeMap string V * list (K * string)) (e : string * V) :
  BTreeMap string V * list (K * string) :=
  let '(values, index) := st in
  let '(existing, index') := hm_insert keqb (key e.1) e.1 index in
  let values := match existing with Some spelling => bt_remove spelling values | None => values end in
  (bt_insert e.1 e.2 values, index').

(** The index knows the spelling each identity has in the map. *)
Definition indexed_ok (st : BTreeMap string V * list (K * string)) : Prop :=
  bt_wf st.1 /\ (forall k n, hm_get keqb k st.2 = Some n -> keqb k (key n) = true) /\
  forall n, is_Some (bt_get n st.1) -> hm_get keqb (key n) st.2 = Some n.

Lemma indexed_ok_nil : indexed_ok ([], []).
Proof. split_and!; [constructor|done|]. intros n [v Hv]. done. Qed.

Lemma indexed_put_ok st e :
  indexed_ok st ->
  indexed_ok (indexed_put st e) /\
  forall n, bt_get n (indexed_put st e).1 =
    if keqb (key n) (key e.1) then (if decide (n = e.1) then Some e.2 else None) else bt_get n st.1.
Proof using Heq.
  destruct st as [values index], e as [m v]. intros (Hwf & Hk & Hix). unfold indexed_put, hm_insert. simpl in *.
  set (rest := match hm_get keqb (key m) index with Some s => bt_remove s values | None => values end).
  assert (bt_wf rest) as Hrest. { unfold rest. destruct (hm_get _ _ _); [by apply bt_wf_remove|done]. }
  assert (forall n, n <> m -> bt_get n rest = if keqb (key n) (key m) then None else bt_get n values) as Hget.
  { intros n Hn. destruct (keqb (key n) (key m)) eqn:E.
    - destruct (bt_get n rest) as [w|] eqn:Hw; [|done]. unfold rest in Hw.
      assert (hm_get keqb (key m) index = Some n) as Hm.
      { assert (hm_get keqb (key n) index = Some n) as <-.
        { apply Hix. destruct (hm_get keqb (key m) index) as [s|]; [|eauto].
          destruct (decide (cmp n s = Eq)) as [Hs|Hs].
          - by rewrite (bt_get_eq _ _ _ Hs), bt_get_remove in Hw.
          - rewrite bt_get_remove_ne in Hw by done. eauto. }
        clear -E Heq. induction index as [|[l s] index IH]; [done|]. simpl. by rewrite (keqb_ext keqb _ _ l E), IH. }
      rewrite Hm, bt_get_remove in Hw. done.
    - unfold rest. destruct (hm_get keqb (key m) index) as [s|] eqn:Hs; [|done].
      apply bt_get_remove_ne. intros ->%cmp_eq. apply Hk in Hs. rewrite (keqb_sym keqb), E in Hs. done. }
  assert (forall n, bt_get n (bt_insert m v rest) =
    if keqb (key n) (key m) then (if decide (n = m) then Some v else None) else bt_get n values) as Hput.
  { intros n. destruct (decide (n = m)) as [->|Hn].
    - by rewrite bt_get_insert, (keqb_refl keqb).
    - rewrite bt_get_insert_ne by (by intros ->%cmp_eq). by apply Hget. }
  split; [|done]. split_and!; simpl.
  - by apply bt_wf_insert.
  - intros k n. rewrite (hm_get_set keqb). destruct (keqb k (key m)) eqn:E; [by intros [= <-]|]. apply Hk.
  - intros n Hn. rewrite (hm_get_set keqb). rewrite Hput in Hn.
    destruct (keqb (key n) (key m)) eqn:E; [|by apply Hix]. destruct (decide (n = m)) as [->|]; [done|].
    by destruct Hn.
Qed.

(** The last entry of an identity. *)
Definition last_entry (k : K) (l : list (string * V)) : option (string * V) :=
  last_with (fun e => key e.1) keqb k l.

(** After any sequence of entries an identity has the spelling and the value it
    had last. *)
Lemma indexed_fold_ok l :
  let st := foldl indexed_put ([], []) l in
  indexed_ok st /\
  forall n, bt_get n st.1 =
    match last_entry (key n) l with Some (m, v) => if decide (n = m) then Some v else None | None => None end.
Proof using Heq.
  induction l as [|e l [Hok IH]] using rev_ind; [split; [apply indexed_ok_nil|done]|].
  cbv zeta in *. rewrite foldl_snoc. destruct (indexed_put_ok _ e Hok) as [Hok' Hput]. split; [done|].
  intros n. rewrite Hput, IH. unfold last_entry. rewrite last_with_snoc. destruct e as [m v]. simpl.
  by destruct (keqb (key n) (key m)).
Qed.

End ordered.
