(* ===== verification/ConfigMerge.v ===== *)
(** [cageforge-config]: the parent-to-child profile merger ([merge.rs]).  The
    fields of [ProfileMerger] and of its [MergedProfile] are grouped by the
    section of a profile they serve: the merged section and the indexes the
    merger keeps for it. *)

From Stdlib Require Import Ascii String NArith Lia.
From stdpp Require Import base option strings gmap sets sorting list.
From S2P Require Import Prelude Keyed Text BTree NativePath PlatformPath Access Selector PathPattern Domain Environment Permissions ConfigError ConfigModel Indexed.

(** * Identities *)

Inductive SelectorKey :=
  | SKValid (s : PathSelector)
  | SKPlatform (k : PlatformPathKey)
  | SKMissing.

Inductive GlobKey :=
  | GKValid (k : PlatformPathKey)
  | GKRaw (k : PlatformPathKey)
  | GKMissing.

Inductive FilesystemRuleKey :=
  | KSelector (t : RawFilesystemTarget) (k : SelectorKey)
  | KGlob (t : RawFilesystemTarget) (k : GlobKey).

(** The derived [Eq]; selectors compare by [PathSelector]'s own. *)
Definition selector_key_eqb (k l : SelectorKey) : bool :=
  match k, l with
  | SKValid s, SKValid t => selectors_equal s t
  | SKPlatform p, SKPlatform q => bool_decide (p = q)
  | SKMissing, SKMissing => true
  | _, _ => false
  end.

Definition glob_key_eqb (k l : GlobKey) : bool :=
  match k, l with
  | GKValid p, GKValid q => bool_decide (p = q)
  | GKRaw p, GKRaw q => bool_decide (p = q)
  | GKMissing, GKMissing => true
  | _, _ => false
  end.

Definition rule_key_eqb (k l : FilesystemRuleKey) : bool :=
  match k, l with
  | KSelector t a, KSelector u b => bool_decide (t = u) && selector_key_eqb a b
  | KGlob t a, KGlob u b => bool_decide (t = u) && glob_key_eqb a b
  | _, _ => false
  end.

Definition path_key_eqb (k l : PlatformPathKey) : bool := bool_decide (k = l).
Definition string_eqb (k l : string) : bool := bool_decide (k = l).

Section keys.
Context {U : Unicode} {G : Globset} {W : WildMatch}.

Definition selector_key (p : option string) (constructor : path -> result PolicyError PathSelector)
    (dialect : PathDialect) : SelectorKey :=
  match p with
  | None => SKMissing
  | Some p =>
      match constructor p with
      | Ok s => SKValid s
      | Err _ => SKPlatform (PlatformPathKey_new p dialect)
      end
  end.

Definition glob_key (pattern : option string) (constructor : string -> result PolicyError PathPattern)
    (dialect : PathDialect) : GlobKey :=
  match pattern with
  | None => GKMissing
  | Some pattern =>
      if is_ok (constructor pattern) then GKValid (PlatformPathKey_new pattern dialect)
      else GKRaw (PlatformPathKey_new pattern dialect)
  end.

Definition filesystem_rule_key (dialect : PathDialect) (rule : RawFilesystemRule) : FilesystemRuleKey :=
  match rule_target rule with
  | RTAbsolute => KSelector RTAbsolute (selector_key (rule_path rule) selector_absolute dialect)
  | RTWorkspace => KSelector RTWorkspace (selector_key (rule_path rule) selector_workspace dialect)
  | RTAbsoluteGlob => KGlob RTAbsoluteGlob (glob_key (rule_pattern rule) pattern_absolute dialect)
  | RTWorkspaceGlob => KGlob RTWorkspaceGlob (glob_key (rule_pattern rule) pattern_workspace dialect)
  | target => KSelector target SKMissing
  end.

Definition domain_rule_key (pattern : string) : string :=
  match DomainRule_new pattern DAllow with
  | Ok rule => dr_pattern rule
  | Err _ => to_ascii_lowercase (trim_end_matches "." (trim pattern))
  end.

Inductive EnvironmentFilterKey :=
  | FKValid (p : EnvironmentPattern)
  | FKInvalid (s : string).

Definition filter_key_eqb (k l : EnvironmentFilterKey) : bool :=
  match k, l with
  | FKValid p, FKValid q => bool_decide (canonical p = canonical q)
  | FKInvalid s, FKInvalid t => bool_decide (s = t)
  | _, _ => false
  end.

Definition environment_filter_key (pattern : string) : EnvironmentFilterKey :=
  match EnvironmentPattern_new pattern with
  | Ok p => FKValid p
  | Err _ => FKInvalid (str_to_lowercase pattern)
  end.

End keys.

(** The derived order of [EnvironmentNameKey]: the variant, then its contents. *)
Definition name_key_rank (k : EnvironmentNameKey) : list (list N) :=
  match k with
  | Folded text => [0%N] :: text
  | NativeBytes bytes => [1%N] :: ((fun a => [N_of_ascii a]) <$> list_ascii_of_string bytes)
  end.

#[global] Instance ord_name_key : Ord EnvironmentNameKey :=
  fun k l => cmp (name_key_rank k) (name_key_rank l).
#[global] Instance ord_name_key_laws : OrdLaws EnvironmentNameKey.
Proof. exact (pullback_laws name_key_rank). Qed.
#[global] Instance ord_name_key_leibniz : OrdLeibniz EnvironmentNameKey.
Proof.
  intros k l H. apply (cmp_eq (name_key_rank k)) in H.
  destruct k as [t|b], l as [u|c]; simpl in H; try done; injection H as H; [by f_equal|].
  f_equal. rewrite <- (string_of_list_ascii_of_string b), <- (string_of_list_ascii_of_string c). f_equal.
  assert (Inj (=) (=) (fun a => [N_of_ascii a])) as Hinj.
  { intros x y Hxy. injection Hxy as Hxy. by rewrite <- (ascii_N_embedding x), <- (ascii_N_embedding y), Hxy. }
  by apply (inj (fmap (fun a => [N_of_ascii a]))) in H.
Qed.

(** * The merger's state *)

Record WorkspaceMerger := {
  wm_merged : BTreeMap string bool;
  wm_keys : list (PlatformPathKey * string)
}.

Record FilesystemMerger := {
  fm_merged : option RawFilesystem;
  fm_rules : list (FilesystemRuleKey * nat);
  fm_protected : list PlatformPathKey
}.

Record NetworkMerger := {
  nm_merged : option RawNetwork;
  nm_domains : list (string * nat);
  nm_sockets : list (PlatformPathKey * nat)
}.

Record LocalIpcMerger := {
  lm_merged : option RawLocalIpc;
  lm_unix : list (PlatformPathKey * nat);
  lm_pipes : list (string * nat)
}.

Record RuntimeMerger := {
  xm_merged : option RawRuntime;
  xm_roots : list (PlatformPathKey * nat)
}.

Section merger.
Context {U : Unicode} {G : Globset} {W : WildMatch}.

Record CommandMerger := {
  cm_merged : option RawCommand;
  cm_filters : list (EnvironmentFilterKey * string);
  cm_overrides : BTreeMap EnvironmentNameKey (string * option string)
}.

Record ProfileMerger := {
  pm_description : option string;
  pm_workspace : WorkspaceMerger;
  pm_filesystem : FilesystemMerger;
  pm_network : NetworkMerger;
  pm_local_ipc : LocalIpcMerger;
  pm_command : CommandMerger;
  pm_approval : option RawApproval;
  pm_runtime : RuntimeMerger
}.

Record MergedProfile := {
  mp_description : option string;
  mp_workspace_roots : BTreeMap string bool;
  mp_filesystem : option RawFilesystem;
  mp_network : option RawNetwork;
  mp_local_ipc : option RawLocalIpc;
  mp_command : option RawCommand;
  mp_approval : option RawApproval;
  mp_runtime : option RawRuntime
}.

Definition merger_new : ProfileMerger := {|
  pm_description := None;
  pm_workspace := {| wm_merged := []; wm_keys := [] |};
  pm_filesystem := {| fm_merged := None; fm_rules := []; fm_protected := [] |};
  pm_network := {| nm_merged := None; nm_domains := []; nm_sockets := [] |};
  pm_local_ipc := {| lm_merged := None; lm_unix := []; lm_pipes := [] |};
  pm_command := {| cm_merged := None; cm_filters := []; cm_overrides := [] |};
  pm_approval := None;
  pm_runtime := {| xm_merged := None; xm_roots := [] |}
|}.

Context (dialect : PathDialect).

Abbreviation text_key := (fun p : string => PlatformPathKey_new p dialect).

(** * Sections *)

Definition merge_workspace_roots (w : WorkspaceMerger) (values : BTreeMap string bool) : WorkspaceMerger :=
  let st := foldl (indexed_put text_key path_key_eqb) (wm_merged w, wm_keys w) values in
  {| wm_merged := st.1; wm_keys := st.2 |}.

(** [HashSet::insert] with the push it guards *)
Definition protected_put (st : list string * list PlatformPathKey) (p : string) :
  list string * list PlatformPathKey :=
  if bool_decide (text_key p ∈ st.2) then st else (st.1 ++ [p], st.2 ++ [text_key p]).

(** The mode of [merge_filesystem]: one that is not [Restricted] drops what was
    inherited. *)
Definition filesystem_mode_step (f : FilesystemMerger) (child : RawFilesystem) : FilesystemMerger :=
  let merged := default default_filesystem (fm_merged f) in
  match rf_mode child with
  | None => {| fm_merged := Some merged; fm_rules := fm_rules f; fm_protected := fm_protected f |}
  | Some mode =>
      if bool_decide (mode = RawRestricted)
      then {| fm_merged := Some {| rf_mode := Some mode;
                rf_glob_scan_max_depth := rf_glob_scan_max_depth merged;
                rf_additional_protected_paths := rf_additional_protected_paths merged;
                rf_security := rf_security merged; rf_rules := rf_rules merged |};
              fm_rules := fm_rules f; fm_protected := fm_protected f |}
      else {| fm_merged := Some {| rf_mode := Some mode; rf_glob_scan_max_depth := None;
                rf_additional_protected_paths := []; rf_security := None; rf_rules := [] |};
              fm_rules := []; fm_protected := [] |}
  end.

Definition merge_security (merged : option RawFilesystemSecurity) (child : RawFilesystemSecurity) :
  RawFilesystemSecurity :=
  let merged := default default_security merged in
  {| rs_dangerously_allow_git_write :=
       replace_present (rs_dangerously_allow_git_write merged) (rs_dangerously_allow_git_write child) |}.

Definition merge_filesystem (f : FilesystemMerger) (child : RawFilesystem) : FilesystemMerger :=
  let f := filesystem_mode_step f child in
  let merged := default default_filesystem (fm_merged f) in
  let protected := foldl protected_put (rf_additional_protected_paths merged, fm_protected f)
                     (rf_additional_protected_paths child) in
  let rules := foldl (keyed_put (filesystem_rule_key dialect) rule_key_eqb)
                 (rf_rules merged, fm_rules f) (rf_rules child) in
  {| fm_merged := Some {|
       rf_mode := rf_mode merged;
       rf_glob_scan_max_depth := replace_present (rf_glob_scan_max_depth merged) (rf_glob_scan_max_depth child);
       rf_additional_protected_paths := protected.1;
       rf_security := match rf_security child with
                      | Some security => Some (merge_security (rf_security merged) security)
                      | None => rf_security merged
                      end;
       rf_rules := rules.1 |};
     fm_rules := rules.2; fm_protected := protected.2 |}.

Definition merge_gateway (parent : option RawGatewayConfig) (child : RawGatewayConfig) : RawGatewayConfig :=
  let merged := default default_gateway parent in {|
    rg_handshake_timeout_ms := replace_present (rg_handshake_timeout_ms merged) (rg_handshake_timeout_ms child);
    rg_dns_timeout_ms := replace_present (rg_dns_timeout_ms merged) (rg_dns_timeout_ms child);
    rg_connect_timeout_ms := replace_present (rg_connect_timeout_ms merged) (rg_connect_timeout_ms child);
    rg_response_header_timeout_ms :=
      replace_present (rg_response_header_timeout_ms merged) (rg_response_header_timeout_ms child);
    rg_relay_idle_timeout_ms := replace_present (rg_relay_idle_timeout_ms merged) (rg_relay_idle_timeout_ms child);
    rg_max_concurrent_connections :=
      replace_present (rg_max_concurrent_connections merged) (rg_max_concurrent_connections child);
    rg_max_requests_per_connection :=
      replace_present (rg_max_requests_per_connection merged) (rg_max_requests_per_connection child);
    rg_max_resolved_addresses :=
      replace_present (rg_max_resolved_addresses merged) (rg_max_resolved_addresses child);
    rg_http_header_bytes := replace_present (rg_http_header_bytes merged) (rg_http_header_bytes child);
    rg_relay_byte_limit := replace_present (rg_relay_byte_limit merged) (rg_relay_byte_limit child)
  |}.

(** The mode of [merge_network]: [External] drops what was inherited, the local
    endpoints included. *)
Definition network_mode_step (n : NetworkMerger) (l : LocalIpcMerger) (child : RawNetwork) :
  NetworkMerger * LocalIpcMerger :=
  let merged := default default_network (nm_merged n) in
  match rn_mode child with
  | None => ({| nm_merged := Some merged; nm_domains := nm_domains n; nm_sockets := nm_sockets n |}, l)
  | Some mode =>
      if bool_decide (mode = RawNetExternal)
      then ({| nm_merged := Some {| rn_mode := Some mode; rn_domain_mode := None; rn_unix_socket_mode := None;
                 rn_local_network_access := None; rn_gateway := rn_gateway merged;
                 rn_domains := []; rn_unix_sockets := [] |};
               nm_domains := []; nm_sockets := [] |},
            {| lm_merged := None; lm_unix := []; lm_pipes := [] |})
      else ({| nm_merged := Some {| rn_mode := Some mode; rn_domain_mode := rn_domain_mode merged;
                 rn_unix_socket_mode := rn_unix_socket_mode merged;
                 rn_local_network_access := rn_local_network_access merged; rn_gateway := rn_gateway merged;
                 rn_domains := rn_domains merged; rn_unix_sockets := rn_unix_sockets merged |};
               nm_domains := nm_domains n; nm_sockets := nm_sockets n |}, l)
  end.

Definition merge_network (n : NetworkMerger) (l : LocalIpcMerger) (child : RawNetwork) :
  NetworkMerger * LocalIpcMerger :=
  let '(n, l) := network_mode_step n l child in
  let merged := default default_network (nm_merged n) in
  let domains := foldl (keyed_put (fun r => domain_rule_key (rd_pattern r)) string_eqb)
                   (rn_domains merged, nm_domains n) (rn_domains child) in
  let sockets := foldl (keyed_put (fun r => text_key (ru_path r)) path_key_eqb)
                   (rn_unix_sockets merged, nm_sockets n) (rn_unix_sockets child) in
  ({| nm_merged := Some {|
        rn_mode := rn_mode merged;
        rn_domain_mode := replace_present (rn_domain_mode merged) (rn_domain_mode child);
        rn_unix_socket_mode := replace_present (rn_unix_socket_mode merged) (rn_unix_socket_mode child);
        rn_local_network_access :=
          replace_present (rn_local_network_access merged) (rn_local_network_access child);
        rn_gateway := match rn_gateway child with
                      | Some gateway => Some (merge_gateway (rn_gateway merged) gateway)
                      | None => rn_gateway merged
                      end;
        rn_domains := domains.1; rn_unix_sockets := sockets.1 |};
      nm_domains := domains.2; nm_sockets := sockets.2 |}, l).

Definition merge_local_ipc (l : LocalIpcMerger) (child : RawLocalIpc) : LocalIpcMerger :=
  let merged := default default_local_ipc (lm_merged l) in
  let unix := foldl (keyed_put text_key path_key_eqb)
                (rl_unix_sockets merged, lm_unix l) (rl_unix_sockets child) in
  let pipes := foldl (keyed_put to_ascii_lowercase string_eqb)
                 (rl_named_pipes merged, lm_pipes l) (rl_named_pipes child) in
  {| lm_merged := Some {| rl_unix_sockets := unix.1; rl_named_pipes := pipes.1 |};
     lm_unix := unix.2; lm_pipes := pipes.2 |}.

Definition merge_approval (merged : option RawApproval) (child : RawApproval) : RawApproval :=
  let merged := default default_approval merged in {|
    ra_mode := replace_present (ra_mode merged) (ra_mode child);
    ra_timeout_ms := replace_present (ra_timeout_ms merged) (ra_timeout_ms child);
    ra_on_timeout := replace_present (ra_on_timeout merged) (ra_on_timeout child);
    ra_persistence := replace_present (ra_persistence merged) (ra_persistence child)
  |}.

Definition merge_runtime (x : RuntimeMerger) (child : RawRuntime) : RuntimeMerger :=
  let merged := default default_runtime (xm_merged x) in
  let roots := foldl (keyed_put text_key path_key_eqb)
                 (rr_executable_roots merged, xm_roots x) (rr_executable_roots child) in
  {| xm_merged := Some {| rr_executable_roots := roots.1 |}; xm_roots := roots.2 |}.

(** The overrides a section declares, in the order [merge_environment] records
    them. *)
Definition environment_overrides (child : RawEnvironment) : list (string * option string) :=
  ((fun e => (e.1, Some e.2)) <$> re_set child) ++ ((fun name => (name, None)) <$> re_remove child).

Definition override_put (m : BTreeMap EnvironmentNameKey (string * option string))
    (o : string * option string) : BTreeMap EnvironmentNameKey (string * option string) :=
  bt_insert (name_key o.1) o m.

Definition merge_environment (merged child : RawEnvironment)
    (filter_keys : list (EnvironmentFilterKey * string))
    (overrides : BTreeMap EnvironmentNameKey (string * option string)) :
  RawEnvironment * list (EnvironmentFilterKey * string) * BTreeMap EnvironmentNameKey (string * option string) :=
  let filters := foldl (indexed_put environment_filter_key filter_key_eqb)
                   (re_filters merged, filter_keys) (re_filters child) in
  ({| re_inherit := replace_present (re_inherit merged) (re_inherit child);
      re_filters := filters.1; re_set := re_set merged; re_remove := re_remove merged |},
   filters.2, foldl override_put overrides (environment_overrides child)).

Definition merge_stdio (parent : option RawStdio) (child : RawStdio) : RawStdio :=
  let merged := default default_stdio parent in {|
    rio_stdin := replace_present (rio_stdin merged) (rio_stdin child);
    rio_stdout := replace_present (rio_stdout merged) (rio_stdout child);
    rio_stderr := replace_present (rio_stderr merged) (rio_stderr child)
  |}.

Definition merge_timeout (parent : option RawTimeout) (child : RawTimeout) : RawTimeout :=
  let merged := default default_timeout parent in
  let merged :=
    match rt_mode child with
    | None => merged
    | Some mode =>
        {| rt_mode := Some mode;
           rt_milliseconds :=
             match rt_milliseconds child, mode with
             | None, RawBackendDefault | None, RawDisabled => None
             | _, _ => rt_milliseconds merged
             end |}
    end in
  {| rt_mode := rt_mode merged;
     rt_milliseconds := replace_present (rt_milliseconds merged) (rt_milliseconds child) |}.

(** The environment of [merge_command] *)
Definition command_environment (c : CommandMerger) (merged : option RawEnvironment)
    (child : option RawEnvironment) :
  option RawEnvironment * list (EnvironmentFilterKey * string)
    * BTreeMap EnvironmentNameKey (string * option string) :=
  match child with
  | None => (merged, cm_filters c, cm_overrides c)
  | Some environment =>
      let '(e, f, o) := merge_environment (default default_environment merged) environment
                          (cm_filters c) (cm_overrides c) in
      (Some e, f, o)
  end.

Definition merge_command (c : CommandMerger) (child : RawCommand) : CommandMerger :=
  let merged := default default_command (cm_merged c) in
  let '(environment, filters, overrides) :=
    command_environment c (rcm_environment merged) (rcm_environment child) in
  {| cm_merged := Some {|
       rcm_program := replace_present (rcm_program merged) (rcm_program child);
       rcm_args := replace_present (rcm_args merged) (rcm_args child);
       rcm_working_directory := replace_present (rcm_working_directory merged) (rcm_working_directory child);
       rcm_environment := environment;
       rcm_stdio := match rcm_stdio child with
                    | Some stdio => Some (merge_stdio (rcm_stdio merged) stdio)
                    | None => rcm_stdio merged
                    end;
       rcm_timeout := match rcm_timeout child with
                      | Some timeout => Some (merge_timeout (rcm_timeout merged) timeout)
                      | None => rcm_timeout merged
                      end |};
     cm_filters := filters; cm_overrides := overrides |}.

(** [if let Some(section) = section { merge(section); }] *)
Definition if_present {S A} (merge : S -> A -> S) (st : S) (section : option A) : S :=
  match section with Some s => merge st s | None => st end.

(** The sections [apply] and [apply_platform_overlay] merge in the same order. *)
Definition merge_sections (m : ProfileMerger) (description : option string)
    (workspace_roots : BTreeMap string bool) (filesystem : option RawFilesystem)
    (network : option RawNetwork) (local_ipc : option RawLocalIpc) (command : option RawCommand)
    (approval : option RawApproval) (runtime : option RawRuntime) : ProfileMerger :=
  let '(n, l) := match network with
                 | Some child => merge_network (pm_network m) (pm_local_ipc m) child
                 | None => (pm_network m, pm_local_ipc m)
                 end in {|
    pm_description := description;
    pm_workspace := merge_workspace_roots (pm_workspace m) workspace_roots;
    pm_filesystem := if_present merge_filesystem (pm_filesystem m) filesystem;
    pm_network := n;
    pm_local_ipc := if_present merge_local_ipc l local_ipc;
    pm_command := if_present merge_command (pm_command m) command;
    pm_approval := if_present (fun a c => Some (merge_approval a c)) (pm_approval m) approval;
    pm_runtime := if_present merge_runtime (pm_runtime m) runtime
  |}.

Definition apply_platform_overlay (m : ProfileMerger) (overlay : RawPlatformProfile) : ProfileMerger :=
  merge_sections m (replace_present (pm_description m) (rpp_description overlay))
    (rpp_workspace_roots overlay) (rpp_filesystem overlay) (rpp_network overlay)
    (rpp_local_ipc overlay) (rpp_command overlay) (rpp_approval overlay) (rpp_runtime overlay).

(** [ProfileMerger::apply] *)
Definition merger_apply (m : ProfileMerger) (profile : RawProfile) (platform : option PlatformId) :
  ProfileMerger :=
  let m := merge_sections m (rp_description profile)
             (rp_workspace_roots profile) (rp_filesystem profile) (rp_network profile)
             (rp_local_ipc profile) (rp_command profile) (rp_approval profile) (rp_runtime profile) in
  match platform with
  | None => m
  | Some platform => if_present apply_platform_overlay m (bt_get platform (rp_platforms profile))
  end.

(** The overrides rebuilt by [finish], in the order of their identities. *)
Definition finish_put (e : RawEnvironment) (o : EnvironmentNameKey * (string * option string)) :
  RawEnvironment :=
  match o.2 with
  | (name, Some value) => {| re_inherit := re_inherit e; re_filters := re_filters e;
                             re_set := bt_insert name value (re_set e); re_remove := re_remove e |}
  | (name, None) => {| re_inherit := re_inherit e; re_filters := re_filters e;
                       re_set := re_set e; re_remove := re_remove e ++ [name] |}
  end.

Definition finish_environment (overrides : BTreeMap EnvironmentNameKey (string * option string))
    (e : RawEnvironment) : RawEnvironment :=
  foldl finish_put {| re_inherit := re_inherit e; re_filters := re_filters e; re_set := []; re_remove := [] |}
    overrides.

Definition finish_command (c : CommandMerger) : option RawCommand :=
  (fun command => {| rcm_program := rcm_program command; rcm_args := rcm_args command;
                     rcm_working_directory := rcm_working_directory command;
                     rcm_environment := finish_environment (cm_overrides c) <$> rcm_environment command;
                     rcm_stdio := rcm_stdio command; rcm_timeout := rcm_timeout command |})
    <$> cm_merged c.

(** [ProfileMerger::finish] *)
Definition merger_finish (m : ProfileMerger) : MergedProfile := {|
  mp_description := pm_description m;
  mp_workspace_roots := wm_merged (pm_workspace m);
  mp_filesystem := fm_merged (pm_filesystem m);
  mp_network := nm_merged (pm_network m);
  mp_local_ipc := lm_merged (pm_local_ipc m);
  mp_command := finish_command (pm_command m);
  mp_approval := pm_approval m;
  mp_runtime := xm_merged (pm_runtime m)
|}.

End merger.

(** * Identities are equivalences *)

#[global] Instance path_key_eq : KeyEq path_key_eqb := eqdec_key_eq.
#[global] Instance string_key_eq : KeyEq string_eqb := eqdec_key_eq.

#[global] Instance rule_key_eq : KeyEq rule_key_eqb.
Proof.
  assert (forall s : PathSelector, selectors_equal s s = true) as Hr by apply selectors_equal_equiv.
  assert (forall s t : PathSelector, selectors_equal s t = selectors_equal t s) as Hs.
  { intros s t. apply eq_true_iff_eq. split; apply selectors_equal_equiv. }
  assert (forall s t u : PathSelector, selectors_equal s t = true -> selectors_equal t u = true ->
            selectors_equal s u = true) as Ht by apply selectors_equal_equiv.
  split.
  - intros [t [s|p|]|t [p|p|]]; simpl; rewrite ?bool_decide_eq_true_2 by done; simpl; auto.
  - intros [t [s|p|]|t [p|p|]] [u [s'|p'|]|u [p'|p'|]]; simpl; try done;
      rewrite (bool_decide_ext (t = u) (u = t)) by (split; congruence); try done;
      first [by rewrite Hs|by rewrite (bool_decide_ext (p = p') (p' = p)) by (split; congruence)].
  - intros [t [s|p|]|t [p|p|]] [u [s'|p'|]|u [p'|p'|]] [v [s2|p2|]|v [p2|p2|]]; simpl; try done;
      rewrite ?andb_false_r; try done; rewrite !andb_true_iff, ?bool_decide_eq_true; try (intros; naive_solver).
Qed.

#[global] Instance filter_key_eq `{Unicode, WildMatch} : KeyEq filter_key_eqb.
Proof.
  split.
  - intros [p|s]; by apply bool_decide_eq_true.
  - intros [p|s] [q|t]; simpl; try done; apply bool_decide_ext; split; congruence.
  - intros [p|s] [q|t] [r|u]; simpl; try done; rewrite !bool_decide_eq_true; congruence.
Qed.
