(* ===== verification/ConfigLayers.v ===== *)
(** [cageforge-config]: what merging a sequence of profiles means.  A profile
    contributes a layer of sections, and a second one for the overlay of the
    selected platform; the merged profile is described section by section from
    the sequence of layers, without the merger's indexes. *)

From Stdlib Require Import Ascii String NArith Lia.
From stdpp Require Import base option strings gmap sets sorting list.
From S2P Require Import Prelude Keyed Text BTree NativePath PlatformPath Access Selector PathPattern Domain Environment Permissions ConfigError ConfigModel Indexed ConfigMerge.

(** * Layers *)

(** The sections of a profile, as the layer its overlays have. *)
Definition base_layer (p : RawProfile) : RawPlatformProfile := {|
  rpp_description := rp_description p; rpp_workspace_roots := rp_workspace_roots p;
  rpp_filesystem := rp_filesystem p; rpp_network := rp_network p; rpp_local_ipc := rp_local_ipc p;
  rpp_command := rp_command p; rpp_approval := rp_approval p; rpp_runtime := rp_runtime p
|}.

Definition profile_layers (platform : option PlatformId) (p : RawProfile) : list RawPlatformProfile :=
  base_layer p :: option_list (platform ≫= fun id => bt_get id (rp_platforms p)).

Definition layers (platform : option PlatformId) (ps : list RawProfile) : list RawPlatformProfile :=
  mjoin (profile_layers platform <$> ps).

(** The last value given for a field. *)
Definition last_some {A B} (f : A -> option B) (l : list A) : option B := last (omap f l).

Lemma last_some_snoc {A B} (f : A -> option B) l x :
  last_some f (l ++ [x]) = replace_present (last_some f l) (f x).
Proof.
  unfold last_some. rewrite omap_app. simpl. destruct (f x); [by rewrite last_snoc|]. by rewrite app_nil_r.
Qed.

Lemma omap_snoc {A B} (f : A -> option B) l x : omap f (l ++ [x]) = omap f l ++ option_list (f x).
Proof. rewrite omap_app. simpl. by destruct (f x). Qed.

Section layers.
Context {U : Unicode} {G : Globset} {W : WildMatch}.
Context (dialect : PathDialect).

Abbreviation text_key := (fun p : string => PlatformPathKey_new p dialect).
Abbreviation fs_key := (filesystem_rule_key dialect).

(** * Filesystem *)

(** The layers that still count: those from the last one whose mode is not
    [Restricted] on. *)
Definition resets (f : RawFilesystem) : bool :=
  match rf_mode f with Some RawUnrestricted | Some RawExternal => true | _ => false end.

Definition effective_layers (fs : list RawFilesystem) : list RawFilesystem :=
  foldl (fun acc f => if resets f then [f] else acc ++ [f]) [] fs.

Lemma effective_layers_snoc fs f :
  effective_layers (fs ++ [f]) = if resets f then [f] else effective_layers fs ++ [f].
Proof. unfold effective_layers. by rewrite foldl_snoc. Qed.

Definition layer_rules (fs : list RawFilesystem) : list RawFilesystemRule :=
  mjoin (rf_rules <$> effective_layers fs).
Definition layer_protected (fs : list RawFilesystem) : list string :=
  mjoin (rf_additional_protected_paths <$> effective_layers fs).
Definition layer_git (f : RawFilesystem) : option bool :=
  rf_security f ≫= rs_dangerously_allow_git_write.

Record filesystem_merged (fs : list RawFilesystem) (m : RawFilesystem) : Prop := {
  fs_mode : rf_mode m = last_some rf_mode fs;
  fs_depth : rf_glob_scan_max_depth m = last_some rf_glob_scan_max_depth (effective_layers fs);
  fs_git : layer_git m = last_some layer_git (effective_layers fs);
  fs_distinct : distinct fs_key rule_key_eqb (rf_rules m);
  fs_rules k : last_with fs_key rule_key_eqb k (rf_rules m) = last_with fs_key rule_key_eqb k (layer_rules fs);
  fs_protected_nodup : NoDup (text_key <$> rf_additional_protected_paths m);
  fs_protected k : k ∈ text_key <$> rf_additional_protected_paths m <-> k ∈ text_key <$> layer_protected fs;
  fs_protected_sub p : p ∈ rf_additional_protected_paths m -> p ∈ layer_protected fs;
  fs_rules_sub r : r ∈ rf_rules m -> r ∈ layer_rules fs
}.

Record filesystem_state (fs : list RawFilesystem) (f : FilesystemMerger) : Prop := {
  fst_some : is_Some (fm_merged f) <-> fs <> [];
  fst_merged : filesystem_merged fs (default default_filesystem (fm_merged f));
  fst_keyed : keyed_ok fs_key rule_key_eqb (rf_rules (default default_filesystem (fm_merged f)), fm_rules f);
  fst_protected : fm_protected f =
    text_key <$> rf_additional_protected_paths (default default_filesystem (fm_merged f))
}.

Lemma protected_fold st l :
  st.2 = text_key <$> st.1 -> NoDup st.2 ->
  let st' := foldl (protected_put dialect) st l in
  st'.2 = text_key <$> st'.1 /\ NoDup st'.2 /\
  (forall k, k ∈ st'.2 <-> k ∈ text_key <$> st.1 ++ l) /\
  (forall p, p ∈ st'.1 -> p ∈ st.1 ++ l).
Proof.
  intros Heq Hnd. induction l as [|p l IH] using rev_ind; cbv zeta in *.
  { rewrite app_nil_r. split_and!; [done|done| |done]. intros k. simpl. by rewrite Heq. }
  rewrite foldl_snoc. destruct IH as (He & Hn & Hk & Hs). set (st' := foldl _ st l) in *.
  unfold protected_put. case_bool_decide as Hin.
  - split_and!; [done|done| |set_solver]. intros k. rewrite Hk.
    rewrite Hk in Hin. rewrite app_assoc, (fmap_app _ (st.1 ++ l) [p]), elem_of_app, list_fmap_singleton, list_elem_of_singleton.
    split; [by left|]. by intros [?| ->].
  - simpl. split_and!.
    + by rewrite fmap_app, <- He.
    + apply NoDup_app. split_and!; [done|set_solver|apply NoDup_singleton].
    + intros k. by rewrite app_assoc, (fmap_app _ (st.1 ++ l) [p]), !elem_of_app, Hk.
    + set_solver.
Qed.

Lemma mode_step_shape f child :
  filesystem_mode_step f child =
  let m := default default_filesystem (fm_merged f) in
  if resets child
  then {| fm_merged := Some {| rf_mode := rf_mode child; rf_glob_scan_max_depth := None;
            rf_additional_protected_paths := []; rf_security := None; rf_rules := [] |};
          fm_rules := []; fm_protected := [] |}
  else {| fm_merged := Some {| rf_mode := replace_present (rf_mode m) (rf_mode child);
            rf_glob_scan_max_depth := rf_glob_scan_max_depth m;
            rf_additional_protected_paths := rf_additional_protected_paths m;
            rf_security := rf_security m; rf_rules := rf_rules m |};
          fm_rules := fm_rules f; fm_protected := fm_protected f |}.
Proof.
  unfold filesystem_mode_step, resets. destruct (rf_mode child) as [[]|]; try done. simpl.
  by destruct (default default_filesystem (fm_merged f)).
Qed.

(** What the mode of a layer leaves of the layers below it. *)
Lemma mode_step_ok fs f child :
  filesystem_state fs f ->
  let f' := filesystem_mode_step f child in
  let m := default default_filesystem (fm_merged f') in
  let kept := if resets child then [] else effective_layers fs in
  rf_mode m = last_some rf_mode (fs ++ [child]) /\
  rf_glob_scan_max_depth m = last_some rf_glob_scan_max_depth kept /\
  layer_git m = last_some layer_git kept /\
  keyed_ok fs_key rule_key_eqb (rf_rules m, fm_rules f') /\
  (forall k, last_with fs_key rule_key_eqb k (rf_rules m)
     = last_with fs_key rule_key_eqb k (mjoin (rf_rules <$> kept))) /\
  (forall r, r ∈ rf_rules m -> r ∈ mjoin (rf_rules <$> kept)) /\
  fm_protected f' = text_key <$> rf_additional_protected_paths m /\ NoDup (fm_protected f') /\
  (forall k, k ∈ fm_protected f' <-> k ∈ text_key <$> mjoin (rf_additional_protected_paths <$> kept)) /\
  (forall p, p ∈ rf_additional_protected_paths m -> p ∈ mjoin (rf_additional_protected_paths <$> kept)).
Proof.
  intros [_ [] Hkey Hprot]. cbv zeta. rewrite last_some_snoc, mode_step_shape.
  destruct (resets child) eqn:Hr; cbn [fm_merged fm_rules fm_protected default rf_mode rf_glob_scan_max_depth
    rf_additional_protected_paths rf_security rf_rules].
  - split_and!; [|done|done|apply keyed_ok_nil|done|done|done|apply NoDup_nil_2|done|done].
    unfold resets in Hr. by destruct (rf_mode child) as [[]|].
  - split_and!; [by rewrite fs_mode0|done|done|done|done|done|done|by rewrite Hprot|by rewrite Hprot|done].
Qed.

Lemma effective_layers_kept fs child :
  effective_layers (fs ++ [child]) = (if resets child then [] else effective_layers fs) ++ [child].
Proof. rewrite effective_layers_snoc. by destruct (resets child). Qed.

Lemma mjoin_snoc {A B} (f : A -> list B) l x : mjoin (f <$> l ++ [x]) = mjoin (f <$> l) ++ f x.
Proof. rewrite fmap_app, join_app. simpl. by rewrite app_nil_r. Qed.

(** A vector merged by identity holds only what was declared. *)
Lemma keyed_fold_sub {R K} (key : R -> K) keqb `{!KeyEq keqb} st l r :
  keyed_ok key keqb st -> r ∈ (foldl (keyed_put key keqb) st l).1 -> r ∈ st.1 ++ l.
Proof.
  intros Hst. destruct (keyed_fold_ok key keqb st l Hst) as [[Hd _] Hl].
  rewrite (distinct_last key keqb) by done. rewrite Hl. by intros [? _]%last_with_Some.
Qed.

Lemma merge_filesystem_ok fs f child :
  filesystem_state fs f -> filesystem_state (fs ++ [child]) (merge_filesystem dialect f child).
Proof.
  intros Hst. pose proof (mode_step_ok fs f child Hst) as H. cbv zeta in H.
  unfold merge_filesystem. set (f' := filesystem_mode_step f child) in *.
  set (m := default default_filesystem (fm_merged f')) in *.
  destruct H as (Hmode & Hdepth & Hgit & Hkeyed & Hrules & Hsub & Hprot & Hnd & Hpk & Hps).
  destruct (keyed_fold_ok _ _ _ (rf_rules child) Hkeyed) as [Hkeyed' Hlast].
  destruct (protected_fold (rf_additional_protected_paths m, fm_protected f') (rf_additional_protected_paths child)
    Hprot Hnd) as (Hp1 & Hp2 & Hp3 & Hp4). cbv zeta in *.
  split; cbn [fm_merged fm_rules fm_protected default id]; [..|by destruct (foldl _ _ (rf_rules child))|done].
  { split; [|eauto]. intros _ Hnil. by apply app_eq_nil in Hnil as [_ ?]. }
  split; cbn [rf_mode rf_glob_scan_max_depth rf_additional_protected_paths rf_security rf_rules];
    unfold layer_rules, layer_protected; rewrite ?effective_layers_kept, ?mjoin_snoc, ?last_some_snoc.
  - by rewrite Hmode, last_some_snoc.
  - by rewrite Hdepth.
  - unfold layer_git at 1. cbn [rf_security]. rewrite <- Hgit. unfold layer_git.
    destruct (rf_security child) as [[g]|]; [|done]. simpl. by destruct (rf_security m) as [[g']|].
  - apply Hkeyed'.
  - intros k. by rewrite Hlast, !last_with_app, Hrules.
  - by rewrite <- Hp1.
  - intros k. rewrite <- Hp1, Hp3. cbn [fst]. by rewrite !fmap_app, !elem_of_app, <- Hprot, Hpk.
  - intros p Hp%Hp4. simpl in Hp. apply elem_of_app in Hp as [Hp|Hp]; apply elem_of_app; auto.
  - intros r Hr%keyed_fold_sub; [|typeclasses eauto|done]. apply elem_of_app in Hr as [Hr|Hr]; apply elem_of_app; auto.
Qed.

Lemma merge_filesystem_layers fs :
  filesystem_state fs (foldl (merge_filesystem dialect) {| fm_merged := None; fm_rules := []; fm_protected := [] |} fs).
Proof.
  induction fs as [|child fs IH] using rev_ind; [|rewrite foldl_snoc; by apply merge_filesystem_ok].
  split; [by split; [intros []|]| |apply keyed_ok_nil|done].
  split; try done. apply NoDup_nil_2.
Qed.

(** * Network and local endpoints *)

(** Merging one vector by identity, from what the layers below left. *)
Lemma keyed_layer {R K} (key : R -> K) keqb `{!KeyEq keqb} es ps declared l :
  keyed_ok key keqb (es, ps) -> (forall k, last_with key keqb k es = last_with key keqb k declared) ->
  let st := foldl (keyed_put key keqb) (es, ps) l in
  keyed_ok key keqb (st.1, st.2) /\
  (forall k, last_with key keqb k st.1 = last_with key keqb k (declared ++ l)).
Proof.
  intros Hok Hl. destruct (keyed_fold_ok key keqb (es, ps) l Hok) as [Hok' Hlast]. cbv zeta.
  split; [by destruct (foldl _ _ _)|]. intros k. rewrite Hlast. simpl. by rewrite !last_with_app, Hl.
Qed.

Definition resets_network (n : RawNetwork) : bool :=
  match rn_mode n with Some RawNetExternal => true | _ => false end.

Definition effective_networks (ns : list RawNetwork) : list RawNetwork :=
  foldl (fun acc n => if resets_network n then [n] else acc ++ [n]) [] ns.

Lemma effective_networks_kept ns n :
  effective_networks (ns ++ [n]) = (if resets_network n then [] else effective_networks ns) ++ [n].
Proof. unfold effective_networks. rewrite foldl_snoc. by destruct (resets_network n). Qed.

(** A field of the merged gateway section. *)
Definition gateway_merged (ns : list RawNetwork) (g : option RawGatewayConfig) : Prop :=
  (forall field, field ∈ [rg_handshake_timeout_ms; rg_dns_timeout_ms; rg_connect_timeout_ms;
      rg_response_header_timeout_ms; rg_relay_idle_timeout_ms; rg_max_concurrent_connections;
      rg_max_requests_per_connection; rg_max_resolved_addresses; rg_http_header_bytes] ->
     g ≫= field = last_some (fun n => rn_gateway n ≫= field) ns) /\
  g ≫= rg_relay_byte_limit = last_some (fun n => rn_gateway n ≫= rg_relay_byte_limit) ns.

Lemma gateway_merged_snoc ns n g :
  gateway_merged ns g ->
  gateway_merged (ns ++ [n])
    (match rn_gateway n with Some gateway => Some (merge_gateway g gateway) | None => g end).
Proof.
  intros [Hf Hr]. split; [intros field Hin; specialize (Hf field Hin); revert Hf|revert Hr];
    rewrite last_some_snoc; intros <-; (destruct (rn_gateway n) as [gateway|]; [|done]); simpl;
    [|by destruct g].
  repeat (apply elem_of_cons in Hin as [->|Hin]; [by destruct g|]). by apply not_elem_of_nil in Hin.
Qed.

Abbreviation domain_key := (fun r : RawDomainRule => domain_rule_key (rd_pattern r)).
Abbreviation socket_key := (fun r : RawUnixSocketRule => PlatformPathKey_new (ru_path r) dialect).

Record network_merged (ns : list RawNetwork) (m : RawNetwork) : Prop := {
  nt_mode : rn_mode m = last_some rn_mode ns;
  nt_domain_mode : rn_domain_mode m = last_some rn_domain_mode (effective_networks ns);
  nt_unix_mode : rn_unix_socket_mode m = last_some rn_unix_socket_mode (effective_networks ns);
  nt_local : rn_local_network_access m = last_some rn_local_network_access (effective_networks ns);
  nt_gateway : gateway_merged ns (rn_gateway m);
  nt_domains_distinct : distinct domain_key string_eqb (rn_domains m);
  nt_domains k : last_with domain_key string_eqb k (rn_domains m)
    = last_with domain_key string_eqb k (mjoin (rn_domains <$> effective_networks ns));
  nt_sockets_distinct : distinct socket_key path_key_eqb (rn_unix_sockets m);
  nt_sockets k : last_with socket_key path_key_eqb k (rn_unix_sockets m)
    = last_with socket_key path_key_eqb k (mjoin (rn_unix_sockets <$> effective_networks ns))
}.

Record network_state (ns : list RawNetwork) (n : NetworkMerger) : Prop := {
  nst_some : is_Some (nm_merged n) <-> ns <> [];
  nst_merged : network_merged ns (default default_network (nm_merged n));
  nst_domains : keyed_ok domain_key string_eqb (rn_domains (default default_network (nm_merged n)), nm_domains n);
  nst_sockets : keyed_ok socket_key path_key_eqb
    (rn_unix_sockets (default default_network (nm_merged n)), nm_sockets n)
}.

Lemma network_step_shape n l child :
  network_mode_step n l child =
  let m := default default_network (nm_merged n) in
  if resets_network child
  then ({| nm_merged := Some {| rn_mode := rn_mode child; rn_domain_mode := None; rn_unix_socket_mode := None;
             rn_local_network_access := None; rn_gateway := rn_gateway m; rn_domains := []; rn_unix_sockets := [] |};
           nm_domains := []; nm_sockets := [] |},
        {| lm_merged := None; lm_unix := []; lm_pipes := [] |})
  else ({| nm_merged := Some {| rn_mode := replace_present (rn_mode m) (rn_mode child);
             rn_domain_mode := rn_domain_mode m; rn_unix_socket_mode := rn_unix_socket_mode m;
             rn_local_network_access := rn_local_network_access m; rn_gateway := rn_gateway m;
             rn_domains := rn_domains m; rn_unix_sockets := rn_unix_sockets m |};
           nm_domains := nm_domains n; nm_sockets := nm_sockets n |}, l).
Proof.
  unfold network_mode_step, resets_network. destruct (rn_mode child) as [[]|]; try done. simpl.
  by destruct (default default_network (nm_merged n)).
Qed.

Lemma network_step_ok ns n l child :
  network_state ns n ->
  let n' := (network_mode_step n l child).1 in
  let m := default default_network (nm_merged n') in
  let kept := if resets_network child then [] else effective_networks ns in
  rn_mode m = last_some rn_mode (ns ++ [child]) /\
  rn_domain_mode m = last_some rn_domain_mode kept /\
  rn_unix_socket_mode m = last_some rn_unix_socket_mode kept /\
  rn_local_network_access m = last_some rn_local_network_access kept /\
  gateway_merged ns (rn_gateway m) /\
  keyed_ok domain_key string_eqb (rn_domains m, nm_domains n') /\
  (forall k, last_with domain_key string_eqb k (rn_domains m)
     = last_with domain_key string_eqb k (mjoin (rn_domains <$> kept))) /\
  keyed_ok socket_key path_key_eqb (rn_unix_sockets m, nm_sockets n') /\
  (forall k, last_with socket_key path_key_eqb k (rn_unix_sockets m)
     = last_with socket_key path_key_eqb k (mjoin (rn_unix_sockets <$> kept))).
Proof.
  intros [_ [] Hd Hs]. cbv zeta. rewrite last_some_snoc, network_step_shape.
  destruct (resets_network child) eqn:Hr; cbn [fst nm_merged nm_domains nm_sockets default id rn_mode rn_domain_mode
    rn_unix_socket_mode rn_local_network_access rn_gateway rn_domains rn_unix_sockets].
  - split_and!; [|done|done|done|done|apply keyed_ok_nil|done|apply keyed_ok_nil|done].
    unfold resets_network in Hr. by destruct (rn_mode child) as [[]|].
  - split_and!; [by rewrite nt_mode0|done..].
Qed.

Lemma merge_network_ok ns n l child :
  network_state ns n -> network_state (ns ++ [child]) (merge_network dialect n l child).1.
Proof.
  intros Hst. pose proof (network_step_ok ns n l child Hst) as H. cbv zeta in H.
  unfold merge_network. destruct (network_mode_step n l child) as [n' l']. cbn [fst] in *.
  set (m := default default_network (nm_merged n')) in *.
  destruct H as (Hmode & Hdm & Hum & Hloc & Hg & Hd & Hdl & Hs & Hsl).
  destruct (keyed_layer _ _ _ _ _ (rn_domains child) Hd Hdl) as [Hd' Hdl'].
  destruct (keyed_layer _ _ _ _ _ (rn_unix_sockets child) Hs Hsl) as [Hs' Hsl']. cbv zeta in *.
  split; cbn [nm_merged nm_domains nm_sockets default id]; [..|done|done].
  { split; [|eauto]. intros _ Hnil. by apply app_eq_nil in Hnil as [_ ?]. }
  split; cbn [rn_mode rn_domain_mode rn_unix_socket_mode rn_local_network_access rn_gateway rn_domains
      rn_unix_sockets]; rewrite ?effective_networks_kept, ?mjoin_snoc, ?last_some_snoc.
  - by rewrite Hmode, last_some_snoc.
  - by rewrite Hdm.
  - by rewrite Hum.
  - by rewrite Hloc.
  - by apply gateway_merged_snoc.
  - apply Hd'.
  - done.
  - apply Hs'.
  - done.
Qed.

Lemma network_state_nil : network_state [] {| nm_merged := None; nm_domains := []; nm_sockets := [] |}.
Proof.
  split; [by split; [intros []|]| |apply keyed_ok_nil|apply keyed_ok_nil].
  split; try done.
Qed.

(** The endpoint sections that still count: an [External] network drops those
    of the layers below it. *)
Definition effective_ipc (ls : list RawPlatformProfile) : list RawLocalIpc :=
  foldl (fun acc l =>
    (if from_option resets_network false (rpp_network l) then [] else acc) ++ option_list (rpp_local_ipc l)) [] ls.

Lemma effective_ipc_snoc ls l :
  effective_ipc (ls ++ [l]) =
  (if from_option resets_network false (rpp_network l) then [] else effective_ipc ls) ++ option_list (rpp_local_ipc l).
Proof. unfold effective_ipc. by rewrite foldl_snoc. Qed.

Record ipc_merged (ipcs : list RawLocalIpc) (m : RawLocalIpc) : Prop := {
  ipc_unix_distinct : distinct text_key path_key_eqb (rl_unix_sockets m);
  ipc_unix k : last_with text_key path_key_eqb k (rl_unix_sockets m)
    = last_with text_key path_key_eqb k (mjoin (rl_unix_sockets <$> ipcs));
  ipc_pipes_distinct : distinct to_ascii_lowercase string_eqb (rl_named_pipes m);
  ipc_pipes k : last_with to_ascii_lowercase string_eqb k (rl_named_pipes m)
    = last_with to_ascii_lowercase string_eqb k (mjoin (rl_named_pipes <$> ipcs))
}.

Record ipc_state (ipcs : list RawLocalIpc) (l : LocalIpcMerger) : Prop := {
  ist_some : is_Some (lm_merged l) <-> ipcs <> [];
  ist_merged : ipc_merged ipcs (default default_local_ipc (lm_merged l));
  ist_unix : keyed_ok text_key path_key_eqb (rl_unix_sockets (default default_local_ipc (lm_merged l)), lm_unix l);
  ist_pipes : keyed_ok to_ascii_lowercase string_eqb
    (rl_named_pipes (default default_local_ipc (lm_merged l)), lm_pipes l)
}.

Lemma ipc_state_nil : ipc_state [] {| lm_merged := None; lm_unix := []; lm_pipes := [] |}.
Proof.
  split; [by split; [intros []|]| |apply keyed_ok_nil|apply keyed_ok_nil]. split; try done.
Qed.

Lemma merge_local_ipc_ok ipcs l child :
  ipc_state ipcs l -> ipc_state (ipcs ++ [child]) (merge_local_ipc dialect l child).
Proof.
  intros [_ [] Hu Hp]. unfold merge_local_ipc.
  destruct (keyed_layer _ _ _ _ _ (rl_unix_sockets child) Hu ipc_unix0) as [Hu' Hul].
  destruct (keyed_layer _ _ _ _ _ (rl_named_pipes child) Hp ipc_pipes0) as [Hp' Hpl]. cbv zeta in *.
  split; cbn [lm_merged lm_unix lm_pipes default id]; [..|done|done].
  { split; [|eauto]. intros _ Hnil. by apply app_eq_nil in Hnil as [_ ?]. }
  split; cbn [rl_unix_sockets rl_named_pipes]; rewrite ?mjoin_snoc; [apply Hu'|done|apply Hp'|done].
Qed.

Lemma merge_network_ipc n l child :
  (merge_network dialect n l child).2 =
  if resets_network child then {| lm_merged := None; lm_unix := []; lm_pipes := [] |} else l.
Proof. unfold merge_network. rewrite network_step_shape. by destruct (resets_network child). Qed.

(** * The other sections *)

Record runtime_state (xs : list RawRuntime) (x : RuntimeMerger) : Prop := {
  xst_some : is_Some (xm_merged x) <-> xs <> [];
  xst_keyed : keyed_ok text_key path_key_eqb (rr_executable_roots (default default_runtime (xm_merged x)), xm_roots x);
  xst_last k : last_with text_key path_key_eqb k (rr_executable_roots (default default_runtime (xm_merged x)))
    = last_with text_key path_key_eqb k (mjoin (rr_executable_roots <$> xs))
}.

Lemma runtime_state_nil : runtime_state [] {| xm_merged := None; xm_roots := [] |}.
Proof. split; [by split; [intros []|]|apply keyed_ok_nil|done]. Qed.

Lemma merge_runtime_ok xs x child :
  runtime_state xs x -> runtime_state (xs ++ [child]) (merge_runtime dialect x child).
Proof.
  intros [_ Hk Hl]. unfold merge_runtime.
  destruct (keyed_layer _ _ _ _ _ (rr_executable_roots child) Hk Hl) as [Hk' Hl']. cbv zeta in *.
  split; cbn [xm_merged xm_roots default id rr_executable_roots]; [|done|].
  - split; [|eauto]. intros _ Hnil. by apply app_eq_nil in Hnil as [_ ?].
  - intros k. by rewrite mjoin_snoc.
Qed.

Definition workspace_state (entries : list (string * bool)) (w : WorkspaceMerger) : Prop :=
  (wm_merged w, wm_keys w) = foldl (indexed_put text_key path_key_eqb) ([], []) entries.

Lemma merge_workspace_ok entries w values :
  workspace_state entries w -> workspace_state (entries ++ values) (merge_workspace_roots dialect w values).
Proof.
  unfold workspace_state, merge_workspace_roots. intros ->. rewrite foldl_app. simpl. by destruct (foldl _ _ values).
Qed.

Definition approval_merged (as_ : list RawApproval) (a : option RawApproval) : Prop :=
  (is_Some a <-> as_ <> []) /\
  a ≫= ra_mode = last_some ra_mode as_ /\ a ≫= ra_timeout_ms = last_some ra_timeout_ms as_ /\
  a ≫= ra_on_timeout = last_some ra_on_timeout as_ /\ a ≫= ra_persistence = last_some ra_persistence as_.

Lemma merge_approval_ok as_ a child :
  approval_merged as_ a -> approval_merged (as_ ++ [child]) (Some (merge_approval a child)).
Proof.
  intros (_ & Hm & Ht & Ho & Hp). split.
  { split; [|eauto]. intros _ Hnil. by apply app_eq_nil in Hnil as [_ ?]. }
  rewrite !last_some_snoc, <- Hm, <- Ht, <- Ho, <- Hp. by destruct a.
Qed.

(** * Commands *)

Abbreviation override_key := (fun o : string * option string => name_key o.1).
Abbreviation name_eqb := (fun k l : EnvironmentNameKey => bool_decide (k = l)).

(** The last override declared for an identity. *)
Definition last_override (k : EnvironmentNameKey) (os : list (string * option string)) :
  option (string * option string) := last_with override_key name_eqb k os.

Lemma override_fold os :
  let m := foldl override_put [] os in bt_wf m /\ forall k, bt_get k m = last_override k os.
Proof.
  induction os as [|o os [Hwf IH]] using rev_ind; [split; [constructor|done]|]. cbv zeta in *.
  rewrite foldl_snoc. split; [by apply bt_wf_insert|]. intros k. unfold last_override, override_put.
  rewrite last_with_snoc. case_bool_decide as Hk.
  - subst k. apply bt_get_insert.
  - rewrite bt_get_insert_ne; [apply IH|]. by intros ->%cmp_eq.
Qed.

Definition cleared (e : RawEnvironment) : RawEnvironment :=
  {| re_inherit := re_inherit e; re_filters := re_filters e; re_set := []; re_remove := [] |}.

(** Rebuilding a section from overrides listed by identity. *)
Lemma finish_fold e l :
  bt_wf l -> (forall k o, (k, o) ∈ l -> k = name_key o.1) ->
  let e' := foldl finish_put (cleared e) l in
  re_inherit e' = re_inherit e /\ re_filters e' = re_filters e /\ bt_wf (re_set e') /\
  (forall n v, bt_get n (re_set e') = Some v <-> (name_key n, (n, Some v)) ∈ l) /\
  (forall n, n ∈ re_remove e' <-> (name_key n, (n, None)) ∈ l) /\
  NoDup (name_key <$> re_remove e').
Proof.
  induction l as [|[k [n o]] l IH] using rev_ind; intros Hwf Hkey.
  { split_and!; [done|done|constructor|set_solver|set_solver|apply NoDup_nil_2]. }
  apply StronglySorted_app in Hwf as (Hlt & Hwf & _). cbv zeta in *. rewrite foldl_snoc.
  assert (k = name_key n) as -> by (apply (Hkey _ (n, o)); set_solver).
  destruct IH as (Hi & Hf & Hs & Hset & Hrem & Hnd); [done|set_solver|].
  assert (forall o', (name_key n, o') ∉ l) as Hfresh.
  { intros o' Hin. specialize (Hlt _ (name_key n, (n, o)) Hin). simpl in Hlt.
    rewrite cmp_refl in Hlt. discriminate Hlt. set_solver. }
  set (e' := foldl finish_put (cleared e) l) in *. destruct o as [v|]; unfold finish_put; simpl.
  - split_and!; [done|done|by apply bt_wf_insert| |set_solver|done]. intros n' v'.
    destruct (decide (n' = n)) as [->|Hne].
    + rewrite bt_get_insert. split; [intros [= ->]; set_solver|].
      intros [Hin|Hin]%elem_of_app; [by apply Hfresh in Hin|]. apply list_elem_of_singleton in Hin. congruence.
    + rewrite bt_get_insert_ne by (by intros ->%cmp_eq). rewrite Hset. set_solver.
  - split_and!; [done|done|done| | |].
    + intros n' v'. rewrite Hset. set_solver.
    + intros n'. rewrite !elem_of_app, Hrem, !list_elem_of_singleton. naive_solver.
    + rewrite fmap_app. apply NoDup_app. split_and!; [done| |apply NoDup_singleton].
      intros k' (n' & -> & Hin%Hrem)%list_elem_of_fmap Hk'%list_elem_of_singleton.
      rewrite Hk' in Hin. by apply Hfresh in Hin.
Qed.

(** It loses no override and adds none. *)
Lemma finish_environment_spec os e :
  let e' := finish_environment (foldl override_put [] os) e in
  re_inherit e' = re_inherit e /\ re_filters e' = re_filters e /\ bt_wf (re_set e') /\
  (forall n v, bt_get n (re_set e') = Some v <-> last_override (name_key n) os = Some (n, Some v)) /\
  (forall n, n ∈ re_remove e' <-> last_override (name_key n) os = Some (n, None)) /\
  NoDup (name_key <$> re_remove e').
Proof.
  destruct (override_fold os) as [Hwf Hget]. set (m := foldl override_put [] os) in *.
  assert (forall k o, (k, o) ∈ m -> k = name_key o.1) as Hkey.
  { intros k o Hin%(bt_elem_get _ _ _ Hwf). rewrite Hget in Hin.
    apply last_with_Some in Hin as [_ Hk]. by apply bool_decide_eq_true in Hk. }
  assert (forall o, (name_key o.1, o) ∈ m <-> last_override (name_key o.1) os = Some o) as Hiff.
  { intros o. by rewrite <- Hget, bt_get_Some. }
  destruct (finish_fold e m Hwf Hkey) as (? & ? & ? & Hset & Hrem & ?).
  split_and!; [done|done|done| | |done].
  - intros n v. change (finish_environment m e) with (foldl finish_put (cleared e) m).
    by rewrite Hset, <- (Hiff (n, Some v)).
  - intros n. change (finish_environment m e) with (foldl finish_put (cleared e) m).
    by rewrite Hrem, <- (Hiff (n, None)).
Qed.

Definition stdio_merged (cs : list RawCommand) (s : option RawStdio) : Prop :=
  s ≫= rio_stdin = last_some (fun c => rcm_stdio c ≫= rio_stdin) cs /\
  s ≫= rio_stdout = last_some (fun c => rcm_stdio c ≫= rio_stdout) cs /\
  s ≫= rio_stderr = last_some (fun c => rcm_stdio c ≫= rio_stderr) cs.

Definition layer_filters (es : list RawEnvironment) : list (string * RawEnvironmentFilterAction) :=
  mjoin ((re_filters : RawEnvironment -> list _) <$> es).

Lemma layer_filters_snoc es e : layer_filters (es ++ [e]) = layer_filters es ++ re_filters e.
Proof. apply mjoin_snoc. Qed.

(** The environment of the merged command, before [finish]. *)
Definition environment_merged (es : list RawEnvironment) (c : CommandMerger) (e : option RawEnvironment) : Prop :=
  (is_Some e <-> es <> []) /\
  e ≫= re_inherit = last_some re_inherit es /\
  (re_filters (default default_environment e), cm_filters c)
    = foldl (indexed_put environment_filter_key filter_key_eqb) ([], []) (layer_filters es) /\
  cm_overrides c = foldl override_put [] (mjoin (environment_overrides <$> es)).

(** A timeout section without a duration whose mode needs none drops the
    duration of the sections before it. *)
Definition clears_duration (t : RawTimeout) : bool :=
  match rt_mode t, rt_milliseconds t with
  | Some RawBackendDefault, None | Some RawDisabled, None => true
  | _, _ => false
  end.

(** The sections whose duration still counts: those from the last such on *)
Definition effective_timeouts (ts : list RawTimeout) : list RawTimeout :=
  foldl (fun acc t => if clears_duration t then [t] else acc ++ [t]) [] ts.

Definition timeout_merged (ts : list RawTimeout) (t : option RawTimeout) : Prop :=
  (is_Some t <-> ts <> []) /\
  t ≫= rt_mode = last_some rt_mode ts /\
  t ≫= rt_milliseconds = last_some rt_milliseconds (effective_timeouts ts).

Lemma timeout_merged_snoc ts t child : timeout_merged ts t -> timeout_merged (ts ++ [child]) (Some (merge_timeout t child)).
Proof.
  intros (_ & Hm & Ht). split_and!.
  - split; [|eauto]. intros _ Hnil. by apply app_eq_nil in Hnil as [_ ?].
  - rewrite last_some_snoc, <- Hm. unfold merge_timeout. destruct t, (rt_mode child) as [[]|], (rt_milliseconds child); done.
  - unfold effective_timeouts. rewrite foldl_snoc. fold (effective_timeouts ts).
    unfold clears_duration, merge_timeout.
    destruct (rt_mode child) as [[]|] eqn:Em, (rt_milliseconds child) eqn:Et;
      rewrite ?last_some_snoc, <- ?Ht, ?Et; try (by destruct t); unfold last_some; simpl; by rewrite Et.
Qed.

Record command_state (cs : list RawCommand) (c : CommandMerger) : Prop := {
  cst_some : is_Some (cm_merged c) <-> cs <> [];
  cst_program : cm_merged c ≫= rcm_program = last_some rcm_program cs;
  cst_args : cm_merged c ≫= rcm_args = last_some rcm_args cs;
  cst_directory : cm_merged c ≫= rcm_working_directory = last_some rcm_working_directory cs;
  cst_environment : environment_merged (omap rcm_environment cs) c (cm_merged c ≫= rcm_environment);
  cst_stdio : stdio_merged cs (cm_merged c ≫= rcm_stdio);
  cst_timeout : timeout_merged (omap rcm_timeout cs) (cm_merged c ≫= rcm_timeout)
}.

Lemma command_state_nil : command_state [] {| cm_merged := None; cm_filters := []; cm_overrides := [] |}.
Proof. split; try done; [by split; [intros []|]|..]; split_and!; try done; by split; [intros []|]. Qed.

Lemma stdio_merged_snoc cs c s :
  stdio_merged cs s ->
  stdio_merged (cs ++ [c]) (match rcm_stdio c with Some stdio => Some (merge_stdio s stdio) | None => s end).
Proof.
  intros (Hi & Ho & He). unfold stdio_merged. rewrite !last_some_snoc, <- Hi, <- Ho, <- He.
  destruct (rcm_stdio c); [|done]. by destruct s.
Qed.

Lemma command_environment_ok es c e child :
  environment_merged es c e ->
  let '(e', f, o) := command_environment c e child in
  environment_merged (es ++ option_list child) {| cm_merged := None; cm_filters := f; cm_overrides := o |} e'.
Proof.
  intros (Hs & Hi & Hf & Ho). destruct child as [child|]; simpl; [|by rewrite app_nil_r]. split_and!.
  - split; [|eauto]. intros _ Hnil. by apply app_eq_nil in Hnil as [_ ?].
  - rewrite last_some_snoc, <- Hi. by destruct e.
  - rewrite layer_filters_snoc, foldl_app, <- Hf. simpl. by destruct (foldl _ _ (re_filters child)).
  - by rewrite Ho, mjoin_snoc, foldl_app.
Qed.

Lemma merge_command_ok cs c child :
  command_state cs c -> command_state (cs ++ [child]) (merge_command c child).
Proof.
  intros [_ Hp Ha Hd He Hs Ht]. unfold merge_command.
  assert (rcm_environment (default default_command (cm_merged c)) = cm_merged c ≫= rcm_environment) as ->
    by by destruct (cm_merged c).
  pose proof (command_environment_ok _ c _ (rcm_environment child) He) as Henv.
  destruct (command_environment _ _ _) as [[e f] o]. rewrite <- omap_snoc in Henv.
  split; cbn [cm_merged mbind option_bind rcm_program rcm_args rcm_working_directory
    rcm_environment rcm_stdio rcm_timeout]; rewrite ?last_some_snoc.
  - split; [|eauto]. intros _ Hnil. by apply app_eq_nil in Hnil as [_ ?].
  - rewrite <- Hp. by destruct (cm_merged c).
  - rewrite <- Ha. by destruct (cm_merged c).
  - rewrite <- Hd. by destruct (cm_merged c).
  - exact Henv.
  - replace (rcm_stdio (default default_command (cm_merged c))) with (cm_merged c ≫= rcm_stdio)
      by by destruct (cm_merged c). by apply stdio_merged_snoc.
  - rewrite omap_snoc. replace (rcm_timeout (default default_command (cm_merged c))) with (cm_merged c ≫= rcm_timeout)
      by by destruct (cm_merged c).
    destruct (rcm_timeout child); simpl; [by apply timeout_merged_snoc|by rewrite app_nil_r].
Qed.

(** * Profiles *)

Definition layer_roots (ls : list RawPlatformProfile) : list (string * bool) :=
  mjoin ((rpp_workspace_roots : RawPlatformProfile -> list _) <$> ls).

Lemma layer_roots_snoc ls l : layer_roots (ls ++ [l]) = layer_roots ls ++ rpp_workspace_roots l.
Proof. apply mjoin_snoc. Qed.

Record profile_state (ls : list RawPlatformProfile) (m : ProfileMerger) : Prop := {
  pst_workspace : workspace_state (layer_roots ls) (pm_workspace m);
  pst_filesystem : filesystem_state (omap rpp_filesystem ls) (pm_filesystem m);
  pst_network : network_state (omap rpp_network ls) (pm_network m);
  pst_ipc : ipc_state (effective_ipc ls) (pm_local_ipc m);
  pst_command : command_state (omap rpp_command ls) (pm_command m);
  pst_approval : approval_merged (omap rpp_approval ls) (pm_approval m);
  pst_runtime : runtime_state (omap rpp_runtime ls) (pm_runtime m)
}.

Lemma profile_state_nil : profile_state [] merger_new.
Proof.
  split; [done|exact (merge_filesystem_layers [])|apply network_state_nil|apply ipc_state_nil
    |apply command_state_nil| |apply runtime_state_nil].
  split_and!; try done. by split; [intros []|].
Qed.

Lemma merge_sections_ok ls m description l :
  profile_state ls m ->
  profile_state (ls ++ [l]) (merge_sections dialect m description (rpp_workspace_roots l) (rpp_filesystem l)
    (rpp_network l) (rpp_local_ipc l) (rpp_command l) (rpp_approval l) (rpp_runtime l)).
Proof.
  intros [Hw Hf Hn Hi Hc Ha Hx]. unfold merge_sections.
  pose proof (fun ns => merge_network_ok ns (pm_network m) (pm_local_ipc m)) as Hnet.
  pose proof (merge_network_ipc (pm_network m) (pm_local_ipc m)) as Hipc.
  destruct (match rpp_network l with Some _ => _ | None => _ end) as [n' l'] eqn:Hnl.
  assert (network_state (omap rpp_network (ls ++ [l])) n' /\
    ipc_state (if from_option resets_network false (rpp_network l) then [] else effective_ipc ls) l') as [Hn' Hi'].
  { rewrite omap_snoc. destruct (rpp_network l) as [child|]; simpl.
    - specialize (Hnet _ child Hn). specialize (Hipc child). rewrite Hnl in Hnet, Hipc. simpl in *. subst l'.
      destruct (resets_network child); split; [done|apply ipc_state_nil|done|done].
    - rewrite app_nil_r. by injection Hnl as <- <-. }
  split; cbn [pm_workspace pm_filesystem pm_network pm_local_ipc pm_command pm_approval pm_runtime];
    rewrite ?omap_snoc.
  - rewrite layer_roots_snoc. by apply merge_workspace_ok.
  - destruct (rpp_filesystem l); simpl; [by apply merge_filesystem_ok|by rewrite app_nil_r].
  - by rewrite <- omap_snoc.
  - rewrite effective_ipc_snoc. destruct (rpp_local_ipc l); simpl; [by apply merge_local_ipc_ok|by rewrite app_nil_r].
  - destruct (rpp_command l); simpl; [by apply merge_command_ok|by rewrite app_nil_r].
  - destruct (rpp_approval l); simpl; [by apply merge_approval_ok|by rewrite app_nil_r].
  - destruct (rpp_runtime l); simpl; [by apply merge_runtime_ok|by rewrite app_nil_r].
Qed.

Lemma merger_apply_ok ls m p platform :
  profile_state ls m -> profile_state (ls ++ profile_layers platform p) (merger_apply dialect m p platform).
Proof.
  intros Hst. unfold merger_apply, profile_layers.
  apply (merge_sections_ok ls m (rp_description p) (base_layer p)) in Hst. cbn in Hst.
  rewrite cons_middle, app_assoc. destruct platform as [id|]; simpl; [|by rewrite app_nil_r].
  destruct (bt_get id (rp_platforms p)) as [overlay|]; simpl; [|by rewrite app_nil_r].
  by apply merge_sections_ok.
Qed.

Definition merge_profiles (platform : option PlatformId) (ps : list RawProfile) : MergedProfile :=
  merger_finish (foldl (fun m p => merger_apply dialect m p platform) merger_new ps).

Lemma merge_profiles_state platform ps :
  profile_state (layers platform ps) (foldl (fun m p => merger_apply dialect m p platform) merger_new ps).
Proof.
  induction ps as [|p ps IH] using rev_ind; [apply profile_state_nil|].
  rewrite foldl_snoc. unfold layers. rewrite mjoin_snoc. by apply merger_apply_ok.
Qed.

(** An optional section is there exactly when a layer has it. *)
Definition section_merged {A B} (ls : list A) (spec : list A -> B -> Prop) (o : option B) : Prop :=
  match o with Some b => ls <> [] /\ spec ls b | None => ls = [] end.

Lemma section_merged_intro {A B} (ls : list A) (spec : list A -> B -> Prop) (o : option B) (d : B) :
  (is_Some o <-> ls <> []) -> spec ls (default d o) -> section_merged ls spec o.
Proof.
  intros Hs Hd. destruct o as [b|]; simpl in *; [by split; [apply Hs|]|].
  destruct ls as [|x ls]; [done|]. destruct Hs as [_ Hs]. by destruct Hs.
Qed.

Definition overrides_of (cs : list RawCommand) : list (string * option string) :=
  mjoin (environment_overrides <$> omap rcm_environment cs).

(** The environment of a merged command. *)
Definition environment_section (cs : list RawCommand) (e : RawEnvironment) : Prop :=
  re_inherit e = last_some re_inherit (omap rcm_environment cs) /\
  (forall p, bt_get p (re_filters e) =
     match last_entry environment_filter_key filter_key_eqb (environment_filter_key p)
             (layer_filters (omap rcm_environment cs)) with
     | Some (q, a) => if decide (p = q) then Some a else None
     | None => None
     end) /\
  bt_wf (re_set e) /\
  (forall n v, bt_get n (re_set e) = Some v <-> last_override (name_key n) (overrides_of cs) = Some (n, Some v)) /\
  (forall n, n ∈ re_remove e <-> last_override (name_key n) (overrides_of cs) = Some (n, None)).

Record command_merged (cs : list RawCommand) (c : RawCommand) : Prop := {
  cd_program : rcm_program c = last_some rcm_program cs;
  cd_args : rcm_args c = last_some rcm_args cs;
  cd_directory : rcm_working_directory c = last_some rcm_working_directory cs;
  cd_environment : section_merged (omap rcm_environment cs) (fun _ => environment_section cs) (rcm_environment c);
  cd_stdio : stdio_merged cs (rcm_stdio c);
  cd_timeout : timeout_merged (omap rcm_timeout cs) (rcm_timeout c)
}.

Lemma finish_command_ok cs c : command_state cs c -> section_merged cs command_merged (finish_command c).
Proof.
  intros [Hs Hp Ha Hd He Hst Ht]. unfold finish_command.
  destruct (cm_merged c) as [m|]; simpl in *.
  2: { destruct cs as [|x cs]; [done|]. destruct Hs as [_ Hs]. by destruct Hs. }
  split; [by apply Hs|]. split; cbn [rcm_program rcm_args rcm_working_directory rcm_environment rcm_stdio rcm_timeout];
    try done.
  destruct He as (Hes & Hi & Hf & Ho).
  destruct (rcm_environment m) as [e|]; simpl in *.
  2: { destruct (omap rcm_environment cs); [done|]. destruct Hes as [_ Hes]. by destruct Hes. }
  split; [by apply Hes|]. rewrite Ho.
  destruct (finish_environment_spec (overrides_of cs) e) as (Hi' & Hf' & Hwf & Hset & Hrem & _).
  unfold overrides_of in *. split_and!; [by rewrite Hi'| |done|done|done].
  intros p. rewrite Hf'.
  destruct (indexed_fold_ok environment_filter_key filter_key_eqb (layer_filters (omap rcm_environment cs))) as [_ Hl].
  cbv zeta in Hl. rewrite <- Hl, <- Hf. done.
Qed.

(** The sections of a merged profile, one by one *)

Section sections.
Context (platform : option PlatformId) (ps : list RawProfile).

Lemma merged_filesystem :
  section_merged (omap rpp_filesystem (layers platform ps)) filesystem_merged (mp_filesystem (merge_profiles platform ps)).
Proof.
  destruct (merge_profiles_state platform ps) as [_ Hf _ _ _ _ _].
  by apply (section_merged_intro _ _ _ default_filesystem); apply Hf.
Qed.

Lemma merged_network :
  section_merged (omap rpp_network (layers platform ps)) network_merged (mp_network (merge_profiles platform ps)).
Proof.
  destruct (merge_profiles_state platform ps) as [_ _ Hn _ _ _ _].
  by apply (section_merged_intro _ _ _ default_network); apply Hn.
Qed.

Lemma merged_local_ipc :
  section_merged (effective_ipc (layers platform ps)) ipc_merged (mp_local_ipc (merge_profiles platform ps)).
Proof.
  destruct (merge_profiles_state platform ps) as [_ _ _ Hi _ _ _].
  by apply (section_merged_intro _ _ _ default_local_ipc); apply Hi.
Qed.

Lemma merged_command :
  section_merged (omap rpp_command (layers platform ps)) command_merged (mp_command (merge_profiles platform ps)).
Proof. destruct (merge_profiles_state platform ps) as [_ _ _ _ Hc _ _]. by apply finish_command_ok. Qed.

Lemma merged_runtime :
  section_merged (omap rpp_runtime (layers platform ps)) (fun xs x =>
    distinct text_key path_key_eqb (rr_executable_roots x) /\
    forall k, last_with text_key path_key_eqb k (rr_executable_roots x)
      = last_with text_key path_key_eqb k (mjoin (rr_executable_roots <$> xs))) (mp_runtime (merge_profiles platform ps)).
Proof.
  destruct (merge_profiles_state platform ps) as [_ _ _ _ _ _ Hx].
  apply (section_merged_intro _ _ _ default_runtime); [apply Hx|]. by destruct Hx as [_ [Hd _] Hl].
Qed.

Lemma merged_roots p :
  bt_get p (mp_workspace_roots (merge_profiles platform ps)) =
    match last_entry text_key path_key_eqb (text_key p) (layer_roots (layers platform ps)) with
    | Some (q, enabled) => if decide (p = q) then Some enabled else None
    | None => None
    end.
Proof.
  destruct (merge_profiles_state platform ps) as [Hw _ _ _ _ _ _].
  destruct (indexed_fold_ok text_key path_key_eqb (layer_roots (layers platform ps))) as [_ Hl].
  cbv zeta in Hl. rewrite <- Hl, <- Hw. done.
Qed.

(** Descriptions are not inherited. *)
Lemma merge_sections_description m description roots filesystem network ipc command approval runtime :
  pm_description (merge_sections dialect m description roots filesystem network ipc command approval runtime) = description.
Proof. unfold merge_sections. by destruct (match network with Some _ => _ | None => _ end). Qed.

Lemma merged_description :
  mp_description (merge_profiles platform ps) =
  (p ← last ps; last_some rpp_description (profile_layers platform p)).
Proof.
  unfold merge_profiles. destruct (last ps) as [p|] eqn:Hp; [|by apply last_None in Hp as ->].
  apply last_Some in Hp as [l ->]. rewrite foldl_snoc. cbn [mp_description merger_finish mbind option_bind].
  unfold merger_apply at 1, profile_layers. set (m := foldl _ _ _). clearbody m.
  destruct platform as [id|]; cbn [mbind option_bind];
    [destruct (bt_get id (rp_platforms p)) as [overlay|]; cbn [if_present]; unfold apply_platform_overlay|];
    rewrite !merge_sections_description; unfold last_some; simpl; destruct (rp_description p); try done;
    by destruct (rpp_description overlay).
Qed.

End sections.

(** C14. What inheritance and platform overlays amount to, section by section.
    Merging the ordered profiles yields, from their layers: every scalar as the
    last layer that gives it says; the rules, domains, sockets, endpoints,
    roots, filters and environment variables without two of one identity, each
    as its last declaration; protected paths added up; of the layers below a
    filesystem section whose mode is not restricted, nothing, and of the layers
    below an external network only the settings of the gateway: modes, domains,
    sockets and the local endpoints are dropped.  A timeout has the last mode
    given and the last duration given since the last section that asks for the
    backend's or no timeout without one.  The description is that of the last
    profile, its overlay first; none is inherited. *)
Theorem profile_merge_spec (platform : option PlatformId) (ps : list RawProfile) :
  let ls := layers platform ps in
  let m := merge_profiles platform ps in
  mp_description m = (p ← last ps; last_some rpp_description (profile_layers platform p)) /\
  section_merged (omap rpp_filesystem ls) filesystem_merged (mp_filesystem m) /\
  section_merged (omap rpp_network ls) network_merged (mp_network m) /\
  section_merged (effective_ipc ls) ipc_merged (mp_local_ipc m) /\
  section_merged (omap rpp_command ls) command_merged (mp_command m) /\
  approval_merged (omap rpp_approval ls) (mp_approval m) /\
  section_merged (omap rpp_runtime ls) (fun xs x =>
    distinct text_key path_key_eqb (rr_executable_roots x) /\
    forall k, last_with text_key path_key_eqb k (rr_executable_roots x)
      = last_with text_key path_key_eqb k (mjoin (rr_executable_roots <$> xs))) (mp_runtime m) /\
  (forall p, bt_get p (mp_workspace_roots m) =
     match last_entry text_key path_key_eqb (text_key p) (layer_roots ls) with
     | Some (q, enabled) => if decide (p = q) then Some enabled else None
     | None => None
     end).
Proof.
  cbv zeta. split_and!;
    [apply merged_description|apply merged_filesystem|apply merged_network|apply merged_local_ipc|apply merged_command| |apply merged_runtime
    |apply merged_roots].
  destruct (merge_profiles_state platform ps) as [_ _ _ _ _ Ha _]. exact Ha.
Qed.

End layers.
