(* ===== verification/ConfigBuild.v ===== *)
(** [cageforge-config]: building validated policies, commands and gateway
    settings from a merged profile ([build/policy.rs], [build/command.rs],
    [build/gateway.rs]). *)

From Stdlib Require Import Ascii String NArith Lia.
From stdpp Require Import base option strings pretty list.
From S2P Require Import Prelude Text BTree NativePath Access Selector PathPattern FsPolicy Domain LocalIpc NetPolicy Permissions Policy Environment Command GatewayConfig ConfigError ConfigModel.

Definition QUOTE : ascii := ascii_of_N 34.

Section build.
Context {U : Unicode} {G : Globset} {W : WildMatch}.
Context (profile : string).

(** [.map_err(|source| ConfigError::Policy { … })], and the like *)
Definition policy_error {A} (r : result PolicyError A) : result ConfigError A :=
  map_err (fun source => bare (EPolicy profile source)) r.
Definition command_error {A} (r : result CommandError A) : result ConfigError A :=
  map_err (fun source => bare (ECommand profile source)) r.
Definition gateway_error {A} (r : result GatewayConfigError A) : result ConfigError A :=
  map_err (fun source => bare (ENetworkGateway profile source)) r.

(** * Filesystem *)

Definition raw_filesystem_mode (value : option RawFilesystemMode) : FilesystemMode :=
  match default RawRestricted value with
  | RawRestricted => Restricted
  | RawUnrestricted => Unrestricted
  | RawExternal => External
  end.

Definition raw_access_mode (value : RawAccessMode) : AccessMode :=
  match value with RawRead => Read | RawWrite => Write | RawDeny => Deny end.

Definition required_string (value : option string) (field : string) : result ConfigError string :=
  ok_or (invalid_value profile field "value is required") value.

Definition require_path (raw : RawSelector) (field : string) : result ConfigError path :=
  ok_or (invalid_value profile field "path is required") (sel_path raw).

Definition reject_path (raw : RawSelector) (field : string) : result ConfigError unit :=
  match sel_path raw with
  | Some _ => Err (invalid_value profile field "path is not allowed for this target")
  | None => Ok ()
  end.

Definition build_selector (raw : RawSelector) (field : string) : result ConfigError PathSelector :=
  match sel_target raw with
  | RTAbsolute => p ← require_path raw field; policy_error (selector_absolute p)
  | RTWorkspace => p ← require_path raw field; policy_error (selector_workspace p)
  | RTWorkspaceRoot => _ ← reject_path raw field; Ok selector_workspace_root
  | RTRoot => _ ← reject_path raw field; Ok selector_root
  | RTMinimal => _ ← reject_path raw field; Ok selector_minimal
  | RTTmpdir => _ ← reject_path raw field; Ok selector_tmpdir
  | RTSlashTmp => _ ← reject_path raw field; Ok selector_slash_tmp
  | value => Err (invalid_value profile field ("unsupported selector " +:+ target_debug value))
  end.

(** The target of [build_filesystem_rule] *)
Definition build_target (raw : RawFilesystemRule) : result ConfigError FilesystemTarget :=
  match rule_target raw with
  | RTAbsoluteGlob =>
      reject bool_decide (is_Some (rule_path raw))
        with invalid_value profile "filesystem.rules.path" "not allowed for a glob target" ;;
      text ← required_string (rule_pattern raw) "filesystem.rules.pattern";
      pattern ← policy_error (pattern_absolute text);
      Ok (Glob pattern)
  | RTWorkspaceGlob =>
      reject bool_decide (is_Some (rule_path raw))
        with invalid_value profile "filesystem.rules.path" "not allowed for a glob target" ;;
      text ← required_string (rule_pattern raw) "filesystem.rules.pattern";
      pattern ← policy_error (pattern_workspace text);
      Ok (Glob pattern)
  | target =>
      reject bool_decide (is_Some (rule_pattern raw))
        with invalid_value profile "filesystem.rules.pattern" "not allowed for a scope target" ;;
      s ← build_selector {| sel_target := target; sel_path := rule_path raw |} "filesystem.rules.path";
      Ok (Scope s)
  end.

Definition build_filesystem_rule (raw : RawFilesystemRule) : result ConfigError FilesystemRule :=
  let access := raw_access_mode (rule_access raw) in
  target ← build_target raw;
  reject is_glob target && bool_decide (is_Some (rule_missing_path raw))
    with invalid_value profile "filesystem.rules.missing_path" "not allowed for a glob target" ;;
  rule ← policy_error (from_target target access);
  let rule := match rule_missing_path raw with
              | Some RawError => with_missing_path_behavior rule MError
              | Some RawSkip => with_missing_path_behavior rule MSkip
              | None => rule
              end in
  foldM (fun rule selector =>
           s ← build_selector selector "filesystem.rules.read_only_subpaths";
           policy_error (with_read_only_subpath rule s)) rule (rule_read_only_subpaths raw).

Definition build_filesystem (raw : option RawFilesystem) : result ConfigError FilesystemPolicy :=
  let raw := default default_filesystem raw in
  let policy := match raw_filesystem_mode (rf_mode raw) with
                | Restricted => restricted []
                | Unrestricted => unrestricted
                | External => external
                end in
  policy ← foldM (fun policy raw_rule =>
             rule ← build_filesystem_rule raw_rule;
             policy_error (with_rule policy rule)) policy (rf_rules raw);
  policy ← foldM (fun policy p => policy_error (with_additional_protected_relative_path policy p))
             policy (rf_additional_protected_paths raw);
  let policy := if default false (rf_security raw ≫= rs_dangerously_allow_git_write)
                then dangerously_allow_git_write policy else policy in
  policy ← match rf_glob_scan_max_depth raw with
           | Some depth =>
               reject (depth =? 0)%N
                 with invalid_value profile "filesystem.glob_scan_max_depth" "must be greater than zero" ;;
               policy_error (with_glob_scan_max_depth policy depth)
           | None => Ok policy
           end;
  _ ← policy_error (policy_validate policy);
  Ok policy.

(** * Network *)

Definition raw_network_mode (value : option RawNetworkMode) : NetworkMode :=
  match default RawNetDisabled value with
  | RawNetDisabled => NetDisabled
  | RawNetEnabled => NetEnabled
  | RawNetExternal => NetExternal
  end.

Definition raw_domain_mode (value : RawDomainMode) : DomainMode :=
  match value with
  | RawDomDisabled => DomDisabled | RawDomEnabled => DomEnabled | RawDomRestricted => DomRestricted
  end.

Definition raw_unix_socket_mode (value : RawUnixSocketMode) : UnixSocketMode :=
  match value with
  | RawUnixDisabled => UnixDisabled | RawUnixEnabled => UnixEnabled | RawUnixRestricted => UnixRestricted
  end.

Definition raw_local_network_access (value : RawLocalNetworkAccess) : LocalNetworkAccess :=
  match value with RawLocalAllow => LocalAllow | RawLocalDeny => LocalDeny end.

Definition raw_domain_access (value : RawDomainAccess) : DomainAccess :=
  match value with RawAllow => DAllow | RawDenyDomain => DDeny end.

(** [local_ipc.is_some_and(|value| !value.unix_sockets.is_empty())] *)
Definition has_unix_ipc (ipc : option RawLocalIpc) : bool :=
  match ipc with Some value => bool_decide (rl_unix_sockets value <> []) | None => false end.

(** The modes of [build_network], before any rule is added *)
Definition build_network_modes (raw : RawNetwork) (ipc : option RawLocalIpc) : NetworkPolicy :=
  let mode := raw_network_mode
    (match rn_mode raw with
     | Some mode => Some mode
     | None => if has_unix_ipc ipc then Some RawNetEnabled else None
     end) in
  let policy := match mode with
                | NetDisabled => net_disabled
                | NetEnabled => net_enabled
                | NetExternal => net_external
                end in
  let policy := if bool_decide (mode = NetEnabled) && has_unix_ipc ipc
                then with_unix_socket_mode policy UnixRestricted else policy in
  let policy := match rn_domain_mode raw with
                | Some m => with_domain_mode policy (raw_domain_mode m) | None => policy end in
  let policy := match rn_unix_socket_mode raw with
                | Some m => with_unix_socket_mode policy (raw_unix_socket_mode m) | None => policy end in
  match rn_local_network_access raw with
  | Some a => with_local_network_access policy (raw_local_network_access a) | None => policy
  end.

Definition build_network (raw : option RawNetwork) (ipc : option RawLocalIpc) :
  result ConfigError NetworkPolicy :=
  let raw := default default_network raw in
  let policy := build_network_modes raw ipc in
  policy ← foldM (fun policy r =>
             policy_error (with_domain policy (rd_pattern r) (raw_domain_access (rd_access r))))
             policy (rn_domains raw);
  policy ← foldM (fun policy r =>
             policy_error (with_unix_socket policy (ru_path r) (raw_domain_access (ru_access r))))
             policy (rn_unix_sockets raw);
  policy ← match ipc with
           | None => Ok policy
           | Some ipc =>
               policy ← foldM (fun policy p =>
                          e ← policy_error (endpoint_unix_socket p);
                          policy_error (with_local_ipc policy e DAllow)) policy (rl_unix_sockets ipc);
               foldM (fun policy name =>
                 e ← policy_error (endpoint_windows_named_pipe name);
                 policy_error (with_local_ipc policy e DAllow)) policy (rl_named_pipes ipc)
           end;
  _ ← policy_error (net_validate policy);
  Ok policy.

Definition build_policy (fs : option RawFilesystem) (net : option RawNetwork) (ipc : option RawLocalIpc) :
  result ConfigError SandboxPolicy :=
  f ← build_filesystem fs;
  n ← build_network net ipc;
  let policy := {| filesystem := f; network := n |} in
  _ ← policy_error (sandbox_validate policy);
  Ok policy.

(** * Command *)

Definition raw_filter_action (a : RawEnvironmentFilterAction) : EnvironmentFilterAction :=
  match a with RawInclude => Include | RawExclude => Exclude end.

Definition build_environment (raw : RawEnvironment) : result ConfigError EnvironmentSpec :=
  let environment := match default RawCore (re_inherit raw) with
                     | RawAll => inherit_all
                     | RawCore => inherit_core
                     | RawNone => env_empty
                     end in
  environment ← foldM (fun e f => command_error (with_filter e f.1 (raw_filter_action f.2)))
                  environment (re_filters raw);
  environment ← foldM (fun e v => command_error (with_var e v.1 v.2)) environment (re_set raw);
  foldM (fun e name => command_error (without_var e name)) environment (re_remove raw).

Definition stdio_mode (value : RawStdioMode) : StdioMode :=
  match value with RawInherit => Inherit | RawNull => Null | RawPipe => Pipe end.

(** [StdioSpec::default] is [captured]. *)
Definition build_stdio (raw : RawStdio) : StdioSpec :=
  let stdio := stdio_captured in
  let stdio := match rio_stdin raw with Some m => with_stdin stdio (stdio_mode m) | None => stdio end in
  let stdio := match rio_stdout raw with Some m => with_stdout stdio (stdio_mode m) | None => stdio end in
  match rio_stderr raw with Some m => with_stderr stdio (stdio_mode m) | None => stdio end.

Definition reject_timeout_milliseconds (raw : RawTimeout) : result ConfigError unit :=
  match rt_milliseconds raw with
  | Some _ => Err (invalid_value profile "command.timeout.milliseconds"
                     ("only valid with mode = " +:+ String QUOTE ("limit" +:+ String QUOTE EmptyString)))
  | None => Ok ()
  end.

(** [Duration::from_millis] *)
Definition from_millis (ms : N) : Duration := (ms * 1000000)%N.

Definition build_timeout (raw : RawTimeout) : result ConfigError TimeoutPolicy :=
  mode ← ok_or (invalid_value profile "command.timeout.mode" "value is required") (rt_mode raw);
  match mode with
  | RawBackendDefault => _ ← reject_timeout_milliseconds raw; Ok BackendDefault
  | RawDisabled => _ ← reject_timeout_milliseconds raw; Ok TimeoutDisabled
  | RawLimit =>
      ms ← ok_or (invalid_value profile "command.timeout.milliseconds" "value is required for limit")
             (rt_milliseconds raw);
      Ok (Limit (from_millis ms))
  end.

Definition build_command (raw : option RawCommand) : result ConfigError (option CommandRequest) :=
  match raw with
  | None => Ok None
  | Some raw =>
      program ← ok_or (bare (MissingCommandProgram profile)) (rcm_program raw);
      command ← command_error (CommandSpec_new program);
      command ← match rcm_args raw with
                | Some args => command_error (with_args command args)
                | None => Ok command
                end;
      let request := CommandRequest_new command in
      request ← match rcm_working_directory raw with
                | Some directory => command_error (with_working_directory request directory)
                | None => Ok request
                end;
      request ← match rcm_environment raw with
                | Some environment => e ← build_environment environment; Ok (with_environment request e)
                | None => Ok request
                end;
      let request := match rcm_stdio raw with
                     | Some stdio => with_stdio request (build_stdio stdio) | None => request end in
      request ← match rcm_timeout raw with
                | Some timeout => t ← build_timeout timeout; Ok (with_timeout_policy request t)
                | None => Ok request
                end;
      Ok (Some request)
  end.

(** * Gateway *)

Definition invalid_number (field : string) (value : N) : ConfigError :=
  bare (InvalidValue profile field (pretty value +:+ " must be representable and greater than zero")).

Definition config_timeout (value : N) (field : string) : result ConfigError Duration :=
  reject (value =? 0)%N with invalid_number field value ;;
  Ok (from_millis value).

(** [usize] is 64 bits wide, as [u64] is. *)
Definition config_nonzero_usize (value : N) (field : string) : result ConfigError N :=
  reject (value =? 0)%N with invalid_number field value ;;
  Ok value.

(** [if let Some(value) = raw.field { config = …?; }] *)
Definition set_field {A} (value : option A) (set : GatewayConfig -> A -> result ConfigError GatewayConfig)
    (config : GatewayConfig) : result ConfigError GatewayConfig :=
  match value with Some value => set config value | None => Ok config end.

Definition set_timeout (field : string) (with_ : GatewayConfig -> N -> result GatewayConfigError GatewayConfig)
    (config : GatewayConfig) (value : N) : result ConfigError GatewayConfig :=
  t ← config_timeout value field; gateway_error (with_ config t).

Definition set_limit (field : string) (with_ : GatewayConfig -> N -> result GatewayConfigError GatewayConfig)
    (config : GatewayConfig) (value : N) : result ConfigError GatewayConfig :=
  n ← config_nonzero_usize value field; gateway_error (with_ config n).

Definition set_relay_limit (config : GatewayConfig) (limit : RawRelayByteLimit) :
  result ConfigError GatewayConfig :=
  match limit with
  | RawBytes value =>
      reject (value =? 0)%N with invalid_number "network.gateway.relay_byte_limit" value ;;
      Ok (with_relay_byte_limit config value)
  | RawMode RawUnlimited => Ok (without_relay_byte_limit config)
  end.

Definition build_gateway_config (raw : option RawGatewayConfig) : result ConfigError GatewayConfig :=
  let raw := default default_gateway raw in
  c ← set_field (rg_handshake_timeout_ms raw)
        (set_timeout "network.gateway.handshake_timeout_ms" with_handshake_timeout) gateway_config_new;
  c ← set_field (rg_dns_timeout_ms raw) (set_timeout "network.gateway.dns_timeout_ms" with_dns_timeout) c;
  c ← set_field (rg_connect_timeout_ms raw)
        (set_timeout "network.gateway.connect_timeout_ms" with_connect_timeout) c;
  c ← set_field (rg_response_header_timeout_ms raw)
        (set_timeout "network.gateway.response_header_timeout_ms" with_response_header_timeout) c;
  c ← set_field (rg_relay_idle_timeout_ms raw)
        (set_timeout "network.gateway.relay_idle_timeout_ms" with_relay_idle_timeout) c;
  c ← set_field (rg_max_concurrent_connections raw)
        (set_limit "network.gateway.max_concurrent_connections" with_max_concurrent_connections) c;
  c ← set_field (rg_max_requests_per_connection raw)
        (set_limit "network.gateway.max_requests_per_connection"
           (fun c n => Ok (with_max_requests_per_connection c n))) c;
  c ← set_field (rg_max_resolved_addresses raw)
        (set_limit "network.gateway.max_resolved_addresses"
           (fun c n => Ok (with_max_resolved_addresses c n))) c;
  c ← set_field (rg_http_header_bytes raw)
        (set_limit "network.gateway.http_header_bytes" with_http_header_bytes) c;
  set_field (rg_relay_byte_limit raw) set_relay_limit c.

(** * What is built is what the builders of the other crates produce *)

Lemma policy_error_Ok {A} (r : result PolicyError A) a : policy_error r = Ok a <-> r = Ok a.
Proof. apply map_err_Ok. Qed.
Lemma command_error_Ok {A} (r : result CommandError A) a : command_error r = Ok a <-> r = Ok a.
Proof. apply map_err_Ok. Qed.
Lemma gateway_error_Ok {A} (r : result GatewayConfigError A) a : gateway_error r = Ok a <-> r = Ok a.
Proof. apply map_err_Ok. Qed.

Ltac build_inv :=
  cbv beta in *; repeat (res_inv; match goal with
  | H : policy_error _ = Ok _ |- _ => apply policy_error_Ok in H
  | H : command_error _ = Ok _ |- _ => apply command_error_Ok in H
  | H : gateway_error _ = Ok _ |- _ => apply gateway_error_Ok in H
  end); res_inv.

Lemma build_selector_wf raw field s : build_selector raw field = Ok s -> selector_wf s.
Proof.
  unfold build_selector. destruct (sel_target raw); intros H; build_inv; try done.
  - match goal with H : selector_absolute _ = Ok _ |- _ => by apply selector_absolute_Ok in H as [? ->] end.
  - by eapply selector_workspace_wf.
Qed.

Lemma build_target_built raw t a r :
  build_target raw = Ok t -> from_target t a = Ok r -> rule_built r.
Proof.
  unfold build_target. intros Ht Hr. destruct (rule_target raw); build_inv;
    try (eapply built_target; [by eapply build_selector_wf|exact Hr]).
  - eapply built_absolute_glob. unfold absolute_glob.
    match goal with H : pattern_absolute _ = Ok _ |- _ => rewrite H end. exact Hr.
  - eapply built_workspace_glob. unfold workspace_glob.
    match goal with H : pattern_workspace _ = Ok _ |- _ => rewrite H end. exact Hr.
Qed.

Lemma build_rule_built raw r : build_filesystem_rule raw = Ok r -> rule_built r.
Proof.
  unfold build_filesystem_rule. intros H. build_inv. revert H. apply foldM_invariant.
  - assert (rule_built a0) as Hr by (by eapply build_target_built).
    destruct (rule_missing_path raw) as [[]|]; [by apply built_missing|by apply built_missing|done].
  - intros rule sel rule' _ Hrule Hs. build_inv. eapply built_read_only; [exact Hrule| |eassumption]. by eapply build_selector_wf.
Qed.

Lemma build_filesystem_built raw f :
  build_filesystem raw = Ok f -> policy_built f /\ policy_validate f = Ok ().
Proof.
  unfold build_filesystem. intros H. build_inv.
  match goal with H : policy_validate _ = Ok ?u |- _ => destruct u end.
  split; [|done].
  match goal with H : foldM _ _ (rf_rules _) = Ok ?p |- _ => assert (policy_built p) as Hb1 end.
  { eapply foldM_invariant; [| |eassumption].
    - destruct (raw_filesystem_mode _); [by apply built_restricted|apply built_unrestricted|apply built_external].
    - intros p r p' _ Hp Hs. build_inv. eapply built_rule; [exact Hp| |eassumption]. by eapply build_rule_built. }
  match goal with H : foldM _ _ (rf_additional_protected_paths _) = Ok ?p |- _ => assert (policy_built p) as Hb2 end.
  { eapply foldM_invariant; [exact Hb1| |eassumption].
    intros p r p' _ Hp Hs. build_inv. by eapply built_protected. }
  match goal with H : match rf_glob_scan_max_depth _ with _ => _ end = Ok _ |- _ => revert H end.
  set (g := if default false _ then _ else _). assert (policy_built g) as Hb3.
  { unfold g. destruct (default false _); [by apply built_git|done]. }
  destruct (rf_glob_scan_max_depth _) as [depth|]; intros Hd; build_inv; [by eapply built_depth|done].
Qed.

Lemma build_network_modes_built raw ipc : net_built (build_network_modes raw ipc).
Proof.
  unfold build_network_modes. cbv zeta.
  set (base := match raw_network_mode _ with NetDisabled => _ | NetEnabled => _ | NetExternal => _ end).
  assert (net_built base) as Hb by (unfold base; destruct (raw_network_mode _); constructor).
  repeat match goal with
  | |- context [if ?b then _ else _] => destruct b
  | |- context [match ?o with Some _ => _ | None => _ end] => destruct o
  end; repeat (exact Hb || constructor).
Qed.

Lemma build_network_built raw ipc n :
  build_network raw ipc = Ok n -> net_built n /\ net_validate n = Ok ().
Proof.
  unfold build_network. intros H. build_inv.
  match goal with H : net_validate _ = Ok ?u |- _ => destruct u end. split; [|done].
  match goal with H : foldM _ _ (rn_domains _) = Ok ?p |- _ => assert (net_built p) as Hb1 end.
  { eapply foldM_invariant; [apply build_network_modes_built| |eassumption].
    intros p r p' _ Hp Hs. build_inv. by eapply nb_domain. }
  match goal with H : foldM _ _ (rn_unix_sockets _) = Ok ?p |- _ => assert (net_built p) as Hb2 end.
  { eapply foldM_invariant; [exact Hb1| |eassumption]. intros p r p' _ Hp Hs. build_inv. by eapply nb_unix. }
  destruct ipc as [ipc|]; build_inv; [|done].
  eapply foldM_invariant; [| |eassumption]; [|intros p r p' _ Hp Hs; build_inv; by eapply nb_ipc].
  eapply foldM_invariant; [exact Hb2| |eassumption]. intros p r p' _ Hp Hs. build_inv. by eapply nb_ipc.
Qed.

Lemma build_policy_built fs net ipc p :
  build_policy fs net ipc = Ok p ->
  policy_built (filesystem p) /\ net_built (network p) /\ sandbox_validate p = Ok ().
Proof.
  unfold build_policy. intros H. build_inv.
  match goal with H : sandbox_validate _ = Ok ?u |- _ => destruct u end.
  split_and!; [by eapply build_filesystem_built|by eapply build_network_built|done].
Qed.

Lemma build_environment_built raw e : build_environment raw = Ok e -> spec_built e.
Proof.
  unfold build_environment. intros H. build_inv.
  eapply foldM_invariant; [| |exact H]; [|intros x n x' _ Hx Hs; build_inv; by eapply sb_without].
  eapply foldM_invariant; [| |eassumption]; [|intros x n x' _ Hx Hs; build_inv; by eapply sb_var].
  eapply foldM_invariant; [| |eassumption]; [|intros x n x' _ Hx Hs; build_inv; by eapply sb_filter].
  destruct (default RawCore _); apply sb_base.
Qed.

Lemma build_command_built raw r : build_command raw = Ok (Some r) -> request_built r.
Proof.
  unfold build_command. destruct raw as [raw|]; [|done]. intros H. build_inv.
  match goal with H : CommandSpec_new _ = Ok ?c |- _ => assert (command_built c) as Hc by (by eapply cb_new) end.
  destruct (rcm_args raw), (rcm_working_directory raw), (rcm_environment raw), (rcm_timeout raw); build_inv;
    destruct (rcm_stdio raw);
    repeat first [apply rb_timeout|apply rb_stdio|apply rb_environment
                 |by eapply build_environment_built|by apply rb_new
                 |apply rb_new; by eapply cb_args|eapply rb_directory; [|eassumption]].
Qed.

(** The numbers of a gateway section are [u64]s. *)
Definition gateway_fits (raw : RawGatewayConfig) : Prop :=
  Forall fits_u64 [rg_max_concurrent_connections raw; rg_max_requests_per_connection raw;
                   rg_max_resolved_addresses raw; rg_http_header_bytes raw;
                   match rg_relay_byte_limit raw with Some (RawBytes n) => Some n | _ => None end].

Lemma set_timeout_built field with_ value c c' :
  (forall c t c', config_built c -> with_ c t = Ok c' -> config_built c') ->
  config_built c -> set_field value (set_timeout field with_) c = Ok c' -> config_built c'.
Proof.
  intros Hw Hc H. destruct value as [v|]; simpl in H; [|by build_inv]. unfold set_timeout in H. build_inv. by eapply Hw.
Qed.

Lemma set_limit_built field with_ value c c' :
  fits_u64 value -> (forall c n c', config_built c -> nonzero_usize n -> with_ c n = Ok c' -> config_built c') ->
  config_built c -> set_field value (set_limit field with_) c = Ok c' -> config_built c'.
Proof.
  intros Hf Hw Hc H. destruct value as [v|]; simpl in *; [|by build_inv].
  unfold set_limit, config_nonzero_usize in H. build_inv. eapply Hw; [exact Hc| |exact H].
  apply N.eqb_neq in G0. unfold nonzero_usize. lia.
Qed.

Lemma build_gateway_built raw c :
  gateway_fits (default default_gateway raw) -> build_gateway_config raw = Ok c -> config_built c.
Proof.
  unfold build_gateway_config, gateway_fits. set (r := default default_gateway raw). intros Hf H.
  apply Forall_cons in Hf as [Hf1 Hf]. apply Forall_cons in Hf as [Hf2 Hf]. apply Forall_cons in Hf as [Hf3 Hf].
  apply Forall_cons in Hf as [Hf4 Hf]. apply Forall_cons in Hf as [Hf5 _]. build_inv.
  assert (config_built a7) as Hc.
  { eapply set_limit_built; [| |idtac|eassumption]; [done|exact config_header|].
    eapply set_limit_built; [| |idtac|eassumption]; [done|intros x n x' ? ? [= <-]; by apply config_resolved|].
    eapply set_limit_built; [| |idtac|eassumption]; [done|intros x n x' ? ? [= <-]; by apply config_requests|].
    eapply set_limit_built; [| |idtac|eassumption]; [done|exact config_concurrent|].
    eapply set_timeout_built; [exact config_idle|idtac|eassumption].
    eapply set_timeout_built; [exact config_response|idtac|eassumption].
    eapply set_timeout_built; [exact config_connect|idtac|eassumption].
    eapply set_timeout_built; [exact config_dns|idtac|eassumption].
    eapply set_timeout_built; [exact config_handshake|idtac|eassumption]. constructor. }
  destruct (rg_relay_byte_limit r) as [[v|[]]|]; simpl in *; build_inv; [|by apply config_no_bytes|done].
  apply config_bytes; [done|]. apply N.eqb_neq in G0. unfold nonzero_usize. lia.
Qed.

End build.
