(* ===== verification/ConfigSource.v ===== *)
(** [cageforge-config]: locating a profile or a field in the source document
    ([SourceDocument], [find_key_location] and [source_location] of
    [resolve.rs]).  Offsets are byte offsets. *)

From Stdlib Require Import Ascii String NArith Lia.
From stdpp Require Import base option strings list.
From S2P Require Import Prelude Text NativePath Permissions ConfigError.

Definition LF : ascii := ascii_of_N 10.

(** [str::split_inclusive('\n')] *)
Fixpoint split_inclusive (s : string) : list string :=
  match s with
  | EmptyString => []
  | String a s' =>
      if Ascii.eqb LF a then String a EmptyString :: split_inclusive s'
      else match split_inclusive s' with
           | [] => [String a EmptyString]
           | line :: lines => String a line :: lines
           end
  end.

(** [str::trim_start] *)
Definition trim_start (s : string) : string :=
  match utf8_chunks s with
  | Some cs => String.concat "" (drop_while (fun c : char * string => is_whitespace c.1) cs).*2
  | None => s
  end.

Fixpoint count_lf (s : string) : nat :=
  match s with
  | EmptyString => 0
  | String a s' => (if Ascii.eqb LF a then 1 else 0) + count_lf s'
  end.

(** [str::rfind('\n')] *)
Fixpoint rfind_lf (s : string) : option nat :=
  match s with
  | EmptyString => None
  | String a s' =>
      match rfind_lf s' with
      | Some i => Some (S i)
      | None => if Ascii.eqb LF a then Some 0 else None
      end
  end.

Definition source_location (source : string) (start stop : nat) : SourceLocation :=
  let offset := Nat.min start (String.length source) in
  let before := str_take offset source in
  let line_start := match rfind_lf before with Some index => index + 1 | None => 0 end in
  {| sl_line := count_lf before + 1;
     sl_column := length (chars (str_drop line_start before)) + 1;
     sl_offset := offset;
     sl_length := stop - start |}.

Record SourceDocument := { doc_text : string; doc_path : option path }.

(** The key at the start of a line, after its indentation, and followed by an
    equals sign. *)
Definition is_key_line (key line : string) : bool :=
  match strip_prefix key (trim_start line) with
  | Some rest => starts_with_char "=" (trim_start rest)
  | None => false
  end.

Fixpoint find_key_loop (source key : string) (line_offset : nat) (lines : list string) :
  option SourceLocation :=
  match lines with
  | [] => None
  | line :: rest =>
      if is_key_line key line
      then let start := line_offset + String.length line - String.length (trim_start line) in
           Some (source_location source start (start + String.length key))
      else find_key_loop source key (line_offset + String.length line) rest
  end.

Definition find_key_location (source : string) (section_start section_end : nat) (key : string) :
  option SourceLocation :=
  if bool_decide (key = "") then None
  else find_key_loop source key section_start
         (split_inclusive (str_drop section_start (str_take section_end source))).

(** The line loop of [section] *)
Fixpoint section_loop (header : string) (offset : nat) (start : option nat) (lines : list string) :
  option (nat * nat) + option nat :=
  match lines with
  | [] => inr start
  | line :: rest =>
      let current := trim_end_matches LF (trim line) in
      match start with
      | None => section_loop header (offset + String.length line)
                  (if bool_decide (current = header) then Some offset else None) rest
      | Some s => if starts_with_char "[" (trim_start line) then inl (Some (s, offset))
                  else section_loop header (offset + String.length line) start rest
      end
  end.

Definition section (d : SourceDocument) (header : string) : option (nat * nat) :=
  match section_loop header 0 None (split_inclusive (doc_text d)) with
  | inl found => found
  | inr start => (fun value => (value, String.length (doc_text d))) <$> start
  end.

(** Does a trimmed line open the profile? *)
Definition is_profile_header (prefix : string) (is_base : bool) (current : string) : bool :=
  match strip_prefix prefix current with
  | Some suffix =>
      (starts_with_char "." suffix || starts_with_char "]" suffix)
      && negb (is_base && starts_with ".platforms" suffix)
  | None => false
  end.

Fixpoint profile_loop (source prefix : string) (is_base : bool) (offset : nat) (lines : list string) :
  option SourceLocation :=
  match lines with
  | [] => None
  | line :: rest =>
      let current := trim line in
      if is_profile_header prefix is_base current
      then Some (source_location source offset (offset + String.length current))
      else profile_loop source prefix is_base (offset + String.length line) rest
  end.

(** The first prefix some line matches *)
Fixpoint first_prefix (source : string) (prefixes : list (string * bool)) : option SourceLocation :=
  match prefixes with
  | [] => None
  | (prefix, is_base) :: rest =>
      match profile_loop source prefix is_base 0 (split_inclusive source) with
      | Some location => Some location
      | None => first_prefix source rest
      end
  end.

Definition first_profile_location (d : SourceDocument) (profile : string) (platform : option PlatformId) :
  option SourceLocation :=
  let base_prefix := "[profiles." +:+ profile in
  first_prefix (doc_text d)
    match platform with
    | Some id => [("[profiles." +:+ profile +:+ ".platforms." +:+ platform_str id, false); (base_prefix, true)]
    | None => [(base_prefix, true)]
    end.

(** [value.rsplit('.').next()] and [value.rsplit_once('.')] *)
Definition rsplit_last (value : string) : string := default "" (last (str_split "." value)).
Definition rsplit_prefix (value : string) : option string :=
  match str_split "." value with
  | [] | [_] => None
  | pieces => Some (str_join "." (take (length pieces - 1) pieces))
  end.

Definition location_headers (profile : string) (platform : option PlatformId) (nested : list string) :
  list string :=
  let under root := ((fun prefix => "[" +:+ root +:+ "." +:+ prefix +:+ "]") <$> nested) ++ ["[" +:+ root +:+ "]"] in
  match platform with
  | Some id => under ("profiles." +:+ profile +:+ ".platforms." +:+ platform_str id)
  | None => []
  end ++ under ("profiles." +:+ profile).

(** The loop of [location_for] over the sections that exist *)
Fixpoint location_loop (source key : string) (fallback : option (nat * nat)) (sections : list (nat * nat * nat)) :
  option SourceLocation :=
  match sections with
  | [] => (fun '(start, header_length) => source_location source start (start + header_length)) <$> fallback
  | (section_start, section_end, header_length) :: rest =>
      let fallback := match fallback with Some f => Some f | None => Some (section_start, header_length) end in
      match find_key_location source section_start section_end key with
      | Some location => Some location
      | None => location_loop source key fallback rest
      end
  end.

Definition location_for (d : SourceDocument) (profile : option string) (platform : option PlatformId)
    (field : option string) : option SourceLocation :=
  profile ← profile;
  let key := default "" (rsplit_last <$> field) in
  let prefix := field ≫= rsplit_prefix in
  let nested := option_list field in
  let nested := match prefix with
                | Some p => if bool_decide (p ∈ nested) then nested else nested ++ [p]
                | None => nested
                end in
  let sections := omap (fun header =>
    (fun '(start, stop) => (start, stop, String.length header)) <$> section d header)
    (location_headers profile platform nested) in
  location_loop (doc_text d) key None sections.

(** * What a location points at *)

Lemma concat_cons x l : String.concat "" (x :: l) = x +:+ String.concat "" l.
Proof. destruct l; simpl; [by rewrite string_app_empty_r|done]. Qed.

Lemma utf8_chunks_concat : forall s cs, utf8_chunks s = Some cs -> String.concat "" cs.*2 = s.
Proof.
  fix IH 1. intros [|b0 s1] cs H; [simpl in H; by injection H as <-|]. cbn -[in_range is_cont N.ltb N.eqb] in H.
  repeat case_match; simplify_eq;
    apply fmap_Some in H as (cs' & Hcs & ->); rewrite fmap_cons, concat_cons; cbn [snd];
    rewrite (IH _ _ Hcs); done.
Qed.

Lemma drop_while_suffix {A} (f : A -> bool) l : exists k, l = k ++ drop_while f l.
Proof.
  induction l as [|x l [k IH]]; simpl; [by exists []|]. destruct (f x); [|by exists []].
  exists (x :: k). simpl. by rewrite <- IH.
Qed.

Lemma concat_app (l k : list string) : String.concat "" (l ++ k) = String.concat "" l +:+ String.concat "" k.
Proof.
  induction l as [|x l IH]; [done|]. rewrite <- app_comm_cons, !concat_cons, IH. by rewrite string_app_assoc.
Qed.

Lemma trim_start_suffix s : exists white, s = white +:+ trim_start s.
Proof.
  unfold trim_start. destruct (utf8_chunks s) as [cs|] eqn:E; [|by exists ""].
  destruct (drop_while_suffix (fun c : char * string => is_whitespace c.1) cs) as [k Hk].
  exists (String.concat "" k.*2). rewrite <- concat_app, <- fmap_app, <- Hk. by rewrite (utf8_chunks_concat _ _ E).
Qed.

Lemma split_inclusive_concat s : String.concat "" (split_inclusive s) = s.
Proof.
  induction s as [|a s IH]; [done|]. cbn [split_inclusive]. destruct (Ascii.eqb LF a).
  - rewrite concat_cons, IH. done.
  - destruct (split_inclusive s) as [|line lines]; [by rewrite <- IH|].
    rewrite !concat_cons in *. by rewrite <- IH.
Qed.

Lemma key_line_split key line :
  is_key_line key line = true -> exists white rest, line = white +:+ key +:+ rest /\ trim_start line = key +:+ rest.
Proof.
  unfold is_key_line. destruct (strip_prefix key (trim_start line)) as [rest|] eqn:E; [|done]. intros _.
  apply strip_prefix_Some in E. destruct (trim_start_suffix line) as [white Hw].
  exists white, rest. split; [by rewrite <- E|done].
Qed.

Lemma find_key_loop_points source key before lines after offset loc :
  source = before +:+ String.concat "" lines +:+ after -> offset = String.length before ->
  find_key_loop source key offset lines = Some loc ->
  exists pre post, source = pre +:+ key +:+ post /\ sl_offset loc = String.length pre /\
    sl_length loc = String.length key /\ offset <= sl_offset loc /\
    sl_offset loc + sl_length loc <= offset + String.length (String.concat "" lines).
Proof.
  revert before offset. induction lines as [|line lines IH]; intros before offset Hs Ho; [done|].
  cbn [find_key_loop]. destruct (is_key_line key line) eqn:E.
  - intros [= <-]. destruct (key_line_split key line E) as (white & rest & Hl & Ht).
    exists (before +:+ white), (rest +:+ String.concat "" lines +:+ after).
    rewrite concat_cons in *. rewrite Ht.
    assert (String.length line = String.length white + String.length (key +:+ rest)) as Hlen
      by by rewrite Hl, string_app_length.
    assert (String.length source = String.length before + String.length line
      + String.length (String.concat "" lines) + String.length after) as Hlen'.
    { rewrite Hs, !string_app_length. lia. }
    rewrite string_app_length in Hlen. simpl. rewrite !string_app_length.
    split_and!; try lia.
    rewrite Hs, Hl. by rewrite !string_app_assoc.
  - intros H. destruct (IH (before +:+ line) (offset + String.length line)) as (pre & post & ? & ? & ? & ? & ?); [| |done|].
    + rewrite Hs, concat_cons. by rewrite !string_app_assoc.
    + by rewrite Ho, string_app_length.
    + exists pre, post. rewrite concat_cons, string_app_length. split_and!; try done; lia.
Qed.

(** A key is found where it stands, inside its section. *)
Lemma find_key_location_points source section_start section_end key loc :
  section_start <= section_end -> section_end <= String.length source ->
  find_key_location source section_start section_end key = Some loc ->
  key <> "" /\ exists pre post, source = pre +:+ key +:+ post /\ sl_offset loc = String.length pre /\
    sl_length loc = String.length key /\ section_start <= sl_offset loc /\
    sl_offset loc + sl_length loc <= section_end.
Proof.
  intros Hle Hend. unfold find_key_location. case_bool_decide as Hk; [done|]. intros H. split; [done|].
  set (section := str_drop section_start (str_take section_end source)) in *.
  assert (str_take section_end source = str_take section_start (str_take section_end source) +:+ section) as Hsec
    by by rewrite str_take_drop.
  assert (String.length (str_take section_end source) = section_end) as Hlen by by apply str_take_length.
  assert (String.length (str_take section_start (str_take section_end source)) = section_start) as Hlen'
    by (apply str_take_length; lia).
  assert (section_start + String.length section = section_end) as Hsl.
  { rewrite Hsec, string_app_length, Hlen' in Hlen. exact Hlen. }
  destruct (find_key_loop_points source key (str_take section_start (str_take section_end source))
    (split_inclusive section) (str_drop section_end source) section_start loc) as (pre & post & Hp & Ho & Hl & H1 & H2);
    [|done|done|].
  - rewrite split_inclusive_concat, string_app_assoc, <- Hsec. by rewrite str_take_drop.
  - exists pre, post. rewrite split_inclusive_concat in H2. split_and!; [done..|lia].
Qed.

(** A section is a range of the document that starts with its header's line. *)
Lemma section_loop_range header offset start lines :
  (forall s, start = Some s -> s <= offset) ->
  match section_loop header offset start lines with
  | inl (Some (s, e)) => s <= e /\ e <= offset + String.length (String.concat "" lines)
  | inl None => False
  | inr (Some s) => s <= offset + String.length (String.concat "" lines)
  | inr None => True
  end.
Proof.
  revert offset start. induction lines as [|line lines IH]; intros offset start Hs; cbn [section_loop].
  - destruct start as [s|]; [|done]. specialize (Hs s eq_refl). simpl. lia.
  - rewrite concat_cons, string_app_length.
    destruct start as [s|].
    + specialize (Hs s eq_refl). destruct (starts_with_char _ _); [lia|].
      specialize (IH (offset + String.length line) (Some s) ltac:(intros ? [= <-]; lia)).
      rewrite Nat.add_assoc. exact IH.
    + rewrite Nat.add_assoc. apply IH. intros s. case_bool_decide; [intros [= <-]; lia|done].
Qed.

Lemma section_range d header s e :
  section d header = Some (s, e) -> s <= e /\ e <= String.length (doc_text d).
Proof.
  unfold section. pose proof (section_loop_range header 0 None (split_inclusive (doc_text d)) ltac:(done)) as H.
  rewrite split_inclusive_concat in H. destruct (section_loop _ _ _ _) as [[[s' e']|]|[s'|]]; simpl; try done;
    intros [= <- <-]; lia.
Qed.
