(* ===== verification/ConfigResolve.v ===== *)
(** [cageforge-config]: loading, validating and resolving a configuration
    ([resolve.rs]).  The [toml] crate, the file system and the [Debug] of text
    are parameters. *)

From Stdlib Require Import Ascii String NArith Lia.
From stdpp Require Import base option strings gmap sets relations sorting list.
From S2P Require Import Prelude Keyed Text BTree NativePath PlatformPath Access Selector PathPattern FsPolicy Domain LocalIpc NetPolicy Permissions Policy Environment Command GatewayConfig ConfigError ConfigModel ConfigGraph Indexed ConfigMerge ConfigLayers ConfigBuild ConfigSource.

(** [toml::from_str], and the message and the span of its errors *)
Class TomlParser := toml_from_str : string -> result (string * option (nat * nat)) RawConfig.

(** [std::fs::read_to_string], and the message of its errors *)
Class ReadFiles := read_to_string : path -> result string string.

(** [{:?}] of a [str] *)
Class DebugText := debug_text : string -> string.

Section config.
Context {U : Unicode} {G : Globset} {W : WildMatch} {D : DebugText}.

Record Config := { cfg_raw : RawConfig; cfg_source : SourceDocument }.

Record ProfileSourceContext := {
  psc_profile : string;
  psc_config_path : option path;
  psc_platform : option PlatformId;
  psc_profile_location : option SourceLocation;
  psc_command : option string;
  psc_field_locations : BTreeMap string SourceLocation
}.

Record ResolvedProfile := {
  res_description : option string;
  res_workspace_roots : list path;
  res_executable_roots : list path;
  res_policy : SandboxPolicy;
  res_command : option CommandRequest;
  res_network_gateway : GatewayConfig;
  res_approval : ApprovalConfig;
  res_source_context : ProfileSourceContext
}.

(** [PathDialect::native] on Unix *)
Definition native_dialect : PathDialect := Posix.

Definition path_dialect (platform : option PlatformId) : PathDialect :=
  match platform with
  | Some Permissions.Windows => PlatformPath.Windows
  | Some (Linux | Macos) => Posix
  | None => native_dialect
  end.

(** * Validation *)

(** [if !set.insert(key) { return Err(…); }] *)
Definition insert_new {K} (keqb : K -> K -> bool) (e : ConfigError) (seen : list K) (k : K) :
  result ConfigError (list K) :=
  reject existsb (keqb k) seen with e ;; Ok (seen ++ [k]).

Definition reject_duplicates {K A} (keqb : K -> K -> bool) (key : A -> K) (e : A -> ConfigError) (l : list A) :
  result ConfigError (list K) :=
  foldM (fun seen x => insert_new keqb (e x) seen (key x)) [] l.

Definition profile_name_byte (a : ascii) : bool :=
  is_ascii_alphabetic a || is_ascii_digit a || Ascii.eqb a "-" || Ascii.eqb a "_".

Definition validate_profile_name (name : string) : result ConfigError unit :=
  match name with
  | String first _ =>
      if (is_ascii_alphabetic first || is_ascii_digit first) && str_all profile_name_byte name
      then Ok () else Err (bare (InvalidProfileName name))
  | EmptyString => Err (bare (InvalidProfileName name))
  end.

Definition validate_approval (profile : string) (approval : option RawApproval) : result ConfigError unit :=
  match approval ≫= ra_timeout_ms with
  | Some timeout =>
      reject (timeout =? 0)%N
        with invalid_value profile "approval.timeout_ms" "timeout must be greater than zero" ;;
      Ok ()
  | None => Ok ()
  end.

Definition validate_workspace_root (profile root : string) (dialect : PathDialect) : result ConfigError unit :=
  reject bool_decide (root = "") with invalid_value profile "workspace_roots" "path must not be empty" ;;
  reject contains_char NUL root
    with invalid_value profile "workspace_roots" "path must not contain a NUL character" ;;
  reject contains_parent_traversal_text root dialect
    with invalid_value profile "workspace_roots" "path must not contain parent traversal" ;;
  Ok ().

Definition validate_workspace_roots (profile : string) (values : BTreeMap string bool) (dialect : PathDialect) :
  result ConfigError unit :=
  _ ← foldM (fun roots root =>
        _ ← validate_workspace_root profile root dialect;
        insert_new path_key_eqb
          (invalid_value profile "workspace_roots"
             ("duplicate path under target path semantics " +:+ debug_text root))
          roots (PlatformPathKey_new root dialect)) [] values.*1;
  Ok ().

Definition validate_executable_root (profile root : string) (dialect : PathDialect) : result ConfigError unit :=
  reject bool_decide (root = "") with invalid_value profile "runtime.executable_roots" "path must not be empty" ;;
  reject contains_char NUL root
    with invalid_value profile "runtime.executable_roots" "path must not contain a NUL character" ;;
  reject negb (is_absolute_text root dialect)
    with invalid_value profile "runtime.executable_roots" ("path must be absolute: " +:+ debug_text root) ;;
  reject contains_parent_traversal_text root dialect
    with invalid_value profile "runtime.executable_roots"
           ("path must not contain parent traversal: " +:+ debug_text root) ;;
  Ok ().

Definition validate_runtime (profile : string) (runtime : option RawRuntime) (platform : option PlatformId) :
  result ConfigError unit :=
  match runtime with
  | None => Ok ()
  | Some runtime =>
      _ ← foldM (fun roots root =>
            _ ← validate_executable_root profile root (path_dialect platform);
            insert_new path_key_eqb
              (invalid_value profile "runtime.executable_roots"
                 ("duplicate path under native semantics: " +:+ debug_text root))
              roots (PlatformPathKey_new root (path_dialect platform))) [] (rr_executable_roots runtime);
      Ok ()
  end.

Definition validate_filesystem_duplicates (name : string) (fs : RawFilesystem) (dialect : PathDialect) :
  result ConfigError unit :=
  _ ← reject_duplicates rule_key_eqb (filesystem_rule_key dialect)
        (fun _ => invalid_value name "filesystem.rules" "duplicate target under native path semantics") (rf_rules fs);
  _ ← reject_duplicates path_key_eqb (fun p => PlatformPathKey_new p dialect)
        (fun _ => invalid_value name "filesystem.additional_protected_paths" "duplicate path under native semantics")
        (rf_additional_protected_paths fs);
  Ok ().

Definition validate_network_duplicates (name : string) (net : RawNetwork) (dialect : PathDialect) :
  result ConfigError unit :=
  _ ← reject_duplicates string_eqb (fun r => domain_rule_key (rd_pattern r))
        (fun _ => invalid_value name "network.domains" "duplicate normalized domain pattern") (rn_domains net);
  _ ← reject_duplicates path_key_eqb (fun r => PlatformPathKey_new (ru_path r) dialect)
        (fun _ => invalid_value name "network.unix_sockets" "duplicate path under native semantics")
        (rn_unix_sockets net);
  Ok ().

Definition validate_policy_duplicates (name : string) (fs : option RawFilesystem) (net : option RawNetwork)
    (dialect : PathDialect) : result ConfigError unit :=
  _ ← match fs with Some fs => validate_filesystem_duplicates name fs dialect | None => Ok () end;
  match net with Some net => validate_network_duplicates name net dialect | None => Ok () end.

(** The parents of [validate_raw_config]'s profile loop *)
Definition validate_inherits (name : string) (parents : list string) : result ConfigError unit :=
  _ ← foldM (fun inherited parent =>
        _ ← validate_profile_name parent;
        insert_new string_eqb
          (invalid_value name "inherits" ("duplicate parent " +:+ debug_text parent)) inherited parent) [] parents;
  Ok ().

Abbreviation name_eqb := (fun k l : EnvironmentNameKey => bool_decide (k = l)).

(** The environment of the profile loop *)
Definition validate_environment (name : string) (e : RawEnvironment) : result ConfigError unit :=
  _ ← reject_duplicates filter_key_eqb environment_filter_key
        (fun pattern => invalid_value name "command.environment.filters"
           ("duplicate pattern ignoring case " +:+ debug_text pattern)) (re_filters e).*1;
  set_names ← reject_duplicates name_eqb name_key
        (fun variable => invalid_value name "command.environment"
           ("duplicate set variable ignoring case " +:+ debug_text variable)) (re_set e).*1;
  _ ← foldM (fun remove_names variable =>
        let key := name_key variable in
        remove_names ← insert_new name_eqb
          (invalid_value name "command.environment.remove"
             ("duplicate removed variable ignoring case " +:+ debug_text variable)) remove_names key;
        reject existsb (name_eqb key) set_names
          with invalid_value name "command.environment"
                 ("variable " +:+ debug_text variable +:+ " appears in both set and remove") ;;
        Ok remove_names) [] (re_remove e);
  Ok ().

Definition validate_overlay (name : string) (platform : PlatformId) (overlay : RawPlatformProfile) :
  result ConfigError unit :=
  let dialect := path_dialect (Some platform) in
  _ ← validate_policy_duplicates name (rpp_filesystem overlay) (rpp_network overlay) dialect;
  _ ← validate_approval name (rpp_approval overlay);
  _ ← validate_runtime name (rpp_runtime overlay) (Some platform);
  validate_workspace_roots name (rpp_workspace_roots overlay) dialect.

Definition validate_profile (name : string) (profile : RawProfile) : result ConfigError unit :=
  _ ← validate_profile_name name;
  _ ← validate_policy_duplicates name (rp_filesystem profile) (rp_network profile) native_dialect;
  _ ← validate_approval name (rp_approval profile);
  _ ← validate_runtime name (rp_runtime profile) None;
  _ ← validate_workspace_roots name (rp_workspace_roots profile) native_dialect;
  _ ← foldM (fun _ o => validate_overlay name o.1 o.2) () (rp_platforms profile);
  _ ← validate_inherits name (rp_inherits profile);
  match rp_command profile ≫= rcm_environment with
  | Some environment => validate_environment name environment
  | None => Ok ()
  end.

Definition validate_raw_config (config : RawConfig) : result ConfigError unit :=
  _ ← match rc_default_profile config with
      | None => Ok ()
      | Some name =>
          _ ← validate_profile_name name;
          match bt_get name (rc_profiles config) with
          | Some _ => Ok ()
          | None => Err (bare (UnknownProfile name))
          end
      end;
  foldM (fun _ e => validate_profile e.1 e.2) () (rc_profiles config).

(** * Loading *)

Definition decorate (c : Config) (e : ConfigError) (platform : option PlatformId) : ConfigError :=
  let '(profile, field) := profile_field e in
  with_context e {|
    cx_config_path := doc_path (cfg_source c);
    cx_platform := platform;
    cx_location := location_for (cfg_source c) profile platform field
  |}.

Section loading.
Context {T : TomlParser} {F : ReadFiles}.

Definition from_source (source : string) (p : option path) : result ConfigError Config :=
  raw ← map_err (fun '(message, span) =>
          let location := (fun '(start, stop) => source_location source start stop) <$> span in
          {| ce_kind := InvalidToml message location;
             ce_context := Some {| cx_config_path := p; cx_platform := None; cx_location := location |} |})
        (toml_from_str source);
  let config := {| cfg_raw := raw; cfg_source := {| doc_text := source; doc_path := p |} |} in
  _ ← map_err (fun e => decorate config e None) (validate_raw_config raw);
  Ok config.

Definition from_toml (source : string) : result ConfigError Config := from_source source None.

Definition from_file (p : path) : result ConfigError Config :=
  source ← map_err (fun message =>
             {| ce_kind := ReadFile p message;
                ce_context := Some {| cx_config_path := Some p; cx_platform := None; cx_location := None |} |})
           (read_to_string p);
  from_source source (Some p).

End loading.

(** * Resolution *)

Definition build_approval (approval : option RawApproval) (profile : string) : result ConfigError ApprovalConfig :=
  match approval with
  | None => Ok approval_default
  | Some approval =>
      map_err (fun _ => invalid_value profile "approval" "approval timeout must be greater than zero")
        (approval_new (default Disabled (ra_mode approval))
           (default (timeout_ms approval_default) (ra_timeout_ms approval))
           (default (on_timeout approval_default) (ra_on_timeout approval))
           (default (persistence approval_default) (ra_persistence approval)))
  end.

(** The profiles an order names, as the last loop of [resolve_raw] looks them
    up. *)
Fixpoint lookup_profiles (profiles : BTreeMap string RawProfile) (order : list string) :
  result ConfigError (list RawProfile) :=
  match order with
  | [] => Ok []
  | name :: rest =>
      profile ← ok_or (bare (UnknownProfile name)) (bt_get name profiles);
      ps ← lookup_profiles profiles rest;
      Ok (profile :: ps)
  end.

(** [None] stands for a panic or a loop that does not end. *)
Definition resolve_raw (c : Config) (name : string) (platform : option PlatformId) :
  option (result ConfigError MergedProfile) :=
  let profiles := rc_profiles (cfg_raw c) in
  match resolve_order profiles name with
  | Some (Break order) =>
      Some (ps ← lookup_profiles profiles order;
            Ok (merge_profiles (path_dialect platform) platform ps))
  | Some (Fail e) => Some (Err e)
  | _ => None
  end.

Definition context_fields : list string :=
  ["workspace_roots"; "filesystem"; "network"; "local_ipc"; "command"; "command.program"; "approval";
   "runtime.executable_roots"].

Definition display_command (r : CommandRequest) : string :=
  String.concat " " (to_string_lossy <$> program (command r) :: args (command r)).

Definition source_context (c : Config) (profile : string) (platform : option PlatformId)
    (request : option CommandRequest) : ProfileSourceContext := {|
  psc_profile := profile;
  psc_config_path := doc_path (cfg_source c);
  psc_platform := platform;
  psc_profile_location := first_profile_location (cfg_source c) profile platform;
  psc_command := display_command <$> request;
  psc_field_locations :=
    foldl (fun m field =>
      match location_for (cfg_source c) (Some profile) platform (Some field) with
      | Some location => bt_insert field location m
      | None => m
      end) [] context_fields
|}.

Definition enabled_roots (roots : BTreeMap string bool) : list path :=
  omap (fun e => if e.2 : bool then Some e.1 else None) roots.

(** The part of [resolve_with_platform_inner] after [resolve_raw] *)
Definition resolve_merged (c : Config) (name : string) (platform : option PlatformId) (merged : MergedProfile) :
  result ConfigError ResolvedProfile :=
  policy ← build_policy name (mp_filesystem merged) (mp_network merged) (mp_local_ipc merged);
  command ← build_command name (mp_command merged);
  network_gateway ← build_gateway_config name (mp_network merged ≫= rn_gateway);
  approval ← build_approval (mp_approval merged) name;
  Ok {| res_description := mp_description merged;
        res_workspace_roots := enabled_roots (mp_workspace_roots merged);
        res_executable_roots := default [] (rr_executable_roots <$> mp_runtime merged);
        res_policy := policy; res_command := command; res_network_gateway := network_gateway;
        res_approval := approval; res_source_context := source_context c name platform command |}.

Definition resolve_with_platform (c : Config) (name : string) (platform : option PlatformId) :
  option (result ConfigError ResolvedProfile) :=
  (fun merged : result ConfigError MergedProfile =>
     map_err (fun e => decorate c e platform) (m ← merged; resolve_merged c name platform m))
    <$> resolve_raw c name platform.

(** [Config::resolve] *)
Definition resolve_profile (c : Config) (name : string) : option (result ConfigError ResolvedProfile) :=
  resolve_with_platform c name None.

Definition resolve_for_platform (c : Config) (name : string) (platform : PlatformId) :
  option (result ConfigError ResolvedProfile) := resolve_with_platform c name (Some platform).

Definition resolve_default (c : Config) : option (result ConfigError ResolvedProfile) :=
  match rc_default_profile (cfg_raw c) with
  | Some name => resolve_profile c name
  | None => Some (Err (decorate c (bare NoDefaultProfile) None))
  end.

Definition resolve_default_for_platform (c : Config) (platform : PlatformId) :
  option (result ConfigError ResolvedProfile) :=
  match rc_default_profile (cfg_raw c) with
  | Some name => resolve_for_platform c name platform
  | None => Some (Err (decorate c (bare NoDefaultProfile) (Some platform)))
  end.

Definition profile_names (c : Config) : list string := (rc_profiles (cfg_raw c)).*1.

End config.
