(* ===== verification/ConfigSafety.v ===== *)
(** [cageforge-config]: what a resolved profile guarantees to the crates that
    use it. *)

From Stdlib Require Import Ascii String NArith Lia.
From stdpp Require Import base option strings gmap sets relations sorting list.
From S2P Require Import Prelude Keyed Text BTree NativePath PlatformPath Access Selector PathPattern FsPolicy Domain LocalIpc NetPolicy Permissions Policy Environment Command GatewayConfig ConfigError ConfigModel ConfigGraph Indexed ConfigMerge ConfigLayers ConfigBuild ConfigSource ConfigResolve.

Section safety.
Context {U : Unicode} {G : Globset} {W : WildMatch} {D : DebugText}.

(** * The errors of a computation *)

(** Every error [r] can return satisfies [P]. *)
Definition errs_with {E A} (P : E -> Prop) (r : result E A) : Prop := forall e, r = Err e -> P e.

Section errs.
Context {E : Type} (P : E -> Prop).

Lemma errs_Ok {A} (a : A) : errs_with P (Ok a).
Proof. by intros e. Qed.

Lemma errs_Err {A} (e : E) : P e -> errs_with P (Err e : result E A).
Proof. by intros H e' [= <-]. Qed.

Lemma errs_bind {A B} (m : result E A) (f : A -> result E B) :
  errs_with P m -> (forall a, errs_with P (f a)) -> errs_with P (x ← m; f x).
Proof. intros Hm Hf e. rewrite bind_Err. intros [H|(a & _ & H)]; [by apply Hm|by eapply Hf]. Qed.

Lemma errs_map_err {F A} (g : F -> E) (m : result F A) : (forall x, P (g x)) -> errs_with P (map_err g m).
Proof. intros H e. destruct m; simpl; [done|]. by intros [= <-]. Qed.

Lemma errs_ok_or {A} (e : E) (o : option A) : P e -> errs_with P (ok_or e o).
Proof. intros H e'. destruct o; simpl; [done|]. by intros [= <-]. Qed.

Lemma errs_foldM {A B} (f : A -> B -> result E A) acc l :
  (forall a x, errs_with P (f a x)) -> errs_with P (foldM f acc l).
Proof.
  intros Hf. revert acc. induction l as [|x l IH]; intros acc; simpl; [apply errs_Ok|].
  apply errs_bind; [apply Hf|apply IH].
Qed.

End errs.

(** Follows the structure of a computation, leaving the errors it builds. *)
Ltac errs :=
  repeat first
    [ apply errs_Ok | apply errs_bind; [|intros ?] | apply errs_foldM; intros ? ? | apply errs_map_err; intros ?
    | apply errs_ok_or | apply errs_Err
    | match goal with
      | |- errs_with _ (if ?b then _ else _) => destruct b
      | |- errs_with _ (match ?o with _ => _ end) => destruct o
      end ].

(** * Resolution returns *)

Lemma lookup_profiles_Ok profiles l :
  (forall n, n ∈ l -> is_Some (bt_get n profiles)) ->
  exists ps, lookup_profiles profiles l = Ok ps /\
    Forall2 (fun n p => bt_get n profiles = Some p) l ps.
Proof.
  induction l as [|n l IH]; intros H; simpl; [by exists []|].
  destruct (H n) as [p Hp]; [set_solver|]. destruct IH as (ps & Hps & Hall); [set_solver|].
  exists (p :: ps). rewrite Hp. simpl. rewrite Hps. split; [done|by constructor].
Qed.

(** The profiles merged for a name: itself and its ancestors, in the order of
    the walk. *)
Definition ancestry (c : Config) (name : string) (ps : list RawProfile) : Prop :=
  exists l, resolve_order (rc_profiles (cfg_raw c)) name = Some (Break l) /\
    Forall2 (fun n p => bt_get n (rc_profiles (cfg_raw c)) = Some p) l ps.

Lemma resolve_raw_cases (c : Config) (name : string) (platform : option PlatformId) :
  (exists ps, ancestry c name ps /\
     resolve_raw c name platform = Some (Ok (merge_profiles (path_dialect platform) platform ps))) \/
  (exists e, failure_ok (rc_profiles (cfg_raw c)) name e /\ resolve_raw c name platform = Some (Err e)).
Proof.
  unfold resolve_raw. pose proof (resolve_order_cases (rc_profiles (cfg_raw c)) name) as H.
  destruct (resolve_order _ name) as [[|l|e|]|] eqn:Hord; try done; [|right; eauto].
  left. pose proof H as (_ & _ & Ht & _).
  destruct (lookup_profiles_Ok (rc_profiles (cfg_raw c)) l) as (ps & Hps & Hall).
  { intros n Hn. apply list_elem_of_split in Hn as (l1 & l2 & ->).
    destruct (Ht l1 n l2) as (p & Hp & _); eauto. }
  exists ps. rewrite Hps. split; [|done]. by exists l.
Qed.

Lemma resolve_Ok_inv c name platform r :
  resolve_with_platform c name platform = Some (Ok r) ->
  exists ps, ancestry c name ps /\
    resolve_merged c name platform (merge_profiles (path_dialect platform) platform ps) = Ok r.
Proof.
  unfold resolve_with_platform. destruct (resolve_raw_cases c name platform) as [(ps & Ha & ->)|(e & _ & ->)];
    simpl; [|done].
  intros [= H]. apply map_err_Ok in H. by exists ps.
Qed.

(** * Gateways *)

(** The numbers the document holds are machine words. *)
Definition layer_fits (l : RawPlatformProfile) : Prop :=
  forall n g, rpp_network l = Some n -> rn_gateway n = Some g -> gateway_fits g.

Definition document_fits (raw : RawConfig) : Prop :=
  forall name p, (name, p) ∈ rc_profiles raw ->
    layer_fits (base_layer p) /\ forall id o, (id, o) ∈ rp_platforms p -> layer_fits o.

Lemma last_some_elem {A B} (f : A -> option B) l b : last_some f l = Some b -> exists a, a ∈ l /\ f a = Some b.
Proof. unfold last_some. intros H%last_Some_elem_of. by apply list_elem_of_omap in H. Qed.

Lemma gateway_merged_fits ns g :
  (forall n g, n ∈ ns -> rn_gateway n = Some g -> gateway_fits g) ->
  gateway_merged ns g -> gateway_fits (default default_gateway g).
Proof.
  intros Hns [Hf Hr].
  assert (forall (field : RawGatewayConfig -> option N),
    (forall g, gateway_fits g -> fits_u64 (field g)) -> field default_gateway = None ->
    g ≫= field = last_some (fun n => rn_gateway n ≫= field) ns ->
    fits_u64 (field (default default_gateway g))) as Hfield.
  { intros field Hfits Hnone Hl. assert (field (default default_gateway g) = g ≫= field) as -> by (destruct g; [done|exact Hnone]).
    rewrite Hl. destruct (last_some (fun n => rn_gateway n ≫= field) ns) as [v|] eqn:Hv; [|done].
    apply last_some_elem in Hv as (n & Hn & Hnv). apply bind_Some in Hnv as (g' & Hg' & Hv).
    specialize (Hfits g' (Hns n g' Hn Hg')). by rewrite Hv in Hfits. }
  assert (fits_u64 (match rg_relay_byte_limit (default default_gateway g) with
                    | Some (RawBytes n) => Some n | _ => None end)) as Hrelay.
  { assert (rg_relay_byte_limit (default default_gateway g) = g ≫= rg_relay_byte_limit) as -> by by destruct g.
    rewrite Hr. destruct (last_some _ ns) as [[v|m]|] eqn:Hv; [|done|done].
    apply last_some_elem in Hv as (n & Hn & Hnv). apply bind_Some in Hnv as (g' & Hg' & Hv).
    specialize (Hns n g' Hn Hg'). unfold gateway_fits in Hns. rewrite Hv, !Forall_cons in Hns. tauto. }
  unfold gateway_fits. rewrite !Forall_cons.
  split_and!; [..|exact Hrelay|constructor]; apply Hfield; try done;
    try (apply Hf; set_solver); intros g' Hg'; unfold gateway_fits in Hg'; rewrite !Forall_cons in Hg'; tauto.
Qed.

Lemma ancestry_layers_fit c name ps platform l :
  document_fits (cfg_raw c) -> ancestry c name ps -> l ∈ layers platform ps -> layer_fits l.
Proof.
  intros Hd (ns & _ & Hall) Hl. unfold layers in Hl.
  apply list_elem_of_join in Hl as (ls & Hl & (p & -> & Hp)%list_elem_of_fmap).
  apply list_elem_of_lookup_1 in Hp as [i Hi].
  destruct (Forall2_lookup_r _ _ _ _ _ Hall Hi) as (n & _ & (m & ->%cmp_eq & Hin)%bt_get_elem).
  destruct (Hd m p Hin) as [Hb Ho]. unfold profile_layers in Hl.
  apply elem_of_cons in Hl as [->|Hl]; [done|].
  destruct (platform ≫= _) as [o|] eqn:Ho'; [|by apply not_elem_of_nil in Hl].
  apply list_elem_of_singleton in Hl as ->.
  apply bind_Some in Ho' as (id & _ & (m' & ->%cmp_eq & Hin')%bt_get_elem). by eapply Ho.
Qed.

(** C23. A resolved profile only holds values the other crates' builders made: its
    filesystem, network and combined policies are valid, so that composition's
    guarantees apply to it; its command request, if any, is well formed; its
    gateway settings keep their bounds; and its approval timeout is positive. *)
Theorem resolved_profile_valid (c : Config) (name : string) (platform : option PlatformId) (r : ResolvedProfile) :
  document_fits (cfg_raw c) ->
  resolve_with_platform c name platform = Some (Ok r) ->
  policy_built (filesystem (res_policy r)) /\ net_built (network (res_policy r)) /\
  sandbox_validate (res_policy r) = Ok () /\
  (forall request, res_command r = Some request -> request_built request) /\
  config_built (res_network_gateway r) /\ (0 < timeout_ms (res_approval r))%N.
Proof.
  intros Hd (ps & Ha & H)%resolve_Ok_inv. unfold resolve_merged in H. res_inv. simpl.
  match goal with H : build_policy _ _ _ _ = Ok _ |- _ => apply build_policy_built in H as (Hf & Hn & Hv) end.
  split_and!; [done|done|done| | |].
  - intros request ->. by eapply build_command_built.
  - pose proof (merged_network (path_dialect platform) platform ps) as Hnet.
    eapply build_gateway_built; [|eassumption].
    destruct (mp_network _) as [n|]; simpl; [|by repeat constructor]. destruct Hnet as [_ Hnet].
    eapply gateway_merged_fits; [|apply (nt_gateway _ _ _ Hnet)].
    intros n' g (l & Hl & Hln)%list_elem_of_omap Hg.
    by eapply (ancestry_layers_fit c name ps platform l Hd Ha Hl).
  - match goal with H : build_approval _ _ = Ok _ |- _ => unfold build_approval in H end.
    destruct (mp_approval _) as [a'|]; res_inv; [|done].
    match goal with H : approval_new _ _ _ _ = Ok _ |- _ => unfold approval_new in H end. res_inv. cbn [timeout_ms].
    match goal with H : (_ =? 0)%N = false |- _ => by apply N.eqb_neq, N.neq_0_lt_0 in H end.
Qed.

(** An error about the profile being resolved. *)
Definition names_profile (name : string) (e : ConfigError) : Prop :=
  ce_context e = None /\
  match ce_kind e with
  | InvalidValue p _ _ | MissingCommandProgram p | EPolicy p _ | ECommand p _ | ENetworkGateway p _ => p = name
  | _ => False
  end.

Lemma build_policy_errs name fs net ipc : errs_with (names_profile name) (build_policy name fs net ipc).
Proof.
  unfold build_policy, build_filesystem, build_filesystem_rule, build_target, build_network, build_selector,
    required_string, require_path, reject_path, policy_error. cbv zeta. by errs.
Qed.

Lemma build_command_errs name raw : errs_with (names_profile name) (build_command name raw).
Proof.
  unfold build_command, build_environment, build_timeout, reject_timeout_milliseconds, command_error.
  cbv zeta. by errs.
Qed.

Lemma build_gateway_errs name raw : errs_with (names_profile name) (build_gateway_config name raw).
Proof.
  unfold build_gateway_config, set_field, set_timeout, set_limit, set_relay_limit, config_timeout,
    config_nonzero_usize, gateway_error. cbv zeta. by errs.
Qed.

Lemma resolve_merged_errs c name platform m : errs_with (names_profile name) (resolve_merged c name platform m).
Proof.
  unfold resolve_merged. apply errs_bind; [apply build_policy_errs|intros policy].
  apply errs_bind; [apply build_command_errs|intros command].
  apply errs_bind; [apply build_gateway_errs|intros gateway]. unfold build_approval. by errs.
Qed.

(** C24. Resolving a profile always returns.  It succeeds only for a profile whose
    inheritance is well formed: every profile it inherits from exists and none
    inherits from itself.  An error is an unknown profile it inherits from, an
    inheritance cycle reachable from it, or a defect reported against the
    requested profile itself; and it carries the file and the platform of the
    request. *)
Theorem resolution_total (c : Config) (name : string) (platform : option PlatformId) :
  let profiles := rc_profiles (cfg_raw c) in
  match resolve_with_platform c name platform with
  | Some (Ok r) =>
      psc_profile (res_source_context r) = name /\
      forall n, inherits_from profiles name n -> is_Some (bt_get n profiles) /\ ~ tc (extends profiles) n n
  | Some (Err e) =>
      (failure_ok profiles name (bare (ce_kind e)) \/ names_profile name (bare (ce_kind e))) /\
      let context := default empty_context (ce_context e) in
      cx_config_path context = doc_path (cfg_source c) /\ cx_platform context = platform
  | None => False
  end.
Proof.
  cbv zeta. unfold resolve_with_platform.
  assert (forall e, ce_context e = None ->
    let context := default empty_context (ce_context (decorate c e platform)) in
    ce_kind (decorate c e platform) = ce_kind e /\
    cx_config_path context = doc_path (cfg_source c) /\ cx_platform context = platform) as Hdec.
  { intros e He. unfold decorate. destruct (profile_field e) as [pr field]. split; [done|].
    pose proof (merge_context_fields (ce_context e) {| cx_config_path := doc_path (cfg_source c);
      cx_platform := platform; cx_location := location_for (cfg_source c) pr platform field |}) as (H1 & H2 & _).
    rewrite He in *. simpl in H1, H2. rewrite !replace_present_None in *. unfold with_context. simpl.
    by rewrite He, H1, H2. }
  destruct (resolve_raw_cases c name platform) as [(ps & (l & Hv & Hall) & ->)|(e & Hf & ->)]; simpl.
  - destruct (resolve_merged _ _ _ _) as [r|e] eqn:Hr; simpl.
    + unfold resolve_merged in Hr. res_inv. split; [done|].
      pose proof (resolve_order_cases (rc_profiles (cfg_raw c)) name) as Hok. rewrite Hv in Hok.
      intros n. by eapply order_ok_wf.
    + assert (names_profile name e) as He by (by eapply resolve_merged_errs).
      destruct (Hdec e (proj1 He)) as (Hk & ? & ?). rewrite Hk. split; [|done]. right. by destruct He.
  - assert (ce_context e = None) as He by (by destruct Hf as [(n & -> & _)|(x & ch & -> & _)]).
    destruct (Hdec e He) as (Hk & ? & ?). rewrite Hk. split; [|done]. left.
    by destruct e; simpl in *; subst.
Qed.

(** * Environments *)

Definition to_override (o : string * option string) : EnvironmentOverride :=
  match o.2 with Some value => Set_ value | None => Remove end.

Lemma override_fold_spec (step : EnvironmentSpec -> string * option string -> result ConfigError EnvironmentSpec)
    (os : list (string * option string)) e e' :
  (forall s o s', o ∈ os -> step s o = Ok s' -> s' = with_override s o.1 (to_override o)) ->
  spec_wf e -> foldM step e os = Ok e' ->
  spec_wf e' /\ spec_base e' = spec_base e /\
  forall n, override_for e' n =
    match last_override (name_key n) os with Some o => Some (to_override o) | None => override_for e n end.
Proof.
  revert e. induction os as [|o os IH]; intros e Hstep He; simpl.
  { intros [= <-]. done. }
  intros (e1 & H1%Hstep & H)%bind_Ok; [|apply list_elem_of_here]. subst e1.
  destruct (with_override_wf e o.1 (to_override o) He) as [Hwf1 Hget].
  destruct (IH _ ltac:(set_solver) Hwf1 H) as (Hwf' & Hb & Hover). split_and!; [done| |].
  { rewrite Hb. unfold with_override. by destruct (replace_environment_name _ _ _ _). }
  intros n. rewrite Hover, Hget. unfold last_override.
  change (o :: os) with ([o] ++ os). rewrite last_with_app, last_with_one.
  destruct (last_with _ _ _ os); [done|]. rewrite bool_decide_decide. by destruct (decide _).
Qed.

Lemma foldM_fmap {E A B C} (f : A -> B -> result E A) (g : C -> B) acc l :
  foldM f acc (g <$> l) = foldM (fun a x => f a (g x)) acc l.
Proof. revert acc. induction l as [|x l IH]; intros acc; simpl; [done|]. destruct (f acc (g x)); simpl; auto. Qed.

Definition raw_base (o : option RawEnvironmentBase) : EnvironmentBase :=
  match default RawCore o with RawAll => BaseAll | RawCore => BaseCore | RawNone => BaseNone end.

(** A built environment decides every name by the last override of its
    identity. *)
Lemma build_environment_spec name raw e :
  build_environment name raw = Ok e ->
  spec_base e = raw_base (re_inherit raw) /\
  forall n, override_for e n = to_override <$> last_override (name_key n) (environment_overrides raw).
Proof.
  intros H. unfold build_environment, command_error in H. res_inv.
  match goal with H : foldM _ _ (re_filters _) = Ok ?p |- _ => rename H into Hfil, p into s0 end.
  assert (spec_wf s0 /\ spec_base s0 = raw_base (re_inherit raw) /\ forall n, override_for s0 n = None)
    as (Hwf0 & Hb0 & Ho0).
  { revert Hfil. apply (foldM_invariant _ (fun s => spec_wf s /\ spec_base s = raw_base (re_inherit raw) /\
      forall n, override_for s n = None)).
    - destruct (re_inherit raw) as [[]|]; (split_and!; [apply spec_built_wf, sb_base|done|done]).
    - intros x f x' _ (Hx & Hb & Ho) Hs. cbv beta in Hs. res_inv.
      unfold with_filter in Hs. res_inv. split_and!; [|done|done].
      destruct Hx as [Hix Hfw]. split; [done|]. simpl. by apply bt_wf_insert, bt_wf_remove. }
  match goal with H : foldM _ ?a (re_set _) = Ok ?p |- _ =>
    rename H into Hset; pose proof (override_fold_spec (fun s o => map_err (fun source => bare (ECommand name source))
      (with_var s o.1 (default EmptyString o.2))) ((fun e => (e.1, Some e.2)) <$> re_set raw) a p) as Hset' end.
  rewrite foldM_fmap in Hset'. destruct Hset' as (Hwf1 & Hb1 & Ho1); [|done|exact Hset|].
  { intros x o x' (v & -> & _)%list_elem_of_fmap Hx. res_inv. unfold with_var in Hx. by res_inv. }
  match goal with H : foldM _ ?a (re_remove _) = Ok ?p |- _ =>
    rename H into Hrem; pose proof (override_fold_spec (fun s o => map_err (fun source => bare (ECommand name source))
      (without_var s o.1)) ((fun name => (name, None)) <$> re_remove raw) a p) as Hrem' end.
  rewrite foldM_fmap in Hrem'. destruct Hrem' as (_ & Hb2 & Ho2); [|done|exact Hrem|].
  { intros x o x' (v & -> & _)%list_elem_of_fmap Hx. res_inv. unfold without_var in Hx. by res_inv. }
  split; [by rewrite Hb2, Hb1, Hb0|]. intros n. rewrite Ho2, Ho1, Ho0.
  unfold environment_overrides, last_override. rewrite last_with_app.
  destruct (last_with _ _ _ (_ <$> re_remove raw)); [done|]. by destruct (last_with _ _ _ _).
Qed.

(** The merged section keeps the last override of every identity. *)
Lemma merged_overrides cs e k :
  environment_section cs e -> last_override k (environment_overrides e) = last_override k (overrides_of cs).
Proof.
  intros (_ & _ & Hwf & Hset & Hrem). unfold last_override.
  assert (forall o, o ∈ environment_overrides e -> last_override (name_key o.1) (overrides_of cs) = Some o) as Hin.
  { intros o. unfold environment_overrides. rewrite elem_of_app, !list_elem_of_fmap.
    intros [([n v] & -> & Hv)|(n & -> & Hn)]; simpl; [|by apply Hrem].
    apply Hset. by apply bt_get_Some. }
  destruct (last_with _ _ k (environment_overrides e)) as [o|] eqn:Ho.
  - apply last_with_Some in Ho as [Ho Hk]. apply bool_decide_eq_true in Hk as ->. symmetry. by apply Hin.
  - rewrite last_with_None, Forall_forall in Ho.
    destruct (last_with _ _ k (overrides_of cs)) as [[n o]|] eqn:Hl; [|done]. exfalso.
    apply last_with_Some in Hl as Hl'. destruct Hl' as [_ Hk]. apply bool_decide_eq_true in Hk. simpl in Hk. subst k.
    assert ((n, o) ∈ environment_overrides e) as Hoe.
    { unfold environment_overrides. rewrite elem_of_app, !list_elem_of_fmap. destruct o as [v|].
      - left. exists (n, v). split; [done|]. apply Hset in Hl. apply bt_get_elem in Hl as (m & ->%cmp_eq & ?). done.
      - right. exists n. split; [done|]. by apply Hrem. }
    apply Ho in Hoe. simpl in Hoe. by apply bool_decide_eq_false in Hoe.
Qed.

(** The environment of a built request is that of its section. *)
Lemma build_command_environment name raw request :
  build_command name (Some raw) = Ok (Some request) ->
  match rcm_environment raw with
  | Some e => build_environment name e = Ok (environment request)
  | None => environment request = env_default
  end.
Proof.
  unfold build_command, command_error. intros H. res_inv.
  destruct (rcm_environment raw) as [e|], (rcm_working_directory raw), (rcm_timeout raw), (rcm_stdio raw); res_inv;
    repeat match goal with H : with_working_directory _ _ = Ok _ |- _ => unfold with_working_directory in H; res_inv end;
    simpl; done.
Qed.

(** The environment a resolved profile runs its command with.  A variable is
    set or removed as the last layer that mentions its name says, comparing
    names without case; within one layer a removal wins over an assignment.
    Names no layer mentions are left to the inherited base, which is the one
    the last layer chose, or the core set. *)
Theorem resolved_environment (c : Config) (name : string) (platform : option PlatformId)
    (r : ResolvedProfile) (request : CommandRequest) :
  resolve_with_platform c name platform = Some (Ok r) -> res_command r = Some request ->
  exists ps, ancestry c name ps /\
    let cs := omap rpp_command (layers platform ps) in
    spec_base (environment request) = raw_base (last_some re_inherit (omap rcm_environment cs)) /\
    forall n, override_for (environment request) n =
      match last_override (name_key n) (overrides_of cs) with
      | Some (_, Some value) => Some (Set_ value)
      | Some (_, None) => Some Remove
      | None => None
      end.
Proof.
  intros (ps & Ha & H)%resolve_Ok_inv Hreq. exists ps. split; [done|]. cbv zeta.
  pose proof (merged_command (path_dialect platform) platform ps) as Hc.
  unfold resolve_merged in H. res_inv. simpl in Hreq. subst.
  destruct (mp_command _) as [raw|]; [|done]. destruct Hc as [_ Hc].
  pose proof (cd_environment _ _ Hc) as He.
  match goal with H : build_command _ _ = Ok _ |- _ => apply build_command_environment in H as Hb end.
  destruct (rcm_environment raw) as [e|]; simpl in He.
  - destruct He as [_ He]. apply build_environment_spec in Hb as [-> Ho]. split; [by destruct He as [-> _]|].
    intros n. rewrite Ho, (merged_overrides _ _ _ He). by destruct (last_override _ _) as [[m [v|]]|].
  - rewrite Hb. unfold overrides_of. rewrite He. done.
Qed.

(** * Filesystems *)

Lemma Forall2_image {E A B} (f : A -> result E B) l k y :
  Forall2 (fun x y => f x = Ok y) l k -> y ∈ k <-> exists x, x ∈ l /\ f x = Ok y.
Proof.
  induction 1 as [|x z l k Hx _ IH]; [set_solver|]. rewrite elem_of_cons, IH. split.
  - intros [->|(w & ? & ?)]; [exists x|exists w]; set_solver.
  - intros (w & [->|Hw]%elem_of_cons & Hy); [left; congruence|right; eauto].
Qed.

Lemma build_rules_spec name rules f f' :
  foldM (fun policy raw_rule => rule ← build_filesystem_rule name raw_rule;
           policy_error name (with_rule policy rule)) f rules = Ok f' ->
  mode f' = mode f /\ protected_relative_paths f' = protected_relative_paths f /\
  exists es, entries f' = entries f ++ es /\ Forall2 (fun r e => build_filesystem_rule name r = Ok e) rules es.
Proof.
  revert f. induction rules as [|r rules IH]; intros f; simpl.
  { intros [= <-]. split_and!; [done|done|]. exists []. by rewrite app_nil_r. }
  intros (f1 & (e & He & Hf1)%bind_Ok & H)%bind_Ok. apply policy_error_Ok in Hf1.
  unfold with_rule in Hf1. res_inv. apply IH in H as (Hm & Hp & es & Hes & Hall). simpl in *.
  split_and!; [done|done|]. exists (e :: es). split; [by rewrite Hes, <- app_assoc|by constructor].
Qed.

Lemma build_protected_spec name paths f f' :
  foldM (fun policy p => policy_error name (with_additional_protected_relative_path policy p)) f paths = Ok f' ->
  mode f' = mode f /\ entries f' = entries f /\ protected_relative_paths f ⊆ protected_relative_paths f'.
Proof.
  apply (foldM_invariant _ (fun p => mode p = mode f /\ entries p = entries f /\
    protected_relative_paths f ⊆ protected_relative_paths p)); [done|].
  intros x p x' _ (Hm & He & Hs) H. apply policy_error_Ok in H.
  unfold with_additional_protected_relative_path in H. res_inv. simpl. split_and!; [done|done|].
  destruct (existsb _ _); [done|]. set_solver.
Qed.

Lemma build_filesystem_content name raw f :
  build_filesystem name raw = Ok f ->
  let m := default default_filesystem raw in
  mode f = raw_filesystem_mode (rf_mode m) /\
  Forall2 (fun r e => build_filesystem_rule name r = Ok e) (rf_rules m) (entries f) /\
  (mode f = Restricted -> layer_git m <> Some true -> ".git" ∈ protected_relative_paths f).
Proof.
  intros H. unfold build_filesystem in H. cbv zeta. set (m := default default_filesystem raw) in *. res_inv.
  match goal with H : foldM _ _ (rf_rules _) = Ok _ |- _ => apply build_rules_spec in H as (Hm1 & Hp1 & es & Hes & Hall) end.
  match goal with H : foldM _ _ (rf_additional_protected_paths _) = Ok _ |- _ =>
    apply build_protected_spec in H as (Hm2 & He2 & Hp2) end.
  match goal with H : match rf_glob_scan_max_depth _ with _ => _ end = Ok ?g |- _ =>
    rename H into Hdepth end.
  set (g := if default false _ then _ else _) in Hdepth.
  assert (mode f = mode g /\ entries f = entries g /\ protected_relative_paths f = protected_relative_paths g)
    as (-> & -> & ->).
  { destruct (rf_glob_scan_max_depth m); res_inv; [|done]. apply policy_error_Ok in Hdepth.
    unfold with_glob_scan_max_depth in Hdepth. by res_inv. }
  assert (mode g = raw_filesystem_mode (rf_mode m)) as Hg.
  { unfold g. destruct (default false _); simpl; rewrite Hm2, Hm1; by destruct (raw_filesystem_mode _). }
  split_and!; [done| |].
  - assert (entries g = es) as ->; [|done].
    unfold g. destruct (default false _); simpl; rewrite He2, Hes; by destruct (raw_filesystem_mode _).
  - intros Hr Hgit. rewrite Hg in Hr. rewrite Hr in *.
    unfold g, layer_git in *. destruct (rf_security m ≫= _) as [[]|]; [done|..]; simpl; apply Hp2; rewrite Hp1; set_solver.
Qed.

(** C35. The filesystem policy of a resolved profile.  Its mode is the one the last
    layer chose, restricted when none did; its rules are exactly the winning
    declarations, those no later layer declares again for the same target, so
    that a rule a child replaced is gone; and while the policy is restricted
    [.git] stays protected unless the last layer that decides it opted out. *)
Theorem resolved_filesystem (c : Config) (name : string) (platform : option PlatformId) (r : ResolvedProfile) :
  resolve_with_platform c name platform = Some (Ok r) ->
  exists ps, ancestry c name ps /\
    let fs := omap rpp_filesystem (layers platform ps) in
    let f := filesystem (res_policy r) in
    let key := filesystem_rule_key (path_dialect platform) in
    mode f = raw_filesystem_mode (last_some rf_mode fs) /\
    (forall e, e ∈ entries f <-> exists raw, last_with key rule_key_eqb (key raw) (layer_rules fs) = Some raw /\
       build_filesystem_rule name raw = Ok e) /\
    (mode f = Restricted -> last_some layer_git (effective_layers fs) <> Some true ->
       ".git" ∈ protected_relative_paths f).
Proof.
  intros (ps & Ha & H)%resolve_Ok_inv. exists ps. split; [done|]. cbv zeta.
  pose proof (merged_filesystem (path_dialect platform) platform ps) as Hfs.
  unfold resolve_merged in H. res_inv. simpl.
  match goal with H : build_policy _ _ _ _ = Ok _ |- _ => unfold build_policy in H end. res_inv. simpl.
  match goal with H : build_filesystem _ _ = Ok _ |- _ => apply build_filesystem_content in H as (Hm & Hall & Hg) end.
  assert (filesystem_merged (path_dialect platform) (omap rpp_filesystem (layers platform ps))
    (default default_filesystem (mp_filesystem (merge_profiles (path_dialect platform) platform ps)))) as [].
  { destruct (mp_filesystem _) as [m|]; [apply Hfs|]. rewrite Hfs. exact (fst_merged _ _ _ (merge_filesystem_layers _ [])). }
  split_and!; [by rewrite Hm, fs_mode| |by rewrite <- fs_git].
  intros e. rewrite (Forall2_image _ _ _ _ Hall).
  split; intros (raw & Hraw & He); exists raw; split; try done.
  - rewrite <- fs_rules. by apply (distinct_last (filesystem_rule_key (path_dialect platform)) rule_key_eqb).
  - rewrite <- fs_rules in Hraw. by apply (distinct_last (filesystem_rule_key (path_dialect platform)) rule_key_eqb).
Qed.

(** * Networks *)

(** The endpoints of [build_network], added one at a time. *)
Definition add_endpoints {A} (name : string) (endpoint : A -> result PolicyError LocalIpcEndpoint)
    (n : NetworkPolicy) (l : list A) : result ConfigError NetworkPolicy :=
  foldM (fun n x => e ← policy_error name (endpoint x); policy_error name (with_local_ipc n e DAllow)) n l.

Lemma add_endpoints_keep {A} name (endpoint : A -> result PolicyError LocalIpcEndpoint) n l n' :
  add_endpoints name endpoint n l = Ok n' ->
  domain_mode n' = domain_mode n /\ domains n' = domains n /\
  (net_mode n <> NetDisabled -> net_mode n' = net_mode n).
Proof.
  apply (foldM_invariant _ (fun m => domain_mode m = domain_mode n /\ domains m = domains n /\
    (net_mode n <> NetDisabled -> net_mode m = net_mode n))); [done|].
  intros m x m' _ (Hd & Hr & Hm) (e & _ & H)%bind_Ok. apply policy_error_Ok in H.
  unfold with_local_ipc in H. res_inv. destruct (unix_path e); simpl; split_and!; try done.
  intros Hn. rewrite (Hm Hn). by rewrite bool_decide_eq_false_2.
Qed.

(** Pipes leave the modes alone. *)
Lemma add_pipes_keep name n l n' :
  add_endpoints name endpoint_windows_named_pipe n l = Ok n' ->
  net_mode n' = net_mode n /\ unix_socket_mode n' = unix_socket_mode n /\ unix_sockets n' = unix_sockets n.
Proof.
  apply (foldM_invariant _ (fun m => net_mode m = net_mode n /\ unix_socket_mode m = unix_socket_mode n /\
    unix_sockets m = unix_sockets n)); [done|].
  intros m x m' _ Hm (e & He & H)%bind_Ok. apply policy_error_Ok in He, H.
  unfold with_local_ipc in H. res_inv. unfold endpoint_windows_named_pipe in He. by res_inv.
Qed.

Lemma add_rules_keep name m n1 n2 :
  foldM (fun policy r => policy_error name (with_domain policy (rd_pattern r) (raw_domain_access (rd_access r))))
    m n1 = Ok n2 ->
  net_mode n2 = net_mode m /\ domain_mode n2 = domain_mode m /\ (n1 = [] -> domains n2 = domains m).
Proof.
  intros H. split; [|split].
  - revert H. apply (foldM_invariant _ (fun p => net_mode p = net_mode m)); [done|].
    intros x r x' _ Hx H. apply policy_error_Ok in H. unfold with_domain in H. by res_inv.
  - revert H. apply (foldM_invariant _ (fun p => domain_mode p = domain_mode m)); [done|].
    intros x r x' _ Hx H. apply policy_error_Ok in H. unfold with_domain in H. by res_inv.
  - intros ->. by injection H as <-.
Qed.

Lemma add_sockets_keep name m n1 n2 :
  foldM (fun policy r => policy_error name (with_unix_socket policy (ru_path r) (raw_domain_access (ru_access r))))
    m n1 = Ok n2 ->
  net_mode n2 = net_mode m /\ domain_mode n2 = domain_mode m /\ domains n2 = domains m.
Proof.
  apply (foldM_invariant _ (fun p => net_mode p = net_mode m /\ domain_mode p = domain_mode m /\
    domains p = domains m)); [done|].
  intros x r x' _ Hx H. apply policy_error_Ok in H. unfold with_unix_socket in H. by res_inv.
Qed.

(** What the builder keeps of its modes. *)
Lemma build_network_content name raw ipc n :
  build_network name raw ipc = Ok n ->
  let m := default default_network raw in
  let base := build_network_modes m ipc in
  domain_mode n = domain_mode base /\ (rn_domains m = [] -> domains n = domains base) /\
  (has_unix_ipc ipc = false \/ net_mode base <> NetDisabled -> net_mode n = net_mode base).
Proof.
  intros H. unfold build_network in H. cbv zeta. set (m := default default_network raw) in *. res_inv.
  match goal with H : foldM _ _ (rn_domains _) = Ok _ |- _ => apply add_rules_keep in H as (Hm1 & Hd1 & Hr1) end.
  match goal with H : foldM _ _ (rn_unix_sockets _) = Ok _ |- _ => apply add_sockets_keep in H as (Hm2 & Hd2 & Hr2) end.
  destruct ipc as [ipc|]; res_inv.
  2: { split_and!; [congruence|intros; rewrite Hr2; auto|congruence]. }
  match goal with H : foldM _ _ (rl_unix_sockets _) = Ok _ |- _ =>
    pose proof H as Hu; apply (add_endpoints_keep name endpoint_unix_socket) in Hu as (Hd3 & Hr3 & Hm3);
    rename H into Hunix end.
  match goal with H : foldM _ _ (rl_named_pipes _) = Ok _ |- _ =>
    pose proof H as Hp; apply (add_endpoints_keep name endpoint_windows_named_pipe) in Hp as (Hd4 & Hr4 & _);
    apply (add_pipes_keep name) in H as (Hm4 & _ & _) end.
  split_and!; [congruence|intros; rewrite Hr4, Hr3, Hr2; auto|].
  intros [Hnone|Hne]; [|rewrite Hm4, Hm3; congruence].
  simpl in Hnone. apply bool_decide_eq_false, dec_stable in Hnone. rewrite Hnone in Hunix.
  injection Hunix as <-. congruence.
Qed.

(** The merged sections a resolved network policy was built from. *)
Lemma resolved_network_sections c name platform r :
  resolve_with_platform c name platform = Some (Ok r) ->
  exists ps raw ipc, ancestry c name ps /\ build_network name raw ipc = Ok (network (res_policy r)) /\
    section_merged (omap rpp_network (layers platform ps)) (network_merged (path_dialect platform)) raw /\
    section_merged (effective_ipc (layers platform ps)) (ipc_merged (path_dialect platform)) ipc.
Proof.
  intros (ps & Ha & H)%resolve_Ok_inv.
  pose proof (merged_network (path_dialect platform) platform ps) as Hn. pose proof (merged_local_ipc (path_dialect platform) platform ps) as Hi.
  unfold resolve_merged in H. res_inv. simpl.
  match goal with H : build_policy _ _ _ _ = Ok _ |- _ => unfold build_policy in H end. res_inv. simpl.
  eexists ps, _, _. split_and!; done.
Qed.

(** The layers declare a local Unix endpoint exactly when the merged section
    does. *)
Lemma has_unix_ipc_layers dialect ipcs ipc :
  section_merged ipcs (ipc_merged dialect) ipc ->
  has_unix_ipc ipc = bool_decide (mjoin (rl_unix_sockets <$> ipcs) <> []).
Proof.
  destruct ipc as [m|]; simpl; [|by intros ->].
  intros [_ [Hd Hl _ _]]. apply bool_decide_ext. split; intros Hne Hnil; apply Hne.
  - destruct (rl_unix_sockets m) as [|p l]; [done|].
    assert (p ∈ p :: l) as Hp by apply list_elem_of_here.
    apply (distinct_last (fun p => PlatformPathKey_new p dialect) path_key_eqb) in Hp; [|done].
    by rewrite Hl, Hnil in Hp.
  - destruct (mjoin _) as [|p l] eqn:Hj; [done|].
    assert (last_with (fun p => PlatformPathKey_new p dialect) path_key_eqb (PlatformPathKey_new p dialect) (p :: l) = None)
      as Hp by (rewrite <- Hl, Hnil; done).
    apply last_with_None, Forall_cons in Hp as [Hp _]. by rewrite (keqb_refl path_key_eqb) in Hp.
Qed.

(** C25. Networking is closed by default.  Unless some layer enables the network,
    or declares a local Unix endpoint, no host and no Unix socket is allowed by
    the resolved profile. *)
Theorem resolved_network_closed (c : Config) (name : string) (platform : option PlatformId) (r : ResolvedProfile) :
  resolve_with_platform c name platform = Some (Ok r) ->
  exists ps, ancestry c name ps /\
    let ls := layers platform ps in
    (last_some rn_mode (omap rpp_network ls) <> Some RawNetEnabled ->
     mjoin (rl_unix_sockets <$> effective_ipc ls) = [] ->
     forall host p, decision_for_domain (network (res_policy r)) host <> Ok NetAllow /\
       decision_for_unix_socket (network (res_policy r)) p <> Ok NetAllow).
Proof.
  intros (ps & raw & ipc & Ha & H & Hn & Hi)%resolved_network_sections. exists ps. split; [done|]. cbv zeta.
  intros Hmode Hipc. apply has_unix_ipc_layers in Hi. rewrite Hipc, bool_decide_eq_false_2 in Hi by tauto.
  apply build_network_content in H as (_ & _ & Hm).
  assert (rn_mode (default default_network raw) = last_some rn_mode (omap rpp_network (layers platform ps))) as Hlast.
  { destruct raw as [m|]; [by destruct Hn as [_ []]|]. simpl in Hn. by rewrite Hn. }
  assert (net_mode (network (res_policy r)) <> NetEnabled) as Hne.
  { rewrite Hm by by left. unfold build_network_modes. rewrite Hi, Hlast, andb_false_r.
    destruct (last_some _ _) as [[]|]; [|done|..];
      destruct (rn_domain_mode _), (rn_unix_socket_mode _), (rn_local_network_access _); done. }
  intros host p. unfold decision_for_domain, decision_for_unix_socket. split.
  - destruct (normalize_domain host); simpl; [|done]. by destruct (net_mode (network (res_policy r))).
  - destruct (selector_absolute p); simpl; [|done]. by destruct (net_mode (network (res_policy r))).
Qed.

(** C33. Declaring a local Unix endpoint without a network section opens the
    network: every host that can be named is allowed by the domain rules. *)
Theorem local_ipc_opens_network (c : Config) (name : string) (platform : option PlatformId) (r : ResolvedProfile) :
  resolve_with_platform c name platform = Some (Ok r) ->
  exists ps, ancestry c name ps /\
    let ls := layers platform ps in
    (omap rpp_network ls = [] -> mjoin (rl_unix_sockets <$> effective_ipc ls) <> [] ->
     forall host h, normalize_domain host = Ok h ->
       decision_for_domain (network (res_policy r)) host = Ok NetAllow).
Proof.
  intros (ps & raw & ipc & Ha & H & Hn & Hi)%resolved_network_sections. exists ps. split; [done|]. cbv zeta.
  intros Hnone Hipc host h Hh. apply has_unix_ipc_layers in Hi. rewrite bool_decide_eq_true_2 in Hi by done.
  destruct raw as [raw|]; [by destruct Hn as [[] _]|].
  apply build_network_content in H as (Hd & Hr & Hm). cbv zeta in *.
  assert (build_network_modes (default default_network None) ipc = with_unix_socket_mode net_enabled UnixRestricted)
    as Hbase by (unfold build_network_modes; simpl; by rewrite Hi).
  rewrite Hbase in *. unfold decision_for_domain, access_for_normalized_domain. rewrite Hh. simpl.
  rewrite Hm by by right. rewrite Hd, Hr by done. done.
Qed.

(** * Roots *)

(** A path text a backend may resolve and register. *)
Definition clean_root (dialect : PathDialect) (root : string) : Prop :=
  root <> "" /\ contains_char NUL root = false /\ contains_parent_traversal_text root dialect = false.

Definition layer_roots_clean (dialect : PathDialect) (l : RawPlatformProfile) : Prop :=
  (forall root, root ∈ (rpp_workspace_roots l).*1 -> clean_root dialect root) /\
  (forall x root, rpp_runtime l = Some x -> root ∈ rr_executable_roots x ->
     clean_root dialect root /\ is_absolute_text root dialect = true).

(** A loop that stops at the first error has checked every element. *)
Lemma foldM_checked {E A B} (f : A -> B -> result E A) acc l acc' :
  foldM f acc l = Ok acc' -> forall x, x ∈ l -> exists a a', f a x = Ok a'.
Proof.
  revert acc. induction l as [|y l IH]; intros acc; simpl; [set_solver|].
  intros (a1 & H1 & H)%bind_Ok x [->|Hx]%elem_of_cons; [eauto|by eapply IH].
Qed.

Lemma workspace_roots_checked profile values dialect root :
  validate_workspace_roots profile values dialect = Ok () -> root ∈ values.*1 -> clean_root dialect root.
Proof.
  unfold validate_workspace_roots. intros H Hr. res_inv.
  match goal with H : foldM _ _ _ = Ok _ |- _ =>
    destruct (foldM_checked _ _ _ _ H root Hr) as (s & s' & Hs) end.
  cbv beta in Hs. res_inv.
  match goal with H : validate_workspace_root _ _ _ = Ok _ |- _ => unfold validate_workspace_root in H end.
  res_inv. bool_inv. done.
Qed.

Lemma runtime_checked profile x platform root :
  validate_runtime profile (Some x) platform = Ok () -> root ∈ rr_executable_roots x ->
  clean_root (path_dialect platform) root /\ is_absolute_text root (path_dialect platform) = true.
Proof.
  unfold validate_runtime. intros H Hr. res_inv.
  match goal with H : foldM _ _ _ = Ok _ |- _ =>
    destruct (foldM_checked _ _ _ _ H root Hr) as (s & s' & Hs) end.
  cbv beta in Hs. res_inv.
  match goal with H : validate_executable_root _ _ _ = Ok _ |- _ => unfold validate_executable_root in H end.
  res_inv. bool_inv. done.
Qed.

Lemma validated_layers raw name p platform l :
  validate_raw_config raw = Ok () -> bt_get name (rc_profiles raw) = Some p -> l ∈ profile_layers platform p ->
  layer_roots_clean native_dialect l \/ layer_roots_clean (path_dialect platform) l.
Proof.
  intros H (m & ->%cmp_eq & Hin)%bt_get_elem Hl. unfold validate_raw_config in H. res_inv.
  apply (foldM_unit_inv _ _ H) in Hin. simpl in Hin. unfold validate_profile in Hin. res_inv.
  repeat match goal with a : unit |- _ => destruct a end.
  unfold profile_layers in Hl. apply elem_of_cons in Hl as [->|Hl].
  - left. split; [intros root Hr; eapply workspace_roots_checked; [eassumption|exact Hr]|].
    intros x root Hx. simpl in Hx. rewrite Hx in *. by eapply (runtime_checked _ x None).
  - right. destruct platform as [id|]; simpl in Hl; [|by apply not_elem_of_nil in Hl].
    destruct (bt_get id (rp_platforms p)) as [o|] eqn:Ho; [|by apply not_elem_of_nil in Hl].
    apply list_elem_of_singleton in Hl as ->. apply bt_get_elem in Ho as (id' & ->%cmp_eq & Ho).
    match goal with H : foldM _ () (rp_platforms p) = Ok () |- _ => apply (foldM_unit_inv _ _ H) in Ho end.
    simpl in Ho. unfold validate_overlay in Ho. res_inv. repeat match goal with a : unit |- _ => destruct a end.
    split; [intros root Hr; eapply workspace_roots_checked; [eassumption|exact Hr]|].
    intros x root Hx. rewrite Hx in *. by eapply (runtime_checked _ x (Some id')).
Qed.

Lemma ancestry_layers_clean c name ps platform l :
  validate_raw_config (cfg_raw c) = Ok () -> path_dialect platform = native_dialect ->
  ancestry c name ps -> l ∈ layers platform ps -> layer_roots_clean native_dialect l.
Proof.
  intros Hv Hp (ns & _ & Hall) Hl. unfold layers in Hl.
  apply list_elem_of_join in Hl as (ls & Hl & (p & -> & Hin)%list_elem_of_fmap).
  apply list_elem_of_lookup_1 in Hin as [i Hi].
  destruct (Forall2_lookup_r _ _ _ _ _ Hall Hi) as (n & _ & Hn).
  destruct (validated_layers _ n p platform l Hv Hn Hl) as [?|H]; [done|]. by rewrite Hp in H.
Qed.

(** The roots of a profile resolved from a validated configuration for a
    platform with the host's path rules: every workspace root is not empty and
    holds neither a NUL nor a parent traversal, every executable root is
    absolute besides, and no two executable roots are the same path. *)
Theorem resolved_roots_valid (c : Config) (name : string) (platform : option PlatformId) (r : ResolvedProfile) :
  validate_raw_config (cfg_raw c) = Ok () -> path_dialect platform = native_dialect ->
  resolve_with_platform c name platform = Some (Ok r) ->
  Forall (clean_root native_dialect) (res_workspace_roots r) /\
  Forall (fun root => clean_root native_dialect root /\ is_absolute_text root native_dialect = true)
    (res_executable_roots r) /\
  NoDup ((fun root => PlatformPathKey_new root native_dialect) <$> res_executable_roots r).
Proof.
  intros Hv Hp (ps & Ha & H)%resolve_Ok_inv. pose proof (fun l => ancestry_layers_clean c name ps platform l Hv Hp Ha) as Hc.
  destruct (merge_profiles_state (path_dialect platform) platform ps) as [Hw _ _ _ _ _ _].
  pose proof (merged_runtime (path_dialect platform) platform ps) as Hx.
  pose proof (merged_roots (path_dialect platform) platform ps) as Hroots.
  unfold resolve_merged in H. res_inv. cbn [res_workspace_roots res_executable_roots]. rewrite Hp in *. split.
  - apply Forall_forall. intros root ([root' b] & Hin & Hb)%list_elem_of_omap. destruct b; [|done]. injection Hb as ->.
    destruct (indexed_fold_ok (fun p => PlatformPathKey_new p native_dialect) path_key_eqb (layer_roots (layers platform ps)))
      as [(Hwf & _) _]. rewrite <- Hw in Hwf. apply (bt_elem_get _ _ _ Hwf) in Hin.
    change (bt_get root (mp_workspace_roots (merge_profiles native_dialect platform ps)) = Some true) in Hin.
    rewrite Hroots in Hin. destruct (last_entry _ _ _ _) as [[q e]|] eqn:Hl; [|done].
    case_decide as Heq; [|done]. subst q. apply last_with_Some in Hl as [Hl _]. unfold layer_roots in Hl.
    apply list_elem_of_join in Hl as (vs & Hvs & (l & -> & Hll)%list_elem_of_fmap).
    apply (proj1 (Hc l Hll)). by apply (list_elem_of_fmap_2 fst) in Hvs.
  - change (xm_merged _) with (mp_runtime (merge_profiles native_dialect platform ps)).
    destruct (mp_runtime _) as [x|]; simpl; [|split; [apply Forall_nil_2|apply NoDup_nil_2]].
    destruct Hx as (_ & Hd & Hl). split.
    + apply Forall_forall. intros root Hin. apply (distinct_last _ _ _ _ Hd) in Hin. rewrite Hl in Hin.
      apply last_with_Some in Hin as [Hin _].
      apply list_elem_of_join in Hin as (rs & Hrs & (y & -> & (l & Hll & Hy)%list_elem_of_omap)%list_elem_of_fmap).
      by apply (proj2 (Hc l Hll) y).
    + apply NoDup_alt. intros i j k (p & -> & Hi)%list_lookup_fmap_Some (q & Hk & Hj)%list_lookup_fmap_Some.
      apply (Hd i j p q Hi Hj). by apply bool_decide_eq_true.
Qed.

End safety.

(** * Examples *)

Section examples.
#[local] Existing Instance ascii_unicode.
#[local] Existing Instance literal_globset.
#[local] Existing Instance literal_wildmatch.
#[local] Instance quoted : DebugText := fun s => String QUOTE (s +:+ String QUOTE EmptyString).

Definition rule_example (t : RawFilesystemTarget) (p : option string) (a : RawAccessMode) : RawFilesystemRule :=
  {| rule_target := t; rule_path := p; rule_pattern := None; rule_access := a; rule_missing_path := None;
     rule_read_only_subpaths := [] |}.

Definition environment_example (set : list (string * string)) (remove : list string) : RawEnvironment :=
  {| re_inherit := None; re_filters := []; re_set := set; re_remove := remove |}.

Definition command_example (p : option string) (e : RawEnvironment) : RawCommand :=
  {| rcm_program := p; rcm_args := None; rcm_working_directory := None; rcm_environment := Some e;
     rcm_stdio := None; rcm_timeout := None |}.

(** A parent that lets the workspace be written and sets a token. *)
Definition parent_example : RawProfile := {|
  rp_description := None; rp_inherits := []; rp_workspace_roots := [("/work", true)];
  rp_filesystem := Some {| rf_mode := None; rf_glob_scan_max_depth := None; rf_additional_protected_paths := [];
    rf_security := None; rf_rules := [rule_example RTMinimal None RawRead; rule_example RTWorkspaceRoot None RawWrite] |};
  rp_network := None; rp_local_ipc := None;
  rp_command := Some (command_example None (environment_example [("TOKEN", "x")] []));
  rp_approval := None; rp_runtime := Some {| rr_executable_roots := ["/usr/lib"] |}; rp_platforms := []
|}.

(** A child that makes it read-only and removes the token. *)
Definition child_example (ipc : option RawLocalIpc) : RawProfile := {|
  rp_description := Some "a tool"; rp_inherits := ["base"]; rp_workspace_roots := [];
  rp_filesystem := Some {| rf_mode := None; rf_glob_scan_max_depth := None; rf_additional_protected_paths := [];
    rf_security := None; rf_rules := [rule_example RTWorkspaceRoot None RawRead] |};
  rp_network := None; rp_local_ipc := ipc;
  rp_command := Some (command_example (Some "tool") (environment_example [("PATH", "/bin")] ["token"]));
  rp_approval := None; rp_runtime := None; rp_platforms := []
|}.

Definition config_example (ipc : option RawLocalIpc) : Config := {|
  cfg_raw := {| rc_default_profile := Some "tool";
    rc_profiles := [("base", parent_example); ("tool", child_example ipc)] |};
  cfg_source := {| doc_text := ""; doc_path := Some "/etc/cageforge.toml" |}
|}.

Definition socket_example : RawLocalIpc := {| rl_unix_sockets := ["/run/tool.sock"]; rl_named_pipes := [] |}.

Definition resolved (ipc : option RawLocalIpc) : option (result ConfigError ResolvedProfile) :=
  resolve_with_platform (config_example ipc) "tool" None.

Definition is_resolved (o : option (result ConfigError ResolvedProfile)) : bool :=
  match o with Some (Ok r) => bool_decide (is_Some (res_command r)) | _ => false end.

Lemma is_resolved_true o :
  is_resolved o = true -> exists r request, o = Some (Ok r) /\ res_command r = Some request.
Proof. destruct o as [[r|e]|]; [|done..]. simpl. intros [q Hq]%bool_decide_eq_true. by exists r, q. Qed.

Lemma example_resolved : is_resolved (resolved None) && is_resolved (resolved (Some socket_example)) = true.
Proof. vm_compute. reflexivity. Qed.

Lemma example_ancestry ipc ps : ancestry (config_example ipc) "tool" ps -> ps = [parent_example; child_example ipc].
Proof.
  intros (l & Hl & Hall).
  assert (resolve_order (rc_profiles (cfg_raw (config_example ipc))) "tool" = Some (Break ["base"; "tool"])) as Ho
    by (destruct ipc; vm_compute; reflexivity).
  rewrite Ho in Hl. injection Hl as <-.
  inversion Hall as [|? p ? ps' Hp Hall']; subst. inversion Hall' as [|? q ? ps'' Hq Hall'']; subst.
  inversion Hall''; subst. vm_compute in Hp, Hq. injection Hp as <-. injection Hq as <-. reflexivity.
Qed.

Lemma example_fits ipc : document_fits (cfg_raw (config_example ipc)).
Proof.
  intros name p Hin. simpl in Hin. rewrite !elem_of_cons in Hin.
  destruct Hin as [[= -> ->]|[[= -> ->]|[]%not_elem_of_nil]]; (split; [done|]); intros id o []%not_elem_of_nil.
Qed.

Lemma resolved_profile_valid_witness :
  match resolved None with
  | Some (Ok r) => policy_built (filesystem (res_policy r)) /\ net_built (network (res_policy r)) /\
      sandbox_validate (res_policy r) = Ok ()
  | _ => False
  end.
Proof.
  destruct (is_resolved_true _ (proj1 (andb_prop _ _ example_resolved))) as (r & request & H & Hr). rewrite H.
  destruct (resolved_profile_valid (config_example None) "tool" None r (example_fits None) H) as (Hf & Hn & Hv & _).
  split; [exact Hf|split; [exact Hn|exact Hv]].
Defined.

(** The child removes the token under another spelling of its name. *)
Lemma resolved_environment_witness :
  match resolved None with
  | Some (Ok r) => match res_command r with
                   | Some request => override_for (environment request) "TOKEN" = Some Remove
                   | None => False
                   end
  | _ => False
  end.
Proof.
  destruct (is_resolved_true _ (proj1 (andb_prop _ _ example_resolved))) as (r & request & H & Hr). rewrite H.
  rewrite Hr. destruct (resolved_environment (config_example None) "tool" None r request H Hr) as (ps & Ha & _ & Ho).
  apply example_ancestry in Ha. subst ps. rewrite (Ho "TOKEN"). vm_compute. reflexivity.
Defined.

Definition example_rules : list RawFilesystemRule :=
  layer_rules (omap rpp_filesystem (layers None [parent_example; child_example None])).

Definition built_access (r : result ConfigError FilesystemRule) : option AccessMode :=
  match r with Ok e => Some (access e) | Err _ => None end.

Lemma parent_rule_replaced raw :
  last_with (filesystem_rule_key (path_dialect None)) rule_key_eqb (filesystem_rule_key (path_dialect None) raw)
    example_rules = Some raw ->
  built_access (build_filesystem_rule "tool" raw) = Some Read.
Proof.
  intros Hl. pose proof (last_with_Some _ _ _ _ _ Hl) as [Hin _].
  change (raw ∈ [rule_example RTMinimal None RawRead; rule_example RTWorkspaceRoot None RawWrite;
                 rule_example RTWorkspaceRoot None RawRead]) in Hin.
  rewrite !elem_of_cons in Hin. destruct Hin as [->|[->|[->|[]%not_elem_of_nil]]]; [vm_compute; reflexivity| |vm_compute; reflexivity].
  apply (f_equal (fmap rule_access)) in Hl.
  assert (rule_access <$> last_with (filesystem_rule_key (path_dialect None)) rule_key_eqb
    (filesystem_rule_key (path_dialect None) (rule_example RTWorkspaceRoot None RawWrite)) example_rules = Some RawRead)
    as Hread by (vm_compute; reflexivity).
  rewrite Hread in Hl. discriminate Hl.
Qed.

(** The child's rule for the workspace replaces its parent's. *)
Lemma resolved_filesystem_witness :
  match resolved None with
  | Some (Ok r) => rule_new selector_workspace_root Read ∈ entries (filesystem (res_policy r)) /\
      rule_new selector_workspace_root Write ∉ entries (filesystem (res_policy r))
  | _ => False
  end.
Proof.
  destruct (is_resolved_true _ (proj1 (andb_prop _ _ example_resolved))) as (r & request & H & Hr). rewrite H.
  destruct (resolved_filesystem (config_example None) "tool" None r H) as (ps & Ha & _ & He & _).
  apply example_ancestry in Ha. subst ps. split.
  - apply He. exists (rule_example RTWorkspaceRoot None RawRead). split; vm_compute; reflexivity.
  - rewrite He. intros (raw & Hl%parent_rule_replaced & Hb). rewrite Hb in Hl. discriminate Hl.
Defined.

Lemma resolved_network_closed_witness :
  match resolved None with
  | Some (Ok r) => decision_for_domain (network (res_policy r)) "example.com" <> Ok NetAllow
  | _ => False
  end.
Proof.
  destruct (is_resolved_true _ (proj1 (andb_prop _ _ example_resolved))) as (r & request & H & Hr). rewrite H.
  destruct (resolved_network_closed (config_example None) "tool" None r H) as (ps & Ha & Hc).
  apply example_ancestry in Ha. subst ps. apply (Hc ltac:(vm_compute; discriminate) ltac:(vm_compute; reflexivity) "example.com" "/run").
Defined.

Lemma local_ipc_opens_network_witness :
  match resolved (Some socket_example) with
  | Some (Ok r) => decision_for_domain (network (res_policy r)) "example.com" = Ok NetAllow
  | _ => False
  end.
Proof.
  destruct (is_resolved_true _ (proj2 (andb_prop _ _ example_resolved))) as (r & request & H & Hr). rewrite H.
  destruct (local_ipc_opens_network (config_example (Some socket_example)) "tool" None r H) as (ps & Ha & Hc).
  apply example_ancestry in Ha. subst ps.
  apply (Hc ltac:(vm_compute; reflexivity) ltac:(vm_compute; discriminate) "example.com" "example.com").
  vm_compute. reflexivity.
Defined.

Lemma resolved_roots_valid_witness :
  match resolved None with
  | Some (Ok r) => Forall (clean_root native_dialect) (res_workspace_roots r)
  | _ => False
  end.
Proof.
  destruct (is_resolved_true _ (proj1 (andb_prop _ _ example_resolved))) as (r & request & H & Hr). rewrite H.
  apply (resolved_roots_valid (config_example None) "tool" None r); [vm_compute; reflexivity|reflexivity|exact H].
Defined.

(** One profile that declares the same endpoint twice is accepted. *)
Lemma duplicate_endpoint_accepted :
  let ipc := {| rl_unix_sockets := ["/run/tool.sock"; "/run//tool.sock"]; rl_named_pipes := [] |} in
  validate_raw_config (cfg_raw (config_example (Some ipc))) = Ok ().
Proof. vm_compute. reflexivity. Qed.

(** The environment of a platform overlay is not checked: it may set and remove
    one variable, and the removal wins. *)
Lemma overlay_environment_unchecked :
  let overlay := {| rpp_description := None; rpp_workspace_roots := []; rpp_filesystem := None; rpp_network := None;
    rpp_local_ipc := None; rpp_command := Some (command_example (Some "tool") (environment_example [("A", "1")] ["a"]));
    rpp_approval := None; rpp_runtime := None |} in
  let profile := {| rp_description := None; rp_inherits := []; rp_workspace_roots := []; rp_filesystem := None;
    rp_network := None; rp_local_ipc := None; rp_command := None; rp_approval := None; rp_runtime := None;
    rp_platforms := [(Linux, overlay)] |} in
  validate_raw_config {| rc_default_profile := None; rc_profiles := [("tool", profile)] |} = Ok () /\
  is_ok (validate_environment "tool" (environment_example [("A", "1")] ["a"])) = false.
Proof. vm_compute. done. Qed.

End examples.
