(* ===== verification/Preflight.v ===== *)
(** [cageforge/src/preflight.rs]: the permission request of a policy, the
    authorization of a launch by a grant, which narrows the policy to what was
    approved, and the escalation of a plan by further capabilities.

    The [Debug] of texts and SHA-256 and JSON are parameters, as in the files
    they belong to.  [Narrowing] carries the error whose text the source
    stores. *)

From Stdlib Require Import Ascii String NArith ZArith Lia.
From stdpp Require Import base option strings gmap list.
From S2P Require Import Prelude Keyed Text BTree NativePath Access Selector PathPattern FsPolicy LocalIpc Domain NetPolicy Policy Environment Compose Effective GrantId Permissions ConfigResolve.

(** * Errors and data *)

Inductive NarrowingCause :=
  | NarrowPolicy (source : PolicyError)
  | NarrowComposition (source : CompositionError)
  | NarrowText (text : string).

Inductive PreflightError :=
  | PermissionFailed (source : PermissionError)
  | GrantMismatch
  | GrantExpired
  | ApprovalTimeout
  | UnsupportedMode (mode : PermissionMode)
  | PartialGrantUnsupported
  | Narrowing (cause : NarrowingCause)
  | EscalationUnsupported
  | UnsupportedEscalationCapability (capability : string)
  | PlatformFailed (source : PlatformError).

Record PreflightIdentity := {
  pi_tool_id : string;
  pi_tool_version : string;
  pi_manifest_digest : string;
  pi_config_digest : string;
  pi_platform : PlatformId;
  pi_architecture : string
}.

#[global] Instance PermissionRequest_eq_dec : EqDecision PermissionRequest.
Proof.
  assert (EqDecision PlatformId) by solve_decision. solve_decision.
Defined.

Section preflight.
Context {U : Unicode} {G : Globset} {W : WildMatch} {DT : DebugText} {D : Sha256} {J : Serialize PermissionRequest}.

Record NarrowingInputs := {
  ni_requested : SandboxPolicy;
  ni_context : PathResolutionContext;
  ni_environment : EnvironmentSpec;
  ni_ceiling : PolicyCeiling;
  ni_workspace_roots : option (list path)
}.

Record PreflightPlan := {
  plan_request : PermissionRequest;
  plan_effective : EffectiveSandbox;
  narrowing : option NarrowingInputs
}.

Record AuthorizedPlan := {
  auth_effective : EffectiveSandbox;
  auth_grant : PermissionGrant;
  auth_context : option PathResolutionContext
}.

Record PermissionEscalationPlan := {
  escalation_request : PermissionEscalationRequest;
  escalation_plan : PreflightPlan
}.

(** * The capabilities a policy asks for *)

Definition filesystem_operation (a : AccessMode) : FilesystemOperation :=
  match a with Read => OpRead | Write => OpWrite | Deny => OpDeny end.

Definition path_to_string (p : path) : string := to_string_lossy p.

(** The derived [Debug] of [PathSelector] *)
Definition selector_debug (s : PathSelector) : string :=
  "PathSelector { kind: " +:+
  match ps_kind s with
  | Absolute p => "Absolute(" +:+ debug_text p +:+ ")"
  | WorkspaceRoot p => "WorkspaceRoot(" +:+ debug_text p +:+ ")"
  | Root => "Root" | Minimal => "Minimal" | Tmpdir => "Tmpdir" | SlashTmp => "SlashTmp"
  end +:+ " }".

Definition add_filesystem (s : PermissionSet) (o : FilesystemOperation) (p : string) : result PreflightError PermissionSet :=
  capability ← map_err PermissionFailed (filesystem_capability_new o p);
  Ok (with_filesystem s capability).

Definition add_network (s : PermissionSet) (e : string) : result PreflightError PermissionSet :=
  capability ← map_err PermissionFailed (network_capability_new e);
  Ok (with_network s capability).

Definition rule_capabilities (c : PathResolutionContext) (s : PermissionSet) (rule : FilesystemRule) :
  result PreflightError PermissionSet :=
  let operation := filesystem_operation (access rule) in
  s ← match target rule with
      | Scope selector =>
          match resolve selector c with
          | [] => add_filesystem s operation ("selector:" +:+ selector_debug selector)
          | paths => foldM (fun s p => add_filesystem s operation (path_to_string p)) s paths
          end
      | Glob pattern => add_filesystem s operation ("glob:" +:+ raw pattern)
      end;
  foldM (fun s selector => foldM (fun s p => add_filesystem s OpRead (path_to_string p)) s (resolve selector c))
    s (read_only_subpaths rule).

Definition endpoint_text (e : LocalIpcEndpoint) : string :=
  match e with
  | UnixSocket p => "unix:" +:+ to_string_lossy (ap_path p)
  | WindowsNamedPipe n => "pipe:" +:+ np_name n
  end.

Definition permission_set (policy : SandboxPolicy) (c : PathResolutionContext) : result PreflightError PermissionSet :=
  let fs := Policy.filesystem policy in
  let net := Policy.network policy in
  s ← foldM (rule_capabilities c) set_new (entries fs);
  s ← (if bool_decide (mode fs = Unrestricted)
       then s ← add_filesystem s OpRead "filesystem://unrestricted"; add_filesystem s OpWrite "filesystem://unrestricted"
       else Ok s);
  s ← foldM (fun s p => add_filesystem s OpMapExecutable (path_to_string p)) s (executable_roots c);
  s ← foldM (fun s r => if bool_decide (dr_access r = DAllow) then add_network s (dr_pattern r) else Ok s) s (domains net);
  s ← foldM (fun s r => if bool_decide (us_access r = DAllow) then add_network s ("unix:" +:+ to_string_lossy (us_path r))
                        else Ok s) s (unix_sockets net);
  s ← foldM (fun s r => if bool_decide (li_access r = DAllow) then add_network s (endpoint_text (li_endpoint r)) else Ok s)
        s (local_ipc net);
  s ← (if bool_decide (net_mode net = NetEnabled) && bool_decide (domain_mode net = DomEnabled)
       then add_network s "network://enabled" else Ok s);
  s ← (if bool_decide (net_mode net = NetEnabled) && bool_decide (unix_socket_mode net = UnixEnabled)
       then add_network s "unix://enabled" else Ok s);
  if bool_decide (local_network_access net = LocalAllow) then add_network s "network://local" else Ok s.

(** * Plans *)

Definition preflight_new (r : PermissionRequest) (e : EffectiveSandbox) : PreflightPlan :=
  {| plan_request := r; plan_effective := e; narrowing := None |}.

Definition from_policy (policy : SandboxPolicy) (c : PathResolutionContext) (e : EffectiveSandbox) (i : PreflightIdentity) :
  result PreflightError PreflightPlan :=
  capabilities ← permission_set policy c;
  request ← map_err PermissionFailed
    (request_new (pi_tool_id i) (pi_tool_version i) (pi_manifest_digest i) (pi_config_digest i)
       (pi_platform i) (pi_architecture i) capabilities);
  Ok (preflight_new request e).

Definition from_policy_with_ceiling (policy : SandboxPolicy) (c : PathResolutionContext) (e : EffectiveSandbox)
    (environment : EnvironmentSpec) (ceiling : PolicyCeiling) (i : PreflightIdentity) : result PreflightError PreflightPlan :=
  plan ← from_policy policy c e i;
  Ok {| plan_request := plan_request plan; plan_effective := plan_effective plan;
        narrowing := Some {| ni_requested := policy; ni_context := c; ni_environment := environment;
                             ni_ceiling := ceiling; ni_workspace_roots := es_workspace_roots e |} |}.

(** [target_os] and [arch] are [std::env::consts]. *)
Definition from_policy_current (target_os arch : string) (policy : SandboxPolicy) (c : PathResolutionContext)
    (e : EffectiveSandbox) (id version manifest config : string) : result PreflightError PreflightPlan :=
  p ← map_err PlatformFailed (platform_current target_os);
  from_policy policy c e
    {| pi_tool_id := id; pi_tool_version := version; pi_manifest_digest := manifest; pi_config_digest := config;
       pi_platform := p; pi_architecture := arch |}.

Definition with_process_program (plan : PreflightPlan) (program : string) : result PreflightError PreflightPlan :=
  let r := plan_request plan in
  process ← map_err PermissionFailed (process_capability_new program);
  request ← map_err PermissionFailed
    (request_new (tool_id r) (tool_version r) (manifest_digest r) (config_digest r) (platform r) (architecture r)
       (with_child_process (capabilities r) process));
  Ok {| plan_request := request; plan_effective := plan_effective plan; narrowing := narrowing plan |}.

(** * Narrowing a policy to the approved capabilities *)

Definition narrowing_policy {A} (r : result PolicyError A) : result PreflightError A :=
  map_err (fun e => Narrowing (NarrowPolicy e)) r.
Definition narrowing_composition {A} (r : result CompositionError A) : result PreflightError A :=
  map_err (fun e => Narrowing (NarrowComposition e)) r.

Definition fs_approved (s : PermissionSet) (o : FilesystemOperation) (p : string) : result PreflightError bool :=
  capability ← map_err PermissionFailed (filesystem_capability_new o p);
  Ok (bool_decide (capability ∈ Permissions.filesystem s)).

(** The read-only subpaths of a rule, resolved *)
Definition narrow_subpaths (c : PathResolutionContext) (subpaths : list PathSelector) (narrowed : FilesystemRule) :
  result PreflightError FilesystemRule :=
  foldM (fun narrowed subpath => foldM (fun narrowed p =>
    selector ← narrowing_policy (selector_absolute p);
    narrowing_policy (with_read_only_subpath narrowed selector)) narrowed (resolve subpath c)) narrowed subpaths.

(** What is kept of a scope rule at one of its paths *)
Definition narrow_scope (c : PathResolutionContext) (approved : PermissionSet) (rule : FilesystemRule)
    (entries : list FilesystemRule) (p : path) : result PreflightError (list FilesystemRule) :=
  let operation := filesystem_operation (access rule) in
  contained ← fs_approved approved operation (to_string_lossy p);
  if bool_decide (operation <> OpDeny) && negb contained then Ok entries
  else
    selector ← narrowing_policy (selector_absolute p);
    narrowed ← narrow_subpaths c (read_only_subpaths rule)
                 (with_missing_path_behavior (rule_new selector (access rule)) (missing_path_behavior rule));
    Ok (entries ++ [narrowed]).

Definition narrow_rule (c : PathResolutionContext) (approved : PermissionSet) (entries : list FilesystemRule)
    (rule : FilesystemRule) : result PreflightError (list FilesystemRule) :=
  match target rule with
  | Glob _ => Ok (if bool_decide (access rule = Deny) then entries ++ [rule] else entries)
  | Scope selector => foldM (narrow_scope c approved rule) entries (resolve selector c)
  end.

Definition narrow_protected (original narrowed : FilesystemPolicy) : result PreflightError FilesystemPolicy :=
  let narrowed := if negb (existsb (fun p => path_eqb p ".git") (protected_relative_paths original))
                  then dangerously_allow_git_write narrowed else narrowed in
  foldM (fun narrowed p =>
    if negb (path_eqb p ".git") then narrowing_policy (with_additional_protected_relative_path narrowed p) else Ok narrowed)
    narrowed (protected_relative_paths original).

Definition narrow_filesystem (policy : SandboxPolicy) (c : PathResolutionContext) (approved : PermissionSet) :
  result PreflightError FilesystemPolicy :=
  let original := Policy.filesystem policy in
  match mode original with
  | External => Ok external
  | Unrestricted =>
      read ← fs_approved approved OpRead "filesystem://unrestricted";
      write ← fs_approved approved OpWrite "filesystem://unrestricted";
      if read && write then Ok unrestricted
      else Err (Narrowing (NarrowText "unrestricted filesystem access requires an explicit full grant"))
  | Restricted =>
      entries ← foldM (narrow_rule c approved) [] (entries original);
      narrowed ← match glob_scan_max_depth original with
                 | Some depth => narrowing_policy (with_glob_scan_max_depth (restricted entries) depth)
                 | None => Ok (restricted entries)
                 end;
      narrow_protected original narrowed
  end.

Definition network_approved (approved : PermissionSet) (e : string) : bool :=
  existsb (fun capability => String.eqb (endpoint capability) e) (Permissions.network approved).

Definition narrow_network (policy : SandboxPolicy) (approved : PermissionSet) : result PreflightError NetworkPolicy :=
  let original := Policy.network policy in
  match net_mode original with
  | NetDisabled => Ok net_disabled
  | NetExternal => Ok net_external
  | NetEnabled =>
      let full_network := network_approved approved "network://enabled" in
      let full_unix := network_approved approved "unix://enabled" in
      let full_local := network_approved approved "network://local" in
      let narrowed := with_domain_mode net_enabled
        (if full_network then domain_mode original
         else if bool_decide (domain_mode original = DomEnabled) then DomRestricted else domain_mode original) in
      let narrowed := with_unix_socket_mode narrowed
        (if full_unix then unix_socket_mode original
         else if bool_decide (unix_socket_mode original = UnixEnabled) then UnixRestricted else unix_socket_mode original) in
      let narrowed := with_local_network_access narrowed (if full_local then local_network_access original else LocalDeny) in
      narrowed ← foldM (fun n r =>
        if bool_decide (dr_access r = DDeny) || full_network || network_approved approved (dr_pattern r)
        then narrowing_policy (with_domain n (dr_pattern r) (dr_access r)) else Ok n) narrowed (domains original);
      narrowed ← foldM (fun n r =>
        if bool_decide (us_access r = DDeny) || full_unix || network_approved approved ("unix:" +:+ to_string_lossy (us_path r))
        then narrowing_policy (with_unix_socket n (us_path r) (us_access r)) else Ok n) narrowed (unix_sockets original);
      foldM (fun n r =>
        if bool_decide (li_access r = DDeny) || network_approved approved (endpoint_text (li_endpoint r))
        then narrowing_policy (with_local_ipc n (li_endpoint r) (li_access r)) else Ok n) narrowed (local_ipc original)
  end.

Definition narrow_policy (policy : SandboxPolicy) (c : PathResolutionContext) (approved : PermissionSet) :
  result PreflightError SandboxPolicy :=
  fs ← narrow_filesystem policy c approved;
  net ← narrow_network policy approved;
  Ok {| Policy.filesystem := fs; Policy.network := net |}.

(** The composition of a policy below the inputs of a plan *)
Definition compose_inputs (next : N) (inputs : NarrowingInputs) (policy : SandboxPolicy) :
  result PreflightError (EffectiveSandbox * N) :=
  let composition := CompositionRequest_new policy (ni_environment inputs) (ni_ceiling inputs) in
  composition ← match ni_workspace_roots inputs with
                | Some roots => narrowing_composition (request_with_workspace_roots composition roots)
                | None => Ok composition
                end;
  narrowing_composition (compose next composition).

(** * Authorization *)

(** The check of one requested capability against a partial grant *)
Definition executable_approved (requested approved : PermissionSet) (capability : FilesystemCapability) :
  result PreflightError unit :=
  if bool_decide (operation capability <> OpMapExecutable) then Ok ()
  else
    read ← map_err PermissionFailed (filesystem_capability_new OpRead (cap_path capability));
    if negb (bool_decide (capability ∈ Permissions.filesystem approved))
       || bool_decide (read ∈ Permissions.filesystem requested) && negb (bool_decide (read ∈ Permissions.filesystem approved))
    then Err PartialGrantUnsupported else Ok ().

(** [clock] is the system time, [next] the next composition identity. *)
Definition authorize (plan : PreflightPlan) (grant : PermissionGrant) (clock : Z) (next : N) :
  result PreflightError (AuthorizedPlan * N) :=
  let requested := capabilities (plan_request plan) in
  reject negb (grant_matches grant (plan_request plan)) with GrantMismatch ;;
  reject negb (is_valid_at grant (unix_timestamp clock)) with GrantExpired ;;
  reject bool_decide (child_processes (approved grant) <> child_processes requested) with PartialGrantUnsupported ;;
  _ ← foldM (fun _ capability => executable_approved requested (approved grant) capability) () (Permissions.filesystem requested);
  effective ← (if bool_decide (approved grant = requested) then Ok (plan_effective plan, next)
               else match narrowing plan with
                    | Some inputs =>
                        policy ← narrow_policy (ni_requested inputs) (ni_context inputs) (approved grant);
                        compose_inputs next inputs policy
                    | None => Err PartialGrantUnsupported
                    end);
  Ok ({| auth_effective := effective.1; auth_grant := grant; auth_context := ni_context <$> narrowing plan |}, effective.2).

(** * Escalation *)

Definition policy_permission_contains (policy : SandboxPolicy) (c : PathResolutionContext) (capability : FilesystemCapability) :
  result PreflightError bool :=
  s ← permission_set policy c; Ok (bool_decide (capability ∈ Permissions.filesystem s)).

Definition unsupported {A} (what : string) : result PreflightError A := Err (UnsupportedEscalationCapability what).

Definition expand_filesystem (policy : SandboxPolicy) (additional : PermissionSet)
    (st : FilesystemPolicy * PathResolutionContext) (capability : FilesystemCapability) :
  result PreflightError (FilesystemPolicy * PathResolutionContext) :=
  let '(fs, c) := st in
  match operation capability with
  | (OpRead | OpWrite) as o =>
      selector ← narrowing_policy (selector_absolute (cap_path capability));
      a ← match o with OpRead => Ok Read | OpWrite => Ok Write | _ => unsupported "invalid filesystem operation" end;
      fs ← narrowing_policy (with_rule fs (rule_new selector a));
      Ok (fs, c)
  | OpMapExecutable =>
      read ← map_err PermissionFailed (filesystem_capability_new OpRead (cap_path capability));
      contained ← policy_permission_contains policy c read;
      if negb contained && negb (bool_decide (read ∈ Permissions.filesystem additional))
      then unsupported "map-executable without read"
      else c ← narrowing_policy (with_executable_root c (cap_path capability)); Ok (fs, c)
  | OpDeny => unsupported "deny-only filesystem rule"
  end.

Definition expand_network (network : NetworkPolicy) (capability : NetworkCapability) : result PreflightError NetworkPolicy :=
  let e := endpoint capability in
  if starts_with "network://" e || starts_with "unix://" e then unsupported "unrestricted network sentinel"
  else
    match strip_prefix "unix:" e with
    | Some p =>
        endpoint ← narrowing_policy (endpoint_unix_socket p);
        narrowing_policy (with_local_ipc network endpoint DAllow)
    | None =>
        match strip_prefix "pipe:" e with
        | Some name =>
            endpoint ← narrowing_policy (endpoint_windows_named_pipe name);
            narrowing_policy (with_local_ipc network endpoint DAllow)
        | None =>
            if bool_decide (net_mode network = NetExternal) then unsupported "network on externally enforced policy"
            else
              let network := if bool_decide (net_mode network = NetDisabled)
                             then with_unix_socket_mode (with_domain_mode net_enabled DomRestricted) UnixDisabled
                             else network in
              narrowing_policy (with_domain network e DAllow)
        end
    end.

Definition expanded_policy (policy : SandboxPolicy) (c : PathResolutionContext) (additional : PermissionSet) :
  result PreflightError (SandboxPolicy * PathResolutionContext) :=
  st ← foldM (expand_filesystem policy additional) (Policy.filesystem policy, c) (Permissions.filesystem additional);
  net ← foldM expand_network (Policy.network policy) (Permissions.network additional);
  Ok ({| Policy.filesystem := st.1; Policy.network := net |}, st.2).

Definition identity_of_request (r : PermissionRequest) : PreflightIdentity :=
  {| pi_tool_id := tool_id r; pi_tool_version := tool_version r; pi_manifest_digest := manifest_digest r;
     pi_config_digest := config_digest r; pi_platform := platform r; pi_architecture := architecture r |}.

Definition request_escalation (plan : PreflightPlan) (additional : PermissionSet) (reason : string) (next : N) :
  result PreflightError (PermissionEscalationPlan * N) :=
  inputs ← ok_or EscalationUnsupported (narrowing plan);
  reject bool_decide (child_processes additional <> []) with UnsupportedEscalationCapability "child-process" ;;
  expanded ← expanded_policy (ni_requested inputs) (ni_context inputs) additional;
  effective ← compose_inputs next inputs expanded.1;
  plan' ← from_policy_with_ceiling expanded.1 expanded.2 effective.1 (ni_environment inputs) (ni_ceiling inputs)
            (identity_of_request (plan_request plan));
  plan' ← foldM (fun plan' process => with_process_program plan' (cap_program process)) plan'
            (child_processes (capabilities (plan_request plan)));
  request ← map_err PermissionFailed (escalation_new (plan_request plan) additional reason);
  reject bool_decide (plan_request plan' <> esc_request request)
    with Narrowing (NarrowText "expanded policy and permission request disagree") ;;
  Ok ({| escalation_request := request; escalation_plan := plan' |}, effective.2).

(** [PermissionEscalationPlan::authorize] *)
Definition escalation_authorize (e : PermissionEscalationPlan) (grant : PermissionGrant) (clock : Z) (next : N) :
  result PreflightError (AuthorizedPlan * N) := authorize (escalation_plan e) grant clock next.

End preflight.
