(* ===== verification/PreflightSafety.v ===== *)
(** What the authorization of a launch guarantees: whatever an authorized
    sandbox may read, write or connect to is covered by an approved
    capability. *)

From Stdlib Require Import Ascii String NArith ZArith Lia.
From stdpp Require Import base option strings gmap list.
From S2P Require Import Prelude Keyed Text BTree NativePath Access Selector PathPattern FsPolicy LocalIpc Domain NetPolicy Policy Environment Compose Effective GrantId Permissions ConfigResolve Preflight.

Section safety.
Context {U : Unicode} {G : Globset} {W : WildMatch} {DT : DebugText} {D : Sha256} {J : Serialize PermissionRequest}.

(** * The rule an access goes back to *)

(** An access [d] at [p] comes from a scope of one of [rules] that covers [p]. *)
Definition grounded (rules : list FilesystemRule) (c : PathResolutionContext) (p : path) (d : FilesystemDecision) : Prop :=
  exists rule selector root, rule ∈ rules /\ target rule = Scope selector /\ root ∈ resolve selector c /\
    is_within p root = true /\ access rule <> Deny /\ (d = FWrite -> access rule = Write).

Definition deny_globs (rules : list FilesystemRule) : Prop :=
  forall rule pattern, rule ∈ rules -> target rule = Glob pattern -> access rule = Deny.

Lemma read_only_steps p c l m : rm_access (foldl (read_only_step p c) m l) = Write -> rm_access m = Write.
Proof.
  revert m. induction l as [|x l IH]; intros m; simpl; [done|]. intros Hw%IH. unfold read_only_step in Hw.
  by destruct (iter_max _).
Qed.

Lemma matched_scope rules rule p c m :
  deny_globs rules -> rule ∈ rules -> matches_path rule p c = Some m -> rm_access m <> Deny ->
  exists selector root, target rule = Scope selector /\ root ∈ resolve selector c /\ is_within p root = true /\
    access rule <> Deny /\ (rm_access m = Write -> access rule = Write).
Proof.
  intros Hglobs Hin Hmatch Hm. unfold matches_path in Hmatch.
  assert (access rule <> Deny /\ (rm_access m = Write -> access rule = Write)) as [Ha Hw].
  { destruct (match target rule with Scope _ => _ | Glob _ => _ end) as [s b]. destruct (negb b); [done|].
    injection Hmatch as <-. case_bool_decide as Hw; [by rewrite Hw|]. done. }
  destruct (target rule) as [selector|pattern] eqn:Ht; [|by destruct Ha; eapply Hglobs].
  destruct (iter_max (covering selector p c)) as [n|] eqn:Hmax; [|done].
  destruct (covering selector p c) as [|x l] eqn:Hcov; [done|].
  assert (x ∈ covering selector p c) as Hx by (rewrite Hcov; set_solver). unfold covering in Hx.
  apply list_elem_of_fmap in Hx as (root & _ & [Hroot Hr]%list_elem_of_filter). eauto 10.
Qed.

Lemma access_grounded f p c d :
  mode f = Restricted -> deny_globs (entries f) -> access_for_path f p c = Ok d -> d <> FDeny ->
  grounded (entries f) c p d.
Proof.
  intros Hmode Hglobs Hd Hne. destruct (decide (d = FWrite)) as [->|Hw].
  - apply access_write_inv in Hd as (_ & rule & m & Hin & Hmatch & Hacc); [|done].
    destruct (matched_scope _ rule p c m Hglobs Hin Hmatch) as (selector & root & ? & ? & ? & ? & ?); [by rewrite Hacc|].
    exists rule, selector, root. auto 10.
  - assert (valid_absolute p) as Hp.
    { unfold access_for_path in Hd. res_inv. split_and!; [by apply negb_false_iff|done|done]. }
    rewrite access_for_path_outcome, rules_outcome_matches in Hd by done. injection Hd as Hd.
    set (ms := omap (fun r => matches_path r p c) (entries f)) in *.
    assert (exists m, m ∈ ms /\ rm_access m <> Deny) as (m & Hin & Hm).
    { pose proof (outcome_sum_spec ms) as Hs. destruct (outcome_sum _) as [|[b|]]; [by simpl in Hd; subst d| |by simpl in Hd; subst d].
      destruct Hs as (Hnd & _ & (m & Hm & _)%Exists_exists & _). rewrite Forall_forall in Hnd. eauto. }
    apply list_elem_of_omap in Hin as (rule & Hin & Hmatch).
    destruct (matched_scope _ rule p c m Hglobs Hin Hmatch Hm) as (selector & root & ? & ? & ? & ? & ?).
    exists rule, selector, root. by split_and!.
Qed.

(** Normalization keeps targets and only restricts. *)
Lemma normalize_rules_origin rules rule :
  rule ∈ normalize_rules rules -> exists r, r ∈ rules /\ target r = target rule /\
    (access rule = Write -> access r = Write) /\ (access rule <> Deny -> access r <> Deny).
Proof.
  unfold normalize_rules. intros Hin.
  destruct (keyed_collapse_related rule_key key_eqb merge_rule (fun _ _ => eq_refl) (fun _ => ()) (fun _ _ => ()) () (=)
    (fun _ _ => eq_refl) (fun _ _ _ => eq_refl) (fun x => match x with tt => eq_refl end) rules
    (fun rule => exists r, r ∈ rules /\ target r = target rule /\
       (access rule = Write -> access r = Write) /\ (access rule <> Deny -> access r <> Deny))) as [Hall _].
  - intros r Hr. exists r. done.
  - intros e r (r0 & Hr0 & Ht & Hw & Hd) _ _. exists r0. simpl. split_and!; [done|done|..].
    + intros Hacc. apply Hw. by destruct (access e), (access r).
    + intros Hacc. apply Hd. by destruct (access e), (access r).
  - done.
  - rewrite Forall_forall in Hall. by apply Hall.
Qed.

(** A read or write access of a normalized policy *)
Lemma normalized_grounded f f' p c d :
  normalized f = Ok f' -> access_for_path f' p c = Ok d -> d = FRead \/ d = FWrite ->
  mode f = Unrestricted \/ mode f = Restricted /\ grounded (entries f) c p d.
Proof.
  intros Hn Hd Hrw. unfold normalized in Hn. apply bind_Ok in Hn as ([] & Hv & Hn).
  destruct (decide (mode f = Restricted)) as [Hm|Hm].
  - right. split; [done|]. rewrite bool_decide_eq_false_2 in Hn by tauto. injection Hn as <-.
    pose proof (policy_validate_facts _ Hv) as [Hglobs _].
    apply access_grounded in Hd as (rule & selector & root & Hin & Ht & Hr & Hw & Ha & Hwr); [| |simpl..].
    + simpl in Hin. apply normalize_rules_origin in Hin as (r & Hr' & Ht' & Hw' & Hd').
      exists r, selector, root. rewrite Ht'. split_and!; auto.
    + done.
    + intros rule pattern Hin Ht. apply normalize_rules_origin in Hin as (r & Hr' & Ht' & _ & Hd').
      rewrite Ht in Ht'. destruct (decide (access rule = Deny)) as [|Hne]; [done|]. by destruct (Hd' Hne), (Hglobs r pattern).
    + destruct Hrw as [-> | ->]; done.
  - rewrite bool_decide_eq_true_2 in Hn by done. injection Hn as <-. unfold access_for_path in Hd. res_inv.
    destruct (mode f); [done|by left|]. injection Hd as <-. by destruct Hrw.
Qed.

Lemma combine_reads d1 d2 : combine_filesystem_decisions d1 d2 = FRead \/ combine_filesystem_decisions d1 d2 = FWrite ->
  (d1 = FRead \/ d1 = FWrite) /\ (combine_filesystem_decisions d1 d2 = FWrite -> d1 = FWrite).
Proof. destruct d1, d2; simpl; naive_solver. Qed.

(** A read or write access of a composed sandbox, seen from the requested
    policy *)
Lemma composed_access next r e n p c d :
  compose next r = Ok (e, n) -> effective_access_for_path (es_filesystem e) p c = Ok d -> d = FRead \/ d = FWrite ->
  let f := Policy.filesystem (requested_policy r) in
  mode f = Unrestricted \/ mode f = Restricted /\ grounded (entries f) (context c) p d.
Proof.
  intros (requested & outer & w & Hreq & _ & _ & _ & _ & -> & _)%compose_Ok Hd Hrw f.
  unfold effective_access_for_path in Hd. simpl in Hd. destruct (negb _) in Hd; [done|].
  apply bind_Ok in Hd as (d1 & Hd1%map_err_Ok & Hd). apply bind_Ok in Hd as (d2 & _ & Hd). injection Hd as <-.
  unfold sandbox_normalized in Hreq. apply bind_Ok in Hreq as (f' & Hf & Hreq). apply bind_Ok in Hreq as (n' & _ & Hreq).
  injection Hreq as <-. simpl in Hd1. apply combine_reads in Hrw as [Hd1' Hw].
  destruct (normalized_grounded _ _ _ _ _ Hf Hd1 Hd1') as [?|(Hm & rule & selector & root & ? & ? & ? & ? & ? & Hrw)]; [by left|].
  right. split; [done|]. exists rule, selector, root. split_and!; auto.
Qed.

(** * Approved capabilities *)

Definition approved_at (s : PermissionSet) (o : FilesystemOperation) (p : path) : Prop :=
  exists root, {| operation := o; cap_path := path_to_string root |} ∈ Permissions.filesystem s /\ is_within p root = true.

Definition unrestricted_approved (s : PermissionSet) (o : FilesystemOperation) : Prop :=
  {| operation := o; cap_path := "filesystem://unrestricted" |} ∈ Permissions.filesystem s.

(** An access that an approved capability covers *)
Definition access_approved (s : PermissionSet) (p : path) (d : FilesystemDecision) : Prop :=
  match d with
  | FWrite => approved_at s OpWrite p \/ unrestricted_approved s OpWrite
  | FRead => approved_at s OpRead p \/ approved_at s OpWrite p \/ unrestricted_approved s OpRead
  | FDeny | FExternallyEnforced => True
  end.

Lemma access_approved_same s s' p d :
  Permissions.filesystem s = Permissions.filesystem s' -> access_approved s p d -> access_approved s' p d.
Proof. unfold access_approved, approved_at, unrestricted_approved. by intros ->. Qed.

Lemma capability_new_Ok o p cap : filesystem_capability_new o p = Ok cap -> cap = {| operation := o; cap_path := p |}.
Proof. unfold filesystem_capability_new. intros Hc. by res_inv. Qed.

Lemma fs_approved_true s o p : fs_approved s o p = Ok true -> {| operation := o; cap_path := p |} ∈ Permissions.filesystem s.
Proof.
  unfold fs_approved. intros (cap & ->%map_err_Ok%capability_new_Ok & Hc)%bind_Ok. injection Hc as Hc.
  by apply bool_decide_eq_true in Hc.
Qed.

Lemma grounded_approved s rules c p d :
  (forall rule selector root, rule ∈ rules -> target rule = Scope selector -> root ∈ resolve selector c -> access rule <> Deny ->
     {| operation := filesystem_operation (access rule); cap_path := path_to_string root |} ∈ Permissions.filesystem s) ->
  grounded rules c p d -> access_approved s p d.
Proof.
  intros Hall (rule & selector & root & Hin & Ht & Hr & Hw & Hd & Hwr). specialize (Hall _ _ _ Hin Ht Hr Hd).
  destruct d; simpl; [|left|done|done].
  - destruct (access rule); [left; by exists root|right; left; by exists root|done].
  - rewrite Hwr in Hall by done. by exists root.
Qed.

(** * Narrowed policies *)

(** A kept rule denies, or is the scope of an approved capability. *)
Definition rule_approved (s : PermissionSet) (rule : FilesystemRule) : Prop :=
  access rule = Deny \/ exists root, target rule = Scope {| ps_kind := Absolute root |} /\
    {| operation := filesystem_operation (access rule); cap_path := path_to_string root |} ∈ Permissions.filesystem s.

Lemma narrow_subpaths_keeps c subpaths rule rule' :
  narrow_subpaths c subpaths rule = Ok rule' -> target rule' = target rule /\ access rule' = access rule.
Proof.
  unfold narrow_subpaths. apply (foldM_invariant _ (fun r => target r = target rule /\ access r = access rule)); [done|].
  intros r subpath r' _ Hr. apply (foldM_invariant _ (fun r => target r = target rule /\ access r = access rule)); [done|].
  clear. intros r p r' _ Hr Hs. apply bind_Ok in Hs as (selector & _ & Hs%map_err_Ok). unfold with_read_only_subpath in Hs. by res_inv.
Qed.

Lemma narrow_scope_approved c s rule entries p entries' :
  Forall (rule_approved s) entries -> narrow_scope c s rule entries p = Ok entries' -> Forall (rule_approved s) entries'.
Proof.
  intros Hall. unfold narrow_scope. cbv zeta. intros (contained & Hc & Hn)%bind_Ok.
  destruct (_ && _) eqn:E; [by injection Hn as <-|].
  apply bind_Ok in Hn as (selector & Hs%map_err_Ok & Hn). apply selector_absolute_Ok in Hs as [_ ->].
  apply bind_Ok in Hn as (narrowed & Hnar & Hn). injection Hn as <-. apply Forall_app. split; [done|]. apply Forall_singleton.
  apply narrow_subpaths_keeps in Hnar as [Ht Ha]. simpl in Ht, Ha. unfold rule_approved. rewrite Ht, Ha.
  destruct (decide (access rule = Deny)) as [|Hd]; [by left|right]. exists p. split; [done|].
  assert (contained = true) as ->; [|by apply fs_approved_true].
  rewrite bool_decide_eq_true_2 in E by (by destruct (access rule)). by apply negb_false_iff.
Qed.

Lemma narrow_rule_approved c s entries rule entries' :
  Forall (rule_approved s) entries -> narrow_rule c s entries rule = Ok entries' -> Forall (rule_approved s) entries'.
Proof.
  intros Hall. unfold narrow_rule. destruct (target rule) as [selector|pattern].
  - apply (foldM_invariant _ (Forall (rule_approved s))); [done|]. intros es p es' _ Hes. by apply narrow_scope_approved.
  - intros [= <-]. case_bool_decide; [|done]. apply Forall_app. split; [done|]. apply Forall_singleton. by left.
Qed.

Lemma narrow_protected_keeps original f f' :
  narrow_protected original f = Ok f' -> mode f' = mode f /\ entries f' = entries f.
Proof.
  unfold narrow_protected. cbv zeta.
  apply (foldM_invariant _ (fun g => mode g = mode f /\ entries g = entries f)); [by destruct (negb _)|].
  intros g p g' _ Hg Hs. destruct (negb _) in Hs; [|by injection Hs as <-]. apply map_err_Ok in Hs.
  unfold with_additional_protected_relative_path in Hs. by res_inv.
Qed.

(** What a narrowed filesystem policy allows was approved. *)
Lemma narrow_filesystem_approved policy c s f :
  narrow_filesystem policy c s = Ok f ->
  match mode f with
  | Restricted => Forall (rule_approved s) (entries f)
  | Unrestricted => unrestricted_approved s OpRead /\ unrestricted_approved s OpWrite
  | External => True
  end.
Proof.
  unfold narrow_filesystem. cbv zeta. destruct (mode (Policy.filesystem policy)).
  - intros (es & Hes & Hn)%bind_Ok. apply bind_Ok in Hn as (g & Hg & [-> ->]%narrow_protected_keeps).
    assert (mode g = Restricted /\ entries g = es) as [-> ->].
    { destruct (glob_scan_max_depth _); [|by injection Hg as <-]. apply map_err_Ok in Hg.
      unfold with_glob_scan_max_depth in Hg. by res_inv. }
    revert Hes. apply (foldM_invariant _ (Forall (rule_approved s))); [done|]. intros es1 r es2 _ H1. by apply narrow_rule_approved.
  - intros (read & Hr & Hn)%bind_Ok. apply bind_Ok in Hn as (write & Hw & Hn).
    destruct read, write; try done. injection Hn as <-. simpl. split; by apply fs_approved_true.
  - by intros [= <-].
Qed.

Lemma rules_approved_grounded s rules c p d :
  Forall (rule_approved s) rules -> grounded rules c p d -> access_approved s p d.
Proof.
  rewrite Forall_forall. intros Hall. apply grounded_approved. intros rule selector root Hin Ht Hr Hd.
  destruct (Hall rule Hin) as [?|(root' & Ht' & Hcap)]; [done|]. rewrite Ht in Ht'. injection Ht' as ->.
  simpl in Hr. apply list_elem_of_singleton in Hr as ->. done.
Qed.

(** * Requested capabilities *)

(** A request covers every scope rule of its policy. *)
Definition covers_rule (c : PathResolutionContext) (rule : FilesystemRule) (s : PermissionSet) : Prop :=
  forall selector root, target rule = Scope selector -> root ∈ resolve selector c ->
  {| operation := filesystem_operation (access rule); cap_path := path_to_string root |} ∈ Permissions.filesystem s.

Lemma add_filesystem_elem s o p s' cap :
  add_filesystem s o p = Ok s' ->
  cap ∈ Permissions.filesystem s' <-> cap = {| operation := o; cap_path := p |} \/ cap ∈ Permissions.filesystem s.
Proof.
  unfold add_filesystem. intros (cap' & ->%map_err_Ok%capability_new_Ok & Hs)%bind_Ok. injection Hs as <-. simpl.
  apply with_capability_sorted_elem.
Qed.

Lemma add_network_elem s e s' :
  add_network s e = Ok s' -> Permissions.filesystem s' = Permissions.filesystem s /\
  forall cap, cap ∈ Permissions.network s' <-> cap = {| endpoint := e |} \/ cap ∈ Permissions.network s.
Proof.
  unfold add_network. intros (cap & Hc%map_err_Ok & Hs)%bind_Ok. unfold network_capability_new in Hc. res_inv. simpl.
  split; [done|]. intros cap. apply with_capability_sorted_elem.
Qed.

(** Growing capability sets *)
Definition grows (s s' : PermissionSet) : Prop :=
  Permissions.filesystem s ⊆ Permissions.filesystem s' /\ Permissions.network s ⊆ Permissions.network s'.

#[local] Instance grows_preorder : PreOrder grows.
Proof. split; [by intros s|]. intros s1 s2 s3 [H1 H2] [H3 H4]. split; by etrans. Qed.

Lemma foldM_grows {A} (f : PermissionSet -> A -> result PreflightError PermissionSet) l s s' :
  (forall s x s', f s x = Ok s' -> grows s s') -> foldM f s l = Ok s' -> grows s s'.
Proof.
  intros Hf. apply (foldM_invariant f (grows s)); [done|]. intros s1 x s2 _ H1 Hx. etrans; [done|by eapply Hf].
Qed.

Lemma add_filesystem_grows s o p s' : add_filesystem s o p = Ok s' -> grows s s'.
Proof.
  intros Ha. split; [intros cap Hc; apply (add_filesystem_elem _ _ _ _ cap Ha); by right|].
  unfold add_filesystem in Ha. apply bind_Ok in Ha as (cap & _ & Hs). by injection Hs as <-.
Qed.

Lemma add_network_grows s e s' : add_network s e = Ok s' -> grows s s'.
Proof.
  intros [Hfs Hnet]%add_network_elem. split; [by rewrite Hfs|]. intros cap Hc. apply Hnet. by right.
Qed.

Lemma rule_capabilities_covers c s rule s' :
  rule_capabilities c s rule = Ok s' -> grows s s' /\ covers_rule c rule s'.
Proof.
  unfold rule_capabilities. cbv zeta. intros (s1 & Ht & Hsub)%bind_Ok.
  assert (grows s1 s') as Hg.
  { revert Hsub. apply foldM_grows. intros s2 selector s3. apply foldM_grows. intros s4 p s5. apply add_filesystem_grows. }
  assert (grows s s1 /\ covers_rule c rule s1) as [Hg1 Hc].
  { unfold covers_rule. destruct (target rule) as [selector|pattern]; [|split; [by eapply add_filesystem_grows|done]].
    destruct (resolve selector c) as [|p ps] eqn:Hr; [split; [by eapply add_filesystem_grows|]|].
    { intros selector' root [= <-] Hroot. rewrite Hr in Hroot. by apply not_elem_of_nil in Hroot. }
    split; [revert Ht; apply foldM_grows; intros s2 q s3; apply add_filesystem_grows|].
    intros selector' root [= <-] Hroot. rewrite Hr in Hroot. revert Ht.
    apply (foldM_establish (fun s => _ ∈ Permissions.filesystem s) _ root); [done|..].
    - intros s2 s3 Ha. apply (add_filesystem_elem _ _ _ _ _ Ha). by left.
    - intros s2 q s3 H2 Ha. by eapply add_filesystem_grows. }
  split; [by etrans|]. intros selector root Hsel Hroot. apply Hg. by apply (Hc selector).
Qed.

(** The network part of a request *)
Definition covers_network (net : NetworkPolicy) (s : PermissionSet) : Prop :=
  (forall r, r ∈ domains net -> dr_access r = DAllow -> {| endpoint := dr_pattern r |} ∈ Permissions.network s) /\
  (net_mode net = NetEnabled -> domain_mode net = DomEnabled -> {| endpoint := "network://enabled" |} ∈ Permissions.network s).

Lemma add_if_grows (b : bool) s e s' : (if b then add_network s e else Ok s) = Ok s' -> grows s s'.
Proof. destruct b; [apply add_network_grows|by intros [= <-]]. Qed.

Lemma permission_set_covers policy c s :
  permission_set policy c = Ok s ->
  (forall rule, rule ∈ entries (Policy.filesystem policy) -> covers_rule c rule s) /\
  (mode (Policy.filesystem policy) = Unrestricted -> unrestricted_approved s OpRead /\ unrestricted_approved s OpWrite) /\
  covers_network (Policy.network policy) s.
Proof.
  unfold permission_set. cbv zeta. intros (s1 & Hrules & H1)%bind_Ok. apply bind_Ok in H1 as (s2 & Hun & H2).
  apply bind_Ok in H2 as (s3 & Hexe & H3). apply bind_Ok in H3 as (s4 & Hdom & H4). apply bind_Ok in H4 as (s5 & Hunix & H5).
  apply bind_Ok in H5 as (s6 & Hipc & H6). apply bind_Ok in H6 as (s7 & Hfull & H7). apply bind_Ok in H7 as (s8 & Hufull & H8).
  assert (grows s7 s) as G7 by (trans s8; by eapply add_if_grows).
  assert (grows s4 s6) as G4
    by (trans s5; [revert Hunix|revert Hipc]; apply foldM_grows; intros x r y; apply add_if_grows).
  assert (grows s2 s3) as G2 by (revert Hexe; apply foldM_grows; intros x p y; apply add_filesystem_grows).
  assert (grows s3 s4) as G3 by (revert Hdom; apply foldM_grows; intros x r y; apply add_if_grows).
  pose proof (add_if_grows _ _ _ _ Hfull) as G6.
  assert (grows s4 s) as G4' by (trans s6; [done|]; by trans s7). assert (grows s2 s) as G2' by (trans s3; [done|]; by trans s4).
  split_and!.
  - intros rule Hin. assert (covers_rule c rule s1) as Hc.
    { revert Hrules. apply (foldM_establish (covers_rule c rule) _ rule); [done|..].
      - intros x y Hx. by apply rule_capabilities_covers in Hx as [_ ?].
      - intros x r y Hx Hy selector root Ht Hr. apply rule_capabilities_covers in Hy as [[Hg _] _]. by apply Hg, (Hx selector). }
    intros selector root Ht Hr. apply G2'. assert (grows s1 s2) as [G1 _]; [|by apply G1, (Hc selector)].
    destruct (bool_decide _) in Hun; [|by injection Hun as <-]. apply bind_Ok in Hun as (x & Hx & Hy).
    trans x; by eapply add_filesystem_grows.
  - intros Hm. rewrite bool_decide_eq_true_2 in Hun by done. apply bind_Ok in Hun as (x & Hx & Hy).
    split; apply G2'.
    + apply (add_filesystem_grows _ _ _ _ Hy). apply (add_filesystem_elem _ _ _ _ _ Hx). by left.
    + apply (add_filesystem_elem _ _ _ _ _ Hy). by left.
  - split.
    + intros r Hr Ha. apply G4'. revert Hdom.
      apply (foldM_establish (fun s => {| endpoint := dr_pattern r |} ∈ Permissions.network s) _ r); [done|..].
      * intros x y Hx. rewrite bool_decide_eq_true_2 in Hx by done. apply add_network_elem in Hx as [_ Hx]. apply Hx. by left.
      * intros x r' y Hx Hy. by apply add_if_grows in Hy as [_ Hy]; apply Hy.
    + intros Hm Hd. apply G7. rewrite !bool_decide_eq_true_2 in Hfull by done. apply add_network_elem in Hfull as [_ Hx].
      apply Hx. by left.
Qed.

(** * Authorization *)

(** A plan made of a policy and its composition, and of the programs added to
    it *)
Inductive plan_built (policy : SandboxPolicy) (c : PathResolutionContext) : PreflightPlan -> Prop :=
  | built_from_policy next r e n environment ceiling i plan :
      compose next r = Ok (e, n) -> requested_policy r = policy ->
      from_policy_with_ceiling policy c e environment ceiling i = Ok plan -> plan_built policy c plan
  | built_with_program plan program plan' :
      plan_built policy c plan -> with_process_program plan program = Ok plan' -> plan_built policy c plan'.

Lemma plan_built_spec policy c plan :
  plan_built policy c plan ->
  (exists next r n, compose next r = Ok (plan_effective plan, n) /\ requested_policy r = policy) /\
  (exists s, permission_set policy c = Ok s /\ Permissions.filesystem s = Permissions.filesystem (capabilities (plan_request plan)) /\
     Permissions.network s = Permissions.network (capabilities (plan_request plan))) /\
  (forall inputs, narrowing plan = Some inputs -> ni_requested inputs = policy /\ ni_context inputs = c).
Proof.
  induction 1 as [next r e n environment ceiling i plan Hcomp Hr Hf|plan program plan' _ IH Hw].
  - unfold from_policy_with_ceiling, from_policy in Hf. apply bind_Ok in Hf as (plan0 & Hf & Hp). injection Hp as <-.
    apply bind_Ok in Hf as (s & Hs & Hf). apply bind_Ok in Hf as (request & Hreq%map_err_Ok & Hf). injection Hf as <-. simpl.
    apply request_new_Ok in Hreq as ->. split_and!; [eauto|by exists s|by intros inputs [= <-]].
  - unfold with_process_program in Hw. cbv zeta in Hw. apply bind_Ok in Hw as (process & _ & Hw).
    apply bind_Ok in Hw as (request & Hreq%map_err_Ok & Hw). injection Hw as <-. simpl.
    apply request_new_Ok in Hreq as ->. simpl. exact IH.
Qed.

(** The sandbox of an authorized plan is the plan's own, if everything was
    approved, or that of the narrowed policy. *)
Lemma authorize_Ok plan g clock next ap n :
  authorize plan g clock next = Ok (ap, n) ->
  grant_matches g (plan_request plan) = true /\ is_valid_at g (unix_timestamp clock) = true /\
  (approved g = capabilities (plan_request plan) /\ auth_effective ap = plan_effective plan \/
   exists inputs policy r, narrowing plan = Some inputs /\
     narrow_policy (ni_requested inputs) (ni_context inputs) (approved g) = Ok policy /\
     requested_policy r = policy /\ compose next r = Ok (auth_effective ap, n)).
Proof.
  unfold authorize. cbv zeta. destruct (grant_matches g _); [|done]. destruct (is_valid_at g _); [|done]. simpl.
  destruct (bool_decide _); [done|]. intros ([] & _ & Ha)%bind_Ok. apply bind_Ok in Ha as ([e n'] & He & Ha).
  injection Ha as <- <-. simpl. split_and!; [done|done|]. case_bool_decide as Hfull; [left; by injection He as <- _|right].
  destruct (narrowing plan) as [inputs|]; [|done]. apply bind_Ok in He as (policy & Hp & He). exists inputs, policy.
  unfold compose_inputs in He. cbv zeta in He. apply bind_Ok in He as (r & Hr & He%map_err_Ok). exists r.
  split_and!; [done|done| |done]. destruct (ni_workspace_roots inputs); [|by injection Hr as <-].
  apply map_err_Ok in Hr. unfold request_with_workspace_roots in Hr. by res_inv.
Qed.

Lemma grounded_context rules c c' p d :
  (forall s, resolve s c ⊆ resolve s c') -> grounded rules c p d -> grounded rules c' p d.
Proof.
  intros Hc (rule & selector & root & Hin & Ht & Hr & Hw & Hd & Hwr). exists rule, selector, root.
  split_and!; [done|done|by apply Hc|done..].
Qed.

(** C5. An authorized launch accesses nothing that was not approved.  Take a
    plan made of a policy, its composition below a ceiling and the programs
    added to it, and a grant that authorizes it, in full or in part.  A path the
    authorized sandbox may write lies below the path of an approved write
    capability, and a path it may read below that of an approved read or write
    capability, unless unrestricted access was itself approved.  When everything
    was approved, the launch must be evaluated in a context in which no selector
    names a path that it does not name in the plan's context: what was asked for
    are the paths of the plan's context, and for a selector without any there
    its text.  A partial approval needs no such condition. *)
Theorem authorized_access_approved (policy : SandboxPolicy) (c : PathResolutionContext) (plan : PreflightPlan)
    (g : PermissionGrant) (clock : Z) (next n : N) (ap : AuthorizedPlan) (launch : EffectivePathContext) (p : path)
    (d : FilesystemDecision) :
  plan_built policy c plan -> authorize plan g clock next = Ok (ap, n) ->
  (approved g = capabilities (plan_request plan) -> forall s, resolve s (context launch) ⊆ resolve s c) ->
  effective_access_for_path (es_filesystem (auth_effective ap)) p launch = Ok d ->
  access_approved (approved g) p d.
Proof.
  intros ((next0 & r0 & n0 & Hcomp0 & Hr0) & (s & Hs & Hfs & _) & Hnar)%plan_built_spec Hauth Hc Hd.
  destruct (decide (d = FRead \/ d = FWrite)) as [Hrw|Hrw]; [|by destruct d; naive_solver].
  apply authorize_Ok in Hauth as (_ & _ & [[Hfull Heff]|(inputs & policy' & r & Hin & Hp & Hr & Hcomp)]).
  - rewrite Heff in Hd. destruct (permission_set_covers _ _ _ Hs) as (Hrules & Hun & _).
    rewrite Hfull. apply (access_approved_same s); [done|].
    destruct (composed_access _ _ _ _ _ _ _ Hcomp0 Hd Hrw) as [Hm|[Hm Hg]]; rewrite Hr0 in *.
    + destruct (Hun Hm). destruct d; simpl; auto.
    + eapply grounded_approved; [|eapply grounded_context; [exact (Hc Hfull)|done]]. intros rule selector root Hrule Ht Hroot _. by eapply Hrules.
  - destruct (Hnar inputs Hin) as [Hpol Hctx]. rewrite Hpol, Hctx in Hp. unfold narrow_policy in Hp. apply bind_Ok in Hp as (f & Hf & Hp).
    apply bind_Ok in Hp as (net & _ & Hp). injection Hp as Hp. apply narrow_filesystem_approved in Hf.
    destruct (composed_access _ _ _ _ _ _ _ Hcomp Hd Hrw) as [Hm|[Hm Hg]]; rewrite Hr, <- Hp in *; simpl in *; rewrite Hm in Hf.
    + destruct d; simpl; naive_solver.
    + by eapply rules_approved_grounded.
Qed.

(** * Hosts *)

(** A host that an approved endpoint covers: the open network, or the pattern
    of an allow rule that matches the host *)
Definition host_approved (policy : SandboxPolicy) (s : PermissionSet) (host : string) : Prop :=
  {| endpoint := "network://enabled" |} ∈ Permissions.network s \/
  exists pattern r, {| endpoint := pattern |} ∈ Permissions.network s /\ rule_hits host r /\ dr_access r = DAllow /\
    (r ∈ domains (Policy.network policy) /\ dr_pattern r = pattern \/ DomainRule_new pattern DAllow = Ok r).

Lemma network_approved_true s e : network_approved s e = true -> {| endpoint := e |} ∈ Permissions.network s.
Proof.
  unfold network_approved. intros Hx. apply existsb_exists in Hx as ([e'] & Hin%list_elem_of_In & He%String.eqb_eq).
  simpl in He. by subst e'.
Qed.

(** The policy while [narrow_network] adds rules to it *)
Definition network_narrowed (s : PermissionSet) (mode : DomainMode) (n : NetworkPolicy) : Prop :=
  net_built n /\ domain_mode n = mode /\ forall r, r ∈ domains n -> dr_access r = DAllow ->
    {| endpoint := "network://enabled" |} ∈ Permissions.network s \/
    exists pattern, {| endpoint := pattern |} ∈ Permissions.network s /\ DomainRule_new pattern DAllow = Ok r.

Lemma with_domain_narrowed s mode n pattern a n' :
  (a = DAllow -> {| endpoint := "network://enabled" |} ∈ Permissions.network s \/ {| endpoint := pattern |} ∈ Permissions.network s) ->
  network_narrowed s mode n -> with_domain n pattern a = Ok n' -> network_narrowed s mode n'.
Proof.
  intros Ha (Hb & Hm & Hr) Hw. split; [by eapply nb_domain|]. unfold with_domain in Hw. res_inv. simpl. split; [done|].
  intros r [Hin|Hin%list_elem_of_singleton]%elem_of_app Hacc; [by apply Hr|]. subst r.
  match goal with Hn : DomainRule_new _ _ = Ok _ |- _ => rename Hn into Hnew end.
  assert (a = DAllow) as ->. { unfold DomainRule_new in Hnew. by res_inv. }
  destruct (Ha eq_refl); eauto.
Qed.

Lemma with_unix_narrowed s mode n p a n' :
  network_narrowed s mode n -> with_unix_socket n p a = Ok n' -> network_narrowed s mode n'.
Proof. intros (Hb & Hm & Hr) Hw. split; [by eapply nb_unix|]. unfold with_unix_socket in Hw. by res_inv. Qed.

Lemma with_ipc_narrowed s mode n e a n' :
  network_narrowed s mode n -> with_local_ipc n e a = Ok n' -> network_narrowed s mode n'.
Proof.
  intros (Hb & Hm & Hr) Hw. split; [by eapply nb_ipc|]. unfold with_local_ipc in Hw. res_inv. by destruct (unix_path e).
Qed.

Lemma narrow_network_narrowed policy s n :
  narrow_network policy s = Ok n ->
  exists mode, network_narrowed s mode n /\ (mode = DomEnabled -> {| endpoint := "network://enabled" |} ∈ Permissions.network s).
Proof.
  unfold narrow_network. cbv zeta.
  destruct (net_mode (Policy.network policy));
    [intros [= <-]; exists DomDisabled; by repeat split; try constructor; simpl; set_solver| |
     intros [= <-]; exists DomDisabled; by repeat split; try constructor; simpl; set_solver].
  intros Hn. eexists. split.
  - revert Hn. intros (n1 & H1 & Hn)%bind_Ok. apply bind_Ok in Hn as (n2 & H2 & H3).
    revert H3. apply (foldM_invariant _ (network_narrowed s _)).
    2: { intros x r y _ Hx Hy. destruct (_ || _) in Hy; [|by injection Hy as <-]. eapply with_ipc_narrowed; [done|by apply map_err_Ok in Hy]. }
    revert H2. apply (foldM_invariant _ (network_narrowed s _)).
    2: { intros x r y _ Hx Hy. destruct (_ || _) in Hy; [|by injection Hy as <-]. eapply with_unix_narrowed; [done|by apply map_err_Ok in Hy]. }
    revert H1. apply (foldM_invariant _ (network_narrowed s _)).
    2: { intros x r y _ Hx Hy. destruct (_ || _) eqn:E in Hy; [|by injection Hy as <-].
         eapply with_domain_narrowed; [|done|by apply map_err_Ok in Hy]. intros Ha. rewrite bool_decide_eq_false_2 in E by congruence.
         simpl in E. apply orb_true_iff in E as [E|E]; [left|right]; by apply network_approved_true. }
    split; [repeat constructor|]. split; [reflexivity|]. simpl. set_solver.
  - destruct (network_approved s "network://enabled") eqn:E; [intros _; by apply network_approved_true|].
    case_bool_decide; [done|]. by intros ?.
Qed.

(** An allowed host of a composed sandbox, seen from the requested policy *)
Lemma composed_allow next r e n domain host :
  compose next r = Ok (e, n) -> net_built (Policy.network (requested_policy r)) ->
  effective_decision_for_domain (es_network e) domain = Ok NetAllow -> normalize_domain domain = Ok host ->
  let net := Policy.network (requested_policy r) in
  net_mode net = NetEnabled /\
  (domain_mode net = DomEnabled \/ exists rule, rule ∈ domains net /\ rule_hits host rule /\ dr_access rule = DAllow).
Proof.
  intros (requested & outer & w & Hreq & _ & _ & _ & _ & -> & _)%compose_Ok Hb Hd Hh net.
  unfold effective_decision_for_domain, both_sides in Hd. simpl in Hd.
  apply bind_Ok in Hd as (d1 & Hd1%map_err_Ok & Hd). apply bind_Ok in Hd as (d2 & _ & Hd). injection Hd as Hd.
  assert (d1 = NetAllow) as -> by by destruct d1, d2.
  unfold sandbox_normalized in Hreq. apply bind_Ok in Hreq as (f' & _ & Hreq). apply bind_Ok in Hreq as (n' & Hn & Hreq).
  injection Hreq as <-. simpl in Hd1. rewrite (net_normalized_domain _ _ _ Hb Hn) in Hd1.
  apply (decision_for_domain_spec net domain host Hh) in Hd1 as [Hm Hd1]. split; [done|].
  destruct Hd1 as [[? _]|(_ & (rule & Hin & Hhit) & Hall)]; [by left|right; eauto].
Qed.

(** C6. An authorized launch connects to no host that was not approved: a host
    the authorized sandbox allows is matched by the pattern of an allow rule
    whose endpoint was approved, unless the open network was itself
    approved. *)
Theorem authorized_hosts_approved (policy : SandboxPolicy) (c : PathResolutionContext) (plan : PreflightPlan)
    (g : PermissionGrant) (clock : Z) (next n : N) (ap : AuthorizedPlan) (domain host : string) :
  plan_built policy c plan -> net_built (Policy.network policy) -> authorize plan g clock next = Ok (ap, n) ->
  normalize_domain domain = Ok host ->
  effective_decision_for_domain (es_network (auth_effective ap)) domain = Ok NetAllow ->
  host_approved policy (approved g) host.
Proof.
  intros ((next0 & r0 & n0 & Hcomp0 & Hr0) & (s & Hs & _ & Hnet) & Hnar)%plan_built_spec Hb Hauth Hh Hd.
  apply authorize_Ok in Hauth as (_ & _ & [[Hfull Heff]|(inputs & policy' & r & Hin & Hp & Hr & Hcomp)]).
  - rewrite Heff in Hd. destruct (permission_set_covers _ _ _ Hs) as (_ & _ & Hdom & Hopen).
    destruct (composed_allow _ _ _ _ _ host Hcomp0 ltac:(by rewrite Hr0) Hd Hh) as [Hm Hallow]. rewrite Hr0 in Hm, Hallow.
    unfold host_approved. rewrite Hfull, <- Hnet. destruct Hallow as [Hmode|(rule & Hin & Hhit & Ha)]; [left; auto|].
    right. exists (dr_pattern rule), rule. split_and!; [by apply Hdom|done|done|by left].
  - destruct (Hnar inputs Hin) as [Hpol Hctx]. rewrite Hpol, Hctx in Hp. unfold narrow_policy in Hp.
    apply bind_Ok in Hp as (f & _ & Hp). apply bind_Ok in Hp as (net & Hn & Hp). injection Hp as Hp.
    destruct (narrow_network_narrowed _ _ _ Hn) as (mode & (Hbn & Hmode & Hrules) & Hopen).
    destruct (composed_allow _ _ _ _ _ host Hcomp ltac:(by rewrite Hr, <- Hp) Hd Hh) as [Hm Hallow].
    rewrite Hr, <- Hp in Hm, Hallow. simpl in Hm, Hallow.
    destruct Hallow as [Hd'|(rule & Hrin & Hhit & Ha)]; [left; apply Hopen; congruence|].
    destruct (Hrules rule Hrin Ha) as [?|(pattern & Hpat & Hnew)]; [by left|]. right. exists pattern, rule. auto 10.
Qed.

(** * Escalation *)

Lemma compose_inputs_Ok next inputs policy e n :
  compose_inputs next inputs policy = Ok (e, n) ->
  exists r, compose next r = Ok (e, n) /\ requested_policy r = policy /\ ceiling r = ni_ceiling inputs.
Proof.
  unfold compose_inputs. cbv zeta. intros (r & Hr & He%map_err_Ok)%bind_Ok. exists r. split; [done|].
  destruct (ni_workspace_roots inputs); [|by injection Hr as <-].
  apply map_err_Ok in Hr. unfold request_with_workspace_roots in Hr. by res_inv.
Qed.

Lemma with_programs_keeps {A} (name : A -> string) l plan plan' policy c :
  foldM (fun plan x => with_process_program plan (name x)) plan l = Ok plan' -> plan_built policy c plan ->
  plan_built policy c plan' /\ plan_effective plan' = plan_effective plan.
Proof.
  intros Hf Hb. revert Hf.
  apply (foldM_invariant _ (fun q => plan_built policy c q /\ plan_effective q = plan_effective plan)); [done|].
  intros q x q' _ [Hq He] Hs. split; [by eapply built_with_program|]. unfold with_process_program in Hs. cbv zeta in Hs.
  apply bind_Ok in Hs as (process & _ & Hs). apply bind_Ok in Hs as (request & _ & Hs). by injection Hs as <-.
Qed.

Lemma expand_filesystem_no_deny policy extra l st st' :
  foldM (expand_filesystem policy extra) st l = Ok st' -> Forall (fun cap => operation cap <> OpDeny) l.
Proof.
  intros Hf. apply Forall_forall. intros cap Hin Hd. revert Hf.
  apply (foldM_establish (fun _ => False) _ cap); [done| |done]. intros [fs c] st1. unfold expand_filesystem. by rewrite Hd.
Qed.

(** C36. An escalation asks for exactly the capabilities of the running plan and
    the additional ones, never for a child process or a deny rule, and stays
    below the ceiling of the running plan: the plan it leads to is made of a
    policy whose composition below that same ceiling is the sandbox it launches,
    so that what its grant authorizes is bounded as for any other plan. *)
Theorem escalated_plan_bounded (plan : PreflightPlan) (extra : PermissionSet) (why : string) (next n : N)
    (e : PermissionEscalationPlan) :
  request_wf (plan_request plan) -> request_escalation plan extra why next = Ok (e, n) ->
  exists inputs policy c r, narrowing plan = Some inputs /\
    plan_built policy c (escalation_plan e) /\
    compose next r = Ok (plan_effective (escalation_plan e), n) /\ requested_policy r = policy /\
    ceiling r = ni_ceiling inputs /\
    (forall cap : Capability, cap ∈ capabilities (plan_request (escalation_plan e)) <->
       cap ∈ capabilities (plan_request plan) \/ cap ∈ extra) /\
    child_processes extra = [] /\ Forall (fun cap => operation cap <> OpDeny) (Permissions.filesystem extra).
Proof.
  intros Hwf He. unfold request_escalation in He. apply bind_Ok in He as (inputs & Hin%ok_or_Ok & He).
  destruct (bool_decide (child_processes extra <> [])) eqn:Hproc; [done|]. apply bool_decide_eq_false, dec_stable in Hproc.
  apply bind_Ok in He as ([policy c] & Hexp & He). apply bind_Ok in He as ([effective n'] & Hcomp & He).
  apply bind_Ok in He as (plan1 & Hplan & He). apply bind_Ok in He as (plan2 & Hprogs & He).
  apply bind_Ok in He as (request & Hreq%map_err_Ok & He). simpl in *.
  destruct (bool_decide _) eqn:Hsame in He; [done|]. apply bool_decide_eq_false, dec_stable in Hsame. injection He as <- <-. simpl.
  destruct (compose_inputs_Ok _ _ _ _ _ Hcomp) as (r & Hr & Hpol & Hceil).
  assert (plan_built policy c plan1) as Hb1 by by eapply built_from_policy.
  apply (with_programs_keeps cap_program _ _ _ policy c) in Hprogs as [Hb2 Heff]; [|done].
  exists inputs, policy, c, r. rewrite Heff, Hsame. split_and!; try done.
  - rewrite Hr. f_equal. f_equal. unfold from_policy_with_ceiling, from_policy in Hplan. res_inv. done.
  - by apply escalation_new_Ok in Hreq as (_ & _ & _ & ?).
  - unfold expanded_policy in Hexp. apply bind_Ok in Hexp as (st & Hst & _). by eapply expand_filesystem_no_deny.
Qed.

End safety.

(** * Examples *)

Section examples.
#[local] Existing Instance literal_globset.
#[local] Existing Instance ascii_unicode.
#[local] Existing Instance literal_wildmatch.
#[local] Existing Instance pad_sha256.
#[local] Existing Instance tool_serialize.
#[local] Instance plain_debug : DebugText := fun s => s.

Definition example_identity : PreflightIdentity :=
  {| pi_tool_id := "tool"; pi_tool_version := "1.0.0"; pi_manifest_digest := to_hex padding;
     pi_config_digest := to_hex padding; pi_platform := Linux; pi_architecture := "x86_64" |}.

Definition open_ceiling : PolicyCeiling := PolicyCeiling_new sandbox_full_access inherit_all.

(** A writable workspace with a read-only directory and one host *)
Definition docs_policy : SandboxPolicy :=
  {| Policy.filesystem := restricted [rule_new (at_path "/work") Write; rule_new (at_path "/work/docs") Read];
     Policy.network := unwrap_or net_disabled (with_domain (with_domain_mode net_enabled DomRestricted) "example.com" DAllow) |}.

Definition docs_request : CompositionRequest := CompositionRequest_new docs_policy inherit_core open_ceiling.

Definition docs_composition : EffectiveSandbox * N := unwrap_or (example_sandbox, 0%N) (compose 0 docs_request).
Definition docs_sandbox : EffectiveSandbox := docs_composition.1.

Definition docs_plan : PreflightPlan :=
  unwrap_or (preflight_new base_example docs_sandbox)
    (from_policy_with_ceiling docs_policy context_new docs_sandbox inherit_core open_ceiling example_identity).

Lemma unwrap_ok {E A} (x : A) (r : result E A) : is_ok r = true -> r = Ok (unwrap_or x r).
Proof. by destruct r. Qed.

Lemma docs_plan_built : plan_built docs_policy context_new docs_plan.
Proof.
  apply (built_from_policy docs_policy context_new 0 docs_request docs_sandbox docs_composition.2
           inherit_core open_ceiling example_identity); [|reflexivity|].
  - unfold docs_sandbox. rewrite <- surjective_pairing. apply unwrap_ok. vm_compute. reflexivity.
  - apply unwrap_ok. vm_compute. reflexivity.
Qed.

Definition write_work : FilesystemCapability := {| operation := OpWrite; cap_path := "/work" |}.
Definition read_docs : FilesystemCapability := {| operation := OpRead; cap_path := "/work/docs" |}.
Definition example_host : NetworkCapability := {| endpoint := "example.com" |}.

(** What an approval of some capabilities decides about a path *)
Definition access_with (approved : PermissionSet) (p : path) : option FilesystemDecision :=
  match approve_subset (plan_request docs_plan) approved 0 with
  | Err _ => None
  | Ok g =>
      match authorize docs_plan g 0 1 with
      | Err _ => None
      | Ok (ap, _) =>
          match path_context (auth_effective ap) context_new with
          | Err _ => None
          | Ok c => match effective_access_for_path (es_filesystem (auth_effective ap)) p c with Ok d => Some d | Err _ => None end
          end
      end
  end.

(** Leaving a capability out of a grant can widen what a launch may do: of a
    writable directory with a read-only one in it, the full grant leaves the
    inner directory read-only; a grant without the read capability drops the
    read rule, and the inner directory becomes writable. *)
Example partial_grant_widens :
  access_with (with_network (with_filesystem (with_filesystem set_new write_work) read_docs) example_host) "/work/docs/guide" = Some FRead /\
  access_with (with_network (with_filesystem set_new write_work) example_host) "/work/docs/guide" = Some FWrite.
Proof. split; vm_compute; reflexivity. Qed.

(** Grants and launches of the example *)
Definition docs_grant (approved : PermissionSet) : PermissionGrant :=
  unwrap_or (approve (plan_request docs_plan) 0) (approve_subset (plan_request docs_plan) approved 0).

Definition docs_authorized (g : PermissionGrant) : AuthorizedPlan * N :=
  unwrap_or ({| auth_effective := docs_sandbox; auth_grant := g; auth_context := None |}, 0%N) (authorize docs_plan g 0 1).

Definition docs_launch (ap : AuthorizedPlan) : EffectivePathContext :=
  unwrap_or example_context (path_context (auth_effective ap) context_new).

Definition narrow_grant : PermissionGrant := docs_grant (with_network (with_filesystem set_new write_work) example_host).
Definition narrow_launch : AuthorizedPlan * N := docs_authorized narrow_grant.

Lemma narrow_authorized : authorize docs_plan narrow_grant 0 1 = Ok (narrow_launch.1, narrow_launch.2).
Proof. rewrite <- surjective_pairing. apply unwrap_ok. vm_compute. reflexivity. Qed.

(** A plan for two workspace roots, approved in full and launched in one *)
Definition roots_policy : SandboxPolicy :=
  {| Policy.filesystem := restricted [rule_new selector_workspace_root Write]; Policy.network := net_disabled |}.

Definition rooted (roots : list path) : PathResolutionContext :=
  unwrap_or context_new (foldM with_workspace_root context_new roots).

Definition roots_request : CompositionRequest := CompositionRequest_new roots_policy inherit_core open_ceiling.
Definition roots_composition : EffectiveSandbox * N := unwrap_or (example_sandbox, 0%N) (compose 0 roots_request).

Definition roots_plan : PreflightPlan :=
  unwrap_or (preflight_new base_example roots_composition.1)
    (from_policy_with_ceiling roots_policy (rooted ["/work"; "/other"]) roots_composition.1 inherit_core open_ceiling example_identity).

Lemma roots_plan_built : plan_built roots_policy (rooted ["/work"; "/other"]) roots_plan.
Proof.
  apply (built_from_policy roots_policy (rooted ["/work"; "/other"]) 0 roots_request roots_composition.1 roots_composition.2
           inherit_core open_ceiling example_identity); [|reflexivity|].
  - rewrite <- surjective_pairing. apply unwrap_ok. vm_compute. reflexivity.
  - apply unwrap_ok. vm_compute. reflexivity.
Qed.

Definition roots_grant : PermissionGrant := approve (plan_request roots_plan) 0.

Definition roots_authorized : AuthorizedPlan * N :=
  unwrap_or ({| auth_effective := roots_composition.1; auth_grant := roots_grant; auth_context := None |}, 0%N)
    (authorize roots_plan roots_grant 0 1).

Definition roots_launch : EffectivePathContext :=
  unwrap_or example_context (path_context (auth_effective roots_authorized.1) (rooted ["/work"])).

Lemma roots_launch_resolves s : resolve s (context roots_launch) ⊆ resolve s (rooted ["/work"; "/other"]).
Proof.
  destruct s as [[p|relative| | | |]]; unfold resolve; cbn [ps_kind]; [done| |by vm_compute..].
  replace (workspace_roots (context roots_launch)) with ["/work"] by (vm_compute; reflexivity).
  replace (workspace_roots (rooted ["/work"; "/other"])) with ["/work"; "/other"] by (vm_compute; reflexivity).
  intros x Hx. apply list_elem_of_singleton in Hx as ->. apply list_elem_of_here.
Qed.

Lemma authorized_access_approved_witness :
  access_approved (approved narrow_grant) "/work/src/main.rs" FWrite /\
  access_approved (approved roots_grant) "/work/src/main.rs" FWrite.
Proof.
  split.
  - apply (authorized_access_approved docs_policy context_new docs_plan narrow_grant 0 1 narrow_launch.2 narrow_launch.1 (docs_launch narrow_launch.1)
             "/work/src/main.rs" FWrite docs_plan_built narrow_authorized); [|vm_compute; reflexivity].
    intros Hfull. vm_compute in Hfull. discriminate Hfull.
  - apply (authorized_access_approved roots_policy (rooted ["/work"; "/other"]) roots_plan roots_grant 0 1 roots_authorized.2
             roots_authorized.1 roots_launch "/work/src/main.rs" FWrite roots_plan_built);
      [rewrite <- surjective_pairing; apply unwrap_ok; vm_compute; reflexivity|intros _; exact roots_launch_resolves|vm_compute; reflexivity].
Defined.

Lemma authorized_hosts_approved_witness : host_approved docs_policy (approved narrow_grant) "example.com".
Proof.
  apply (authorized_hosts_approved docs_policy context_new docs_plan narrow_grant 0 1 narrow_launch.2 narrow_launch.1 "Example.com" "example.com"
           docs_plan_built); [|exact narrow_authorized|vm_compute; reflexivity|vm_compute; reflexivity].
  assert (with_domain (with_domain_mode net_enabled DomRestricted) "example.com" DAllow = Ok (Policy.network docs_policy)) as Hn
    by (apply unwrap_ok; vm_compute; reflexivity).
  apply (nb_domain _ _ _ _ (nb_domain_mode _ _ nb_enabled) Hn).
Defined.

Definition more_hosts : PermissionSet := with_network set_new {| endpoint := "docs.example.com" |}.

Definition docs_escalation : PermissionEscalationPlan * N :=
  unwrap_or ({| escalation_request := escalation_example; escalation_plan := docs_plan |}, 0%N)
    (request_escalation docs_plan more_hosts "fetch" 1).

Lemma escalated_plan_bounded_witness :
  CapNetwork {| endpoint := "docs.example.com" |} ∈ capabilities (plan_request (escalation_plan docs_escalation.1)).
Proof.
  assert (request_escalation docs_plan more_hosts "fetch" 1 = Ok (docs_escalation.1, docs_escalation.2)) as He
    by (rewrite <- surjective_pairing; apply unwrap_ok; vm_compute; reflexivity).
  destruct (escalated_plan_bounded docs_plan more_hosts "fetch" 1 docs_escalation.2 docs_escalation.1 ltac:(vm_compute; reflexivity) He)
    as (inputs & policy & c & r & _ & _ & _ & _ & _ & Hcaps & _).
  apply Hcaps. right. apply list_elem_of_here.
Defined.

End examples.
