(* ===== verification/LinuxHost.v ===== *)
(** [cageforge-linux]: the host a filesystem policy is lowered on, and the
    errors of the lowering.

    The calls of [std::fs] and the kernel are observations of an abstract host
    state: nothing is assumed of what they answer beyond the laws of
    [LinuxHostLaws].  The cross-process registry of synthetic mount targets
    ([filesystem/synthetic.rs]) is met through its interface: acquiring its
    lock, joining a target and creating one. *)

From Stdlib Require Import Ascii String NArith ZArith Lia.
From stdpp Require Import base option strings gmap pretty list.
From S2P Require Import Prelude Keyed Text BTree NativePath Access HostFs Backend.

(** * Errors *)

(** [std::io::Error]: [NotFound] is the kind the sources ask for. *)
Inductive IoError := NotFound | OtherIo (source : string).

#[global] Instance IoError_eq_dec : EqDecision IoError.
Proof. solve_decision. Defined.

Inductive FilesystemMetadataOperation := OpScope | OpMask | OpWritableSymlinkAncestor | OpDescendantMount.

Inductive FilesystemLoweringError :=
  | MetadataFailed (operation : FilesystemMetadataOperation) (source : IoError)
  | InvalidMountTarget
  | ReservedRuntimePath
  | GatewaySocketParentMissing
  | CanonicalizeFailed (source : IoError)
  | DenyCanonicalBind
  | DenyDescriptorBind
  | OpenExecutableSnapshot (source : IoError)
  | SourceContainsNul
  | OpenSource (source : IoError)
  | UnretainedMountDescriptor (descriptor : Z)
  | RootCannotBeMasked
  | WritableSymlink (symlink : path)
  | WritableSymlinkMount (symlink : path)
  | EmptyMaskSource (source : IoError).

(** The variants the lowering returns. *)
Inductive LinuxBackendError :=
  | Contract (source : BackendContractError)
  | LinuxUnsupportedCapability (capability : BackendCapability)
  | FilesystemLoweringFailed (p : path) (source : FilesystemLoweringError)
  | UnsafeGlobScan (pattern : string) (search_root : path)
  | GlobScanFailed (pattern : string) (p : path) (source : IoError)
  | GlobMatchLimitExceeded (pattern : string) (limit : N)
  | GlobScanEntryLimitExceeded (pattern : string) (limit : N)
  | PolicyLoweringMismatch (p : path)
  | SetupLockFailed (p : path) (source : IoError)
  | SetupLockTimeout (p : path) (timeout_ms : N)
  | UnsafeSetupLock (p : path)
  | SyntheticMountTargetFailed (p : path) (source : IoError)
  | SyntheticMountTargetChanged (p : path).

(** * The host *)

Inductive FileKind := KindDir | KindFile | KindSymlink | KindOther.

#[global] Instance FileKind_eq_dec : EqDecision FileKind.
Proof. solve_decision. Defined.

(** The part of [fs::Metadata] the sources read *)
Record Metadata := { md_kind : FileKind; md_dev : N; md_ino : N }.

#[global] Instance Metadata_eq_dec : EqDecision Metadata.
Proof. solve_decision. Defined.

Definition is_dir (m : Metadata) : bool := bool_decide (md_kind m = KindDir).
Definition is_file (m : Metadata) : bool := bool_decide (md_kind m = KindFile).
Definition is_symlink (m : Metadata) : bool := bool_decide (md_kind m = KindSymlink).

(** [fs::DirEntry]: its name, [file_type] and [metadata] *)
Record DirEntry := {
  de_name : string;
  de_file_type : result IoError FileKind;
  de_metadata : result IoError Metadata
}.

(** The calls the lowering makes.  [open_read] and [try_clone] return a new
    descriptor; the registry calls may change the host. *)
Class LinuxHost (H : Type) := {
  symlink_metadata : H -> path -> result IoError Metadata;
  fs_metadata : H -> path -> result IoError Metadata;
  canonicalize : H -> path -> result IoError path;
  read_dir : H -> path -> result IoError (list (result IoError DirEntry));
  read_to_string : H -> path -> result IoError string;
  effective_uid : H -> N;
  open_read : path -> H -> result IoError N * H;
  try_clone : N -> H -> result IoError N * H;
  setup_lock_acquire : H -> result LinuxBackendError unit * H;
  synthetic_join : path -> H -> result LinuxBackendError bool * H;
  synthetic_create : path -> H -> result LinuxBackendError unit * H
}.

(** The path a descriptor was opened on, for the descriptors that are open *)
Class HostDescriptors (H : Type) := { open_path : H -> N -> option path }.

(** What opening a file leaves alone: the open descriptors, and what paths
    resolve to *)
Definition settled {H} `{!LinuxHost H} `{!HostDescriptors H} (h h' : H) : Prop :=
  (forall fd q, open_path h fd = Some q -> open_path h' fd = Some q) /\
  forall q, canonicalize h' q = canonicalize h q.

(** [open] and [dup] return a descriptor that was not in use. *)
Class DescriptorLaws (H : Type) `{!LinuxHost H} `{!HostDescriptors H} : Prop := {
  open_read_opens p (h : H) fd h' : open_read p h = (Ok fd, h') -> open_path h' fd = Some p /\ settled h h';
  try_clone_settled g (h : H) fd h' : try_clone g h = (Ok fd, h') -> settled h h'
}.

(** * Effects *)

Definition hostM (H E A : Type) : Type := H -> result E A * H.

#[global] Instance hostM_ret {H E} : MRet (hostM H E) := fun _ a h => (Ok a, h).
#[global] Instance hostM_bind {H E} : MBind (hostM H E) := fun A B f m h =>
  match m h with (Ok a, h') => f a h' | (Err e, h') => (Err e, h') end.

Section effects.
Context {H E : Type}.

Definition hlift {A} (r : result E A) : hostM H E A := fun h => (r, h).
Definition observe {A} (f : H -> A) : hostM H E A := fun h => (Ok (f h), h).
Definition hfail {A} (e : E) : hostM H E A := fun h => (Err e, h).

Definition hmap_err {F A} (f : F -> E) (m : hostM H F A) : hostM H E A := fun h =>
  let '(r, h') := m h in (map_err f r, h').

(** A [for] loop over [l] that updates [acc] *)
Fixpoint hfold {A B} (f : A -> B -> hostM H E A) (acc : A) (l : list B) : hostM H E A :=
  match l with
  | [] => mret acc
  | x :: l' => acc ← f acc x; hfold f acc l'
  end.

Lemma hbind_Ok {A B} (m : hostM H E A) (f : A -> hostM H E B) h b h' :
  (x ← m; f x) h = (Ok b, h') <-> exists a h1, m h = (Ok a, h1) /\ f a h1 = (Ok b, h').
Proof.
  unfold mbind, hostM_bind. destruct (m h) as [[a|e] h1].
  - split; [eauto|]. by intros (a' & h1' & [= <- <-] & ?).
  - split; [done|]. by intros (? & ? & ? & _).
Qed.

(** A loop keeps what each iteration keeps. *)
Lemma hfold_inv {A B} (P : A -> H -> Prop) (f : A -> B -> hostM H E A) l acc h acc' h' :
  (forall a x h a' h', x ∈ l -> P a h -> f a x h = (Ok a', h') -> P a' h') ->
  P acc h -> hfold f acc l h = (Ok acc', h') -> P acc' h'.
Proof.
  revert acc h. induction l as [|x l IH]; intros acc h Hf HP; simpl; [by intros [= <- <-]|].
  intros (a & h1 & Hx & Hl)%hbind_Ok. eapply (IH a h1); [|eapply Hf; [|done..]; set_solver|done].
  intros a0 y h0 a1 h2 Hy. apply Hf. set_solver.
Qed.

End effects.

(** * Paths *)

(** The paths [current] takes while a loop over [path.components()] pushes one
    component after the other *)
Definition pushed (p : path) : list path :=
  (fun n => collect_path (take n (components p))) <$> seq 1 (length (components p)).

(** Paths order by their components, which order by kind and then by name. *)
Definition component_order (c : Component) : list N :=
  let name (s : string) := N_of_ascii <$> list_ascii_of_string s in
  match c with
  | Prefix s => 0%N :: name s | RootDir => [1%N] | CurDir => [2%N] | ParentDir => [3%N] | Normal s => 4%N :: name s
  end.

#[global] Instance ord_component : Ord Component := fun c d => cmp (component_order c) (component_order d).

#[global] Instance ord_component_laws : OrdLaws Component.
Proof. exact (pullback_laws component_order). Qed.

#[global] Instance ord_component_leibniz : OrdLeibniz Component.
Proof.
  intros c d Hcd. apply (cmp_eq (component_order c)) in Hcd.
  destruct c, d; simpl in Hcd; try discriminate; try done; injection Hcd as Hs; f_equal;
    apply (cmp_eq (K := string)); unfold cmp, ord_string; rewrite Hs; apply cmp_refl.
Qed.
