(* ===== verification/LinuxGlob.v ===== *)
(** [cageforge-linux/src/filesystem/glob.rs]: the scan that expands a deny-glob
    into the existing paths it matches, before the sandbox starts. *)

From Stdlib Require Import Ascii String NArith Lia.
From stdpp Require Import base option strings gmap list.
From S2P Require Import Prelude Keyed Text BTree NativePath Access Selector PathPattern FsPolicy Domain NetPolicy Policy Environment Command Compose HostFs Backend LinuxHost.

(** The bound [expand] puts on the paths of one pattern and on the entries it
    reads. *)
Definition MAX_GLOB_MATCHES : N := 8192.
Definition MAX_GLOB_SCAN_ENTRIES : N := 100000.

Definition DirectoryIdentity : Type := N * N.
Definition identity_of (m : Metadata) : DirectoryIdentity := (md_dev m, md_ino m).

(** [BTreeMap<PathBuf, bool>]: by the components of the path, with the spelling
    it was first inserted with *)
Definition Matches : Type := BTreeMap fs_path (path * bool).

(** The mutable state of [GlobScanner]; the vector of ancestors grows at its
    head here. *)
Record GlobScanner := {
  sc_matches : Matches;
  sc_entries : N;
  sc_ancestors : list DirectoryIdentity
}.

(** A computation with fuel: [None] is out of fuel. *)
Definition fueled (E A : Type) : Type := option (result E A).
#[global] Instance fueled_bind {E} : MBind (fueled E) := fun A B f m =>
  match m with Some (Ok a) => f a | Some (Err e) => Some (Err e) | None => None end.

Section glob.
Context {G : Globset} {H : Type} `{LinuxHost H}.
Context (h : H) (pattern : PathPattern) (context : EffectivePathContext) (max_depth : option N).

Definition scan_failed (p : path) (source : IoError) : LinuxBackendError := GlobScanFailed (raw pattern) p source.

(** [BTreeMap::insert] *)
Definition matches_set (p : path) (direct : bool) (ms : Matches) : Matches :=
  let spelling := match bt_get (components p) ms with Some (q, _) => q | None => p end in
  bt_insert (components p) (spelling, direct) ms.

(** [BTreeMap::entry(..).or_insert(..)] *)
Definition matches_or_insert (p : path) (direct : bool) (ms : Matches) : Matches :=
  match bt_get (components p) ms with Some _ => ms | None => bt_insert (components p) (p, direct) ms end.

Definition insert_match (p : path) (ms : Matches) : result LinuxBackendError Matches :=
  let ms := matches_set p true ms in
  canonical ← map_err (scan_failed p) (canonicalize h p);
  let ms := matches_or_insert canonical false ms in
  reject (MAX_GLOB_MATCHES <? N.of_nat (length ms))%N with GlobMatchLimitExceeded (raw pattern) MAX_GLOB_MATCHES ;;
  Ok ms.

Definition pattern_matches_at_depth (p : path) (depth : N) : bool :=
  match max_depth with Some maximum => (depth <=? maximum)%N | None => true end
  && context_pattern_matches context pattern p.

(** [max_depth.is_some_and(|maximum| depth >= maximum)] *)
Definition at_max_depth (depth : N) : bool :=
  match max_depth with Some maximum => (maximum <=? depth)%N | None => false end.

Definition set_matches (st : GlobScanner) (ms : Matches) : GlobScanner :=
  {| sc_matches := ms; sc_entries := sc_entries st; sc_ancestors := sc_ancestors st |}.
Definition set_entries (st : GlobScanner) (n : N) : GlobScanner :=
  {| sc_matches := sc_matches st; sc_entries := n; sc_ancestors := sc_ancestors st |}.
Definition set_ancestors (st : GlobScanner) (l : list DirectoryIdentity) : GlobScanner :=
  {| sc_matches := sc_matches st; sc_entries := sc_entries st; sc_ancestors := l |}.

(** The metadata by which an entry is entered: a link is followed, and a link
    to nothing is skipped. *)
Definition entry_metadata (child : path) (e : DirEntry) (file_type : FileKind) :
  result LinuxBackendError (option Metadata) :=
  if bool_decide (file_type = KindSymlink)
  then match fs_metadata h child with
       | Ok m => Ok (Some m)
       | Err NotFound => Ok None
       | Err source => Err (scan_failed child source)
       end
  else m ← map_err (scan_failed child) (de_metadata e); Ok (Some m).

(** One iteration of the loop over [read_dir], up to the recursive call: the
    directory to enter, if the entry is one *)
Definition scan_entry (p : path) (entry : result IoError DirEntry) (st : GlobScanner) :
  result LinuxBackendError (GlobScanner * option (path * Metadata)) :=
  let st := set_entries st (sc_entries st + 1) in
  reject (MAX_GLOB_SCAN_ENTRIES <? sc_entries st)%N
    with GlobScanEntryLimitExceeded (raw pattern) MAX_GLOB_SCAN_ENTRIES ;;
  e ← map_err (scan_failed p) entry;
  let child := path_join p (de_name e) in
  file_type ← map_err (scan_failed child) (de_file_type e);
  ms ← if context_pattern_matches context pattern child then insert_match child (sc_matches st)
       else Ok (sc_matches st);
  metadata ← entry_metadata child e file_type;
  Ok (set_matches st ms,
      match metadata with Some m => if is_dir m then Some (child, m) else None | None => None end).

Fixpoint scan_entries (enter : path -> Metadata -> GlobScanner -> fueled LinuxBackendError GlobScanner)
    (p : path) (entries : list (result IoError DirEntry)) (st : GlobScanner) : fueled LinuxBackendError GlobScanner :=
  match entries with
  | [] => Some (Ok st)
  | entry :: rest =>
      next ← Some (scan_entry p entry st);
      st ← match next with
           | (st, Some (child, m)) => enter child m st
           | (st, None) => Some (Ok st)
           end;
      scan_entries enter p rest st
  end.

(** [GlobScanner::collect] *)
Fixpoint scan_collect (fuel : nat) (p : path) (m : Metadata) (depth : N) (st : GlobScanner) :
  fueled LinuxBackendError GlobScanner :=
  match fuel with
  | 0 => None
  | S fuel =>
      ms ← Some (if pattern_matches_at_depth p depth then insert_match p (sc_matches st) else Ok (sc_matches st));
      let st := set_matches st ms in
      if negb (is_dir m) || at_max_depth depth then Some (Ok st)
      else if bool_decide (identity_of m ∈ sc_ancestors st) then Some (Ok st)
      else
        let st := set_ancestors st (identity_of m :: sc_ancestors st) in
        entries ← Some (map_err (scan_failed p) (read_dir h p));
        st ← scan_entries (fun child m => scan_collect fuel child m (depth + 1)) p entries st;
        Some (Ok (set_ancestors st (tail (sc_ancestors st))))
  end.

(** Every nested call follows an entry that was counted. *)
Definition scan_fuel : nat := N.to_nat (MAX_GLOB_SCAN_ENTRIES + 2).

Definition scan_root (st : GlobScanner) (root : path) : fueled LinuxBackendError GlobScanner :=
  if bool_decide (root = "") || negb (is_absolute root) || path_eqb root "/"
  then Some (Err (UnsafeGlobScan (raw pattern) root))
  else match fs_metadata h root with
       | Ok m => scan_collect scan_fuel root m 0 st
       | Err NotFound => Some (Ok st)
       | Err source => Some (Err (scan_failed root source))
       end.

Fixpoint scan_roots (st : GlobScanner) (roots : list path) : fueled LinuxBackendError GlobScanner :=
  match roots with
  | [] => Some (Ok st)
  | root :: rest => st ← scan_root st root; scan_roots st rest
  end.

Definition expand : fueled LinuxBackendError Matches :=
  st ← scan_roots {| sc_matches := []; sc_entries := 0; sc_ancestors := [] |} (glob_search_roots context pattern);
  Some (Ok (sc_matches st)).

(** * Termination *)

Lemma scan_entry_Ok p entry st st' next :
  scan_entry p entry st = Ok (st', next) ->
  sc_entries st' = (sc_entries st + 1)%N /\ (sc_entries st' <= MAX_GLOB_SCAN_ENTRIES)%N /\
  sc_ancestors st' = sc_ancestors st.
Proof. unfold scan_entry. intros Hs. res_inv. simpl in *. split_and!; [done| |done]. by apply N.ltb_ge. Qed.

(** What a scan that ends well leaves: as many entries or more, and the same
    ancestors. *)
Definition scan_advances (st : GlobScanner) (r : fueled LinuxBackendError GlobScanner) : Prop :=
  match r with
  | Some (Ok st') => (sc_entries st <= sc_entries st' <= MAX_GLOB_SCAN_ENTRIES)%N /\ sc_ancestors st' = sc_ancestors st
  | Some (Err _) => True
  | None => False
  end.

Lemma scan_entries_advances enter p entries st :
  (forall child m st', (sc_entries st < sc_entries st' <= MAX_GLOB_SCAN_ENTRIES)%N ->
     scan_advances st' (enter child m st')) ->
  (sc_entries st <= MAX_GLOB_SCAN_ENTRIES)%N -> scan_advances st (scan_entries enter p entries st).
Proof.
  revert st. induction entries as [|entry rest IH]; intros st Henter Hst; simpl; [done|].
  destruct (scan_entry p entry st) as [[st1 next]|e] eqn:E; simpl; [|done].
  apply scan_entry_Ok in E as (E1 & E2 & E3).
  assert (scan_advances st1 match next with Some (child, m) => enter child m st1 | None => Some (Ok st1) end) as Hst1.
  { destruct next as [[child m]|]; [apply Henter; lia|simpl; split; [lia|done]]. }
  assert (forall st2, (sc_entries st1 <= sc_entries st2 <= MAX_GLOB_SCAN_ENTRIES)%N /\ sc_ancestors st2 = sc_ancestors st1 ->
    scan_advances st (scan_entries enter p rest st2)) as Hrest.
  { intros st2 [H1 H2]. specialize (IH st2). destruct (scan_entries enter p rest st2) as [[st3|]|]; simpl in *; [|done|].
    - destruct IH as [? ?]; [intros; apply Henter; lia|lia|]. split; [lia|congruence].
    - apply IH; [intros; apply Henter; lia|lia]. }
  destruct next as [[child m]|]; simpl in *.
  - destruct (enter child m st1) as [[st2|]|]; simpl in *; auto.
  - by apply Hrest.
Qed.

Lemma scan_collect_advances fuel p m depth st :
  (MAX_GLOB_SCAN_ENTRIES + 1 <= N.of_nat fuel + sc_entries st)%N -> (sc_entries st <= MAX_GLOB_SCAN_ENTRIES)%N ->
  scan_advances st (scan_collect fuel p m depth st).
Proof.
  revert p m depth st. induction fuel as [|fuel IH]; intros p m depth st Hf Hst; [lia|]. simpl.
  set (step := if pattern_matches_at_depth p depth then _ else _). destruct step as [ms|e]; simpl; [|done].
  destruct (negb (is_dir m) || at_max_depth depth); [simpl; split; [lia|done]|].
  case_bool_decide as Ha; [simpl; split; [lia|done]|].
  destruct (read_dir h p) as [entries|e]; simpl; [|done].
  set (st1 := set_ancestors _ _).
  pose proof (scan_entries_advances (fun child m => scan_collect fuel child m (depth + 1)%N) p entries st1) as Hs.
  destruct (scan_entries _ p entries st1) as [[st2|]|]; simpl in *.
  - destruct Hs as [? Hs]; [intros; apply IH; lia|lia|]. split; [lia|]. by rewrite Hs.
  - done.
  - apply Hs; [intros; apply IH; lia|lia].
Qed.

(** * What a scan finds *)

Definition matched (q : path) : Prop := context_pattern_matches context pattern q = true.

Definition direct (ms : Matches) (k : fs_path) : Prop := exists q, bt_get k ms = Some (q, true).
Definition known (ms : Matches) (k : fs_path) : Prop := is_Some (bt_get k ms).

(** A directory is entered unless it is too deep or one of its own ancestors. *)
Definition enters (ancestors : list DirectoryIdentity) (m : Metadata) (depth : N) : Prop :=
  is_dir m = true /\ at_max_depth depth = false /\ identity_of m ∉ ancestors.

(** An entry of a listing, with the metadata it is entered by *)
Definition listed_in (entries : list (result IoError DirEntry)) (p child : path) (next : option Metadata) : Prop :=
  exists e file_type, Ok e ∈ entries /\ child = path_join p (de_name e) /\ de_file_type e = Ok file_type /\
    entry_metadata child e file_type = Ok next.

Definition listed (p child : path) (next : option Metadata) : Prop :=
  exists entries, read_dir h p = Ok entries /\ listed_in entries p child next.

(** [below ancestors p m depth q]: a walk that has come to [p] finds [q]. *)
Inductive below : list DirectoryIdentity -> path -> Metadata -> N -> path -> Prop :=
  | below_here ancestors p m depth : below ancestors p m depth p
  | below_entry ancestors p m depth child next :
      enters ancestors m depth -> listed p child next -> below ancestors p m depth child
  | below_enter ancestors p m depth child m' q :
      enters ancestors m depth -> listed p child (Some m') -> is_dir m' = true ->
      below (identity_of m :: ancestors) child m' (depth + 1) q -> below ancestors p m depth q.

(** What a walk from the search roots finds *)
Definition found (q : path) : Prop :=
  exists root m, root ∈ glob_search_roots context pattern /\ fs_metadata h root = Ok m /\ below [] root m 0 q.

(** A scan that finds [F] adds the matching paths of [F] and what they resolve
    to. *)
Definition scan_adds (F : path -> Prop) (ms ms' : Matches) : Prop :=
  (forall k, direct ms' k <-> direct ms k \/ exists q, F q /\ matched q /\ components q = k) /\
  (forall k, known ms' k <-> known ms k \/ exists q, F q /\ matched q /\
     (components q = k \/ exists c, canonicalize h q = Ok c /\ components c = k)).

Lemma scan_adds_nothing (F : path -> Prop) ms : (forall q, F q -> ~ matched q) -> scan_adds F ms ms.
Proof. intros HF. split; intros k; naive_solver. Qed.

Lemma scan_adds_ext (F F' : path -> Prop) ms ms' :
  (forall q, F q <-> F' q) -> scan_adds F ms ms' -> scan_adds F' ms ms'.
Proof. intros HF [H1 H2]. split; intros k; [rewrite H1|rewrite H2]; setoid_rewrite HF; done. Qed.

Lemma scan_adds_trans (F F' : path -> Prop) ms ms1 ms2 :
  scan_adds F ms ms1 -> scan_adds F' ms1 ms2 -> scan_adds (fun q => F q \/ F' q) ms ms2.
Proof.
  intros [H1 H2] [H1' H2']. split; intros k; [rewrite H1', H1|rewrite H2', H2]; naive_solver.
Qed.

Lemma bt_get_insert_iff {A} (k j : fs_path) (v w : A) ms :
  bt_get k (bt_insert j v ms) = Some w <-> k = j /\ v = w \/ k <> j /\ bt_get k ms = Some w.
Proof.
  destruct (decide (k = j)) as [->|Hk]; [rewrite bt_get_insert; naive_solver|].
  rewrite bt_get_insert_ne by (by rewrite cmp_Eq_iff). naive_solver.
Qed.

Lemma direct_set p ms k : direct (matches_set p true ms) k <-> direct ms k \/ components p = k.
Proof.
  unfold direct, matches_set. setoid_rewrite bt_get_insert_iff. split; [naive_solver|].
  destruct (decide (k = components p)) as [->|Hk]; [eauto 10|naive_solver].
Qed.

Lemma known_set p ms k : known (matches_set p true ms) k <-> known ms k \/ components p = k.
Proof.
  unfold known, is_Some, matches_set. setoid_rewrite bt_get_insert_iff. split; [naive_solver|].
  destruct (decide (k = components p)) as [->|Hk]; [eauto 10|naive_solver].
Qed.

Lemma direct_or_insert p ms k : direct (matches_or_insert p false ms) k <-> direct ms k.
Proof.
  unfold direct, matches_or_insert. destruct (bt_get (components p) ms) eqn:E; [done|].
  setoid_rewrite bt_get_insert_iff. split; [naive_solver|]. intros [q Hq]. exists q. right. split; congruence.
Qed.

Lemma known_or_insert p ms k : known (matches_or_insert p false ms) k <-> known ms k \/ components p = k.
Proof.
  unfold known, is_Some, matches_or_insert. destruct (bt_get (components p) ms) eqn:E.
  - split; [by left|]. intros [?|<-]; [done|eauto].
  - setoid_rewrite bt_get_insert_iff. split; [naive_solver|].
    destruct (decide (k = components p)) as [->|Hk]; [eauto 10|naive_solver].
Qed.

Lemma insert_match_adds p ms ms' :
  insert_match p ms = Ok ms' -> matched p -> scan_adds (eq p) ms ms'.
Proof.
  unfold insert_match. intros Hi Hm. res_inv. match goal with H : canonicalize h p = Ok ?c |- _ => rename c into canonical end.
  split; intros k.
  - rewrite direct_or_insert, direct_set. naive_solver.
  - rewrite known_or_insert, known_set. split; [naive_solver|].
    intros [?|(q & <- & _ & [?|(c & ? & ?)])]; [eauto..|]. right. congruence.
Qed.

(** The match step of both loops *)
Lemma match_step_adds p (b : bool) ms ms' :
  (b = true <-> matched p) -> (if b then insert_match p ms else Ok ms) = Ok ms' -> scan_adds (eq p) ms ms'.
Proof.
  intros Hb. destruct b; [intros Hi; apply insert_match_adds; [done|by apply Hb]|].
  intros [= <-]. apply scan_adds_nothing. intros q <- Hm. by apply Hb in Hm.
Qed.

Lemma scan_entry_adds p entry st st' next :
  scan_entry p entry st = Ok (st', next) ->
  exists e file_type metadata, entry = Ok e /\ de_file_type e = Ok file_type /\
    let child := path_join p (de_name e) in
    entry_metadata child e file_type = Ok metadata /\
    next = match metadata with Some m => if is_dir m then Some (child, m) else None | None => None end /\
    scan_adds (eq child) (sc_matches st) (sc_matches st').
Proof.
  unfold scan_entry. intros Hs. res_inv. eexists _, _, _. cbv zeta. split_and!; [done|done|eassumption|done|].
  simpl. by eapply match_step_adds; [|eassumption].
Qed.

Lemma scan_entries_adds enter (B : path -> Metadata -> path -> Prop) p entries st st' :
  (forall child m st st', enter child m st = Some (Ok st') ->
     sc_ancestors st' = sc_ancestors st) ->
  (forall child m st1 st2, sc_ancestors st1 = sc_ancestors st -> enter child m st1 = Some (Ok st2) ->
     scan_adds (B child m) (sc_matches st1) (sc_matches st2)) ->
  scan_entries enter p entries st = Some (Ok st') ->
  scan_adds (fun q => exists child next, listed_in entries p child next /\
    (q = child \/ exists m, next = Some m /\ is_dir m = true /\ B child m q)) (sc_matches st) (sc_matches st').
Proof.
  intros Hanc. revert st. induction entries as [|entry rest IH]; intros st Henter; simpl.
  { intros [= <-]. apply scan_adds_nothing. intros q (child & next & (e & ft & He & _) & _). set_solver. }
  destruct (scan_entry p entry st) as [[st1 next]|e] eqn:E; simpl; [|done].
  pose proof E as (_ & _ & Hanc1)%scan_entry_Ok.
  apply scan_entry_adds in E as (e & ft & md & -> & Hft & Hmd & -> & Hadds). cbv zeta in *.
  set (child := path_join p (de_name e)) in *. intros Hrest.
  assert (exists st2, sc_ancestors st2 = sc_ancestors st /\ scan_entries enter p rest st2 = Some (Ok st') /\
    scan_adds (fun q => exists m, md = Some m /\ is_dir m = true /\ B child m q) (sc_matches st1) (sc_matches st2))
    as (st2 & Ha2 & Hrest2 & Hadds2).
  { destruct md as [m|]; [destruct (is_dir m) eqn:Hd|].
    - destruct (enter child m st1) as [[st2|]|] eqn:He; try done. exists st2. split_and!; [|done|].
      + rewrite (Hanc _ _ _ _ He). done.
      + eapply scan_adds_ext, Henter; [|done..]. naive_solver.
    - exists st1. split_and!; [done..|]. apply scan_adds_nothing. intros q (m' & [= <-] & Hd' & _). congruence.
    - exists st1. split_and!; [done..|]. apply scan_adds_nothing. by intros q (m' & ? & _). }
  specialize (IH st2 ltac:(by rewrite Ha2) Hrest2).
  eapply scan_adds_ext, scan_adds_trans, IH; [|eapply scan_adds_trans; [exact Hadds|exact Hadds2]].
  intros q. unfold listed_in. setoid_rewrite elem_of_cons. split.
  - intros [[<-|Hm]|(c & n & (e' & ft' & ? & ?) & Hq)].
    + exists child, md. split; [|by left]. exists e, ft. split_and!; auto.
    + exists child, md. split; [|by right]. exists e, ft. split_and!; auto.
    + exists c, n. split; [|done]. exists e', ft'. naive_solver.
  - intros (c & n & (e' & ft' & [[= ->]|He] & -> & Hft' & Hmd') & Hq).
    + rewrite Hft in Hft'. injection Hft' as <-. fold child in Hmd', Hq. rewrite Hmd in Hmd'. injection Hmd' as <-.
      left. destruct Hq as [->|Hq]; [by left|by right].
    + right. exists (path_join p (de_name e')), n. split; [|done]. exists e', ft'. split_and!; auto.
Qed.

Definition depth_ok (depth : N) : Prop := match max_depth with Some maximum => (depth <= maximum)%N | None => True end.

Lemma at_depth_matched p depth : depth_ok depth -> pattern_matches_at_depth p depth = true <-> matched p.
Proof.
  unfold depth_ok, pattern_matches_at_depth, matched. destruct max_depth as [n|]; [|done].
  intros Hd%N.leb_le. by rewrite Hd.
Qed.

Lemma depth_ok_next depth : at_max_depth depth = false -> depth_ok (depth + 1).
Proof. unfold at_max_depth, depth_ok. destruct max_depth; [|done]. intros Hd%N.leb_gt. lia. Qed.

Lemma scan_collect_ancestors fuel p m depth st st' :
  scan_collect fuel p m depth st = Some (Ok st') -> sc_ancestors st' = sc_ancestors st.
Proof.
  revert p m depth st st'. induction fuel as [|fuel IH]; intros p m depth st st'; [done|]. simpl.
  set (step := if pattern_matches_at_depth p depth then _ else _). destruct step as [ms|e]; simpl; [|done].
  destruct (negb (is_dir m) || at_max_depth depth); [by intros [= <-]|].
  case_bool_decide; [by intros [= <-]|]. destruct (read_dir h p) as [entries|e]; simpl; [|done].
  set (st1 := set_ancestors _ _). assert (sc_ancestors st1 = identity_of m :: sc_ancestors st) as Hst1 by done.
  clearbody st1. enough (forall st2, scan_entries (fun child m => scan_collect fuel child m (depth + 1)%N) p entries st1
    = Some (Ok st2) -> sc_ancestors st2 = sc_ancestors st1) as Hs.
  { destruct (scan_entries _ p entries st1) as [[st2|]|]; try done. intros [= <-]. simpl. by rewrite (Hs st2), Hst1. }
  clear Hst1. revert st1. induction entries as [|entry rest IHe]; intros st1 st2; simpl; [by intros [= <-]|].
  destruct (scan_entry p entry st1) as [[st3 next]|e] eqn:E; simpl; [|done].
  apply scan_entry_Ok in E as (_ & _ & <-). destruct next as [[child m']|]; simpl; [|apply IHe].
  destruct (scan_collect fuel child m' (depth + 1) st3) as [[st4|]|] eqn:E; simpl; try done.
  rewrite <- (IH _ _ _ _ _ E). apply IHe.
Qed.

Lemma scan_collect_adds fuel p m depth st st' :
  depth_ok depth -> scan_collect fuel p m depth st = Some (Ok st') ->
  scan_adds (below (sc_ancestors st) p m depth) (sc_matches st) (sc_matches st').
Proof.
  revert p m depth st st'. induction fuel as [|fuel IH]; intros p m depth st st' Hd; [done|]. simpl.
  set (step := if pattern_matches_at_depth p depth then _ else _). destruct step as [ms|e] eqn:Hstep; simpl; [|done].
  apply match_step_adds in Hstep; [|by apply at_depth_matched].
  assert (~ enters (sc_ancestors st) m depth ->
    scan_adds (below (sc_ancestors st) p m depth) (sc_matches st) ms) as Hstop.
  { intros Hn. eapply scan_adds_ext; [|exact Hstep]. intros q. split; [intros <-; constructor|].
    by inversion 1; subst. }
  destruct (negb (is_dir m) || at_max_depth depth) eqn:Hdir.
  { intros [= <-]. apply Hstop. intros (H1 & H2 & _). by rewrite H1, H2 in Hdir. }
  apply orb_false_iff in Hdir as [Hdir%negb_false_iff Hmax].
  case_bool_decide as Ha; [intros [= <-]; apply Hstop; by intros (_ & _ & ?)|].
  assert (enters (sc_ancestors st) m depth) as Hent by done.
  destruct (read_dir h p) as [entries|e] eqn:Hr; simpl; [|done].
  destruct (scan_entries _ _ _ _) as [[st2|]|] eqn:Hs; simpl; try done. intros [= <-]. simpl.
  eapply (scan_entries_adds _ (fun child m' => below (identity_of m :: sc_ancestors st) child m' (depth + 1))) in Hs.
  - simpl in Hs. eapply scan_adds_ext, scan_adds_trans, Hs; [|exact Hstep]. intros q. split.
    + intros [<-|(child & next & Hl & [->|(m' & -> & Hm' & Hb)])]; [constructor|..].
      * eapply below_entry; [done|]. by exists entries.
      * eapply below_enter; [done| |done|done]. by exists entries.
    + inversion 1 as [|? ? ? ? ? next _ (es & Hes & Hl)|? ? ? ? child m' ? _ (es & Hes & Hl) Hm' Hb]; subst; [by left|..];
        rewrite Hr in Hes; injection Hes as <-; right; eauto 10.
  - intros child m' st1 st3. apply scan_collect_ancestors.
  - intros child m' st1 st3 Hst1 Hc. simpl in Hst1. rewrite <- Hst1. eapply IH; [by apply depth_ok_next|exact Hc].
Qed.

(** What every insertion keeps, a scan keeps. *)
Lemma scan_entry_keeps (P : Matches -> Prop) p entry st st' next :
  (forall q ms ms', P ms -> insert_match q ms = Ok ms' -> P ms') ->
  scan_entry p entry st = Ok (st', next) -> P (sc_matches st) -> P (sc_matches st').
Proof.
  intros HP. unfold scan_entry. intros Hs Hst. res_inv. simpl in *.
  match goal with H : (if ?b then _ else _) = Ok _ |- _ => destruct b; [by eapply HP|by injection H as <-] end.
Qed.

Lemma scan_collect_keeps (P : Matches -> Prop) fuel p m depth st st' :
  (forall q ms ms', P ms -> insert_match q ms = Ok ms' -> P ms') ->
  scan_collect fuel p m depth st = Some (Ok st') -> P (sc_matches st) -> P (sc_matches st').
Proof.
  intros HP. revert p m depth st st'. induction fuel as [|fuel IH]; intros p m depth st st'; [done|]. simpl.
  set (step := if pattern_matches_at_depth p depth then _ else _). destruct step as [ms|e] eqn:E; simpl; [|done].
  intros Hc Hst. assert (P ms) as Hms.
  { unfold step in E. destruct (pattern_matches_at_depth p depth); [by eapply HP|by injection E as <-]. }
  revert Hc. destruct (negb (is_dir m) || at_max_depth depth); [by intros [= <-]|].
  case_bool_decide; [by intros [= <-]|]. destruct (read_dir h p) as [entries|e]; simpl; [|done].
  destruct (scan_entries _ _ _ _) as [[st2|]|] eqn:Hs; simpl; try done. intros [= <-]. simpl.
  remember (set_ancestors _ _) as st1 eqn:Hst1. assert (P (sc_matches st1)) as Hm1 by (by subst).
  clear Hst1. revert st1 Hs Hm1. induction entries as [|entry rest IHe]; intros st1; simpl; [by intros [= <-]|].
  destruct (scan_entry p entry st1) as [[st3 next]|e] eqn:E3; simpl; [|done].
  intros Hs Hm1. apply (scan_entry_keeps P) in E3; [|done|done].
  destruct next as [[child m']|]; simpl in Hs; [|by eapply IHe].
  destruct (scan_collect fuel child m' (depth + 1) st3) as [[st4|]|] eqn:E4; simpl in Hs; try done.
  eapply IHe; [exact Hs|]. by eapply IH.
Qed.

Lemma insert_match_bound q ms ms' : insert_match q ms = Ok ms' -> (N.of_nat (length ms') <= MAX_GLOB_MATCHES)%N.
Proof. unfold insert_match. intros Hi. res_inv. by apply N.ltb_ge. Qed.

(** What every insertion keeps *)
Definition insertions_keep (P : Matches -> Prop) : Prop :=
  forall q ms ms', P ms -> insert_match q ms = Ok ms' -> P ms'.

(** The roots one after the other *)
Definition found_from (roots : list path) (q : path) : Prop :=
  exists root m, root ∈ roots /\ fs_metadata h root = Ok m /\ below [] root m 0 q.

Lemma scan_roots_spec roots st :
  sc_ancestors st = [] -> (sc_entries st <= MAX_GLOB_SCAN_ENTRIES)%N ->
  exists r, scan_roots st roots = Some r /\
    forall st', r = Ok st' -> scan_adds (found_from roots) (sc_matches st) (sc_matches st') /\
      forall P, insertions_keep P -> P (sc_matches st) -> P (sc_matches st').
Proof.
  revert st. induction roots as [|root roots IH]; intros st Ha Hn; simpl.
  { eexists. split; [done|]. intros st' [= <-]. split; [|done]. apply scan_adds_nothing.
    intros q (r & m & Hr & _). set_solver. }
  assert (forall q, found_from (root :: roots) q <->
    (exists m, fs_metadata h root = Ok m /\ below [] root m 0 q) \/ found_from roots q) as Hfound.
  { intros q. unfold found_from. setoid_rewrite elem_of_cons. naive_solver. }
  assert (exists r, scan_root st root = Some r /\ forall st1, r = Ok st1 ->
    sc_ancestors st1 = [] /\ (sc_entries st1 <= MAX_GLOB_SCAN_ENTRIES)%N /\
    scan_adds (fun q => exists m, fs_metadata h root = Ok m /\ below [] root m 0 q) (sc_matches st) (sc_matches st1) /\
    forall P, insertions_keep P -> P (sc_matches st) -> P (sc_matches st1)) as (r & Hr & Hst1).
  { unfold scan_root. assert (MAX_GLOB_SCAN_ENTRIES + 2 = N.of_nat scan_fuel)%N as Hfuel
      by (unfold scan_fuel; by rewrite N2Nat.id).
    generalize dependent scan_fuel. intros fuel Hfuel.
    destruct (_ || _); [eexists; split; [done|]; by intros st1|].
    destruct (fs_metadata h root) as [m|[|source]] eqn:Hm.
    - pose proof (scan_collect_advances fuel root m 0 st) as Hadv.
      destruct (scan_collect fuel root m 0 st) as [[st1|e]|] eqn:Hc; simpl in Hadv.
      + eexists. split; [done|]. intros st2 [= <-]. destruct Hadv as [? Hanc]; [lia|done|].
        split_and!; [by rewrite Hanc|lia| |].
        * eapply scan_adds_ext; [|eapply scan_collect_adds; [|exact Hc]].
          -- intros q. rewrite Ha. naive_solver.
          -- unfold depth_ok. destruct max_depth; [lia|done].
        * intros P HP. by apply (scan_collect_keeps P fuel root m 0).
      + eexists. split; [done|]. by intros st1.
      + destruct Hadv; [lia|done].
    - eexists. split; [done|]. intros st1 [= <-]. split_and!; [done|done| |done].
      apply scan_adds_nothing. by intros q (m & ? & _).
    - eexists. split; [done|]. by intros st1. }
  rewrite Hr. destruct r as [st1|e]; simpl; [|eexists; split; [done|]; by intros st1].
  destruct (Hst1 st1 eq_refl) as (Ha1 & Hn1 & Hadds & Hb). destruct (IH st1 Ha1 Hn1) as (r & -> & Hrest).
  eexists. split; [done|]. intros st' ->. destruct (Hrest st' eq_refl) as [Hadds' Hb']. split; [|intros P HP Hst; apply (Hb' P HP); by apply (Hb P HP)].
  eapply scan_adds_ext, scan_adds_trans, Hadds'; [|exact Hadds]. intros q. symmetry. apply Hfound.
Qed.

Lemma bt_insert_elem_iff {A} (e : fs_path * A) k v ms : e ∈ bt_insert k v ms -> e = (k, v) \/ e ∈ ms.
Proof. destruct e as [j w]. intros [[Hw Hj%cmp_eq]|?]%bt_insert_elem; [left; simpl in *; congruence|by right]. Qed.

(** Entries are filed under the components of their path. *)
Definition filed (ms : Matches) : Prop := forall k q d, (k, (q, d)) ∈ ms -> components q = k.

Lemma insert_match_filed : insertions_keep filed.
Proof.
  intros q ms ms' Hms. unfold insert_match. intros Hi. res_inv.
  match goal with Hc : canonicalize h q = Ok ?c |- _ => rename c into canonical; clear Hc end.
  assert (filed (matches_set q true ms)) as Hset.
  { intros k p d [[= -> -> ->]|Hin]%bt_insert_elem_iff; [|by eapply Hms].
    destruct (bt_get (components q) ms) as [[p d']|] eqn:E; [|done].
    apply bt_get_elem in E as (j & ->%cmp_eq & Hin). by eapply Hms. }
  unfold matches_or_insert. destruct (bt_get (components canonical) _); [done|].
  intros k p d [[= -> -> ->]|Hin]%bt_insert_elem_iff; [done|by eapply Hset].
Qed.

(** The result of a scan *)
Lemma expand_spec :
  exists r, expand = Some r /\ forall ms, r = Ok ms ->
    scan_adds found [] ms /\ filed ms /\ (N.of_nat (length ms) <= MAX_GLOB_MATCHES)%N.
Proof.
  unfold expand.
  destruct (scan_roots_spec (glob_search_roots context pattern)
    {| sc_matches := []; sc_entries := 0; sc_ancestors := [] |}) as (r & -> & Hr); [done|simpl; lia|].
  destruct r as [st|e]; simpl; [|eexists; split; [done|]; by intros ms].
  eexists. split; [done|]. intros ms [= <-]. destruct (Hr st eq_refl) as [Hadds Hkeep]. split_and!; [done|..].
  - apply Hkeep; [apply insert_match_filed|]. intros k q d Hin. simpl in Hin. set_solver.
  - apply (Hkeep (fun ms => (N.of_nat (length ms) <= MAX_GLOB_MATCHES)%N)); [|simpl; lia].
    intros q ms ms' _. apply insert_match_bound.
Qed.

(** C17. Expanding a deny-glob always returns, whatever the directory tree holds,
    loops of links included.  If it succeeds, the directly matched paths are
    exactly the paths a walk from the search roots finds and the pattern
    matches, the walk entering every directory within the depth that is not one
    of its own ancestors; the other paths of the result are exactly what those
    resolve to; and there are at most 8192. *)
Theorem glob_expand_exact :
  exists r, expand = Some r /\ forall ms, r = Ok ms ->
    (forall k, direct ms k <-> exists q, found q /\ matched q /\ components q = k) /\
    (forall k, known ms k <-> exists q, found q /\ matched q /\
       (components q = k \/ exists c, canonicalize h q = Ok c /\ components c = k)) /\
    (N.of_nat (length ms) <= MAX_GLOB_MATCHES)%N.
Proof.
  destruct expand_spec as (r & -> & Hr). eexists. split; [done|]. intros ms Hms.
  destruct (Hr ms Hms) as ([Hdirect Hknown] & _ & Hb).
  split_and!; [intros k; rewrite Hdirect|intros k; rewrite Hknown|done];
    (split; [intros [[q ?]|Hq]; [done|exact Hq]|by right]).
Qed.

End glob.
