(* ===== verification/LinuxMounts.v ===== *)
(** [cageforge-linux/src/filesystem/mod.rs]: lowering an effective filesystem
    policy into a table of mounts and the Bubblewrap arguments that build it. *)

From Stdlib Require Import Ascii String NArith Lia.
From stdpp Require Import base option strings gmap pretty sorting list.
From S2P Require Import Prelude Keyed Text BTree NativePath Access Selector PathPattern FsPolicy Domain NetPolicy Policy Environment Command Compose Effective Requirements EffectiveEnv HostFs Backend ConfigSource LinuxHost LinuxGlob.

Definition PRIVATE_RUNTIME_ROOT : path := "/dev/.cageforge-runtime".
Definition IN_SANDBOX_HELPER_PATH : path := "/dev/.cageforge-runtime/helper".
Definition IN_SANDBOX_GATEWAY_SOCKET : path := "/dev/.cageforge-runtime/network/gateway.sock".
Definition SHARED_SETUP_DIRECTORY : path := "/tmp".

(** * Mounts *)

Inductive Mount := MountRead | MountWrite | MountReadOnly | MountDeny.

#[global] Instance Mount_eq_dec : EqDecision Mount.
Proof. solve_decision. Defined.

Definition is_bind (m : Mount) : bool := match m with MountRead | MountWrite => true | _ => false end.
Definition is_mask (m : Mount) : bool := match m with MountReadOnly | MountDeny => true | _ => false end.

(** [Mount::access] *)
Definition mount_access (m : Mount) : AccessMode :=
  match m with MountRead | MountReadOnly | MountDeny => Read | MountWrite => Write end.

Definition effective_bind_access (m : Mount) : option AccessMode :=
  match m with MountRead | MountReadOnly => Some Read | MountWrite => Some Write | MountDeny => None end.

Definition stricter_mount (left right : Mount) : Mount :=
  match left, right with
  | MountDeny, _ | _, MountDeny => MountDeny
  | MountReadOnly, _ | _, MountReadOnly => MountReadOnly
  | MountRead, _ | _, MountRead => MountRead
  | MountWrite, MountWrite => MountWrite
  end.

(** [BTreeMap<PathBuf, Mount>].  Every key went through
    [normalize_lexical_path], so that it is the path its components print. *)
Definition Mounts : Type := BTreeMap fs_path Mount.

Definition mount_key (p : path) : fs_path := components (normalize_lexical_path p).
Definition mount_path (e : fs_path * Mount) : path := collect_path e.1.

Definition insert_mount (mounts : Mounts) (p : path) (m : Mount) : Mounts :=
  match bt_get (mount_key p) mounts with
  | Some current => bt_insert (mount_key p) (stricter_mount current m) mounts
  | None => bt_insert (mount_key p) m mounts
  end.

Definition writable_mounts (mounts : Mounts) : list path :=
  mount_path <$> filter (fun e => e.2 = MountWrite) mounts.

(** [Iterator::max_by_key(|..| components().count())]: the last of the maxima *)
Definition deeper (best : option (fs_path * Mount)) (e : fs_path * Mount) : option (fs_path * Mount) :=
  match best with
  | Some b => if (length e.1 <? length b.1)%nat then best else Some e
  | None => Some e
  end.

Definition is_redundant_bind (p : path) (m : Mount) (mounts : Mounts) : bool :=
  match effective_bind_access m with
  | None => false
  | Some a =>
      let ancestors := filter (fun e => path_eqb (mount_path e) p = false /\ is_within p (mount_path e) = true) mounts in
      match foldl deeper None ancestors with
      | Some e => bool_decide (effective_bind_access e.2 = Some a)
      | None => false
      end
  end.

Definition lowering_failed (p : path) (source : FilesystemLoweringError) : LinuxBackendError :=
  FilesystemLoweringFailed p source.

Definition validate_mount_path (p : path) : result LinuxBackendError unit :=
  reject bool_decide (p = "") || negb (is_absolute p) with lowering_failed p InvalidMountTarget ;; Ok ().

Section lowering.
Context {U : Unicode} {G : Globset} {W : WildMatch} {H : Type} `{!LinuxHost H}.
Context {B : Type} `{!SandboxBackend B} (hardening_helper_file : B -> N).

Abbreviation lin := (hostM H LinuxBackendError).

(** * Links and missing components *)

(** [first_symlink_component]: a failing call ends the search. *)
Fixpoint first_symlink_loop (h : H) (paths : list path) : option path :=
  match paths with
  | [] => None
  | current :: rest =>
      match symlink_metadata h current with
      | Err _ => None
      | Ok m => if is_symlink m then Some current else first_symlink_loop h rest
      end
  end.
Definition first_symlink_component (h : H) (p : path) : option path := first_symlink_loop h (pushed p).

Fixpoint first_writable_symlink_loop (h : H) (roots : list path) (paths : list path) : option path :=
  match paths with
  | [] => None
  | current :: rest =>
      match symlink_metadata h current with
      | Err _ => None
      | Ok m =>
          if is_symlink m && existsb (fun root => is_within current root && negb (path_eqb current root)) roots
          then Some current
          else first_writable_symlink_loop h roots rest
      end
  end.
Definition first_writable_symlink (h : H) (p : path) (roots : list path) : option path :=
  first_writable_symlink_loop h roots (pushed p).

Definition writable_symlink_error (p symlink : path) : LinuxBackendError := lowering_failed p (WritableSymlink symlink).

Fixpoint first_missing_loop (h : H) (paths : list path) : result LinuxBackendError (option path) :=
  match paths with
  | [] => Ok None
  | current :: rest =>
      match symlink_metadata h current with
      | Ok _ => first_missing_loop h rest
      | Err NotFound => Ok (Some current)
      | Err source => Err (lowering_failed current (MetadataFailed OpWritableSymlinkAncestor source))
      end
  end.
Definition first_missing_component (h : H) (p : path) : result LinuxBackendError (option path) :=
  first_missing_loop h (pushed p).

(** * Collecting the mounts of a layer *)

(** Collecting only reads the host. *)

Definition mount_of_decision (d : FilesystemDecision) : result LinuxBackendError Mount :=
  match d with
  | FRead => Ok MountRead
  | FWrite => Ok MountWrite
  | FDeny => Ok MountDeny
  | FExternallyEnforced => Err (LinuxUnsupportedCapability CapFilesystemExternal)
  end.

Definition add_existing_scope (h : H) (p : path) (m : Mount) (missing : MissingPathBehavior) (mounts : Mounts) :
  result LinuxBackendError Mounts :=
  _ ← validate_mount_path p;
  match symlink_metadata h p with
  | Ok _ => Ok (insert_mount mounts p m)
  | Err source =>
      if bool_decide (missing = MSkip) && bool_decide (source = NotFound) then Ok mounts
      else Err (lowering_failed p (MetadataFailed OpScope source))
  end.

Definition access_of (b : B) (prepared : PreparedBackendRequest) (p : path) : result LinuxBackendError FilesystemDecision :=
  map_err Contract (prepared_access_for_path prepared b p).

Definition add_scope_mount (h : H) (b : B) (prepared : PreparedBackendRequest) (p : path) (missing : MissingPathBehavior)
    (mounts : Mounts) : result LinuxBackendError Mounts :=
  decision ← access_of b prepared p;
  m ← mount_of_decision decision;
  mounts ← add_existing_scope h p m missing mounts;
  Ok match canonicalize h p with
     | Ok canonical => if bool_decide (m = MountDeny) && negb (path_eqb canonical p)
                       then insert_mount mounts canonical MountDeny else mounts
     | Err _ => mounts
     end.

Definition add_read_only_path (b : B) (prepared : PreparedBackendRequest) (p : path) (mounts : Mounts) :
  result LinuxBackendError Mounts :=
  decision ← access_of b prepared p;
  match decision with
  | FDeny => Ok (insert_mount mounts p MountDeny)
  | FRead => Ok (insert_mount mounts p MountReadOnly)
  | FWrite => Ok mounts
  | FExternallyEnforced => Err (LinuxUnsupportedCapability CapFilesystemExternal)
  end.

(** One iteration over the resolved read-only subpaths of a scope *)
Definition collect_subpath (b : B) (prepared : PreparedBackendRequest) (p : path) (mounts : Mounts) (subpath : path) :
  result LinuxBackendError Mounts :=
  if is_within subpath p then add_read_only_path b prepared subpath mounts else Ok mounts.

(** The [FilesystemTarget::Scope] arm of [LayerMountCollector::collect] *)
Definition collect_scope (h : H) (b : B) (prepared : PreparedBackendRequest) (c : EffectivePathContext)
    (rule : FilesystemRule) (mounts : Mounts) (p : path) : result LinuxBackendError Mounts :=
  mounts ← add_scope_mount h b prepared p (missing_path_behavior rule) mounts;
  foldM (fun mounts selector => foldM (collect_subpath b prepared p) mounts (context_resolve c selector))
    mounts (read_only_subpaths rule).

(** The [FilesystemTarget::Glob] arm *)
Definition collect_match (b : B) (prepared : PreparedBackendRequest) (mounts : Mounts)
    (entry : fs_path * (path * bool)) : result LinuxBackendError Mounts :=
  let '(_, (p, directly_matched)) := entry in
  _ ← (if (directly_matched : bool)
       then decision ← access_of b prepared p;
            reject bool_decide (decision <> FDeny) with PolicyLoweringMismatch p ;; Ok ()
       else Ok ());
  Ok (insert_mount mounts p MountDeny).

(** [glob::expand] always returns ([expand_spec]): the last arm is not
    reached. *)
Definition expand_glob (h : H) (pattern : PathPattern) (c : EffectivePathContext) (depth : option N) :
  result LinuxBackendError Matches :=
  match expand h pattern c depth with
  | Some r => r
  | None => Err (GlobScanEntryLimitExceeded (raw pattern) MAX_GLOB_SCAN_ENTRIES)
  end.

Definition collect_rule (h : H) (b : B) (prepared : PreparedBackendRequest) (c : EffectivePathContext)
    (depth : option N) (mounts : Mounts) (rule : FilesystemRule) : result LinuxBackendError Mounts :=
  match target rule with
  | Scope selector => foldM (collect_scope h b prepared c rule) mounts (context_resolve c selector)
  | Glob pattern =>
      matches ← expand_glob h pattern c depth;
      foldM (collect_match b prepared) mounts matches
  end.

(** [BTreeSet<PathBuf>] of protected relative paths *)
Definition set_put (acc : BTreeMap fs_path path) (p : path) : BTreeMap fs_path path :=
  match bt_get (components p) acc with Some _ => acc | None => bt_insert (components p) p acc end.

(** [LayerMountCollector::collect] *)
Definition collect_layer (h : H) (b : B) (prepared : PreparedBackendRequest) (c : EffectivePathContext)
    (depth : option N) (st : Mounts * BTreeMap fs_path path) (layer : FilesystemPolicy) :
  result LinuxBackendError (Mounts * BTreeMap fs_path path) :=
  let protected := foldl set_put st.2 (protected_relative_paths layer) in
  mounts ← foldM (collect_rule h b prepared c depth) st.1 (entries layer);
  Ok (mounts, protected).

(** * Writable links and protected paths *)

Fixpoint reject_symlinks_loop (h : H) (roots : list path) (mounts : Mounts) : result LinuxBackendError unit :=
  match mounts with
  | [] => Ok ()
  | e :: rest =>
      let p := mount_path e in
      let under_writable_root := existsb (fun root => is_within p root) roots in
      match (if is_bind e.2 && (bool_decide (e.2 = MountWrite) || under_writable_root)
             then first_symlink_component h p else None) with
      | Some symlink => Err (lowering_failed p (WritableSymlinkMount symlink))
      | None => reject_symlinks_loop h roots rest
      end
  end.

Definition reject_unsafe_bind_symlinks (h : H) (mounts : Mounts) : result LinuxBackendError unit :=
  let roots := writable_mounts mounts in
  if existsb (fun root => path_eqb root "/") roots then Ok () else reject_symlinks_loop h roots mounts.

(** [Path::ancestors] of an absolute path: the path, its parent and so on *)
Definition path_ancestors (p : path) : list path :=
  let cs := components p in
  (fun n => collect_path (take (length cs - n) cs)) <$> seq 0 (length cs).

Definition ancestor_has_git_metadata (h : H) (ancestor : path) : bool :=
  let git := path_join ancestor ".git" in
  match symlink_metadata h git with
  | Err _ => false
  | Ok m =>
      if is_dir m then match symlink_metadata h (path_join git "HEAD") with Ok _ => true | Err _ => false end
      else is_file m && match read_to_string h git with
                        | Ok contents => bool_decide (is_Some (strip_prefix "gitdir:" (trim_start contents)))
                        | Err _ => false
                        end
  end.

Definition should_monitor_missing_git (h : H) (root protected p : path) : bool :=
  path_eqb protected ".git"
  && match symlink_metadata h p with Err NotFound => true | _ => false end
  && existsb (ancestor_has_git_metadata h)
       (tail (path_ancestors (match canonicalize h root with Ok c => c | Err _ => root end))).

(** One iteration of the loops of [apply_protected_paths] *)
Definition protect_path (h : H) (b : B) (prepared : PreparedBackendRequest) (root : path)
    (st : Mounts * BTreeMap fs_path path) (protected : fs_path * path) :
  result LinuxBackendError (Mounts * BTreeMap fs_path path) :=
  let p := path_join root protected.2 in
  match first_writable_symlink h p [root] with
  | Some symlink => Err (writable_symlink_error p symlink)
  | None =>
      if should_monitor_missing_git h root protected.2 p then Ok (st.1, set_put st.2 p)
      else mounts ← add_read_only_path b prepared p st.1; Ok (mounts, st.2)
  end.

Definition apply_protected_paths (h : H) (b : B) (prepared : PreparedBackendRequest)
    (protected : BTreeMap fs_path path) (mounts : Mounts) :
  result LinuxBackendError (Mounts * BTreeMap fs_path path) :=
  foldM (fun st root => foldM (protect_path h b prepared root) st protected) (mounts, []) (writable_mounts mounts).

(** [synthetic::shared_state_root] *)
Definition shared_state_root (h : H) : path :=
  path_join SHARED_SETUP_DIRECTORY (".cageforge-linux-" +:+ pretty (effective_uid h)).

Definition is_reserved (state_root p : path) : bool :=
  negb (path_eqb p "/")
  && (is_within p "/proc" || is_within p PRIVATE_RUNTIME_ROOT || is_within PRIVATE_RUNTIME_ROOT p || is_within p state_root).

Definition reject_reserved_runtime_paths (mounts : Mounts) (state_root : path) : result LinuxBackendError unit :=
  match find (fun e => is_reserved state_root (mount_path e)) mounts with
  | Some e => Err (lowering_failed (mount_path e) ReservedRuntimePath)
  | None => Ok ()
  end.

(** * Masks of missing paths *)

Definition prune_redundant_denied_descendants (mounts : Mounts) : Mounts :=
  let denied := (fun e => e.1) <$> filter (fun e => e.2 = MountDeny) mounts in
  foldl (fun mounts k =>
    if existsb (fun e => bool_decide (e.2 = MountDeny) && negb (bool_decide (e.1 = k))
                         && is_within (collect_path k) (mount_path e)) mounts
    then bt_remove k mounts else mounts) mounts denied.

Definition masks (mounts : Mounts) : Mounts := filter (fun e => is_mask e.2 = true) mounts.

Fixpoint reject_masked_symlinks (h : H) (roots : list path) (mounts : Mounts) : result LinuxBackendError unit :=
  match mounts with
  | [] => Ok ()
  | e :: rest =>
      match first_writable_symlink h (mount_path e) roots with
      | Some symlink => Err (writable_symlink_error (mount_path e) symlink)
      | None => reject_masked_symlinks h roots rest
      end
  end.

(** The loop that joins existing targets and collects the missing masks *)
Definition inspect_mask (st : list path * Mounts) (e : fs_path * Mount) : lin (list path * Mounts) :=
  metadata ← observe (fun h => symlink_metadata h (mount_path e));
  match metadata with
  | Ok _ =>
      joined ← synthetic_join (mount_path e);
      mret (if (joined : bool) then st.1 ++ [mount_path e] else st.1, st.2)
  | Err NotFound => mret (st.1, st.2 ++ [e])
  | Err source => hfail (lowering_failed (mount_path e) (MetadataFailed OpMask source))
  end.

(** The loop over the missing masks *)
Definition place_missing_mask (roots : list path) (st : list path * Mounts) (e : fs_path * Mount) :
  lin (list path * Mounts) :=
  let '(targets, mounts) := st in
  missing ← observe (fun h => first_missing_component h (mount_path e));
  missing ← hlift missing;
  match missing with
  | None => mret st
  | Some first_missing =>
      if negb (existsb (fun root => is_within first_missing root) roots) then mret (targets, bt_remove e.1 mounts)
      else
        _ ← hlift (validate_mount_path first_missing);
        if path_eqb first_missing (mount_path e)
        then _ ← synthetic_create first_missing;
             mret (targets ++ [first_missing], insert_mount (bt_remove e.1 mounts) first_missing e.2)
        else mret st
  end.

Definition materialize_missing_masks (roots : list path) (mounts : Mounts) : lin (list path * Mounts) :=
  checked ← observe (fun h => reject_masked_symlinks h roots (masks mounts));
  _ ← hlift checked;
  _ ← setup_lock_acquire;
  inspected ← hfold inspect_mask ([], []) (masks mounts);
  placed ← hfold (place_missing_mask roots) (inspected.1, mounts) inspected.2;
  mret (placed.1, prune_redundant_denied_descendants placed.2).

(** * Arguments *)

(** The arguments so far, the descriptors they name, and
    [virtual_mount_parent_dirs] *)
Record Emission := { em_args : list string; em_files : list N; em_dirs : list fs_path }.

Definition emit (e : Emission) (args : list string) : Emission :=
  {| em_args := em_args e ++ args; em_files := em_files e; em_dirs := em_dirs e |}.
Definition preserve (e : Emission) (fd : N) : Emission :=
  {| em_args := em_args e; em_files := em_files e ++ [fd]; em_dirs := em_dirs e |}.

(** [libc::open] in [open_mount_source] *)
Definition open_mount_source (p : path) : lin N :=
  if contains_char NUL p then hfail (lowering_failed p SourceContainsNul)
  else hmap_err (fun source => lowering_failed p (OpenSource source)) (open_read p).

Definition add_bind_fd (e : Emission) (source destination : path) (a : AccessMode) : lin Emission :=
  fd ← open_mount_source source;
  match a with
  | Read => mret (preserve (emit e ["--ro-bind-fd"; pretty fd; destination]) fd)
  | Write => mret (preserve (emit e ["--bind-fd"; pretty fd; destination]) fd)
  | Deny => hfail (lowering_failed destination DenyDescriptorBind)
  end.

Definition add_bind (e : Emission) (p : path) (a : AccessMode) : lin Emission :=
  canonical ← observe (fun h => canonicalize h p);
  canonical ← hlift (map_err (fun source => lowering_failed p (CanonicalizeFailed source)) canonical);
  if path_eqb canonical p then add_bind_fd e p p a
  else match a with
       | Read => mret (emit e ["--ro-bind"; canonical; p])
       | Write => mret (emit e ["--bind"; canonical; p])
       | Deny => hfail (lowering_failed p DenyCanonicalBind)
       end.

Definition append_dev (e : Emission) (restore_shared_memory : bool) : Emission :=
  let e := emit e ["--dev"; "/dev"] in
  if restore_shared_memory then emit e ["--bind-try"; "/dev/shm"; "/dev/shm"] else e.

Definition append_shared_state_mask (h : H) (e : Emission) : Emission :=
  emit e ["--perms"; "000"; "--tmpfs"; shared_state_root h; "--remount-ro"; shared_state_root h].

Definition add_executable_snapshot (e : Emission) (source : N) (destination : path) : lin Emission :=
  fd ← hmap_err (fun source => lowering_failed destination (OpenExecutableSnapshot source))
         (open_read ("/proc/self/fd/" +:+ pretty source));
  mret (preserve (emit e ["--perms"; "0500"; "--ro-bind-data"; pretty fd; destination]) fd).

Definition append_private_runtime (e : Emission) (helper : N) (gateway_mount : option N) : lin Emission :=
  let e := emit e ["--dir"; PRIVATE_RUNTIME_ROOT] in
  let e := emit e ["--chmod"; "0500"; PRIVATE_RUNTIME_ROOT] in
  e ← add_executable_snapshot e helper IN_SANDBOX_HELPER_PATH;
  match gateway_mount with
  | None => mret e
  | Some gateway =>
      gateway_directory ← hlift (ok_or (lowering_failed IN_SANDBOX_GATEWAY_SOCKET GatewaySocketParentMissing)
                                   (HostFs.parent (components IN_SANDBOX_GATEWAY_SOCKET)));
      let e := emit e ["--dir"; collect_path gateway_directory] in
      fd ← hmap_err (fun source => lowering_failed IN_SANDBOX_GATEWAY_SOCKET (OpenSource source)) (try_clone gateway);
      mret (preserve (emit e ["--ro-bind-fd"; pretty fd; IN_SANDBOX_GATEWAY_SOCKET]) fd)
  end.

Definition add_empty_mask_file (e : Emission) (p : path) (permissions : string) : lin Emission :=
  fd ← hmap_err (fun source => lowering_failed p (EmptyMaskSource source)) (open_read "/dev/null");
  mret (preserve (emit e ["--perms"; permissions; "--ro-bind-data"; pretty fd; p]) fd).

(** [if virtual_mount_parent_dirs.insert(..) { args.extend(["--dir", ..]) }] *)
Definition emit_parent_dir (e : Emission) (directory : fs_path) : Emission :=
  if bool_decide (directory ∈ em_dirs e) then e
  else {| em_args := em_args e ++ ["--dir"; collect_path directory]; em_files := em_files e;
          em_dirs := directory :: em_dirs e |}.

(** The directories from [first_missing] down to the parent of the target *)
Definition append_missing_mount_parent_dirs (e : Emission) (mount_target first_missing : path) : Emission :=
  match HostFs.parent (components mount_target) with
  | None => e
  | Some parent =>
      if negb (is_within (collect_path parent) first_missing) then e
      else
        let from := length (components first_missing) in
        foldl emit_parent_dir e ((fun n => take (from + n) parent) <$> seq 0 (S (length parent - from)))
  end.

(** The directories strictly between a masked path and a mount below it, the
    innermost first, as the loop over [parent()] pushes them *)
Definition between (masked target : path) : list fs_path :=
  let cs := components target in
  filter (fun k => path_eqb (collect_path k) masked = false /\ is_within (collect_path k) masked = true)
    ((fun n => take (length cs - n) cs) <$> seq 0 (length cs)).

Definition depth_order (x y : fs_path) : Prop :=
  length x < length y \/ length x = length y /\ cmp x y <> Gt.

#[global] Instance depth_order_dec : RelDecision depth_order.
Proof. intros x y. unfold depth_order. apply _. Defined.

Definition descendant_mount_directories (h : H) (masked : path) (ordered : Mounts) :
  result LinuxBackendError (list fs_path) :=
  directories ← foldM (fun acc e =>
    metadata ← map_err (fun source => lowering_failed (mount_path e) (MetadataFailed OpDescendantMount source))
                 (fs_metadata h (mount_path e));
    let target := if is_dir metadata then mount_path e
                  else match HostFs.parent e.1 with Some parent => collect_path parent | None => masked end in
    Ok (foldl (fun acc k => if bool_decide (k ∈ acc) then acc else acc ++ [k]) acc (rev (between masked target))))
    [] (filter (fun e => path_eqb (mount_path e) masked = false /\ is_within (mount_path e) masked = true) ordered);
  Ok (merge_sort depth_order directories).

Definition add_mask (e : Emission) (p : path) (m : Mount) (roots : list path) (ordered : Mounts) : lin Emission :=
  if path_eqb p "/" then hfail (lowering_failed p RootCannotBeMasked)
  else
    symlink ← observe (fun h => first_writable_symlink h p roots);
    match symlink with
    | Some symlink => hfail (writable_symlink_error p symlink)
    | None =>
        metadata ← observe (fun h => symlink_metadata h p);
        match metadata with
        | Err NotFound =>
            missing ← observe (fun h => first_missing_component h p);
            missing ← hlift missing;
            match missing with
            | None => hfail (lowering_failed p (MetadataFailed OpMask NotFound))
            | Some first_missing =>
                add_empty_mask_file (append_missing_mount_parent_dirs e p first_missing) p
                  (if bool_decide (m = MountReadOnly) then "0500" else "000")
            end
        | Err source => hfail (lowering_failed p (MetadataFailed OpMask source))
        | Ok metadata =>
            if is_symlink metadata && bool_decide (m = MountDeny) then mret e
            else if bool_decide (m = MountReadOnly) then add_bind e p Read
            else if is_dir metadata
            then
              targets ← observe (fun h => descendant_mount_directories h p ordered);
              targets ← hlift targets;
              let e := emit e ["--perms"; if bool_decide (targets = []) then "000" else "111"; "--tmpfs"; p] in
              let e := foldl (fun e k => emit e ["--dir"; collect_path k]) e targets in
              mret (emit e ["--remount-ro"; p])
            else add_empty_mask_file e p "000"
        end
    end.

(** * The plan *)

Record FilesystemPlan := {
  plan_args : list string;
  preserved_files : list N;
  synthetic_targets : list path;
  protected_create_paths : list path
}.

(** The mounts below the root, parents before children *)
Definition mount_order (x y : fs_path * Mount) : Prop := depth_order x.1 y.1.
#[global] Instance mount_order_dec : RelDecision mount_order.
Proof. intros x y. unfold mount_order. apply _. Defined.

Definition ordered_mounts (mounts : Mounts) : Mounts :=
  merge_sort mount_order (filter (fun e => path_eqb (mount_path e) "/" = false) mounts).

(** The mount of the root directory itself *)
Definition emit_root (mounts : Mounts) (e : Emission) : lin Emission :=
  match bt_get (components "/") mounts with
  | Some ((MountRead | MountWrite) as m) => add_bind e "/" (mount_access m)
  | Some MountReadOnly => add_bind e "/" Read
  | Some MountDeny | None => mret e
  end.

(** One iteration of the loop over [ordered_mounts] *)
Definition emit_mount (roots : list path) (mounts ordered : Mounts) (e : Emission) (entry : fs_path * Mount) :
  lin Emission :=
  let p := mount_path entry in
  if is_redundant_bind p entry.2 mounts then mret e
  else if is_bind entry.2 then add_bind e p (mount_access entry.2)
  else add_mask e p entry.2 roots ordered.

Definition lower_unrestricted (b : B) (gateway_mount : option N) : lin FilesystemPlan :=
  _ ← setup_lock_acquire;
  e ← add_bind {| em_args := []; em_files := []; em_dirs := [] |} "/" Write;
  let e := append_dev e true in
  e ← observe (fun h => append_shared_state_mask h e);
  e ← append_private_runtime e (hardening_helper_file b) gateway_mount;
  mret {| plan_args := em_args e; preserved_files := em_files e; synthetic_targets := []; protected_create_paths := [] |}.

(** The mount table of a restricted policy, with the paths to monitor *)
Definition collect_mounts (h : H) (b : B) (prepared : PreparedBackendRequest) :
  result LinuxBackendError (Mounts * list path) :=
  c ← map_err Contract (prepared_path_context prepared b);
  lowering ← map_err Contract (prepared_filesystem_lowering prepared b);
  collected ← foldM (collect_layer h b prepared c (lowering_glob_scan_max_depth lowering)) ([], []) (fs_layers lowering);
  _ ← reject_unsafe_bind_symlinks h collected.1;
  guarded ← apply_protected_paths h b prepared collected.2 collected.1;
  _ ← reject_reserved_runtime_paths guarded.1 (shared_state_root h);
  Ok (if existsb (fun e => is_bind e.2 && is_within (shared_state_root h) (mount_path e)) guarded.1
      then insert_mount guarded.1 (shared_state_root h) MountDeny else guarded.1, guarded.2.*2).

Definition emit_plan (b : B) (mounts : Mounts) (roots : list path) (gateway_mount : option N) : lin Emission :=
  e ← emit_root mounts {| em_args := ["--tmpfs"; "/"]; em_files := []; em_dirs := [] |};
  let e := append_dev e false in
  let ordered := ordered_mounts mounts in
  e ← hfold (emit_mount roots mounts ordered) e ordered;
  append_private_runtime e (hardening_helper_file b) gateway_mount.

Definition lower_restricted (b : B) (prepared : PreparedBackendRequest) (gateway_mount : option N) : lin FilesystemPlan :=
  collected ← observe (fun h => collect_mounts h b prepared);
  collected ← hlift collected;
  let roots := writable_mounts collected.1 in
  materialized ← materialize_missing_masks roots collected.1;
  e ← emit_plan b materialized.2 roots gateway_mount;
  mret {| plan_args := em_args e; preserved_files := em_files e; synthetic_targets := materialized.1;
          protected_create_paths := collected.2 |}.

Definition lower (b : B) (prepared : PreparedBackendRequest) (sandbox : EffectiveSandbox) (gateway_mount : option N) :
  lin FilesystemPlan :=
  match req_mode (filesystem_requirements (es_filesystem sandbox)) with
  | External => hfail (LinuxUnsupportedCapability CapFilesystemExternal)
  | Unrestricted => lower_unrestricted b gateway_mount
  | Restricted => lower_restricted b prepared gateway_mount
  end.

End lowering.
