(* ===== verification/LinuxDescriptors.v ===== *)
(** [cageforge-linux/src/filesystem/mod.rs]: handing a plan over to a process
    launch, which takes its descriptors and renumbers them in the arguments. *)

From Stdlib Require Import Ascii String NArith ZArith Lia.
From stdpp Require Import base option strings gmap pretty list.
From S2P Require Import Prelude Text NativePath LinuxHost LinuxMounts.

(** * Taking the parts of a plan *)

(** [std::mem::take] leaves the empty vector behind. *)
Definition take_descriptor_files (p : FilesystemPlan) : list N * FilesystemPlan :=
  (preserved_files p,
   {| plan_args := plan_args p; preserved_files := []; synthetic_targets := synthetic_targets p;
      protected_create_paths := protected_create_paths p |}).

Definition take_synthetic_targets (p : FilesystemPlan) : list path * FilesystemPlan :=
  (synthetic_targets p,
   {| plan_args := plan_args p; preserved_files := preserved_files p; synthetic_targets := [];
      protected_create_paths := protected_create_paths p |}).

Definition take_protected_create_paths (p : FilesystemPlan) : list path * FilesystemPlan :=
  (protected_create_paths p,
   {| plan_args := plan_args p; preserved_files := preserved_files p; synthetic_targets := synthetic_targets p;
      protected_create_paths := [] |}).

(** * Renumbering *)

(** [str::parse::<i32>]: an optional sign, then digits, within 32 bits *)
Definition parse_digits (s : string) : option Z :=
  if bool_decide (s = "") || negb (str_all is_ascii_digit s) then None
  else Some (foldl (fun acc a => acc * 10 + Z.of_N (byte_val a - 48))%Z 0%Z (list_ascii_of_string s)).

Definition parse_raw_fd (s : string) : option Z :=
  value ← match s with
          | String "+" rest => parse_digits rest
          | String "-" rest => Z.opp <$> parse_digits rest
          | _ => parse_digits s
          end;
  if (- 2 ^ 31 <=? value)%Z && (value <? 2 ^ 31)%Z then Some value else None.

Definition is_descriptor_option (arg : string) : bool :=
  String.eqb arg "--bind-fd" || String.eqb arg "--ro-bind-fd" || String.eqb arg "--ro-bind-data".

Definition unretained (descriptor : Z) : LinuxBackendError :=
  FilesystemLoweringFailed "/proc/self/fd" (UnretainedMountDescriptor descriptor).

(** The new text of the argument after a descriptor option *)
Definition remap_argument (descriptors : gmap Z Z) (arg : string) : result LinuxBackendError string :=
  descriptor ← ok_or (unretained (-1)) (parse_raw_fd arg);
  mapped ← ok_or (unretained descriptor) (descriptors !! descriptor);
  Ok (pretty mapped).

(** The loop of [remap_descriptor_arguments]: [previous] is [args[index - 1]],
    already renumbered. *)
Fixpoint remap_loop (descriptors : gmap Z Z) (previous : string) (args : list string) :
  result LinuxBackendError (list string) :=
  match args with
  | [] => Ok []
  | arg :: rest =>
      arg ← (if is_descriptor_option previous then remap_argument descriptors arg else Ok arg);
      rest ← remap_loop descriptors arg rest;
      Ok (arg :: rest)
  end.

Definition remap_descriptor_arguments (descriptors : gmap Z Z) (args : list string) : result LinuxBackendError (list string) :=
  match args with
  | [] => Ok []
  | first :: rest => rest ← remap_loop descriptors first rest; Ok (first :: rest)
  end.

(** * What renumbering does *)

Lemma descriptor_option_not_fd arg : is_descriptor_option arg = true -> parse_raw_fd arg = None.
Proof.
  unfold is_descriptor_option. intros [[->%String.eqb_eq| ->%String.eqb_eq]%orb_true_iff| ->%String.eqb_eq]%orb_true_iff;
    vm_compute; reflexivity.
Qed.

Lemma pretty_N_no_dash (n : N) s : pretty n <> "-" +:+ s.
Proof.
  unfold pretty, pretty_N. case_decide; [done|]. by apply pretty_N_go_ne_dash.
Qed.

Lemma pretty_not_option (z : Z) : is_descriptor_option (pretty z) = false.
Proof.
  apply not_true_iff_false. intros Ho.
  assert (exists s, pretty z = "-" +:+ ("-" +:+ s)) as [s Hs].
  { unfold is_descriptor_option in Ho. apply orb_true_iff in Ho as [[Ho|Ho]%orb_true_iff|Ho];
      apply String.eqb_eq in Ho; rewrite Ho; [by exists "bind-fd"|by exists "ro-bind-fd"|by exists "ro-bind-data"]. }
  destruct z as [|n|n]; [done|by apply (pretty_N_no_dash (Npos n)) in Hs|]. injection Hs as Hs.
  by apply (pretty_N_no_dash (Npos n)) in Hs.
Qed.

(** An argument and the one after renumbering, behind the argument [previous] *)
Definition renumbered (descriptors : gmap Z Z) (previous arg arg' : string) : Prop :=
  if is_descriptor_option previous
  then exists d m, parse_raw_fd arg = Some d /\ descriptors !! d = Some m /\ arg' = pretty m
  else arg' = arg.

Lemma remap_argument_Ok descriptors arg arg' :
  remap_argument descriptors arg = Ok arg' <->
  exists d m, parse_raw_fd arg = Some d /\ descriptors !! d = Some m /\ arg' = pretty m.
Proof.
  unfold remap_argument. destruct (parse_raw_fd arg) as [d|]; simpl; [|naive_solver].
  destruct (descriptors !! d) as [m|] eqn:Hm; simpl; naive_solver.
Qed.

Lemma remap_loop_Ok descriptors o previous args args' :
  is_descriptor_option o = is_descriptor_option previous ->
  remap_loop descriptors previous args = Ok args' <->
  length args' = length args /\
  forall i a a', args !! i = Some a -> args' !! i = Some a' ->
    exists before, (o :: args) !! i = Some before /\ renumbered descriptors before a a'.
Proof.
  revert o previous args'. induction args as [|arg args IH]; intros o previous args' Ho; simpl.
  { split; [by intros [= <-]|]. intros [Hl _]. by destruct args'. }
  assert (forall arg', (if is_descriptor_option previous then remap_argument descriptors arg else Ok arg) = Ok arg' <->
            renumbered descriptors o arg arg') as Hstep.
  { intros arg'. unfold renumbered. rewrite Ho. destruct (is_descriptor_option previous); [apply remap_argument_Ok|].
    split; [by intros [= ->]|by intros ->]. }
  assert (forall arg', renumbered descriptors o arg arg' -> is_descriptor_option arg = is_descriptor_option arg') as Hkind.
  { intros arg'. unfold renumbered. destruct (is_descriptor_option o); [|by intros ->].
    intros (d & m & Hd & _ & ->). rewrite pretty_not_option. apply not_true_iff_false.
    intros Hx%descriptor_option_not_fd. congruence. }
  split.
  - intros (arg' & Ha%Hstep & Hr)%bind_Ok. apply bind_Ok in Hr as (rest & Hr & Heq). injection Heq as <-.
    apply (IH arg arg') in Hr as [Hl Hr]; [|by apply Hkind]. split; [simpl; by f_equal|].
    intros [|i] a a'; simpl; [|apply Hr]. intros [= <-] [= <-]. eauto.
  - intros [Hl Hall]. destruct args' as [|arg' args']; [done|]. injection Hl as Hl.
    destruct (Hall 0 arg arg' eq_refl eq_refl) as (before & [= <-] & Ha).
    apply Hstep in Ha as Hok. rewrite Hok. simpl.
    assert (remap_loop descriptors arg' args = Ok args') as ->; [|done].
    apply (IH arg); [by apply Hkind|]. split; [done|]. intros i a a' H1 H2. by apply (Hall (S i)).
Qed.

(** Renumbering the descriptors of a plan changes the operand of each
    descriptor option and nothing else: it succeeds exactly when every such
    operand is the text of a descriptor that has a new number, the operand
    becomes the text of that number, and every other argument stays. *)
Theorem remap_descriptors_exact (descriptors : gmap Z Z) (args args' : list string) :
  remap_descriptor_arguments descriptors args = Ok args' <->
  length args' = length args /\ head args' = head args /\
  forall i before a a', args !! i = Some before -> args !! S i = Some a -> args' !! S i = Some a' ->
    if is_descriptor_option before
    then exists d m, parse_raw_fd a = Some d /\ descriptors !! d = Some m /\ a' = pretty m
    else a' = a.
Proof.
  destruct args as [|first args]; simpl.
  { split; [by intros [= <-]|]. intros [Hl _]. by destruct args'. }
  destruct args' as [|first' args'].
  { split; [|by intros [? _]]. by intros (rest & _ & ?)%bind_Ok. }
  trans (first' = first /\ remap_loop descriptors first args = Ok args').
  { split; [intros (rest & Hr & Heq)%bind_Ok; by injection Heq as -> ->|]. by intros [-> ->]. }
  rewrite (remap_loop_Ok _ first) by done. simpl. split.
  - intros (-> & Hl & Hall). split_and!; [by f_equal|done|]. intros i before a a' Hb Ha Ha'.
    destruct (Hall i a a' Ha Ha') as (before' & Hb' & Hr). rewrite Hb in Hb'. by injection Hb' as <-.
  - intros ([= Hl] & [= ->] & Hall). split_and!; [done|done|]. intros i a a' Ha Ha'.
    destruct (lookup_lt_is_Some_2 (first :: args) i) as [before Hb].
    { apply lookup_lt_Some in Ha. simpl. lia. }
    exists before. split; [done|]. by apply (Hall i before).
Qed.
