(* ===== verification/LinuxTable.v ===== *)
(** The mount table of a restricted policy: what [collect_mounts] and
    [materialize_missing_masks] leave in it, and what a writable entry says
    about the paths below it. *)

From Stdlib Require Import Ascii String NArith Lia.
From stdpp Require Import base option strings gmap pretty sorting list.
From S2P Require Import Prelude Keyed Text BTree NativePath Access Selector PathPattern FsPolicy Domain NetPolicy Policy Environment Command Compose Effective Requirements EffectiveEnv HostFs Backend LinuxHost LinuxGlob LinuxMounts.

Lemma filter_same {A} (P Q : A -> Prop) `{forall x, Decision (P x)} `{forall x, Decision (Q x)} (l : list A) :
  (forall x, x ∈ l -> P x <-> Q x) -> filter P l = filter Q l.
Proof.
  induction l as [|x l IH]; intros Hl; [done|]. rewrite !filter_cons.
  rewrite (IH ltac:(set_solver)). specialize (Hl x ltac:(set_solver)). repeat case_decide; naive_solver.
Qed.

(** * Paths and keys *)

Lemma mount_key_eq p : mount_key p = lexical_components p.
Proof. apply components_normalize. Qed.

Lemma lexical_collect k : lexical_shape k -> lexical_components (collect_path k) = k.
Proof.
  intros Hk. unfold lexical_components. rewrite components_collect by done.
  by rewrite lexical_shape_no_cur_dir.
Qed.

Lemma prefix_shape (k l : fs_path) : k `prefix_of` l -> lexical_shape l -> lexical_shape k.
Proof.
  intros [l' ->] (cs & Hcs & Hall). destruct Hcs as [Hcs|Hcs].
  - destruct k as [|x k]; [exists []; split; [by right|done]|]. injection Hcs as -> <-.
    apply Forall_app in Hall as [Hall _]. exists k. split; [by left|done].
  - subst cs. apply Forall_app in Hall as [Hall _]. exists k. split; [by right|done].
Qed.

Definition no_parent (k : fs_path) : Prop := existsb (fun c => bool_decide (c = ParentDir)) k = false.

Lemma prefix_no_parent k l : k `prefix_of` l -> no_parent l -> no_parent k.
Proof. intros [l' ->]. unfold no_parent. rewrite existsb_app. by intros [? _]%orb_false_iff. Qed.

(** Containment of the paths of two keys *)
Lemma within_keys k g :
  lexical_shape k -> g <> [] -> no_parent k -> g `prefix_of` k -> is_within (collect_path k) (collect_path g) = true.
Proof.
  intros Hk Hg Hn Hp. assert (lexical_shape g) as Hg' by by eapply prefix_shape.
  apply is_within_true. rewrite !contains_parent_traversal_lexical, !lexical_collect by done.
  split_and!; [done|by eapply prefix_no_parent|done|done].
Qed.

Lemma is_within_lexical p p' r r' :
  lexical_components p = lexical_components p' -> lexical_components r = lexical_components r' ->
  is_within p r = is_within p' r'.
Proof.
  intros Hp Hr. assert (is_absolute p = is_absolute p') as Ha.
  { apply eq_true_iff_eq. by rewrite !is_absolute_lexical, Hp. }
  apply eq_true_iff_eq. by rewrite !is_within_true, !contains_parent_traversal_lexical, Hp, Hr, Ha.
Qed.

(** On traversal-free absolute paths containment is the prefix order of keys. *)
Lemma is_within_prefix_iff p q :
  valid_absolute p -> valid_absolute q ->
  is_within p q = true <-> lexical_components q `prefix_of` lexical_components p.
Proof.
  intros (Ha & _ & Ht) (Ha' & _ & Ht'). rewrite is_within_true, Ht, Ht'. split; [by intros (_ & _ & ? & _)|].
  intros Hp. split_and!; [done..|]. intros Hnil. apply is_absolute_lexical in Ha'. by rewrite Hnil in Ha'.
Qed.

Lemma is_within_prefix_of p q : is_within p q = true -> lexical_components q `prefix_of` lexical_components p.
Proof. rewrite is_within_true. by intros (_ & _ & ? & _). Qed.

Lemma is_within_trans p q r : is_within p q = true -> is_within q r = true -> is_within p r = true.
Proof.
  intros (Hp & _ & [l Hl] & Hrel)%is_within_true (_ & Hr & [l' Hl'] & Hn)%is_within_true.
  apply is_within_true. split_and!; [done|done| |].
  - exists (l' ++ l). by rewrite Hl, Hl', app_assoc.
  - intros Hnil. specialize (Hn Hnil). destruct (is_absolute p) eqn:Ha; [|done].
    apply is_absolute_lexical in Ha. rewrite Hl in Ha. destruct (lexical_components q) eqn:Hq; [by apply Hrel|].
    apply not_true_iff_false in Hn. destruct Hn. apply is_absolute_lexical. by rewrite Hq.
Qed.

(** * Decisions below a writable path *)

Section decisions.
Context {U : Unicode} {G : Globset} {W : WildMatch}.

(** Every root of the rules of [f] that covers [p] covers [q]. *)
Definition roots_cover (f : FilesystemPolicy) (c : PathResolutionContext) (p q : path) : Prop :=
  forall rule selector root, rule ∈ entries f -> target rule = Scope selector -> root ∈ resolve selector c ->
    is_within p root = true ->
    is_within q root = true /\
    forall subpath r, subpath ∈ read_only_subpaths rule -> r ∈ resolve subpath c -> is_within p r = true ->
      is_within q r = true.

Lemma covering_same s (p q : path) c :
  valid_absolute q -> is_within p q = true ->
  (forall r, r ∈ resolve s c -> is_within p r = true -> is_within q r = true) ->
  covering s p c = covering s q c.
Proof.
  intros Hq Hpq Hr. unfold covering. f_equal. apply filter_same. intros r Hin.
  split; [by apply Hr|]. by apply is_within_trans.
Qed.

Lemma read_only_step_same p q c m subpath :
  covering subpath p c = covering subpath q c -> read_only_step p c m subpath = read_only_step q c m subpath.
Proof. unfold read_only_step. by intros ->. Qed.

Lemma scope_match_same f c p q rule selector :
  valid_absolute q -> is_within p q = true -> roots_cover f c p q ->
  rule ∈ entries f -> target rule = Scope selector -> matches_path rule p c = matches_path rule q c.
Proof.
  intros Hq Hpq Hcover Hin Ht. unfold matches_path. rewrite Ht.
  assert (covering selector p c = covering selector q c) as <-.
  { apply covering_same; [done|done|]. intros r Hr Hp. by apply (Hcover rule selector r). }
  destruct (iter_max (covering selector p c)) as [n|] eqn:Hmax; simpl; [|done]. f_equal.
  case_bool_decide; [|done].
  assert (exists root, root ∈ resolve selector c /\ is_within p root = true) as (root & Hroot & Hp).
  { destruct (covering selector p c) as [|x l] eqn:Hl; [done|].
    assert (x ∈ covering selector p c) as Hx by (rewrite Hl; set_solver). unfold covering in Hx.
    apply list_elem_of_fmap in Hx as (root & _ & [Hw Hr]%list_elem_of_filter). eauto. }
  destruct (Hcover rule selector root Hin Ht Hroot Hp) as [_ Hsub]. clear Hmax.
  generalize {| specificity := n; rm_access := access rule |}.
  induction (read_only_subpaths rule) as [|subpath l IH]; intros m; simpl; [done|].
  rewrite (read_only_step_same p q); [apply IH; set_solver|].
  apply covering_same; [done|done|]. intros r Hr Hw. apply (Hsub subpath r); [set_solver|done|done].
Qed.

(** A path is writable when a path above it is, no root of the rules lies in
    between, no glob matches it and it is not protected. *)
Lemma write_extends f c p q :
  (forall rule pattern, rule ∈ entries f -> target rule = Glob pattern -> access rule = Deny) ->
  valid_absolute p -> valid_absolute q -> is_within p q = true -> roots_cover f c p q ->
  (forall rule pattern, rule ∈ entries f -> target rule = Glob pattern -> pattern_matches pattern p c = false) ->
  is_protected_path f p = false ->
  access_for_path f q c = Ok FWrite -> access_for_path f p c = Ok FWrite.
Proof.
  intros Hdeny Hp Hq Hpq Hcover Hglob Hprot Hw. destruct (decide (mode f = Restricted)) as [Hm|Hm].
  - rewrite access_for_path_outcome in * by done. rewrite Hprot. injection Hw as Hw.
    assert (forall rule pattern, rule ∈ entries f -> target rule = Glob pattern -> matches_path rule q c = None) as Hnone.
    { intros rule pattern Hin Ht. destruct (matches_path rule q c) as [m|] eqn:Hmatch; [|done]. exfalso.
      rewrite rules_outcome_matches in Hw. pose proof (outcome_sum_spec (omap (fun r => matches_path r q c) (entries f))) as Hs.
      assert (m ∈ omap (fun r => matches_path r q c) (entries f)) as Hm' by (apply list_elem_of_omap; eauto).
      assert (rm_access m = Deny) as Hd.
      { unfold matches_path in Hmatch. rewrite Ht, (Hdeny _ _ Hin Ht) in Hmatch. simpl in Hmatch.
        destruct (pattern_matches pattern q c); [|done]. by injection Hmatch as <-. }
      destruct (outcome_sum _) as [|[b|]]; [done|..].
      - destruct Hs as [Hs _]. rewrite Forall_forall in Hs. by apply (Hs m).
      - rewrite Hs in Hm'. set_solver. }
    assert (rules_outcome p c (entries f) = rules_outcome q c (entries f)) as ->.
    { rewrite !rules_outcome_matches. do 3 f_equal. apply list_omap_ext, Forall_Forall2_diag, Forall_forall. intros r Hr.
      destruct (target r) as [selector|pattern] eqn:Ht.
      - by eapply scope_match_same.
      - rewrite (Hnone r pattern) by done. unfold matches_path. by rewrite Ht, (Hglob r pattern). }
    unfold outcome_decision in *. destruct (rules_outcome q c (entries f)) as [|[m|]]; [done| |done].
    destruct (rm_access m); [done|done|]. done.
  - unfold access_for_path in *. destruct Hp as (-> & -> & ->), Hq as (Ha & Hn & Ht). rewrite Ha, Hn, Ht in Hw.
    simpl in *. by destruct (mode f).
Qed.

End decisions.

(** * The decision the lowering consults *)

Section table.
Context {U : Unicode} {G : Globset} {W : WildMatch} {H : Type} `{!LinuxHost H}.
Context {B : Type} `{!SandboxBackend B} (b : B) (prepared : PreparedBackendRequest).

Definition decided (p : path) (d : FilesystemDecision) : Prop := access_of b prepared p = Ok d.

Definition request_fs : EffectiveFilesystemPolicy := es_filesystem (req_sandbox (prepared_request prepared)).
Definition request_layers : list FilesystemPolicy := fs_layers (filesystem_lowering request_fs).
Definition request_context : PathResolutionContext := context (prepared_context prepared).

Lemma combine_write l r : combine_filesystem_decisions l r = FWrite <-> l = FWrite /\ r = FWrite.
Proof. destruct l, r; naive_solver. Qed.

Lemma access_for_path_valid f p c d : access_for_path f p c = Ok d -> valid_absolute p.
Proof. unfold access_for_path. intros Ha. res_inv. split_and!; [by apply negb_false_iff|done|done]. Qed.

Lemma decided_layers p d :
  decided p d -> exists d1 d2, access_for_path (fs_requested request_fs) p request_context = Ok d1 /\
    access_for_path (fs_ceiling request_fs) p request_context = Ok d2 /\ d = combine_filesystem_decisions d1 d2.
Proof.
  unfold decided, access_of, prepared_access_for_path, effective_access_for_path. intros Hd. res_inv. eauto.
Qed.

Lemma decided_valid p d : decided p d -> valid_absolute p.
Proof. intros (d1 & d2 & H1 & _)%decided_layers. by eapply access_for_path_valid. Qed.

(** Once one path is decided, the decision of every path is that of the layers. *)
Lemma decided_from q d p d1 d2 :
  decided q d -> access_for_path (fs_requested request_fs) p request_context = Ok d1 ->
  access_for_path (fs_ceiling request_fs) p request_context = Ok d2 -> decided p (combine_filesystem_decisions d1 d2).
Proof.
  unfold decided, access_of, prepared_access_for_path, effective_access_for_path. fold request_fs request_context.
  intros Hd -> ->. destruct (ensure_backend prepared b); simpl in *; [|done]. by destruct (negb _).
Qed.

Lemma decided_unique p d d' : decided p d -> decided p d' -> d = d'.
Proof. unfold decided. congruence. Qed.

(** Spellings of one path are decided alike. *)
Lemma decided_spelling p q d :
  valid_absolute q -> lexical_components p = lexical_components q -> decided p d -> decided q d.
Proof.
  intros Hq Heq Hd. pose proof (decided_valid _ _ Hd) as Hp. pose proof Hd as (d1 & d2 & H1 & H2 & ->)%decided_layers.
  assert (paths_equal p q = true) as Hpq by by apply paths_equal_true.
  eapply decided_from; [done|by rewrite <- (access_for_path_lexical _ p q)..].
Qed.

Lemma collect_lexical p : collect_path (lexical_components p) = normalize_lexical_path p.
Proof. symmetry. apply normalize_lexical_path_eq. Qed.

Lemma decided_key p d : decided p d -> decided (collect_path (mount_key p)) d.
Proof.
  intros Hd. rewrite mount_key_eq, collect_lexical. apply (decided_spelling p); [|by rewrite lexical_components_normalize|done].
  by eapply valid_absolute_normalize, decided_valid.
Qed.

Lemma decided_write_extends p q :
  Forall (fun f => forall rule pattern, rule ∈ entries f -> target rule = Glob pattern -> access rule = Deny) request_layers ->
  valid_absolute p -> is_within p q = true ->
  Forall (fun f => roots_cover f request_context p q) request_layers ->
  Forall (fun f => forall rule pattern, rule ∈ entries f -> target rule = Glob pattern ->
    pattern_matches pattern p request_context = false) request_layers ->
  Forall (fun f => is_protected_path f p = false) request_layers ->
  decided q FWrite -> decided p FWrite.
Proof.
  unfold request_layers. simpl. rewrite !Forall_cons.
  intros (Hd1 & Hd2 & _) Hp Hpq (Hr1 & Hr2 & _) (Hg1 & Hg2 & _) (Hp1 & Hp2 & _) Hq.
  pose proof (decided_valid _ _ Hq) as Hvq.
  pose proof Hq as (d1 & d2 & H1 & H2 & Hw)%decided_layers. symmetry in Hw. apply combine_write in Hw as [-> ->].
  change FWrite with (combine_filesystem_decisions FWrite FWrite). eapply decided_from; [done|..]; by eapply write_extends.
Qed.

(** * Inserting mounts *)

Lemma insert_mount_get mounts p m k :
  bt_get k (insert_mount mounts p m) =
    if decide (k = mount_key p)
    then Some (match bt_get k mounts with Some current => stricter_mount current m | None => m end)
    else bt_get k mounts.
Proof.
  unfold insert_mount. case_decide as Hk.
  - subst k. destruct (bt_get (mount_key p) mounts); by rewrite bt_get_insert.
  - destruct (bt_get (mount_key p) mounts); rewrite bt_get_insert_ne by (by rewrite cmp_Eq_iff); done.
Qed.

Lemma insert_mount_wf mounts p m : bt_wf mounts -> bt_wf (insert_mount mounts p m).
Proof. intros Hm. unfold insert_mount. destruct (bt_get _ _); by apply bt_wf_insert. Qed.

Context (h : H).

Definition present (p : path) : Prop := exists m, symlink_metadata h p = Ok m.

(** What an entry of the table says about its path *)
Definition mount_justified (k : fs_path) (m : Mount) : Prop :=
  match m with
  | MountWrite => decided (collect_path k) FWrite /\ exists p, mount_key p = k /\ present p
  | MountRead | MountReadOnly => decided (collect_path k) FRead
  | MountDeny => True
  end.

Definition table_ok (mounts : Mounts) : Prop :=
  bt_wf mounts /\ forall k m, bt_get k mounts = Some m -> lexical_shape k /\ mount_justified k m.

Definition table_grows (mounts mounts' : Mounts) : Prop :=
  forall k, is_Some (bt_get k mounts) -> is_Some (bt_get k mounts').

#[global] Instance table_grows_preorder : PreOrder table_grows.
Proof. split; [by intros m k|]. intros m1 m2 m3 H1 H2 k Hk. by apply H2, H1. Qed.

Lemma stricter_justified k m m' : mount_justified k m -> mount_justified k m' -> mount_justified k (stricter_mount m m').
Proof. by destruct m, m'. Qed.

Lemma insert_mount_ok mounts p m :
  table_ok mounts -> mount_justified (mount_key p) m -> table_ok (insert_mount mounts p m).
Proof.
  intros [Hwf Hok] Hm. split; [by apply insert_mount_wf|]. intros k m'. rewrite insert_mount_get.
  case_decide as Hk; [|apply Hok]. subst k. intros [= <-].
  destruct (bt_get (mount_key p) mounts) as [current|] eqn:E.
  - destruct (Hok _ _ E). split; [done|]. by apply stricter_justified.
  - split; [rewrite mount_key_eq; apply lexical_components_shape|done].
Qed.

Lemma insert_mount_grows mounts p m : table_grows mounts (insert_mount mounts p m).
Proof. intros k [v Hv]. rewrite insert_mount_get. case_decide; [by eexists|]. by rewrite Hv. Qed.

Lemma insert_mount_present mounts p m : is_Some (bt_get (mount_key p) (insert_mount mounts p m)).
Proof. rewrite insert_mount_get, decide_True by done. by eexists. Qed.

(** A step of the collection keeps the table justified and only adds to it. *)
Definition collects (mounts mounts' : Mounts) : Prop :=
  (table_ok mounts -> table_ok mounts') /\ table_grows mounts mounts'.

#[global] Instance collects_preorder : PreOrder collects.
Proof.
  split; [by intros m; split|]. intros m1 m2 m3 [H1 H2] [H3 H4]. split; [auto|by etrans].
Qed.

Lemma insert_collects mounts p m :
  mount_justified (mount_key p) m -> collects mounts (insert_mount mounts p m).
Proof. intros Hm. split; [by intros ?; apply insert_mount_ok|apply insert_mount_grows]. Qed.

Lemma foldM_collects {A} (f : Mounts -> A -> result LinuxBackendError Mounts) l mounts mounts' :
  (forall m x m', x ∈ l -> f m x = Ok m' -> collects m m') -> foldM f mounts l = Ok mounts' -> collects mounts mounts'.
Proof.
  intros Hf. apply (foldM_invariant f (collects mounts)); [done|]. intros m x m' Hx Hm Hfx. etrans; [done|by eapply Hf].
Qed.

(** * Scopes and read-only subpaths *)

Lemma add_existing_scope_collects p m missing mounts mounts' :
  (present p -> mount_justified (mount_key p) m) -> add_existing_scope h p m missing mounts = Ok mounts' ->
  collects mounts mounts' /\
  (is_Some (bt_get (mount_key p) mounts') \/ missing = MSkip /\ symlink_metadata h p = Err NotFound).
Proof.
  intros Hm. unfold add_existing_scope, present in *. intros Ha. res_inv.
  destruct (symlink_metadata h p) as [md|source]; res_inv.
  - split; [apply insert_collects; eauto|]. left. apply insert_mount_present.
  - match goal with E : _ && _ = true |- _ => apply andb_true_iff in E as [->%bool_decide_eq_true ->%bool_decide_eq_true] end.
    split; [done|by right].
Qed.

Lemma mount_of_decision_justified p d m :
  decided p d -> mount_of_decision d = Ok m -> present p -> mount_justified (mount_key p) m.
Proof.
  intros Hd%decided_key Hm Hp. destruct d; res_inv; simpl in *; res_inv; simpl; try done. eauto.
Qed.

Lemma add_scope_mount_collects p missing mounts mounts' :
  add_scope_mount h b prepared p missing mounts = Ok mounts' ->
  collects mounts mounts' /\
  (is_Some (bt_get (mount_key p) mounts') \/ missing = MSkip /\ symlink_metadata h p = Err NotFound).
Proof.
  unfold add_scope_mount. intros Ha. apply bind_Ok in Ha as (d & Hd & Ha). apply bind_Ok in Ha as (m & Hm & Ha).
  apply bind_Ok in Ha as (mounts1 & He & Ha).
  apply add_existing_scope_collects in He as [Hc Hs]; [|by apply (mount_of_decision_justified p d)].
  assert (collects mounts1 mounts') as Hc'.
  { injection Ha as <-. destruct (canonicalize h p) as [canonical|]; [|done].
    destruct (_ && _); [|done]. by apply insert_collects. }
  split; [by etrans|]. destruct Hs as [Hs|Hs]; [left; by apply Hc'|by right].
Qed.

Lemma add_read_only_collects p mounts mounts' :
  add_read_only_path b prepared p mounts = Ok mounts' ->
  collects mounts mounts' /\ (is_Some (bt_get (mount_key p) mounts') \/ decided p FWrite).
Proof.
  unfold add_read_only_path. intros (d & Hd & Ha)%bind_Ok.
  destruct d; simpl in Ha; res_inv;
    first [split; [apply insert_collects; first [done|by apply decided_key]|left; apply insert_mount_present]
          |split; [done|by right]].
Qed.

(** What the collection of a rule leaves in the table, for good *)
Definition scope_collected (rule : FilesystemRule) (root : path) (mounts : Mounts) : Prop :=
  (is_Some (bt_get (mount_key root) mounts) \/
   missing_path_behavior rule = MSkip /\ symlink_metadata h root = Err NotFound) /\
  forall subpath r, subpath ∈ read_only_subpaths rule -> r ∈ resolve subpath request_context ->
    is_within r root = true -> is_Some (bt_get (mount_key r) mounts) \/ decided r FWrite.

Definition rule_collected (depth : option N) (rule : FilesystemRule) (mounts : Mounts) : Prop :=
  match target rule with
  | Scope selector => forall root, root ∈ resolve selector request_context -> scope_collected rule root mounts
  | Glob pattern => forall q, found h pattern (prepared_context prepared) depth q ->
      matched pattern (prepared_context prepared) q -> is_Some (bt_get (mount_key q) mounts)
  end.

Lemma scope_collected_grows rule root mounts mounts' :
  table_grows mounts mounts' -> scope_collected rule root mounts -> scope_collected rule root mounts'.
Proof. intros Hg [H1 H2]. split; [destruct H1; auto|]. intros subpath r Hs Hr Hw. destruct (H2 subpath r Hs Hr Hw); auto. Qed.

Lemma rule_collected_grows depth rule mounts mounts' :
  table_grows mounts mounts' -> rule_collected depth rule mounts -> rule_collected depth rule mounts'.
Proof.
  intros Hg. unfold rule_collected. destruct (target rule); [|by auto].
  intros Hr root Hin. eapply scope_collected_grows; eauto.
Qed.

Lemma collect_subpath_collects p mounts subpath mounts' :
  collect_subpath b prepared p mounts subpath = Ok mounts' ->
  collects mounts mounts' /\
  (is_within subpath p = true -> is_Some (bt_get (mount_key subpath) mounts') \/ decided subpath FWrite).
Proof.
  unfold collect_subpath. destruct (is_within subpath p).
  - intros [Hc Hs]%add_read_only_collects. done.
  - intros [= <-]. done.
Qed.

Lemma collect_scope_collects rule mounts root mounts' :
  collect_scope h b prepared (prepared_context prepared) rule mounts root = Ok mounts' ->
  collects mounts mounts' /\ scope_collected rule root mounts'.
Proof.
  unfold collect_scope. intros (mounts1 & Ha & Hf)%bind_Ok. apply add_scope_mount_collects in Ha as [Hc Hs].
  assert (forall m selector m', foldM (collect_subpath b prepared root) m (context_resolve (prepared_context prepared) selector)
    = Ok m' -> collects m m') as Hinner.
  { intros m selector m'. apply foldM_collects. intros m1 x m2 _ Hx. by apply collect_subpath_collects in Hx as [? _]. }
  assert (collects mounts1 mounts') as Hc'.
  { revert Hf. apply foldM_collects. intros m x m' _. apply Hinner. }
  split; [by etrans|]. split; [destruct Hs as [Hs|Hs]; [left; by apply Hc'|by right]|].
  intros subpath r Hsub Hr Hw. revert Hf.
  apply (foldM_establish (fun m => is_Some (bt_get (mount_key r) m) \/ decided r FWrite) _ subpath); [done|..].
  - intros m m' Hm. revert Hm.
    apply (foldM_establish (fun m => is_Some (bt_get (mount_key r) m) \/ decided r FWrite) _ r); [done|..].
    + intros m1 m2 Hx. apply collect_subpath_collects in Hx as [_ Hx]. by apply Hx.
    + intros m1 x m2 [H1|H1] Hx; [|by right]. apply collect_subpath_collects in Hx as [[_ Hg] _]. left. by apply Hg.
  - intros m x m' [H1|H1] Hx; [|by right]. apply Hinner in Hx as [_ Hg]. left. by apply Hg.
Qed.

(** * Globs *)

Lemma collect_match_collects mounts k p direct mounts' :
  collect_match b prepared mounts (k, (p, direct)) = Ok mounts' ->
  collects mounts mounts' /\ is_Some (bt_get (mount_key p) mounts').
Proof.
  unfold collect_match. intros (u & _ & Hm)%bind_Ok. injection Hm as <-.
  split; [by apply insert_collects|apply insert_mount_present].
Qed.

Lemma lexical_of_components p q : components p = components q -> lexical_components p = lexical_components q.
Proof. unfold lexical_components. by intros ->. Qed.

Lemma collect_rule_collects depth mounts rule mounts' :
  collect_rule h b prepared (prepared_context prepared) depth mounts rule = Ok mounts' ->
  collects mounts mounts' /\ rule_collected depth rule mounts'.
Proof.
  unfold collect_rule, rule_collected. destruct (target rule) as [selector|pattern].
  - intros Hf. split.
    + revert Hf. apply foldM_collects. intros m x m' _ Hx. by apply collect_scope_collects in Hx as [? _].
    + intros root Hroot. revert Hf. apply (foldM_establish (scope_collected rule root) _ root); [done|..].
      * intros m m' Hx. by apply collect_scope_collects in Hx as [_ ?].
      * intros m x m' Hm Hx. apply collect_scope_collects in Hx as [[_ Hg] _]. by eapply scope_collected_grows.
  - intros (ms & Hms & Hf)%bind_Ok. split.
    + revert Hf. apply foldM_collects. intros m [k [p d]] m' _ Hx. by apply collect_match_collects in Hx as [? _].
    + unfold expand_glob in Hms. intros q Hfound Hq.
      destruct (expand_spec h pattern (prepared_context prepared) depth) as (r & Hr & Hspec). rewrite Hr in Hms. subst r.
      destruct (Hspec ms eq_refl) as ([_ Hknown] & Hfiled & _).
      assert (known ms (components q)) as [[q' d] Hget] by (apply Hknown; eauto 10).
      apply bt_get_elem in Hget as (k & <-%cmp_eq & Hin). pose proof (Hfiled _ _ _ Hin) as Hq'.
      rewrite mount_key_eq, <- (lexical_of_components q' q Hq'), <- mount_key_eq. revert Hf.
      apply (foldM_establish (fun m => is_Some (bt_get (mount_key q') m)) _ (components q, (q', d))); [done|..].
      * intros m m' Hx. by apply collect_match_collects in Hx as [_ ?].
      * intros m [k [p' d']] m' Hm Hx. apply collect_match_collects in Hx as [[_ Hg] _]. by apply Hg.
Qed.

(** * Layers *)

Lemma bt_insert_here {A} (k : fs_path) (v : A) ms : (k, v) ∈ bt_insert k v ms.
Proof.
  induction ms as [|[j w] ms IH]; simpl; [by apply list_elem_of_singleton|].
  destruct (cmp k j) eqn:E; [apply cmp_eq in E as <-; apply list_elem_of_here|apply list_elem_of_here|].
  by apply list_elem_of_further.
Qed.

Lemma bt_insert_keeps {A} (k : fs_path) (v : A) ms e : bt_get k ms = None -> e ∈ ms -> e ∈ bt_insert k v ms.
Proof.
  induction ms as [|[j w] ms IH]; simpl; [by intros _ ?%not_elem_of_nil|].
  destruct (cmp k j); [done|intros _ ?; by apply list_elem_of_further|].
  intros E [->|Hin]%elem_of_cons; [apply list_elem_of_here|]. apply list_elem_of_further. by apply IH.
Qed.

(** The protected paths of the layers, by their components *)
Definition protects (protected : BTreeMap fs_path path) (q : path) : Prop :=
  exists q', (components q, q') ∈ protected /\ components q' = components q.

Definition protected_filed (protected : BTreeMap fs_path path) : Prop :=
  forall k q, (k, q) ∈ protected -> components q = k.

Lemma set_put_filed protected q : protected_filed protected -> protected_filed (set_put protected q).
Proof.
  intros Hf. unfold set_put. destruct (bt_get _ _); [done|].
  intros k q' [[= -> ->]|Hin]%bt_insert_elem_iff; [done|by apply Hf].
Qed.

Lemma set_put_elem protected q e : e ∈ protected -> e ∈ set_put protected q.
Proof.
  unfold set_put. destruct (bt_get (components q) protected) eqn:E; [done|]. by apply bt_insert_keeps.
Qed.

Lemma set_put_protects protected q : protected_filed protected -> protects (set_put protected q) q.
Proof.
  intros Hf. unfold protects, set_put. destruct (bt_get (components q) protected) as [q'|] eqn:E.
  - apply bt_get_elem in E as (k & <-%cmp_eq & Hin). exists q'. split; [done|by apply Hf].
  - exists q. split; [apply bt_insert_here|done].
Qed.

Lemma protect_all l protected :
  protected_filed protected ->
  protected_filed (foldl set_put protected l) /\ (forall q, q ∈ l \/ protects protected q -> protects (foldl set_put protected l) q).
Proof.
  revert protected. induction l as [|x l IH]; intros protected Hf; simpl; [split; [done|set_solver]|].
  destruct (IH (set_put protected x) (set_put_filed _ _ Hf)) as [H1 H2]. split; [done|]. intros q Hq. apply H2.
  destruct Hq as [[->|Hq]%elem_of_cons|(q' & Hin & Hq')].
  - right. by apply set_put_protects.
  - by left.
  - right. exists q'. split; [by apply set_put_elem|done].
Qed.

(** Everything a layer asks for is in the table. *)
Definition layer_collected (depth : option N) (layer : FilesystemPolicy) (st : Mounts * BTreeMap fs_path path) : Prop :=
  (forall rule, rule ∈ entries layer -> rule_collected depth rule st.1) /\
  (forall q, q ∈ protected_relative_paths layer -> protects st.2 q).

Lemma collect_layer_collects depth st layer st' :
  protected_filed st.2 ->
  collect_layer h b prepared (prepared_context prepared) depth st layer = Ok st' ->
  collects st.1 st'.1 /\ protected_filed st'.2 /\ layer_collected depth layer st' /\
  (forall q, protects st.2 q -> protects st'.2 q).
Proof.
  intros Hfiled. unfold collect_layer. cbv zeta. intros (mounts & Hf & Hst)%bind_Ok. injection Hst as <-. simpl.
  destruct (protect_all (protected_relative_paths layer) st.2 Hfiled) as [H1 H2].
  split_and!; [|done| |auto].
  - revert Hf. apply foldM_collects. intros m x m' _ Hx. by apply collect_rule_collects in Hx as [? _].
  - split; simpl; [|auto]. intros rule Hin. revert Hf. apply (foldM_establish (rule_collected depth rule) _ rule); [done|..].
    + intros m m' Hx. by apply collect_rule_collects in Hx as [_ ?].
    + intros m x m' Hm Hx. apply collect_rule_collects in Hx as [[_ Hg] _]. by eapply rule_collected_grows.
Qed.

Lemma collect_layers_collects depth layers st st' :
  protected_filed st.2 ->
  foldM (collect_layer h b prepared (prepared_context prepared) depth) st layers = Ok st' ->
  collects st.1 st'.1 /\ protected_filed st'.2 /\ (forall q, protects st.2 q -> protects st'.2 q) /\
  (forall layer, layer ∈ layers -> layer_collected depth layer st').
Proof.
  revert st. induction layers as [|layer layers IH]; intros st Hfiled; simpl.
  { intros [= <-]. split_and!; [done|done|done|set_solver]. }
  intros (st1 & Hl & Hf)%bind_Ok. apply collect_layer_collects in Hl as (Hc & Hf1 & Hlayer & Hp); [|done].
  destruct (IH st1 Hf1 Hf) as (Hc' & Hf' & Hp' & Hall). split_and!; [by etrans|done|auto|].
  intros l [->|Hin]%elem_of_cons; [|by apply Hall]. destruct Hlayer as [H1 H2]. destruct Hc' as [_ Hg]. split; [|auto].
  intros rule Hin. eapply rule_collected_grows; eauto.
Qed.

(** * Protected paths *)

(** Writable entries are never added after the scopes. *)
Definition writes_from (mounts mounts' : Mounts) : Prop :=
  forall k, bt_get k mounts' = Some MountWrite -> bt_get k mounts = Some MountWrite.

#[global] Instance writes_from_preorder : PreOrder writes_from.
Proof. split; [by intros m k|]. intros m1 m2 m3 H1 H2 k Hk. by apply H1, H2. Qed.

Lemma insert_mask_writes mounts p m : m <> MountWrite -> writes_from mounts (insert_mount mounts p m).
Proof.
  intros Hm k. rewrite insert_mount_get. case_decide; [|done]. subst k.
  destruct (bt_get (mount_key p) mounts) as [current|]; [|by intros [= ->]]. by destruct current, m.
Qed.

Lemma add_read_only_writes p mounts mounts' :
  add_read_only_path b prepared p mounts = Ok mounts' -> writes_from mounts mounts'.
Proof.
  unfold add_read_only_path. intros (d & _ & Ha)%bind_Ok.
  destruct d; simpl in Ha; res_inv; first [by apply insert_mask_writes|done].
Qed.

(** A protected path of a writable root is masked, monitored or writable after
    all. *)
Definition guarded_path (p : path) (st : Mounts * BTreeMap fs_path path) : Prop :=
  is_Some (bt_get (lexical_components p) st.1) \/
  (exists p', lexical_components p' = lexical_components p /\ decided p' FWrite) \/
  (exists p', p' ∈ st.2.*2 /\ lexical_components p' = lexical_components p).

Definition guards (st st' : Mounts * BTreeMap fs_path path) : Prop :=
  collects st.1 st'.1 /\ writes_from st.1 st'.1 /\ (protected_filed st.2 -> protected_filed st'.2) /\
  (forall e, e ∈ st.2 -> e ∈ st'.2).

#[global] Instance guards_preorder : PreOrder guards.
Proof.
  split; [by intros st; split_and!|]. intros s1 s2 s3 (H1 & H2 & H3 & H4) (H1' & H2' & H3' & H4').
  split_and!; [by etrans|by etrans|auto|auto].
Qed.

Lemma guarded_path_grows p st st' : guards st st' -> guarded_path p st -> guarded_path p st'.
Proof.
  intros ([_ Hg] & _ & _ & Hm) [Hk|[Hk|(p' & Hp & Hq)]]; [left; by apply Hg|right; by left|].
  right; right. exists p'. split; [|done]. apply list_elem_of_fmap in Hp as (e & -> & He).
  apply list_elem_of_fmap. eauto.
Qed.

Lemma protect_path_guards root st k q st' :
  protected_filed st.2 ->
  protect_path h b prepared root st (k, q) = Ok st' -> guards st st' /\ guarded_path (path_join root q) st'.
Proof.
  intros Hfiled. unfold protect_path. cbv zeta. simpl. destruct (first_writable_symlink _ _ _); [done|].
  destruct (should_monitor_missing_git _ _ _ _).
  - intros [= <-]. split.
    + split_and!; simpl; [done|done|apply set_put_filed|apply set_put_elem].
    + right; right. destruct (set_put_protects st.2 (path_join root q) Hfiled) as (p & Hp & Heq).
      exists p. split; [|by apply lexical_of_components]. apply list_elem_of_fmap. exists (components (path_join root q), p). done.
  - intros (mounts & Ha & Hst)%bind_Ok. injection Hst as <-.
    pose proof (add_read_only_writes _ _ _ Ha). apply add_read_only_collects in Ha as [Hc Hk].
    split; [by split_and!|]. unfold guarded_path. simpl. rewrite mount_key_eq in Hk. destruct Hk as [Hk|Hk]; eauto.
Qed.

(** Loops of guarding steps *)
Lemma foldM_guards {A} (f : Mounts * BTreeMap fs_path path -> A -> result LinuxBackendError (Mounts * BTreeMap fs_path path))
    (P : A -> Mounts * BTreeMap fs_path path -> Prop) l st st' :
  (forall s x s', protected_filed s.2 -> f s x = Ok s' -> guards s s' /\ P x s') ->
  (forall x s s', guards s s' -> P x s -> P x s') ->
  protected_filed st.2 -> foldM f st l = Ok st' -> guards st st' /\ forall x, x ∈ l -> P x st'.
Proof.
  intros Hf Hgrow. revert st. induction l as [|x l IH]; intros st Hfiled; simpl.
  { intros [= <-]. split; [done|set_solver]. }
  intros (s & Hx & Hl)%bind_Ok. destruct (Hf _ _ _ Hfiled Hx) as [Hg HP].
  destruct (IH s) as [Hg' HP']; [by apply Hg|done|]. split; [by etrans|].
  intros y [->|Hy]%elem_of_cons; [by eapply Hgrow|auto].
Qed.

Lemma apply_protected_guards protected mounts st :
  apply_protected_paths h b prepared protected mounts = Ok st ->
  guards (mounts, []) st /\
  forall root k q, root ∈ writable_mounts mounts -> (k, q) ∈ protected -> guarded_path (path_join root q) st.
Proof.
  unfold apply_protected_paths. intros Hf.
  eapply (foldM_guards _ (fun root s => forall k q, (k, q) ∈ protected -> guarded_path (path_join root q) s)) in Hf.
  - destruct Hf as [Hg HP]. split; [done|]. intros root k q Hroot. by apply (HP root).
  - intros s root s' Hfiled Hs.
    eapply (foldM_guards _ (fun e s => guarded_path (path_join root e.2) s)) in Hs; [|..|done].
    + destruct Hs as [Hg HP]. split; [done|]. intros k q Hin. by apply (HP (k, q)).
    + intros s1 [k q] s2 Hf1 Hp. by eapply protect_path_guards.
    + intros x s1 s2. apply guarded_path_grows.
  - intros root s s' Hg HP k q Hin. eapply guarded_path_grows; eauto.
  - simpl. intros k q Hin. set_solver.
Qed.

(** * The collected table *)

Definition request_depth : option N := lowering_glob_scan_max_depth (filesystem_lowering request_fs).

Record table_collected (mounts : Mounts) (monitored : list path) : Prop := {
  tc_ok : table_ok mounts;
  tc_rules layer rule : layer ∈ request_layers -> rule ∈ entries layer -> rule_collected request_depth rule mounts;
  tc_protected layer q w : layer ∈ request_layers -> q ∈ protected_relative_paths layer ->
    bt_get w mounts = Some MountWrite ->
    exists q', components q' = components q /\
      let p := path_join (collect_path w) q' in
      is_Some (bt_get (lexical_components p) mounts) \/
      (exists p', lexical_components p' = lexical_components p /\ decided p' FWrite) \/
      (exists p', p' ∈ monitored /\ lexical_components p' = lexical_components p);
  tc_reserved k m : bt_get k mounts = Some m -> k = mount_key (shared_state_root h) /\ m = MountDeny \/
    is_reserved (shared_state_root h) (collect_path k) = false
}.

Lemma table_ok_nil : table_ok [].
Proof. split; [constructor|done]. Qed.

Lemma writable_mounts_elem mounts w :
  bt_get w mounts = Some MountWrite -> collect_path w ∈ writable_mounts mounts.
Proof.
  intros (k & <-%cmp_eq & Hin)%bt_get_elem. unfold writable_mounts. apply list_elem_of_fmap.
  exists (w, MountWrite). split; [done|]. by apply list_elem_of_filter.
Qed.

Lemma not_reserved mounts state_root k m :
  reject_reserved_runtime_paths mounts state_root = Ok () -> bt_get k mounts = Some m ->
  is_reserved state_root (collect_path k) = false.
Proof.
  unfold reject_reserved_runtime_paths. destruct (find _ mounts) eqn:Hf; [done|]. intros _ (j & <-%cmp_eq & Hin)%bt_get_elem.
  apply (find_none _ _ Hf (k, m)). by apply list_elem_of_In.
Qed.

Lemma collect_mounts_spec mounts monitored :
  collect_mounts h b prepared = Ok (mounts, monitored) -> table_collected mounts monitored.
Proof.
  unfold collect_mounts. intros (c & Hc & Hm)%bind_Ok.
  assert (c = prepared_context prepared) as ->.
  { unfold prepared_path_context in Hc. by res_inv. }
  apply bind_Ok in Hm as (lowering & Hl & Hm).
  assert (lowering = filesystem_lowering request_fs) as ->.
  { unfold prepared_filesystem_lowering in Hl. by res_inv. }
  apply bind_Ok in Hm as (collected & Hcol & Hm). apply bind_Ok in Hm as (u & _ & Hm).
  apply bind_Ok in Hm as (guarded & Hguard & Hm). apply bind_Ok in Hm as ([] & Hres & Hm). injection Hm as <- <-.
  apply collect_layers_collects in Hcol as (Hc1 & Hfiled & _ & Hlayers); [|intros k q; simpl; set_solver].
  apply apply_protected_guards in Hguard as [(Hc2 & Hw2 & _ & _) Hprot]. simpl in *.
  match goal with |- table_collected ?f _ => set (final := f) end.
  assert (collects guarded.1 final /\ writes_from guarded.1 final) as [Hc3 Hw3].
  { subst final. destruct (existsb _ _); [|done]. split; [by apply insert_collects|by apply insert_mask_writes]. }
  split.
  - apply Hc3, Hc2, Hc1, table_ok_nil.
  - intros layer rule Hlayer Hrule. eapply rule_collected_grows; [apply Hc3|].
    eapply rule_collected_grows; [apply Hc2|]. by apply (Hlayers layer Hlayer).
  - intros layer q w Hlayer Hq Hw. destruct (Hlayers layer Hlayer) as [_ Hp].
    destruct (Hp q Hq) as (q' & Hin & Heq). exists q'. split; [done|]. cbv zeta.
    assert (collect_path w ∈ writable_mounts collected.1) as Hroot by (by apply writable_mounts_elem, Hw2, Hw3).
    destruct (Hprot _ _ _ Hroot Hin) as [Hk|[Hk|Hk]]; [left; by apply Hc3|auto..].
  - intros k m Hk. subst final. destruct (existsb _ _).
    + rewrite insert_mount_get in Hk. case_decide; [|right; by eapply not_reserved]. left. split; [done|].
      destruct (bt_get k guarded.1) as [[]|]; by injection Hk as <-.
    + right. by eapply not_reserved.
Qed.

End table.
