(* ===== verification/LinuxBwrap.v ===== *)
(** Bubblewrap, as [cageforge-linux] relies on it: the program reads its
    arguments as options with operands and applies them in order to the view
    of the file system it builds.

    Bubblewrap is a separate program.  Its reading of an option and what the
    option does to the view are parameters; [BubblewrapLaws] states what the
    manual page documents of the options the lowering emits. *)

From Stdlib Require Import Ascii String NArith Lia.
From stdpp Require Import base option strings gmap pretty sorting list.
From S2P Require Import Prelude NativePath.

(** What a path of the sandbox shows: something the sandbox was given, or a
    host file bound read-only or writable *)
Inductive Exposure := Private | HostRead | HostWrite.

#[global] Instance Exposure_eq_dec : EqDecision Exposure.
Proof. solve_decision. Defined.

(** The operands an option takes and what it does to the view *)
Class Bubblewrap := {
  option_arity : string -> option nat;
  option_effect : string -> list string -> (path -> Exposure) -> (path -> Exposure)
}.

(** The options the lowering of a restricted policy emits: the number of
    operands, the last of which is the destination, and what is mounted there *)
Definition documented_options : list (string * (nat * option Exposure)) :=
  [("--tmpfs", (1, Some Private)); ("--dev", (1, Some Private)); ("--dir", (1, None)); ("--remount-ro", (1, None));
   ("--perms", (1, None)); ("--chmod", (2, None)); ("--bind", (2, Some HostWrite)); ("--bind-fd", (2, Some HostWrite));
   ("--ro-bind", (2, Some HostRead)); ("--ro-bind-fd", (2, Some HostRead)); ("--ro-bind-data", (2, Some Private))].

Definition mount_over (p : path) (x : Exposure) (v : path -> Exposure) : path -> Exposure := fun q =>
  if is_within q p then x else v q.

Class BubblewrapLaws `{!Bubblewrap} : Prop := {
  documented_arity option n x : (option, (n, x)) ∈ documented_options -> option_arity option = Some n;
  documented_mount option n x operands dest v p :
    (option, (n, Some x)) ∈ documented_options -> length operands + 1 = n ->
    option_effect option (operands ++ [dest]) v p = mount_over dest x v p;
  documented_plain option n operands v p :
    (option, (n, None)) ∈ documented_options -> length operands = n -> option_effect option operands v p = v p
}.

(** * Reading the arguments *)

Section reading.
Context `{!Bubblewrap}.

Definition Op : Type := string * list string.

(** The options read so far and the one whose operands are being read *)
Definition Reader : Type := list Op * option (string * nat * list string).

Definition read_step (r : option Reader) (arg : string) : option Reader :=
  match r with
  | None => None
  | Some (ops, None) =>
      match option_arity arg with
      | None => None
      | Some 0 => Some (ops ++ [(arg, [])], None)
      | Some n => Some (ops, Some (arg, n, []))
      end
  | Some (ops, Some (flag, n, operands)) =>
      if (n <=? 1)%nat then Some (ops ++ [(flag, operands ++ [arg])], None)
      else Some (ops, Some (flag, n - 1, operands ++ [arg]))
  end.

Definition read_args (args : list string) : option (list Op) :=
  match foldl read_step (Some ([], None)) args with Some (ops, None) => Some ops | _ => None end.

(** The view starts empty. *)
Definition sandbox_view (ops : list Op) : path -> Exposure :=
  foldl (fun v op => option_effect op.1 op.2 v) (fun _ => Private) ops.

(** What a path shows in a sandbox started with [args] *)
Definition exposed (args : list string) (p : path) : option Exposure :=
  ops ← read_args args; Some (sandbox_view ops p).

End reading.

(** * Documented options *)

(** What a documented option mounts *)
Definition option_mounts (flag : string) : option Exposure :=
  e ← list_find (fun e => e.1 = flag) documented_options; e.2.2.2.

Definition op_mount (op : Op) : option (path * Exposure) :=
  x ← option_mounts op.1; dest ← last op.2; Some (dest, x).

Definition documented (op : Op) : Prop :=
  exists n x, (op.1, (n, x)) ∈ documented_options /\ length op.2 = n.

Lemma documented_compute op :
  existsb (fun e => String.eqb e.1 op.1 && (e.2.1 =? length op.2)%nat) documented_options = true -> documented op.
Proof.
  intros E. apply existsb_exists in E as ([flag [n x]] & Hin%list_elem_of_In & E). simpl in E.
  apply andb_true_iff in E as [->%String.eqb_eq Hn%Nat.eqb_eq]. by exists n, x.
Qed.

Definition flat (ops : list Op) : list string := mjoin ((fun op => op.1 :: op.2) <$> ops).

(** The mounts of a list of options, in order, and what they leave visible *)
Definition op_mounts (ops : list Op) : list (path * Exposure) := omap op_mount ops.

Definition exposure (ms : list (path * Exposure)) (p : path) : Exposure :=
  foldl (fun x m => if is_within p m.1 then m.2 else x) Private ms.

Lemma flat_app a b : flat (a ++ b) = flat a ++ flat b.
Proof. unfold flat. by rewrite fmap_app, join_app. Qed.

Lemma exposure_snoc ms m p : exposure (ms ++ [m]) p = if is_within p m.1 then m.2 else exposure ms p.
Proof. unfold exposure. by rewrite foldl_app. Qed.

Lemma documented_unique option n x n' x' :
  (option, (n, x)) ∈ documented_options -> (option, (n', x')) ∈ documented_options -> n = n' /\ x = x'.
Proof.
  intros H1 H2.
  assert (Forall (fun a => Forall (fun b => a.1 = b.1 -> a.2 = b.2) documented_options) documented_options) as Hall.
  { apply (bool_decide_unpack _). vm_compute. done. }
  rewrite Forall_forall in Hall. specialize (Hall _ H1). rewrite Forall_forall in Hall.
  specialize (Hall _ H2 eq_refl). simpl in Hall. by injection Hall.
Qed.

Section laws.
Context `{!Bubblewrap} `{!BubblewrapLaws}.

Lemma read_operands ops flag operands acc n :
  length operands = n -> 0 < n ->
  foldl read_step (Some (ops, Some (flag, n, acc))) operands = Some (ops ++ [(flag, acc ++ operands)], None).
Proof.
  revert acc n. induction operands as [|x operands IH]; intros acc n Hlen Hn; simpl in *; [lia|].
  destruct (Nat.leb_spec n 1).
  - destruct operands; [done|simpl in *; lia].
  - rewrite IH by lia. by rewrite <- app_assoc.
Qed.

Lemma read_flat ops : Forall documented ops -> read_args (flat ops) = Some ops.
Proof.
  intros Hops. unfold read_args. cut (foldl read_step (Some ([], None)) (flat ops) = Some (ops, None)); [by intros ->|].
  induction ops as [|[flag operands] ops IH] using rev_ind; [done|].
  apply Forall_app in Hops as [Hops (n & x & Hin & Hlen)%Forall_singleton]. simpl in *.
  rewrite flat_app, foldl_app, IH by done. unfold flat. simpl. rewrite app_nil_r.
  rewrite (documented_arity _ _ _ Hin). destruct n as [|n]; [by destruct operands|].
  rewrite read_operands by lia. done.
Qed.

Lemma option_mounts_documented flag n x : (flag, (n, x)) ∈ documented_options -> option_mounts flag = x.
Proof.
  intros Hin. unfold option_mounts.
  destruct (list_find (fun e => e.1 = flag) documented_options) as [[i [flag' [n' x']]]|] eqn:E.
  - apply list_find_Some in E as (Hi & Heq & _). simpl in Heq. subst flag'. apply list_elem_of_lookup_2 in Hi.
    by destruct (documented_unique _ _ _ _ _ Hin Hi) as [_ <-].
  - apply list_find_None in E. rewrite Forall_forall in E. by destruct (E _ Hin).
Qed.

(** The view of documented options is that of their mounts. *)
Lemma sandbox_view_exposure ops p : Forall documented ops -> sandbox_view ops p = exposure (op_mounts ops) p.
Proof.
  unfold sandbox_view. intros Hops. revert p. induction ops as [|[flag operands] ops IH] using rev_ind; intros p; [done|].
  apply Forall_app in Hops as [Hops (n & x & Hin & Hlen)%Forall_singleton]. simpl in *.
  unfold op_mounts in *. rewrite foldl_app, omap_app. simpl. unfold op_mount. simpl. rewrite (option_mounts_documented _ _ _ Hin).
  destruct x as [x|].
  - destruct operands as [|dest operands _] using rev_ind; [subst n; by exfalso; clear -Hin; repeat (apply elem_of_cons in Hin as [[=]|Hin]); apply not_elem_of_nil in Hin|].
    rewrite last_snoc. simpl. rewrite exposure_snoc, (documented_mount _ _ _ operands dest _ _ Hin) by (rewrite length_app in Hlen; simpl in Hlen; lia).
    unfold mount_over. by rewrite IH.
  - rewrite (documented_plain _ _ _ _ _ Hin) by done. destruct (last operands); simpl; rewrite app_nil_r; by apply IH.
Qed.

Lemma exposed_flat ops p : Forall documented ops -> exposed (flat ops) p = Some (exposure (op_mounts ops) p).
Proof. intros Hops. unfold exposed. rewrite read_flat by done. simpl. by rewrite sandbox_view_exposure. Qed.

End laws.
