(* ===== verification/LinuxGoverned.v ===== *)
(** The final mount table: what the treatment of missing masks keeps of the
    collected table, and which decision a writable entry of it stands for. *)

From Stdlib Require Import Ascii String NArith Lia.
From stdpp Require Import base option strings gmap pretty sorting list.
From S2P Require Import Prelude Keyed Text BTree NativePath Access Selector PathPattern FsPolicy Domain NetPolicy Policy Environment Command Compose Effective Requirements EffectiveEnv HostFs Backend LinuxHost LinuxGlob LinuxMounts LinuxTable.

(** * Laws of the host *)

(** What exists has existing ancestors, and a call of the registry of synthetic
    targets that succeeds keeps what exists outside its own directory. *)
Class LinuxHostLaws (H : Type) `{!LinuxHost H} : Prop := {
  lstat_pushed (h : H) p q : present h p -> q ∈ pushed (normalize_lexical_path p) -> present h q;
  lock_keeps (h : H) r h' : setup_lock_acquire h = (Ok r, h') ->
    effective_uid h' = effective_uid h /\
    forall p, is_within p (shared_state_root h) = false -> present h p -> present h' p;
  join_keeps (h : H) q r h' : synthetic_join q h = (Ok r, h') ->
    effective_uid h' = effective_uid h /\
    forall p, is_within p (shared_state_root h) = false -> present h p -> present h' p;
  create_keeps (h : H) q r h' : synthetic_create q h = (Ok r, h') ->
    effective_uid h' = effective_uid h /\
    forall p, is_within p (shared_state_root h) = false -> present h p -> present h' p
}.

(** * Pruning *)

Definition below_deny (t : Mounts) (k : fs_path) : Prop :=
  exists a, bt_get a t = Some MountDeny /\ a <> k /\ is_within (collect_path k) (collect_path a) = true.

Definition prune_step (t : Mounts) (k : fs_path) : Mounts :=
  if existsb (fun e => bool_decide (e.2 = MountDeny) && negb (bool_decide (e.1 = k))
                       && is_within (collect_path k) (mount_path e)) t
  then bt_remove k t else t.

Lemma bt_remove_get (k j : fs_path) (t : Mounts) :
  bt_get j (bt_remove k t) = if decide (j = k) then None else bt_get j t.
Proof.
  case_decide as Hj; [subst; apply bt_get_remove|]. apply bt_get_remove_ne. by rewrite cmp_Eq_iff.
Qed.

Lemma prune_step_get t k j : bt_wf t ->
  bt_get j (prune_step t k) = bt_get j t \/ j = k /\ below_deny t k /\ bt_get j (prune_step t k) = None.
Proof.
  intros Hwf. unfold prune_step. destruct (existsb _ t) eqn:E; [|by left]. rewrite bt_remove_get. case_decide; [|by left].
  right. split_and!; [done| |done]. apply existsb_exists in E as ([a m] & Hin%list_elem_of_In & E).
  apply andb_true_iff in E as [[E1%bool_decide_eq_true E2%negb_true_iff]%andb_true_iff E3]. simpl in *. subst m.
  exists a. split_and!; [by apply bt_get_Some|by apply bool_decide_eq_false in E2|done].
Qed.

Lemma prune_fold ks t :
  bt_wf t ->
  let t' := foldl prune_step t ks in
  bt_wf t' /\ (forall k m, bt_get k t' = Some m -> bt_get k t = Some m) /\
  (forall k m, bt_get k t = Some m -> bt_get k t' = Some m \/ k ∈ ks /\ below_deny t k).
Proof.
  revert t. induction ks as [|k ks IH]; intros t Hwf; simpl; [split_and!; [done|done|by left]|].
  assert (bt_wf (prune_step t k)) as Hwf1.
  { unfold prune_step. destruct (existsb _ _); [by apply bt_wf_remove|done]. }
  destruct (IH _ Hwf1) as (H1 & H2 & H3).
  assert (forall j m, bt_get j (prune_step t k) = Some m -> bt_get j t = Some m) as Hsub.
  { intros j m Hj. destruct (prune_step_get t k j Hwf) as [E|(_ & _ & E)]; congruence. }
  split_and!; [done|intros j m Hj; by apply Hsub, H2|]. intros j m Hj.
  destruct (prune_step_get t k j Hwf) as [E|(-> & Hb & _)]; [|right; split; [set_solver|done]].
  rewrite <- E in Hj. destruct (H3 j m Hj) as [?|[Hin (a & Ha & Hne & Hw)]]; [by left|]. right. split; [set_solver|].
  exists a. split_and!; [by apply Hsub|done|done].
Qed.

Section prune.
Context (mounts : Mounts).
Hypothesis mounts_wf : bt_wf mounts.
Hypothesis mounts_shape : forall k m, bt_get k mounts = Some m -> lexical_shape k.

(** Above every pruned entry there is a topmost denied one, which stays. *)
Lemma topmost_deny k :
  below_deny mounts k -> lexical_shape k ->
  exists a, bt_get a mounts = Some MountDeny /\ a <> k /\ is_within (collect_path k) (collect_path a) = true /\
    ~ below_deny mounts a.
Proof.
  intros (a & Ha & Hne & Hw) Hk. remember (length a) as n eqn:Hn. revert a Hn Ha Hne Hw.
  induction n as [n IH] using lt_wf_ind. intros a -> Ha Hne Hw.
  destruct (existsb (fun e => bool_decide (e.2 = MountDeny) && negb (bool_decide (e.1 = a))
                              && is_within (collect_path a) (mount_path e)) mounts) eqn:E.
  - apply existsb_exists in E as ([a' m] & Hin%list_elem_of_In & E).
    apply andb_true_iff in E as [[E1%bool_decide_eq_true E2%negb_true_iff]%andb_true_iff E3]. simpl in *. subst m.
    apply bool_decide_eq_false in E2. assert (bt_get a' mounts = Some MountDeny) as Ha' by by apply bt_get_Some.
    assert (a' `prefix_of` a /\ a `prefix_of` k) as [Hp1 Hp2].
    { unfold mount_path in E3. simpl in E3. apply is_within_prefix_of in E3, Hw.
      rewrite !lexical_collect in E3, Hw by eauto. done. }
    apply (IH (length a')) with (a := a'); [|done|done| |].
    + destruct Hp1 as [l ->]. destruct l as [|x l]; [by rewrite app_nil_r in E2|]. rewrite length_app. simpl. lia.
    + intros ->. apply Hne. apply (anti_symm prefix); [exact Hp2|exact Hp1].
    + by eapply is_within_trans.
  - exists a. split_and!; [done..|]. intros (a' & Ha' & Hne' & Hw').
    apply not_true_iff_false in E. apply E, existsb_exists. exists (a', MountDeny).
    split; [apply list_elem_of_In; by apply bt_get_Some|]. simpl. by rewrite bool_decide_eq_false_2.
Qed.

Lemma prune_get k m :
  bt_get k mounts = Some m ->
  bt_get k (prune_redundant_denied_descendants mounts) = Some m \/
  m = MountDeny /\ exists a, bt_get a (prune_redundant_denied_descendants mounts) = Some MountDeny /\
    bt_get a mounts = Some MountDeny /\ a <> k /\ is_within (collect_path k) (collect_path a) = true.
Proof.
  intros Hk. unfold prune_redundant_denied_descendants. cbv zeta.
  set (ks := (fun e => e.1) <$> _). destruct (prune_fold ks mounts mounts_wf) as (_ & _ & Hp).
  change (foldl _ mounts ks) with (foldl prune_step mounts ks).
  destruct (Hp k m Hk) as [?|[Hin Hb]]; [by left|]. right. split.
  - subst ks. apply list_elem_of_fmap in Hin as ([j m'] & -> & [Hm Hin]%list_elem_of_filter). simpl in *. subst m'.
    apply bt_get_Some in Hin; [|done]. congruence.
  - destruct (topmost_deny k Hb) as (a & Ha & Hne & Hw & Hn); [by eapply mounts_shape|]. exists a. split_and!; [|done..].
    destruct (Hp a MountDeny Ha) as [?|[_ ?]]; [done|by destruct Hn].
Qed.

Lemma prune_sub k m :
  bt_get k (prune_redundant_denied_descendants mounts) = Some m -> bt_get k mounts = Some m.
Proof using mounts_wf. apply (prune_fold _ mounts mounts_wf). Qed.

End prune.

Section masks.
Context {H : Type} `{!LinuxHost H} `{!LinuxHostLaws H}.

(** A later state of a host *)
Definition keeps (h h' : H) : Prop :=
  effective_uid h' = effective_uid h /\
  forall p, is_within p (shared_state_root h) = false -> present h p -> present h' p.

#[global] Instance keeps_preorder : PreOrder keeps.
Proof.
  split; [by intros h|]. intros h1 h2 h3 [E1 K1] [E2 K2]. split; [congruence|]. intros p Hp Hpr. apply K2; [|by apply K1].
  unfold shared_state_root in *. by rewrite E1.
Qed.

(** * Missing masks *)

(** A mask whose first missing component is below no writable root *)
Definition removed_mask (h : H) (roots : list path) (k : fs_path) : Prop :=
  exists h1 f, keeps h h1 /\ first_missing_component h1 (collect_path k) = Ok (Some f) /\
    existsb (fun root => is_within f root) roots = false.

Lemma inspect_mask_keeps st e h st' h' :
  inspect_mask st e h = (Ok st', h') -> keeps h h' /\ (forall x, x ∈ st'.2 -> x ∈ st.2 \/ x = e).
Proof.
  unfold inspect_mask. intros (md & h1 & [= <- <-] & Hi)%hbind_Ok.
  destruct (symlink_metadata h (mount_path e)) as [md|[|source]]; [|injection Hi as <- <-; split; [done|simpl; set_solver]|done].
  apply hbind_Ok in Hi as (joined & h2 & Hj & [= <- <-]). split; [|simpl; auto].
  by apply join_keeps in Hj.
Qed.

Section place.
Context (h0 : H) (roots : list path) (mounts : Mounts).
Hypothesis mounts_wf : bt_wf mounts.
Hypothesis mounts_shape : forall k m, bt_get k mounts = Some m -> lexical_shape k.

(** The table while missing masks are placed: entries of the original one,
    less removed masks *)
Definition placing (t : Mounts) : Prop :=
  bt_wf t /\ (forall k m, bt_get k t = Some m -> bt_get k mounts = Some m) /\
  (forall k m, bt_get k mounts = Some m ->
     bt_get k t = Some m \/ is_mask m = true /\ removed_mask h0 roots k).

Lemma place_removed t e : placing t -> e ∈ masks mounts -> removed_mask h0 roots e.1 -> placing (bt_remove e.1 t).
Proof.
  intros (Hwf & Hsub & Hcov) [Hm He]%list_elem_of_filter Hr. split_and!; [by apply bt_wf_remove|..].
  - intros k m. rewrite bt_remove_get. case_decide; [done|apply Hsub].
  - intros k m Hk. rewrite bt_remove_get. case_decide as Heq; [|by apply Hcov]. right. subst k. split; [|done].
    destruct e as [k m']. simpl in *. apply bt_get_Some in He; [|done]. congruence.
Qed.

Lemma path_eqb_key f k : lexical_shape k -> path_eqb f (collect_path k) = true -> mount_key f = k.
Proof.
  intros Hk Heq%bool_decide_eq_true. rewrite mount_key_eq. rewrite components_collect in Heq by done.
  unfold lexical_components. rewrite Heq. by apply lexical_shape_no_cur_dir.
Qed.

Lemma place_created t e f :
  placing t -> e ∈ masks mounts -> path_eqb f (mount_path e) = true -> placing (insert_mount (bt_remove e.1 t) f e.2).
Proof.
  intros (Hwf & Hsub & Hcov) [Hm He]%list_elem_of_filter Hf. destruct e as [k0 m0]. simpl in *.
  apply bt_get_Some in He as Hget; [|done]. apply path_eqb_key in Hf as Hkey; [|by eapply mounts_shape].
  assert (forall k, bt_get k (insert_mount (bt_remove k0 t) f m0) = if decide (k = k0) then Some m0 else bt_get k t) as Hins.
  { intros k. simpl in Hkey. rewrite insert_mount_get, Hkey, bt_remove_get. by destruct (decide (k = k0)). }
  split_and!; [by apply insert_mount_wf, bt_wf_remove|..].
  - intros k m. rewrite Hins. case_decide; [intros [= <-]; congruence|apply Hsub].
  - intros k m Hk. rewrite Hins. case_decide as Heq; [left; congruence|by apply Hcov].
Qed.

Lemma place_missing_placing st e h st' h' :
  e ∈ masks mounts -> keeps h0 h -> placing st.2 ->
  place_missing_mask roots st e h = (Ok st', h') -> keeps h0 h' /\ placing st'.2.
Proof.
  intros He Hh Hp. destruct st as [targets t]. unfold place_missing_mask.
  intros (missing & h1 & [= <- <-] & Hm)%hbind_Ok. apply hbind_Ok in Hm as (first & h1 & Hlift & Hm).
  injection Hlift as Hfirst <-. destruct first as [f|]; [|by injection Hm as <- <-].
  destruct (negb _) eqn:Hroots.
  - injection Hm as <- <-. split; [done|]. simpl. apply place_removed; [done|done|].
    exists h, f. split_and!; [done|done|]. by apply negb_true_iff.
  - apply hbind_Ok in Hm as (u & h1 & [= _ <-] & Hm). destruct (path_eqb f (mount_path e)) eqn:Heq; [|by injection Hm as <- <-].
    apply hbind_Ok in Hm as ([] & h1 & Hc & [= <- <-]). apply create_keeps in Hc. split; [by etrans|].
    simpl. by apply place_created.
Qed.

Lemma materialize_spec h targets t h' :
  keeps h0 h -> materialize_missing_masks roots mounts h = (Ok (targets, t), h') ->
  keeps h0 h' /\
  exists placed, placing placed /\ t = prune_redundant_denied_descendants placed.
Proof.
  intros Hk. unfold materialize_missing_masks.
  intros (checked & h1 & [= <- <-] & Hm)%hbind_Ok. apply hbind_Ok in Hm as (u & h1 & [= _ <-] & Hm).
  apply hbind_Ok in Hm as (u' & h1 & Hlock & Hm). apply lock_keeps in Hlock.
  apply hbind_Ok in Hm as (inspected & h2 & Hi & Hm).
  assert (keeps h0 h2 /\ forall e, e ∈ inspected.2 -> e ∈ masks mounts) as [Hk2 Hsub].
  { eapply (hfold_inv (fun st h => keeps h0 h /\ forall e, e ∈ st.2 -> e ∈ masks mounts)); [| |exact Hi].
    - intros st e ha st' hb Hin [Hka Hst] Hstep. apply inspect_mask_keeps in Hstep as [Hab Hnew].
      split; [by etrans|]. intros x Hx. destruct (Hnew x Hx) as [?| ->]; auto.
    - split; [by etrans|]. simpl. set_solver. }
  apply hbind_Ok in Hm as (placed & h3 & Hplace & [= <- <- <-]).
  assert (keeps h0 h3 /\ placing placed.2) as [Hk3 Hp].
  { eapply (hfold_inv (fun st h => keeps h0 h /\ placing st.2)); [| |exact Hplace].
    - intros st e ha st' hb Hin [Hka Hst]. eapply place_missing_placing; auto.
    - split; [done|]. simpl. split_and!; [done|done|by left]. }
  split; [done|]. eauto.
Qed.

End place.

(** * The entry that governs a path *)

Section governed.
Context {U : Unicode} {G : Globset} {W : WildMatch}.
Context {B : Type} `{!SandboxBackend B} (b : B) (prepared : PreparedBackendRequest).
Context (h : H) (mounts : Mounts) (monitored : list path) (final : Mounts).
Hypothesis collected : table_collected b prepared h mounts monitored.
Hypothesis placed : exists t, placing h (writable_mounts mounts) mounts t /\ final = prune_redundant_denied_descendants t.

Lemma final_sub k m : bt_get k final = Some m -> bt_get k mounts = Some m.
Proof.
  destruct placed as (t & (Hwf & Hsub & _) & ->). intros Hk. by apply Hsub, (prune_sub t Hwf).
Qed.

(** What the final table has lost of the collected one *)
Lemma final_lost k m :
  bt_get k mounts = Some m ->
  bt_get k final = Some m \/ is_mask m = true /\ removed_mask h (writable_mounts mounts) k \/
  exists a, bt_get a final = Some MountDeny /\ a <> k /\ a `prefix_of` k.
Proof.
  destruct (tc_ok _ _ _ _ _ collected) as [_ Hok].
  destruct placed as (t & (Hwf & Hsub & Hcov) & ->). intros Hk. destruct (Hcov k m Hk) as [Ht|Hr]; [|auto].
  destruct (prune_get t) with (k := k) (m := m) as [?|[_ (a & Ha & Hat & Hne & Hw)]]; [done| |done|auto|].
  - intros j m' Hj. by eapply Hok, Hsub.
  - right; right. exists a. split_and!; [done|done|]. apply is_within_prefix_of in Hw.
    rewrite !lexical_collect in Hw; [done|by apply (Hok k m)|by apply (Hok a MountDeny), Hsub].
Qed.

(** ** What the table is expected to cover *)

(** No scope above the path was skipped because it is missing. *)
Definition scopes_present (p : path) : Prop :=
  forall layer rule selector root, layer ∈ request_layers prepared -> rule ∈ entries layer ->
    target rule = Scope selector -> root ∈ resolve selector (request_context prepared) -> is_within p root = true ->
    missing_path_behavior rule = MSkip -> symlink_metadata h root <> Err NotFound.

(** A glob that matches the path found it. *)
Definition globs_scanned (p : path) : Prop :=
  forall layer rule pattern, layer ∈ request_layers prepared -> rule ∈ entries layer -> target rule = Glob pattern ->
    pattern_matches pattern p (request_context prepared) = true ->
    exists q, found h pattern (prepared_context prepared) (request_depth prepared) q /\
      matched pattern (prepared_context prepared) q /\ lexical_components q = lexical_components p.

(** The path is protected only by a protected path of a writable root that is
    not left to the monitor. *)
Definition protected_at_root (p : path) : Prop :=
  forall layer, layer ∈ request_layers prepared -> is_protected_path layer p = true ->
    exists q w, q ∈ protected_relative_paths layer /\ bt_get w mounts = Some MountWrite /\
      w ++ lexical_components q `prefix_of` lexical_components p /\
      forall p', p' ∈ monitored -> lexical_components p' <> w ++ lexical_components q.

(** No writable entry lies below a denied one. *)
Definition no_write_below_deny (t : Mounts) : Prop :=
  forall a g, bt_get a t = Some MountDeny -> bt_get g t = Some MountWrite -> ~ a `prefix_of` g.

Context (p : path) (g : fs_path).
Hypothesis p_valid : valid_absolute p.
Hypothesis unnested : no_write_below_deny mounts.
Hypothesis g_write : bt_get g final = Some MountWrite.
Hypothesis g_covers : g `prefix_of` lexical_components p.
Hypothesis g_deepest : forall k m, bt_get k final = Some m -> k `prefix_of` lexical_components p -> length k <= length g.

Lemma g_collected : bt_get g mounts = Some MountWrite.
Proof. by apply final_sub. Qed.

Lemma g_decided : decided b prepared (collect_path g) FWrite.
Proof. destruct (tc_ok _ _ _ _ _ collected) as [_ Hok]. by apply (Hok g MountWrite g_collected). Qed.

Lemma g_shape : lexical_shape g.
Proof. destruct (tc_ok _ _ _ _ _ collected) as [_ Hok]. by apply (Hok g MountWrite g_collected). Qed.

Lemma g_present : exists p0, mount_key p0 = g /\ present h p0 /\ is_within p0 (shared_state_root h) = false.
Proof.
  destruct (tc_ok _ _ _ _ _ collected) as [_ Hok]. destruct (Hok g MountWrite g_collected) as [_ [_ (p0 & Hp0 & Hpres)]].
  exists p0. split_and!; [done|done|]. apply not_true_iff_false. intros Hw.
  apply is_within_prefix_of in Hw as Hpre. rewrite <- !mount_key_eq, Hp0 in Hpre.
  destruct (tc_reserved _ _ _ _ _ collected g MountWrite g_collected) as [[_ ?]|Hr]; [done|].
  apply andb_false_iff in Hr as [Hr%negb_false_iff|Hr].
  - apply bool_decide_eq_true in Hr. rewrite (components_collect g g_shape) in Hr. rewrite Hr in Hpre.
    apply prefix_length in Hpre. rewrite mount_key_eq in Hpre. unfold shared_state_root in Hpre.
    rewrite lexical_components_join in Hpre by done. rewrite length_app in Hpre. change (length (components "/")) with 1 in Hpre.
    change (length (lexical_components SHARED_SETUP_DIRECTORY)) with 2 in Hpre. lia.
  - apply orb_false_iff in Hr as [_ Hr]. rewrite (is_within_lexical _ p0 _ (shared_state_root h)) in Hr; [congruence| |done].
    by rewrite lexical_collect, <- mount_key_eq by apply g_shape.
Qed.

Lemma g_nonempty : g <> [].
Proof.
  pose proof (decided_valid _ _ _ _ g_decided) as (Ha & _ & _). intros Hnil. by rewrite Hnil in Ha.
Qed.

Lemma prefix_total (k j l : fs_path) : k `prefix_of` l -> j `prefix_of` l -> k `prefix_of` j \/ j `prefix_of` k.
Proof.
  intros [k' Hk] [j' Hj]. rewrite Hk in Hj. apply app_eq_inv in Hj as [(x & -> & _)|(x & -> & _)]; [right|left]; by eexists.
Qed.

Lemma pushed_take (q : path) n : 1 <= n <= length (components q) -> collect_path (take n (components q)) ∈ pushed q.
Proof.
  intros Hn. unfold pushed. apply list_elem_of_fmap. exists n. split; [done|]. apply elem_of_seq. lia.
Qed.

(** An existing root keeps the masks below it. *)
Lemma not_removed k : k `prefix_of` lexical_components p -> g `prefix_of` k -> ~ removed_mask h (writable_mounts mounts) k.
Proof.
  intros Hkp Hgk (h1 & f & Hkeep & Hf & Hroots).
  assert (lexical_shape k) as Hk by (eapply prefix_shape; [exact Hkp|apply lexical_components_shape]).
  assert (forall l, first_missing_loop h1 l = Ok (Some f) -> f ∈ l /\ symlink_metadata h1 f = Err NotFound) as Hloop.
  { induction l as [|x l IH]; simpl; [done|]. destruct (symlink_metadata h1 x) as [md|[|source]] eqn:E; [| |done].
    - intros [? ?]%IH. set_solver.
    - intros [= <-]. set_solver. }
  apply Hloop in Hf as [Hin Hmissing]. unfold pushed in Hin. rewrite components_collect in Hin by done.
  apply list_elem_of_fmap in Hin as (n & -> & Hn%elem_of_seq).
  assert (take n k `prefix_of` k) as Htake by (exists (drop n k); by rewrite take_drop).
  destruct (prefix_total g (take n k) k Hgk Htake) as [Hpre|Hpre].
  - apply not_true_iff_false in Hroots. apply Hroots, existsb_exists. exists (collect_path g).
    split; [by apply list_elem_of_In, writable_mounts_elem, g_collected|].
    apply within_keys; [by eapply prefix_shape|apply g_nonempty| |done].
    eapply prefix_no_parent; [by etrans|]. unfold no_parent. rewrite <- contains_parent_traversal_lexical. apply p_valid.
  - destruct g_present as (p0 & Hp0 & Hpres & Hstate).
    assert (present h1 (collect_path (take n k))) as [md Hmd]; [|congruence].
    apply (lstat_pushed h1 p0); [by apply Hkeep|].
    rewrite <- collect_lexical, <- mount_key_eq, Hp0. replace (take n k) with (take n g).
    + rewrite <- (components_collect g g_shape) at 1. apply pushed_take. rewrite (components_collect g g_shape).
      apply prefix_length in Hpre. rewrite length_take in Hpre. lia.
    + destruct Hpre as [l Hl]. rewrite Hl, take_app_le by (rewrite length_take; lia). rewrite take_take. f_equal. lia.
Qed.

(** An entry of the collected table that covers [p] covers the governing one. *)
Lemma covers_governing k m : bt_get k mounts = Some m -> k `prefix_of` lexical_components p -> k `prefix_of` g.
Proof.
  intros Hk Hkp. destruct (prefix_total g k _ g_covers Hkp) as [Hgk|?]; [|done].
  assert (bt_get k final = Some m) as Hfinal.
  { destruct (final_lost k m Hk) as [?|[[_ Hr]|(a & Ha & Hne & Hak)]]; [done|by destruct (not_removed k)|].
    exfalso. destruct (prefix_total a g k Hak Hgk) as [Hag|Hga].
    - by apply (unnested a g); [apply final_sub|apply g_collected|].
    - assert (length a <= length g) as Hlen by (eapply g_deepest; [exact Ha|by etrans]).
      apply (unnested a g); [by apply final_sub|apply g_collected|].
      rewrite (prefix_length_eq g a); done. }
  pose proof (g_deepest k m Hfinal Hkp) as Hlen. by rewrite (prefix_length_eq g k).
Qed.

(** ** The decision of a governed path *)

Lemma decided_write_layer layer q :
  layer ∈ request_layers prepared -> decided b prepared q FWrite ->
  access_for_path layer q (request_context prepared) = Ok FWrite.
Proof.
  intros Hlayer (d1 & d2 & H1 & H2 & Hw)%decided_layers. symmetry in Hw. apply combine_write in Hw as [-> ->].
  unfold request_layers in Hlayer. simpl in Hlayer. set_solver.
Qed.

Hypothesis layers_valid : Forall (fun layer => policy_validate layer = Ok ()) (request_layers prepared).
Hypothesis p_present : scopes_present p.

Lemma within_governing q r :
  is_within p r = true -> is_within p q = true -> lexical_components r `prefix_of` lexical_components q ->
  is_within q r = true.
Proof.
  intros Hr Hq Hpre. apply is_within_true in Hr as (_ & Hr & _ & Hrel), Hq as (_ & Hq & _ & _).
  apply is_within_true. split_and!; [done|done|done|]. intros Hnil. specialize (Hrel Hnil).
  destruct p_valid as [Ha _]. congruence.
Qed.

(** A root of the rules that covers [p] covers everything between [p] and the
    governing entry, or is itself decided writable. *)
Lemma root_between q layer rule selector root :
  g `prefix_of` lexical_components q -> is_within p q = true ->
  layer ∈ request_layers prepared -> rule ∈ entries layer -> target rule = Scope selector ->
  root ∈ resolve selector (request_context prepared) -> is_within p root = true ->
  is_within q root = true /\
  forall subpath r, subpath ∈ read_only_subpaths rule -> r ∈ resolve subpath (request_context prepared) ->
    is_within p r = true -> is_within q r = true \/ decided b prepared r FWrite.
Proof.
  intros Hgq Hq Hlayer Hrule Ht Hroot Hp.
  pose proof (tc_rules _ _ _ _ _ collected layer rule Hlayer Hrule) as Hcol. unfold rule_collected in Hcol. rewrite Ht in Hcol.
  destruct (Hcol root Hroot) as [Hscope Hsub].
  assert (forall r, is_Some (bt_get (mount_key r) mounts) -> is_within p r = true -> is_within q r = true) as Hkey.
  { intros r [m Hm] Hr. apply within_governing; [done|done|]. rewrite mount_key_eq in Hm.
    etrans; [|exact Hgq]. eapply covers_governing; [exact Hm|]. by apply is_within_prefix_of. }
  assert (is_within q root = true) as Hqroot.
  { destruct Hscope as [Hs|[Hskip Hmissing]]; [by apply Hkey|]. by destruct (p_present layer rule selector root). }
  split; [done|]. intros subpath r Hsp Hr Hpr.
  destruct (prefix_total (lexical_components root) (lexical_components r) (lexical_components p)) as [Hpre|Hpre];
    [by apply is_within_prefix_of..| |].
  - destruct (Hsub subpath r Hsp Hr) as [Hs|?]; [|left; by apply Hkey|by right].
    apply is_within_true in Hp as (_ & Hn & _ & Hrel), Hpr as (_ & Hn' & _ & _). apply is_within_true.
    split_and!; [done|done|done|]. intros Hnil. specialize (Hrel Hnil). destruct p_valid as [Ha _]. congruence.
  - left. apply within_governing; [done|done|]. etrans; [exact Hpre|]. by apply is_within_prefix_of.
Qed.

(** The read-only subpaths of the rules with a scope above [p] *)
Definition active_subpaths (rule : FilesystemRule) : list path :=
  match target rule with
  | Scope selector =>
      if existsb (fun root => is_within p root) (resolve selector (request_context prepared))
      then mjoin ((fun subpath => resolve subpath (request_context prepared)) <$> read_only_subpaths rule)
      else []
  | Glob _ => []
  end.

Lemma active_subpath_elem rule selector root subpath r :
  target rule = Scope selector -> root ∈ resolve selector (request_context prepared) -> is_within p root = true ->
  subpath ∈ read_only_subpaths rule -> r ∈ resolve subpath (request_context prepared) -> r ∈ active_subpaths rule.
Proof.
  intros Ht Hroot Hp Hs Hr. unfold active_subpaths. rewrite Ht.
  assert (existsb (fun root => is_within p root) (resolve selector (request_context prepared)) = true) as ->.
  { apply existsb_exists. exists root. by rewrite <- list_elem_of_In. }
  apply list_elem_of_join. eexists. split; [exact Hr|]. apply list_elem_of_fmap. eauto.
Qed.

Definition uncovered (q : path) (layer : FilesystemPolicy) : bool :=
  existsb (fun rule => existsb (fun r => is_within p r && negb (is_within q r)) (active_subpaths rule)) (entries layer).

Section anchor.
Context (q : path).
Hypothesis g_above : g `prefix_of` lexical_components q.
Hypothesis p_below : is_within p q = true.

(** A root that does not cover [q] is a deeper writable path. *)
Lemma uncovered_deeper :
  existsb (uncovered q) (request_layers prepared) = true ->
  exists r, is_within p r = true /\ decided b prepared r FWrite /\ lexical_components q `prefix_of` lexical_components r /\
    length (lexical_components q) < length (lexical_components r).
Proof.
  intros (layer & Hlayer%list_elem_of_In & E)%existsb_exists. apply existsb_exists in E as (rule & Hrule%list_elem_of_In & E).
  apply existsb_exists in E as (r & Hr%list_elem_of_In & [Hpr Hqr%negb_true_iff]%andb_true_iff).
  unfold active_subpaths in Hr. destruct (target rule) as [selector|] eqn:Ht; [|by apply not_elem_of_nil in Hr].
  destruct (existsb _ (resolve selector _)) eqn:Hex; [|by apply not_elem_of_nil in Hr].
  apply existsb_exists in Hex as (root & Hroot%list_elem_of_In & Hp).
  apply list_elem_of_join in Hr as (rs & Hrs & (subpath & -> & Hsp)%list_elem_of_fmap).
  destruct (root_between q layer rule selector root) as [_ Hsub]; [done..|].
  destruct (Hsub subpath r Hsp Hrs Hpr) as [?|Hdr]; [congruence|]. exists r.
  assert (~ lexical_components r `prefix_of` lexical_components q) as Hnot.
  { intros Hpre. by rewrite (within_governing q r) in Hqr. }
  destruct (prefix_total (lexical_components q) (lexical_components r) (lexical_components p)) as [Hpre|?];
    [by apply is_within_prefix_of..| |done].
  split_and!; [done|done|done|]. apply prefix_length in Hpre as Hlen.
  destruct (decide (length (lexical_components r) <= length (lexical_components q))) as [Hle|]; [|lia].
  destruct Hnot. by rewrite (prefix_length_eq _ _ Hpre Hle).
Qed.

Lemma covered_roots :
  existsb (uncovered q) (request_layers prepared) = false ->
  Forall (fun layer => roots_cover layer (request_context prepared) p q) (request_layers prepared).
Proof.
  intros E. apply Forall_forall. intros layer Hlayer rule selector root Hrule Ht Hroot Hp.
  destruct (root_between q layer rule selector root) as [Hq _]; [done..|]. split; [done|].
  intros subpath r Hsp Hr Hpr. apply not_false_iff_true. intros Hqr. apply not_true_iff_false in E. apply E.
  apply existsb_exists. exists layer. split; [by apply list_elem_of_In|].
  apply existsb_exists. exists rule. split; [by apply list_elem_of_In|].
  apply existsb_exists. exists r. split; [by eapply list_elem_of_In, active_subpath_elem|]. by rewrite Hpr, Hqr.
Qed.

End anchor.

(** The deepest writable path above [p] that every root covers *)
Lemma deepest_write n q :
  length (lexical_components p) - length (lexical_components q) <= n ->
  g `prefix_of` lexical_components q -> is_within p q = true -> decided b prepared q FWrite ->
  exists q', is_within p q' = true /\ decided b prepared q' FWrite /\
    Forall (fun layer => roots_cover layer (request_context prepared) p q') (request_layers prepared).
Proof.
  revert q. induction n as [|n IH]; intros q Hn Hgq Hq Hd;
    (destruct (existsb (uncovered q) (request_layers prepared)) eqn:E; [|by eauto using covered_roots]);
    destruct (uncovered_deeper q Hgq Hq E) as (r & Hr & Hdr & Hqr & Hlen);
    pose proof (prefix_length _ _ (is_within_prefix_of _ _ Hr)) as Hrp; [lia|].
  apply (IH r); [lia|by etrans|done|done].
Qed.

Hypothesis p_scanned : globs_scanned p.
Hypothesis p_protected : protected_at_root p.

Lemma layer_facts layer : layer ∈ request_layers prepared ->
  (forall rule pattern, rule ∈ entries layer -> target rule = Glob pattern -> access rule = Deny) /\
  (forall q, q ∈ protected_relative_paths layer -> is_absolute q = false /\ lexical_components q <> []) /\
  (mode layer <> Restricted -> protected_relative_paths layer = []).
Proof. intros Hlayer. apply policy_validate_facts. by eapply Forall_forall in layers_valid. Qed.

(** A writable path has no protected components. *)
Lemma decided_write_unprotected layer q :
  layer ∈ request_layers prepared -> decided b prepared q FWrite -> is_protected_path layer q = false.
Proof.
  intros Hlayer Hq. destruct (layer_facts layer Hlayer) as (_ & _ & Hmode).
  destruct (decide (mode layer = Restricted)) as [Hr|Hr]; [|unfold is_protected_path; by rewrite Hmode].
  pose proof (decided_write_layer layer q Hlayer Hq) as Hw. by apply (access_write_inv layer q (request_context prepared)).
Qed.

Lemma governed_unprotected layer : layer ∈ request_layers prepared -> is_protected_path layer p = false.
Proof.
  intros Hlayer. apply not_true_iff_false. intros Hprot.
  destruct (p_protected layer Hlayer Hprot) as (q & w & Hq & Hw & Hpre & Hmon).
  destruct (tc_protected _ _ _ _ _ collected layer q w Hlayer Hq Hw) as (q' & Hcomp & Hguard). cbv zeta in Hguard.
  destruct (layer_facts layer Hlayer) as (_ & Hrel & _). destruct (Hrel q Hq) as [Habs Hne].
  assert (lexical_components q' = lexical_components q) as Hlex by by apply lexical_of_components.
  rewrite lexical_components_join in Hguard by (apply not_true_iff_false; rewrite is_absolute_lexical, Hlex, <- is_absolute_lexical; congruence).
  rewrite lexical_collect, Hlex in Hguard by (by apply (tc_ok _ _ _ _ _ collected) in Hw as [? _]).
  assert (forall r, w ++ lexical_components q `prefix_of` lexical_components r -> decided b prepared r FWrite -> False) as Hno.
  { intros r [l Hl] Hd. apply (decided_write_unprotected layer r Hlayer) in Hd. apply not_true_iff_false in Hd. apply Hd.
    apply existsb_exists. exists q. split; [by apply list_elem_of_In|]. apply contains_component_path_true.
    split; [done|]. exists w, l. by rewrite Hl, app_assoc. }
  destruct Hguard as [[m Hm]|[(r & Hr & Hd)|(r & Hin & Hr)]].
  - apply (Hno (collect_path g)); [|apply g_decided]. rewrite lexical_collect by apply g_shape. by eapply covers_governing.
  - apply (Hno r); [by rewrite Hr|done].
  - by apply (Hmon r).
Qed.

(** What a writable entry governs is writable. *)
Lemma governed_decided : decided b prepared p FWrite.
Proof.
  destruct (decide (g = lexical_components p)) as [Heq|Hne].
  { apply (decided_spelling _ _ (collect_path g)); [done|by rewrite lexical_collect by apply g_shape|apply g_decided]. }
  assert (is_within p (collect_path g) = true) as Hwithin.
  { apply is_within_prefix_iff; [done|by eapply decided_valid, g_decided|]. by rewrite lexical_collect by apply g_shape. }
  destruct (deepest_write (length (lexical_components p)) (collect_path g)) as (q & Hq & Hd & Hcover);
    [lia|by rewrite lexical_collect by apply g_shape|done|apply g_decided|].
  apply (decided_write_extends _ _ p q); try done; apply Forall_forall; intros layer Hlayer.
  - by apply layer_facts.
  - intros rule pattern Hrule Ht. apply not_true_iff_false. intros Hmatch.
    destruct (p_scanned layer rule pattern Hlayer Hrule Ht Hmatch) as (q' & Hfound & Hm & Hlex).
    pose proof (tc_rules _ _ _ _ _ collected layer rule Hlayer Hrule) as Hcol. unfold rule_collected in Hcol.
    rewrite Ht in Hcol. destruct (Hcol q' Hfound Hm) as [m Hget]. rewrite mount_key_eq, Hlex in Hget.
    apply Hne. apply (anti_symm prefix); [done|by eapply covers_governing].
  - by apply governed_unprotected.
Qed.

End governed.
End masks.
