(* ===== verification/LinuxEnforce.v ===== *)
(** What the arguments of a restricted plan expose: every bind is one the
    policy decides, and a path that is writable in the sandbox is writable for
    the policy. *)

From Stdlib Require Import Ascii String NArith Lia.
From stdpp Require Import base option strings gmap pretty sorting list.
From S2P Require Import Prelude Keyed Text BTree NativePath Access Selector PathPattern FsPolicy Domain NetPolicy Policy Environment Command Compose Effective Requirements EffectiveEnv HostFs Backend LinuxHost LinuxGlob LinuxMounts LinuxTable LinuxBwrap LinuxGoverned.

(** * The mounts an emission asks for *)

(** The host file an option binds at [dest]: the file [dest] resolves to, named
    by a descriptor opened on [dest] when that is its own canonical path, and by
    its canonical path otherwise *)
Definition from_host {H} `{!LinuxHost H} `{!HostDescriptors H} (h : H) (files : list N) (op : Op) (dest : path) : Prop :=
  exists canonical, canonicalize h dest = Ok canonical /\
    (path_eqb canonical dest = true /\ op.1 ∈ ["--ro-bind-fd"; "--bind-fd"] /\
       (exists fd, op.2 = [pretty fd; dest] /\ fd ∈ files /\ open_path h fd = Some dest) \/
     path_eqb canonical dest = false /\ op.1 ∈ ["--ro-bind"; "--bind"] /\ op.2 = [canonical; dest]).

(** An option of the manual page whose host file is accounted for *)
Definition accounted {H} `{!LinuxHost H} (gateway : option N) (h : H) (files : list N) (op : Op) : Prop :=
  documented op /\
  forall (D : HostDescriptors H) (L : DescriptorLaws H) dest x, op_mount op = Some (dest, x) -> x <> Private ->
    from_host h files op dest \/ dest = IN_SANDBOX_GATEWAY_SOCKET /\ x = HostRead /\ is_Some gateway.

Definition emitted_on {H} `{!LinuxHost H} (gateway : option N) (h : H) (e : Emission) (ms : list (path * Exposure)) : Prop :=
  exists ops, em_args e = flat ops /\ Forall (accounted gateway h (em_files e)) ops /\ op_mounts ops = ms.

Definition host_of (a : AccessMode) : Exposure :=
  match a with Read => HostRead | Write => HostWrite | Deny => Private end.

Section emission.
Context {H : Type} `{!LinuxHost H} (gateway : option N).
Local Abbreviation emitted := (emitted_on gateway).
Local Abbreviation accounts := (accounted gateway).

(** An option that shows nothing of the host *)
Lemma plain_accounted (h : H) files op :
  documented op -> option_mounts op.1 = None \/ option_mounts op.1 = Some Private -> accounts h files op.
Proof.
  intros Hd Hm. split; [done|]. unfold op_mount. intros D L dest x Hx Hp.
  destruct Hm as [Hm|Hm]; rewrite Hm in Hx; simpl in Hx; [done|]. destruct (last op.2); simplify_eq/=.
Qed.

Lemma emitted_emit (h : H) e ms ops :
  emitted h e ms -> Forall (accounts h (em_files e)) ops -> emitted h (emit e (flat ops)) (ms ++ op_mounts ops).
Proof.
  intros (ops0 & Hargs & Hd & <-) Hops. exists (ops0 ++ ops). simpl. rewrite Hargs, flat_app, Forall_app.
  unfold op_mounts. by rewrite omap_app.
Qed.

Lemma emitted_plain (h : H) e ms ops :
  emitted h e ms -> Forall (accounts h (em_files e)) ops -> op_mounts ops = [] -> emitted h (emit e (flat ops)) ms.
Proof. intros He Hops Hm. rewrite <- (app_nil_r ms), <- Hm. by apply emitted_emit. Qed.

(** A file is opened and kept. *)
Definition opened (h h' : H) : Prop := forall (D : HostDescriptors H) (L : DescriptorLaws H), settled h h'.

Lemma emitted_preserve (h h' : H) e ms fd : opened h h' -> emitted h e ms -> emitted h' (preserve e fd) ms.
Proof.
  intros Hh (ops & Hargs & Hd & Hms). exists ops. split_and!; [done| |done]. eapply Forall_impl; [exact Hd|].
  intros op [Hdoc Hop]. split; [done|]. intros D L dest x Hx Hp. destruct (Hop D L dest x Hx Hp) as [(c & Hc & Hsrc)|?]; [left|by right].
  destruct (Hh D L) as [Hfd Hcan]. exists c. rewrite Hcan. split; [done|]. simpl. setoid_rewrite elem_of_app. naive_solver.
Qed.

(** Every option of a list is one of the manual page that binds no host file. *)
Definition plain_op (op : Op) : bool :=
  existsb (fun e => String.eqb e.1 op.1 && (e.2.1 =? length op.2)%nat) documented_options &&
  match option_mounts op.1 with None | Some Private => true | Some _ => false end.

Lemma plain_ops (h : H) files ops : forallb plain_op ops = true -> Forall (accounts h files) ops.
Proof.
  intros Hops. apply Forall_forall. intros op Hop%list_elem_of_In. rewrite forallb_forall in Hops.
  apply Hops, andb_true_iff in Hop as [Hd Hm]. apply plain_accounted; [by apply documented_compute|].
  destruct (option_mounts op.1) as [[]|]; auto; done.
Qed.

Ltac accounted_ops := apply plain_ops; reflexivity.

Lemma open_mount_source_opens p (h : H) fd h' :
  open_mount_source p h = (Ok fd, h') ->
  opened h h' /\ forall (D : HostDescriptors H) (L : DescriptorLaws H), open_path h' fd = Some p.
Proof.
  unfold open_mount_source. destruct (contains_char NUL p); [done|]. unfold hmap_err.
  destruct (open_read p h) as [[fd'|] h1] eqn:Ho; [|done]. intros [= <- <-].
  split; intros D L; by destruct (open_read_opens p h fd' h1 Ho).
Qed.

Lemma add_bind_emits e ms p a (h : H) e' h' :
  emitted h e ms -> add_bind e p a h = (Ok e', h') -> emitted h' e' (ms ++ [(p, host_of a)]).
Proof.
  intros He. unfold add_bind. intros (c & h1 & [= <- <-] & Ha)%hbind_Ok. apply hbind_Ok in Ha as (canonical & h2 & Hc & Ha).
  injection Hc as Hc%map_err_Ok <-. destruct (path_eqb canonical p) eqn:Heq.
  - unfold add_bind_fd in Ha. apply hbind_Ok in Ha as (fd & h1 & [Hopen Hfd]%open_mount_source_opens & Ha).
    assert (forall flag, documented (flag, [pretty fd; p]) -> flag ∈ ["--ro-bind-fd"; "--bind-fd"] ->
              accounts h1 (em_files e ++ [fd]) (flag, [pretty fd; p])) as Hacc.
    { intros flag Hd Hflag. split; [done|]. intros D L dest x Hx _. left.
      assert (dest = p) as -> by (unfold op_mount in Hx; simpl in Hx; destruct (option_mounts flag); by simplify_eq/=).
      destruct (Hopen D L) as [_ Hcan]. exists canonical. rewrite Hcan. split; [done|]. left. split_and!; [done|done|].
      exists fd. split_and!; [done| |auto]. apply elem_of_app. right. apply list_elem_of_here. }
    apply (emitted_preserve _ h1 _ _ fd Hopen) in He. destruct a; [injection Ha as <- <-..|done].
    + apply (emitted_emit h1 (preserve e fd) ms [("--ro-bind-fd", [pretty fd; p])] He).
      apply Forall_singleton, Hacc; [by apply documented_compute|set_solver].
    + apply (emitted_emit h1 (preserve e fd) ms [("--bind-fd", [pretty fd; p])] He).
      apply Forall_singleton, Hacc; [by apply documented_compute|set_solver].
  - assert (forall flag, documented (flag, [canonical; p]) -> flag ∈ ["--ro-bind"; "--bind"] ->
              accounts h (em_files e) (flag, [canonical; p])) as Hacc.
    { intros flag Hd Hflag. split; [done|]. intros D L dest x Hx _. left.
      assert (dest = p) as -> by (unfold op_mount in Hx; simpl in Hx; destruct (option_mounts flag); by simplify_eq/=).
      exists canonical. split; [done|]. by right. }
    destruct a; [injection Ha as <- <-..|done].
    + apply (emitted_emit h e ms [("--ro-bind", [canonical; p])] He).
      apply Forall_singleton, Hacc; [by apply documented_compute|set_solver].
    + apply (emitted_emit h e ms [("--bind", [canonical; p])] He).
      apply Forall_singleton, Hacc; [by apply documented_compute|set_solver].
Qed.

(** A file opened for its contents *)
Lemma open_read_opened {E F} (f : F -> E) (g : IoError -> F) p (h : H) fd h' :
  hmap_err (fun source => f (g source)) (open_read p) h = (Ok fd, h') -> opened h h'.
Proof.
  unfold hmap_err. destruct (open_read p h) as [[fd'|] h1] eqn:Ho; [|done]. intros [= <- <-] D L.
  by destruct (open_read_opens p h fd' h1 Ho).
Qed.

Lemma add_empty_mask_file_emits e ms p permissions (h : H) e' h' :
  emitted h e ms -> add_empty_mask_file e p permissions h = (Ok e', h') -> emitted h' e' (ms ++ [(p, Private)]).
Proof.
  intros He. unfold add_empty_mask_file. intros (fd & h1 & Ho%open_read_opened & [= <- <-])%hbind_Ok.
  apply (emitted_preserve _ h1 _ _ fd Ho) in He.
  apply (emitted_emit h1 (preserve e fd) ms [("--perms", [permissions]); ("--ro-bind-data", [pretty fd; p])] He). accounted_ops.
Qed.

Lemma foldl_emitted {A} (f : Emission -> A -> Emission) l (h : H) e ms :
  (forall e x, emitted h e ms -> emitted h (f e x) ms) -> emitted h e ms -> emitted h (foldl f e l) ms.
Proof. intros Hf. revert e. induction l; simpl; auto. Qed.

Lemma emit_dir_emits (h : H) e ms k : emitted h e ms -> emitted h (emit e ["--dir"; collect_path k]) ms.
Proof. intros He. apply (emitted_plain h e ms [("--dir", [collect_path k])] He); [accounted_ops|done]. Qed.

Lemma emit_parent_dir_emits (h : H) e ms k : emitted h e ms -> emitted h (emit_parent_dir e k) ms.
Proof. intros He. unfold emit_parent_dir. case_bool_decide; [done|]. by apply emit_dir_emits. Qed.

Lemma missing_parents_emits (h : H) e ms target first_missing :
  emitted h e ms -> emitted h (append_missing_mount_parent_dirs e target first_missing) ms.
Proof.
  intros He. unfold append_missing_mount_parent_dirs. destruct (HostFs.parent _); [|done]. destruct (negb _); [done|].
  apply foldl_emitted; [|done]. intros. by apply emit_parent_dir_emits.
Qed.

(** A mask mounts something unwritable over its path, or is a denied link that
    no writable root holds. *)
Definition masked_by (h : H) (roots : list path) (p : path) (m : Mount) (ms ms' : list (path * Exposure)) : Prop :=
  (exists x, ms' = ms ++ [(p, x)] /\ (x = Private \/ x = HostRead /\ m = MountReadOnly)) \/
  (ms' = ms /\ m = MountDeny /\ first_writable_symlink h p roots = None /\
   exists md, symlink_metadata h p = Ok md /\ is_symlink md = true).

Lemma add_mask_emits e ms p m roots ordered (h : H) e' h' :
  emitted h e ms -> add_mask e p m roots ordered h = (Ok e', h') ->
  exists ms', emitted h' e' ms' /\ masked_by h roots p m ms ms'.
Proof.
  intros He. unfold add_mask, masked_by. destruct (path_eqb p "/"); [done|].
  intros (link & h1 & [= <- <-] & Ha)%hbind_Ok. destruct (first_writable_symlink h p roots) eqn:Hlink; [done|].
  apply hbind_Ok in Ha as (md & h1 & [= <- <-] & Ha). destruct (symlink_metadata h p) as [md|[|source]] eqn:Hmd; [| |done].
  - destruct (is_symlink md && _) eqn:Hdeny.
    { injection Ha as <- <-. apply andb_true_iff in Hdeny as [Hs ->%bool_decide_eq_true]. exists ms. split; [done|]. right. split_and!; eauto. }
    case_bool_decide as Hro.
    { subst m. apply (add_bind_emits _ ms) in Ha; [|done]. eexists. split; [exact Ha|]. left. eauto. }
    destruct (is_dir md).
    + apply hbind_Ok in Ha as (ts & h1 & [= <- <-] & Ha). apply hbind_Ok in Ha as (targets & h2 & [= _ <-] & [= <- <-]).
      exists (ms ++ [(p, Private)]). split; [|left; eauto].
      apply (emitted_plain _ _ _ [("--remount-ro", [p])]); [|accounted_ops|done].
      apply foldl_emitted; [by intros; apply emit_dir_emits|].
      apply (emitted_emit h e ms [("--perms", [_]); ("--tmpfs", [p])] He). accounted_ops.
    + apply (add_empty_mask_file_emits _ ms) in Ha; [|done]. eexists. split; [exact Ha|]. left. eauto.
  - apply hbind_Ok in Ha as (o & h1 & [= <- <-] & Ha). apply hbind_Ok in Ha as ([first_missing|] & h2 & [= _ <-] & Ha); [|done].
    apply (add_empty_mask_file_emits _ ms) in Ha; [|by apply missing_parents_emits].
    eexists. split; [exact Ha|]. left. eauto.
Qed.

(** The runtime directory shows the helper and, with a gateway, its socket. *)
Lemma private_runtime_emits e ms helper (h : H) e' h' :
  emitted h e ms -> append_private_runtime e helper gateway h = (Ok e', h') ->
  emitted h' e' (ms ++ (IN_SANDBOX_HELPER_PATH, Private) ::
    match gateway with Some _ => [(IN_SANDBOX_GATEWAY_SOCKET, HostRead)] | None => [] end).
Proof.
  intros He. unfold append_private_runtime. intros (e1 & h1 & Hs & Ha)%hbind_Ok.
  assert (emitted h1 e1 (ms ++ [(IN_SANDBOX_HELPER_PATH, Private)])) as He1.
  { unfold add_executable_snapshot in Hs. apply hbind_Ok in Hs as (fd & h2 & Ho%open_read_opened & [= <- <-]).
    apply (emitted_plain _ _ _ [("--dir", [PRIVATE_RUNTIME_ROOT])]) in He; [|accounted_ops|done].
    apply (emitted_plain _ _ _ [("--chmod", ["0500"; PRIVATE_RUNTIME_ROOT])]) in He; [|accounted_ops|done].
    apply (emitted_preserve _ h2 _ _ fd Ho) in He.
    refine (emitted_emit h2 _ ms [("--perms", ["0500"]); ("--ro-bind-data", [pretty fd; IN_SANDBOX_HELPER_PATH])] He _).
    accounted_ops. }
  destruct gateway as [g|] eqn:Hg in Ha.
  2: { injection Ha as <- <-. replace (match gateway with Some _ => _ | None => _ end) with (@nil (path * Exposure)); [done|by rewrite Hg]. }
  replace (match gateway with Some _ => _ | None => _ end) with [(IN_SANDBOX_GATEWAY_SOCKET, HostRead)] by (by rewrite Hg).
  apply hbind_Ok in Ha as (dir & h2 & [= _ <-] & Ha). apply hbind_Ok in Ha as (fd & h3 & Ho & [= <- <-]).
  rewrite cons_middle, app_assoc. apply (emit_dir_emits _ _ _ dir) in He1.
  apply (emitted_preserve _ h3 _ _ fd) in He1.
  - refine (emitted_emit h3 _ _ [("--ro-bind-fd", [pretty fd; IN_SANDBOX_GATEWAY_SOCKET])] He1 _).
    apply Forall_singleton. split; [by apply documented_compute|]. intros D L dest x [= <- <-] _. right. rewrite Hg. eauto.
  - unfold hmap_err in Ho. destruct (try_clone g h1) as [[fd'|] h4] eqn:Hc; [|done]. injection Ho as <- <-.
    intros D L. by eapply try_clone_settled.
Qed.

End emission.

(** * Parents before children *)

#[global] Instance depth_order_total : Total mount_order.
Proof.
  intros [x mx] [y my]. unfold mount_order, depth_order. simpl.
  destruct (decide (length x < length y)); [auto|]. destruct (decide (length y < length x)); [auto|].
  assert (length x = length y) as Hl by lia. destruct (cmp x y) eqn:E; [left|left|right]; right; split; try lia; try congruence.
  rewrite cmp_antisym, E. done.
Qed.

#[global] Instance depth_order_trans : Transitive mount_order.
Proof.
  intros [x mx] [y my] [z mz]. unfold mount_order, depth_order. simpl.
  intros [?|[Hxy Cxy]] [?|[Hyz Cyz]]; [left; lia..|]. right. split; [lia|].
  destruct (cmp x y) eqn:E1; [apply cmp_eq in E1 as ->; done| |done].
  destruct (cmp y z) eqn:E2; [apply cmp_eq in E2 as ->; by rewrite E1| |done].
  by rewrite (cmp_trans x y z).
Qed.

Lemma deeper_spec l best :
  match foldl deeper best l with
  | Some e => (e ∈ l \/ best = Some e) /\ (forall a, a ∈ l \/ best = Some a -> length a.1 <= length e.1)
  | None => l = [] /\ best = None
  end.
Proof.
  revert best. induction l as [|x l IH]; intros best; simpl; [destruct best; [|done]|].
  { split; [by right|]. intros a [?%not_elem_of_nil|[= <-]]; [done|lia]. }
  specialize (IH (deeper best x)). destruct (foldl deeper (deeper best x) l) as [e|]; [|destruct IH as [_ IH]; destruct best as [b|]; simpl in IH; [destruct (_ <? _)%nat|]; done].
  destruct IH as [He Hmax]. unfold deeper in *. destruct best as [b|]; [destruct (Nat.ltb_spec (length x.1) (length b.1))|].
  - split; [destruct He as [?|?]; [left; set_solver|auto]|]. intros a [[->|Ha]%elem_of_cons|Ha]; [|auto..].
    specialize (Hmax b (or_intror eq_refl)). lia.
  - split; [left; destruct He as [?|[= ->]]; set_solver|]. specialize (Hmax x (or_intror eq_refl)) as Hx.
    intros a [[->|Ha]%elem_of_cons|[= <-]]; [done|auto|lia].
  - split; [left; destruct He as [?|[= ->]]; set_solver|].
    intros a [[->|Ha]%elem_of_cons|Ha]; [auto|auto|done].
Qed.

Section governing.
Context {H : Type} `{!LinuxHost H} `{!LinuxHostLaws H}.
Context (table : Mounts) (roots : list path).
Hypothesis table_wf : bt_wf table.
Hypothesis table_shape : forall k m, (k, m) ∈ table -> lexical_shape k.
Hypothesis table_roots : forall k, (k, MountWrite) ∈ table -> collect_path k ∈ roots.

Lemma table_functional k m m' : (k, m) ∈ table -> (k, m') ∈ table -> m = m'.
Proof. intros H1%bt_get_Some H2%bt_get_Some; [congruence|done..]. Qed.

(** What shows a writable host file is governed by a writable entry: of the
    entries so far, none deeper covers the path. *)
Definition governs (done : Mounts) (ms : list (path * Exposure)) : Prop :=
  forall p, valid_absolute p -> exposure ms p = HostWrite ->
  exists g, (g, MountWrite) ∈ done /\ is_within p (collect_path g) = true /\
    forall k m, (k, m) ∈ done -> is_within p (collect_path k) = true -> length k <= length g.

Lemma within_nonempty p k : valid_absolute p -> is_within p (collect_path k) = true -> k <> [].
Proof.
  intros [Ha _] Hw ->. apply is_within_true in Hw as (_ & _ & _ & Hrel). specialize (Hrel eq_refl). congruence.
Qed.

Lemma within_prefix p k : lexical_shape k -> is_within p (collect_path k) = true -> k `prefix_of` lexical_components p.
Proof. intros Hk Hw%is_within_prefix_of. by rewrite lexical_collect in Hw. Qed.

(** Of two entries that cover a path, the shorter one covers the other. *)
Lemma covers_chain p g k :
  lexical_shape g -> lexical_shape k -> valid_absolute p ->
  is_within p (collect_path g) = true -> is_within p (collect_path k) = true -> length g <= length k ->
  g `prefix_of` k /\ is_within (collect_path k) (collect_path g) = true.
Proof.
  intros Hg Hk Hp Hpg Hpk Hlen. pose proof (within_nonempty p g Hp Hpg).
  apply within_prefix in Hpg, Hpk; [|done..].
  assert (g `prefix_of` k) as Hgk.
  { destruct (prefix_total g k _ Hpg Hpk) as [?|Hkg]; [done|]. by rewrite (prefix_length_eq k g). }
  split; [done|]. apply within_keys; [done..| |done]. eapply prefix_no_parent; [done|].
  unfold no_parent. rewrite <- contains_parent_traversal_lexical. apply Hp.
Qed.

Lemma collect_path_eqb k g : lexical_shape k -> lexical_shape g -> path_eqb (collect_path k) (collect_path g) = true -> k = g.
Proof. intros Hk Hg Heq%bool_decide_eq_true. by rewrite !components_collect in Heq. Qed.

Lemma first_writable_found (h : H) l p md root :
  p ∈ l -> (forall q, q ∈ l -> present h q) -> symlink_metadata h p = Ok md -> is_symlink md = true ->
  root ∈ roots -> is_within p root = true -> path_eqb p root = false -> first_writable_symlink_loop h roots l <> None.
Proof.
  intros Hin Hall Hmd Hlink Hroot Hw Hne. induction l as [|x l IH]; [by apply not_elem_of_nil in Hin|]. simpl.
  destruct (Hall x ltac:(set_solver)) as [m Hm]. rewrite Hm. destruct (_ && _) eqn:E; [done|].
  apply elem_of_cons in Hin as [->|Hin]; [|apply IH; [done|set_solver]]. exfalso. rewrite Hmd in Hm. injection Hm as <-.
  rewrite Hlink in E. apply not_true_iff_false in E. apply E, existsb_exists. exists root. rewrite <- list_elem_of_In.
  by rewrite Hw, Hne.
Qed.

Section step.
Context (done : Mounts) (ms : list (path * Exposure)) (k : fs_path) (m : Mount).
Hypothesis done_table : forall e, e ∈ done -> e ∈ table.
Hypothesis k_table : (k, m) ∈ table.
Hypothesis done_short : forall e, e ∈ done -> k <> [] -> length e.1 <= length k.
Hypothesis done_ancestors : forall e, e ∈ table -> length e.1 < length k -> e ∈ done.
Hypothesis governed : governs done ms.

(** What an earlier entry still governs at a path the new one covers *)
Lemma governed_above p :
  valid_absolute p -> exposure ms p = HostWrite -> is_within p (collect_path k) = true -> m <> MountWrite ->
  exists g, (g, MountWrite) ∈ done /\ g <> k /\ g `prefix_of` k /\ is_within (collect_path k) (collect_path g) = true /\
    forall a m', (a, m') ∈ done -> is_within p (collect_path a) = true -> length a <= length g.
Proof.
  intros Hp Hx Hk Hm. destruct (governed p Hp Hx) as (g & Hg & Hpg & Hmax). exists g.
  assert (length g <= length k) as Hlen by (apply (done_short (g, MountWrite)); [done|by eapply within_nonempty]).
  destruct (covers_chain p g k) as [Hpre Hw]; [by eapply table_shape, done_table|by eapply table_shape|done..|].
  split_and!; [done| |done|done|done]. intros ->. apply Hm. by eapply table_functional; [|apply done_table].
Qed.

(** Mounting over the entry's path *)
Lemma governs_mounted x :
  (x = HostWrite -> m = MountWrite) -> governs (done ++ [(k, m)]) (ms ++ [(collect_path k, x)]).
Proof using k_table done_short governed.
  intros Hx p Hp. rewrite exposure_snoc. simpl. destruct (is_within p (collect_path k)) eqn:Hk.
  - intros Hw. rewrite (Hx Hw) in *. exists k. split_and!; [apply elem_of_app; right; by apply list_elem_of_singleton|done|]. intros a m' Ha _.
    apply elem_of_app in Ha as [Ha|[= -> ->]%list_elem_of_singleton]; [|done].
    apply (done_short _ Ha). by eapply within_nonempty.
  - intros Hw. destruct (governed p Hp Hw) as (g & Hg & Hpg & Hmax). exists g. split_and!; [apply elem_of_app; by left|done|].
    intros a m' [Ha|[= -> ->]%list_elem_of_singleton]%elem_of_app Hpa; [by eapply Hmax|congruence].
Qed.

(** Leaving the entry out, where nothing writable shows below it but what it
    allows itself *)
Lemma governs_skipped :
  (m = MountWrite \/ forall p, valid_absolute p -> exposure ms p = HostWrite -> is_within p (collect_path k) = true -> False) ->
  governs (done ++ [(k, m)]) ms.
Proof using k_table done_short governed.
  intros Hm p Hp Hx. destruct (is_within p (collect_path k)) eqn:Hk.
  - destruct Hm as [->|Hm]; [|by destruct (Hm p)]. exists k. split_and!; [apply elem_of_app; right; by apply list_elem_of_singleton|done|]. intros a m' Ha _.
    apply elem_of_app in Ha as [Ha|[= -> ->]%list_elem_of_singleton]; [|done].
    apply (done_short _ Ha). by eapply within_nonempty.
  - destruct (governed p Hp Hx) as (g & Hg & Hpg & Hmax). exists g. split_and!; [apply elem_of_app; by left|done|].
    intros a m' [Ha|[= -> ->]%list_elem_of_singleton]%elem_of_app Hpa; [by eapply Hmax|congruence].
Qed.

Lemma redundant_covered : is_redundant_bind (collect_path k) m table = true -> governs (done ++ [(k, m)]) ms.
Proof.
  intros Hr. apply governs_skipped. destruct (decide (m = MountWrite)) as [|Hm]; [by left|right].
  intros p Hp Hx Hk. destruct (governed_above p Hp Hx Hk Hm) as (g & Hg & Hne & Hpre & Hw & Hmax).
  unfold is_redundant_bind in Hr. destruct (effective_bind_access m) as [a|] eqn:Ha; [|done].
  match type of Hr with context[foldl deeper None ?l] => pose proof (deeper_spec l None) as Hspec end.
  destruct (foldl deeper None _) as [[j mj]|]; [|done]. destruct Hspec as [Hj Hbest].
  destruct Hj as [[[Hjk Hkj] Hj]%list_elem_of_filter|]; [|done]. apply bool_decide_eq_true in Hr. simpl in *.
  assert (lexical_shape j /\ lexical_shape k /\ lexical_shape g) as (Sj & Sk & Sg).
  { split_and!; eapply table_shape; [exact Hj|done|by apply done_table]. }
  unfold mount_path in *. simpl in *.
  assert (j `prefix_of` k) as Hjpre by (apply is_within_prefix_of in Hkj; by rewrite !lexical_collect in Hkj).
  assert (length g <= length j).
  { apply (Hbest (g, MountWrite)). left. apply list_elem_of_filter. simpl. split; [|by apply done_table].
    split; [|done]. apply not_true_iff_false. by intros ?%collect_path_eqb. }
  assert (length j < length k).
  { apply prefix_length in Hjpre as Hlen. destruct (decide (length j = length k)); [|lia].
    rewrite (prefix_length_eq j k) in Hjk by (done || lia). unfold path_eqb in Hjk. by rewrite bool_decide_eq_true_2 in Hjk. }
  assert (length j <= length g).
  { eapply Hmax; [by apply (done_ancestors (j, mj))|]. by eapply is_within_trans. }
  assert (j = g) as ->.
  { destruct (prefix_total j g k) as [?|?]; [done|done| |]; [|symmetry]; apply prefix_length_eq; done. }
  assert (mj = MountWrite) as -> by (eapply table_functional; [exact Hj|by apply done_table]).
  destruct m; simplify_eq/=.
Qed.

Lemma link_covered (h : H) :
  m = MountDeny -> first_writable_symlink h (collect_path k) roots = None ->
  (exists md, symlink_metadata h (collect_path k) = Ok md /\ is_symlink md = true) -> governs (done ++ [(k, m)]) ms.
Proof.
  intros Hm Hnone (md & Hmd & Hlink). apply governs_skipped. right. intros p Hp Hx Hk.
  destruct (governed_above p Hp Hx Hk) as (g & Hg & Hne & _ & Hw & _); [congruence|].
  assert (lexical_shape k /\ lexical_shape g) as [Sk Sg].
  { split; eapply table_shape; [done|by apply done_table]. }
  revert Hnone. unfold first_writable_symlink.
  apply first_writable_found with (p := collect_path k) (md := md) (root := collect_path g); [| |done|done| |done|].
  - apply within_nonempty in Hk; [|done]. unfold pushed. rewrite components_collect by done. apply list_elem_of_fmap.
    exists (length k). rewrite firstn_all. split; [done|]. apply elem_of_seq. destruct k; simpl; [done|lia].
  - intros q Hq. apply (lstat_pushed h (collect_path k)); [by eexists|].
    rewrite <- collect_lexical, lexical_collect by done. done.
  - by apply table_roots, done_table.
  - apply not_true_iff_false. intros Heq%collect_path_eqb; [|done..]. by symmetry in Heq.
Qed.

End step.

(** * The mounts of a plan *)

Definition mount_shows (m : Mount) : Exposure :=
  match m with MountWrite => HostWrite | MountRead | MountReadOnly => HostRead | MountDeny => Private end.

(** Every host bind is one of the table. *)
Definition binds_from (ms : list (path * Exposure)) : Prop :=
  forall dest x, (dest, x) ∈ ms -> x = Private \/ exists k m, (k, m) ∈ table /\ dest = collect_path k /\ x = mount_shows m.

Lemma binds_from_snoc ms k m x :
  (k, m) ∈ table -> x = Private \/ x = mount_shows m -> binds_from ms -> binds_from (ms ++ [(collect_path k, x)]).
Proof.
  intros Hk Hx Hms dest y [Hin|[= -> ->]%list_elem_of_singleton]%elem_of_app; [by apply Hms|].
  destruct Hx as [->|Hx]; [by left|right; eauto].
Qed.

Context (gateway : option N).
Local Abbreviation emitted := (emitted_on gateway).

(** The invariant of the loop over the ordered mounts *)
Definition emission_ok (done : Mounts) (h : H) (e : Emission) : Prop :=
  exists ms, emitted h e ms /\ governs done ms /\ binds_from ms.

Lemma emission_mounted done (h : H) e k m x ms :
  (k, m) ∈ table -> (forall e, e ∈ done -> k <> [] -> length e.1 <= length k) ->
  governs done ms -> binds_from ms -> x = Private \/ x = mount_shows m ->
  emitted h e (ms ++ [(collect_path k, x)]) -> emission_ok (done ++ [(k, m)]) h e.
Proof.
  intros Hk Hshort Hg Hb Hx He. eexists. split_and!; [exact He| |by eapply binds_from_snoc].
  apply governs_mounted; [done|done|done|]. destruct Hx as [->| ->]; [done|by destruct m].
Qed.

Lemma emit_mount_ok done e ordered k m (h : H) e' h' :
  (forall e, e ∈ done -> e ∈ table) -> (k, m) ∈ table -> (forall e, e ∈ done -> k <> [] -> length e.1 <= length k) ->
  (forall e, e ∈ table -> length e.1 < length k -> e ∈ done) ->
  emission_ok done h e -> emit_mount roots table ordered e (k, m) h = (Ok e', h') -> emission_ok (done ++ [(k, m)]) h' e'.
Proof.
  intros Hsub Hk Hshort Hanc (ms & He & Hg & Hb). unfold emit_mount, mount_path. simpl.
  destruct (is_redundant_bind (collect_path k) m table) eqn:Hr.
  { intros [= <- <-]. exists ms. split_and!; [done|by apply redundant_covered|done]. }
  destruct (is_bind m) eqn:Hbind.
  { intros Ha%(add_bind_emits gateway _ ms); [|done]. eapply emission_mounted; try done. right. by destruct m. }
  intros (ms' & He' & Hmask)%(add_mask_emits gateway _ ms); [|done].
  destruct Hmask as [(x & -> & Hx)|(-> & Hdeny & Hnone & Hlink)].
  - eapply emission_mounted; try done. destruct Hx as [->|[-> ->]]; auto.
  - exists ms. split_and!; [done|by eapply link_covered|done].
Qed.

Lemma emit_mounts_ok ordered rest done e (h : H) e' h' :
  (forall e, e ∈ table <-> e ∈ done \/ e ∈ rest) -> StronglySorted mount_order rest ->
  (forall a r, a ∈ done -> r ∈ rest -> r.1 <> [] -> length a.1 <= length r.1) ->
  emission_ok done h e -> hfold (emit_mount roots table ordered) e rest h = (Ok e', h') -> emission_ok table h' e'.
Proof.
  revert done e h. induction rest as [|[k m] rest IH]; intros done e h Htable Hsorted Hshort He; simpl.
  { intros [= <- <-]. destruct He as (ms & He & Hg & Hb). exists ms. split_and!; [done| |done].
    intros p Hp Hx. destruct (Hg p Hp Hx) as (g & Hin & Hw & Hmax). exists g. split_and!; [by apply Htable; left|done|].
    intros a m Ha. apply Htable in Ha as [Ha|?%not_elem_of_nil]; [by eapply Hmax|done]. }
  intros (e1 & h1 & Hx & Hl)%hbind_Ok. apply StronglySorted_inv in Hsorted as [Hsorted Hall]. rewrite Forall_forall in Hall.
  assert (forall r, r ∈ rest -> length k <= length r.1) as Hlater.
  { intros r Hr. specialize (Hall r Hr). unfold mount_order, depth_order in Hall. simpl in Hall. lia. }
  apply emit_mount_ok with (done := done) in Hx.
  - eapply (IH (done ++ [(k, m)]) e1 h1); [|done| |done|exact Hl].
    + intros a. rewrite Htable. set_solver.
    + intros a r [Ha| ->%list_elem_of_singleton]%elem_of_app Hr Hne; [apply Hshort; set_solver|by apply Hlater].
  - intros a Ha. apply Htable. by left.
  - apply Htable. right. set_solver.
  - intros a Ha Hne. apply (Hshort a (k, m)); [done|set_solver|done].
  - intros a Ha Hlen. apply Htable in Ha as [?|[->|Ha]%elem_of_cons]; [done|simpl in Hlen; lia|].
    specialize (Hlater a Ha). lia.
  - done.
Qed.

(** A mount that shows nothing of the host *)
Lemma emission_private done (h : H) e ms p x :
  x <> HostWrite -> governs done ms -> binds_from (ms ++ [(p, x)]) -> emitted h e (ms ++ [(p, x)]) -> emission_ok done h e.
Proof.
  intros Hx Hg Hb He. eexists. split_and!; [exact He| |done]. intros q Hq. rewrite exposure_snoc. simpl.
  destruct (is_within q p); [done|]. by apply Hg.
Qed.

(** The root mount and the device directory *)
Definition root_entries : Mounts := filter (fun e => path_eqb (mount_path e) "/" = true) table.

Lemma root_entry k m : (k, m) ∈ root_entries <-> (k, m) ∈ table /\ k = components "/".
Proof.
  unfold root_entries. rewrite list_elem_of_filter. unfold mount_path. simpl. split; intros [H1 H2].
  - split; [done|]. apply bool_decide_eq_true in H1. by rewrite components_collect in H1 by by eapply table_shape.
  - split; [|done]. subst k. by apply bool_decide_eq_true_2.
Qed.

Lemma governs_private done : governs done [("/", Private)].
Proof. intros p Hp. unfold exposure. simpl. by destruct (is_within p "/"). Qed.

Lemma emit_root_ok e0 (h : H) e h' :
  emitted h e0 [("/", Private)] -> emit_root table e0 h = (Ok e, h') -> emission_ok root_entries h' e.
Proof.
  intros He0. assert (binds_from [("/", Private)]) as Hb0.
  { intros dest x [= -> ->]%list_elem_of_singleton. by left. }
  assert (forall m, bt_get (components "/") table = Some m -> mount_shows m <> Private ->
    forall h e, emitted h e ([("/", Private)] ++ [("/", mount_shows m)]) -> emission_ok root_entries h e) as Hbind.
  { intros m Hm%bt_get_Some Hshow h1 e1 He1; [|done].
    eexists. split_and!; [exact He1| |].
    - intros p Hp. rewrite exposure_snoc. simpl. destruct (is_within p "/") eqn:Hw; [|by apply governs_private].
      intros Hx. exists (components "/"). split_and!; [apply root_entry; by destruct m|done|].
      intros k m' [_ ->]%root_entry _. done.
    - apply (binds_from_snoc [("/", Private)] (components "/") m); [done|by right|done]. }
  unfold emit_root. destruct (bt_get (components "/") table) as [m|] eqn:Hm.
  - destruct m; [intros Ha%(add_bind_emits gateway _ [("/", Private)])..|]; try done.
    1-3: by apply (Hbind _ eq_refl).
    intros [= <- <-]. exists [("/", Private)]. split_and!; [done|apply governs_private|done].
  - intros [= <- <-]. exists [("/", Private)]. split_and!; [done|apply governs_private|done].
Qed.

Lemma append_dev_ok done (h : H) e : emission_ok done h e -> emission_ok done h (append_dev e false).
Proof.
  intros (ms & He & Hg & Hb). apply (emission_private _ _ _ ms "/dev" Private); [done|done| |].
  - intros dest x [Hin|[= -> ->]%list_elem_of_singleton]%elem_of_app; [by apply Hb|by left].
  - apply (emitted_emit gateway h e ms [("--dev", ["/dev"])] He). by apply plain_ops.
Qed.

(** The mounts of a whole plan: those of the table, and the socket of the
    gateway *)
Definition plan_binds (ms : list (path * Exposure)) : Prop :=
  forall dest x, (dest, x) ∈ ms -> x = Private \/
    (exists k m, (k, m) ∈ table /\ dest = collect_path k /\ x = mount_shows m) \/
    (dest = IN_SANDBOX_GATEWAY_SOCKET /\ x = HostRead /\ is_Some gateway).

Lemma emit_plan_ok {B} (helper : B -> N) (b : B) (h : H) e h' :
  emit_plan helper b table roots gateway h = (Ok e, h') ->
  exists ms, emitted h' e ms /\ governs table ms /\ plan_binds ms.
Proof.
  unfold emit_plan. intros (e1 & h1 & Hroot & He)%hbind_Ok. apply hbind_Ok in He as (e2 & h2 & Hloop & Hrun).
  apply emit_root_ok in Hroot; [|exists [("--tmpfs", ["/"])]; split_and!; [done|by apply plain_ops|done]].
  assert (emission_ok table h2 e2) as (ms & He2 & Hg & Hb).
  { eapply (emit_mounts_ok _ _ root_entries) in Hloop; [exact Hloop| | | |by apply append_dev_ok].
    - intros [k m]. unfold ordered_mounts, root_entries. rewrite merge_sort_Permutation, !list_elem_of_filter.
      destruct (path_eqb _ "/"); naive_solver.
    - apply (StronglySorted_merge_sort _ _).
    - intros [k m] r [_ ->]%root_entry _ Hne. simpl. destruct (r.1); [done|simpl; lia]. }
  apply (private_runtime_emits gateway _ ms) in Hrun; [|done]. eexists. split_and!; [exact Hrun| |].
  - intros p Hp Hx. apply Hg; [done|]. revert Hx. destruct gateway.
    + rewrite cons_middle, app_assoc, !exposure_snoc. simpl. by repeat case_match.
    + rewrite exposure_snoc. simpl. by case_match.
  - intros dest x [Hin|[[= -> ->]|Hin]%elem_of_cons]%elem_of_app; [destruct (Hb _ _ Hin); auto|by left|].
    destruct gateway; [|by apply not_elem_of_nil in Hin]. apply list_elem_of_singleton in Hin as [= -> ->]. eauto 10.
Qed.

End governing.

(** * Plans of restricted policies *)

Section plan.
Context {U : Unicode} {G : Globset} {W : WildMatch} {H : Type} `{!LinuxHost H} `{!LinuxHostLaws H}.
Context {B : Type} `{!SandboxBackend B} (hardening_helper_file : B -> N).
Context `{!Bubblewrap} `{!BubblewrapLaws}.
Context (b : B) (prepared : PreparedBackendRequest) (sandbox : EffectiveSandbox) (gateway_mount : option N).
Context (h h' : H) (plan : FilesystemPlan).
Hypothesis restricted_mode : req_mode (filesystem_requirements (es_filesystem sandbox)) = Restricted.
Hypothesis lowered : lower hardening_helper_file b prepared sandbox gateway_mount h = (Ok plan, h').

(** The tables a plan was made from *)
Lemma lowered_tables :
  exists mounts monitored final ops, collect_mounts h b prepared = Ok (mounts, monitored) /\
    table_collected b prepared h mounts monitored /\
    (exists t, placing h (writable_mounts mounts) mounts t /\ final = prune_redundant_denied_descendants t) /\
    bt_wf final /\
    plan_args plan = flat ops /\ Forall (accounted gateway_mount h' (preserved_files plan)) ops /\
    governs final (op_mounts ops) /\ plan_binds final gateway_mount (op_mounts ops).
Proof.
  pose proof lowered as Hl. unfold lower in Hl. rewrite restricted_mode in Hl. unfold lower_restricted in Hl.
  apply hbind_Ok in Hl as (c & h1 & [= <- <-] & Hl). apply hbind_Ok in Hl as ([mounts monitored] & h1 & Hc & Hl).
  injection Hc as Hc <-. simpl in Hl. apply hbind_Ok in Hl as ([targets final] & h2 & Hm & Hl). simpl in Hl.
  apply hbind_Ok in Hl as (e & h3 & He & [= <- <-]). simpl.
  pose proof (collect_mounts_spec b prepared h _ _ Hc) as Hcol.
  pose proof (tc_ok _ _ _ _ _ Hcol) as [Hwf Hok].
  apply (materialize_spec h) in Hm as [_ Hplaced]; [|done|by intros k m Hk; apply (Hok k m)|done].
  assert (bt_wf final) as Hfinal.
  { destruct Hplaced as (t & (Ht & _) & ->). by apply (prune_fold _ t Ht). }
  apply emit_plan_ok in He as (ms & (ops & Hargs & Hops & <-) & Hg & Hb); [|done|..].
  - exists mounts, monitored, final, ops. done.
  - intros k m Hk%bt_get_Some; [|done]. eapply final_sub in Hk; [|done]. by eapply Hok.
  - intros k Hk%bt_get_Some; [|done]. eapply final_sub in Hk; [|done]. by apply writable_mounts_elem.
Qed.

Lemma accounted_documented ops : Forall (accounted gateway_mount h' (preserved_files plan)) ops -> Forall documented ops.
Proof. intros Ha. eapply Forall_impl; [exact Ha|]. by intros op [? _]. Qed.

(** C16. Every host file or directory a restricted plan binds into the sandbox
    appears where the policy decides, and is what that path names on the host.
    Bubblewrap reads the arguments of the plan; a path at which they bind
    something writable is a path decided writable, a path at which they bind
    something read-only a path decided readable, the gateway's socket apart.
    The source of the bind is a descriptor, kept open for Bubblewrap, that was
    opened on this very path when it is its own canonical path, and the
    canonical path it resolves to otherwise: an alias shows the file it names,
    whose own path the policy is not asked about.  The descriptors are those of
    a host on which opening a file returns an unused descriptor and changes no
    path. *)
Theorem lowered_binds_authorized `{!HostDescriptors H} `{!DescriptorLaws H} :
  exists ops, read_args (plan_args plan) = Some ops /\
  forall op dest x, op ∈ ops -> op_mount op = Some (dest, x) ->
  match x with
  | Private => True
  | HostRead => decided b prepared dest FRead /\ from_host h' (preserved_files plan) op dest \/
                dest = IN_SANDBOX_GATEWAY_SOCKET /\ is_Some gateway_mount
  | HostWrite => decided b prepared dest FWrite /\ from_host h' (preserved_files plan) op dest
  end.
Proof.
  destruct lowered_tables as (mounts & monitored & final & ops & _ & Hcol & Hplaced & Hwf & Hargs & Hops & _ & Hb).
  exists ops. split; [rewrite Hargs; by apply read_flat, accounted_documented|]. intros op dest x Hop Hmount.
  assert (x <> Private -> from_host h' (preserved_files plan) op dest \/
            dest = IN_SANDBOX_GATEWAY_SOCKET /\ x = HostRead /\ is_Some gateway_mount) as Hsource.
  { rewrite Forall_forall in Hops. destruct (Hops op Hop) as [_ Hsource]. by eapply Hsource. }
  assert ((dest, x) ∈ op_mounts ops) as Hin by (apply list_elem_of_omap; eauto).
  destruct (Hb _ _ Hin) as [->|[(k & m & Hk & -> & ->)|(-> & -> & ?)]]; [done| |auto].
  apply bt_get_Some in Hk; [|done]. eapply final_sub in Hk; [|done].
  pose proof (tc_ok _ _ _ _ _ Hcol) as [_ Hok]. destruct (Hok k m Hk) as [_ Hj].
  destruct m; simpl in *; [| | |done]; destruct Hsource as [?|(? & ? & ?)]; try done; tauto.
Qed.

(** C4. The sandbox a restricted plan builds gives no write access the policy
    denies: when Bubblewrap, started with the arguments of the plan, shows a
    writable host file at a path, the effective policy decides that path
    writable.  The conditions under which this holds are what the lowering
    leaves to the host and to the policy's author: no writable entry of the
    mount table lies below a denied one, no scope above the path was skipped as
    missing, a glob that matches the path found it, and a protected component of
    the path is one directly below a writable root. *)
Theorem lowered_mounts_enforce mounts monitored p :
  collect_mounts h b prepared = Ok (mounts, monitored) ->
  Forall (fun layer => policy_validate layer = Ok ()) (request_layers prepared) ->
  valid_absolute p ->
  no_write_below_deny mounts ->
  scopes_present prepared h p -> globs_scanned prepared h p -> protected_at_root prepared mounts monitored p ->
  exposed (plan_args plan) p = Some HostWrite -> decided b prepared p FWrite.
Proof.
  intros Hc Hlayers Hp Hnest Hscopes Hglobs Hprot Hx.
  destruct lowered_tables as (mounts' & monitored' & final & ops & Hc' & Hcol & Hplaced & Hwf & Hargs & Hops & Hg & _).
  assert (mounts' = mounts /\ monitored' = monitored) as [-> ->] by (split; congruence).
  rewrite Hargs, exposed_flat in Hx by by apply accounted_documented. injection Hx as Hx. destruct (Hg p Hp Hx) as (g & Hgin & Hpg & Hmax).
  assert (forall k m, bt_get k final = Some m -> lexical_shape k) as Hshape.
  { intros k m Hk. eapply final_sub in Hk; [|done]. by eapply (tc_ok _ _ _ _ _ Hcol). }
  apply bt_get_Some in Hgin; [|done].
  apply (governed_decided b prepared h mounts monitored final Hcol Hplaced p g); try done.
  - apply within_prefix; [by eapply Hshape|done].
  - intros k m Hk Hpre. destruct (decide (k = [])) as [->|Hne]; [simpl; lia|].
    apply (Hmax k m); [by apply bt_get_Some|].
    rewrite (is_within_lexical p (collect_path (lexical_components p)) _ (collect_path k)); [|by rewrite lexical_collect by apply lexical_components_shape|done].
    apply within_keys; [apply lexical_components_shape|done| |done].
    unfold no_parent. rewrite <- contains_parent_traversal_lexical. apply Hp.
Qed.

End plan.
