(* ===== verification/LinuxExamples.v ===== *)
(** Concrete hosts for the lowering: a directory tree that meets the laws of
    [LinuxHostLaws], Bubblewrap as its manual describes it, and the plans of a
    few policies on them. *)

From Stdlib Require Import Ascii String NArith Lia.
From stdpp Require Import base option strings gmap pretty sorting list.
From S2P Require Import Prelude Keyed Text BTree NativePath Access Selector PathPattern FsPolicy Domain NetPolicy Policy Environment Command Compose Effective Requirements EffectiveEnv HostFs Backend LinuxHost LinuxGlob LinuxMounts LinuxTable LinuxBwrap LinuxGoverned LinuxEnforce.

(** * A directory tree *)

(** The files of the tree, whatever lies above a file being a directory, and the
    paths opened so far, on the descriptors from 3 on *)
Record TreeHost := { tree_files : list fs_path; tree_open : list path }.

Definition tree_of (files : list path) : TreeHost := {| tree_files := components <$> files; tree_open := [] |}.

Definition tree_descriptor (h : TreeHost) (fd : N) : option path := if (fd <? 3)%N then None else tree_open h !! (N.to_nat fd - 3).

(** The next descriptor, for [p] *)
Definition tree_opens (p : path) (h : TreeHost) : result IoError N * TreeHost :=
  (Ok (N.of_nat (3 + length (tree_open h))), {| tree_files := tree_files h; tree_open := tree_open h ++ [p] |}).

Definition in_tree (h : TreeHost) (k : fs_path) : bool :=
  existsb (fun f => bool_decide (k `prefix_of` f)) (components "/" :: tree_files h).

Definition tree_metadata (h : TreeHost) (p : path) : result IoError Metadata :=
  let k := lexical_components p in
  if in_tree h k
  then Ok {| md_kind := if bool_decide (k ∈ tree_files h) then KindFile else KindDir; md_dev := 1;
             md_ino := N.of_nat (length k) |}
  else Err NotFound.

Definition tree_children (h : TreeHost) (p : path) : list string :=
  let k := lexical_components p in
  remove_dups (omap (fun f => match drop (length k) f with
                              | Normal name :: _ => if bool_decide (k `prefix_of` f) then Some name else None
                              | _ => None
                              end) (tree_files h)).

Definition tree_entry (h : TreeHost) (p : path) (name : string) : result IoError DirEntry :=
  let m := tree_metadata h (path_join p name) in
  Ok {| de_name := name; de_file_type := m ← m; Ok (md_kind m); de_metadata := m |}.

#[global] Instance tree_host : LinuxHost TreeHost := {|
  symlink_metadata := tree_metadata;
  fs_metadata := tree_metadata;
  canonicalize h p := _ ← tree_metadata h p; Ok (normalize_lexical_path p);
  read_dir h p := Ok (tree_entry h p <$> tree_children h p);
  read_to_string h p := Ok "";
  effective_uid h := 1000%N;
  open_read := tree_opens;
  try_clone fd := fun h => tree_opens (default EmptyString (tree_descriptor h fd)) h;
  setup_lock_acquire h := (Ok (), h);
  synthetic_join p h := (Ok false, h);
  synthetic_create p h := (Ok (), {| tree_files := lexical_components p :: tree_files h; tree_open := tree_open h |})
|}.

#[global] Instance tree_descriptors : HostDescriptors TreeHost := {| open_path := tree_descriptor |}.

Lemma tree_opens_spec p h fd h' :
  tree_opens p h = (Ok fd, h') -> open_path h' fd = Some p /\ settled h h'.
Proof.
  intros [= <- <-]. split; [|split; [|done]].
  - simpl. unfold tree_descriptor. rewrite (proj2 (N.ltb_ge _ 3)) by lia. simpl.
    rewrite lookup_app_r by lia. by replace (_ - _) with 0 by lia.
  - simpl. unfold tree_descriptor. intros fd q. destruct (fd <? 3)%N; [done|]. simpl. apply lookup_app_l_Some.
Qed.

#[global] Instance tree_descriptor_laws : DescriptorLaws TreeHost.
Proof.
  split; [intros p h fd h' Ho; exact (tree_opens_spec p h fd h' Ho)|].
  intros g h fd h' Ho. exact (proj2 (tree_opens_spec _ h fd h' Ho)).
Qed.

Lemma tree_present (h : TreeHost) p : present h p <-> in_tree h (lexical_components p) = true.
Proof.
  unfold present. simpl. unfold tree_metadata. destruct (in_tree h _); split; try done; [by eexists|by intros [? ?]].
Qed.

Lemma in_tree_prefix h k l : k `prefix_of` l -> in_tree h l = true -> in_tree h k = true.
Proof.
  intros Hkl Hl. unfold in_tree in *. apply existsb_exists in Hl as (f & Hf & Hp%bool_decide_eq_true).
  apply existsb_exists. exists f. split; [done|]. apply bool_decide_eq_true_2. by etrans.
Qed.

#[global] Instance tree_host_laws : LinuxHostLaws TreeHost.
Proof.
  split.
  - intros h p q Hp Hq. apply tree_present in Hp. apply tree_present. unfold pushed in Hq.
    rewrite components_normalize in Hq. apply list_elem_of_fmap in Hq as (n & -> & _).
    assert (take n (lexical_components p) `prefix_of` lexical_components p) as Hpre.
    { exists (drop n (lexical_components p)). by rewrite take_drop. }
    rewrite lexical_collect by (eapply prefix_shape; [exact Hpre|apply lexical_components_shape]).
    by eapply in_tree_prefix.
  - by intros h r h' [= _ <-].
  - by intros h q r h' [= _ <-].
  - intros h q r h' [= _ <-]. split; [done|]. intros p _ Hp. apply tree_present in Hp. apply tree_present.
    unfold in_tree in *. simpl in *. destruct (bool_decide _); [done|]. simpl in *. rewrite Hp. apply orb_true_r.
Qed.

(** * Bubblewrap *)

#[global] Instance manual_bubblewrap : Bubblewrap := {|
  option_arity flag := (fun e => e.2.2.1) <$> list_find (fun e => e.1 = flag) documented_options;
  option_effect flag operands v :=
    match option_mounts flag, last operands with Some x, Some dest => mount_over dest x v | _, _ => v end
|}.

#[global] Instance manual_bubblewrap_laws : BubblewrapLaws.
Proof.
  split.
  - intros flag n x Hin. unfold option_arity, manual_bubblewrap.
    destruct (list_find (fun e => e.1 = flag) documented_options) as [[i [flag' [n' x']]]|] eqn:E.
    + apply list_find_Some in E as (Hi & Heq & _). simpl in Heq. subst flag'. apply list_elem_of_lookup_2 in Hi.
      by destruct (documented_unique _ _ _ _ _ Hin Hi) as [<- _].
    + apply list_find_None in E. rewrite Forall_forall in E. by destruct (E _ Hin).
  - intros flag n x operands dest v p Hin _. unfold option_effect, manual_bubblewrap.
    by rewrite (option_mounts_documented _ _ _ Hin), last_snoc.
  - intros flag n operands v p Hin _. unfold option_effect, manual_bubblewrap. by rewrite (option_mounts_documented _ _ _ Hin).
Qed.

(** * Plans *)

Section plans.
#[local] Existing Instance literal_globset.
#[local] Existing Instance ascii_unicode.
#[local] Existing Instance literal_wildmatch.
#[local] Existing Instance ExampleBackend_backend.

(** What a policy composes to below a full-access ceiling *)
Definition composed_request (f : FilesystemPolicy) : BackendRequest :=
  let request := {| requested_policy := {| filesystem := f; network := net_disabled |}; requested_environment := inherit_core;
                    requested_workspace_roots := None;
                    ceiling := {| ceiling_policy := sandbox_full_access; ceiling_environment := inherit_all;
                                  ceiling_workspace_roots := None; ceiling_external_owner := None |};
                    external_owner := None |} in
  {| req_command := example_command; req_sandbox := (unwrap_or (example_sandbox, 0%N) (compose 0 request)).1 |}.

Definition prepared_policy (f : FilesystemPolicy) : PreparedBackendRequest :=
  unwrap_or example_prepared (prepare_for (composed_request f) full_backend example_base).

Definition lower_policy (f : FilesystemPolicy) (h : TreeHost) : result LinuxBackendError FilesystemPlan * TreeHost :=
  lower (fun _ : ExampleBackend => 9%N) full_backend (prepared_policy f) (req_sandbox (composed_request f)) None h.

Definition plan_of (f : FilesystemPolicy) (h : TreeHost) : FilesystemPlan :=
  unwrap_or {| plan_args := []; preserved_files := []; synthetic_targets := []; protected_create_paths := [] |}
    (lower_policy f h).1.

(** A writable workspace with a read-only directory, on a read-only root *)
Definition workspace_policy : FilesystemPolicy :=
  restricted [rule_new (at_path "/") Read; rule_new (at_path "/work/app") Write; rule_new (at_path "/work/app/docs") Read].

Definition workspace_tree : TreeHost := tree_of
  ["/work/app/src/main.rs"; "/work/app/docs/readme"; "/work/app/.git/HEAD"; "/dev/null"].

Lemma workspace_prepares : prepare_for (composed_request workspace_policy) full_backend example_base = Ok (prepared_policy workspace_policy).
Proof. vm_compute. reflexivity. Qed.

Lemma workspace_lowers : exists h', lower_policy workspace_policy workspace_tree = (Ok (plan_of workspace_policy workspace_tree), h').
Proof. eexists. vm_compute. reflexivity. Qed.

Lemma workspace_restricted :
  req_mode (filesystem_requirements (es_filesystem (req_sandbox (composed_request workspace_policy)))) = Restricted.
Proof. vm_compute. reflexivity. Qed.

Example workspace_args : plan_args (plan_of workspace_policy workspace_tree) =
  ["--tmpfs"; "/"; "--ro-bind-fd"; "3"; "/"; "--dev"; "/dev"; "--bind-fd"; "4"; "/work/app";
   "--ro-bind-fd"; "5"; "/work/app/.git"; "--ro-bind-fd"; "6"; "/work/app/docs";
   "--dir"; "/dev/.cageforge-runtime"; "--chmod"; "0500"; "/dev/.cageforge-runtime";
   "--perms"; "0500"; "--ro-bind-data"; "7"; "/dev/.cageforge-runtime/helper"].
Proof. vm_compute. reflexivity. Qed.

Lemma lowered_binds_authorized_witness :
  exists h' ops, lower_policy workspace_policy workspace_tree = (Ok (plan_of workspace_policy workspace_tree), h') /\
    read_args (plan_args (plan_of workspace_policy workspace_tree)) = Some ops /\
    forall op dest, op ∈ ops -> op_mount op = Some (dest, HostWrite) ->
    decided full_backend (prepared_policy workspace_policy) dest FWrite /\
    from_host h' (preserved_files (plan_of workspace_policy workspace_tree)) op dest.
Proof.
  destruct workspace_lowers as [h' Hl].
  destruct (lowered_binds_authorized _ full_backend _ _ None workspace_tree h' _ workspace_restricted Hl)
    as (ops & Hread & Hops).
  exists h', ops. split; [exact Hl|]. split; [exact Hread|]. intros op dest Hop Hm. exact (Hops op dest HostWrite Hop Hm).
Defined.

Lemma lowered_mounts_enforce_witness :
  exposed (plan_args (plan_of workspace_policy workspace_tree)) "/work/app/src/new.rs" = Some HostWrite /\
  decided full_backend (prepared_policy workspace_policy) "/work/app/src/new.rs" FWrite.
Proof.
  destruct workspace_lowers as [h' Hl].
  assert (exposed (plan_args (plan_of workspace_policy workspace_tree)) "/work/app/src/new.rs" = Some HostWrite) as Hx
    by (vm_compute; reflexivity).
  split; [exact Hx|]. destruct (collect_mounts workspace_tree full_backend (prepared_policy workspace_policy))
    as [[mounts monitored]|] eqn:Hc; [|vm_compute in Hc; discriminate Hc].
  apply (lowered_mounts_enforce _ full_backend _ _ None workspace_tree h' _ workspace_restricted Hl
           mounts monitored _ Hc); [| | | | | |exact Hx].
  - apply (bool_decide_unpack _). vm_compute. exact I.
  - split_and!; vm_compute; reflexivity.
  - vm_compute in Hc. injection Hc as <- _. intros a g Ha Hg.
    repeat match goal with
    | H : bt_get ?k (_ :: _) = Some _ |- _ => apply bt_get_elem in H as (? & <-%cmp_eq & H)
    end. revert Ha Hg. clear. rewrite !elem_of_cons, !elem_of_nil. intros Ha Hg Hpre.
    destruct Ha as [[=]|[[= ->]|[[=]|[[=]|[[=]|[]]]]]], Hg as [[=]|[[=]|[[= ->]|[[=]|[[=]|[]]]]]].
    by apply prefix_cons_inv_2, prefix_cons_inv_1 in Hpre.
  - intros layer rule selector root Hlayer Hrule _ _ _ Hskip. exfalso.
    assert (Forall (fun layer => Forall (fun rule => missing_path_behavior rule = MError) (entries layer))
              (request_layers (prepared_policy workspace_policy))) as Hall by (apply (bool_decide_unpack _); vm_compute; exact I).
    rewrite Forall_forall in Hall. specialize (Hall _ Hlayer). rewrite Forall_forall in Hall. specialize (Hall _ Hrule). congruence.
  - intros layer rule pattern Hlayer Hrule Ht. exfalso.
    assert (Forall (fun layer => Forall (fun rule => is_glob (target rule) = false) (entries layer))
              (request_layers (prepared_policy workspace_policy))) as Hall by (apply (bool_decide_unpack _); vm_compute; exact I).
    rewrite Forall_forall in Hall. specialize (Hall _ Hlayer). rewrite Forall_forall in Hall. specialize (Hall _ Hrule).
    rewrite Ht in Hall. discriminate Hall.
  - intros layer Hlayer Hprot. exfalso.
    assert (Forall (fun layer => is_protected_path layer "/work/app/src/new.rs" = false)
              (request_layers (prepared_policy workspace_policy))) as Hall by (apply (bool_decide_unpack _); vm_compute; exact I).
    rewrite Forall_forall in Hall. specialize (Hall _ Hlayer). congruence.
Defined.

(** A writable directory inside one a glob denies, with a denied directory in it *)
Definition nested_policy : FilesystemPolicy :=
  restricted [rule_new (at_path "/") Read; unwrap_or (rule_new (at_path "/data") Deny) (absolute_glob "/data" Deny);
              rule_new (at_path "/data/x") Write; rule_new (at_path "/data/x/secret") Deny].

Definition nested_tree : TreeHost := tree_of ["/data/x/secret/key"; "/data/x/.git/HEAD"; "/dev/null"].

(** A missing directory that may be skipped *)
Definition skipping_policy : FilesystemPolicy :=
  restricted [rule_new (at_path "/") Read; rule_new (at_path "/work/app") Write;
              with_missing_path_behavior (rule_new (at_path "/work/app/secret") Deny) MSkip].

(** A nested repository *)
Definition nested_repository_tree : TreeHost := tree_of
  ["/work/app/.git/HEAD"; "/work/app/sub/.git/config"; "/work/app/docs/readme"; "/dev/null"].

Definition shows (f : FilesystemPolicy) (h : TreeHost) (p : path) : option Exposure * result LinuxBackendError FilesystemDecision :=
  (exposed (plan_args (plan_of f h)) p, access_of full_backend (prepared_policy f) p).

(** Three conditions of the enforcement of a plan are needed.  A denied directory
    below a writable one loses its mask when a directory above the writable one
    is denied by a glob, and becomes writable; a denied directory that is missing
    and may be skipped becomes writable once it is created; and the repository
    metadata of a nested repository, read-only for the policy, is writable. *)
Example lowered_exposures_beyond_policy :
  shows nested_policy nested_tree "/data/x/secret/key" = (Some HostWrite, Ok FDeny) /\
  shows skipping_policy workspace_tree "/work/app/secret/key" = (Some HostWrite, Ok FDeny) /\
  shows workspace_policy nested_repository_tree "/work/app/sub/.git/config" = (Some HostWrite, Ok FRead).
Proof. split_and!; vm_compute; reflexivity. Qed.

End plans.
