(* ===== verification/LinuxChannel.v ===== *)
(** The byte channels between the Linux backend and its helper: [std::io::Read]
    and [Write] over a script of what the peer and the system do, big-endian
    integers, and the codec lemmas the frames share. *)

From Stdlib Require Import Ascii String ZArith NArith Lia.
From stdpp Require Import base list strings option numbers.
From S2P Require Import Prelude Text LinuxHost.

(** * Channels *)

(** The bytes that arrive and what a read finds behind them ([None] is the end
    of the stream), the number of reads a signal interrupts, the bytes written,
    and for each write whether it fails after some bytes. *)
Record Channel := {
  ch_input : string;
  ch_end : option IoError;
  ch_interrupts : nat;
  ch_output : string;
  ch_faults : list (option (nat * IoError))
}.

Definition set_input (c : Channel) (s : string) : Channel :=
  {| ch_input := s; ch_end := ch_end c; ch_interrupts := 0; ch_output := ch_output c; ch_faults := ch_faults c |}.

Definition UNEXPECTED_EOF : IoError := OtherIo "failed to fill whole buffer".
Definition INTERRUPTED : IoError := OtherIo "interrupted".

(** [Read::read_exact], which repeats interrupted reads; a failed read leaves
    nothing to be read. *)
Definition ch_read_exact (n : N) : hostM Channel IoError string := fun c =>
  if (n <=? N.of_nat (String.length (ch_input c)))%N
  then (Ok (str_take (N.to_nat n) (ch_input c)), set_input c (str_drop (N.to_nat n) (ch_input c)))
  else (Err (default UNEXPECTED_EOF (ch_end c)), set_input c EmptyString).

(** One [Read::read] into a buffer of one byte *)
Inductive ReadOutcome := ReadInterrupted | ReadEnd | ReadByte (a : ascii) | ReadFault (source : IoError).

Definition ch_read_byte (c : Channel) : ReadOutcome * Channel :=
  match ch_interrupts c, ch_input c with
  | S n, _ => (ReadInterrupted, {| ch_input := ch_input c; ch_end := ch_end c; ch_interrupts := n;
                                   ch_output := ch_output c; ch_faults := ch_faults c |})
  | 0, String a s => (ReadByte a, set_input c s)
  | 0, EmptyString => (match ch_end c with None => ReadEnd | Some e => ReadFault e end, c)
  end.

(** [Write::write_all] *)
Definition ch_write_all (bytes : string) : hostM Channel IoError unit := fun c =>
  let wrote s := {| ch_input := ch_input c; ch_end := ch_end c; ch_interrupts := ch_interrupts c;
                    ch_output := ch_output c +:+ s; ch_faults := tail (ch_faults c) |} in
  match ch_faults c with
  | Some (n, e) :: _ => (Err e, wrote (str_take n bytes))
  | _ => (Ok (), wrote bytes)
  end.

(** [usize::checked_add] *)
Definition checked_add (a b : N) : option N := if (a + b <? 2 ^ 64)%N then Some (a + b)%N else None.

Definition byte_length (s : string) : N := N.of_nat (String.length s).

(** * Big-endian integers *)

(** [to_be_bytes] of an integer of [k] bytes *)
Fixpoint be_bytes (k : nat) (n : N) : string :=
  match k with
  | 0 => EmptyString
  | S k => be_bytes k (n / 256) +:+ String (ascii_of_N (n mod 256)) EmptyString
  end.

(** [from_be_bytes] *)
Definition be_value (s : string) : N :=
  foldl (fun acc a => acc * 256 + byte_val a)%N 0%N (list_ascii_of_string s).

(** [i32] and [u32] share their bytes. *)
Definition i32_bytes (z : Z) : string := be_bytes 4 (Z.to_N (z mod 2 ^ 32)).
Definition i32_value (s : string) : Z :=
  let n := Z.of_N (be_value s) in if (n <? 2 ^ 31)%Z then n else (n - 2 ^ 32)%Z.

Definition is_i32 (z : Z) : Prop := (- 2 ^ 31 <= z < 2 ^ 31)%Z.

Lemma be_bytes_length k n : String.length (be_bytes k n) = k.
Proof. revert n. induction k as [|k IH]; intros n; simpl; [done|]. rewrite string_app_length, IH. simpl. lia. Qed.

Lemma be_value_snoc s a : be_value (s +:+ String a EmptyString) = (be_value s * 256 + byte_val a)%N.
Proof.
  unfold be_value. generalize 0%N. induction s as [|b s IH]; intros n; [done|]. exact (IH _).
Qed.

Lemma be_value_bytes k n : (n < 256 ^ N.of_nat k)%N -> be_value (be_bytes k n) = n.
Proof.
  revert n. induction k as [|k IH]; intros n Hn; [simpl in *; by replace n with 0%N by lia|].
  rewrite Nat2N.inj_succ, N.pow_succ_r' in Hn. cbn [be_bytes]. rewrite be_value_snoc, IH.
  - unfold byte_val. rewrite N_ascii_embedding by (apply N.mod_lt; lia). pose proof (N.div_mod n 256). lia.
  - apply N.Div0.div_lt_upper_bound. done.
Qed.

Lemma i32_value_bytes z : is_i32 z -> i32_value (i32_bytes z) = z.
Proof.
  intros Hz. unfold i32_value, i32_bytes, is_i32 in *. pose proof (Z.mod_pos_bound z (2 ^ 32) ltac:(lia)) as Hm.
  rewrite be_value_bytes by (change (256 ^ N.of_nat 4)%N with (Z.to_N (2 ^ 32)); lia). rewrite Z2N.id by lia.
  destruct (decide (0 <= z)%Z).
  - rewrite Z.mod_small by lia. by destruct (Z.ltb_spec z (2 ^ 31)); [|lia].
  - rewrite <- (Z.mod_unique z (2 ^ 32) (-1) (z + 2 ^ 32)) by lia.
    destruct (Z.ltb_spec (z + 2 ^ 32) (2 ^ 31)); lia.
Qed.

(** * Codecs *)

(** A reader takes exactly [bytes] and ends in [r], once no read is interrupted;
    it [reads] a value when it ends well. *)
Definition takes {E A} (m : hostM Channel E A) (bytes : string) (r : result E A) : Prop :=
  forall c rest, ch_interrupts c = 0 -> ch_input c = bytes +:+ rest -> m c = (r, set_input c rest).

Definition reads {E A} (m : hostM Channel E A) (bytes : string) (a : A) : Prop := takes m bytes (Ok a).

(** A writer that succeeds has written exactly [bytes]. *)
Definition writes {E} (m : hostM Channel E unit) (bytes : string) : Prop :=
  forall c c', m c = (Ok (), c') -> ch_output c' = ch_output c +:+ bytes.

(** A writer succeeds on a channel without faults. *)
Definition delivers {E} (m : hostM Channel E unit) : Prop :=
  forall c, ch_faults c = [] -> exists c', m c = (Ok (), c') /\ ch_faults c' = [].

Lemma set_input_again c s t : set_input (set_input c s) t = set_input c t.
Proof. reflexivity. Qed.

Lemma takes_bind {E A B} (m : hostM Channel E A) (f : A -> hostM Channel E B) s t a r :
  reads m s a -> takes (f a) t r -> takes (m ≫= f) (s +:+ t) r.
Proof.
  intros Hm Hf c rest H0 Hc. rewrite <- string_app_assoc in Hc. unfold mbind, hostM_bind.
  rewrite (Hm c (t +:+ rest) H0 Hc), (Hf _ rest) by done. by rewrite set_input_again.
Qed.

Lemma reads_bind {E A B} (m : hostM Channel E A) (f : A -> hostM Channel E B) s t a b :
  reads m s a -> reads (f a) t b -> reads (m ≫= f) (s +:+ t) b.
Proof. apply takes_bind. Qed.

Lemma writes_bind {E} (m : hostM Channel E unit) (f : unit -> hostM Channel E unit) s t :
  writes m s -> writes (f ()) t -> writes (m ≫= f) (s +:+ t).
Proof.
  intros Hm Hf c c' ([] & c1 & H1 & H2)%hbind_Ok. rewrite (Hf _ _ H2), (Hm _ _ H1). symmetry. apply string_app_assoc.
Qed.

Lemma delivers_bind {E} (m : hostM Channel E unit) (f : unit -> hostM Channel E unit) :
  delivers m -> delivers (f ()) -> delivers (m ≫= f).
Proof.
  intros Hm Hf c Hc. destruct (Hm c Hc) as (c1 & H1 & Hc1), (Hf c1 Hc1) as (c2 & H2 & Hc2).
  exists c2. split; [|done]. apply hbind_Ok. eauto.
Qed.

Lemma reads_then {E A B} (m : hostM Channel E A) (f : A -> B) s a : reads m s a -> reads (x ← m; mret (f x)) s (f a).
Proof. intros Hm c rest H0 Hc. unfold mbind, hostM_bind. by rewrite (Hm c rest H0 Hc). Qed.

Lemma reads_map_err {E F A} (f : E -> F) (m : hostM Channel E A) s a : reads m s a -> reads (hmap_err f m) s a.
Proof. intros Hm c rest H0 Hc. unfold hmap_err. by rewrite (Hm c rest H0 Hc). Qed.

Lemma ch_read_exact_reads s : reads (ch_read_exact (byte_length s)) s s.
Proof.
  intros c rest _ Hc. unfold ch_read_exact, byte_length. rewrite Hc, Nat2N.id, str_take_app, str_drop_app, string_app_length.
  by destruct (N.leb_spec (N.of_nat (String.length s)) (N.of_nat (String.length s + String.length rest))); [|lia].
Qed.

Lemma ch_write_all_writes s : writes (ch_write_all s) s.
Proof. intros c c'. unfold ch_write_all. destruct (ch_faults c) as [|[[n e]|] l]; intros [= <-]; done. Qed.

Lemma ch_write_all_delivers s : delivers (ch_write_all s).
Proof. intros c Hc. unfold ch_write_all. rewrite Hc. eauto. Qed.

Lemma writes_map_err {E F} (f : E -> F) (m : hostM Channel E unit) s : writes m s -> writes (hmap_err f m) s.
Proof. intros Hm c c'. unfold hmap_err. destruct (m c) as [[[]|e] c1] eqn:Em; intros [= <-]. by apply Hm. Qed.

Lemma delivers_map_err {E F} (f : E -> F) (m : hostM Channel E unit) : delivers m -> delivers (hmap_err f m).
Proof. intros Hm c Hc. destruct (Hm c Hc) as (c' & H & Hc'). exists c'. unfold hmap_err. by rewrite H. Qed.

Lemma takes_pure {E A} (m : hostM Channel E A) r : (forall c, m c = (r, c)) -> takes m EmptyString r.
Proof. intros Hm c rest H0 Hc. simpl in Hc. rewrite Hm. f_equal. destruct c; simpl in *; subst. reflexivity. Qed.

(** A reader of a whole frame that starts with [read_exact], whatever is
    interrupted *)
Lemma takes_frame {E A} (m : hostM Channel E A) bytes r c rest :
  takes m bytes r -> m c = m (set_input c (ch_input c)) -> ch_input c = bytes +:+ rest ->
  m c = (r, set_input c rest).
Proof. intros Hm -> Hc. by rewrite (Hm (set_input c (ch_input c)) rest). Qed.

(** Bytes read with their number given *)
Lemma read_exact_takes n s : N.of_nat (String.length s) = n -> reads (ch_read_exact n) s s.
Proof. intros <-. apply ch_read_exact_reads. Qed.
