(* ===== verification/LinuxFrames.v ===== *)
(** The frames between the Linux backend and its helper:
    [cageforge-linux/src/environment_transport.rs] and
    [hardening/environment.rs] (the command environment), [setup_transport.rs],
    [status_transport.rs] and the writers of [hardening.rs] (what the helper
    reports), with the constants of [helper_protocol.rs] and the failures of
    [hardening_error.rs]. *)

From Stdlib Require Import Ascii String ZArith NArith Lia Sorting.Sorted.
From stdpp Require Import base list strings option numbers sets sorting.
From S2P Require Import Prelude Text BTree LinuxHost LinuxChannel.

(** * [helper_protocol.rs] *)

Definition byte (n : N) : string := String (ascii_of_N n) EmptyString.

Definition ENVIRONMENT_MAGIC : string := "CFENV" +:+ byte 1.
Definition MAX_ENVIRONMENT_ENTRIES : N := 4096.
Definition MAX_ENVIRONMENT_VALUE_BYTES : N := 1024 * 1024.
Definition MAX_ENVIRONMENT_FRAME_BYTES : N := 16 * 1024 * 1024.
Definition STATUS_MAGIC : string := "CFSTATUS" +:+ byte 2.
Definition STATUS_RESULT_COMMAND : N := 0.
Definition STATUS_RESULT_FAILURE : N := 1.
Definition STATUS_RESULT_NO_ERRNO : Z := - 2 ^ 31.
Definition SETUP_RESULT_MAGIC : string := "CFSETUP" +:+ byte 1.
Definition SETUP_RESULT_READY : N := 0.
Definition SETUP_RESULT_FAILURE : N := 1.
Definition SETUP_RESULT_NO_ERRNO : Z := - 2 ^ 31.

(** * The command environment *)

Inductive EnvironmentFrameError :=
  | EnvIo (operation : string) (source : IoError)
  | LengthTooLarge
  | LengthLimitExceeded (length maximum : N)
  | FrameLimitExceeded (maximum : N)
  | EntryLimitExceeded (count maximum : N)
  | InvalidName
  | InvalidValue
  | DuplicateVariable
  | EnvInvalidMagic.

Definition envM : Type -> Type := hostM Channel EnvironmentFrameError.

Definition env_write (operation bytes : string) : envM unit := hmap_err (EnvIo operation) (ch_write_all bytes).
Definition env_read (operation : string) (n : N) : envM string := hmap_err (EnvIo operation) (ch_read_exact n).

(** [u64::try_from] of a length fails when it has more than 64 bits. *)
Definition write_length (length : N) : envM unit :=
  if (length <? 2 ^ 64)%N then env_write "length write" (be_bytes 8 length) else hfail LengthTooLarge.

Definition write_os_string (value : string) : envM unit :=
  if (MAX_ENVIRONMENT_VALUE_BYTES <? byte_length value)%N
  then hfail (LengthLimitExceeded (byte_length value) MAX_ENVIRONMENT_VALUE_BYTES)
  else _ ← write_length (byte_length value); env_write "value write" value.

(** [total.checked_add(name.len()).and_then(|total| total.checked_add(value.len()))] *)
Definition add_entry (total : N) (entry : string * string) : option N :=
  total ← checked_add total (byte_length entry.1); checked_add total (byte_length entry.2).

Fixpoint frame_bytes (total : N) (environment : list (string * string)) : option N :=
  match environment with
  | [] => Some total
  | entry :: rest => total ← add_entry total entry; frame_bytes total rest
  end.

Definition write_entry (entry : string * string) : envM unit :=
  _ ← write_os_string entry.1; write_os_string entry.2.

Definition write_environment (environment : BTreeMap string string) : envM unit :=
  let count := N.of_nat (length environment) in
  if (MAX_ENVIRONMENT_ENTRIES <? count)%N then hfail (EntryLimitExceeded count MAX_ENVIRONMENT_ENTRIES)
  else if match frame_bytes 0 environment with None => true | Some n => (MAX_ENVIRONMENT_FRAME_BYTES <? n)%N end
  then hfail (FrameLimitExceeded MAX_ENVIRONMENT_FRAME_BYTES)
  else
    _ ← env_write "magic write" ENVIRONMENT_MAGIC;
    _ ← write_length count;
    hfold (fun _ entry => write_entry entry) () environment.

(** [usize] has 64 bits, so that [usize::try_from] succeeds. *)
Definition read_length : envM N := s ← env_read "length read" 8; mret (be_value s).

Definition read_os_string : envM string :=
  length ← read_length;
  if (MAX_ENVIRONMENT_VALUE_BYTES <? length)%N then hfail (LengthLimitExceeded length MAX_ENVIRONMENT_VALUE_BYTES)
  else env_read "value read" length.

Definition validate_environment_entry (name value : string) : result EnvironmentFrameError unit :=
  reject bool_decide (name = EmptyString) || contains_char NUL name || contains_char "=" name with InvalidName ;;
  reject contains_char NUL value with InvalidValue ;;
  Ok ().

(** One iteration of the loop of [read_environment] *)
Definition read_entry (st : BTreeMap string string * N) : envM (BTreeMap string string * N) :=
  let '(environment, total) := st in
  name ← read_os_string;
  value ← read_os_string;
  total ← hlift (ok_or (FrameLimitExceeded MAX_ENVIRONMENT_FRAME_BYTES) (add_entry total (name, value)));
  if (MAX_ENVIRONMENT_FRAME_BYTES <? total)%N then hfail (FrameLimitExceeded MAX_ENVIRONMENT_FRAME_BYTES)
  else
    _ ← hlift (validate_environment_entry name value);
    match bt_get name environment with
    | Some _ => hfail DuplicateVariable
    | None => mret (bt_insert name value environment, total)
    end.

Definition read_environment : envM (BTreeMap string string) :=
  magic ← env_read "magic read" (byte_length ENVIRONMENT_MAGIC);
  if negb (String.eqb magic ENVIRONMENT_MAGIC) then hfail EnvInvalidMagic
  else
    count ← read_length;
    if (MAX_ENVIRONMENT_ENTRIES <? count)%N then hfail (EntryLimitExceeded count MAX_ENVIRONMENT_ENTRIES)
    else
      st ← hfold (fun st _ => read_entry st) ([], 0%N) (replicate (N.to_nat count) ());
      mret st.1.

(** * What the helper reports *)

Inductive LinuxHelperSetupFailureKind :=
  | NetworkModeFailure | GatewayBridgeFailure | EnvironmentFrameFailure | ParentDeathSignalFailure
  | DumpabilityFailure | CoreDumpLimitFailure | NoNewPrivilegesFailure | SeccompBuildFailure
  | LocalIpcFrameFailure | ProcessHardeningFailure | SetupCommandStart | SetupTraceSupervision
  | KeyringIsolationFailure.

Inductive LinuxHelperRuntimeFailureKind := RuntimeCommandStart | RuntimeTraceSupervision | RuntimeCommandWait.

Record LinuxHelperSetupFailure := { setup_kind : LinuxHelperSetupFailureKind; setup_os_error : option Z }.
Record LinuxHelperRuntimeFailure := { runtime_kind : LinuxHelperRuntimeFailureKind; runtime_os_error : option Z }.

(** [u16::from] *)
Definition setup_code (k : LinuxHelperSetupFailureKind) : N :=
  match k with
  | NetworkModeFailure => 1 | GatewayBridgeFailure => 2 | EnvironmentFrameFailure => 3 | ParentDeathSignalFailure => 4
  | DumpabilityFailure => 5 | CoreDumpLimitFailure => 6 | NoNewPrivilegesFailure => 7 | SeccompBuildFailure => 8
  | LocalIpcFrameFailure => 13 | ProcessHardeningFailure => 9 | SetupCommandStart => 10 | SetupTraceSupervision => 11
  | KeyringIsolationFailure => 12
  end.

(** [try_from] *)
Definition setup_kind_of (code : N) : option LinuxHelperSetupFailureKind :=
  match code with
  | 1 => Some NetworkModeFailure | 2 => Some GatewayBridgeFailure | 3 => Some EnvironmentFrameFailure
  | 4 => Some ParentDeathSignalFailure | 5 => Some DumpabilityFailure | 6 => Some CoreDumpLimitFailure
  | 7 => Some NoNewPrivilegesFailure | 8 => Some SeccompBuildFailure | 9 => Some ProcessHardeningFailure
  | 10 => Some SetupCommandStart | 11 => Some SetupTraceSupervision | 12 => Some KeyringIsolationFailure
  | 13 => Some LocalIpcFrameFailure | _ => None
  end%N.

Definition runtime_code (k : LinuxHelperRuntimeFailureKind) : N :=
  match k with RuntimeCommandStart => 1 | RuntimeTraceSupervision => 2 | RuntimeCommandWait => 3 end.

Definition runtime_kind_of (code : N) : option LinuxHelperRuntimeFailureKind :=
  match code with
  | 1 => Some RuntimeCommandStart | 2 => Some RuntimeTraceSupervision | 3 => Some RuntimeCommandWait | _ => None
  end%N.

(** The variants of [SetupHandshakeError] the reader returns *)
Inductive SetupHandshakeError :=
  | SetupIo (source : IoError)
  | InvalidReady
  | InvalidResultTag (tag : N)
  | InvalidFailureCode (code : N)
  | HelperRejected (failure : LinuxHelperSetupFailure).

Definition setupM : Type -> Type := hostM Channel SetupHandshakeError.
Definition setup_read (n : N) : setupM string := hmap_err SetupIo (ch_read_exact n).

Definition write_setup_failure (failure : LinuxHelperSetupFailure) : hostM Channel IoError unit :=
  _ ← ch_write_all SETUP_RESULT_MAGIC;
  _ ← ch_write_all (byte SETUP_RESULT_FAILURE);
  _ ← ch_write_all (be_bytes 2 (setup_code (setup_kind failure)));
  ch_write_all (i32_bytes (default SETUP_RESULT_NO_ERRNO (setup_os_error failure))).

(** The ready marker of [complete_setup_handshake] *)
Definition write_setup_ready : hostM Channel IoError unit :=
  _ ← ch_write_all SETUP_RESULT_MAGIC; ch_write_all (byte SETUP_RESULT_READY).

(** [(raw != NO_ERRNO).then_some(raw)] *)
Definition os_error_of (no_errno raw : Z) : option Z := if (raw =? no_errno)%Z then None else Some raw.

Definition read_failure : setupM unit :=
  code ← setup_read 2;
  kind ← hlift (ok_or (InvalidFailureCode (be_value code)) (setup_kind_of (be_value code)));
  raw ← setup_read 4;
  hfail (HelperRejected {| setup_kind := kind; setup_os_error := os_error_of SETUP_RESULT_NO_ERRNO (i32_value raw) |}).

Definition read_setup_result : setupM unit :=
  magic ← setup_read (byte_length SETUP_RESULT_MAGIC);
  if negb (String.eqb magic SETUP_RESULT_MAGIC) then hfail InvalidReady
  else
    tag ← setup_read 1;
    if (be_value tag =? SETUP_RESULT_READY)%N then mret ()
    else if (be_value tag =? SETUP_RESULT_FAILURE)%N then read_failure
    else hfail (InvalidResultTag (be_value tag)).

Inductive StatusFrameError :=
  | StatusIo (operation : string) (source : IoError)
  | MissingFrame
  | StatusInvalidMagic
  | StatusInvalidResultTag (tag : N)
  | StatusInvalidFailureCode (code : N)
  | InvalidPrefixLength.

(** [ExitStatus] holds the raw wait status. *)
Inductive HelperExecutionResult :=
  | CommandExited (status : Z)
  | HelperFailed (failure : LinuxHelperRuntimeFailure).

Definition statusM : Type -> Type := hostM Channel StatusFrameError.
Definition status_read (operation : string) (n : N) : statusM string := hmap_err (StatusIo operation) (ch_read_exact n).

Definition write_runtime_failure (failure : LinuxHelperRuntimeFailure) : hostM Channel IoError unit :=
  _ ← ch_write_all STATUS_MAGIC;
  _ ← ch_write_all (byte STATUS_RESULT_FAILURE);
  _ ← ch_write_all (be_bytes 2 (runtime_code (runtime_kind failure)));
  ch_write_all (i32_bytes (default STATUS_RESULT_NO_ERRNO (runtime_os_error failure))).

Definition write_command_status (status : Z) : hostM Channel IoError unit :=
  _ ← ch_write_all STATUS_MAGIC;
  _ ← ch_write_all (byte STATUS_RESULT_COMMAND);
  ch_write_all (i32_bytes status).

Definition read_command_status : statusM HelperExecutionResult :=
  raw ← status_read "status read" 4; mret (CommandExited (i32_value raw)).

Definition read_runtime_failure : statusM HelperExecutionResult :=
  code ← status_read "failure code read" 2;
  kind ← hlift (ok_or (StatusInvalidFailureCode (be_value code)) (runtime_kind_of (be_value code)));
  raw ← status_read "failure errno read" 4;
  mret (HelperFailed {| runtime_kind := kind; runtime_os_error := os_error_of STATUS_RESULT_NO_ERRNO (i32_value raw) |}).

(** The loop that reads the first byte repeats an interrupted read; it runs once
    more than the channel interrupts, so that its last case is not met. *)
Fixpoint read_prefix_loop (interrupts : nat) (c : Channel) : result StatusFrameError ascii * Channel :=
  match ch_read_byte c, interrupts with
  | (ReadEnd, c'), _ => (Err MissingFrame, c')
  | (ReadByte a, c'), _ => (Ok a, c')
  | (ReadFault e, c'), _ => (Err (StatusIo "prefix read" e), c')
  | (ReadInterrupted, c'), S n => read_prefix_loop n c'
  | (ReadInterrupted, c'), 0 => (Err (StatusIo "prefix read" INTERRUPTED), c')
  end.

Definition read_prefix : statusM ascii := fun c => read_prefix_loop (ch_interrupts c) c.

Definition read_status : statusM HelperExecutionResult :=
  first ← read_prefix;
  rest ← status_read "magic read" (byte_length STATUS_MAGIC - 1);
  if negb (String.eqb (String first rest) STATUS_MAGIC) then hfail StatusInvalidMagic
  else
    tag ← status_read "result tag read" 1;
    if (be_value tag =? STATUS_RESULT_COMMAND)%N then read_command_status
    else if (be_value tag =? STATUS_RESULT_FAILURE)%N then read_runtime_failure
    else hfail (StatusInvalidResultTag (be_value tag)).

(** * Codec lemmas *)

Definition os_string_frame (s : string) : string := be_bytes 8 (byte_length s) +:+ s.
Definition entry_frame (e : string * string) : string := os_string_frame e.1 +:+ os_string_frame e.2.
Definition entries_frame (l : list (string * string)) : string := foldr (fun e acc => entry_frame e +:+ acc) EmptyString l.
Definition environment_frame (l : BTreeMap string string) : string :=
  ENVIRONMENT_MAGIC +:+ (be_bytes 8 (N.of_nat (length l)) +:+ entries_frame l).

Definition value_fits (s : string) : Prop := (byte_length s <= MAX_ENVIRONMENT_VALUE_BYTES)%N.

(** The limits of a frame *)
Definition environment_fits (l : BTreeMap string string) : Prop :=
  (N.of_nat (length l) <= MAX_ENVIRONMENT_ENTRIES)%N /\
  (exists n, frame_bytes 0 l = Some n /\ (n <= MAX_ENVIRONMENT_FRAME_BYTES)%N) /\
  Forall (fun e => value_fits e.1 /\ value_fits e.2) l.

Definition entry_valid (e : string * string) : Prop := validate_environment_entry e.1 e.2 = Ok ().

Lemma be_bytes_reads k n op : (n < 256 ^ N.of_nat k)%N -> reads (env_read op (N.of_nat k)) (be_bytes k n) (be_bytes k n).
Proof.
  intros Hn. apply reads_map_err, read_exact_takes. by rewrite be_bytes_length.
Qed.

Lemma read_length_reads n : (n < 2 ^ 64)%N -> reads read_length (be_bytes 8 n) n.
Proof.
  intros Hn. unfold read_length. rewrite <- (be_value_bytes 8 n Hn) at 2.
  apply (reads_then _ be_value). by apply (be_bytes_reads 8).
Qed.

Lemma read_os_string_reads s : value_fits s -> reads read_os_string (os_string_frame s) s.
Proof.
  unfold value_fits, MAX_ENVIRONMENT_VALUE_BYTES. intros Hs. apply (reads_bind _ _ _ _ (byte_length s)).
  - apply read_length_reads. lia.
  - destruct (N.ltb_spec MAX_ENVIRONMENT_VALUE_BYTES (byte_length s)) as [Hlt|_];
      [unfold MAX_ENVIRONMENT_VALUE_BYTES in Hlt; lia|]. apply reads_map_err, ch_read_exact_reads.
Qed.

Lemma frame_bytes_mono n l m : frame_bytes n l = Some m -> (n <= m)%N.
Proof.
  revert n. induction l as [|e l IH]; intros n; simpl; [by intros [= ->]|]. intros (k & Hk & Hl)%bind_Some.
  apply IH in Hl. apply bind_Some in Hk as (j & Hj & Hk). unfold checked_add in *. repeat case_match; simplify_eq. lia.
Qed.

Lemma bt_insert_last (k v : string) m : bt_wf (m ++ [(k, v)]) -> bt_get k m = None /\ bt_insert k v m = m ++ [(k, v)].
Proof.
  induction m as [|[j w] m IH]; simpl; [done|]. intros [Hwf Hall]%StronglySorted_inv.
  destruct (IH Hwf) as [Hg Hi]. rewrite Forall_forall in Hall. specialize (Hall (k, v) ltac:(set_solver)).
  simpl in Hall. assert (cmp k j = Gt) as -> by (rewrite cmp_antisym, Hall; done). by rewrite Hi.
Qed.

Lemma read_entry_reads m n e n' :
  bt_wf (m ++ [e]) -> value_fits e.1 -> value_fits e.2 -> entry_valid e -> add_entry n e = Some n' ->
  (n' <= MAX_ENVIRONMENT_FRAME_BYTES)%N ->
  reads (read_entry (m, n)) (entry_frame e) (m ++ [e], n').
Proof.
  destruct e as [k v]. simpl. intros Hwf Hk Hv Hval Hadd Hmax. destruct (bt_insert_last k v m Hwf) as [Hg Hi].
  apply (reads_bind _ _ _ _ k); [by apply read_os_string_reads|].
  intros c rest H0 Hc. unfold mbind, hostM_bind at 1. rewrite (read_os_string_reads v Hv c rest H0 Hc), Hadd. simpl.
  unfold hostM_bind, hlift. simpl. destruct (N.ltb_spec MAX_ENVIRONMENT_FRAME_BYTES n'); [lia|].
  unfold entry_valid in Hval. simpl in Hval. unfold hostM_bind. by rewrite Hval, Hg, Hi.
Qed.

Lemma read_entries_reads m n l n' :
  bt_wf (m ++ l) -> Forall (fun e => value_fits e.1 /\ value_fits e.2) l -> Forall entry_valid l ->
  frame_bytes n l = Some n' -> (n' <= MAX_ENVIRONMENT_FRAME_BYTES)%N ->
  reads (hfold (fun st _ => read_entry st) (m, n) (replicate (length l) ())) (entries_frame l) (m ++ l, n').
Proof.
  revert m n. induction l as [|e l IH]; intros m n Hwf Hfit Hval Hb Hmax; simpl in *.
  - injection Hb as ->. rewrite app_nil_r. by apply takes_pure.
  - inversion_clear Hfit as [|?? [Hk Hv] Hfit']. inversion_clear Hval as [|?? He Hval'].
    apply bind_Some in Hb as (k & Hk1 & Hb). change (e :: l) with ([e] ++ l) in *. rewrite (app_assoc m [e] l) in *.
    apply (reads_bind _ _ _ _ (m ++ [e], k)).
    + apply read_entry_reads; try done; [|apply frame_bytes_mono in Hb; lia].
      by apply StronglySorted_app_1_l in Hwf.
    + by apply IH.
Qed.

Lemma read_environment_reads l : bt_wf l -> environment_fits l -> Forall entry_valid l -> reads read_environment (environment_frame l) l.
Proof.
  intros Hwf (Hcount & (n & Hn & Hmax) & Hfit) Hval. unfold MAX_ENVIRONMENT_ENTRIES in Hcount.
  apply (reads_bind _ _ _ _ ENVIRONMENT_MAGIC); [apply reads_map_err, ch_read_exact_reads|].
  rewrite String.eqb_refl. cbn [negb]. apply (reads_bind _ _ _ _ (N.of_nat (length l))); [apply read_length_reads; lia|].
  destruct (N.ltb_spec MAX_ENVIRONMENT_ENTRIES (N.of_nat (length l))) as [Hlt|_];
    [unfold MAX_ENVIRONMENT_ENTRIES in Hlt; lia|].
  rewrite Nat2N.id. apply (reads_then _ fst _ (l, n)). by apply (read_entries_reads [] 0 l n).
Qed.

(** Writers fail on what exceeds a limit, and otherwise write the frame. *)
Lemma write_length_writes n : writes (write_length n) (be_bytes 8 n).
Proof. unfold write_length. destruct (_ <? _)%N; [|by intros c c']. apply writes_map_err, ch_write_all_writes. Qed.

Lemma write_os_string_writes s : writes (write_os_string s) (os_string_frame s).
Proof.
  unfold write_os_string. destruct (_ <? _)%N; [by intros c c'|].
  apply writes_bind; [apply write_length_writes|apply writes_map_err, ch_write_all_writes].
Qed.

Lemma write_entry_writes e : writes (write_entry e) (entry_frame e).
Proof. apply writes_bind; apply write_os_string_writes. Qed.

Lemma write_entries_writes l : writes (hfold (fun _ entry => write_entry entry) () l) (entries_frame l).
Proof.
  induction l as [|e l IH]; simpl.
  - intros c c' [= <-]. by rewrite string_app_empty_r.
  - apply writes_bind; [apply write_entry_writes|exact IH].
Qed.

Lemma write_environment_writes l : writes (write_environment l) (environment_frame l).
Proof.
  unfold write_environment. destruct (_ <? _)%N; [by intros c c'|]. destruct (match frame_bytes 0 l with _ => _ end); [by intros c c'|].
  apply writes_bind; [apply writes_map_err, ch_write_all_writes|].
  apply writes_bind; [apply write_length_writes|apply write_entries_writes].
Qed.

Lemma write_os_string_fits s c c' : write_os_string s c = (Ok (), c') -> value_fits s.
Proof. unfold write_os_string, value_fits. destruct (N.ltb_spec MAX_ENVIRONMENT_VALUE_BYTES (byte_length s)); [done|lia]. Qed.

Lemma write_entries_fit l c c' :
  hfold (fun _ entry => write_entry entry) () l c = (Ok (), c') -> Forall (fun e => value_fits e.1 /\ value_fits e.2) l.
Proof.
  revert c. induction l as [|e l IH]; intros c; simpl; [by constructor|].
  intros ([] & c1 & ([] & c2 & H1%write_os_string_fits & H2%write_os_string_fits)%hbind_Ok & Hl)%hbind_Ok.
  constructor; [done|]. by apply (IH c1).
Qed.

Lemma write_environment_fits l c c' : write_environment l c = (Ok (), c') -> environment_fits l.
Proof.
  unfold write_environment, environment_fits. destruct (N.ltb_spec MAX_ENVIRONMENT_ENTRIES (N.of_nat (length l))); [done|].
  destruct (frame_bytes 0 l) as [n|]; [|done]. destruct (N.ltb_spec MAX_ENVIRONMENT_FRAME_BYTES n); [done|].
  intros ([] & c1 & _ & ([] & c2 & _ & Hl%write_entries_fit)%hbind_Ok)%hbind_Ok. split_and!; eauto.
Qed.

Lemma write_os_string_delivers s : value_fits s -> delivers (write_os_string s).
Proof.
  unfold write_os_string, value_fits, write_length. intros Hs.
  destruct (N.ltb_spec MAX_ENVIRONMENT_VALUE_BYTES (byte_length s)); [lia|]. unfold MAX_ENVIRONMENT_VALUE_BYTES in Hs.
  destruct (N.ltb_spec (byte_length s) (2 ^ 64)); [|lia].
  apply delivers_bind; apply delivers_map_err, ch_write_all_delivers.
Qed.

Lemma write_environment_delivers l : environment_fits l -> delivers (write_environment l).
Proof.
  intros (Hcount & (n & Hn & Hmax) & Hfit). unfold write_environment, write_length. rewrite Hn.
  destruct (N.ltb_spec MAX_ENVIRONMENT_ENTRIES (N.of_nat (length l))); [lia|].
  destruct (N.ltb_spec MAX_ENVIRONMENT_FRAME_BYTES n); [lia|]. unfold MAX_ENVIRONMENT_ENTRIES in Hcount.
  destruct (N.ltb_spec (N.of_nat (length l)) (2 ^ 64)); [|lia].
  do 2 (apply delivers_bind; [apply delivers_map_err, ch_write_all_delivers|]).
  clear -Hfit. induction Hfit as [|e l [Hk Hv] _ IH]; simpl; [by intros c Hc; eauto|].
  apply delivers_bind; [|exact IH]. by apply delivers_bind; apply write_os_string_delivers.
Qed.

(** * What the reader accepts *)

Definition entry_bytes (e : string * string) : N := byte_length e.1 + byte_length e.2.
Definition total_bytes (l : list (string * string)) : N := foldr (fun e n => entry_bytes e + n)%N 0%N l.

Lemma frame_bytes_total n l : (n + total_bytes l < 2 ^ 64)%N -> frame_bytes n l = Some (n + total_bytes l)%N.
Proof.
  revert n. induction l as [|e l IH]; intros n Hn; simpl in *; [by rewrite N.add_0_r|].
  unfold add_entry, checked_add, entry_bytes in *. destruct (N.ltb_spec (n + byte_length e.1) (2 ^ 64)); [|lia]. simpl.
  destruct (N.ltb_spec (n + byte_length e.1 + byte_length e.2) (2 ^ 64)); [|lia]. simpl.
  rewrite IH by lia. f_equal. lia.
Qed.

Lemma bt_insert_perm (k v : string) m : bt_get k m = None -> bt_insert k v m ≡ₚ (k, v) :: m.
Proof.
  induction m as [|[j w] m IH]; simpl; [done|]. destruct (cmp k j); intros Hg; [done..|].
  rewrite IH by done. apply Permutation_swap.
Qed.

Lemma total_bytes_perm l l' : l ≡ₚ l' -> total_bytes l = total_bytes l'.
Proof. induction 1; simpl; lia. Qed.

(** What holds of the state after [i] iterations *)
Record collected (i : nat) (st : BTreeMap string string * N) : Prop := {
  collected_wf : bt_wf st.1;
  collected_length : length st.1 = i;
  collected_total : total_bytes st.1 = st.2;
  collected_max : (st.2 <= MAX_ENVIRONMENT_FRAME_BYTES)%N;
  collected_fit : Forall (fun e => value_fits e.1 /\ value_fits e.2) st.1;
  collected_valid : Forall entry_valid st.1
}.

Lemma read_os_string_fits c s c' : read_os_string c = (Ok s, c') -> value_fits s.
Proof.
  intros (n & c1 & _ & H)%hbind_Ok. destruct (N.ltb_spec MAX_ENVIRONMENT_VALUE_BYTES n); [done|].
  unfold env_read, hmap_err, ch_read_exact in H.
  destruct (N.leb_spec n (N.of_nat (String.length (ch_input c1)))); [|done]. injection H as <- _.
  unfold value_fits, byte_length. rewrite str_take_length by lia. lia.
Qed.

Lemma read_entry_collected i st c st' c' : collected i st -> read_entry st c = (Ok st', c') -> collected (S i) st'.
Proof.
  destruct st as [m n]. intros [Hwf Hlen Htot Hmax Hfit Hval]
    (k & c1 & Hk%read_os_string_fits & (v & c2 & Hv%read_os_string_fits & (n' & c3 & Hn & H)%hbind_Ok)%hbind_Ok)%hbind_Ok.
  simpl in *. unfold hlift in Hn. destruct (add_entry n (k, v)) as [n1|] eqn:Ha; [|done]. injection Hn as -> <-.
  destruct (N.ltb_spec MAX_ENVIRONMENT_FRAME_BYTES n'); [done|].
  apply hbind_Ok in H as ([] & c4 & [= He <-] & H).
  destruct (bt_get k m) eqn:Hg; [done|]. injection H as <- _.
  pose proof (bt_insert_perm k v m Hg) as Hp. split; simpl; [by apply bt_wf_insert| | |done| |].
  - rewrite Hp. simpl. lia.
  - rewrite (total_bytes_perm _ _ Hp). simpl. unfold entry_bytes, add_entry, checked_add in *. simpl in *.
    repeat (case_match; simplify_eq/=). lia.
  - rewrite Hp. by constructor.
  - rewrite Hp. constructor; [done|exact Hval].
Qed.

Lemma read_entries_collected k i st c st' c' :
  collected i st -> hfold (fun st _ => read_entry st) st (replicate k ()) c = (Ok st', c') -> collected (i + k) st'.
Proof.
  revert i st c. induction k as [|k IH]; intros i st c Hst; simpl.
  - intros [= <- <-]. by rewrite Nat.add_0_r.
  - intros (st1 & c1 & H1 & Hl)%hbind_Ok. rewrite <- Nat.add_succ_comm. eapply IH; [|done]. by eapply read_entry_collected.
Qed.

Lemma read_environment_fits c l c' :
  read_environment c = (Ok l, c') -> bt_wf l /\ environment_fits l /\ Forall entry_valid l.
Proof.
  intros (magic & c1 & _ & H)%hbind_Ok. destruct (negb _); [done|]. apply hbind_Ok in H as (count & c2 & _ & H).
  destruct (N.ltb_spec MAX_ENVIRONMENT_ENTRIES count); [done|]. apply hbind_Ok in H as (st & c3 & H & [= <- <-]).
  apply (read_entries_collected _ 0) in H as [Hwf Hlen Htot Hmax Hfit Hval].
  - split_and!; [done| |done]. split_and!; [lia| |done]. exists st.2. split; [|done].
    rewrite <- Htot. apply (frame_bytes_total 0). unfold MAX_ENVIRONMENT_FRAME_BYTES in Hmax. lia.
  - split; simpl; (done || constructor || lia).
Qed.

(** C19. The environment the backend sends is the environment the helper gets.  A
    frame written without an error is read back as the same variables, and the
    bytes behind it stay unread.  Conversely the helper only accepts variables
    that are ordered, valid and within every limit, so that they can be written
    again. *)
Theorem environment_frame_exact (l : BTreeMap string string) :
  (bt_wf l -> Forall entry_valid l -> forall c c', write_environment l c = (Ok (), c') ->
   exists frame, ch_output c' = ch_output c +:+ frame /\
     forall r rest, ch_input r = frame +:+ rest -> read_environment r = (Ok l, set_input r rest)) /\
  (forall r r', read_environment r = (Ok l, r') ->
   bt_wf l /\ Forall entry_valid l /\
   forall c, ch_faults c = [] -> exists c', write_environment l c = (Ok (), c')).
Proof.
  split.
  - intros Hwf Hval c c' Hw. exists (environment_frame l). split; [by apply write_environment_writes|].
    intros r rest Hr. apply write_environment_fits in Hw.
    apply (takes_frame _ (environment_frame l)); [by apply read_environment_reads|reflexivity|done].
  - intros r r' (Hwf & Hfit & Hval)%read_environment_fits. split_and!; [done..|].
    intros c Hc. destruct (write_environment_delivers l Hfit c Hc) as (c' & Hw & _). eauto.
Qed.

(** * Reports *)

(** The operating-system errors a report can carry *)
Definition reportable (e : option Z) : Prop :=
  match e with Some z => is_i32 z /\ z <> STATUS_RESULT_NO_ERRNO | None => True end.

Lemma os_error_of_default e : reportable e -> os_error_of STATUS_RESULT_NO_ERRNO (i32_value (i32_bytes (default STATUS_RESULT_NO_ERRNO e))) = e.
Proof.
  unfold os_error_of. destruct e as [z|]; cbn [default from_option reportable id].
  - intros [Hz Hne]. rewrite i32_value_bytes by done. by destruct (Z.eqb_spec z STATUS_RESULT_NO_ERRNO).
  - done.
Qed.

Lemma setup_kind_of_code k : setup_kind_of (be_value (be_bytes 2 (setup_code k))) = Some k.
Proof. by destruct k. Qed.

Lemma runtime_kind_of_code k : runtime_kind_of (be_value (be_bytes 2 (runtime_code k))) = Some k.
Proof. by destruct k. Qed.

(** The prefix is read behind any number of interruptions. *)
Lemma read_prefix_reads c a s : ch_input c = String a s -> read_prefix c = (Ok a, set_input c s).
Proof.
  unfold read_prefix. destruct c as [i e n o f]. simpl. intros ->.
  induction n as [|n IH]; [reflexivity|]. exact IH.
Qed.

Definition setup_failure_frame (f : LinuxHelperSetupFailure) : string :=
  SETUP_RESULT_MAGIC +:+ (byte SETUP_RESULT_FAILURE +:+ (be_bytes 2 (setup_code (setup_kind f)) +:+
    i32_bytes (default SETUP_RESULT_NO_ERRNO (setup_os_error f)))).

Definition runtime_failure_frame (f : LinuxHelperRuntimeFailure) : string :=
  STATUS_MAGIC +:+ (byte STATUS_RESULT_FAILURE +:+ (be_bytes 2 (runtime_code (runtime_kind f)) +:+
    i32_bytes (default STATUS_RESULT_NO_ERRNO (runtime_os_error f)))).

Lemma read_setup_failure_takes f : reportable (setup_os_error f) -> takes read_setup_result (setup_failure_frame f) (Err (HelperRejected f)).
Proof.
  intros Hf. apply (takes_bind _ _ _ _ SETUP_RESULT_MAGIC); [by apply reads_map_err, read_exact_takes|].
  apply (takes_bind _ _ _ _ (byte SETUP_RESULT_FAILURE)); [by apply reads_map_err, read_exact_takes|].
  apply (takes_bind _ _ _ _ (be_bytes 2 (setup_code (setup_kind f)))); [by apply reads_map_err, read_exact_takes|].
  rewrite setup_kind_of_code. intros c rest H0 Hc. unfold mbind at 1, hostM_bind at 1. cbn [hlift ok_or].
  rewrite <- (string_app_empty_r (i32_bytes _)) in Hc. revert c rest H0 Hc.
  apply (takes_bind _ _ _ _ (i32_bytes (default SETUP_RESULT_NO_ERRNO (setup_os_error f)))).
  - by apply reads_map_err, read_exact_takes.
  - apply takes_pure. intros c. rewrite os_error_of_default by done. by destruct f.
Qed.

Lemma read_setup_ready_takes : takes read_setup_result (SETUP_RESULT_MAGIC +:+ byte SETUP_RESULT_READY) (Ok ()).
Proof.
  apply (takes_bind _ _ _ _ SETUP_RESULT_MAGIC); [by apply reads_map_err, read_exact_takes|].
  rewrite <- (string_app_empty_r (byte _)).
  apply (takes_bind _ _ _ _ (byte SETUP_RESULT_READY)); [by apply reads_map_err, read_exact_takes|].
  by apply takes_pure.
Qed.

Lemma status_header_takes (tag : N) t r :
  (tag < 256)%N ->
  takes (if (tag =? STATUS_RESULT_COMMAND)%N then read_command_status
         else if (tag =? STATUS_RESULT_FAILURE)%N then read_runtime_failure
         else hfail (StatusInvalidResultTag tag)) t r ->
  forall c rest, ch_input c = STATUS_MAGIC +:+ (byte tag +:+ t) +:+ rest -> read_status c = (r, set_input c rest).
Proof.
  intros Htag Ht c rest Hc. unfold read_status. unfold mbind at 1, hostM_bind at 1.
  rewrite (read_prefix_reads c _ _ Hc).
  match goal with |- ?m (set_input c ?s) = _ =>
    enough (takes m (str_drop 1 STATUS_MAGIC +:+ (byte tag +:+ t)) r) as Hb
      by (rewrite (Hb (set_input c s) rest); [done|done|by rewrite <- string_app_assoc])
  end.
  apply (takes_bind _ _ _ _ (str_drop 1 STATUS_MAGIC)); [by apply reads_map_err, read_exact_takes|].
  apply (takes_bind _ _ _ _ (byte tag)); [by apply reads_map_err, read_exact_takes|].
  assert (be_value (byte tag) = tag) as ->; [|exact Ht].
  unfold be_value, byte. simpl. unfold byte_val. by rewrite N_ascii_embedding.
Qed.

Lemma read_runtime_failure_takes f :
  reportable (runtime_os_error f) ->
  takes read_runtime_failure (be_bytes 2 (runtime_code (runtime_kind f)) +:+
    i32_bytes (default STATUS_RESULT_NO_ERRNO (runtime_os_error f))) (Ok (HelperFailed f)).
Proof.
  intros Hf. apply (takes_bind _ _ _ _ (be_bytes 2 (runtime_code (runtime_kind f)))); [by apply reads_map_err, read_exact_takes|].
  rewrite runtime_kind_of_code. intros c rest H0 Hc. unfold mbind at 1, hostM_bind at 1. cbn [hlift ok_or].
  rewrite <- (string_app_empty_r (i32_bytes _)) in Hc. revert c rest H0 Hc.
  apply (takes_bind _ _ _ _ (i32_bytes (default STATUS_RESULT_NO_ERRNO (runtime_os_error f)))).
  - by apply reads_map_err, read_exact_takes.
  - apply takes_pure. intros c. rewrite os_error_of_default by done. by destruct f.
Qed.

Lemma read_command_status_takes z : is_i32 z -> takes read_command_status (i32_bytes z) (Ok (CommandExited z)).
Proof.
  intros Hz. rewrite <- (string_app_empty_r (i32_bytes _)).
  apply (takes_bind _ _ _ _ (i32_bytes z)); [by apply reads_map_err, read_exact_takes|].
  apply takes_pure. intros c. by rewrite i32_value_bytes.
Qed.

Ltac report_writes := repeat (apply writes_bind; [apply ch_write_all_writes|]); apply ch_write_all_writes.

(** [m] reports [r]: what [m] writes, [read] takes for [r]. *)
Definition transports {E A} (m : hostM Channel IoError unit) (read : hostM Channel E A) (r : result E A) : Prop :=
  forall c c', m c = (Ok (), c') -> exists frame, ch_output c' = ch_output c +:+ frame /\
    forall peer rest, ch_input peer = frame +:+ rest -> read peer = (r, set_input peer rest).

(** C27. The host learns what the helper reports: the ready marker, every kind of
    setup failure and of runtime failure with its operating-system error, and
    every wait status of the command arrive as they were sent, however often
    reading is interrupted.  One error number is not transported: the smallest
    32-bit integer stands for none. *)
Theorem helper_reports_roundtrip :
  transports write_setup_ready read_setup_result (Ok ()) /\
  (forall f, reportable (setup_os_error f) -> transports (write_setup_failure f) read_setup_result (Err (HelperRejected f))) /\
  (forall f, reportable (runtime_os_error f) -> transports (write_runtime_failure f) read_status (Ok (HelperFailed f))) /\
  (forall z, is_i32 z -> transports (write_command_status z) read_status (Ok (CommandExited z))) /\
  transports (write_runtime_failure {| runtime_kind := RuntimeCommandWait; runtime_os_error := Some STATUS_RESULT_NO_ERRNO |})
    read_status (Ok (HelperFailed {| runtime_kind := RuntimeCommandWait; runtime_os_error := None |})).
Proof.
  split_and!.
  - intros c c' Hw. exists (SETUP_RESULT_MAGIC +:+ byte SETUP_RESULT_READY). split.
    + revert c c' Hw. report_writes.
    + intros peer rest Hp. by apply (takes_frame _ _ _ _ _ read_setup_ready_takes).
  - intros f Hf c c' Hw. exists (setup_failure_frame f). split.
    + revert c c' Hw. report_writes.
    + intros peer rest Hp. by apply (takes_frame _ _ _ _ _ (read_setup_failure_takes f Hf)).
  - intros f Hf c c' Hw. exists (runtime_failure_frame f). split.
    + revert c c' Hw. report_writes.
    + intros peer rest Hp. apply (status_header_takes STATUS_RESULT_FAILURE _ _ eq_refl (read_runtime_failure_takes f Hf)).
      rewrite Hp. symmetry. apply string_app_assoc.
  - intros z Hz c c' Hw. exists (STATUS_MAGIC +:+ (byte STATUS_RESULT_COMMAND +:+ i32_bytes z)). split.
    + revert c c' Hw. report_writes.
    + intros peer rest Hp. apply (status_header_takes STATUS_RESULT_COMMAND _ _ eq_refl (read_command_status_takes z Hz)).
      rewrite Hp. symmetry. apply string_app_assoc.
  - intros c c' Hw. exists (runtime_failure_frame {| runtime_kind := RuntimeCommandWait; runtime_os_error := None |}). split.
    + revert c c' Hw. report_writes.
    + intros peer rest Hp. apply (status_header_takes STATUS_RESULT_FAILURE _ _ eq_refl (read_runtime_failure_takes {| runtime_kind := RuntimeCommandWait; runtime_os_error := None |} I)).
      rewrite Hp. symmetry. apply string_app_assoc.
Qed.
