(* ===== verification/LinuxIpc.v ===== *)
(** [cageforge-linux/src/local_ipc.rs]: the Unix sockets a command may use, as
    the host computes them from the composed policy and sends them to the
    helper; and the part of [hardening.rs] with which the helper decides a
    traced [connect] or [bind]. *)

From Stdlib Require Import Ascii String ZArith NArith Lia.
From stdpp Require Import base list strings option numbers sets.
From S2P Require Import Prelude Keyed Text BTree NativePath Access Selector PathPattern FsPolicy IpAddr Domain LocalIpc NetPolicy Policy Environment Command Compose Effective Requirements LinuxHost LinuxChannel LinuxFrames.

(** * The policy of the helper *)

Definition LOCAL_IPC_MAGIC : string := "CFIPC" +:+ byte 1.
Definition LOCAL_IPC_DEFAULT_ALLOW : N := 0.
Definition LOCAL_IPC_DEFAULT_DENY : N := 1.
Definition LOCAL_IPC_MAX_RULES : N := 64.
Definition LOCAL_IPC_MAX_PATH_BYTES : N := 4096.
Definition LINUX_SUN_PATH_BYTES : N := 107.

Record LocalIpcPolicy := {
  default_allow : bool;
  ipc_allowed : list string;
  ipc_denied : list string
}.

Inductive LocalIpcFrameError :=
  | IpcIo (operation : string) (source : IoError)
  | IpcInvalidMagic
  | InvalidDefaultMode (mode : N)
  | RuleLimitExceeded (count maximum : N)
  | PathLengthExceeded (length maximum : N)
  | PathContainsNul
  | DuplicatePath
  | EmptyPath
  | PathNotAbsolute.

Definition validate_path_bytes (p : string) : result LocalIpcFrameError unit :=
  match p with
  | EmptyString => Err EmptyPath
  | String first _ =>
      reject contains_char NUL p with PathContainsNul ;;
      reject negb (Ascii.eqb first "/") with PathNotAbsolute ;;
      reject (LOCAL_IPC_MAX_PATH_BYTES <? byte_length p)%N || (LINUX_SUN_PATH_BYTES <? byte_length p)%N
        with PathLengthExceeded (byte_length p) (N.min LOCAL_IPC_MAX_PATH_BYTES LINUX_SUN_PATH_BYTES) ;;
      Ok ()
  end.

Definition path_bytes (p : path) : result LocalIpcFrameError string :=
  _ ← validate_path_bytes p; Ok p.

(** [BTreeSet<Vec<u8>>] *)
Definition ByteSet : Type := BTreeMap string unit.
Definition set_has (p : string) (s : ByteSet) : bool := match bt_get p s with Some _ => true | None => false end.
Definition set_elements (s : ByteSet) : list string := s.*1.

(** The paths of the rules with access [a], collected into a set *)
Definition collect_paths (a : DomainAccess) (s : ByteSet) (rules : list UnixSocketRule) : result LocalIpcFrameError ByteSet :=
  foldM (fun s rule => p ← path_bytes (us_path rule); Ok (bt_insert p () s)) s
    (filter (fun rule => us_access rule = a) rules).

Definition intersection (s t : ByteSet) : ByteSet := filter (fun e => set_has e.1 t = true) s.

(** [default_allow], [allowed] and [denied] of the loop over the layers *)
Record IpcState := { st_default : bool; st_allowed : option ByteSet; st_denied : ByteSet }.

Definition deny_layer (st : IpcState) : IpcState :=
  {| st_default := false; st_allowed := Some []; st_denied := st_denied st |}.

Section policy.
Context {U : Unicode} {G : Globset} {W : WildMatch}.

Definition ipc_layer (st : IpcState) (layer : NetworkPolicy) : result LocalIpcFrameError IpcState :=
  if bool_decide (net_mode layer <> NetEnabled) then Ok (deny_layer st)
  else match unix_socket_mode layer with
  | UnixDisabled => Ok (deny_layer st)
  | UnixRestricted =>
      layer_allowed ← collect_paths DAllow [] (unix_sockets layer);
      Ok {| st_default := false;
            st_allowed := Some match st_allowed st with
                               | Some previous => intersection previous layer_allowed
                               | None => layer_allowed
                               end;
            st_denied := st_denied st |}
  | UnixEnabled =>
      denied ← collect_paths DDeny (st_denied st) (unix_sockets layer);
      Ok {| st_default := st_default st; st_allowed := st_allowed st; st_denied := denied |}
  end.

Definition ipc_validate (policy : LocalIpcPolicy) : result LocalIpcFrameError unit :=
  total ← ok_or (RuleLimitExceeded (2 ^ 64 - 1) LOCAL_IPC_MAX_RULES)
            (checked_add (N.of_nat (length (ipc_allowed policy))) (N.of_nat (length (ipc_denied policy))));
  reject (LOCAL_IPC_MAX_RULES <? total)%N with RuleLimitExceeded total LOCAL_IPC_MAX_RULES ;;
  _ ← foldM (fun paths p =>
        _ ← validate_path_bytes p;
        reject set_has p paths with DuplicatePath ;;
        Ok (bt_insert p () paths)) [] (ipc_allowed policy ++ ipc_denied policy);
  Ok ().

(** [LocalIpcPolicy::from_sandbox] *)
Definition from_sandbox (sandbox : EffectiveSandbox) : result LocalIpcFrameError (option LocalIpcPolicy) :=
  let requirements := network_requirements (es_network sandbox) in
  if negb (nreq_local_ipc_rules requirements) && negb (nreq_local_ipc_deny_rules requirements) then Ok None
  else
    st ← foldM ipc_layer {| st_default := true; st_allowed := None; st_denied := [] |}
           (net_layers (network_lowering (es_network sandbox)));
    let policy := {| default_allow := st_default st;
                     ipc_allowed := filter (fun p => set_has p (st_denied st) = false)
                                      (set_elements (default [] (st_allowed st)));
                     ipc_denied := set_elements (st_denied st) |} in
    _ ← ipc_validate policy;
    Ok (Some policy).

End policy.

Definition allows (policy : LocalIpcPolicy) (p : string) : bool :=
  if existsb (fun candidate => String.eqb candidate p) (ipc_allowed policy) then true
  else default_allow policy && negb (existsb (fun candidate => String.eqb candidate p) (ipc_denied policy)).

(** * Its frame *)

Definition ipcM : Type -> Type := hostM Channel LocalIpcFrameError.
Definition ipc_write (operation bytes : string) : ipcM unit := hmap_err (IpcIo operation) (ch_write_all bytes).
Definition ipc_read (operation : string) (n : N) : ipcM string := hmap_err (IpcIo operation) (ch_read_exact n).

Definition write_rule (p : string) : ipcM unit :=
  if (byte_length p <? 2 ^ 16)%N
  then hmap_err (IpcIo "writing rule") (_ ← ch_write_all (be_bytes 2 (byte_length p)); ch_write_all p)
  else hfail (PathLengthExceeded (byte_length p) LOCAL_IPC_MAX_PATH_BYTES).

Definition write_rules (paths : list string) : ipcM unit :=
  let count := N.of_nat (length paths) in
  if (count <? 2 ^ 32)%N
  then _ ← ipc_write "writing rule count" (be_bytes 4 count); hfold (fun _ p => write_rule p) () paths
  else hfail (RuleLimitExceeded count LOCAL_IPC_MAX_RULES).

Definition write_frame (policy : LocalIpcPolicy) : ipcM unit :=
  _ ← hlift (ipc_validate policy);
  _ ← hmap_err (IpcIo "writing header")
        (_ ← ch_write_all LOCAL_IPC_MAGIC;
         ch_write_all (byte (if default_allow policy then LOCAL_IPC_DEFAULT_ALLOW else LOCAL_IPC_DEFAULT_DENY)));
  _ ← write_rules (ipc_allowed policy);
  write_rules (ipc_denied policy).

Definition read_rule (paths : list string) : ipcM (list string) :=
  raw ← ipc_read "reading rule length" 2;
  let length := be_value raw in
  let maximum := N.min LOCAL_IPC_MAX_PATH_BYTES LINUX_SUN_PATH_BYTES in
  if (maximum <? length)%N then hfail (PathLengthExceeded length maximum)
  else
    p ← ipc_read "reading rule" length;
    _ ← hlift (validate_path_bytes p);
    mret (paths ++ [p]).

Definition read_rules : ipcM (list string) :=
  raw ← ipc_read "reading rule count" 4;
  let count := be_value raw in
  if (LOCAL_IPC_MAX_RULES <? count)%N then hfail (RuleLimitExceeded count LOCAL_IPC_MAX_RULES)
  else hfold (fun paths _ => read_rule paths) [] (replicate (N.to_nat count) ()).

Definition read_frame : ipcM LocalIpcPolicy :=
  magic ← ipc_read "reading magic" (byte_length LOCAL_IPC_MAGIC);
  if negb (String.eqb magic LOCAL_IPC_MAGIC) then hfail IpcInvalidMagic
  else
    mode ← ipc_read "reading default mode" 1;
    default_allow ← hlift (if (be_value mode =? LOCAL_IPC_DEFAULT_ALLOW)%N then Ok true
                           else if (be_value mode =? LOCAL_IPC_DEFAULT_DENY)%N then Ok false
                           else Err (InvalidDefaultMode (be_value mode)));
    allowed ← read_rules;
    denied ← read_rules;
    let policy := {| default_allow := default_allow; ipc_allowed := allowed; ipc_denied := denied |} in
    _ ← hlift (ipc_validate policy);
    mret policy.

(** * The supervisor of [hardening.rs] *)

(** Of [LinuxHardeningError], the failures of [ptrace] requests *)
Inductive TraceError := TraceRegisters (source : IoError) | TraceMemory (source : IoError).

Record TracedSyscall := { number : N; address : N; address_length : N }.

Inductive TracedEndpoint := NonUnix | UnixPath (p : string) | Invalid.

(** The numbers of [libc] on x86_64 *)
Definition SYS_connect : N := 42.
Definition SYS_bind : N := 49.
Definition AF_UNIX : N := 1.
Definition SOCKADDR_UN_BYTES : N := 110.

(** A stopped process: its registers and its memory, as [read_traced_syscall] and
    [read_tracee_memory] get them from [ptrace] *)
Record Tracee := {
  read_traced_syscall : result TraceError TracedSyscall;
  read_tracee_memory : N -> N -> result TraceError string
}.

(** Byte [i], zero behind the end *)
Definition byte_of (s : string) (i : nat) : N :=
  match String.get i s with Some a => byte_val a | None => 0 end.

(** The bytes up to the first zero *)
Fixpoint until_nul (s : string) : string :=
  match s with
  | EmptyString => EmptyString
  | String a rest => if Ascii.eqb a NUL then EmptyString else String a (until_nul rest)
  end.

Definition read_traced_endpoint (t : Tracee) (call : TracedSyscall) : result TraceError TracedEndpoint :=
  if (address call =? 0)%N || (address_length call <? 2)%N then Ok Invalid
  else
    let length := N.min (address_length call) SOCKADDR_UN_BYTES in
    bytes ← read_tracee_memory t (address call) length;
    if negb (byte_of bytes 0 + 256 * byte_of bytes 1 =? AF_UNIX)%N then Ok NonUnix
    else if bool_decide (String.get 2 bytes = Some NUL) then Ok Invalid
    else
      let p := until_nul (str_drop 2 bytes) in
      match p with
      | String "/" _ => Ok (UnixPath p)
      | _ => Ok Invalid
      end.

Definition handle_local_ipc_event (t : Tracee) (policy : LocalIpcPolicy) : result TraceError bool :=
  call ← read_traced_syscall t;
  if negb (number call =? SYS_connect)%N && negb (number call =? SYS_bind)%N then Ok true
  else
    endpoint ← read_traced_endpoint t call;
    Ok match endpoint with
       | NonUnix => true
       | UnixPath p => allows policy p
       | Invalid => false
       end.

(** * Sets of paths *)

Lemma set_has_true p (s : ByteSet) : bt_wf s -> set_has p s = true <-> p ∈ set_elements s.
Proof.
  intros Hwf. unfold set_has, set_elements. rewrite list_elem_of_fmap. split.
  - destruct (bt_get p s) as [[]|] eqn:Hg; [|done]. intros _. exists (p, ()). split; [done|]. by apply bt_get_Some.
  - intros ([q []] & -> & Hq). simpl. by rewrite (bt_elem_get q s () Hwf Hq).
Qed.

Lemma set_has_insert p q (s : ByteSet) : set_has p (bt_insert q () s) = bool_decide (p = q) || set_has p s.
Proof.
  unfold set_has. case_bool_decide as Hpq; simpl; [subst; by rewrite bt_get_insert|].
  rewrite bt_get_insert_ne; [done|]. by intros ?%cmp_eq.
Qed.

Lemma set_has_intersection p (s t : ByteSet) : bt_wf s -> set_has p (intersection s t) = set_has p s && set_has p t.
Proof.
  intros Hs. apply eq_true_iff_eq. rewrite andb_true_iff, (set_has_true p s), (set_has_true p (intersection s t)) by (done || by apply bt_wf_filter).
  unfold set_elements, intersection. rewrite !list_elem_of_fmap. setoid_rewrite list_elem_of_filter. split.
  - intros (e & -> & Ht & He). eauto.
  - intros [(e & -> & He) Ht]. eauto.
Qed.

(** What [collect_paths] adds *)
Lemma collect_paths_spec a s rules s' :
  bt_wf s -> collect_paths a s rules = Ok s' ->
  bt_wf s' /\ forall p, set_has p s' = set_has p s || existsb (fun r => bool_decide (us_access r = a) && String.eqb (us_path r) p) rules.
Proof.
  unfold collect_paths. revert s. induction rules as [|r rules IH]; intros s Hs; simpl.
  - intros [= <-]. split; [done|]. intros p. by rewrite orb_false_r.
  - rewrite filter_cons. case_decide as Ha.
    + simpl. intros H. res_inv. destruct (IH _ (bt_wf_insert _ () s Hs) H) as [Hwf Hp]. split; [done|].
      intros p. rewrite Hp. unfold path_bytes in *. res_inv. rewrite set_has_insert, (bool_decide_true (us_access r = us_access r)) by done.
      assert (bool_decide (p = us_path r) = String.eqb (us_path r) p) as ->
        by (apply eq_true_iff_eq; rewrite bool_decide_eq_true, String.eqb_eq; naive_solver).
      simpl. by destruct (String.eqb (us_path r) p), (set_has p s).
    + intros H. destruct (IH s Hs H) as [Hwf Hp]. split; [done|]. intros p. by rewrite Hp, bool_decide_false.
Qed.

(** * The sockets of the layers *)

Section enforcement.
Context {U : Unicode} {G : Globset} {W : WildMatch}.

(** What a layer says of a path that is spelled as in its rules *)
Definition layer_permits (layer : NetworkPolicy) (p : string) : bool :=
  let rule a := existsb (fun r => bool_decide (us_access r = a) && String.eqb (us_path r) p) (unix_sockets layer) in
  bool_decide (net_mode layer = NetEnabled) &&
  match unix_socket_mode layer with
  | UnixDisabled => false
  | UnixRestricted => rule DAllow
  | UnixEnabled => negb (rule DDeny)
  end.

(** What the state of the loop says of it *)
Definition state_permits (st : IpcState) (p : string) : bool :=
  match st_allowed st with Some s => set_has p s | None => true end && negb (set_has p (st_denied st)).

Definition state_wf (st : IpcState) : Prop :=
  bt_wf (st_denied st) /\
  match st_allowed st with Some s => bt_wf s /\ st_default st = false | None => st_default st = true end.

Lemma ipc_layer_permits st layer st' :
  state_wf st -> ipc_layer st layer = Ok st' ->
  state_wf st' /\ forall p, state_permits st' p = state_permits st p && layer_permits layer p.
Proof.
  intros [Hd Ha] H. unfold ipc_layer, layer_permits in *. case_bool_decide as Hm.
  - injection H as <-. split; [repeat split; [done|constructor]|]. intros p.
    rewrite bool_decide_false by done. unfold state_permits. simpl. by rewrite andb_false_r.
  - rewrite Hm, bool_decide_true by done. simpl. destruct (unix_socket_mode layer).
    + injection H as <-. split; [repeat split; [done|constructor]|]. intros p. unfold state_permits. simpl. by rewrite andb_false_r.
    + res_inv. match goal with H : collect_paths _ _ _ = _ |- _ => apply collect_paths_spec in H as [Hwf Hp]; [|done] end.
      split; [by split|]. intros p. unfold state_permits. simpl. rewrite Hp, negb_orb. by rewrite andb_assoc.
    + res_inv. match goal with H : collect_paths _ _ _ = _ |- _ => apply collect_paths_spec in H as [Hwf Hp]; [|constructor] end.
      split.
      * repeat split; [done|]. simpl. destruct (st_allowed st) as [s|]; [|done]. apply bt_wf_filter, Ha.
      * intros p. unfold state_permits. simpl. destruct (st_allowed st) as [s|].
        -- rewrite set_has_intersection, Hp by apply Ha. simpl. destruct (set_has p s), (set_has p (st_denied st)); simpl; try done;
             by rewrite ?andb_true_r, ?andb_false_r.
        -- rewrite Hp. simpl. by rewrite andb_comm.
Qed.

Lemma ipc_layers_permit layers st st' :
  state_wf st -> foldM ipc_layer st layers = Ok st' ->
  state_wf st' /\ forall p, state_permits st' p = state_permits st p && forallb (fun layer => layer_permits layer p) layers.
Proof.
  revert st. induction layers as [|layer layers IH]; intros st Hst; simpl.
  - intros [= <-]. split; [done|]. intros p. by rewrite andb_true_r.
  - intros H. res_inv. edestruct ipc_layer_permits as [Hwf Hp]; [done..|].
    destruct (IH _ Hwf H) as [Hwf' Hp']. split; [done|]. intros p. by rewrite Hp', Hp, andb_assoc.
Qed.

Lemma existsb_eqb_elem (p : string) l : existsb (fun candidate => String.eqb candidate p) l = true <-> p ∈ l.
Proof. rewrite existsb_elem. setoid_rewrite String.eqb_eq. naive_solver. Qed.

(** A layer that allows by default permits a path none of its rules spells. *)
Lemma unspelled_permitted layer p :
  net_mode layer = NetEnabled -> unix_socket_mode layer = UnixEnabled ->
  Forall (fun rule => us_path rule <> p) (unix_sockets layer) -> layer_permits layer p = true.
Proof.
  intros Hm Hu Hno. unfold layer_permits. rewrite Hm, Hu, bool_decide_true by done. simpl.
  apply negb_true_iff, not_true_is_false. rewrite existsb_exists. intros (rule & Hr%list_elem_of_In & [_ Heq%String.eqb_eq]%andb_true_iff).
  rewrite Forall_forall in Hno. by destruct (Hno rule Hr).
Qed.

(** The policy allows what every layer permits. *)
Lemma from_sandbox_allows sandbox policy p :
  from_sandbox sandbox = Ok (Some policy) ->
  allows policy p = layer_permits (net_requested (es_network sandbox)) p && layer_permits (net_ceiling (es_network sandbox)) p.
Proof.
  unfold from_sandbox. destruct (negb _ && negb _); [done|]. intros H. res_inv.
  match goal with H : foldM ipc_layer _ _ = Ok ?x |- _ => rename x into st; apply ipc_layers_permit in H as [[Hd Ha] Hp] end.
  2: { repeat split; constructor. }
  specialize (Hp p). unfold state_permits at 2 in Hp. simpl in Hp. rewrite andb_true_r in Hp. rewrite <- Hp.
  unfold allows, state_permits. simpl.
  assert (existsb (fun candidate => String.eqb candidate p) (set_elements (st_denied st)) = set_has p (st_denied st)) as Hden
    by (apply eq_true_iff_eq; by rewrite existsb_eqb_elem, set_has_true).
  assert (existsb (fun candidate => String.eqb candidate p)
            (filter (fun q => set_has q (st_denied st) = false) (set_elements (default [] (st_allowed st)))) =
          match st_allowed st with Some s => set_has p s | None => false end && negb (set_has p (st_denied st))) as ->.
  { apply eq_true_iff_eq. rewrite existsb_eqb_elem, list_elem_of_filter, andb_true_iff, negb_true_iff.
    destruct (st_allowed st) as [s|]; simpl; [rewrite set_has_true by apply Ha; tauto|]. split; [intros [_ Hnil]; by apply elem_of_nil in Hnil|by intros []]. }
  rewrite Hden. destruct (st_allowed st) as [s|]; [destruct Ha as [_ ->]|rewrite Ha]; simpl.
  - by destruct (set_has p s), (set_has p (st_denied st)).
  - done.
Qed.

(** No two rules of a normalized layer are about one path. *)
Lemma normalized_rules n n' r s :
  net_normalized n = Ok n' -> r ∈ unix_sockets n' -> s ∈ unix_sockets n' -> us_path r = us_path s -> r = s.
Proof.
  intros H. unfold net_normalized in H. res_inv. simpl. intros Hr Hs Heq.
  assert (NoDup ((fun r => NativePathKey_new (us_path r)) <$> keyed_collapse (fun r => NativePathKey_new (us_path r))
            (fun k l => bool_decide (k = l)) merge_unix (unix_sockets n))) as Hnd.
  { apply keyed_collapse_keys; [|intros; by rewrite bool_decide_eq_true].
    intros e q. unfold merge_unix. by case_bool_decide. }
  apply list_elem_of_lookup in Hr as [i Hi], Hs as [j Hj].
  assert (i = j) as <-; [|congruence].
  eapply NoDup_lookup; [exact Hnd|rewrite list_lookup_fmap, Hi; done|rewrite list_lookup_fmap, Hj; simpl; by rewrite Heq].
Qed.

(** The rules about a path spell it as it is spelled here. *)
Definition spelled_alike (n : EffectiveNetworkPolicy) (p : path) : Prop :=
  forall layer, layer ∈ net_layers (network_lowering n) ->
  forall r, r ∈ unix_sockets layer -> paths_equal p (us_path r) = true -> us_path r = p.

Lemma layer_permits_decides n layer p :
  net_normalized n = Ok layer -> valid_absolute p ->
  (forall r, r ∈ unix_sockets layer -> paths_equal p (us_path r) = true -> us_path r = p) ->
  layer_permits layer p = true <-> decision_for_unix_socket layer p = Ok NetAllow.
Proof.
  intros Hn Hp Hs. rewrite (unix_socket_decision layer p Hp). cbv zeta.
  assert (forall r, r ∈ unix_sockets layer -> NativePathKey_new p = NativePathKey_new (us_path r) <-> us_path r = p) as Hon.
  { intros r Hr. split; [|by intros ->]. rewrite !NativePathKey_new_eq. intros Hk%(inj (fmap component_key)).
    apply Hs; [done|]. by rewrite paths_equal_true. }
  unfold layer_permits. rewrite andb_true_iff, bool_decide_eq_true.
  assert (forall a, existsb (fun r => bool_decide (us_access r = a) && String.eqb (us_path r) p) (unix_sockets layer) = true <->
                    exists r, r ∈ unix_sockets layer /\ us_access r = a /\ us_path r = p) as Hex.
  { intros a. rewrite existsb_elem. setoid_rewrite andb_true_iff. setoid_rewrite bool_decide_eq_true.
    setoid_rewrite String.eqb_eq. done. }
  apply and_iff_compat_l. destruct (unix_socket_mode layer).
  - split; [done|]. by intros [[?|[? _]] _].
  - rewrite negb_true_iff, <- not_true_iff_false, Hex. split.
    + intros Hno. split; [by left|]. intros r Hr Hk%Hon; [|done]. destruct (us_access r) eqn:Ha; [done|]. exfalso. eauto.
    + intros [_ Hall] (r & Hr & Ha & Hk%(Hon r Hr)). specialize (Hall r Hr Hk). congruence.
  - rewrite Hex. split.
    + intros (r & Hr & Ha & Hpath). split; [right; split; [done|]; exists r; by rewrite Hon|].
      intros q Hq Hk%Hon; [|done]. rewrite <- Ha. f_equal. apply (normalized_rules n layer); congruence.
    + intros [[?|[_ (r & Hr & Hk)]] Hall]; [done|]. exists r. split_and!; [done|by apply Hall|by apply Hon].
Qed.

(** The policy of the helper is the effective policy. *)
Lemma from_sandbox_decides next r sandbox n policy p :
  compose next r = Ok (sandbox, n) -> from_sandbox sandbox = Ok (Some policy) ->
  valid_absolute p -> spelled_alike (es_network sandbox) p ->
  allows policy p = true <-> effective_decision_for_unix_socket (es_network sandbox) p = Ok NetAllow.
Proof.
  intros [Hr Hc]%composed_network Hpol Hp Hs. rewrite (from_sandbox_allows sandbox policy p Hpol), andb_true_iff.
  unfold effective_decision_for_unix_socket. rewrite both_sides_allow.
  rewrite (layer_permits_decides _ _ p Hr Hp), (layer_permits_decides _ _ p Hc Hp); [done|..];
    apply Hs; simpl; set_solver.
Qed.

End enforcement.

(** * The frame *)

Definition rule_frame (p : string) : string := be_bytes 2 (byte_length p) +:+ p.
Definition rules_frame (l : list string) : string :=
  be_bytes 4 (N.of_nat (length l)) +:+ foldr (fun p acc => rule_frame p +:+ acc) EmptyString l.
Definition ipc_frame (policy : LocalIpcPolicy) : string :=
  LOCAL_IPC_MAGIC +:+ byte (if default_allow policy then LOCAL_IPC_DEFAULT_ALLOW else LOCAL_IPC_DEFAULT_DENY) +:+
  (rules_frame (ipc_allowed policy) +:+ rules_frame (ipc_denied policy)).

Definition path_valid (p : string) : Prop := validate_path_bytes p = Ok ().

Lemma path_valid_length p : path_valid p -> (byte_length p <= LINUX_SUN_PATH_BYTES)%N.
Proof.
  unfold path_valid. destruct p as [|a p]; [done|]. simpl. intros H. res_inv. bool_inv. by apply N.ltb_ge.
Qed.

Lemma validated_paths (l : list string) (s s' : ByteSet) :
  foldM (fun paths p => _ ← validate_path_bytes p; reject set_has p paths with DuplicatePath ;; Ok (bt_insert p () paths)) s l = Ok s' ->
  Forall path_valid l.
Proof.
  revert s. induction l as [|p l IH]; intros s; simpl; [by constructor|]. intros H. res_inv.
  constructor; [|by eapply IH]. match goal with H : validate_path_bytes p = Ok ?u |- _ => destruct u; exact H end.
Qed.

Lemma ipc_validate_facts policy :
  ipc_validate policy = Ok () ->
  (N.of_nat (length (ipc_allowed policy)) <= LOCAL_IPC_MAX_RULES)%N /\
  (N.of_nat (length (ipc_denied policy)) <= LOCAL_IPC_MAX_RULES)%N /\
  Forall path_valid (ipc_allowed policy) /\ Forall path_valid (ipc_denied policy).
Proof.
  unfold ipc_validate, checked_add. intros H. res_inv.
  match goal with H : foldM _ _ _ = Ok _ |- _ => apply validated_paths, Forall_app in H as [Ha Hd] end.
  case_match; simplify_eq. match goal with H : (_ <? _)%N = false |- _ => apply N.ltb_ge in H end.
  split_and!; [lia|lia|done|done].
Qed.

Lemma read_rule_reads paths p : path_valid p -> reads (read_rule paths) (rule_frame p) (paths ++ [p]).
Proof.
  intros Hp. pose proof (path_valid_length p Hp) as Hlen. unfold LINUX_SUN_PATH_BYTES in Hlen.
  apply (reads_bind _ _ _ _ (be_bytes 2 (byte_length p))); [by apply reads_map_err, read_exact_takes|]. cbv zeta.
  rewrite (be_value_bytes 2) by (simpl; lia).
  destruct (N.ltb_spec (N.min LOCAL_IPC_MAX_PATH_BYTES LINUX_SUN_PATH_BYTES) (byte_length p)) as [Hlt|_];
    [unfold LOCAL_IPC_MAX_PATH_BYTES, LINUX_SUN_PATH_BYTES in Hlt; lia|].
  rewrite <- (string_app_empty_r p) at 2. apply (reads_bind _ _ _ _ p); [apply reads_map_err, ch_read_exact_reads|].
  apply takes_pure. intros c. unfold mbind, hostM_bind, hlift. by rewrite Hp.
Qed.

Lemma read_rules_reads l :
  (N.of_nat (length l) <= LOCAL_IPC_MAX_RULES)%N -> Forall path_valid l -> reads read_rules (rules_frame l) l.
Proof.
  intros Hcount Hl. unfold LOCAL_IPC_MAX_RULES in Hcount.
  apply (reads_bind _ _ _ _ (be_bytes 4 (N.of_nat (length l)))); [by apply reads_map_err, read_exact_takes|]. cbv zeta.
  rewrite (be_value_bytes 4) by (simpl; lia).
  destruct (N.ltb_spec LOCAL_IPC_MAX_RULES (N.of_nat (length l))) as [Hlt|_]; [unfold LOCAL_IPC_MAX_RULES in Hlt; lia|].
  rewrite Nat2N.id. clear Hcount. change l with ([] ++ l) at 3. generalize (@nil string) as acc.
  induction Hl as [|p l Hp _ IH]; intros acc; simpl; [rewrite app_nil_r; by apply takes_pure|].
  apply (reads_bind _ _ _ _ (acc ++ [p])); [by apply read_rule_reads|].
  change (p :: l) with ([p] ++ l). rewrite app_assoc. apply IH.
Qed.

Lemma read_frame_reads policy : ipc_validate policy = Ok () -> reads read_frame (ipc_frame policy) policy.
Proof.
  intros Hv. destruct (ipc_validate_facts policy Hv) as (Hca & Hcd & Ha & Hd). unfold ipc_frame.
  apply (reads_bind _ _ _ _ LOCAL_IPC_MAGIC); [by apply reads_map_err, read_exact_takes|].
  rewrite String.eqb_refl. cbn [negb].
  apply (reads_bind _ _ _ _ (byte (if default_allow policy then LOCAL_IPC_DEFAULT_ALLOW else LOCAL_IPC_DEFAULT_DENY)));
    [by apply reads_map_err, read_exact_takes|].
  rewrite <- (string_app_empty_r (rules_frame (ipc_denied policy))).
  intros c rest H0 Hc. unfold mbind at 1, hostM_bind at 1.
  assert (forall b : bool, (if (be_value (byte (if b then LOCAL_IPC_DEFAULT_ALLOW else LOCAL_IPC_DEFAULT_DENY)) =? LOCAL_IPC_DEFAULT_ALLOW)%N
            then Ok true else if (be_value (byte (if b then LOCAL_IPC_DEFAULT_ALLOW else LOCAL_IPC_DEFAULT_DENY)) =? LOCAL_IPC_DEFAULT_DENY)%N
            then Ok false else Err (InvalidDefaultMode (be_value (byte (if b then LOCAL_IPC_DEFAULT_ALLOW else LOCAL_IPC_DEFAULT_DENY)))))
          = Ok b) as -> by by intros []. cbn [hlift].
  revert c rest H0 Hc. apply (reads_bind _ _ _ _ (ipc_allowed policy)); [by apply read_rules_reads|].
  apply (reads_bind _ _ _ _ (ipc_denied policy)); [by apply read_rules_reads|].
  apply takes_pure. intros c. unfold mbind, hostM_bind, hlift. destruct policy. simpl in *. by rewrite Hv.
Qed.

Lemma write_rules_writes l : writes (write_rules l) (rules_frame l).
Proof.
  unfold write_rules, rules_frame. destruct (_ <? _)%N; [|by intros c c'].
  apply writes_bind; [apply writes_map_err, ch_write_all_writes|].
  induction l as [|p l IH]; simpl; [intros c c' [= <-]; by rewrite string_app_empty_r|].
  apply writes_bind; [|exact IH]. unfold write_rule. destruct (_ <? _)%N; [|by intros c c'].
  apply writes_map_err, writes_bind; apply ch_write_all_writes.
Qed.

Lemma write_frame_writes policy c c' :
  write_frame policy c = (Ok (), c') -> ipc_validate policy = Ok () /\ ch_output c' = ch_output c +:+ ipc_frame policy.
Proof.
  intros ([] & c1 & [= Hv <-] & H)%hbind_Ok. split; [done|]. revert c c' H.
  unfold ipc_frame. rewrite string_app_assoc. apply writes_bind; [apply writes_map_err, writes_bind; apply ch_write_all_writes|].
  apply writes_bind; apply write_rules_writes.
Qed.

(** * Supervision *)

Section supervision.
Context {U : Unicode} {G : Globset} {W : WildMatch}.

(** The traced calls that name a socket *)
Definition names_socket (t : Tracee) (p : string) : Prop :=
  exists call, read_traced_syscall t = Ok call /\ (number call = SYS_connect \/ number call = SYS_bind) /\
    read_traced_endpoint t call = Ok (UnixPath p).

Lemma handle_socket t policy p : names_socket t p -> handle_local_ipc_event t policy = Ok (allows policy p).
Proof.
  intros (call & Hcall & Hnum & Hp). unfold handle_local_ipc_event. rewrite Hcall. simpl.
  assert (negb (number call =? SYS_connect)%N && negb (number call =? SYS_bind)%N = false) as ->
    by (destruct Hnum as [-> | ->]; reflexivity).
  by rewrite Hp.
Qed.

(** C9. The helper lets a traced command connect or bind to a socket path exactly
    when the composed policy allows it.  The host derives the socket rules from
    both layers of the composition and writes them to the helper; if that
    succeeds the helper reads rules, and with these it continues a call that
    names a path exactly when the effective decision for the path is to allow
    it, provided the path is spelled as in the rules about it. *)
Theorem supervised_sockets_exact (next n : N) (r : CompositionRequest) (sandbox : EffectiveSandbox)
    (policy : LocalIpcPolicy) (c c' : Channel) :
  compose next r = Ok (sandbox, n) -> from_sandbox sandbox = Ok (Some policy) -> write_frame policy c = (Ok (), c') ->
  exists frame, ch_output c' = ch_output c +:+ frame /\
  forall peer rest, ch_input peer = frame +:+ rest ->
  exists received, read_frame peer = (Ok received, set_input peer rest) /\
  forall t p, names_socket t p -> valid_absolute p -> spelled_alike (es_network sandbox) p ->
  exists continued, handle_local_ipc_event t received = Ok continued /\
    (continued = true <-> effective_decision_for_unix_socket (es_network sandbox) p = Ok NetAllow).
Proof.
  intros Hcomp Hpol Hw. destruct (write_frame_writes policy c c' Hw) as [Hv Hout].
  exists (ipc_frame policy). split; [done|]. intros peer rest Hin.
  exists policy. split; [by apply (takes_frame _ _ _ _ _ (read_frame_reads policy Hv))|].
  intros t p Ht Hp Hs. exists (allows policy p). split; [by apply handle_socket|].
  by eapply from_sandbox_decides.
Qed.

(** C39. The supervisor compares spellings, not paths.  When the network of every
    layer is enabled with sockets allowed by default and some rule denies a
    socket, a call that names the same path by a spelling no rule has byte for
    byte is let through, although the effective policy does not allow the path
    it names. *)
Theorem socket_rules_are_textual (sandbox : EffectiveSandbox) (policy : LocalIpcPolicy) (t : Tracee) (p : string)
    (layer : NetworkPolicy) (rule : UnixSocketRule) :
  let layers := net_layers (network_lowering (es_network sandbox)) in
  from_sandbox sandbox = Ok (Some policy) -> names_socket t p -> valid_absolute p ->
  Forall (fun layer => net_mode layer = NetEnabled /\ unix_socket_mode layer = UnixEnabled) layers ->
  layer ∈ layers -> rule ∈ unix_sockets layer -> us_access rule = DDeny -> paths_equal p (us_path rule) = true ->
  Forall (fun layer => Forall (fun rule => us_path rule <> p) (unix_sockets layer)) layers ->
  handle_local_ipc_event t policy = Ok true /\
  effective_decision_for_unix_socket (es_network sandbox) p <> Ok NetAllow.
Proof.
  intros layers Hpol Ht Hp Hopen Hlayer Hrule Hdeny Hsame Hspelled. split.
  - rewrite (handle_socket t policy p Ht), (from_sandbox_allows sandbox policy p Hpol). f_equal.
    apply andb_true_iff. rewrite Forall_forall in Hopen, Hspelled.
    split; (apply unspelled_permitted; [apply Hopen|apply Hopen|apply Hspelled]); subst layers; simpl; set_solver.
  - unfold effective_decision_for_unix_socket. rewrite both_sides_allow. intros [H1 H2].
    apply (unix_socket_decision _ _ Hp) in H1 as (_ & _ & A1), H2 as (_ & _ & A2).
    assert (NativePathKey_new p = NativePathKey_new (us_path rule)) as Hk
      by (rewrite !NativePathKey_new_eq; by apply paths_equal_true in Hsame as ->).
    subst layers. simpl in Hlayer. rewrite !elem_of_cons, elem_of_nil in Hlayer.
    destruct Hlayer as [->|[->|[]]]; [specialize (A1 rule Hrule Hk)|specialize (A2 rule Hrule Hk)]; congruence.
Qed.

End supervision.

(** * Examples *)

Section examples.
#[local] Existing Instance literal_globset.
#[local] Existing Instance ascii_unicode.
#[local] Existing Instance literal_wildmatch.

(** Every socket but the one of a container daemon *)
Definition docker_policy : NetworkPolicy :=
  unwrap_or net_unrestricted (with_unix_socket net_unrestricted "/run/docker.sock" DDeny).

Definition docker_request : CompositionRequest :=
  {| requested_policy := {| filesystem := unrestricted; network := docker_policy |};
     requested_environment := inherit_core; requested_workspace_roots := None;
     ceiling := PolicyCeiling_new sandbox_full_access inherit_all; external_owner := None |}.

Definition docker_sandbox : EffectiveSandbox := (unwrap_or (network_sandbox, 0%N) (compose 0 docker_request)).1.

Definition docker_ipc : LocalIpcPolicy := {| default_allow := true; ipc_allowed := []; ipc_denied := ["/run/docker.sock"] |}.

Definition empty_channel : Channel :=
  {| ch_input := EmptyString; ch_end := None; ch_interrupts := 0; ch_output := EmptyString; ch_faults := [] |}.

(** A process stopped at [connect] with a [sockaddr_un] that names [p] *)
Definition connecting (p : string) : Tracee :=
  let address_bytes := byte 1 +:+ byte 0 +:+ p +:+ byte 0 in
  {| read_traced_syscall := Ok {| number := SYS_connect; address := 4096; address_length := byte_length address_bytes |};
     read_tracee_memory := fun _ n => Ok (str_take (N.to_nat n) address_bytes) |}.

Lemma docker_composed : compose 0 docker_request = Ok (docker_sandbox, 1%N).
Proof. vm_compute. reflexivity. Qed.

Lemma docker_rules : from_sandbox docker_sandbox = Ok (Some docker_ipc).
Proof. vm_compute. reflexivity. Qed.

Lemma connecting_names p : In p ["/run/docker.sock"; "/run//docker.sock"; "/run/ssh.sock"] -> names_socket (connecting p) p.
Proof.
  intros Hp. eexists. split; [reflexivity|]. split; [by left|].
  repeat destruct Hp as [<-|Hp]; [vm_compute; reflexivity..|destruct Hp].
Qed.

Lemma supervised_sockets_exact_witness :
  exists received, read_frame (set_input empty_channel (ipc_frame docker_ipc)) = (Ok received, empty_channel) /\
    handle_local_ipc_event (connecting "/run/docker.sock") received <> Ok true.
Proof.
  destruct (write_frame docker_ipc empty_channel) as [r c'] eqn:Hw.
  assert (r = Ok () /\ ch_output c' = ipc_frame docker_ipc) as [-> Hout]
    by (vm_compute in Hw; injection Hw as <- <-; split; reflexivity).
  destruct (supervised_sockets_exact 0 1 docker_request docker_sandbox docker_ipc empty_channel c' docker_composed docker_rules Hw)
    as (frame & Hf & Hread).
  assert (frame = ipc_frame docker_ipc) as -> by (rewrite Hf in Hout; exact Hout).
  destruct (Hread (set_input empty_channel (ipc_frame docker_ipc)) EmptyString) as (received & Hr & Hex);
    [symmetry; apply string_app_empty_r|].
  exists received. split; [exact Hr|].
  destruct (Hex (connecting "/run/docker.sock") "/run/docker.sock") as (b & -> & Hb).
  - apply connecting_names. by left.
  - by vm_compute.
  - intros layer Hl rule Hrule _. repeat (apply elem_of_cons in Hl as [->|Hl]); [| |by apply elem_of_nil in Hl].
    + apply list_elem_of_singleton in Hrule as ->. reflexivity.
    + by apply elem_of_nil in Hrule.
  - intros [= ->]. destruct Hb as [Hb _]. specialize (Hb eq_refl). vm_compute in Hb. discriminate Hb.
Defined.

Lemma socket_rules_are_textual_witness :
  handle_local_ipc_event (connecting "/run//docker.sock") docker_ipc = Ok true /\
  effective_decision_for_unix_socket (es_network docker_sandbox) "/run//docker.sock" <> Ok NetAllow.
Proof.
  assert (net_layers (network_lowering (es_network docker_sandbox)) = [docker_policy; net_unrestricted]) as Hl by (vm_compute; reflexivity).
  apply (socket_rules_are_textual docker_sandbox docker_ipc (connecting "/run//docker.sock") "/run//docker.sock" docker_policy
           {| us_path := "/run/docker.sock"; us_access := DDeny |} docker_rules).
  - apply connecting_names. right. by left.
  - by vm_compute.
  - rewrite Hl. repeat constructor.
  - rewrite Hl. apply list_elem_of_here.
  - apply list_elem_of_here.
  - reflexivity.
  - vm_compute. reflexivity.
  - rewrite Hl. repeat constructor. discriminate.
Defined.

End examples.
