(* ===== verification/MacosFilesystem.v ===== *)
(** [cageforge-macos/src/filesystem.rs]: the effective filesystem policy lowered
    to the roots, denials and globs of one Seatbelt launch. *)

From Stdlib Require Import Ascii String NArith Lia.
From stdpp Require Import base option strings list sorting sets.
From S2P Require Import Prelude Keyed Text BTree NativePath Access Selector PathPattern FsPolicy Domain NetPolicy Policy Environment Command Compose Effective Requirements EffectiveEnv HostFs Backend LinuxHost LinuxIpc.

(** * Data *)

Record MacosFilesystemPlan := {
  read_roots : list path;
  write_roots : list path;
  executable_roots : list path;
  denied_paths : list path;
  write_denied_paths : list path;
  denied_globs : list string;
  plan_unrestricted : bool
}.

Inductive MacosFilesystemError :=
  | MacContract (source : BackendContractError)
  | ExternalOwnership
  | RequiredPathMissing (p : path)
  | ExecutableRootMissing (p : path)
  | ExecutableRootNotDirectory (p : path)
  | ExecutableRootNotReadable (p : path)
  | InvalidExecutableRoot (p : path)
  | ProgramRequiresExecutableRoot (p : path)
  | ProgramRequiresRead (p : path)
  | MacMetadata (p : path) (source : IoError)
  | Symlink (p : path)
  | ReadOnlyOutsideRoot (p root : path)
  | InvalidScope (p : path)
  | GlobRootNotUtf8 (p : path)
  | GlobCanonicalPathNotUtf8 (p : path)
  | NonDenyGlob (pattern : string).

(** The calls of [std::fs] the lowering makes, on a host that does not change *)
Record MacHost := {
  mac_symlink_metadata : path -> result IoError Metadata;
  mac_metadata : path -> result IoError Metadata;
  mac_canonicalize : path -> result IoError path
}.

(** [NativePathKey] orders by its components, which order as their constructors. *)
Definition key_component (k : NativeComponentKey) : Component :=
  match k with
  | KPrefix s => Prefix s | KRootDir => RootDir | KCurDir => CurDir | KParentDir => ParentDir | KNormal s => Normal s
  end.

#[global] Instance ord_native_key : Ord NativeComponentKey := fun k l => cmp (key_component k) (key_component l).

#[global] Instance ord_native_key_laws : OrdLaws NativeComponentKey.
Proof. exact (pullback_laws key_component). Qed.

#[global] Instance ord_native_key_leibniz : OrdLeibniz NativeComponentKey.
Proof. intros k l Hkl. apply (cmp_eq (key_component k)) in Hkl. destruct k, l; simplify_eq/=; done. Qed.

(** [BTreeSet<NativePathKey>] *)
Definition KeySet : Type := BTreeMap NativePathKey unit.
Definition key_add (p : path) (s : KeySet) : KeySet := bt_insert (NativePathKey_new p) () s.
Definition key_has (p : path) (s : KeySet) : bool := match bt_get (NativePathKey_new p) s with Some _ => true | None => false end.

Record FilesystemCollector := {
  fc_read_roots : KeySet;
  fc_write_roots : KeySet;
  fc_denied_paths : KeySet;
  fc_write_denied_paths : KeySet;
  fc_paths : list path;
  fc_denied_globs : BTreeMap string unit;
  fc_protected : list path
}.

Definition collector_new : FilesystemCollector :=
  {| fc_read_roots := []; fc_write_roots := []; fc_denied_paths := []; fc_write_denied_paths := [];
     fc_paths := []; fc_denied_globs := []; fc_protected := [] |}.

Definition insert_read (c : FilesystemCollector) (p : path) : FilesystemCollector :=
  {| fc_read_roots := key_add p (fc_read_roots c); fc_write_roots := fc_write_roots c;
     fc_denied_paths := fc_denied_paths c; fc_write_denied_paths := fc_write_denied_paths c;
     fc_paths := fc_paths c ++ [p]; fc_denied_globs := fc_denied_globs c; fc_protected := fc_protected c |}.

Definition insert_write (c : FilesystemCollector) (p : path) : FilesystemCollector :=
  {| fc_read_roots := key_add p (fc_read_roots c); fc_write_roots := key_add p (fc_write_roots c);
     fc_denied_paths := fc_denied_paths c; fc_write_denied_paths := fc_write_denied_paths c;
     fc_paths := fc_paths c ++ [p]; fc_denied_globs := fc_denied_globs c; fc_protected := fc_protected c |}.

Definition insert_denied (c : FilesystemCollector) (p : path) : FilesystemCollector :=
  {| fc_read_roots := fc_read_roots c; fc_write_roots := fc_write_roots c;
     fc_denied_paths := key_add p (fc_denied_paths c); fc_write_denied_paths := fc_write_denied_paths c;
     fc_paths := fc_paths c ++ [p]; fc_denied_globs := fc_denied_globs c; fc_protected := fc_protected c |}.

Definition insert_write_denied (c : FilesystemCollector) (p : path) : FilesystemCollector :=
  {| fc_read_roots := fc_read_roots c; fc_write_roots := fc_write_roots c;
     fc_denied_paths := fc_denied_paths c; fc_write_denied_paths := key_add p (fc_write_denied_paths c);
     fc_paths := fc_paths c ++ [p]; fc_denied_globs := fc_denied_globs c; fc_protected := fc_protected c |}.

Definition add_glob (c : FilesystemCollector) (pattern : string) : FilesystemCollector :=
  {| fc_read_roots := fc_read_roots c; fc_write_roots := fc_write_roots c;
     fc_denied_paths := fc_denied_paths c; fc_write_denied_paths := fc_write_denied_paths c;
     fc_paths := fc_paths c; fc_denied_globs := bt_insert pattern () (fc_denied_globs c); fc_protected := fc_protected c |}.

Definition add_protected (c : FilesystemCollector) (protected : list path) : FilesystemCollector :=
  {| fc_read_roots := fc_read_roots c; fc_write_roots := fc_write_roots c;
     fc_denied_paths := fc_denied_paths c; fc_write_denied_paths := fc_write_denied_paths c;
     fc_paths := fc_paths c; fc_denied_globs := fc_denied_globs c; fc_protected := fc_protected c ++ protected |}.

(** * System aliases *)

(** A piece between separators that is no component *)
Definition trivial_piece (s : string) : bool := bool_decide (s = "" \/ s = ".").

(** The pieces behind the components [names] *)
Fixpoint strip_pieces (names pieces : list string) : option (list string) :=
  match names, pieces with
  | [], _ => Some pieces
  | _, [] => None
  | name :: names', piece :: rest =>
      if trivial_piece piece then strip_pieces names rest
      else if bool_decide (piece = name) then strip_pieces names' rest else None
  end.

Fixpoint skip_trivial (pieces : list string) : list string :=
  match pieces with
  | piece :: rest => if trivial_piece piece then skip_trivial rest else pieces
  | [] => []
  end.

(** [Path::strip_prefix] of an absolute path by the absolute path of [names] *)
Definition strip_alias (p : path) (names : list string) : option path :=
  if is_absolute p
  then pieces ← strip_pieces names (str_split SEP p);
       Some (String.concat "/" (reverse (skip_trivial (reverse (skip_trivial pieces)))))
  else None.

Definition system_aliases : list (list string * path) :=
  [(["bin"], "/usr/bin"); (["sbin"], "/usr/sbin"); (["lib"], "/usr/lib"); (["var"], "/private/var");
   (["tmp"], "/private/tmp"); (["etc"], "/private/etc")].

Fixpoint alias_loop (aliases : list (list string * path)) (p : path) : path :=
  match aliases with
  | [] => p
  | (names, canonical) :: rest =>
      if bool_decide (components p = RootDir :: (Normal <$> names)) then canonical
      else match strip_alias p names with Some relative => path_join canonical relative | None => alias_loop rest p end
  end.

Definition normalize_macos_system_alias (p : path) : path := alias_loop system_aliases p.

(** * Inspection of paths *)

Section lowering.
Context (h : MacHost).

(** The paths [current] takes while the normal components of a path are pushed *)
Definition pushed_normal (p : path) : list path :=
  let names := filter (fun c => match c with Normal _ => true | _ => false end = true) (components p) in
  (fun n => collect_path (RootDir :: take n names)) <$> seq 1 (length names).

Fixpoint mac_first_missing_loop (p : path) (paths : list path) : result MacosFilesystemError (option path) :=
  match paths with
  | [] => Ok None
  | current :: rest =>
      match mac_symlink_metadata h current with
      | Ok m => if is_symlink m then Err (Symlink current) else mac_first_missing_loop p rest
      | Err NotFound => Ok (Some p)
      | Err source => Err (MacMetadata current source)
      end
  end.

Definition mac_first_missing_component (p : path) : result MacosFilesystemError (option path) :=
  mac_first_missing_loop p (pushed_normal p).

Fixpoint contains_symlink_loop (paths : list path) : result MacosFilesystemError bool :=
  match paths with
  | [] => Ok false
  | current :: rest =>
      match mac_symlink_metadata h current with
      | Ok m => if is_symlink m then Ok true else contains_symlink_loop rest
      | Err NotFound => Ok false
      | Err source => Err (MacMetadata current source)
      end
  end.

Definition contains_symlink (p : path) : result MacosFilesystemError bool := contains_symlink_loop (pushed_normal p).

Definition validate_concrete_path (p : path) (missing : MissingPathBehavior) : result MacosFilesystemError (option path) :=
  let p := normalize_macos_system_alias p in
  reject negb (is_absolute p) || contains_parent_traversal p with InvalidScope p ;;
  first_missing ← mac_first_missing_component p;
  match first_missing with
  | None =>
      canonical ← map_err (MacMetadata p) (mac_canonicalize h p);
      Ok (Some (normalize_lexical_path canonical))
  | Some _ => match missing with MError => Err (RequiredPathMissing p) | MSkip => Ok None end
  end.

Fixpoint executable_components (p : path) (paths : list path) : result MacosFilesystemError unit :=
  match paths with
  | [] => Ok ()
  | current :: rest =>
      m ← map_err (fun source => match source with
                                 | NotFound => ExecutableRootMissing p
                                 | _ => MacMetadata current source
                                 end) (mac_symlink_metadata h current);
      reject is_symlink m with Symlink current ;;
      executable_components p rest
  end.

Definition mac_validate_executable_root (p : path) : result MacosFilesystemError path :=
  let p := normalize_macos_system_alias p in
  reject negb (is_absolute p) || contains_parent_traversal p with InvalidExecutableRoot p ;;
  _ ← executable_components p (pushed_normal p);
  m ← map_err (MacMetadata p) (mac_metadata h p);
  reject negb (is_dir m) with ExecutableRootNotDirectory p ;;
  canonical ← map_err (MacMetadata p) (mac_canonicalize h p);
  Ok (normalize_lexical_path (normalize_macos_system_alias canonical)).

(** * Globs *)

Definition glob_start (a : ascii) : bool :=
  existsb (Ascii.eqb a) ["*"; "?"; "["; "]"; "{"; "}"]%char.

(** The index of the first character that starts a glob *)
Fixpoint first_glob_index (s : string) : option nat :=
  match s with
  | EmptyString => None
  | String a rest => if glob_start a then Some 0 else S <$> first_glob_index rest
  end.

(** [str::rfind('/')] *)
Fixpoint rfind_sep (s : string) : option nat :=
  match s with
  | EmptyString => None
  | String a rest =>
      match rfind_sep rest with
      | Some i => Some (S i)
      | None => if Ascii.eqb a SEP then Some 0 else None
      end
  end.

Definition canonicalize_glob_static_prefix (pattern : string) : result MacosFilesystemError (option string) :=
  match first_glob_index pattern with
  | None =>
      match mac_canonicalize h pattern with
      | Err _ => Ok None
      | Ok canonical =>
          let canonical := normalize_macos_system_alias canonical in
          text ← ok_or (GlobCanonicalPathNotUtf8 canonical) (to_str canonical);
          Ok (if bool_decide (text <> pattern) then Some text else None)
      end
  | Some index =>
      let static_prefix := str_take index pattern in
      let prefix_end := if ends_with_char SEP static_prefix then String.length static_prefix - 1
                        else default 0 (rfind_sep static_prefix) in
      if bool_decide (prefix_end = 0) then Ok None
      else match mac_canonicalize h (str_take prefix_end pattern) with
           | Err _ => Ok None
           | Ok root =>
               let root := normalize_macos_system_alias root in
               text ← ok_or (GlobCanonicalPathNotUtf8 root) (to_str root);
               let normalized := text +:+ str_drop prefix_end pattern in
               Ok (if bool_decide (normalized <> pattern) then Some normalized else None)
           end
  end.

Definition insert_denied_glob (c : FilesystemCollector) (pattern : string) : result MacosFilesystemError FilesystemCollector :=
  let c := add_glob c pattern in
  canonical ← canonicalize_glob_static_prefix pattern;
  Ok match canonical with Some text => add_glob c text | None => c end.

Definition collect_glob (workspace : list path) (c : FilesystemCollector) (pattern : string) (absolute : bool) :
  result MacosFilesystemError FilesystemCollector :=
  if absolute
  then insert_denied_glob c (to_string_lossy (normalize_macos_system_alias pattern))
  else foldM (fun c root =>
         let root := normalize_macos_system_alias root in
         root_string ← ok_or (GlobRootNotUtf8 root) (to_str root);
         joined ← if bool_decide (pattern = "") then Ok root_string
                  else ok_or (GlobRootNotUtf8 root) (to_str (path_join root pattern));
         insert_denied_glob c joined) c workspace.

(** * Collection *)

Context {U : Unicode} {G : Globset} {W : WildMatch} {B : Type} `{!SandboxBackend B}.
Context (b : B) (prepared : PreparedBackendRequest) (c : EffectivePathContext).

Definition collect_read_only_subpaths (write_root : path) (selectors : list PathSelector) (fc : FilesystemCollector) :
  result MacosFilesystemError FilesystemCollector :=
  foldM (fun fc selector => foldM (fun fc p =>
    let native := normalize_macos_system_alias p in
    reject negb (is_within native write_root) with ReadOnlyOutsideRoot native write_root ;;
    linked ← contains_symlink native;
    reject (linked : bool) with Symlink native ;;
    Ok (insert_write_denied fc native)) fc (context_resolve c selector)) fc selectors.

Definition mac_access_of (p : path) : result MacosFilesystemError FilesystemDecision :=
  map_err MacContract (prepared_access_for_path prepared b p).

(** One path of a scope rule *)
Definition mac_collect_path (rule : FilesystemRule) (fc : FilesystemCollector) (p : path) :
  result MacosFilesystemError FilesystemCollector :=
  decision ← mac_access_of p;
  native ← validate_concrete_path p (missing_path_behavior rule);
  match native with
  | None => Ok fc
  | Some native =>
      match decision with
      | FRead => Ok (insert_read fc native)
      | FWrite => collect_read_only_subpaths native (read_only_subpaths rule) (insert_write fc native)
      | FDeny => Ok (insert_denied fc native)
      | FExternallyEnforced => Err ExternalOwnership
      end
  end.

Definition mac_collect_rule (fc : FilesystemCollector) (rule : FilesystemRule) : result MacosFilesystemError FilesystemCollector :=
  match target rule with
  | Scope selector => foldM (mac_collect_path rule) fc (context_resolve c selector)
  | Glob pattern =>
      reject bool_decide (access rule <> Deny) with NonDenyGlob (raw pattern) ;;
      collect_glob (workspace_roots (context c)) fc (raw pattern) (pp_absolute pattern)
  end.

Definition mac_collect_layer (fc : FilesystemCollector) (layer : FilesystemPolicy) : result MacosFilesystemError FilesystemCollector :=
  reject bool_decide (mode layer = External) with ExternalOwnership ;;
  fc ← foldM mac_collect_rule fc (entries layer);
  Ok (add_protected fc (protected_relative_paths layer)).

Definition mac_apply_protected_paths (fc : FilesystemCollector) : FilesystemCollector :=
  let roots := filter (fun root => key_has root (fc_write_roots fc) = true) (fc_paths fc) in
  foldl (fun acc root => foldl (fun acc relative => insert_denied acc (path_join root relative)) acc (fc_protected fc)) fc roots.

(** [Vec::dedup_by] of equal keys *)
Fixpoint dedup_keys (l : list path) : list path :=
  match l with
  | p :: rest =>
      match dedup_keys rest with
      | q :: more => if bool_decide (NativePathKey_new p = NativePathKey_new q) then p :: more else p :: q :: more
      | [] => [p]
      end
  | [] => []
  end.

Definition key_order (p q : path) : Prop := cmp (NativePathKey_new p) (NativePathKey_new q) <> Gt.
#[global] Instance key_order_dec : RelDecision key_order.
Proof. intros p q. unfold key_order. apply _. Defined.

(** The path of each key *)
Definition to_paths (paths : list path) (keys : KeySet) : list path :=
  omap (fun e => snd <$> list_find (fun p => NativePathKey_new p = e.1) paths) keys.

Definition mac_finish (fc : FilesystemCollector) : MacosFilesystemPlan :=
  let paths := dedup_keys (merge_sort key_order (fc_paths fc)) in
  {| read_roots := to_paths paths (fc_read_roots fc); write_roots := to_paths paths (fc_write_roots fc);
     executable_roots := []; denied_paths := to_paths paths (fc_denied_paths fc);
     write_denied_paths := to_paths paths (fc_write_denied_paths fc);
     denied_globs := (fc_denied_globs fc).*1; plan_unrestricted := false |}.

End lowering.

Section plan.
Context (h : MacHost).
Context {U : Unicode} {G : Globset} {W : WildMatch} {B : Type} `{!SandboxBackend B}.

Definition mac_executable_root (b : B) (prepared : PreparedBackendRequest) (p : path) : result MacosFilesystemError path :=
  decision ← mac_access_of b prepared p;
  match decision with
  | FRead | FWrite => mac_validate_executable_root h p
  | FDeny => Err (ExecutableRootNotReadable p)
  | FExternallyEnforced => Err ExternalOwnership
  end.

(** [MacosFilesystemPlan::lower] *)
Definition mac_lower (b : B) (prepared : PreparedBackendRequest) : result MacosFilesystemError MacosFilesystemPlan :=
  sandbox ← map_err MacContract (prepared_sandbox prepared b);
  let m := req_mode (filesystem_requirements (es_filesystem sandbox)) in
  reject bool_decide (m = External) with ExternalOwnership ;;
  c ← map_err MacContract (prepared_path_context prepared b);
  lowering ← map_err MacContract (prepared_filesystem_lowering prepared b);
  fc ← foldM (mac_collect_layer h b prepared c) collector_new (fs_layers lowering);
  let plan := mac_finish (mac_apply_protected_paths fc) in
  roots ← foldM (fun roots p => root ← mac_executable_root b prepared p; Ok (roots ++ [root])) []
            (Selector.executable_roots (context c));
  Ok {| read_roots := read_roots plan; write_roots := write_roots plan; executable_roots := roots;
        denied_paths := denied_paths plan; write_denied_paths := write_denied_paths plan;
        denied_globs := denied_globs plan; plan_unrestricted := bool_decide (m = Unrestricted) |}.

End plan.

(** * What a collector holds *)

Inductive PathSet := SRead | SWrite | SDeny | SWriteDeny.

Definition fc_set (s : PathSet) (fc : FilesystemCollector) : KeySet :=
  match s with
  | SRead => fc_read_roots fc | SWrite => fc_write_roots fc | SDeny => fc_denied_paths fc
  | SWriteDeny => fc_write_denied_paths fc
  end.

(** The collector holds a key, with a path that has it. *)
Definition holds (fc : FilesystemCollector) (e : PathSet * NativePathKey) : Prop := is_Some (bt_get e.2 (fc_set e.1 fc)).

Definition recorded (fc : FilesystemCollector) : Prop :=
  forall e, holds fc e -> exists q, q ∈ fc_paths fc /\ NativePathKey_new q = e.2.

Lemma key_has_holds p fc : key_has p (fc_write_roots fc) = true <-> holds fc (SWrite, NativePathKey_new p).
Proof. unfold key_has, holds. simpl. destruct (bt_get _ _) as [[]|]; split; (done || eauto || by intros [? ?]). Qed.

Lemma bt_get_add p k (s : KeySet) : is_Some (bt_get k (key_add p s)) <-> is_Some (bt_get k s) \/ k = NativePathKey_new p.
Proof.
  unfold key_add. destruct (decide (k = NativePathKey_new p)) as [->|Hne].
  - rewrite bt_get_insert. split; eauto.
  - rewrite bt_get_insert_ne by (intros ?%cmp_eq; done). naive_solver.
Qed.

(** The insertions *)
Lemma holds_read fc p e : holds (insert_read fc p) e <-> holds fc e \/ e = (SRead, NativePathKey_new p).
Proof. destruct e as [[] k]; unfold holds; simpl; rewrite ?bt_get_add; naive_solver. Qed.

Lemma holds_write fc p e :
  holds (insert_write fc p) e <-> holds fc e \/ e = (SRead, NativePathKey_new p) \/ e = (SWrite, NativePathKey_new p).
Proof. destruct e as [[] k]; unfold holds; simpl; rewrite ?bt_get_add; naive_solver. Qed.

Lemma holds_denied fc p e : holds (insert_denied fc p) e <-> holds fc e \/ e = (SDeny, NativePathKey_new p).
Proof. destruct e as [[] k]; unfold holds; simpl; rewrite ?bt_get_add; naive_solver. Qed.

Lemma holds_write_denied fc p e : holds (insert_write_denied fc p) e <-> holds fc e \/ e = (SWriteDeny, NativePathKey_new p).
Proof. destruct e as [[] k]; unfold holds; simpl; rewrite ?bt_get_add; naive_solver. Qed.

(** A loop adds what its iterations add. *)
Lemma foldM_adds {E A X C} (has : A -> C -> Prop) (adds : X -> C -> Prop) (f : A -> X -> result E A) l acc acc' :
  (forall a x a', x ∈ l -> f a x = Ok a' -> forall e, has a' e <-> has a e \/ adds x e) ->
  foldM f acc l = Ok acc' -> forall e, has acc' e <-> has acc e \/ exists x, x ∈ l /\ adds x e.
Proof.
  revert acc. induction l as [|x l IH]; intros acc Hf; simpl.
  - intros [= <-] e. split; [by left|]. intros [?|(x & Hx & _)]; [done|]. by apply elem_of_nil in Hx.
  - intros H e. res_inv. rewrite (IH _ (fun a x a' Hx => Hf a x a' (list_elem_of_further _ _ _ Hx)) H e).
    erewrite Hf by (done || apply list_elem_of_here). setoid_rewrite elem_of_cons. naive_solver.
Qed.

Section exact.
Context (h : MacHost).
Context {U : Unicode} {G : Globset} {W : WildMatch} {B : Type} `{!SandboxBackend B}.
Context (b : B) (prepared : PreparedBackendRequest) (c : EffectivePathContext).

(** What a path of a scope rule adds, by the decision for it *)
Definition path_adds (rule : FilesystemRule) (p : path) (e : PathSet * NativePathKey) : Prop :=
  exists d np, mac_access_of b prepared p = Ok d /\ validate_concrete_path h p (missing_path_behavior rule) = Ok (Some np) /\
  match d with
  | FRead => e = (SRead, NativePathKey_new np)
  | FWrite => e = (SRead, NativePathKey_new np) \/ e = (SWrite, NativePathKey_new np) \/
      exists s, s ∈ read_only_subpaths rule /\ exists q, q ∈ context_resolve c s /\
        e = (SWriteDeny, NativePathKey_new (normalize_macos_system_alias q))
  | FDeny => e = (SDeny, NativePathKey_new np)
  | FExternallyEnforced => False
  end.

Definition rule_adds (rule : FilesystemRule) (e : PathSet * NativePathKey) : Prop :=
  exists selector, target rule = Scope selector /\ exists p, p ∈ context_resolve c selector /\ path_adds rule p e.

Lemma subpaths_add root selectors fc fc' :
  collect_read_only_subpaths h c root selectors fc = Ok fc' ->
  forall e, holds fc' e <-> holds fc e \/ exists s, s ∈ selectors /\ exists q, q ∈ context_resolve c s /\
    e = (SWriteDeny, NativePathKey_new (normalize_macos_system_alias q)).
Proof.
  apply (foldM_adds holds (fun s e => exists q, q ∈ context_resolve c s /\ e = (SWriteDeny, NativePathKey_new (normalize_macos_system_alias q)))).
  intros a s a' _. apply (foldM_adds holds (fun q e => e = (SWriteDeny, NativePathKey_new (normalize_macos_system_alias q)))).
  intros a1 q a2 _ H. cbv zeta in H. res_inv. intros e. apply holds_write_denied.
Qed.

Lemma collect_path_adds rule fc p fc' :
  mac_collect_path h b prepared c rule fc p = Ok fc' -> forall e, holds fc' e <-> holds fc e \/ path_adds rule p e.
Proof.
  unfold mac_collect_path, path_adds. intros H e. apply bind_Ok in H as (d & Hd & H). apply bind_Ok in H as (native & Hn & H).
  setoid_rewrite Hd. setoid_rewrite Hn. destruct native as [np|].
  - transitivity (holds fc e \/ match d with
      | FRead => e = (SRead, NativePathKey_new np)
      | FWrite => e = (SRead, NativePathKey_new np) \/ e = (SWrite, NativePathKey_new np) \/
          exists s, s ∈ read_only_subpaths rule /\ exists q, q ∈ context_resolve c s /\
            e = (SWriteDeny, NativePathKey_new (normalize_macos_system_alias q))
      | FDeny => e = (SDeny, NativePathKey_new np)
      | FExternallyEnforced => False end).
    + destruct d; try done.
      * injection H as <-. apply holds_read.
      * rewrite (subpaths_add _ _ _ _ H e), holds_write. tauto.
      * injection H as <-. apply holds_denied.
    + apply or_iff_compat_l. split; [intros He; by exists d, np|]. by intros (d' & np' & [= <-] & [= <-] & He).
  - injection H as <-. split; [by left|]. by intros [?|(d' & np' & _ & [=] & _)].
Qed.

(** Globs add to no set of paths. *)
Lemma denied_glob_holds fc pattern fc' : insert_denied_glob h fc pattern = Ok fc' -> forall e, holds fc' e <-> holds fc e.
Proof. unfold insert_denied_glob. intros H e. res_inv. by destruct a, e as [[] k]. Qed.

Lemma collect_glob_holds workspace fc pattern absolute fc' :
  collect_glob h workspace fc pattern absolute = Ok fc' -> forall e, holds fc' e <-> holds fc e.
Proof.
  unfold collect_glob. destruct absolute; [apply denied_glob_holds|]. intros H e.
  assert (forall e, holds fc' e <-> holds fc e \/ exists x, x ∈ workspace /\ False) as Hf.
  { eapply (foldM_adds holds (fun _ _ => False)); [|exact H]. cbv beta zeta. intros a x a' _ (s & _ & (j & _ & Ha)%bind_Ok)%bind_Ok e'.
    rewrite (denied_glob_holds _ _ _ Ha). tauto. }
  rewrite Hf. split; [by intros [?|(? & _ & [])]|by left].
Qed.

Lemma collect_rule_adds fc rule fc' :
  mac_collect_rule h b prepared c fc rule = Ok fc' -> forall e, holds fc' e <-> holds fc e \/ rule_adds rule e.
Proof.
  unfold mac_collect_rule, rule_adds. destruct (target rule) as [selector|pattern] eqn:Ht; intros H e.
  - rewrite (foldM_adds holds (path_adds rule) _ _ _ _ (fun a x a' _ => collect_path_adds rule a x a') H e).
    naive_solver.
  - res_inv. rewrite (collect_glob_holds _ _ _ _ _ H). split; [by left|]. by intros [?|(s & [=] & _)].
Qed.

Lemma collect_layer_adds fc layer fc' :
  mac_collect_layer h b prepared c fc layer = Ok fc' ->
  forall e, holds fc' e <-> holds fc e \/ exists rule, rule ∈ entries layer /\ rule_adds rule e.
Proof.
  unfold mac_collect_layer. intros H e. res_inv.
  match goal with H : foldM _ _ _ = Ok ?x |- _ =>
    rewrite <- (foldM_adds holds rule_adds _ _ _ _ (fun a x a' _ => collect_rule_adds a x a') H e) end.
  by destruct e as [[] k].
Qed.

(** Collection records a path for every key, and only layers add protected names. *)
Definition keeps (fc fc' : FilesystemCollector) : Prop :=
  (recorded fc -> recorded fc') /\ fc_protected fc' = fc_protected fc.

Lemma keeps_refl fc : keeps fc fc.
Proof. done. Qed.

Lemma keeps_trans x y z : keeps x y -> keeps y z -> keeps x z.
Proof. intros [H1 P1] [H2 P2]. split; [auto|congruence]. Qed.

Lemma foldM_keeps {E X} (f : FilesystemCollector -> X -> result E FilesystemCollector) l fc fc' :
  (forall a x a', x ∈ l -> f a x = Ok a' -> keeps a a') -> foldM f fc l = Ok fc' -> keeps fc fc'.
Proof.
  intros Hf. apply (foldM_invariant f (keeps fc)); [apply keeps_refl|].
  intros a x a' Hx Ha H. eapply keeps_trans; [exact Ha|by eapply Hf].
Qed.

Lemma insert_keeps (insert : FilesystemCollector -> path -> FilesystemCollector) fc p :
  (forall e, holds (insert fc p) e -> holds fc e \/ e.2 = NativePathKey_new p) ->
  fc_paths (insert fc p) = fc_paths fc ++ [p] -> fc_protected (insert fc p) = fc_protected fc -> keeps fc (insert fc p).
Proof.
  intros He Hp Hprot. split; [|done]. intros Hr e [Hold|Hnew]%He; rewrite Hp; setoid_rewrite elem_of_app.
  - destruct (Hr e Hold) as (q & ? & ?). eauto.
  - exists p. split; [right; apply list_elem_of_here|done].
Qed.

Lemma insert_read_keeps fc p : keeps fc (insert_read fc p).
Proof. apply (insert_keeps insert_read); [|done..]. intros e. rewrite holds_read. naive_solver. Qed.
Lemma insert_write_keeps fc p : keeps fc (insert_write fc p).
Proof. apply (insert_keeps insert_write); [|done..]. intros e. rewrite holds_write. naive_solver. Qed.
Lemma insert_denied_keeps fc p : keeps fc (insert_denied fc p).
Proof. apply (insert_keeps insert_denied); [|done..]. intros e. rewrite holds_denied. naive_solver. Qed.
Lemma insert_write_denied_keeps fc p : keeps fc (insert_write_denied fc p).
Proof. apply (insert_keeps insert_write_denied); [|done..]. intros e. rewrite holds_write_denied. naive_solver. Qed.

Lemma denied_glob_keeps fc pattern fc' : insert_denied_glob h fc pattern = Ok fc' -> keeps fc fc'.
Proof.
  unfold insert_denied_glob. intros H. res_inv.
  assert (forall fc t, keeps fc (add_glob fc t)) as Hg.
  { intros fc0 t. split; [|done]. intros Hr e He. apply Hr. by destruct e as [[] k]. }
  destruct a; [|apply Hg]. eapply keeps_trans; apply Hg.
Qed.

Lemma collect_path_keeps rule fc p fc' : mac_collect_path h b prepared c rule fc p = Ok fc' -> keeps fc fc'.
Proof.
  unfold mac_collect_path. intros (d & _ & (native & _ & H)%bind_Ok)%bind_Ok.
  destruct native as [np|]; [|injection H as <-; apply keeps_refl]. destruct d; try done.
  - injection H as <-. apply insert_read_keeps.
  - eapply keeps_trans; [apply insert_write_keeps|]. refine (foldM_keeps _ _ _ _ _ H). intros a s a' _ Hs. refine (foldM_keeps _ _ _ _ _ Hs).
    clear H. intros a1 q a2 _ H. cbv zeta in H. res_inv. apply insert_write_denied_keeps.
  - injection H as <-. apply insert_denied_keeps.
Qed.

Lemma collect_rule_keeps fc rule fc' : mac_collect_rule h b prepared c fc rule = Ok fc' -> keeps fc fc'.
Proof.
  unfold mac_collect_rule. destruct (target rule) as [selector|pattern]; intros H.
  - refine (foldM_keeps _ _ _ _ _ H). intros a x a' _. apply collect_path_keeps.
  - res_inv. unfold collect_glob in H. destruct (pp_absolute pattern); [by eapply denied_glob_keeps|].
    refine (foldM_keeps _ _ _ _ _ H). cbv beta zeta. intros a x a' _ (s & _ & (j & _ & Ha)%bind_Ok)%bind_Ok. by eapply denied_glob_keeps.
Qed.

Lemma collect_layer_protected fc layer fc' :
  mac_collect_layer h b prepared c fc layer = Ok fc' ->
  (recorded fc -> recorded fc') /\ fc_protected fc' = fc_protected fc ++ protected_relative_paths layer.
Proof.
  unfold mac_collect_layer. intros H. res_inv.
  match goal with H : foldM _ _ _ = Ok _ |- _ => apply foldM_keeps in H as [Hr Hp]; [|intros a0 x a' _; apply collect_rule_keeps] end.
  simpl. rewrite Hp. split; [|done]. intros Hfc e He. apply (Hr Hfc). by destruct e as [[] k].
Qed.

(** What the collection of [layers] holds, with the protected names below the
    writable roots *)
Definition collected_from (layers : list FilesystemPolicy) (e : PathSet * NativePathKey) : Prop :=
  exists layer, layer ∈ layers /\ exists rule, rule ∈ entries layer /\ rule_adds rule e.

Definition protected_below (layers : list FilesystemPolicy) (e : PathSet * NativePathKey) : Prop :=
  exists root relative layer, collected_from layers (SWrite, NativePathKey_new root) /\ layer ∈ layers /\
    relative ∈ protected_relative_paths layer /\ e = (SDeny, NativePathKey_new (path_join root relative)).

Lemma collect_layers_spec layers fc :
  foldM (mac_collect_layer h b prepared c) collector_new layers = Ok fc ->
  recorded fc /\ (forall e, holds fc e <-> collected_from layers e) /\
  (forall relative, relative ∈ fc_protected fc <-> exists layer, layer ∈ layers /\ relative ∈ protected_relative_paths layer).
Proof.
  intros H. split_and!.
  - revert H. apply (foldM_invariant _ recorded).
    + intros e He. by destruct e as [[] k], He.
    + intros a x a' _ Ha Hx. by apply collect_layer_protected in Hx as [Hr _]; auto.
  - intros e. rewrite (foldM_adds holds (fun layer e => exists rule, rule ∈ entries layer /\ rule_adds rule e) _ _ _ _
      (fun a x a' _ => collect_layer_adds a x a') H e). split; [|by right]. intros [He|?]; [|done]. by destruct e as [[] k], He.
  - intros relative. erewrite (foldM_adds (fun fc relative => relative ∈ fc_protected fc)
      (fun layer relative => relative ∈ protected_relative_paths layer) _ _ _ fc); [| |exact H].
    + split; [|by right]. by intros [Hnil%elem_of_nil|?].
    + intros a x a' _ Hx e. apply collect_layer_protected in Hx as [_ ->]. apply elem_of_app.
Qed.

Lemma join_key p q r : NativePathKey_new p = NativePathKey_new q -> NativePathKey_new (path_join p r) = NativePathKey_new (path_join q r).
Proof.
  rewrite !NativePathKey_new_eq. intros Hk%(inj (fmap component_key)). f_equal. destruct (is_absolute r) eqn:Hr.
  - by rewrite !lexical_components_join_absolute.
  - by rewrite !lexical_components_join, Hk.
Qed.

Lemma apply_protected_spec layers fc :
  recorded fc -> (forall e, holds fc e <-> collected_from layers e) ->
  (forall relative, relative ∈ fc_protected fc <-> exists layer, layer ∈ layers /\ relative ∈ protected_relative_paths layer) ->
  recorded (mac_apply_protected_paths fc) /\
  forall e, holds (mac_apply_protected_paths fc) e <-> collected_from layers e \/ protected_below layers e.
Proof.
  intros Hr Hh Hp. unfold mac_apply_protected_paths. set (roots := filter _ _).
  set (inner := fun acc root => foldl (fun acc relative => insert_denied acc (path_join root relative)) acc (fc_protected fc)).
  assert (forall acc root, foldM (E := unit) (fun acc relative => Ok (insert_denied acc (path_join root relative))) acc (fc_protected fc)
            = Ok (inner acc root)) as Hinner by (intros; by apply foldM_pure).
  assert (foldM (E := unit) (fun acc root => foldM (fun acc relative => Ok (insert_denied acc (path_join root relative))) acc (fc_protected fc)) fc roots
          = Ok (foldl inner fc roots)) as H by (apply foldM_pure; auto).
  split.
  - refine (proj1 (foldM_keeps _ _ _ _ _ H) Hr). intros a root a' _ Ha. refine (foldM_keeps _ _ _ _ _ Ha).
    intros a1 x a2 _ [= <-]. apply insert_denied_keeps.
  - assert (forall e, holds (foldl inner fc roots) e <-> holds fc e \/ exists root, root ∈ roots /\ exists relative,
              relative ∈ fc_protected fc /\ e = (SDeny, NativePathKey_new (path_join root relative))) as Hadd.
    { eapply (foldM_adds holds (fun root e => exists relative, relative ∈ fc_protected fc /\
        e = (SDeny, NativePathKey_new (path_join root relative)))); [|exact H].
      intros a root a' _. apply (foldM_adds holds (fun relative e => e = (SDeny, NativePathKey_new (path_join root relative)))).
      intros a1 x a2 _ [= <-] e. apply holds_denied. }
    intros e. rewrite Hadd, Hh. apply or_iff_compat_l. unfold protected_below, roots. setoid_rewrite list_elem_of_filter. split.
    + intros (root & [Hroot%key_has_holds _] & relative & (layer & ? & ?)%Hp & ->). exists root, relative, layer. by rewrite <- Hh.
    + intros (root & relative & layer & Hroot%Hh & ? & ? & ->). destruct (Hr _ Hroot) as (q & Hq & Hkey). exists q.
      split; [split; [apply key_has_holds; by rewrite Hkey|done]|]. exists relative. split; [apply Hp; eauto|].
      f_equal. by apply join_key.
Qed.

End exact.

(** * The plan of a collector *)

Definition plan_paths (s : PathSet) (plan : MacosFilesystemPlan) : list path :=
  match s with
  | SRead => read_roots plan | SWrite => write_roots plan | SDeny => denied_paths plan | SWriteDeny => write_denied_paths plan
  end.

Lemma dedup_keys_covers l p : p ∈ l -> exists q, q ∈ dedup_keys l /\ NativePathKey_new q = NativePathKey_new p.
Proof.
  induction l as [|x l IH]; simpl; [by intros Hnil%elem_of_nil|]. intros [->|Hp]%elem_of_cons.
  - exists x. split; [|done]. destruct (dedup_keys l); [apply list_elem_of_here|]. case_bool_decide; apply list_elem_of_here.
  - destruct (IH Hp) as (q & Hq & Hk). destruct (dedup_keys l) as [|y more]; [by apply elem_of_nil in Hq|].
    case_bool_decide as Hxy; [|exists q; split; [by right|done]]. apply elem_of_cons in Hq as [->|Hq].
    + exists x. split; [apply list_elem_of_here|congruence].
    + exists q. split; [by right|done].
Qed.

Lemma to_paths_iff paths keys k :
  (forall k, is_Some (bt_get k keys) -> exists q, q ∈ paths /\ NativePathKey_new q = k) ->
  (exists p, p ∈ to_paths paths keys /\ NativePathKey_new p = k) <-> is_Some (bt_get k keys).
Proof.
  intros Hpaths. unfold to_paths. setoid_rewrite list_elem_of_omap. split.
  - intros (p & ([j []] & Hj & Hf) & <-). simpl in Hf. apply fmap_Some in Hf as ([i q] & Hfind & ->).
    apply list_find_Some in Hfind as (_ & Hkey & _). simpl in *. rewrite Hkey. clear Hpaths Hkey. induction keys as [|[l v] keys IH]; [by apply elem_of_nil in Hj|].
    simpl. destruct (cmp j l) eqn:Hc; [eauto| |];
      (apply elem_of_cons in Hj as [[= -> _]|Hj]; [rewrite cmp_refl in Hc; done|auto]).
  - intros Hk. destruct (Hpaths k Hk) as (q & Hq & Hqk). destruct Hk as [[] Hk].
    apply bt_get_elem in Hk as (j & <-%cmp_eq & Hj). 
    destruct (list_find (fun p => NativePathKey_new p = k) paths) as [[i p]|] eqn:Hf.
    + exists p. split; [exists (k, ()); split; [done|]; simpl; by rewrite Hf|]. by apply list_find_Some in Hf as (_ & ? & _).
    + apply list_find_None in Hf. rewrite Forall_forall in Hf. by destruct (Hf q Hq).
Qed.

Lemma mac_finish_iff fc s k :
  recorded fc -> (exists p, p ∈ plan_paths s (mac_finish fc) /\ NativePathKey_new p = k) <-> holds fc (s, k).
Proof.
  intros Hr. assert (forall s k, is_Some (bt_get k (fc_set s fc)) ->
    exists q, q ∈ dedup_keys (merge_sort key_order (fc_paths fc)) /\ NativePathKey_new q = k) as Hc.
  { intros s' k' Hk. destruct (Hr (s', k') Hk) as (q & Hq & Hkey). simpl in Hkey. subst k'. apply dedup_keys_covers.
    by rewrite merge_sort_Permutation. }
  destruct s; apply to_paths_iff; [apply (Hc SRead)|apply (Hc SWrite)|apply (Hc SDeny)|apply (Hc SWriteDeny)].
Qed.

Section lowered.
Context (h : MacHost).
Context {U : Unicode} {G : Globset} {W : WildMatch} {B : Type} `{!SandboxBackend B}.

(** The layers a prepared request is lowered from *)
Definition mac_layers (prepared : PreparedBackendRequest) : list FilesystemPolicy :=
  fs_layers (filesystem_lowering (es_filesystem (req_sandbox (prepared_request prepared)))).

(** The plan holds exactly what the rules and protected names say. *)
Lemma mac_lower_paths b prepared plan s k :
  mac_lower h b prepared = Ok plan ->
  (exists p, p ∈ plan_paths s plan /\ NativePathKey_new p = k) <->
  collected_from h b prepared (prepared_context prepared) (mac_layers prepared) (s, k) \/
  protected_below h b prepared (prepared_context prepared) (mac_layers prepared) (s, k).
Proof.
  unfold mac_lower, prepared_path_context, prepared_filesystem_lowering, prepared_sandbox. intros H. res_inv.
  match goal with H : foldM (mac_collect_layer _ _ _ _) _ _ = Ok ?x |- _ =>
    rename x into fc; apply collect_layers_spec in H as (Hr & Hh & Hp) end.
  destruct (apply_protected_spec h b prepared (prepared_context prepared) (mac_layers prepared) fc Hr Hh Hp) as [Hr' Hh'].
  rewrite <- Hh', <- (mac_finish_iff _ s k Hr'). by destruct s.
Qed.

End lowered.
