(* ===== verification/MacosSeatbelt.v ===== *)
(** [cageforge-macos/src/seatbelt.rs]: the filesystem part of the Seatbelt
    profile of a launch, and the regular expressions its globs become.  The text
    of the profile is kept as the list of its rules, without its white space. *)

From Stdlib Require Import Ascii String NArith Lia.
From stdpp Require Import base option strings list pretty sets.
From S2P Require Import Prelude Keyed Text BTree NativePath Access Selector PathPattern FsPolicy Domain NetPolicy Policy Environment Command Compose Effective Requirements EffectiveEnv HostFs Backend LinuxHost LinuxMounts MacosFilesystem.

(** * Globs as regular expressions *)

(** The characters of a pattern, each with its bytes *)
Definition glob_chars (s : string) : list string :=
  match utf8_chunks s with Some l => l.*2 | None => [] end.

Definition one_of (l : list string) (c : string) : bool := bool_decide (c ∈ l).

Definition push_regex_literal (regex c : string) : string :=
  (if one_of ["["; "]"; "."; "+"; "("; ")"; "|"; "^"; "$"; "{"; "}"; "\"] c then regex +:+ "\" else regex) +:+ c.

Definition push_regex_class_character (regex c : string) : string :=
  (if one_of ["\"; "]"; "["; "^"] c then regex +:+ "\" else regex) +:+ c.

Definition pattern_has_glob_meta (pattern : string) : bool :=
  existsb (one_of ["*"; "?"; "["; "{"; "}"]) (glob_chars pattern).

(** The run of stars at [index] *)
Fixpoint star_run (chars : list string) : nat :=
  match chars with
  | c :: rest => if bool_decide (c = "*") then S (star_run rest) else 0
  | [] => 0
  end.

Definition translate_glob_stars (chars : list string) (index : nat) (regex : string) : nat * string :=
  let count := star_run (drop index chars) in
  let next := index + count in
  let at_component_boundary := bool_decide (index = 0) ||
    match chars !! (index - 1) with Some c => one_of ["/"; "{"; ","] c | None => false end in
  if bool_decide (count = 2) && at_component_boundary && bool_decide (chars !! next = Some "/")
  then (S next, regex +:+ "(.*/)?")
  else if bool_decide (count = 2) && at_component_boundary &&
          match chars !! next with Some c => one_of ["}"; ","] c | None => true end
  then (next, regex +:+ ".*")
  else (next, regex +:+ "[^/]*").

(** [ranges.last_mut()] *)
Definition set_range_end (ranges : list (string * string)) (c : string) : list (string * string) :=
  match reverse ranges with (start, _) :: rest => reverse ((start, c) :: rest) | [] => [] end.

(** The loop of [translate_glob_class]: the index of the closing bracket, whether
    a range was left open, and the ranges *)
Fixpoint class_loop (chars : list string) (index : nat) (first in_range : bool) (ranges : list (string * string)) :
  option (nat * bool * list (string * string)) :=
  match chars with
  | [] => None
  | c :: rest =>
      if bool_decide (c = "]") then
        if first then class_loop rest (S index) false in_range (ranges ++ [("]", "]")]) else Some (index, in_range, ranges)
      else if bool_decide (c = "-") then
        if first then class_loop rest (S index) false in_range (ranges ++ [("-", "-")])
        else if in_range then class_loop rest (S index) false false (set_range_end ranges "-")
        else class_loop rest (S index) false true ranges
      else if in_range then class_loop rest (S index) false false (set_range_end ranges c)
      else class_loop rest (S index) false in_range (ranges ++ [(c, c)])
  end.

Definition range_text (regex : string) (range : string * string) : string :=
  let regex := push_regex_class_character regex range.1 in
  if bool_decide (range.1 <> range.2) then push_regex_class_character (regex +:+ "-") range.2 else regex.

Definition translate_glob_class (chars : list string) (index : nat) (regex : string) : nat * string :=
  let negated := match chars !! S index with Some c => one_of ["!"; "^"] c | None => false end in
  let class_index := if negated then S (S index) else S index in
  match class_loop (drop class_index chars) class_index true false [] with
  | None => (S index, push_regex_literal regex "[")
  | Some (content_end, in_range, ranges) =>
      let ranges := if in_range then ranges ++ [("-", "-")] else ranges in
      let regex := regex +:+ "[" +:+ (if negated then "^" else EmptyString) in
      (S content_end, foldl range_text regex ranges +:+ "]")
  end.

Definition branches_text (regex : string) (branches : list string) : string :=
  match branches with
  | [] => regex
  | [branch] => regex +:+ branch
  | _ => regex +:+ "(" +:+ String.concat "|" branches +:+ ")"
  end.

Definition push_branch (branches : list string) (branch : string) : list string :=
  if bool_decide (branch = EmptyString) then branches else branches ++ [branch].

(** [translate_glob_sequence], and the loop of [translate_glob_alternation] over
    its branches.  [None] is out of fuel. *)
Fixpoint translate_sequence (fuel : nat) (chars : list string) (index : nat) (terminator : option string) (regex : string) :
  option (nat * string) :=
  match fuel with
  | 0 => None
  | S fuel =>
      match chars !! index with
      | None => Some (index, regex)
      | Some c =>
          if bool_decide (terminator = Some c) || (bool_decide (terminator = Some "}") && bool_decide (c = ","))
          then Some (index, regex)
          else
            next ← if bool_decide (c = "*") then Some (translate_glob_stars chars index regex)
                   else if bool_decide (c = "?") then Some (S index, regex +:+ "[^/]")
                   else if bool_decide (c = "[") then Some (translate_glob_class chars index regex)
                   else if bool_decide (c = "{") then translate_branches fuel chars index (S index) [] regex
                   else Some (S index, push_regex_literal regex c);
            translate_sequence fuel chars next.1 terminator next.2
      end
  end
with translate_branches (fuel : nat) (chars : list string) (opening_index index : nat) (branches : list string) (regex : string) :
  option (nat * string) :=
  match fuel with
  | 0 => None
  | S fuel =>
      translated ← translate_sequence fuel chars index (Some "}") EmptyString;
      let '(index, branch) := translated in
      match chars !! index with
      | Some c =>
          if bool_decide (c = ",") then translate_branches fuel chars opening_index (S index) (push_branch branches branch) regex
          else if bool_decide (c = "}") then Some (S index, branches_text regex (push_branch branches branch))
          else Some (S opening_index, push_regex_literal regex "{")
      | None => Some (S opening_index, push_regex_literal regex "{")
      end
  end.

(** Each nested call is one character further, or enters the branches there. *)
Definition translation_fuel (chars : list string) : nat := S (2 * length chars).

Definition glob_to_seatbelt_regex_with_descendants (pattern : string) (descendants : bool) : string :=
  let chars := glob_chars pattern in
  let body := match translate_sequence (translation_fuel chars) chars 0 None "^" with Some r => r.2 | None => EmptyString end in
  (if descendants && negb (pattern_has_glob_meta pattern) then body +:+ "(/.*)?" else body) +:+ "$".

Definition glob_to_seatbelt_regex (pattern : string) : string := glob_to_seatbelt_regex_with_descendants pattern true.
Definition glob_to_seatbelt_regex_exact (pattern : string) : string := glob_to_seatbelt_regex_with_descendants pattern false.

Definition QUOTE : ascii := ascii_of_N 34.

(** Quotation marks are escaped. *)
Fixpoint escape_regex_literal (s : string) : string :=
  match s with
  | EmptyString => EmptyString
  | String a rest => if Ascii.eqb a QUOTE then String "\" (String a (escape_regex_literal rest)) else String a (escape_regex_literal rest)
  end.

Example regex_example : glob_to_seatbelt_regex "/work/**/*.{key,pem}" = "^/work/(.*/)?[^/]*\.(key|pem)$".
Proof. reflexivity. Qed.

Example regex_descendants : glob_to_seatbelt_regex "/work/.env" = "^/work/\.env(/.*)?$".
Proof. reflexivity. Qed.

(** * The translation ends *)

Lemma star_run_length l : star_run l <= length l.
Proof. induction l as [|c l IH]; simpl; [done|]. case_bool_decide; simpl; lia. Qed.

(** A step moves on and stays within the pattern. *)
Lemma stars_advance chars index regex :
  chars !! index = Some "*" -> index < (translate_glob_stars chars index regex).1 <= length chars.
Proof.
  intros Hc. pose proof (lookup_lt_Some _ _ _ Hc) as Hlt. unfold translate_glob_stars.
  assert (0 < star_run (drop index chars)) as Hpos by (rewrite (drop_S _ _ _ Hc); simpl; lia).
  pose proof (star_run_length (drop index chars)) as Hle. rewrite length_drop in Hle.
  destruct (_ && _ && bool_decide (chars !! _ = Some "/")) eqn:Hb.
  - simpl. rewrite !andb_true_iff, bool_decide_eq_true in Hb. destruct Hb as [_ Hnext]. apply bool_decide_eq_true, lookup_lt_Some in Hnext. lia.
  - destruct (_ && _ && match _ with Some _ => _ | None => _ end); simpl; lia.
Qed.

Lemma class_loop_bound l index first in_range ranges i r rs :
  class_loop l index first in_range ranges = Some (i, r, rs) -> index <= i < index + length l.
Proof.
  revert index first in_range ranges. induction l as [|c l IH]; intros index first in_range ranges; simpl; [done|].
  repeat case_match; intros Hl; try (apply IH in Hl; lia). injection Hl as <- _ _. lia.
Qed.

Lemma class_advance chars index regex :
  chars !! index = Some "[" -> index < (translate_glob_class chars index regex).1 <= length chars.
Proof.
  intros Hc%lookup_lt_Some. unfold translate_glob_class. destruct (class_loop _ _ _ _ _) as [[[i r] rs]|] eqn:Hl; [|simpl; lia].
  apply class_loop_bound in Hl. rewrite length_drop in Hl. simpl. revert Hl. repeat case_match; lia.
Qed.

Lemma translate_total fuel chars :
  (forall index terminator regex, index <= length chars -> 2 * (length chars - index) < fuel ->
     exists r, translate_sequence fuel chars index terminator regex = Some r /\ index <= r.1 <= length chars) /\
  (forall opening index branches regex, opening < index <= length chars -> 2 * (length chars - index) + 1 < fuel ->
     exists r, translate_branches fuel chars opening index branches regex = Some r /\ opening < r.1 <= length chars).
Proof.
  induction fuel as [|fuel [IHs IHb]]; [split; lia|]. split.
  - intros index terminator regex Hi Hf. simpl. destruct (chars !! index) as [c|] eqn:Hc; [|eexists; split; [done|simpl; lia]].
    pose proof (lookup_lt_Some _ _ _ Hc) as Hlt. destruct (_ || _); [eexists; split; [done|simpl; lia]|].
    assert (exists next, (if bool_decide (c = "*") then Some (translate_glob_stars chars index regex)
              else if bool_decide (c = "?") then Some (S index, regex +:+ "[^/]")
              else if bool_decide (c = "[") then Some (translate_glob_class chars index regex)
              else if bool_decide (c = "{") then translate_branches fuel chars index (S index) [] regex
              else Some (S index, push_regex_literal regex c)) = Some next /\ index < next.1 <= length chars) as (next & Hnext & Hb).
    { case_bool_decide; [subst; eexists; split; [done|by apply stars_advance]|].
      case_bool_decide; [eexists; split; [done|simpl; lia]|].
      case_bool_decide; [subst; eexists; split; [done|by apply class_advance]|].
      case_bool_decide; [|eexists; split; [done|simpl; lia]]. apply IHb; lia. }
    rewrite Hnext. simpl. destruct (IHs next.1 terminator next.2) as (r & Hr & Hrb); [lia|lia|]. exists r. split; [done|lia].
  - intros opening index branches regex Hi Hf. simpl.
    destruct (IHs index (Some "}") EmptyString) as ([i branch] & -> & Hb); [lia|lia|]. simpl in *.
    destruct (chars !! i) as [c|] eqn:Hc; [|eexists; split; [done|simpl; lia]]. pose proof (lookup_lt_Some _ _ _ Hc) as Hlt.
    case_bool_decide; [apply IHb; lia|]. case_bool_decide; eexists; (split; [done|simpl; lia]).
Qed.

(** Every pattern has a regular expression: the fuel is enough. *)
Lemma translation_total pattern :
  is_Some (translate_sequence (translation_fuel (glob_chars pattern)) (glob_chars pattern) 0 None "^").
Proof.
  destruct (proj1 (translate_total (translation_fuel (glob_chars pattern)) (glob_chars pattern)) 0 None "^") as (r & Hr & _);
    [lia|unfold translation_fuel; lia|]. by exists r.
Qed.
