(* ===== verification/MacosProfile.v ===== *)
(** [ProfileBuilder] of [cageforge-macos/src/seatbelt.rs]: the rules and path
    definitions a filesystem plan adds to the Seatbelt profile of a launch, and
    what Seatbelt does with them. *)

From Stdlib Require Import Ascii String NArith Lia.
From stdpp Require Import base option strings list pretty sets.
From S2P Require Import Prelude Keyed Text BTree NativePath Access Selector PathPattern FsPolicy Domain NetPolicy Policy Environment Command Compose Effective Requirements EffectiveEnv HostFs Backend LinuxHost LinuxMounts LinuxTable MacosFilesystem MacosSeatbelt.

(** * Profiles *)

Inductive SeatbeltProfileError :=
  | PathMetadata (p : path) (source : IoError)
  | SymlinkedRoot (p : path)
  | ProfilePathContainsNul (p : path)
  | GlobContainsNul (pattern : string)
  | InvalidDefinitionName (name : string)
  | InvalidFragment (fragment : string).

Record SeatbeltDefinition := { def_name : string; def_value : path }.

(** [(literal (param ..))], [(subpath (param ..))], [(subpath ..)],
    [(regex #..)], [(vnode-type DIRECTORY)], [(require-not ..)] and
    [(require-all ..)] *)
Inductive Filter :=
  | FLiteral (name : string)
  | FSubpath (name : string)
  | FSubpathText (p : path)
  | FRegex (regex : string)
  | FDirectory
  | FNot (f : Filter)
  | FAll (fs : list Filter).

(** [(allow ops.. filters..)] or [(deny ops.. filters..)]: one filter must hold. *)
Record Rule := { rule_allow : bool; rule_operations : list string; rule_filters : list Filter }.

Record ProfileBuilder := { pb_rules : list Rule; pb_definitions : list SeatbeltDefinition }.

Inductive SeatbeltPathMatch := MatchLiteral | MatchSubpath.

Abbreviation profile := (result SeatbeltProfileError).

Definition push_rule (b : ProfileBuilder) (r : Rule) : ProfileBuilder :=
  {| pb_rules := pb_rules b ++ [r]; pb_definitions := pb_definitions b |}.

Definition allow_rule (operations : list string) (filters : list Filter) : Rule :=
  {| rule_allow := true; rule_operations := operations; rule_filters := filters |}.
Definition deny_rule (operation : string) (f : Filter) : Rule :=
  {| rule_allow := false; rule_operations := [operation]; rule_filters := [f] |}.

Definition add_definition (b : ProfileBuilder) (name : string) (value : path) : profile ProfileBuilder :=
  reject contains_nul value with ProfilePathContainsNul value ;;
  reject bool_decide (name = EmptyString) || contains_char NUL name with InvalidDefinitionName name ;;
  Ok {| pb_rules := pb_rules b; pb_definitions := pb_definitions b ++ [{| def_name := name; def_value := value |}] |}.

(** [format!("{prefix}_{index}")] *)
Definition indexed (prefix : string) (index : nat) : string := prefix +:+ "_" +:+ pretty (N.of_nat index).

Definition enumerate {A} (l : list A) : list (nat * A) := zip (seq 0 (length l)) l.

Definition FIXED_EXECUTABLE_ROOTS : list path := ["/bin"; "/sbin"; "/usr/bin"; "/usr/sbin"; "/usr/libexec"].

Definition add_fixed_system_executable_roots (b : ProfileBuilder) : ProfileBuilder :=
  foldl (fun b root => push_rule (push_rule b (allow_rule ["file-read-data"] [FSubpathText root]))
                         (allow_rule ["file-read-metadata"] [FSubpathText root])) b FIXED_EXECUTABLE_ROOTS.

Definition push_path_exclusion (prefix : string) (index : nat) : list Filter :=
  [FNot (FLiteral (indexed prefix index)); FNot (FSubpath (indexed prefix index))].

(** The exclusions of the paths within [root] *)
Definition exclusions_within (prefix : string) (excluded : list path) (root : path) : list Filter :=
  mjoin ((fun '(i, p) => if is_within p root then push_path_exclusion prefix i else []) <$> enumerate excluded).

Definition regex_of (pattern : string) : string := escape_regex_literal (glob_to_seatbelt_regex pattern).

Definition glob_exclusions (patterns : list string) : list Filter :=
  (fun pattern => FNot (FRegex (regex_of pattern))) <$> patterns.

Section build.
Context (h : MacHost).

Definition path_match_for_root (p : path) : profile SeatbeltPathMatch :=
  match mac_symlink_metadata h p with
  | Ok m => if is_symlink m then Err (SymlinkedRoot p) else if is_dir m then Ok MatchSubpath else Ok MatchLiteral
  | Err NotFound => Ok MatchSubpath
  | Err source => Err (PathMetadata p source)
  end.

(** One root of [add_roots] *)
Definition root_filter (action prefix : string) (denied write_denied : list path) (globs : list string)
    (st : ProfileBuilder * list Filter) (entry : nat * path) : profile (ProfileBuilder * list Filter) :=
  let '(b, filters) := st in
  let '(index, p) := entry in
  let name := indexed prefix index in
  b ← add_definition b name p;
  m ← path_match_for_root p;
  let root := match m with MatchLiteral => FLiteral name | MatchSubpath => FSubpath name end in
  Ok (b, filters ++ [FAll (root :: exclusions_within "DENIED_PATH" denied p ++ glob_exclusions globs ++
           (if String.eqb action "file-write*" then exclusions_within "WRITE_DENIED_PATH" write_denied p else []))]).

Definition add_roots (action prefix : string) (roots denied : list path) (globs : list string) (write_denied : list path)
    (b : ProfileBuilder) : profile ProfileBuilder :=
  match roots with
  | [] => Ok b
  | _ =>
      st ← foldM (root_filter action prefix denied write_denied globs) (b, []) (enumerate roots);
      Ok (push_rule st.1 (allow_rule [action] st.2))
  end.

Definition add_full_root (action : string) (denied write_denied : list path) (b : ProfileBuilder) : ProfileBuilder :=
  let exclusions prefix excluded := mjoin ((fun '(i, _) => push_path_exclusion prefix i) <$> enumerate (A := path) excluded) in
  push_rule b (allow_rule [action]
    [FAll (FSubpathText "/" :: exclusions "DENIED_PATH" denied ++
       (if String.eqb action "file-write*" then exclusions "WRITE_DENIED_PATH" write_denied else []))]).

Definition add_executable_roots (roots denied : list path) (globs : list string) (b : ProfileBuilder) : profile ProfileBuilder :=
  match roots with
  | [] => Ok b
  | _ =>
      st ← foldM (fun '(b, filters) '(index, p) =>
             b ← add_definition b (indexed "EXECUTABLE_ROOT" index) p;
             Ok (b, filters ++ [FAll (FSubpath (indexed "EXECUTABLE_ROOT" index) ::
                      exclusions_within "DENIED_PATH" denied p ++ glob_exclusions globs)])) (b, []) (enumerate roots);
      Ok (push_rule st.1 (allow_rule ["file-map-executable"] st.2))
  end.

Definition add_root_metadata_ancestors (roots : list path) (b : ProfileBuilder) : profile ProfileBuilder :=
  let ancestors := snd <$> foldl set_put [] (mjoin (path_ancestors <$> roots)) in
  match ancestors with
  | [] => Ok b
  | _ =>
      st ← foldM (fun '(b, filters) '(index, p) =>
             b ← add_definition b (indexed "ROOT_METADATA_ANCESTOR" index) p;
             Ok (b, filters ++ [FLiteral (indexed "ROOT_METADATA_ANCESTOR" index)])) (b, []) (enumerate ancestors);
      Ok (push_rule st.1 (allow_rule ["file-read-metadata"; "file-test-existence"] st.2))
  end.

(** [Path::parent] of a pattern, as text *)
Definition text_parent (p : path) : option path :=
  match skip_trivial (reverse (str_split SEP p)) with
  | [] => None
  | _ :: rest =>
      let pieces := reverse (skip_trivial rest) in
      Some match pieces with [] => if is_absolute p then "/" else EmptyString
                           | _ => (if is_absolute p && negb (starts_with_char SEP (String.concat "/" pieces)) then "/" else EmptyString)
                                  +:+ String.concat "/" pieces end
  end.

(** [Path::ancestors().skip(1)]; every parent is shorter. *)
Fixpoint text_ancestors (fuel : nat) (p : path) : list path :=
  match fuel, text_parent p with
  | S fuel, Some q => q :: text_ancestors fuel q
  | _, _ => []
  end.

Definition glob_deny_rules (pattern : string) : list Rule :=
  (fun operation => deny_rule operation (FRegex (regex_of pattern))) <$>
    ["file-read*"; "file-write*"; "file-write-create"; "file-write-unlink"].

Definition glob_ancestor_denies (pattern : string) : list Rule :=
  (fun ancestor => deny_rule "file-write-unlink"
     (FAll [FDirectory; FRegex (escape_regex_literal (glob_to_seatbelt_regex_exact (to_string_lossy ancestor)))])) <$>
  text_ancestors (String.length pattern) pattern.

Definition add_denied_glob_rules (patterns : list string) (b : ProfileBuilder) : profile ProfileBuilder :=
  foldM (fun b pattern =>
    reject contains_char NUL pattern with GlobContainsNul pattern ;;
    Ok {| pb_rules := pb_rules b ++ glob_deny_rules pattern ++ glob_ancestor_denies pattern;
          pb_definitions := pb_definitions b |}) b patterns.

Definition add_writable_root_anchor_denies (roots : list path) (b : ProfileBuilder) : ProfileBuilder :=
  foldl (fun b '(index, _) => push_rule b (deny_rule "file-write-unlink" (FAll [FLiteral (indexed "WRITE_ROOT" index); FDirectory])))
    b (enumerate roots).

Definition add_protected_ancestor_denies (plan : MacosFilesystemPlan) (b : ProfileBuilder) : profile ProfileBuilder :=
  let protected := denied_paths plan ++ write_denied_paths plan in
  let below_root ancestor := existsb (fun root => is_within ancestor root) (write_roots plan) in
  let ancestors := snd <$> foldl set_put [] (filter (fun ancestor => below_root ancestor = true)
                     (mjoin ((fun p => tail (path_ancestors p)) <$> protected))) in
  foldM (fun b '(index, ancestor) =>
    b ← add_definition b (indexed "PROTECTED_ANCESTOR" index) ancestor;
    Ok (push_rule b (deny_rule "file-write-unlink" (FAll [FDirectory; FLiteral (indexed "PROTECTED_ANCESTOR" index)]))))
    b (enumerate ancestors).

Definition define_paths (prefix : string) (paths : list path) (b : ProfileBuilder) : profile ProfileBuilder :=
  foldM (fun b '(index, p) => add_definition b (indexed prefix index) p) b (enumerate paths).

(** The denials of each path at the end of [add_filesystem] *)
Definition path_denials (operations : list string) (prefix : string) (paths : list path) : list Rule :=
  mjoin ((fun '(index, _) => (fun operation => deny_rule operation (FSubpath (indexed prefix index))) <$> operations) <$> enumerate paths).

Definition deny_paths (operations : list string) (prefix : string) (paths : list path) (b : ProfileBuilder) : ProfileBuilder :=
  {| pb_rules := pb_rules b ++ path_denials operations prefix paths; pb_definitions := pb_definitions b |}.

Definition add_filesystem (plan : MacosFilesystemPlan) (b : ProfileBuilder) : profile ProfileBuilder :=
  b ← define_paths "DENIED_PATH" (denied_paths plan) b;
  b ← define_paths "WRITE_DENIED_PATH" (write_denied_paths plan) b;
  b ← if plan_unrestricted plan
      then Ok (add_full_root "file-write*" (denied_paths plan) (write_denied_paths plan)
                 (add_full_root "file-read*" (denied_paths plan) [] b))
      else
        b ← add_roots "file-read*" "READ_ROOT" (read_roots plan) (denied_paths plan) (denied_globs plan) [] b;
        b ← add_roots "file-write*" "WRITE_ROOT" (write_roots plan) (denied_paths plan) (denied_globs plan)
              (write_denied_paths plan) b;
        add_root_metadata_ancestors (read_roots plan ++ executable_roots plan) b;
  b ← add_executable_roots (executable_roots plan) (denied_paths plan) (denied_globs plan) b;
  b ← add_denied_glob_rules (denied_globs plan) b;
  let b := add_writable_root_anchor_denies (write_roots plan) b in
  b ← add_protected_ancestor_denies plan b;
  let b := deny_paths ["file-read*"; "file-write*"; "file-write-unlink"] "DENIED_PATH" (denied_paths plan) b in
  Ok (deny_paths ["file-write*"; "file-write-unlink"] "WRITE_DENIED_PATH" (write_denied_paths plan) b).

End build.

(** * Ancestors of a pattern *)

(** The characters of the pieces, each with a separator *)
Definition pieces_weight (l : list string) : nat := sum_list_with (fun s => S (String.length s)) l.

Lemma pieces_weight_app l l' : pieces_weight (l ++ l') = pieces_weight l + pieces_weight l'.
Proof. apply sum_list_with_app. Qed.

Lemma pieces_weight_reverse l : pieces_weight (reverse l) = pieces_weight l.
Proof. apply sum_list_with_reverse. Qed.

Lemma pieces_weight_split s : pieces_weight (str_split SEP s) = S (String.length s).
Proof.
  unfold pieces_weight, str_split. generalize (Ascii.eqb SEP). intros f. induction s as [|a s IH]; [done|]. simpl.
  destruct (f a); simpl; [by rewrite IH|]. destruct (str_split_by_cons f s) as (x & l & Hs). rewrite Hs in *. simpl in *. lia.
Qed.

Lemma pieces_weight_concat x l : S (String.length (String.concat "/" (x :: l))) = pieces_weight (x :: l).
Proof.
  revert x. induction l as [|y l IH]; intros x; [unfold pieces_weight; simpl; lia|].
  change (String.concat "/" (x :: y :: l)) with (x +:+ "/" +:+ String.concat "/" (y :: l)).
  change (pieces_weight (x :: y :: l)) with (S (String.length x) + pieces_weight (y :: l)). rewrite <- IH, !string_app_length. simpl. lia.
Qed.

Lemma skip_trivial_weight l : pieces_weight (skip_trivial l) <= pieces_weight l.
Proof. unfold pieces_weight. induction l as [|x l IH]; simpl; [done|]. destruct (trivial_piece x); simpl; lia. Qed.

Lemma skip_trivial_head l x rest : skip_trivial l = x :: rest -> 1 <= String.length x.
Proof.
  induction l as [|y l IH]; simpl; [done|]. destruct (trivial_piece y) eqn:Hy; [done|]. intros [= <- _].
  apply bool_decide_eq_false in Hy. destruct y; [|simpl; lia]. exfalso. by apply Hy; left.
Qed.

Lemma skip_trivial_last l x rest : skip_trivial (l ++ [EmptyString]) = x :: rest -> 1 <= pieces_weight rest.
Proof.
  induction l as [|y l IH]; simpl; [done|]. destruct (trivial_piece y); [done|]. intros [= _ <-].
  rewrite pieces_weight_app. unfold pieces_weight. simpl. lia.
Qed.

Lemma text_parent_shorter p q : text_parent p = Some q -> String.length q < String.length p.
Proof.
  unfold text_parent. destruct (skip_trivial (reverse (str_split SEP p))) as [|x rest] eqn:Hs; [done|]. intros [= <-].
  pose proof (skip_trivial_head _ _ _ Hs) as Hx. pose proof (skip_trivial_weight (reverse (str_split SEP p))) as Hw.
  rewrite Hs, pieces_weight_reverse, pieces_weight_split in Hw. change (pieces_weight (x :: rest)) with (S (String.length x) + pieces_weight rest) in Hw.
  pose proof (skip_trivial_weight rest) as Hr. rewrite <- pieces_weight_reverse in Hr.
  destruct (reverse (skip_trivial rest)) as [|y l].
  - destruct (is_absolute p) eqn:Ha; simpl; [|lia]. destruct p as [|a p]; [done|].
    assert (str_split SEP (String a p) = EmptyString :: str_split SEP p) as Hsplit by (apply Ascii.eqb_eq in Ha; by subst a).
    rewrite Hsplit, reverse_cons in Hs. apply skip_trivial_last in Hs. lia.
  - rewrite <- pieces_weight_concat in Hr. rewrite string_app_length. destruct (_ && _); simpl String.length at 1; lia.
Qed.

(** The length of the pattern is enough fuel. *)
Lemma text_ancestors_enough n m p : String.length p <= n -> String.length p <= m -> text_ancestors n p = text_ancestors m p.
Proof.
  revert m p. induction n as [|n IH]; intros m p Hn Hm.
  - assert (text_parent p = None) as Hp by (destruct p; [done|simpl in Hn; lia]). destruct m; [done|]. simpl. by rewrite Hp.
  - destruct m as [|m]; simpl; destruct (text_parent p) as [q|] eqn:Hp; [|done| |done];
      apply text_parent_shorter in Hp; [lia|]. f_equal. apply IH; lia.
Qed.

(** * Seatbelt *)

(** The value of a parameter *)
Definition param (defs : list SeatbeltDefinition) (name : string) : option path :=
  (fun e => def_value e.2) <$> list_find (fun d => def_name d = name) defs.

(** [file-write*] names every operation that begins with [file-write]. *)
Definition covers (pattern operation : string) : bool :=
  if String.eqb (str_drop (String.length pattern - 1) pattern) "*"
  then String.prefix (str_take (String.length pattern - 1) pattern) operation
  else String.eqb pattern operation.

(** Seatbelt belongs to macOS.  [filter_holds] says whether a filter holds of a
    path, which names a directory or not; [sandbox_allows] whether a process
    under the rules may perform an operation on the path. *)
Class Seatbelt := {
  filter_holds : list SeatbeltDefinition -> Filter -> bool -> path -> bool;
  sandbox_allows : list Rule -> list SeatbeltDefinition -> bool -> string -> path -> bool
}.

Definition applies `{!Seatbelt} (defs : list SeatbeltDefinition) (directory : bool) (operation : string) (p : path) (r : Rule) : bool :=
  existsb (fun pattern => covers pattern operation) (rule_operations r) &&
  existsb (fun f => filter_holds defs f directory p) (rule_filters r).

(** What the profile relies on: everything is denied by default, the last rule
    that applies decides, and the filters compare paths by components.  The
    kernel asks about resolved paths. *)
Class SeatbeltLaws `{!Seatbelt} : Prop := {
  deny_default defs directory operation p : sandbox_allows [] defs directory operation p = false;
  last_rule_decides rules r defs directory operation p :
    sandbox_allows (rules ++ [r]) defs directory operation p =
    if applies defs directory operation p r then rule_allow r else sandbox_allows rules defs directory operation p;
  holds_literal defs name directory p :
    filter_holds defs (FLiteral name) directory p = match param defs name with Some q => paths_equal p q | None => false end;
  holds_subpath defs name directory p :
    filter_holds defs (FSubpath name) directory p = match param defs name with Some q => is_within p q | None => false end;
  holds_subpath_text defs q directory p : filter_holds defs (FSubpathText q) directory p = is_within p q;
  holds_not defs f directory p : filter_holds defs (FNot f) directory p = negb (filter_holds defs f directory p);
  holds_all defs fs directory p :
    filter_holds defs (FAll fs) directory p = forallb (fun f => filter_holds defs f directory p) fs
}.

(** * Lists of rules *)

Section rules.
Context `{!Seatbelt} `{!SeatbeltLaws}.
Context (defs : list SeatbeltDefinition) (directory : bool) (operation : string) (p : path).

Lemma allows_grants rules grants :
  Forall (fun r => rule_allow r = true) grants ->
  sandbox_allows (rules ++ grants) defs directory operation p =
  sandbox_allows rules defs directory operation p || existsb (applies defs directory operation p) grants.
Proof.
  induction grants as [|r grants IH] using rev_ind; [intros _; by rewrite app_nil_r, orb_false_r|].
  rewrite Forall_app, Forall_singleton, existsb_app, app_assoc, last_rule_decides. intros [Hg ->]. simpl. rewrite IH, orb_false_r by done.
  destruct (applies _ _ _ _ r); [by rewrite !orb_true_r|by rewrite orb_false_r].
Qed.

Lemma allows_denials rules denials :
  Forall (fun r => rule_allow r = false) denials ->
  sandbox_allows (rules ++ denials) defs directory operation p =
  sandbox_allows rules defs directory operation p && negb (existsb (applies defs directory operation p) denials).
Proof.
  induction denials as [|r denials IH] using rev_ind; [intros _; by rewrite app_nil_r, andb_true_r|].
  rewrite Forall_app, Forall_singleton, existsb_app, app_assoc, last_rule_decides. intros [Hg ->]. simpl. rewrite IH, orb_false_r by done.
  destruct (applies _ _ _ _ r); [by rewrite orb_true_r, andb_false_r|by rewrite orb_false_r].
Qed.

Lemma applies_deny pattern f :
  applies defs directory operation p (deny_rule pattern f) = covers pattern operation && filter_holds defs f directory p.
Proof. unfold applies. simpl. by rewrite !orb_false_r. Qed.

Lemma applies_allow pattern fs :
  applies defs directory operation p (allow_rule [pattern] fs) =
  covers pattern operation && existsb (fun f => filter_holds defs f directory p) fs.
Proof. unfold applies. simpl. by rewrite !orb_false_r. Qed.

End rules.

Lemma prefix_split s t : String.prefix s t = true -> exists rest, t = s +:+ rest.
Proof.
  revert t. induction s as [|a s IH]; intros t; [by exists t|]. destruct t as [|c t]; [done|]. simpl.
  destruct (ascii_dec a c) as [<-|]; [|done]. intros (rest & ->)%IH. by exists rest.
Qed.

(** * Definitions by name *)

Definition named (prefix : string) (e : nat * path) : SeatbeltDefinition := {| def_name := indexed prefix e.1; def_value := e.2 |}.

#[global] Instance indexed_inj prefix : Inj (=) (=) (indexed prefix).
Proof. unfold indexed. intros i j H. apply (inj (String.append _)), (inj (String.append _)), (inj pretty) in H. lia. Qed.

Lemma enumerate_lookup {A} (l : list A) i x : (i, x) ∈ enumerate l <-> l !! i = Some x.
Proof.
  unfold enumerate. rewrite list_elem_of_lookup. setoid_rewrite lookup_zip_Some. split.
  - intros (j & [Hj _]%lookup_seq & Hx). simpl in *. by subst.
  - intros Hx. exists i. split; [|done]. apply lookup_seq. split; [done|by eapply lookup_lt_Some].
Qed.

Lemma param_here prefix l rest i q : (i, q) ∈ enumerate l -> param ((named prefix <$> enumerate l) ++ rest) (indexed prefix i) = Some q.
Proof.
  intros Hq. unfold param. destruct (list_find _ _) as [[j d]|] eqn:E.
  - apply list_find_Some in E as (Hj & Hname & Hfirst). simpl. f_equal. destruct (decide (j < length (enumerate l))) as [Hlt|Hge].
    + rewrite lookup_app_l in Hj by (by rewrite length_fmap). rewrite list_lookup_fmap in Hj.
      apply fmap_Some in Hj as ([k r] & Hk & ->). simpl in *. apply (inj (indexed prefix)) in Hname as ->.
      apply list_elem_of_lookup_2 in Hk. rewrite !enumerate_lookup in *. congruence.
    + exfalso. apply list_elem_of_lookup in Hq as [k Hk]. pose proof (lookup_lt_Some _ _ _ Hk).
      eapply (Hfirst k (named prefix (i, q))); [|lia|reflexivity]. by rewrite lookup_app_l, list_lookup_fmap, Hk by (by rewrite length_fmap).
  - apply list_find_None in E. rewrite Forall_app, Forall_fmap, !Forall_forall in E. destruct E as [E _]. by destruct (E _ Hq).
Qed.

Lemma param_skip prefix other l rest i :
  (forall j, indexed other j <> indexed prefix i) ->
  param ((named other <$> l) ++ rest) (indexed prefix i) = param rest (indexed prefix i).
Proof.
  intros Hne. unfold param. induction l as [|[j q] l IH]; simpl; [done|].
  rewrite decide_False by (simpl; auto). rewrite <- IH. destruct (list_find _ _) as [[? ?]|]; done.
Qed.

(** * The steps of [add_filesystem] *)

(** A step appends the definitions [ds] and the rules [rs]. *)
Definition grows (b b' : ProfileBuilder) (ds : list SeatbeltDefinition) (rs : list Rule) : Prop :=
  pb_definitions b' = pb_definitions b ++ ds /\ pb_rules b' = pb_rules b ++ rs.

Lemma grows_refl b : grows b b [] [].
Proof. split; by rewrite app_nil_r. Qed.

Lemma grows_trans b1 b2 b3 ds ds' rs rs' : grows b1 b2 ds rs -> grows b2 b3 ds' rs' -> grows b1 b3 (ds ++ ds') (rs ++ rs').
Proof. intros [D R] [D' R']. split; [by rewrite D', D, app_assoc|by rewrite R', R, app_assoc]. Qed.

Lemma push_rule_grows b r : grows b (push_rule b r) [] [r].
Proof. split; [by rewrite app_nil_r|done]. Qed.

Lemma add_definition_grows b name value b' :
  add_definition b name value = Ok b' -> grows b b' [{| def_name := name; def_value := value |}] [].
Proof. unfold add_definition. intros H. res_inv. split; simpl; [done|by rewrite app_nil_r]. Qed.

(** A loop over numbered paths that defines each under its number *)
Lemma loop_grows {S} (proj : S -> ProfileBuilder) prefix (P : Rule -> Prop) (f : S -> nat * path -> profile S) l st st' :
  (forall s e s', f s e = Ok s' -> exists rs, grows (proj s) (proj s') [named prefix e] rs /\ Forall P rs) ->
  foldM f st l = Ok st' -> exists rs, grows (proj st) (proj st') (named prefix <$> l) rs /\ Forall P rs.
Proof.
  intros Hf. revert st. induction l as [|e l IH]; intros st; simpl.
  - intros [= <-]. exists []. split; [apply grows_refl|done].
  - intros (s & Hs & Hl)%bind_Ok. destruct (Hf _ _ _ Hs) as (rs & Hg & HP). destruct (IH _ Hl) as (rs' & Hg' & HP').
    exists (rs ++ rs'). split; [exact (grows_trans _ _ _ _ _ _ _ Hg Hg')|by apply Forall_app].
Qed.

Lemma define_paths_grows prefix paths b b' :
  define_paths prefix paths b = Ok b' -> grows b b' (named prefix <$> enumerate paths) [].
Proof.
  intros H. destruct (loop_grows id prefix (fun _ => False) _ _ _ _ ltac:(clear; intros s [i q] s' Hs; exists []; split;
    [exact (add_definition_grows _ _ _ _ Hs)|done]) H) as (rs & Hg & Hrs). by destruct rs; [|inversion Hrs].
Qed.

(** The loops that collect one filter for each path *)
Lemma collect_filters_grows prefix (adds : nat * path -> Filter -> Prop) (f : ProfileBuilder * list Filter -> nat * path -> profile (ProfileBuilder * list Filter)) l b st :
  (forall s e s', f s e = Ok s' -> grows s.1 s'.1 [named prefix e] [] /\ forall x, x ∈ s'.2 <-> x ∈ s.2 \/ adds e x) ->
  foldM f (b, []) l = Ok st ->
  grows b st.1 (named prefix <$> l) [] /\ forall x, x ∈ st.2 <-> exists e, e ∈ l /\ adds e x.
Proof.
  intros Hf H. split.
  - destruct (loop_grows fst prefix (fun _ => False) _ _ _ _ ltac:(intros s e s' Hs; exists []; split; [by apply Hf|done]) H)
      as (rs & Hg & Hrs). by destruct rs; [|inversion Hrs].
  - intros x. rewrite (foldM_adds (fun s x => x ∈ s.2) adds _ _ _ _ (fun s e s' _ Hs => proj2 (Hf s e s' Hs)) H x). simpl.
    rewrite elem_of_nil. naive_solver.
Qed.

Section steps.
Context (h : MacHost).

(** The filter of one root *)
Definition root_grant (action prefix : string) (denied write_denied : list path) (globs : list string) (e : nat * path) (f : Filter) : Prop :=
  exists m, path_match_for_root h e.2 = Ok m /\
  f = FAll ((match m with MatchLiteral => FLiteral (indexed prefix e.1) | MatchSubpath => FSubpath (indexed prefix e.1) end)
        :: exclusions_within "DENIED_PATH" denied e.2 ++ glob_exclusions globs ++
           (if String.eqb action "file-write*" then exclusions_within "WRITE_DENIED_PATH" write_denied e.2 else [])).

Lemma root_filter_grows action prefix denied write_denied globs s e s' :
  root_filter h action prefix denied write_denied globs s e = Ok s' ->
  grows s.1 s'.1 [named prefix e] [] /\ forall f, f ∈ s'.2 <-> f ∈ s.2 \/ root_grant action prefix denied write_denied globs e f.
Proof.
  destruct s as [b fs], e as [i root]. unfold root_filter, root_grant. simpl. intros (b1 & Hb%add_definition_grows & (m & Hm & [= <-])%bind_Ok)%bind_Ok.
  split; [exact Hb|]. intros f. simpl. rewrite Hm, elem_of_app, list_elem_of_singleton. naive_solver.
Qed.

Lemma add_roots_grows action prefix roots denied globs write_denied b b' :
  add_roots h action prefix roots denied globs write_denied b = Ok b' ->
  exists fs, grows b b' (named prefix <$> enumerate roots) (if roots then [] else [allow_rule [action] fs]) /\
    forall f, f ∈ fs <-> exists e, e ∈ enumerate roots /\ root_grant action prefix denied write_denied globs e f.
Proof.
  unfold add_roots. destruct roots as [|root roots].
  - intros [= <-]. exists []. split; [apply grows_refl|]. intros f. split; [by intros ?%elem_of_nil|by intros (e & ?%elem_of_nil & _)].
  - intros ([b1 fs] & H & [= <-])%bind_Ok.
    apply (collect_filters_grows prefix (root_grant action prefix denied write_denied globs)) in H as [Hg Hfs];
      [|intros; by apply root_filter_grows].
    exists fs. split; [|done]. rewrite <- (app_nil_r (named prefix <$> _)). exact (grows_trans _ _ _ _ _ _ _ Hg (push_rule_grows _ _)).
Qed.

(** Steps whose rules grant no other operation *)
Definition grants_only (operations : list string) (r : Rule) : Prop := rule_allow r = true /\ rule_operations r = operations.

Lemma set_puts_elem l acc e : e ∈ foldl set_put acc l -> e ∈ acc \/ e.2 ∈ l.
Proof.
  revert acc. induction l as [|x l IH]; intros acc; simpl; [by left|]. intros [He|He]%IH; [|by right; right].
  unfold set_put in He. destruct (bt_get _ acc); [by left|]. apply bt_insert_elem in He as [[-> _]|He]; [right; left|by left].
Qed.

(** The rule that names the ancestors, by the definitions of [paths] *)
Definition names_ancestors (roots paths : list path) (r : Rule) : Prop :=
  grants_only ["file-read-metadata"; "file-test-existence"] r /\
  (forall f, f ∈ rule_filters r -> exists e, e ∈ enumerate paths /\ f = FLiteral (indexed "ROOT_METADATA_ANCESTOR" e.1)) /\
  forall q, q ∈ paths -> exists root, root ∈ roots /\ q ∈ path_ancestors root.

Lemma add_root_metadata_ancestors_grows roots b b' :
  add_root_metadata_ancestors roots b = Ok b' ->
  exists paths rs, grows b b' (named "ROOT_METADATA_ANCESTOR" <$> enumerate paths) rs /\ Forall (names_ancestors roots paths) rs.
Proof.
  unfold add_root_metadata_ancestors. set (paths := snd <$> _). intros H. exists paths.
  assert (forall q, q ∈ paths -> exists root, root ∈ roots /\ q ∈ path_ancestors root) as Hpaths.
  { intros q (e & -> & [He%elem_of_nil|(l & Hl & (root & -> & Hroot)%list_elem_of_fmap)%list_elem_of_join]%set_puts_elem)%list_elem_of_fmap; [done|eauto]. }
  clearbody paths. destruct paths as [|q paths].
  - injection H as <-. exists []. split; [apply grows_refl|done].
  - apply bind_Ok in H as ([b1 fs] & H & [= <-]).
    apply (collect_filters_grows "ROOT_METADATA_ANCESTOR" (fun e f => f = FLiteral (indexed "ROOT_METADATA_ANCESTOR" e.1))) in H as [Hg Hfs].
    + exists [allow_rule ["file-read-metadata"; "file-test-existence"] fs].
      split; [|constructor; [split_and!; [done|intros f; apply Hfs|done]|done]].
      rewrite <- (app_nil_r (named _ <$> _)). exact (grows_trans _ _ _ _ _ _ _ Hg (push_rule_grows _ _)).
    + intros [b0 fs0] [i r] s'. intros (b2 & Hb%add_definition_grows & [= <-])%bind_Ok. split; [exact Hb|].
      intros f. simpl. by rewrite elem_of_app, list_elem_of_singleton.
Qed.

Lemma add_executable_roots_grows roots denied globs b b' :
  add_executable_roots roots denied globs b = Ok b' ->
  exists rs, grows b b' (named "EXECUTABLE_ROOT" <$> enumerate roots) rs /\ Forall (grants_only ["file-map-executable"]) rs.
Proof.
  unfold add_executable_roots. destruct roots as [|q roots].
  - intros [= <-]. exists []. split; [apply grows_refl|done].
  - intros ([b1 fs] & H & [= <-])%bind_Ok.
    apply (collect_filters_grows "EXECUTABLE_ROOT" (fun e f => f = FAll (FSubpath (indexed "EXECUTABLE_ROOT" e.1) ::
      exclusions_within "DENIED_PATH" denied e.2 ++ glob_exclusions globs))) in H as [Hg _].
    + exists [allow_rule ["file-map-executable"] fs]. split; [|by repeat constructor].
      rewrite <- (app_nil_r (named _ <$> _)). exact (grows_trans _ _ _ _ _ _ _ Hg (push_rule_grows _ _)).
    + intros [b0 fs0] [i r] s'. intros (b2 & Hb%add_definition_grows & [= <-])%bind_Ok. split; [exact Hb|].
      intros f. simpl. by rewrite elem_of_app, list_elem_of_singleton.
Qed.

Definition unlink_denial (r : Rule) : Prop := rule_allow r = false /\ rule_operations r = ["file-write-unlink"].

(** The rules of the globs: four for each, and denials of unlinking *)
Lemma add_denied_glob_rules_grows globs b b' :
  add_denied_glob_rules globs b = Ok b' ->
  exists rs, grows b b' [] rs /\ (forall g r, g ∈ globs -> r ∈ glob_deny_rules g -> r ∈ rs) /\
    forall r, r ∈ rs -> unlink_denial r \/ exists g, g ∈ globs /\ r ∈ glob_deny_rules g.
Proof.
  unfold add_denied_glob_rules. revert b. induction globs as [|g globs IH]; intros b; cbn [foldM].
  - intros [= <-]. exists []. split_and!; [apply grows_refl|by intros ? ? ?%elem_of_nil|by intros ? ?%elem_of_nil].
  - intros (b1 & H1 & (rs & Hg & Hin & Hout)%IH)%bind_Ok. res_inv.
    exists ((glob_deny_rules g ++ glob_ancestor_denies g) ++ rs).
    split_and!; [refine (grows_trans _ _ _ [] [] _ _ _ Hg); by split; [symmetry; apply app_nil_r|]| |].
    + intros g' r. rewrite !elem_of_app, elem_of_cons. intros [->|Hg'] Hr; eauto.
    + intros r. rewrite !elem_of_app. intros [[Hr|Hr]|Hr]; [right; exists g; split; [apply list_elem_of_here|done]| |].
      * left. apply list_elem_of_fmap in Hr as (q & -> & _). done.
      * destruct (Hout _ Hr) as [?|(g' & ? & ?)]; [by left|right; exists g'; split; [by right|done]].
Qed.

Lemma add_writable_root_anchor_denies_grows roots b :
  exists rs, grows b (add_writable_root_anchor_denies roots b) [] rs /\ Forall unlink_denial rs.
Proof.
  unfold add_writable_root_anchor_denies. generalize (enumerate roots). intros l. revert b. induction l as [|[i q] l IH]; intros b; simpl.
  - exists []. split; [apply grows_refl|done].
  - destruct (IH (push_rule b (deny_rule "file-write-unlink" (FAll [FLiteral (indexed "WRITE_ROOT" i); FDirectory])))) as (rs & Hg & Hrs).
    eexists. split; [exact (grows_trans _ _ _ [] [] _ _ (push_rule_grows _ _) Hg)|by repeat constructor].
Qed.

Lemma add_protected_ancestor_denies_grows plan b b' :
  add_protected_ancestor_denies plan b = Ok b' ->
  exists paths rs, grows b b' (named "PROTECTED_ANCESTOR" <$> enumerate paths) rs /\ Forall unlink_denial rs.
Proof.
  unfold add_protected_ancestor_denies. cbv zeta. set (paths := snd <$> _). intros H. exists paths.
  apply (loop_grows id "PROTECTED_ANCESTOR" unlink_denial _ _ _ _) in H; [exact H|].
  intros s [i q] s'. intros (b1 & Hb%add_definition_grows & [= <-])%bind_Ok. eexists. split.
  - exact (grows_trans _ _ _ _ [] [] _ Hb (push_rule_grows _ _)).
  - by repeat constructor.
Qed.

End steps.

Lemma deny_paths_rule operations prefix paths r :
  r ∈ path_denials operations prefix paths <->
  exists i q operation, (i, q) ∈ enumerate paths /\ operation ∈ operations /\ r = deny_rule operation (FSubpath (indexed prefix i)).
Proof.
  unfold path_denials. rewrite list_elem_of_join. setoid_rewrite list_elem_of_fmap. split.
  - intros (l & Hr & ([i q] & -> & Hi)). apply list_elem_of_fmap in Hr as (o & -> & Ho). by exists i, q, o.
  - intros (i & q & o & Hi & Ho & ->). eexists. split; [|by exists (i, q)]. apply list_elem_of_fmap. eauto.
Qed.

(** * The whole profile *)

(** The rules that grant [action], and the filters they grant it by *)
Definition grants_all `{!Seatbelt} (action : string) (fs : list Filter) (rs : list Rule) : Prop :=
  Forall (fun r => rule_allow r = true) rs /\
  forall defs directory operation p, existsb (applies defs directory operation p) rs =
    covers action operation && existsb (fun f => filter_holds defs f directory p) fs.

(** The numbered exclusions of every path *)
Definition all_exclusions (prefix : string) (excluded : list path) : list Filter :=
  mjoin ((fun '(i, _) => push_path_exclusion prefix i) <$> enumerate excluded).

Definition full_grant (write : bool) (plan : MacosFilesystemPlan) : Filter :=
  FAll (FSubpathText "/" :: all_exclusions "DENIED_PATH" (denied_paths plan) ++
    (if write then all_exclusions "WRITE_DENIED_PATH" (write_denied_paths plan) else [])).

Definition plan_roots (write : bool) (plan : MacosFilesystemPlan) : list path :=
  if write then write_roots plan else read_roots plan.
Definition plan_denials (write : bool) (plan : MacosFilesystemPlan) : list path :=
  denied_paths plan ++ if write then write_denied_paths plan else [].
Definition action_of (write : bool) : string := if write then "file-write*" else "file-read*".
Definition root_prefix (write : bool) : string := if write then "WRITE_ROOT" else "READ_ROOT".

Definition filter_of (h : MacHost) (plan : MacosFilesystemPlan) (write : bool) (f : Filter) : Prop :=
  if plan_unrestricted plan then f = full_grant write plan
  else exists e, e ∈ enumerate (plan_roots write plan) /\
    root_grant h (action_of write) (root_prefix write) (denied_paths plan) (if write then write_denied_paths plan else [])
      (denied_globs plan) e f.

Definition is_tail_rule (plan : MacosFilesystemPlan) (r : Rule) : Prop :=
  (exists g, g ∈ denied_globs plan /\ r ∈ glob_deny_rules g) \/
  (exists i q operation, (i, q) ∈ enumerate (denied_paths plan) /\ operation ∈ ["file-read*"; "file-write*"; "file-write-unlink"] /\
     r = deny_rule operation (FSubpath (indexed "DENIED_PATH" i))) \/
  (exists i q operation, (i, q) ∈ enumerate (write_denied_paths plan) /\ operation ∈ ["file-write*"; "file-write-unlink"] /\
     r = deny_rule operation (FSubpath (indexed "WRITE_DENIED_PATH" i))).

(** The rules of a plan: the two grants, grants of other operations, denials *)
Record assembled `{!Seatbelt} (h : MacHost) (plan : MacosFilesystemPlan) (b pb : ProfileBuilder)
    (grants : bool -> list Rule) (others tail : list Rule) (filters : bool -> list Filter) : Prop := {
  as_rules : pb_rules pb = pb_rules b ++ (grants false ++ grants true ++ others) ++ tail;
  as_grants write : grants_all (action_of write) (filters write) (grants write);
  as_filters write f : f ∈ filters write <-> filter_of h plan write f;
  as_others : Forall (fun r => grants_only ["file-read-metadata"; "file-test-existence"] r \/ grants_only ["file-map-executable"] r) others;
  as_metadata r f : r ∈ others -> grants_only ["file-read-metadata"; "file-test-existence"] r -> f ∈ rule_filters r ->
    exists name root q, f = FLiteral name /\ param (pb_definitions pb) name = Some q /\
      root ∈ read_roots plan ++ executable_roots plan /\ q ∈ path_ancestors root;
  as_tail_in r : is_tail_rule plan r -> r ∈ tail;
  as_tail_out r : r ∈ tail -> unlink_denial r \/ is_tail_rule plan r;
  as_denied i q : (i, q) ∈ enumerate (denied_paths plan) -> param (pb_definitions pb) (indexed "DENIED_PATH" i) = Some q;
  as_write_denied i q : (i, q) ∈ enumerate (write_denied_paths plan) -> param (pb_definitions pb) (indexed "WRITE_DENIED_PATH" i) = Some q;
  as_roots write i q : plan_unrestricted plan = false ->
    (i, q) ∈ enumerate (plan_roots write plan) -> param (pb_definitions pb) (indexed (root_prefix write) i) = Some q;
  as_sockets i rest :
    param (pb_definitions pb ++ rest) (indexed "UNIX_SOCKET_PATH" i) = param rest (indexed "UNIX_SOCKET_PATH" i)
}.

Section assembly.
Context `{!Seatbelt} `{!SeatbeltLaws} (h : MacHost).

Lemma single_grant action fs : grants_all action fs [allow_rule [action] fs].
Proof. split; [by repeat constructor|]. intros. simpl. by rewrite orb_false_r, applies_allow. Qed.

(** The grants of a plan *)
Lemma add_grants_grows plan b b' :
  (if plan_unrestricted plan
   then Ok (add_full_root "file-write*" (denied_paths plan) (write_denied_paths plan) (add_full_root "file-read*" (denied_paths plan) [] b))
   else
     b ← add_roots h "file-read*" "READ_ROOT" (read_roots plan) (denied_paths plan) (denied_globs plan) [] b;
     b ← add_roots h "file-write*" "WRITE_ROOT" (write_roots plan) (denied_paths plan) (denied_globs plan) (write_denied_paths plan) b;
     add_root_metadata_ancestors (read_roots plan ++ executable_roots plan) b) = Ok b' ->
  exists grants filters others paths,
    grows b b' (if plan_unrestricted plan then [] else (named "READ_ROOT" <$> enumerate (read_roots plan)) ++
                  (named "WRITE_ROOT" <$> enumerate (write_roots plan)) ++ (named "ROOT_METADATA_ANCESTOR" <$> enumerate paths))
      (grants false ++ grants true ++ others) /\
    (forall write, grants_all (action_of write) (filters write) (grants write)) /\
    (forall write f, f ∈ filters write <-> filter_of h plan write f) /\
    Forall (names_ancestors (read_roots plan ++ executable_roots plan) paths) others /\
    (plan_unrestricted plan = true -> others = []).
Proof.
  unfold filter_of. destruct (plan_unrestricted plan).
  - intros [= <-]. exists (fun write => [allow_rule [action_of write] [full_grant write plan]]), (fun write => [full_grant write plan]), [], [].
    split_and!; [|intros; apply single_grant|intros; apply list_elem_of_singleton|done|done].
    exact (grows_trans _ _ _ [] [] [_] [_] (push_rule_grows _ _) (push_rule_grows _ _)).
  - intros (b1 & (fr & Hr & Hfr)%add_roots_grows & (b2 & (fw & Hw & Hfw)%add_roots_grows & (paths & os & Ho & Hos)%add_root_metadata_ancestors_grows)%bind_Ok)%bind_Ok.
    exists (fun write : bool => if write then (if write_roots plan then [] else [allow_rule ["file-write*"] fw])
                         else (if read_roots plan then [] else [allow_rule ["file-read*"] fr])), (fun write : bool => if write then fw else fr), os, paths.
    split_and!; [| |by intros []|done|done].
    + exact (grows_trans _ _ _ _ _ _ _ Hr (grows_trans _ _ _ _ _ _ _ Hw Ho)).
    + assert (forall action prefix roots denied globs wd fs,
        (forall f, f ∈ fs <-> exists e, e ∈ enumerate roots /\ root_grant h action prefix denied globs wd e f) ->
        grants_all action fs (if roots then [] else [allow_rule [action] fs])) as Hall.
      { intros action prefix roots denied globs wd fs Hfs. destruct roots; [|apply single_grant].
        destruct fs as [|f fs]; [split; [done|]; intros; by rewrite andb_false_r|].
        destruct (proj1 (Hfs f) (list_elem_of_here _ _)) as (e & He%elem_of_nil & _). done. }
      by intros []; eapply Hall.
Qed.

Lemma add_filesystem_assembled plan b pb :
  pb_definitions b = [] -> add_filesystem h plan b = Ok pb ->
  exists grants others tail filters, assembled h plan b pb grants others tail filters.
Proof.
  intros Hb. unfold add_filesystem.
  intros (b1 & H1%define_paths_grows & (b2 & H2%define_paths_grows & (b3 & (grants & filters & metadata & paths & H3 & Hg & Hf & Hm & Hnone)%add_grants_grows &
    (b4 & (execs & H4 & He)%add_executable_roots_grows & (b5 & (globs & H5 & Hin & Hout)%add_denied_glob_rules_grows & Hrest)%bind_Ok)%bind_Ok)%bind_Ok)%bind_Ok)%bind_Ok.
  destruct (add_writable_root_anchor_denies_grows (write_roots plan) b5) as (anchors & H6 & Ha). cbv zeta in Hrest.
  apply bind_Ok in Hrest as (b7 & (paths' & ancestors & H7 & Han)%add_protected_ancestor_denies_grows & [= <-]).
  destruct H1 as [D1 R1], H2 as [D2 R2], H3 as [D3 R3], H4 as [D4 R4], H5 as [D5 R5], H6 as [D6 R6], H7 as [D7 R7].
  rewrite Hb in D1. rewrite D6, D5, D4, D3, D2, D1, !app_nil_r, <- !app_assoc in D7. simpl in D7.
  exists grants, (metadata ++ execs), (globs ++ anchors ++ ancestors ++
    path_denials ["file-read*"; "file-write*"; "file-write-unlink"] "DENIED_PATH" (denied_paths plan) ++
    path_denials ["file-write*"; "file-write-unlink"] "WRITE_DENIED_PATH" (write_denied_paths plan)), filters. split; try done.
  - simpl. by rewrite R7, R6, R5, R4, R3, R2, R1, !app_nil_r, <- !app_assoc.
  - apply Forall_app. split; eapply Forall_impl; eauto. intros r [? _]. by left.
  - rewrite Forall_forall in Hm, He. intros r f [Hr|Hr]%elem_of_app [_ Hops] Hfr; [|destruct (He r Hr) as [_ Hx]; by rewrite Hx in Hops].
    destruct (plan_unrestricted plan) eqn:Hu; [rewrite (Hnone eq_refl) in Hr; by apply elem_of_nil in Hr|].
    destruct (Hm r Hr) as (_ & Hnames & Hfrom). destruct (Hnames f Hfr) as ([i q] & Hi & ->).
    destruct (Hfrom q) as (root & Hroot & Hq); [by apply enumerate_lookup, list_elem_of_lookup_2 in Hi|].
    eexists _, root, q. split_and!; [done| |done|done]. simpl. rewrite D7, <- !app_assoc, !param_skip by done. by apply param_here.
  - intros r [(g & Hgl & Hr)|[Hr|Hr]]; rewrite !elem_of_app; [eauto| |].
    + right. right. right. left. by apply deny_paths_rule.
    + right. right. right. right. by apply deny_paths_rule.
  - rewrite Forall_forall in Ha, Han. intros r. rewrite !elem_of_app. unfold is_tail_rule. intros [Hr|[Hr|[Hr|[Hr|Hr]]]].
    + destruct (Hout _ Hr); eauto.
    + eauto.
    + eauto.
    + apply deny_paths_rule in Hr. eauto.
    + apply deny_paths_rule in Hr. eauto.
  - intros i q Hi. simpl. rewrite D7. by apply param_here.
  - intros i q Hi. simpl. rewrite D7, param_skip by done. by apply param_here.
  - intros write i q Hu Hi. simpl. rewrite D7, Hu, <- !app_assoc. destruct write; unfold root_prefix.
    + rewrite !param_skip by done. by apply param_here.
    + rewrite !param_skip by done. by apply param_here.
  - intros i rest. simpl. rewrite D7, <- !app_assoc. destruct (plan_unrestricted plan); simpl; rewrite <- ?app_assoc, !param_skip by done; done.
Qed.

End assembly.

(** * What the profile of a plan allows *)

Definition root_covers (h : MacHost) (p root : path) : bool :=
  match path_match_for_root h root with
  | Ok MatchLiteral => paths_equal p root
  | Ok MatchSubpath => is_within p root
  | Err _ => false
  end.

(** The plan denies the path, by a path or by a glob. *)
Definition plan_denies `{!Seatbelt} (defs : list SeatbeltDefinition) (write : bool) (plan : MacosFilesystemPlan) (directory : bool) (p : path) : bool :=
  existsb (is_within p) (plan_denials write plan) ||
  existsb (fun g => filter_holds defs (FRegex (regex_of g)) directory p) (denied_globs plan).

Lemma equal_within p q : valid_absolute p -> paths_equal p q = true -> is_within p q = true.
Proof.
  intros Hp Hpq%paths_equal_true. destruct Hp as (Ha & Hn & Ht).
  rewrite (is_within_lexical p p q p) by done. by apply is_within_prefix_iff.
Qed.

Lemma absolute_below_root p : valid_absolute p -> is_within p "/" = true.
Proof.
  intros Hp. apply is_within_prefix_iff; [done|done|]. destruct Hp as [Ha _]. apply is_absolute_lexical in Ha.
  destruct (lexical_components p) as [|c rest]; simplify_eq/=. by exists rest.
Qed.

Section exact.
Context `{!Seatbelt} {laws : SeatbeltLaws} (h : MacHost) (plan : MacosFilesystemPlan) (b pb : ProfileBuilder).
Context (grants : bool -> list Rule) (others tail : list Rule) (filters : bool -> list Filter).
Hypothesis Hpb : assembled h plan b pb grants others tail filters.
Context (write directory : bool) (operation : string) (p : path).
Hypothesis Hop : covers (action_of write) operation = true.
Local Abbreviation defs := (pb_definitions pb).
Local Abbreviation denies := (plan_denies defs write plan directory p).

Lemma operation_split : exists rest, operation = (if write then "file-write" else "file-read") +:+ rest.
Proof using Hop. destruct write; by apply prefix_split. Qed.

Lemma other_action : covers (action_of (negb write)) operation = false.
Proof using Hop. destruct operation_split as [rest ->]. by destruct write. Qed.

Lemma others_quiet : operation <> "file-read-metadata" -> existsb (applies defs directory operation p) others = false.
Proof using Hop Hpb.
  intros Hmeta. apply not_true_is_false. rewrite existsb_exists. intros (r & Hr%list_elem_of_In & Ha).
  pose proof (as_others _ _ _ _ _ _ _ _ Hpb) as Ho. rewrite Forall_forall in Ho.
  apply andb_true_iff in Ha as [Ha _]. destruct operation_split as [rest Hrest].
  destruct (Ho r Hr) as [[_ Hops]|[_ Hops]]; rewrite Hops, Hrest in Ha; destruct write; simpl in Ha; try done.
  rewrite !orb_false_r in Ha. apply Hmeta. rewrite Hrest. symmetry. by apply String.eqb_eq.
Qed.

(** The other grants reach a path only by its metadata, as an ancestor of a root. *)
Definition metadata_ancestor : Prop :=
  operation = "file-read-metadata" /\
  exists root q, root ∈ read_roots plan ++ executable_roots plan /\ q ∈ path_ancestors root /\ paths_equal p q = true.

Lemma others_metadata : existsb (applies defs directory operation p) others = true -> metadata_ancestor.
Proof using laws Hop Hpb.
  intros Ha. destruct (decide (operation = "file-read-metadata")) as [Hm|Hm]; [|by rewrite others_quiet in Ha]. split; [done|].
  apply existsb_exists in Ha as (r & Hr%list_elem_of_In & [Hc Hx]%andb_true_iff).
  pose proof (as_others _ _ _ _ _ _ _ _ Hpb) as Ho. rewrite Forall_forall in Ho.
  destruct (Ho r Hr) as [Hg|[_ Hops]]; [|by rewrite Hops, Hm in Hc].
  apply existsb_exists in Hx as (f & Hf%list_elem_of_In & Hx).
  destruct (as_metadata _ _ _ _ _ _ _ _ Hpb r f Hr Hg Hf) as (name & root & q & -> & Hq & Hroot & Hin).
  rewrite holds_literal, Hq in Hx. eauto.
Qed.

Lemma denied_rule r : is_tail_rule plan r -> applies defs directory operation p r = true -> denies = true.
Proof using laws Hpb Hop.
  unfold plan_denies, plan_denials. rewrite orb_true_iff, !existsb_exists. setoid_rewrite <- list_elem_of_In.
  intros [(g & Hg & Hr)|[(i & q & o & Hi & Ho & ->)|(i & q & o & Hi & Ho & ->)]].
  - apply list_elem_of_fmap in Hr as (o & -> & _). rewrite applies_deny. intros [_ Hr]%andb_true_iff. eauto.
  - rewrite applies_deny, holds_subpath, (as_denied _ _ _ _ _ _ _ _ Hpb _ _ Hi). intros [_ Hq]%andb_true_iff.
    left. exists q. split; [|done]. apply elem_of_app. left. apply enumerate_lookup in Hi. by eapply list_elem_of_lookup_2.
  - rewrite applies_deny, holds_subpath, (as_write_denied _ _ _ _ _ _ _ _ Hpb _ _ Hi). intros [Hc Hq]%andb_true_iff.
    left. exists q. split; [|done]. apply elem_of_app. right. apply enumerate_lookup in Hi.
    destruct operation_split as [rest ->]. destruct write; [by eapply list_elem_of_lookup_2|].
    rewrite !elem_of_cons, elem_of_nil in Ho. by destruct Ho as [->|[->|[]]].
Qed.

Lemma denied_tail : denies = true -> existsb (applies defs directory operation p) tail = true.
Proof using laws Hpb Hop.
  unfold plan_denies, plan_denials. rewrite orb_true_iff, !existsb_exists. setoid_rewrite <- list_elem_of_In.
  intros [(q & Hq & Hw)|(g & Hg & Hr)].
  - apply elem_of_app in Hq as [Hq|Hq].
    + apply list_elem_of_lookup in Hq as [i Hi%enumerate_lookup].
      exists (deny_rule (action_of write) (FSubpath (indexed "DENIED_PATH" i))). split.
      * apply (as_tail_in _ _ _ _ _ _ _ _ Hpb). right. left. exists i, q, (action_of write). split_and!; [done| |done]. destruct write; set_solver.
      * by rewrite applies_deny, Hop, holds_subpath, (as_denied _ _ _ _ _ _ _ _ Hpb _ _ Hi).
    + destruct write; [|by apply elem_of_nil in Hq]. apply list_elem_of_lookup in Hq as [i Hi%enumerate_lookup].
      exists (deny_rule (action_of true) (FSubpath (indexed "WRITE_DENIED_PATH" i))). split.
      * apply (as_tail_in _ _ _ _ _ _ _ _ Hpb). right. right. exists i, q, "file-write*". split_and!; [done|set_solver|done].
      * by rewrite applies_deny, Hop, holds_subpath, (as_write_denied _ _ _ _ _ _ _ _ Hpb _ _ Hi).
  - exists (deny_rule (action_of write) (FRegex (regex_of g))). split.
    + apply (as_tail_in _ _ _ _ _ _ _ _ Hpb). left. exists g. split; [done|]. unfold glob_deny_rules. apply list_elem_of_fmap.
      exists (action_of write). split; [done|]. destruct write; set_solver.
    + by rewrite applies_deny, Hop.
Qed.

Lemma tail_exact : operation <> "file-write-unlink" -> existsb (applies defs directory operation p) tail = denies.
Proof using laws Hpb Hop.
  intros Hu. apply eq_true_iff_eq. split; [|exact denied_tail]. rewrite existsb_exists. intros (r & Hr%list_elem_of_In & Ha).
  destruct (as_tail_out _ _ _ _ _ _ _ _ Hpb r Hr) as [[_ Ho]|Ht]; [|by eapply denied_rule].
  apply andb_true_iff in Ha as [Ha _]. rewrite Ho in Ha. simpl in Ha. rewrite orb_false_r in Ha.
  exfalso. apply Hu. symmetry. by apply String.eqb_eq.
Qed.

Lemma tail_denies : Forall (fun r => rule_allow r = false) tail.
Proof using laws Hpb.
  apply Forall_forall. intros r Hr.
  destruct (as_tail_out _ _ _ _ _ _ _ _ Hpb r Hr) as [[? _]|[(g & _ & Hg)|[(? & ? & ? & _ & _ & ->)|(? & ? & ? & _ & _ & ->)]]]; try done.
  by apply list_elem_of_fmap in Hg as (o & -> & _).
Qed.

Hypothesis Hp : valid_absolute p.

(** No exclusion refuses a path the plan does not deny. *)
Lemma excluded_free prefix excluded i q :
  denies = false -> (i, q) ∈ enumerate excluded ->
  (prefix = "DENIED_PATH" /\ excluded = denied_paths plan \/ write = true /\ prefix = "WRITE_DENIED_PATH" /\ excluded = write_denied_paths plan) ->
  forallb (fun f => filter_holds defs f directory p) (push_path_exclusion prefix i) = true.
Proof using laws Hpb Hp.
  intros Hd Hi Hx. assert (param defs (indexed prefix i) = Some q /\ q ∈ plan_denials write plan) as [Hparam Hq].
  { unfold plan_denials. rewrite elem_of_app. pose proof Hi as Hq%enumerate_lookup%list_elem_of_lookup_2.
    destruct Hx as [[-> ->]|(Hw & -> & ->)]; [split; [by apply (as_denied _ _ _ _ _ _ _ _ Hpb)|by left]|].
    split; [by apply (as_write_denied _ _ _ _ _ _ _ _ Hpb)|right]. by rewrite Hw. }
  apply orb_false_iff in Hd as [Hd _].
  assert (is_within p q = false) as Hw.
  { apply not_true_is_false. intros Hw. apply not_true_iff_false in Hd. apply Hd, existsb_exists. exists q. split; [by apply list_elem_of_In|done]. }
  simpl. rewrite !holds_not, holds_literal, holds_subpath, Hparam, Hw. destruct (paths_equal p q) eqn:He; [|done].
  apply equal_within in He; [congruence|exact Hp].
Qed.

Lemma root_grants f : denies = false ->
  plan_unrestricted plan = false -> filter_holds defs f directory p = true -> filter_of h plan write f ->
  exists root, root ∈ plan_roots write plan /\ root_covers h p root = true.
Proof using laws Hpb.
  unfold filter_of, root_covers. intros _ Hu Hf. rewrite Hu. intros ([i root] & Hi & m & Hm & ->). exists root.
  split; [by apply enumerate_lookup, list_elem_of_lookup_2 in Hi|]. simpl in *. rewrite Hm.
  rewrite holds_all in Hf. simpl in Hf. apply andb_true_iff in Hf as [Hf _].
  destruct m; rewrite ?holds_literal, ?holds_subpath, (as_roots _ _ _ _ _ _ _ _ Hpb write _ _ Hu Hi) in Hf; done.
Qed.

Lemma forallb_join {A} (f : A -> bool) ls : (forall l, l ∈ ls -> forallb f l = true) -> forallb f (mjoin ls) = true.
Proof.
  clear. intros H. apply forallb_forall. intros x Hx%list_elem_of_In. apply list_elem_of_join in Hx as (l & Hx & Hl).
  specialize (H l Hl). rewrite forallb_forall in H. by apply H, list_elem_of_In.
Qed.

Lemma free_exclusions prefix excluded root :
  denies = false ->
  (prefix = "DENIED_PATH" /\ excluded = denied_paths plan \/ write = true /\ prefix = "WRITE_DENIED_PATH" /\ excluded = write_denied_paths plan) ->
  forallb (fun f => filter_holds defs f directory p) (exclusions_within prefix excluded root) = true /\
  forallb (fun f => filter_holds defs f directory p) (all_exclusions prefix excluded) = true.
Proof using laws Hpb Hp.
  intros Hd Hx. split; apply forallb_join; intros l Hl; apply list_elem_of_fmap in Hl as ([i q] & -> & Hi).
  - destruct (is_within q root); [by eapply excluded_free|done].
  - by eapply excluded_free.
Qed.

Lemma free_globs : denies = false -> forallb (fun f => filter_holds defs f directory p) (glob_exclusions (denied_globs plan)) = true.
Proof using laws.
  intros [_ Hd]%orb_false_iff. apply forallb_forall. intros f Hf%list_elem_of_In. apply list_elem_of_fmap in Hf as (g & -> & Hg).
  rewrite holds_not. apply negb_true_iff, not_true_is_false. intros Hr. apply not_true_iff_false in Hd. apply Hd, existsb_exists.
  exists g. split; [by apply list_elem_of_In|done].
Qed.

Lemma grants_exact : denies = false ->
  existsb (fun f => filter_holds defs f directory p) (filters write) =
  plan_unrestricted plan || existsb (root_covers h p) (plan_roots write plan).
Proof using laws Hpb Hp Hop.
  intros Hd. pose proof (fun root Hw => free_exclusions _ _ root Hd (or_intror (conj Hw (conj eq_refl eq_refl)))) as Hwd.
  apply eq_true_iff_eq. rewrite orb_true_iff, !existsb_exists. setoid_rewrite <- list_elem_of_In.
  setoid_rewrite (as_filters _ _ _ _ _ _ _ _ Hpb). split.
  - intros (f & Hf & Hh). destruct (plan_unrestricted plan) eqn:Hu; [by left|right]. by eapply root_grants.
  - destruct (plan_unrestricted plan) eqn:Hu.
    + intros _. exists (full_grant write plan). split; [unfold filter_of; by rewrite Hu|]. unfold full_grant. rewrite holds_all. simpl.
      rewrite forallb_app, holds_subpath_text, absolute_below_root by done.
      rewrite (proj2 (free_exclusions _ _ "/" Hd (or_introl (conj eq_refl eq_refl)))). simpl.
      destruct write; [exact (proj2 (Hwd "/" eq_refl))|done].
    + intros [[=]|(root & Hroot & Hc)]. apply list_elem_of_lookup in Hroot as [i Hi%enumerate_lookup].
      unfold root_covers in Hc. destruct (path_match_for_root h root) as [m|] eqn:Hm; [|done].
      eexists. split; [unfold filter_of; rewrite Hu; exists (i, root); split; [exact Hi|exists m; split; [exact Hm|reflexivity]]|].
      rewrite holds_all. simpl. rewrite !forallb_app, free_globs by done.
      rewrite (proj1 (free_exclusions _ _ root Hd (or_introl (conj eq_refl eq_refl)))). simpl.
      replace (filter_holds _ _ _ _) with true; [simpl|by destruct m; rewrite ?holds_literal, ?holds_subpath, (as_roots _ _ _ _ _ _ _ _ Hpb write _ _ Hu Hi)].
      destruct write; [exact (proj1 (Hwd root eq_refl))|done].
Qed.

Lemma rules_split :
  sandbox_allows (pb_rules pb) defs directory operation p =
  (sandbox_allows (pb_rules b) defs directory operation p || existsb (fun f => filter_holds defs f directory p) (filters write) ||
   existsb (applies defs directory operation p) others) &&
  negb (existsb (applies defs directory operation p) tail).
Proof using laws Hpb Hop.
  rewrite (as_rules _ _ _ _ _ _ _ _ Hpb), app_assoc, allows_denials by exact tail_denies. f_equal.
  pose proof (as_grants _ _ _ _ _ _ _ _ Hpb) as Hg. rewrite allows_grants, !existsb_app, !orb_assoc by (done ||
    (rewrite !Forall_app; split_and!; [apply Hg|apply Hg|]; eapply Forall_impl; [exact (as_others _ _ _ _ _ _ _ _ Hpb)|by intros r [[? _]|[? _]]])).
  f_equal. rewrite <- orb_assoc. f_equal. rewrite (proj2 (Hg false)), (proj2 (Hg true)). pose proof other_action as Ho. pose proof Hop as Hc.
  destruct write; simpl negb in Ho; rewrite Ho, Hc; simpl; [done|apply orb_false_r].
Qed.

End exact.

(** * Properties *)

Section properties.
Context `{!Seatbelt} `{!SeatbeltLaws} (h : MacHost).

(** C18. The profile of a filesystem plan means the plan.  Apart from metadata
    reads, which are also allowed on the ancestors of roots, and unlinking, which
    has further denials, a process may read (write) a resolved path exactly when
    the rules before the plan's allow it, the plan is unrestricted or one of its
    read (write) roots covers the path, a root that is a file covering only
    itself, and neither a denied path contains it, for writes a write-denied path
    either, nor a denied glob matches it. *)
Theorem seatbelt_profile_exact plan b pb write directory operation p :
  pb_definitions b = [] -> add_filesystem h plan b = Ok pb -> valid_absolute p ->
  covers (action_of write) operation = true -> operation <> "file-read-metadata" -> operation <> "file-write-unlink" ->
  sandbox_allows (pb_rules pb) (pb_definitions pb) directory operation p =
  (sandbox_allows (pb_rules b) (pb_definitions pb) directory operation p || plan_unrestricted plan ||
   existsb (root_covers h p) (plan_roots write plan)) &&
  negb (plan_denies (pb_definitions pb) write plan directory p).
Proof.
  intros Hb (grants & others & tail & filters & Hpb)%add_filesystem_assembled Hp Hop Hmeta Hu; [|done].
  rewrite (rules_split _ _ _ _ _ _ _ _ Hpb write), (tail_exact _ _ _ _ _ _ _ _ Hpb write), (others_quiet _ _ _ _ _ _ _ _ Hpb write), orb_false_r by done.
  destruct (plan_denies _ _ _ _ _) eqn:Hd; [by rewrite !andb_false_r|]. by rewrite (grants_exact _ _ _ _ _ _ _ _ Hpb write _ _ _ Hop), orb_assoc.
Qed.

Context {U : Unicode} {G : Globset} {W : WildMatch} {B : Type} `{!SandboxBackend B}.

(** A rule of the policy, or a protected name below a writable root, put the path
    in the set. *)
Definition mac_governs (bk : B) (prepared : PreparedBackendRequest) (s : PathSet) (q : path) : Prop :=
  collected_from h bk prepared (prepared_context prepared) (mac_layers prepared) (s, NativePathKey_new q) \/
  protected_below h bk prepared (prepared_context prepared) (mac_layers prepared) (s, NativePathKey_new q).

Lemma key_within p q q' : NativePathKey_new q = NativePathKey_new q' -> is_within p q = is_within p q'.
Proof. rewrite !NativePathKey_new_eq. intros Hk%(inj (fmap component_key)). by apply is_within_lexical. Qed.

(** C7. The profile confines a command to its policy.  When the profile lets a
    process write (read) a resolved path that the rules before the plan's do not
    allow, the policy is unrestricted or a path of a rule for which the policy
    decides write (read or write) contains it; and whatever those rules allow,
    no write (read) goes below a path of a rule for which the policy denies
    access, a protected name of a writable root or, for writes, a read-only
    subpath.  Unlinking is a write.  One read goes further than the policy's
    readable paths: the metadata ([file-read-metadata]) of a path that is itself
    an ancestor of a read or executable root. *)
Theorem seatbelt_confines bk prepared plan b pb write directory operation p :
  mac_lower h bk prepared = Ok plan ->
  pb_definitions b = [] -> add_filesystem h plan b = Ok pb -> valid_absolute p ->
  covers (action_of write) operation = true ->
  sandbox_allows (pb_rules pb) (pb_definitions pb) directory operation p = true ->
  (sandbox_allows (pb_rules b) (pb_definitions pb) directory operation p = true \/ plan_unrestricted plan = true \/
   (exists root, mac_governs bk prepared (if write then SWrite else SRead) root /\ is_within p root = true) \/
   metadata_ancestor plan operation p) /\
  forall q, mac_governs bk prepared SDeny q \/ write = true /\ mac_governs bk prepared SWriteDeny q -> is_within p q = false.
Proof.
  intros Hl Hb (grants & others & tail & filters & Hpb)%add_filesystem_assembled Hp Hop; [|done].
  rewrite (rules_split _ _ _ _ _ _ _ _ Hpb write) by done. intros [Hg Ht%negb_true_iff]%andb_true_iff.
  destruct (plan_denies (pb_definitions pb) write plan directory p) eqn:Hd.
  { rewrite (denied_tail _ _ _ _ _ _ _ _ Hpb write _ _ _ Hop Hd) in Ht. done. }
  rewrite (grants_exact _ _ _ _ _ _ _ _ Hpb write _ _ _ Hop Hp Hd) in Hg. split.
  - apply orb_true_iff in Hg as [Hg|Hg]; [|do 3 right; by apply (others_metadata _ _ _ _ _ _ _ _ Hpb write directory)].
    apply orb_true_iff in Hg as [Hg|Hg]; [by left|]. apply orb_true_iff in Hg as [Hg|Hg]; [by right; left|right; right; left].
    apply existsb_exists in Hg as (root & Hroot%list_elem_of_In & Hc). exists root. split.
    + apply (mac_lower_paths h bk prepared plan); [done|]. exists root. split; [by destruct write|done].
    + unfold root_covers in Hc. destruct (path_match_for_root h root) as [[]|]; [by apply equal_within|done|done].
  - apply orb_false_iff in Hd as [Hd _]. intros q Hq. apply not_true_is_false. intros Hw. apply not_true_iff_false in Hd. apply Hd, existsb_exists.
    assert (exists q', q' ∈ plan_denials write plan /\ NativePathKey_new q' = NativePathKey_new q) as (q' & Hq' & Hk).
    { unfold plan_denials. setoid_rewrite elem_of_app. destruct Hq as [Hq|[-> Hq]];
        apply (mac_lower_paths h bk prepared plan _ _ Hl) in Hq as (q' & Hq' & Hk); eauto. }
    exists q'. split; [by apply list_elem_of_In|by rewrite (key_within p q' q)].
Qed.

End properties.
