(* ===== verification/MacosNetwork.v ===== *)
(** [cageforge-macos/src/network.rs] (the lowering) and the network rules of
    [seatbelt.rs]: what a launch may connect to. *)

From Stdlib Require Import Ascii String NArith Lia.
From stdpp Require Import base option strings list pretty sorting sets.
From S2P Require Import Prelude Keyed Text BTree NativePath IpAddr IpText Access Selector PathPattern FsPolicy Domain LocalIpc NetPolicy Policy Environment Command Compose Effective Requirements EffectiveEnv HostFs Backend LinuxHost LinuxMounts LinuxTable MacosFilesystem MacosSeatbelt MacosProfile.

(** * Plans *)

Record MacosUnixSocketPlan := { us_allow_all : bool; us_allowed : list path }.

Definition unix_plan_default : MacosUnixSocketPlan := {| us_allow_all := false; us_allowed := [] |}.

Inductive MacosNetworkPlan :=
  | NetPlanDisabled (unix : MacosUnixSocketPlan)
  | NetPlanDirect (unix : MacosUnixSocketPlan)
  | NetPlanProxy (unix : MacosUnixSocketPlan) (ingress_port : option N).

(** The errors of the lowering *)
Inductive MacosNetworkError :=
  | MacNetContract (source : BackendContractError)
  | MacNetExternalOwnership
  | UnixSocketPolicy (m : UnixSocketMode).

Definition requires_gateway (plan : MacosNetworkPlan) : bool :=
  match plan with NetPlanProxy _ _ => true | _ => false end.

Definition with_ingress_port (plan : MacosNetworkPlan) (port : N) : MacosNetworkPlan :=
  match plan with NetPlanProxy unix _ => NetPlanProxy unix (Some port) | other => other end.

Definition proxy_port (plan : MacosNetworkPlan) : option N :=
  match plan with NetPlanProxy _ port => port | _ => None end.

Definition plan_unix (plan : MacosNetworkPlan) : MacosUnixSocketPlan :=
  match plan with NetPlanDisabled unix | NetPlanDirect unix | NetPlanProxy unix _ => unix end.

Section lowering.
Context (h : MacHost).

Definition normalize_unix_socket_path (p : path) : path :=
  let lexical := normalize_lexical_path p in
  match mac_canonicalize h lexical with
  | Ok canonical => normalize_lexical_path canonical
  | Err _ => lexical
  end.

Context {U : Unicode} {G : Globset} {W : WildMatch} {B : Type} `{!SandboxBackend B}.
Context (b : B) (prepared : PreparedBackendRequest).

(** One rule: the paths allowed so far and their keys *)
Definition lower_unix_rule (allow_all : bool) (m : UnixSocketMode) (st : list path * KeySet) (rule : UnixSocketRule) :
  result MacosNetworkError (list path * KeySet) :=
  decision ← map_err MacNetContract (prepared_decision_for_unix_socket prepared b (us_path rule));
  match decision with
  | NetAllow =>
      let native := normalize_unix_socket_path (us_path rule) in
      Ok (if allow_all || key_has native st.2 then st else (st.1 ++ [native], key_add native st.2))
  | NetDeny => reject allow_all with UnixSocketPolicy m ;; Ok st
  | NetExternallyEnforced => Err MacNetExternalOwnership
  end.

Definition lower_unix_layer (allow_all : bool) (st : list path * KeySet) (layer : NetworkPolicy) :
  result MacosNetworkError (list path * KeySet) :=
  reject bool_decide (net_mode layer = NetExternal) with MacNetExternalOwnership ;;
  foldM (lower_unix_rule allow_all (unix_socket_mode layer)) st (unix_sockets layer).

Definition lower_unix_socket_plan (lowering : EffectiveNetworkLowering) : result MacosNetworkError MacosUnixSocketPlan :=
  sandbox ← map_err MacNetContract (prepared_sandbox prepared b);
  let q := network_requirements (es_network sandbox) in
  if bool_decide (nreq_mode q = NetDisabled) || nreq_local_ipc_isolation q then Ok unix_plan_default
  else
    let allow_all := forallb (fun layer => bool_decide (unix_socket_mode layer = UnixEnabled)) (net_layers lowering) in
    st ← foldM (lower_unix_layer allow_all) ([], []) (net_layers lowering);
    Ok {| us_allow_all := allow_all; us_allowed := merge_sort key_order st.1 |}.

(** [MacosNetworkPlan::lower] *)
Definition mac_network_lower : result MacosNetworkError MacosNetworkPlan :=
  sandbox ← map_err MacNetContract (prepared_sandbox prepared b);
  let q := network_requirements (es_network sandbox) in
  reject bool_decide (nreq_mode q = NetExternal) with MacNetExternalOwnership ;;
  lowering ← map_err MacNetContract (prepared_network_lowering prepared b);
  unix ← lower_unix_socket_plan lowering;
  let restricted_network := nreq_domain_rules q || nreq_local_address_restrictions q || nreq_resolved_targets q ||
    nreq_local_ipc_isolation q || nreq_local_ipc_rules q || nreq_local_ipc_deny_rules q in
  match nreq_mode q with
  | NetDisabled => Ok (NetPlanDisabled unix)
  | NetEnabled => if restricted_network then Ok (NetPlanProxy unix None) else Ok (NetPlanDirect unix)
  | NetExternal => Err MacNetExternalOwnership
  end.

End lowering.

(** * Rules *)

(** [(allow op)], [(allow op (remote ip "localhost:port"))], the socket-domain
    rule, the rules of Unix sockets, and [(allow op (literal "path"))];
    [NetServices] is the fixed text for name and trust services. *)
Inductive NetworkRule :=
  | NetAny (operation : string)
  | NetLocalhost (operation : string) (port : N)
  | NetUnixDomain
  | NetUnixAny (operation : string)
  | NetUnixSubpath (operation name : string)
  | NetLiteral (operation : string) (p : path)
  | NetServices.

(** The connection every profile allows: the system log *)
Definition SYSLOG_SOCKET : path := "/private/var/run/syslog".

(** The network rules of [SEATBELT_BASE_POLICY] *)
Definition base_network_rules : list NetworkRule := [NetLiteral "network-outbound" SYSLOG_SOCKET].

Definition add_unix_socket_path (st : ProfileBuilder * list NetworkRule) (entry : nat * path) :
  result SeatbeltProfileError (ProfileBuilder * list NetworkRule) :=
  let name := indexed "UNIX_SOCKET_PATH" entry.1 in
  b ← add_definition st.1 name entry.2;
  Ok (b, st.2 ++ [NetUnixSubpath "network-bind" name; NetUnixSubpath "network-outbound" name]).

Definition add_unix_socket_rules (plan : MacosUnixSocketPlan) (enabled : bool) (st : ProfileBuilder * list NetworkRule) :
  result SeatbeltProfileError (ProfileBuilder * list NetworkRule) :=
  if negb enabled || (negb (us_allow_all plan) && bool_decide (us_allowed plan = [])) then Ok st
  else foldM add_unix_socket_path
         (st.1, st.2 ++ NetUnixDomain :: if us_allow_all plan then [NetUnixAny "network-bind"; NetUnixAny "network-outbound"] else [])
         (enumerate (us_allowed plan)).

Definition add_network (plan : MacosNetworkPlan) (st : ProfileBuilder * list NetworkRule) :
  result SeatbeltProfileError (ProfileBuilder * list NetworkRule) :=
  match plan with
  | NetPlanDisabled unix => add_unix_socket_rules unix false st
  | NetPlanDirect unix =>
      add_unix_socket_rules unix true (st.1, st.2 ++ [NetAny "network-outbound"; NetAny "network-inbound"; NetServices])
  | NetPlanProxy unix None => Err (InvalidFragment "proxy ingress port is missing")
  | NetPlanProxy unix (Some port) =>
      add_unix_socket_rules unix true (st.1, st.2 ++ [NetLocalhost "network-outbound" port; NetServices])
  end.

(** [SeatbeltProfile::build]: the fixed policy, whose file rules are [base] and
    whose network rules are [base_network_rules], then the rules of the plans *)
Definition mac_build (h : MacHost) (base : ProfileBuilder) (filesystem : MacosFilesystemPlan) (network : MacosNetworkPlan) :
  result SeatbeltProfileError (ProfileBuilder * list NetworkRule) :=
  b ← add_filesystem h filesystem (add_fixed_system_executable_roots base);
  add_network network (b, base_network_rules).

(** * Connections *)

Inductive Endpoint :=
  | TcpEndpoint (loopback : bool) (port : N)
  | UnixEndpoint (p : path).

(** A rule that lets a process connect to the endpoint *)
Definition rule_reaches (defs : list SeatbeltDefinition) (e : Endpoint) (r : NetworkRule) : bool :=
  match r, e with
  | NetAny operation, _ => String.eqb operation "network-outbound"
  | NetLocalhost operation port, TcpEndpoint loopback port' => String.eqb operation "network-outbound" && loopback && N.eqb port port'
  | NetUnixAny operation, UnixEndpoint _ => String.eqb operation "network-outbound"
  | NetUnixSubpath operation name, UnixEndpoint p =>
      String.eqb operation "network-outbound" && match param defs name with Some q => is_within p q | None => false end
  | NetLiteral operation q, UnixEndpoint p => String.eqb operation "network-outbound" && paths_equal p q
  | _, _ => false
  end.

(** Whether Seatbelt lets a process connect, and what the profile relies on:
    nothing is reachable but by a rule. *)
Class SeatbeltNetwork := { connect_allowed : list NetworkRule -> list SeatbeltDefinition -> Endpoint -> bool }.

Class SeatbeltNetworkLaws `{!SeatbeltNetwork} : Prop := {
  connects_by_rule rules defs e : connect_allowed rules defs e = existsb (rule_reaches defs e) rules
}.

(** * The socket plan *)

Section sockets.
Context (h : MacHost).
Context {U : Unicode} {G : Globset} {W : WildMatch} {B : Type} `{!SandboxBackend B}.
Context (b : B) (prepared : PreparedBackendRequest).

Definition prepared_net : EffectiveNetworkPolicy := es_network (req_sandbox (prepared_request prepared)).

(** A rule of some layer on a socket the effective policy allows *)
Definition allowed_rule (r : UnixSocketRule) : Prop :=
  (exists layer, layer ∈ net_layers (network_lowering prepared_net) /\ r ∈ unix_sockets layer) /\
  effective_decision_for_unix_socket prepared_net (us_path r) = Ok NetAllow.

Lemma socket_decided p d :
  prepared_decision_for_unix_socket prepared b p = Ok d -> effective_decision_for_unix_socket prepared_net p = Ok d.
Proof. unfold prepared_decision_for_unix_socket. intros (_ & _ & Hd)%bind_Ok. by apply map_err_Ok in Hd. Qed.

Lemma lower_unix_rule_spec allow_all m st rule st' :
  lower_unix_rule h b prepared allow_all m st rule = Ok st' ->
  exists d, effective_decision_for_unix_socket prepared_net (us_path rule) = Ok d /\ d <> NetExternallyEnforced /\
    (allow_all = true -> d = NetAllow /\ st' = st) /\
    (allow_all = false -> st' = if bool_decide (d = NetAllow) && negb (key_has (normalize_unix_socket_path h (us_path rule)) st.2)
      then (st.1 ++ [normalize_unix_socket_path h (us_path rule)], key_add (normalize_unix_socket_path h (us_path rule)) st.2) else st).
Proof.
  unfold lower_unix_rule. intros (d & Hd%map_err_Ok & H)%bind_Ok. apply socket_decided in Hd. exists d. split; [done|].
  destruct d; simpl in H; res_inv; split_and!; try done; destruct allow_all; try done; simpl.
  intros _. by destruct (key_has _ _).
Qed.

(** Under a default that allows, every rule is decided to allow. *)
Lemma open_layers st layers st' :
  foldM (lower_unix_layer h b prepared true) st layers = Ok st' -> st' = st /\
  forall layer r, layer ∈ layers -> r ∈ unix_sockets layer -> effective_decision_for_unix_socket prepared_net (us_path r) = Ok NetAllow.
Proof.
  revert st. induction layers as [|layer layers IH]; intros st; simpl.
  - intros [= <-]. split; [done|]. by intros ? ? ?%elem_of_nil.
  - intros (st1 & H1 & [-> Hl]%IH)%bind_Ok. unfold lower_unix_layer in H1. res_inv.
    assert (st1 = st /\ forall r, r ∈ unix_sockets layer -> effective_decision_for_unix_socket prepared_net (us_path r) = Ok NetAllow) as [-> Hr].
    { generalize dependent (unix_socket_mode layer). intros m. generalize (unix_sockets layer). intros rules.
      revert st. induction rules as [|r rules IHr]; intros st; simpl; [intros [= <-]; split; [done|by intros ? ?%elem_of_nil]|].
      intros (st2 & (d & Hd & _ & Ht & _)%lower_unix_rule_spec & [-> Hrs]%IHr)%bind_Ok. destruct (Ht eq_refl) as [-> ->].
      split; [done|]. intros r' [->|Hr']%elem_of_cons; auto. }
    split; [done|]. intros layer' r [->|Hlayer]%elem_of_cons; eauto.
Qed.

(** Otherwise the plan collects the rules decided to allow. *)
Lemma restricted_layers st layers st' k :
  foldM (lower_unix_layer h b prepared false) st layers = Ok st' ->
  is_Some (bt_get k st'.2) <-> is_Some (bt_get k st.2) \/ exists layer, layer ∈ layers /\ exists r, r ∈ unix_sockets layer /\
    effective_decision_for_unix_socket prepared_net (us_path r) = Ok NetAllow /\ k = NativePathKey_new (normalize_unix_socket_path h (us_path r)).
Proof.
  intros H. revert k. refine (foldM_adds (fun (st : list path * KeySet) k => is_Some (bt_get k st.2)) (fun layer k => exists r, r ∈ unix_sockets layer /\
    effective_decision_for_unix_socket prepared_net (us_path r) = Ok NetAllow /\ k = NativePathKey_new (normalize_unix_socket_path h (us_path r)))
    _ _ _ _ _ H).
  intros a layer a' _ Ha. unfold lower_unix_layer in Ha. res_inv.
  refine (foldM_adds (fun (st : list path * KeySet) k => is_Some (bt_get k st.2)) (fun r k => 
    effective_decision_for_unix_socket prepared_net (us_path r) = Ok NetAllow /\ k = NativePathKey_new (normalize_unix_socket_path h (us_path r)))
    _ _ _ _ _ Ha).
  intros s r s' _ (d & Hd & _ & _ & Hf)%lower_unix_rule_spec k. rewrite (Hf eq_refl), Hd.
  destruct (key_has (normalize_unix_socket_path h (us_path r)) s.2) eqn:E; rewrite ?andb_false_r, ?andb_true_r.
  - split; [by left|]. intros [?|[_ ->]]; [done|]. unfold key_has in E. destruct (bt_get _ s.2); [by eexists|done].
  - case_bool_decide; cbn [fst snd]; rewrite ?bt_get_add; naive_solver.
Qed.

(** Every key has its path, and every path comes from a rule decided to allow. *)
Definition from_rules (layers : list NetworkPolicy) (st : list path * KeySet) : Prop :=
  (forall k, is_Some (bt_get k st.2) -> exists q, q ∈ st.1 /\ NativePathKey_new q = k) /\
  forall q, q ∈ st.1 -> exists layer r, layer ∈ layers /\ r ∈ unix_sockets layer /\
    effective_decision_for_unix_socket prepared_net (us_path r) = Ok NetAllow /\ q = normalize_unix_socket_path h (us_path r).

Lemma recorded_layers layers st' :
  foldM (lower_unix_layer h b prepared false) ([], []) layers = Ok st' -> from_rules layers st'.
Proof.
  apply (foldM_invariant _ (from_rules layers)).
  { split; [by intros k [? ?]|by intros ? ?%elem_of_nil]. }
  intros a layer a' Hlayer Ha H. unfold lower_unix_layer in H. res_inv. revert H. apply (foldM_invariant _ (from_rules layers)); [done|].
  clear a a' Ha. intros a r a' Hr [Hk Hq] (d & Hd & _ & _ & Hf)%lower_unix_rule_spec. rewrite (Hf eq_refl).
  case_bool_decide as Hda; [subst d|done]. destruct (key_has _ _); [done|]. unfold from_rules. cbn [andb negb fst snd]. setoid_rewrite elem_of_app. split.
  - intros k [Hold| ->]%bt_get_add; [destruct (Hk k Hold) as (q & ? & ?); eauto|]. eexists. split; [right; apply list_elem_of_here|done].
  - intros q [Hold| ->%list_elem_of_singleton]; [auto|]. by exists layer, r.
Qed.

(** The effective decision depends on the key of a socket path. *)
Lemma effective_socket_key p q :
  valid_absolute p -> valid_absolute q -> NativePathKey_new p = NativePathKey_new q ->
  effective_decision_for_unix_socket prepared_net p = Ok NetAllow -> effective_decision_for_unix_socket prepared_net q = Ok NetAllow.
Proof.
  intros Hp Hq Hk. unfold effective_decision_for_unix_socket. rewrite !both_sides_allow, !unix_socket_decision by done. by rewrite Hk.
Qed.

Lemma allowed_valid p : effective_decision_for_unix_socket prepared_net p = Ok NetAllow -> valid_absolute p.
Proof.
  unfold effective_decision_for_unix_socket. intros [H _]%both_sides_allow. unfold decision_for_unix_socket in H.
  apply bind_Ok in H as (s & [? _]%selector_absolute_Ok & _). done.
Qed.

Lemma layer_in layer : layer ∈ net_layers (network_lowering prepared_net) <-> layer = net_requested prepared_net \/ layer = net_ceiling prepared_net.
Proof. simpl. set_solver. Qed.

Lemma open_plan :
  net_mode (net_requested prepared_net) = NetEnabled -> net_mode (net_ceiling prepared_net) = NetEnabled ->
  (forall layer, layer ∈ net_layers (network_lowering prepared_net) -> unix_socket_mode layer = UnixEnabled) ->
  (forall layer r, layer ∈ net_layers (network_lowering prepared_net) -> r ∈ unix_sockets layer ->
     effective_decision_for_unix_socket prepared_net (us_path r) = Ok NetAllow) ->
  forall p, valid_absolute p -> effective_decision_for_unix_socket prepared_net p = Ok NetAllow.
Proof.
  intros M1 M2 Hu Hr p Hp. unfold effective_decision_for_unix_socket. apply both_sides_allow.
  assert (forall layer, layer ∈ net_layers (network_lowering prepared_net) -> net_mode layer = NetEnabled ->
            decision_for_unix_socket layer p = Ok NetAllow) as Hall; [|split; apply Hall; by rewrite ?layer_in; auto].
  intros layer Hl Hm. apply unix_socket_decision; [done|]. cbv zeta. split_and!; [done|left; by apply Hu|].
  intros r Hin _. specialize (Hr layer r Hl Hin). pose proof (allowed_valid _ Hr) as Hv.
  unfold effective_decision_for_unix_socket in Hr. apply both_sides_allow in Hr as [R1 R2].
  apply (unix_socket_decision _ _ Hv) in R1 as (_ & _ & A1), R2 as (_ & _ & A2).
  apply layer_in in Hl as [-> | ->]; [by apply A1|by apply A2].
Qed.

Lemma restricted_rule layer p :
  layer ∈ net_layers (network_lowering prepared_net) -> unix_socket_mode layer <> UnixEnabled ->
  effective_decision_for_unix_socket prepared_net p = Ok NetAllow ->
  exists r, r ∈ unix_sockets layer /\ NativePathKey_new p = NativePathKey_new (us_path r).
Proof.
  intros Hl Hu Hp. pose proof (allowed_valid _ Hp) as Hv.
  unfold effective_decision_for_unix_socket in Hp. apply both_sides_allow in Hp as [R1 R2].
  apply (unix_socket_decision _ _ Hv) in R1 as (_ & D1 & _), R2 as (_ & D2 & _).
  apply layer_in in Hl as [-> | ->]; naive_solver.
Qed.

Lemma unix_plan_spec unix :
  lower_unix_socket_plan h b prepared (network_lowering prepared_net) = Ok unix ->
  nreq_mode (network_requirements prepared_net) = NetEnabled ->
  (us_allow_all unix = true -> forall p, valid_absolute p -> effective_decision_for_unix_socket prepared_net p = Ok NetAllow) /\
  (forall q, q ∈ us_allowed unix -> exists r, allowed_rule r /\ q = normalize_unix_socket_path h (us_path r)) /\
  (Forall (fun layer => Forall (fun r => valid_absolute (us_path r)) (unix_sockets layer)) (net_layers (network_lowering prepared_net)) ->
   forall p, effective_decision_for_unix_socket prepared_net p = Ok NetAllow -> us_allow_all unix = true \/
    exists r q, allowed_rule r /\ NativePathKey_new p = NativePathKey_new (us_path r) /\ q ∈ us_allowed unix /\
      NativePathKey_new q = NativePathKey_new (normalize_unix_socket_path h (us_path r))).
Proof.
  unfold lower_unix_socket_plan. intros (sandbox & Hs%map_err_Ok & H)%bind_Ok Hm.
  unfold prepared_sandbox in Hs. apply bind_Ok in Hs as (_ & _ & [= <-]). cbv zeta in H. change (es_network _) with prepared_net in H.
  rewrite Hm in H. cbn [orb bool_decide] in H. case_bool_decide as Hno; [done|clear Hno]. cbn [orb] in H.
  destruct (nreq_local_ipc_isolation _) eqn:Hi.
  { injection H as <-. split_and!; [done|by intros ? ?%elem_of_nil|]. intros _ p Hp. exfalso.
    by eapply (proj2 (proj2 (network_requirements_sound prepared_net)) Hm). }
  remember (forallb _ _) as allow_all eqn:Hall in H. symmetry in Hall.
  apply bind_Ok in H as (st & H & [= <-]). cbn [us_allow_all us_allowed].
  apply effective_network_enabled in Hm as [M1 M2]. destruct allow_all.
  - apply open_layers in H as [-> Hr]. split_and!; [|by intros ? ?%elem_of_nil|by left].
    intros _. apply open_plan; [done|done| |done]. intros layer Hl. rewrite forallb_forall in Hall.
    by apply list_elem_of_In, Hall, bool_decide_eq_true in Hl.
  - pose proof (recorded_layers _ _ H) as [Hk Hq]. setoid_rewrite merge_sort_Permutation. split_and!; [done| |].
    + intros q (layer & r & Hl & Hr & Hd & ->)%Hq. exists r. split; [split; eauto|done].
    + intros Hvalid p Hp. right.
      assert (exists layer, layer ∈ net_layers (network_lowering prepared_net) /\ unix_socket_mode layer <> UnixEnabled) as (layer & Hl & Hu).
      { apply not_true_iff_false in Hall. rewrite forallb_forall in Hall. setoid_rewrite <- list_elem_of_In in Hall.
        destruct (decide (unix_socket_mode (net_requested prepared_net) = UnixEnabled)) as [E1|]; [|exists (net_requested prepared_net); by rewrite layer_in; auto].
        destruct (decide (unix_socket_mode (net_ceiling prepared_net) = UnixEnabled)) as [E2|]; [|exists (net_ceiling prepared_net); by rewrite layer_in; auto].
        exfalso. apply Hall. intros x [-> | ->]%layer_in; by apply bool_decide_eq_true. }
      destruct (restricted_rule layer p Hl Hu Hp) as (r & Hr & Hkey).
      assert (effective_decision_for_unix_socket prepared_net (us_path r) = Ok NetAllow) as Hrd.
      { eapply (effective_socket_key p); [by apply allowed_valid| |done|done]. rewrite Forall_forall in Hvalid. specialize (Hvalid _ Hl).
        rewrite Forall_forall in Hvalid. auto. }
      destruct (Hk (NativePathKey_new (normalize_unix_socket_path h (us_path r)))) as (q & Hqin & Hqk).
      { apply (restricted_layers _ _ _ _ H). right. eauto 10. }
      exists r, q. split_and!; [split; eauto|done|done|done].
Qed.

End sockets.

(** * The network rules of a profile *)

Definition sockets_active (plan : MacosUnixSocketPlan) (enabled : bool) : bool :=
  enabled && (us_allow_all plan || negb (bool_decide (us_allowed plan = []))).

Lemma add_unix_socket_rules_spec plan enabled b rules pb rules' :
  add_unix_socket_rules plan enabled (b, rules) = Ok (pb, rules') ->
  pb_definitions pb = pb_definitions b ++ (named "UNIX_SOCKET_PATH" <$> enumerate (if sockets_active plan enabled then us_allowed plan else [])) /\
  forall r, r ∈ rules' <-> r ∈ rules \/ sockets_active plan enabled = true /\
    (r = NetUnixDomain \/ us_allow_all plan = true /\ (r = NetUnixAny "network-bind" \/ r = NetUnixAny "network-outbound") \/
     exists e, e ∈ enumerate (us_allowed plan) /\
       (r = NetUnixSubpath "network-bind" (indexed "UNIX_SOCKET_PATH" e.1) \/ r = NetUnixSubpath "network-outbound" (indexed "UNIX_SOCKET_PATH" e.1))).
Proof.
  unfold add_unix_socket_rules. replace (negb enabled || (negb (us_allow_all plan) && bool_decide (us_allowed plan = [])))
    with (negb (sockets_active plan enabled)) by (unfold sockets_active; by destruct enabled, (us_allow_all plan), (bool_decide _)).
  destruct (sockets_active plan enabled); simpl negb; cbv iota.
  - intros H. assert (forall s e s', add_unix_socket_path s e = Ok s' -> grows s.1 s'.1 [named "UNIX_SOCKET_PATH" e] [] /\
      forall r, r ∈ s'.2 <-> r ∈ s.2 \/ (r = NetUnixSubpath "network-bind" (indexed "UNIX_SOCKET_PATH" e.1) \/
                                          r = NetUnixSubpath "network-outbound" (indexed "UNIX_SOCKET_PATH" e.1))) as Hstep.
    { unfold add_unix_socket_path. intros s [i q] s' (b1 & Hb%add_definition_grows & [= <-])%bind_Ok. split; [exact Hb|].
      intros r. simpl. rewrite elem_of_app, !elem_of_cons, elem_of_nil. tauto. }
    split.
    + destruct (loop_grows fst "UNIX_SOCKET_PATH" (fun _ => True) _ _ _ _ ltac:(intros s e s' Hs; exists []; split; [by apply Hstep|done]) H)
        as (rs & [Hd _] & _). exact Hd.
    + intros r. rewrite (foldM_adds (fun s r => r ∈ s.2) _ _ _ _ _ (fun s e s' _ Hs => proj2 (Hstep s e s' Hs)) H r). simpl.
      rewrite elem_of_app, elem_of_cons. destruct (us_allow_all plan); rewrite ?elem_of_cons, ?elem_of_nil; naive_solver.
  - intros [= <- <-]. split; [simpl; by rewrite app_nil_r|]. naive_solver.
Qed.

Section reach.
Context `{!SeatbeltNetwork} `{!SeatbeltNetworkLaws} (h : MacHost).

Lemma fixed_definitions base : pb_definitions (add_fixed_system_executable_roots base) = pb_definitions base.
Proof. done. Qed.

(** The rules of a plan: its own, and those of its sockets *)
Definition plan_rules (network : MacosNetworkPlan) : list NetworkRule :=
  match network with
  | NetPlanDisabled _ => []
  | NetPlanDirect _ => [NetAny "network-outbound"; NetAny "network-inbound"; NetServices]
  | NetPlanProxy _ port => match port with Some port => [NetLocalhost "network-outbound" port; NetServices] | None => [] end
  end.

Lemma add_network_sockets network b pb rules :
  add_network network (b, base_network_rules) = Ok (pb, rules) ->
  add_unix_socket_rules (plan_unix network) (match network with NetPlanDisabled _ => false | _ => true end)
    (b, base_network_rules ++ plan_rules network) = Ok (pb, rules).
Proof. destruct network as [unix|unix|unix [port|]]; done. Qed.

(** What the rules reach *)
Lemma reached_tcp network b pb rules loopback port :
  add_network network (b, base_network_rules) = Ok (pb, rules) ->
  connect_allowed rules (pb_definitions pb) (TcpEndpoint loopback port) = true <->
  loopback = true /\ proxy_port network = Some port \/ exists unix, network = NetPlanDirect unix.
Proof.
  intros [_ Hr]%add_network_sockets%add_unix_socket_rules_spec. rewrite connects_by_rule, existsb_exists. setoid_rewrite <- list_elem_of_In.
  setoid_rewrite Hr. split.
  - intros (r & [[->|Hin]%elem_of_cons|(_ & [->|[(_ & [->| ->])|(e & _ & [->| ->])]])] & Hx); try done.
    destruct network as [unix|unix|unix [p|]]; simpl in Hin; rewrite ?elem_of_cons, ?elem_of_nil in Hin; [done|eauto| |done].
    destruct Hin as [->|[->|[]]]; simpl in Hx; [|done]. apply andb_true_iff in Hx as [-> ->%N.eqb_eq]. by left.
  - intros [[-> Hp]|[unix ->]].
    + destruct network as [unix|unix|unix [p|]]; simplify_eq/=. exists (NetLocalhost "network-outbound" port).
      split; [left; right; apply list_elem_of_here|simpl; apply N.eqb_refl].
    + exists (NetAny "network-outbound"). split; [left; right; apply list_elem_of_here|done].
Qed.

Lemma reached_unix network b pb rules p :
  (forall i rest, param (pb_definitions b ++ rest) (indexed "UNIX_SOCKET_PATH" i) = param rest (indexed "UNIX_SOCKET_PATH" i)) ->
  add_network network (b, base_network_rules) = Ok (pb, rules) ->
  connect_allowed rules (pb_definitions pb) (UnixEndpoint p) = true <->
  paths_equal p SYSLOG_SOCKET = true \/ (exists unix, network = NetPlanDirect unix) \/
  (forall unix, network <> NetPlanDisabled unix) /\
    (us_allow_all (plan_unix network) = true \/ exists q, q ∈ us_allowed (plan_unix network) /\ is_within p q = true).
Proof.
  intros Hfresh [Hd Hr]%add_network_sockets%add_unix_socket_rules_spec. rewrite connects_by_rule, existsb_exists. setoid_rewrite <- list_elem_of_In.
  setoid_rewrite Hr. unfold sockets_active in *. set (active := match network with NetPlanDisabled _ => false | _ => true end) in *.
  assert (active = true <-> forall unix, network <> NetPlanDisabled unix) as <- by (subst active; destruct network; naive_solver).
  assert (forall i q, active = true -> (i, q) ∈ enumerate (us_allowed (plan_unix network)) ->
            param (pb_definitions pb) (indexed "UNIX_SOCKET_PATH" i) = Some q) as Hparam.
  { intros i q -> Hi. rewrite Hd, Hfresh, bool_decide_eq_false_2 by (intros E; rewrite E in Hi; by apply elem_of_nil in Hi). rewrite orb_true_r. simpl.
    rewrite <- (app_nil_r (named _ <$> _)). by apply param_here. }
  split.
  - intros (r & [[->|Hin]%elem_of_cons|([Ha _]%andb_true_iff & [->|[(Hall & [->| ->])|([i q] & Hi & [->| ->])]])] & Hx); try done; [by left|right..].
    + left. destruct network as [unix|unix|unix [port|]]; simpl in Hin; rewrite ?elem_of_cons, ?elem_of_nil in Hin; [done|eauto| |done].
      by destruct Hin as [->|[->|[]]].
    + eauto.
    + right. split; [done|right]. exists q. simpl in Hx. rewrite (Hparam i q) in Hx by done. split; [|done].
      by apply enumerate_lookup, list_elem_of_lookup_2 in Hi.
  - intros [Hlog|[[unix ->]|[Ha [Hall|(q & Hq & Hw)]]]].
    + exists (NetLiteral "network-outbound" SYSLOG_SOCKET). split; [left; apply list_elem_of_here|exact Hlog].
    + exists (NetAny "network-outbound"). split; [left; right; apply list_elem_of_here|done].
    + exists (NetUnixAny "network-outbound"). split; [|done]. right. rewrite Ha, Hall. split; [done|]. right. left. auto.
    + apply list_elem_of_lookup in Hq as [i Hi%enumerate_lookup]. exists (NetUnixSubpath "network-outbound" (indexed "UNIX_SOCKET_PATH" i)).
      split; [|simpl; by rewrite (Hparam i q)]. right. rewrite Ha, bool_decide_eq_false_2 by (intros E; rewrite E in Hi; by apply elem_of_nil in Hi).
      rewrite orb_true_r. split; [done|]. right. right. exists (i, q). auto.
Qed.

End reach.

Section confined.
Context {SB : Seatbelt} {SBL : SeatbeltLaws} {SN : SeatbeltNetwork} {SNL : SeatbeltNetworkLaws} (h : MacHost).
Context {U : Unicode} {G : Globset} {W : WildMatch} {B : Type} `{!SandboxBackend B}.

(** The policy lets every host and every address be reached. *)
Definition network_open (n : EffectiveNetworkPolicy) : Prop :=
  (forall domain host, normalize_domain domain = Ok host -> effective_decision_for_domain n domain = Ok NetAllow) /\
  forall domain host ips, normalize_domain domain = Ok host -> normalize_domain host = Ok host -> ips <> [] ->
    (forall literal ip, parse_ip_literal host = Some literal -> ip ∈ ips -> ip = literal) ->
    effective_decision_for_resolved_ips n domain ips = Ok NetAllow.

Definition sockets_open (n : EffectiveNetworkPolicy) : Prop :=
  forall p, valid_absolute p -> effective_decision_for_unix_socket n p = Ok NetAllow.

(** What a lowered plan says of the policy *)
Lemma mac_network_lower_spec (bk : B) prepared plan :
  mac_network_lower h bk prepared = Ok plan ->
  let q := network_requirements (prepared_net prepared) in
  nreq_mode q = NetDisabled /\ plan = NetPlanDisabled unix_plan_default \/
  nreq_mode q = NetEnabled /\ exists unix, lower_unix_socket_plan h bk prepared (network_lowering (prepared_net prepared)) = Ok unix /\
    (plan = NetPlanProxy unix None \/
     plan = NetPlanDirect unix /\ network_open (prepared_net prepared) /\ sockets_open (prepared_net prepared)).
Proof.
  unfold mac_network_lower. intros (sandbox & Hs%map_err_Ok & H)%bind_Ok.
  pose proof Hs as Hsandbox. unfold prepared_sandbox in Hs. apply bind_Ok in Hs as (u & Hens & [= <-]). cbv zeta in H. change (es_network _) with (prepared_net prepared) in H.
  pose proof (network_requirements_sound (prepared_net prepared)) as (_ & _ & Hopen). cbv zeta.
  destruct (bool_decide _); [done|]. apply bind_Ok in H as (lowering & Hl%map_err_Ok & H). unfold prepared_network_lowering in Hl.
  apply bind_Ok in Hl as (_ & _ & [= <-]). change (network_lowering _) with (network_lowering (prepared_net prepared)) in H.
  apply bind_Ok in H as (unix & Hunix & H). destruct (nreq_mode (network_requirements (prepared_net prepared))) eqn:Hm; [| |done].
  - injection H as <-. left. split; [done|]. f_equal. unfold lower_unix_socket_plan in Hunix.
    apply bind_Ok in Hunix as (sandbox & Hs%map_err_Ok & Hunix). rewrite Hsandbox in Hs. injection Hs as <-. cbv zeta in Hunix.
    change (es_network _) with (prepared_net prepared) in Hunix. rewrite Hm, bool_decide_eq_true_2 in Hunix by done. by injection Hunix.
  - right. split; [done|]. exists unix. split; [done|]. specialize (Hopen eq_refl) as (Hd & Ht & _ & Hsock).
    destruct (_ || _) eqn:Hr in H; injection H as <-; [by left|right]. bool_inv. split; [done|]. split; [split|].
    + exact (Hd ltac:(assumption)).
    + exact (Ht ltac:(assumption)).
    + exact (Hsock ltac:(assumption) ltac:(assumption) ltac:(assumption)).
Qed.

(** C8. A launch connects only to what its policy allows.  A TCP connection goes
    to the loopback port of the launch's own gateway unless the policy allows
    every host and every address; a Unix socket is reached only when it is the
    system log's, which the fixed policy allows to every launch, when the policy
    allows every socket or when it lies within the resolved path of a rule whose
    socket the policy allows; and every socket the policy allows can be reached,
    by the resolved path of the rule about it unless all can. *)
Theorem macos_network_confined bk prepared plan network base filesystem pb rules :
  mac_network_lower h bk prepared = Ok plan ->
  network = plan \/ (exists port, network = with_ingress_port plan port) ->
  pb_definitions base = [] -> mac_build h base filesystem network = Ok (pb, rules) ->
  let n := prepared_net prepared in
  let reaches := connect_allowed rules (pb_definitions pb) in
  (forall loopback port, reaches (TcpEndpoint loopback port) = true ->
     loopback = true /\ proxy_port network = Some port \/ network_open n) /\
  (forall p, reaches (UnixEndpoint p) = true -> paths_equal p SYSLOG_SOCKET = true \/ sockets_open n \/
     exists r, allowed_rule prepared r /\ is_within p (normalize_unix_socket_path h (us_path r)) = true) /\
  (Forall (fun layer => Forall (fun r => valid_absolute (us_path r)) (unix_sockets layer)) (net_layers (network_lowering n)) ->
   forall p, effective_decision_for_unix_socket n p = Ok NetAllow ->
     (forall q, reaches (UnixEndpoint q) = true) \/
     exists r, allowed_rule prepared r /\ NativePathKey_new p = NativePathKey_new (us_path r) /\
       forall q, is_within q (normalize_unix_socket_path h (us_path r)) = true -> reaches (UnixEndpoint q) = true).
Proof.
  intros Hl%mac_network_lower_spec Hnet Hbase (b1 & (grants & others & tail & filters & Hb1)%add_filesystem_assembled & Hadd)%bind_Ok;
    [|by rewrite fixed_definitions]. cbv zeta.
  pose proof (as_sockets _ _ _ _ _ _ _ _ Hb1) as Hfresh.
  pose proof (fun p => reached_unix network b1 pb rules p Hfresh Hadd) as Hunix.
  pose proof (fun loopback port => reached_tcp network b1 pb rules loopback port Hadd) as Htcp.
  pose proof (network_requirements_sound (prepared_net prepared)) as (Hdis & _ & _).
  destruct Hl as [[Hm ->]|[Hm (unix & Hl & Hplan)]].
  - assert (network = NetPlanDisabled unix_plan_default) as -> by (destruct Hnet as [->|[? ->]]; done).
    setoid_rewrite Hunix. setoid_rewrite Htcp. split_and!; [naive_solver|naive_solver|]. intros _ p Hp. by destruct (Hdis Hm) as [_ []%(fun f => f p Hp)].
  - assert (plan_unix network = unix /\ (forall u, network <> NetPlanDisabled u) /\
      ((exists u, network = NetPlanDirect u) -> network_open (prepared_net prepared) /\ sockets_open (prepared_net prepared))) as (Hu & Hnd & Hdirect)
      by (destruct Hplan as [->|(-> & ? & ?)], Hnet as [->|[? ->]]; naive_solver).
    setoid_rewrite Hunix. setoid_rewrite Htcp. rewrite Hu. clear Hunix Htcp.
    destruct (unix_plan_spec h bk prepared unix Hl Hm) as (Hopen & Hfrom & Hall). split_and!.
    + intros loopback port [?|Hd]; [by left|right]. by apply Hdirect.
    + intros p [Hlog|[Hd|[_ Hs]]]; [by left|right; left; by apply Hdirect|right].
      destruct Hs as [Ha|(q & Hq & Hw)]; [left; intros q; by apply Hopen|right]. destruct (Hfrom q Hq) as (r & Hr & ->). eauto.
    + intros Hvalid p Hp. destruct (Hall Hvalid p Hp) as [Ha|(r & q & Hr & Hk & Hq & Hqk)]; [left; intros q; right; right; auto|right].
      exists r. split_and!; [done|done|]. intros p' Hw. right. right. split; [done|right]. exists q. split; [done|]. by rewrite (key_within p' q _ Hqk).
Qed.

End confined.
