(* ===== verification/MacosBackend.v ===== *)
(** [cageforge-macos/src/backend.rs] and [runtime.rs]: the capabilities of the
    backend, the preparation of a launch and its environment. *)

From Stdlib Require Import Ascii String NArith Lia.
From stdpp Require Import base option strings list gmap pretty sets.
From S2P Require Import Prelude Keyed Text BTree NativePath Access Selector PathPattern FsPolicy Domain LocalIpc NetPolicy Policy Environment Command Compose Effective Requirements EffectiveEnv HostFs Backend LinuxHost MacosFilesystem MacosSeatbelt MacosProfile MacosNetwork.

(** * The backend *)

Record MacosBackend := { mac_identity : BackendIdentity }.

Definition mac_capabilities : list BackendCapability :=
  [CapCommandExecution; CapWorkingDirectory; CapStdioInherit; CapStdioNull; CapStdioPipe; CapTimeoutDisabled;
   CapTimeoutBackendDefault; CapTimeoutLimit; CapFilesystemRestricted; CapFilesystemUnrestricted; CapFilesystemScopes;
   CapFilesystemExecutableMapping; CapFilesystemAbsoluteScopes; CapFilesystemWorkspaceScopes; CapFilesystemRootScopes;
   CapFilesystemMinimalScopes; CapFilesystemTmpdirScopes; CapFilesystemConventionalTemporaryScopes;
   CapFilesystemReadOnlySubpaths; CapFilesystemGlobs; CapFilesystemGlobScanDepth; CapFilesystemMissingPathBehavior;
   CapFilesystemProtectedPaths; CapNetworkDisabled; CapNetworkEnabled; CapNetworkDomainRules;
   CapNetworkLocalAddressRestrictions; CapNetworkResolvedTargets; CapNetworkLocalIpcIsolation; CapNetworkLocalIpcRules;
   CapEnvironmentAll; CapEnvironmentCore; CapEnvironmentNone; CapEnvironmentFilters; CapEnvironmentOverrides].

#[global] Instance macos_sandbox_backend : SandboxBackend MacosBackend := {|
  backend_identity := mac_identity;
  capabilities _ := from_capabilities mac_capabilities
|}.

Inductive MacosBackendError :=
  | MacBackendContract (source : BackendContractError)
  | MacFilesystem (source : MacosFilesystemError)
  | MacNetwork (source : MacosNetworkError)
  | MacEnvironment (source : CommandError).

Definition is_fixed_executable (p : path) : bool := existsb (fun root => is_within p root) FIXED_EXECUTABLE_ROOTS.

Section backend.
Context {U : Unicode} {G : Globset} {W : WildMatch}.
Context (h : MacHost) (b : MacosBackend).

Definition mac_validate_program (prepared : PreparedBackendRequest) : result MacosBackendError unit :=
  spec ← map_err MacBackendContract (prepared_command_spec prepared b);
  if negb (is_absolute (program spec)) then Ok ()
  else if is_fixed_executable (program spec) then Ok ()
  else
    decision ← map_err MacBackendContract (prepared_access_for_path prepared b (program spec));
    _ ← match decision with
        | FRead | FWrite => Ok ()
        | FDeny => Err (MacFilesystem (ProgramRequiresRead (program spec)))
        | FExternallyEnforced => Err (MacFilesystem ExternalOwnership)
        end;
    c ← map_err MacBackendContract (prepared_path_context prepared b);
    reject negb (existsb (fun root => is_within (program spec) root) (Selector.executable_roots (context c)))
      with MacFilesystem (ProgramRequiresExecutableRoot (program spec)) ;;
    Ok ().

(** [MacosBackend::prepare] *)
Definition mac_prepare (request : BackendRequest) (base : PathResolutionContext) : result MacosBackendError PreparedBackendRequest :=
  prepared ← map_err MacBackendContract (prepare_for request b base);
  _ ← mac_validate_program prepared;
  _ ← map_err MacFilesystem (mac_lower h b prepared);
  _ ← map_err MacNetwork (mac_network_lower h b prepared);
  Ok prepared.

Definition core_names : list string :=
  ["PATH"; "SHELL"; "TMPDIR"; "TEMP"; "TMP"; "HOME"; "LANG"; "LC_ALL"; "LC_CTYPE"; "LOGNAME"; "USER"].

(** [vars] is the environment of the calling process. *)
Definition environment_input (vars : list (string * string)) (base : EnvironmentBase) : result MacosBackendError EnvironmentInput :=
  match base with
  | BaseAll => map_err MacEnvironment (input_all vars)
  | BaseCore =>
      map_err MacEnvironment (input_core (filter (fun entry => bool_decide (to_str entry.1 = Some entry.1 /\ entry.1 ∈ core_names) = true) vars))
  | BaseNone => Ok input_empty
  end.

Definition PROXY_NAMES : list string :=
  ["HTTP_PROXY"; "HTTPS_PROXY"; "ALL_PROXY"; "http_proxy"; "https_proxy"; "all_proxy"; "NO_PROXY"; "no_proxy"].

Definition is_proxy_name (name : string) : bool := existsb (fun proxy => bool_decide (name_key name = name_key proxy)) PROXY_NAMES.

(** The variables [apply_proxy_environment] inserts, in order *)
Definition proxy_variables (port : N) : list (string * string) :=
  let http := "http://127.0.0.1:" +:+ pretty port in
  let socks := "socks5h://127.0.0.1:" +:+ pretty port in
  [("HTTP_PROXY", http); ("http_proxy", http); ("HTTPS_PROXY", http); ("https_proxy", http); ("ALL_PROXY", socks);
   ("all_proxy", socks); ("NO_PROXY", EmptyString); ("no_proxy", EmptyString)].

Definition apply_proxy_environment (environment : BTreeMap string string) (port : N) : BTreeMap string string :=
  foldl (fun env entry => bt_insert entry.1 entry.2 env)
    (bt_retain (fun name _ => negb (is_proxy_name name)) environment) (proxy_variables port).

End backend.

(** * Preparation *)

Section preparation.
Context {U : Unicode} {G : Globset} {W : WildMatch}.
Context (h : MacHost) (b : MacosBackend).

(** The proxy variables, whatever the spelling of the names *)
Lemma proxy_environment_exact environment port name :
  bt_wf environment ->
  bt_get name (apply_proxy_environment environment port) =
  match list_find (fun entry => entry.1 = name) (proxy_variables port) with
  | Some (_, (_, value)) => Some value
  | None => if is_proxy_name name then None else bt_get name environment
  end.
Proof.
  intros Hwf. unfold apply_proxy_environment.
  assert (NoDup (proxy_variables port).*1) as Hnd by (apply (bool_decide_unpack _); vm_compute; done).
  assert (bt_get name (bt_retain (fun name _ => negb (is_proxy_name name)) environment) =
          if is_proxy_name name then None else bt_get name environment) as <-.
  { rewrite bt_get_retain by done. destruct (bt_get name environment); by destruct (is_proxy_name name). }
  generalize (bt_retain (fun name _ => negb (is_proxy_name name)) environment). revert Hnd. generalize (proxy_variables port). clear.
  induction l as [|[k v] l IH]; intros Hnd env; simpl in *; [done|]. apply NoDup_cons in Hnd as [Hk Hnd]. rewrite IH by done.
  destruct (decide (k = name)) as [->|Hne].
  - destruct (list_find _ l) as [[i [k' v']]|] eqn:E; simpl; [|apply bt_get_insert].
    apply list_find_Some in E as (Hi & Heq & _). simpl in Heq. subst k'. exfalso. apply Hk. apply list_elem_of_fmap.
    exists (name, v'). split; [done|]. by eapply list_elem_of_lookup_2.
  - destruct (list_find _ l) as [[i [k' v']]|] eqn:E; simpl; [done|].
    apply bt_get_insert_ne. intros ?%cmp_eq. by subst.
Qed.

(** A decision for a socket, when both layers enforce networking *)
Lemma enabled_socket_decides n p :
  net_mode (net_requested n) = NetEnabled -> net_mode (net_ceiling n) = NetEnabled -> valid_absolute p ->
  exists d, effective_decision_for_unix_socket n p = Ok d /\ d <> NetExternallyEnforced.
Proof.
  intros M1 M2 Hp. unfold effective_decision_for_unix_socket.
  assert (forall layer, net_mode layer = NetEnabled -> exists d, decision_for_unix_socket layer p = Ok d /\ d <> NetExternallyEnforced) as Hd.
  { intros layer Hm. destruct (decision_for_unix_socket layer p) as [d|e] eqn:E; [exists d; split; [done|by apply (socket_mode layer p)]|].
    unfold decision_for_unix_socket in E. rewrite (proj2 (selector_absolute_Ok p _) (conj Hp eq_refl)) in E. cbn in E. rewrite Hm in E. simpl in E.
    by destruct (unix_socket_mode layer). }
  destruct (Hd _ M1) as (d1 & H1 & N1), (Hd _ M2) as (d2 & H2 & N2). exists (combine_network_decisions d1 d2). split.
  - unfold both_sides. rewrite H1, H2. done.
  - by destruct d1, d2.
Qed.

Lemma foldM_is_Ok {E A X} (f : A -> X -> result E A) l acc :
  (forall a x, x ∈ l -> exists a', f a x = Ok a') -> exists acc', foldM f acc l = Ok acc'.
Proof.
  clear. revert acc. induction l as [|x l IH]; intros acc Hf; simpl; [by eexists|].
  destruct (Hf acc x (list_elem_of_here _ _)) as [a' Ha]. rewrite Ha. simpl. apply IH. intros a y Hy. apply Hf. by right.
Qed.

(** What preflight leaves of the network requirements *)
Lemma preflight_network request base prepared :
  prepare_for request b base = Ok prepared ->
  let q := network_requirements (prepared_net prepared) in
  ensure_backend prepared b = Ok () /\ nreq_mode q <> NetExternal /\ (nreq_mode q = NetEnabled -> nreq_local_ipc_deny_rules q = false).
Proof.
  intros Hp q. pose proof (prepared_capabilities_cover request b base prepared Hp) as (_ & _ & (Hmode & _ & Hrules) & _).
  apply prepare_for_Ok in Hp as (_ & _ & c & dir & d & _ & _ & _ & _ & _ & ->). subst q. unfold prepared_net. simpl prepared_request. split_and!.
  - rewrite ensure_backend_spec. simpl. by rewrite !decide_True.
  - intros Hext. rewrite Hext in Hmode. vm_compute in Hmode. done.
  - intros Hm. apply not_true_is_false. intros Hd. apply (Hrules Hm) in Hd. vm_compute in Hd. done.
Qed.

Lemma lower_layers_total prepared allow_all st :
  ensure_backend prepared b = Ok () ->
  (forall layer, layer ∈ net_layers (network_lowering (prepared_net prepared)) -> net_mode layer = NetEnabled /\
     forall r, r ∈ unix_sockets layer -> exists d, effective_decision_for_unix_socket (prepared_net prepared) (us_path r) = Ok d /\
       d <> NetExternallyEnforced /\ (allow_all = true -> d = NetAllow)) ->
  exists st', foldM (lower_unix_layer h b prepared allow_all) st (net_layers (network_lowering (prepared_net prepared))) = Ok st'.
Proof.
  intros Hens Hlayers. apply foldM_is_Ok. intros a layer [Hm Hr]%Hlayers. unfold lower_unix_layer. rewrite Hm, bool_decide_eq_false_2 by done.
  apply foldM_is_Ok. intros s r (d & Hd & Hne & Hall)%Hr. unfold lower_unix_rule, prepared_decision_for_unix_socket.
  rewrite Hens. cbn [mbind result_bind]. fold (prepared_net prepared). rewrite Hd. cbn [map_err mbind result_bind].
  destruct d; [by eexists| |done]. destruct allow_all; [by discriminate (Hall eq_refl)|by eexists].
Qed.

(** Without deny rules, layers that allow every socket by default allow it. *)
Lemma default_open n p :
  let q := network_requirements n in
  nreq_mode q = NetEnabled -> nreq_local_ipc_isolation q = false -> nreq_local_ipc_deny_rules q = false ->
  forallb (fun layer => bool_decide (unix_socket_mode layer = UnixEnabled)) (net_layers (network_lowering n)) = true ->
  valid_absolute p -> effective_decision_for_unix_socket n p = Ok NetAllow.
Proof.
  intros q Hm Hi Hd Hall Hp. refine (proj2 (proj2 (proj2 (proj2 (proj2 (network_requirements_sound n)) Hm))) Hi _ Hd p Hp).
  unfold network_requirements. cbn [nreq_local_ipc_rules existsb forallb net_layers network_lowering] in *.
  bool_inv. repeat match goal with H : _ = UnixEnabled |- _ => rewrite H; clear H end. simpl. by rewrite !andb_false_r.
Qed.

(** C28. Preflight leaves the network lowering nothing to refuse.  For a request
    that passed the common preflight with the capabilities of the macOS backend,
    and whose Unix-socket rules name absolute paths, the lowering always returns
    a plan: neither external ownership nor a socket policy Seatbelt cannot
    express reaches it. *)
Theorem macos_network_total request base prepared :
  prepare_for request b base = Ok prepared ->
  Forall (fun layer => Forall (fun r => valid_absolute (us_path r)) (unix_sockets layer)) (net_layers (network_lowering (prepared_net prepared))) ->
  exists plan, mac_network_lower h b prepared = Ok plan.
Proof.
  intros (Hens & Hext & Hdeny)%preflight_network Hvalid. cbv zeta in *.
  set (q := network_requirements (prepared_net prepared)) in *.
  assert (prepared_sandbox prepared b = Ok (req_sandbox (prepared_request prepared))) as Hsandbox by (unfold prepared_sandbox; by rewrite Hens).
  assert (exists unix, lower_unix_socket_plan h b prepared (network_lowering (prepared_net prepared)) = Ok unix) as [unix Hunix].
  { unfold lower_unix_socket_plan. rewrite Hsandbox. cbn [map_err mbind result_bind]. fold (prepared_net prepared). fold q.
    destruct (nreq_mode q) eqn:Hm; [by eexists| |done]. specialize (Hdeny eq_refl).
    destruct (nreq_local_ipc_isolation q) eqn:Hi; [by eexists|]. cbn [orb]. rewrite bool_decide_eq_false_2 by done. cbn [orb]. cbv zeta.
    set (allow_all := forallb _ _). destruct (lower_layers_total prepared allow_all ([], []) Hens) as [st' Hst]; [|rewrite Hst; by eexists].
    pose proof (proj1 (effective_network_enabled _ _) Hm) as [M1 M2]. rewrite Forall_forall in Hvalid.
    intros layer Hl. split; [by apply layer_in in Hl as [-> | ->]|]. intros r Hr. pose proof (Hvalid _ Hl) as Hv. rewrite Forall_forall in Hv.
    destruct (enabled_socket_decides _ (us_path r) M1 M2 (Hv r Hr)) as (d & Hd & Hne). exists d. split_and!; [done|done|].
    intros Hall. rewrite (default_open _ (us_path r) Hm Hi Hdeny Hall (Hv r Hr)) in Hd. by injection Hd. }
  unfold mac_network_lower. rewrite Hsandbox. cbn [map_err mbind result_bind]. fold (prepared_net prepared). fold q. cbv zeta.
  rewrite bool_decide_eq_false_2 by done. unfold prepared_network_lowering. rewrite Hens. cbn [map_err mbind result_bind].
  fold (prepared_net prepared). rewrite Hunix. cbn [mbind result_bind]. destruct (nreq_mode q); [by eexists| |done]. destruct (_ || _); by eexists.
Qed.

End preparation.
