(* ===== verification/MacosExamples.v ===== *)
(** Concrete macOS launches: a host tree, Seatbelt as the profile relies on it,
    and the plans and profiles of a few policies. *)

From Stdlib Require Import Ascii String NArith Lia.
From stdpp Require Import base option strings gmap pretty sorting list.
From S2P Require Import Prelude Keyed Text BTree NativePath Access Selector PathPattern FsPolicy Domain LocalIpc NetPolicy Policy Environment Command Compose Effective Requirements EffectiveEnv HostFs Backend LinuxHost LinuxGlob LinuxMounts LinuxTable LinuxBwrap LinuxGoverned LinuxEnforce LinuxExamples MacosFilesystem MacosSeatbelt MacosProfile MacosNetwork MacosBackend.

(** * Hosts *)

Definition mac_tree (h : TreeHost) : MacHost := {|
  mac_symlink_metadata := tree_metadata h;
  mac_metadata := tree_metadata h;
  mac_canonicalize p := _ ← tree_metadata h p; Ok (normalize_lexical_path p)
|}.

(** * Seatbelt *)

(** Expressions match the path they spell. *)
Fixpoint documented_filter (defs : list SeatbeltDefinition) (f : Filter) (directory : bool) (p : path) : bool :=
  match f with
  | FLiteral name => match param defs name with Some q => paths_equal p q | None => false end
  | FSubpath name => match param defs name with Some q => is_within p q | None => false end
  | FSubpathText q => is_within p q
  | FRegex regex => String.eqb regex p
  | FDirectory => directory
  | FNot f => negb (documented_filter defs f directory p)
  | FAll fs => forallb (fun f => documented_filter defs f directory p) fs
  end.

Definition documented_rule (defs : list SeatbeltDefinition) (directory : bool) (operation : string) (p : path) (r : Rule) : bool :=
  existsb (fun pattern => covers pattern operation) (rule_operations r) &&
  existsb (fun f => documented_filter defs f directory p) (rule_filters r).

#[global] Instance documented_seatbelt : Seatbelt := {|
  filter_holds := documented_filter;
  sandbox_allows rules defs directory operation p :=
    foldl (fun verdict r => if documented_rule defs directory operation p r then rule_allow r else verdict) false rules
|}.

#[global] Instance documented_seatbelt_laws : SeatbeltLaws.
Proof. split; try done. intros. simpl. by rewrite foldl_app. Qed.

#[global] Instance documented_network : SeatbeltNetwork := {| connect_allowed rules defs e := existsb (rule_reaches defs e) rules |}.

#[global] Instance documented_network_laws : SeatbeltNetworkLaws.
Proof. done. Qed.

(** * Profiles *)

Section profiles.
#[local] Existing Instance literal_globset.
#[local] Existing Instance ascii_unicode.
#[local] Existing Instance literal_wildmatch.
#[local] Existing Instance ExampleBackend_backend.

Definition empty_plan : MacosFilesystemPlan :=
  {| read_roots := []; write_roots := []; executable_roots := []; denied_paths := []; write_denied_paths := [];
     denied_globs := []; plan_unrestricted := false |}.

Definition mac_plan (f : FilesystemPolicy) (h : TreeHost) : MacosFilesystemPlan :=
  unwrap_or empty_plan (mac_lower (mac_tree h) full_backend (prepared_policy f)).

(** The rules before those of the plan *)
Definition fixed_rules : ProfileBuilder := add_fixed_system_executable_roots {| pb_rules := []; pb_definitions := [] |}.

Definition mac_profile (f : FilesystemPolicy) (h : TreeHost) : ProfileBuilder :=
  unwrap_or fixed_rules (add_filesystem (mac_tree h) (mac_plan f h) fixed_rules).

(** A writable workspace with a denied directory *)
Definition guarded_policy : FilesystemPolicy :=
  restricted [rule_new (at_path "/") Read; rule_new (at_path "/work/app") Write; rule_new (at_path "/work/app/docs") Deny].

Lemma guarded_lowers :
  mac_lower (mac_tree workspace_tree) full_backend (prepared_policy guarded_policy) = Ok (mac_plan guarded_policy workspace_tree).
Proof. vm_compute. reflexivity. Qed.

Lemma guarded_builds :
  add_filesystem (mac_tree workspace_tree) (mac_plan guarded_policy workspace_tree) fixed_rules = Ok (mac_profile guarded_policy workspace_tree).
Proof. vm_compute. reflexivity. Qed.

Example guarded_plan : mac_plan guarded_policy workspace_tree =
  {| read_roots := ["/"; "/work/app"]; write_roots := ["/work/app"]; executable_roots := [];
     denied_paths := ["/work/app/.git"; "/work/app/docs"]; write_denied_paths := []; denied_globs := []; plan_unrestricted := false |}.
Proof. vm_compute. reflexivity. Qed.

(** What the profile of a policy allows *)
Definition mac_allows (f : FilesystemPolicy) (h : TreeHost) (operation : string) (p : path) : bool :=
  sandbox_allows (pb_rules (mac_profile f h)) (pb_definitions (mac_profile f h)) false operation p.

Lemma seatbelt_profile_exact_witness :
  mac_allows guarded_policy workspace_tree "file-write-data" "/work/app/docs/readme" = false /\
  mac_allows guarded_policy workspace_tree "file-write-data" "/work/app/src/main.rs" = true.
Proof.
  split.
  - unfold mac_allows. rewrite (seatbelt_profile_exact (mac_tree workspace_tree) _ fixed_rules _ true false "file-write-data" "/work/app/docs/readme"
      eq_refl guarded_builds); [vm_compute; reflexivity|split_and!; vm_compute; reflexivity|vm_compute; reflexivity|discriminate|discriminate].
  - unfold mac_allows. rewrite (seatbelt_profile_exact (mac_tree workspace_tree) _ fixed_rules _ true false "file-write-data" "/work/app/src/main.rs"
      eq_refl guarded_builds); [vm_compute; reflexivity|split_and!; vm_compute; reflexivity|vm_compute; reflexivity|discriminate|discriminate].
Defined.

Lemma seatbelt_confines_witness :
  mac_allows guarded_policy workspace_tree "file-write-data" "/work/app/src/main.rs" = true /\
  exists root, mac_governs (mac_tree workspace_tree) full_backend (prepared_policy guarded_policy) SWrite root /\
    is_within "/work/app/src/main.rs" root = true.
Proof.
  assert (mac_allows guarded_policy workspace_tree "file-write-data" "/work/app/src/main.rs" = true) as Ha by (vm_compute; reflexivity).
  split; [exact Ha|].
  destruct (seatbelt_confines (mac_tree workspace_tree) full_backend (prepared_policy guarded_policy) _ fixed_rules _ true false
    "file-write-data" "/work/app/src/main.rs" guarded_lowers eq_refl guarded_builds) as [[Hbase|[Hu|[Hroot|[Hmeta _]]]] _];
    [split_and!; vm_compute; reflexivity|vm_compute; reflexivity|exact Ha| | |exact Hroot|discriminate Hmeta].
  - vm_compute in Hbase. discriminate Hbase.
  - vm_compute in Hu. discriminate Hu.
Defined.

(** A writable directory inside a denied one *)
Definition inner_policy : FilesystemPolicy :=
  restricted [rule_new (at_path "/") Read; rule_new (at_path "/work") Deny; rule_new (at_path "/work/app") Write].

Definition mac_shows (f : FilesystemPolicy) (operation : string) (p : path) : bool * result MacosFilesystemError FilesystemDecision :=
  (mac_allows f workspace_tree operation p, mac_access_of full_backend (prepared_policy f) p).

(** The profile differs from the policy in three ways.  A read-only scope inside
    a writable one is writable; the repository metadata of a writable directory,
    which the policy leaves readable, cannot be read; and a writable directory
    inside a denied one is denied. *)
Example macos_profile_deviations :
  mac_shows workspace_policy "file-write-data" "/work/app/docs/readme" = (true, Ok FRead) /\
  mac_shows workspace_policy "file-read-data" "/work/app/.git/HEAD" = (false, Ok FRead) /\
  mac_shows inner_policy "file-write-data" "/work/app/src/main.rs" = (false, Ok FWrite).
Proof. split_and!; vm_compute; reflexivity. Qed.

(** * Networks *)

Definition example_mac : MacosBackend := {| mac_identity := {| backend_token := 11 |} |}.

(** A policy that names one socket *)
Definition socket_policy : NetworkPolicy :=
  unwrap_or net_disabled (with_unix_socket (with_unix_socket_mode net_enabled UnixRestricted) "/run/agent.sock" DAllow).

Definition socket_request : BackendRequest :=
  let request := {| requested_policy := {| filesystem := guarded_policy; network := socket_policy |}; requested_environment := inherit_core;
                    requested_workspace_roots := None;
                    ceiling := {| ceiling_policy := sandbox_full_access; ceiling_environment := inherit_all;
                                  ceiling_workspace_roots := None; ceiling_external_owner := None |};
                    external_owner := None |} in
  {| req_command := example_command; req_sandbox := (unwrap_or (example_sandbox, 0%N) (compose 0 request)).1 |}.

Definition socket_prepared : PreparedBackendRequest :=
  unwrap_or example_prepared (prepare_for socket_request example_mac example_base).

Lemma socket_prepares : prepare_for socket_request example_mac example_base = Ok socket_prepared.
Proof.
  unfold socket_prepared. assert (is_ok (prepare_for socket_request example_mac example_base) = true) as Hok by (vm_compute; reflexivity).
  revert Hok. destruct (prepare_for socket_request example_mac example_base); [reflexivity|discriminate].
Qed.

Lemma socket_rules_valid :
  Forall (fun layer => Forall (fun r => valid_absolute (us_path r)) (unix_sockets layer)) (net_layers (network_lowering (prepared_net socket_prepared))).
Proof.
  assert ((fun layer => us_path <$> unix_sockets layer) <$> net_layers (network_lowering (prepared_net socket_prepared)) = [["/run/agent.sock"]; []])
    as Hpaths by (vm_compute; reflexivity).
  assert (valid_absolute "/run/agent.sock") as Hv by (split_and!; vm_compute; reflexivity).
  assert (Forall (Forall valid_absolute) ((fun layer => us_path <$> unix_sockets layer) <$> net_layers (network_lowering (prepared_net socket_prepared))))
    as Hall by (rewrite Hpaths; constructor; [constructor; [exact Hv|constructor]|constructor; constructor]).
  rewrite Forall_fmap in Hall. eapply Forall_impl; [exact Hall|]. intros layer Hl. exact (proj1 (Forall_fmap us_path valid_absolute (unix_sockets layer)) Hl).
Qed.

Lemma macos_network_total_witness : exists plan, mac_network_lower (mac_tree workspace_tree) example_mac socket_prepared = Ok plan.
Proof. exact (macos_network_total (mac_tree workspace_tree) example_mac socket_request example_base socket_prepared socket_prepares socket_rules_valid). Defined.

Definition socket_plan : MacosNetworkPlan :=
  unwrap_or (NetPlanDisabled unix_plan_default) (mac_network_lower (mac_tree workspace_tree) example_mac socket_prepared).

Example socket_plan_is : socket_plan = NetPlanProxy {| us_allow_all := false; us_allowed := ["/run/agent.sock"] |} None.
Proof. vm_compute. reflexivity. Qed.

Definition socket_profile : ProfileBuilder * list NetworkRule :=
  unwrap_or (fixed_rules, []) (mac_build (mac_tree workspace_tree) {| pb_rules := []; pb_definitions := [] |} empty_plan (with_ingress_port socket_plan 8080)).

Lemma macos_network_confined_witness :
  connect_allowed socket_profile.2 (pb_definitions socket_profile.1) (UnixEndpoint "/run/agent.sock") = true /\
  exists r, allowed_rule socket_prepared r /\
    is_within "/run/agent.sock" (normalize_unix_socket_path (mac_tree workspace_tree) (us_path r)) = true.
Proof.
  assert (connect_allowed socket_profile.2 (pb_definitions socket_profile.1) (UnixEndpoint "/run/agent.sock") = true) as Hc by (vm_compute; reflexivity).
  split; [exact Hc|].
  destruct (macos_network_confined (mac_tree workspace_tree) example_mac socket_prepared socket_plan (with_ingress_port socket_plan 8080)
    {| pb_rules := []; pb_definitions := [] |} empty_plan socket_profile.1 socket_profile.2) as (_ & Hunix & _).
  - vm_compute. reflexivity.
  - right. exists 8080%N. reflexivity.
  - reflexivity.
  - vm_compute. reflexivity.
  - destruct (Hunix "/run/agent.sock" Hc) as [Hlog|[Hopen|Hr]]; [vm_compute in Hlog; discriminate Hlog| |exact Hr].
    assert (valid_absolute "/x") as Hx by (split_and!; vm_compute; reflexivity). specialize (Hopen "/x" Hx). vm_compute in Hopen. discriminate Hopen.
Defined.

(** The environment of a launch behind its gateway *)
Example proxy_environment :
  apply_proxy_environment [("Http_Proxy", "http://elsewhere"); ("PATH", "/bin")] 8080 =
  [("ALL_PROXY", "socks5h://127.0.0.1:8080"); ("HTTPS_PROXY", "http://127.0.0.1:8080"); ("HTTP_PROXY", "http://127.0.0.1:8080");
   ("NO_PROXY", EmptyString); ("PATH", "/bin"); ("all_proxy", "socks5h://127.0.0.1:8080"); ("http_proxy", "http://127.0.0.1:8080");
   ("https_proxy", "http://127.0.0.1:8080"); ("no_proxy", EmptyString)].
Proof. vm_compute. reflexivity. Qed.

End profiles.
